(* ===== verification/_CoqProject ===== *)
-Q . S2P
Prelude.v
GoHeap.v
Job.v
JobHeap.v
ClientResv.v
Index.v
JSM.v
Heaps.v
JobInv.v
Transitions.v
Commands.v
Refine.v
CliInv.v
Clients.v
Reserve.v
Inv.v
Tick.v
Machine.v
Scenario.v
Frame.v
Known.v
Waiting.v
Snapshot.v
Restore.v
WrapJob.v
Parse.v
Persist.v
CmdData.v
Processor.v
ProcSpec.v
LocalJSM.v
ProcWaits.v
LocalWaits.v
ClientURI.v
Store.v
StoreSpec.v
Replica.v
Raft.v
RaftSpec.v
JSMServer.v
Proxy.v
ProxySpec.v
ProxyTick.v
ProxyWaits.v
Link.v
LinkSpec.v
Solo.v
ClusterCmd.v
Node.v
ClusterCmdSpec.v
NodeSpec.v
Process.v
Controller.v
ControllerSpec.v
Delivery.v
DeliverySpec.v
Forgotten.v
Conn.v
ConnSpec.v
Server.v
Front.v
FrontSpec.v
JsmProps.v
WaitProps.v
HeapProps.v
SnapshotProps.v
ProtoProps.v
ConnProps.v
FrontProps.v
StoreProps.v
ClusterProps.v
ClusterFront.v
DeliveryProps.v
NodeProps.v
ProcessProps.v
Defects.v
