(* ===== verification/Prelude.v ===== *)
(** * Coolbeans: a replicated beanstalkd work queue

    Coolbeans is a work queue that speaks the beanstalkd protocol.  Clients connect over
    TCP, put jobs into named tubes, reserve them, and release, bury, touch or delete
    them.  The jobs live in a job state machine that either runs inside the server
    process or is replicated over a cluster by raft.

    ** The parts of the program and the files that model them

    - Go itself: this file has machine integers with their wrap-around, the monad [M] of
      Go calls (a call returns a value or an error with the changed state, panics, or
      runs out of the fuel of a loop) and the shared automation. [GoHeap] is the
      standard library's [container/heap] over an interface, with the laws an
      implementation must satisfy ([HeapLaws]).
    - Package [state].  [Job]: jobs, errors, reservations and the object store that the
      pointers of the code refer to ([src/state/state.go], [errors.go]).  [JobHeap]: the
      four job heaps ([job_heap.go]).  [ClientResv]: the heap, the queues and the map of
      clients ([client_resv.go]).  [Index]: the job, tube and reservation indexes
      ([index.go]).  [JSM]: the state machine [localJSM] with all its operations
      ([jsm.go]).  [Snapshot]: creating and restoring snapshots ([jsm.go],
      [src/store/snapshot.go]).  [Persist]: writing them to a sink and reading them
      back.  [WrapJob]: the interface [Job] with both of its implementations, [localJob]
      and [wrapJob].
    - Package [beanstalkd/core].  [Parse]: reading lines and job data from a reader that
      delivers arbitrary chunks ([parse.go]).  [CmdData]: command lines and their
      arguments ([cmd_data.go], [cmd_type.go]).  [Processor]: the command processor
      ([cmd_proc.go], [client.go]); it calls the state machine through the interface
      [JSM], which is the class [JSMOps].
    - Package [beanstalkd/proto].  [Conn]: the connection state machine and the loop of
      [Tick] ([conn.go]); [Server] composes it with the processor.  [Front]: the
      listener, the loop of the processor and all connections as a system of goroutines
      on unbuffered channels ([tcp_server.go], [cmd_proc.go], [conn.go]).
    - Package [store].  [ClientURI]: the identifiers that carry a proxy and a client
      ([client_uri.go]).  [Store]: the raft fsm, which applies committed entries to the
      state machine ([store.go]).  [Raft]: joining, leaving and applying on the raft
      library, which is the class [RaftNode], with the services of
      [src/cluster/server/cluster_server.go] and [health_server.go].
    - Package [cluster/server].  [JSMServer]: the service through which proxies call the
      replicated state machine ([jsm_server.go]).  [Controller]: the goroutines that
      stream reservations to the proxies, as a step relation
      ([reservations_controller.go], [StreamReserveUpdates]).
    - Packages [cluster/cmd] and [cluster/client].  [ClusterCmd]: bootstrapping, joining
      and leaving a cluster ([cmd_cluster.go], [cluster_client.go]) over a gRPC library
      that is the class [Peers].  [Node]: the life of a node from [RunCoolbeans] to
      [shutdown], the opening of its store ([src/store/store.go]) and the watch of the
      health service, over files, sockets and libraries that are the class [Platform].
    - Package [beanstalkd/proxy].  [Proxy]: the client that implements the interface
      [JSM] by remote calls ([client.go]); it is an instance of [JSMOps].  [Link]: its
      connection, with the goroutine that streams the reservations, as a step relation.
      [Delivery]: the controller of a node composed with that goroutine and its client.
    - The processes.  [Process]: [src/main.go], the commands and their options
      ([src/cluster/cmd], [src/beanstalkd/cmd], [src/tools/opts.go]) over an option
      parser that is the class [Docopt], and the start, failure and stop of the server
      process ([beanstalkd.go], [tcp_server.go]) as a step relation.

    How they interact: a connection hands requests to the processor; the processor calls
    [JSMOps], which is either [localJSM] or the proxy client; the proxy client calls the
    service, the service commits an entry through raft and every replica applies it with
    [Store.Apply] to its [localJSM].  The ticker of the controller commits a tick and
    sends the reservations it answers with to the proxies, whose own tick hands them to
    the processor.

    ** Correspondence

    Structs are records and enumerations inductive types, with the names of the source;
    a method is a definition of the same name, in a module where two types share a
    method name.  Pointers are references into the store [Mem] of [Job.v]: the index,
    the heaps and the queues share jobs, entries and clients exactly as the code does,
    and a nil or dangling dereference panics.  A Go map is a [gmap]; where the code
    ranges over one, the order is an argument (or the parameter [range], of which only
    that it enumerates the keys is assumed).  [int64], [uint64], [int32] and [uint32]
    values are [Z] with explicit wraps.  Loops are structural where the code counts, and
    have fuel otherwise: the fuel of a loop is the length of the heap or list it
    consumes plus one (plus two for the loop over a client's jobs, which may end with
    one more message, and for the loop of a connection, [input_left] plus two: every
    turn consumes input but the last ones), and the theorems show that [DIVERGE],
    running out of fuel, is not a possible outcome.

    ** What the theorems show

    The invariant is built in layers: [Heaps] and [JobInv] (every live job is in exactly
    one heap, the one of its state, at the position its entry records, and the heaps are
    ordered), [CliInv] and [Clients] (queues, client heap and client index agree), [Inv]
    (deadlines are scheduled in time and owners are registered).  [Transitions],
    [Commands], [Reserve], [Tick] prove the operations against it; [Refine] gives the
    abstract table of jobs and shows that the commands implement it; [Machine] has the
    reachable states; [Scenario] executable runs for the concrete instances.
    - [JsmProps] (C1, C2, C5, C6, C14, C15, C17, C18): no call of the interface panics
      or loops from a reachable state; commands refine the abstract table; heaps
      partition the jobs; the exact effect of tick, reserve, put, delete, touch, kick;
      fairness; owner checks; the schedule is timely.
    - [WaitProps] (C11): no waiting request is forgotten or answered twice ([Frame],
      [Known], [Waiting] track the clients through every operation).
    - [HeapProps] (C26): the job heaps sort; removal at an index, FIFO queues.
    - [SnapshotProps] (C12, C35): a snapshot restores to the same jobs and schedule
      ([Restore]), a restored machine works, when messages are exact, failed restores
      are harmless.  [WrapJob] (C23): jobs read from a message behave as the originals.
    - [ProtoProps] (C20, C32, C33): framing does not depend on chunking; numbers survive
      printing and parsing; requests are well typed; every request is answered by one
      complete reply (proved in [ProcSpec] against the laws [JSMLaws] of the interface,
      discharged for [localJSM] in [LocalJSM]).
    - [ConnProps] (C4, C21): a connection implements the reading of its byte stream line
      by line ([ConnSpec]) and always comes to an end.
    - [FrontProps] (C3, C7, C40): the front end never fails and never blocks, no request
      is forgotten, and shutting down strands the clients that wait ([FrontSpec] against
      the laws [JSMWaits] of [ProcWaits], discharged for [localJSM] in [LocalWaits]).
    - [ClusterFront] (C9): the same front end on a proxy client in a cluster
      ([ProxyWaits] discharges [JSMWaits] for the proxy client, and shows that what the
      stream and the cluster do between its calls leaves alone who waits).
    - [StoreProps] (C8, C19, C34): client identifiers are injective and decode; a
      replica applies every log ([StoreSpec] against the interface, [Replica] for
      [localJSM]); the reservations of a tick reach exactly their proxies.
    - [ClusterProps] (C10, C16, C22, C29, C30, C39): the processor on a proxy client
      answers every request ([ProxySpec] discharges [JSMLaws] for the proxy client on
      any network and raft library with the stated laws); on one leading node ([Solo])
      remote calls are local calls; the tick of a proxy ([ProxyTick]); the controller
      never panics, reaches every proxy, and can block ([ControllerSpec]); membership
      ([RaftSpec]).
    - [DeliveryProps] (C13, C25, C38): the stream to a proxy delivers what the
      controller grants, all of it and in order, as long as it lives ([DeliverySpec]);
      its goroutine ends after [Close] ([LinkSpec]); what is granted without a stream is
      lost ([Forgotten]).
    - [NodeProps] (C24, C28, C31): a starting node enters a cluster, attempts to join
      end, a failed join is reported as success ([ClusterCmdSpec]); a node is a member
      while it serves and not afterwards, unless it fails to listen ([NodeSpec]); the
      store gets the configured values, and a watch outlives its client.
    - [ProcessProps] (C27): a signal stops the server process unless its listener
      failed; exit codes of the commands.
    - [Defects] (C36, C37): behaviours that contradict what the code means to do.

    ** Assumptions

    Times and times to run are non-negative and below 2^62 ([clock_ok], [ttr_ok]), so
    that deadlines do not overflow; through a proxy times to run are below 2^31; a
    reservation names no tube twice (the code panics otherwise).  The YAML encoder and
    the order of map iteration are parameters.  Of the raft library [RaftFSM] assumes
    that an entry it commits is applied by [Store.Apply], possibly after others, and
    [RaftMembership] that adding and removing voters does what its documentation says; a
    connection ([Transport]) may run a call any number of times and lose its answer.
    [Solo] is a raft library of one node that satisfies all of them.  Of gRPC [Link]
    assumes that a call on a closed connection or with a cancelled context fails with
    the status Canceled, and that messages arrive in order on an open one.  In the front
    end identifiers of clients are not used twice ([uuid.New]).  The protobuf codec
    reads back what it wrote, and a snapshot sink stores what was written when it is
    closed and nothing when it is cancelled ([SinkLaws]).

    ** Not modelled

    Logging and the values of metrics.  Protobuf encoding: messages are modelled
    decoded, with the integer conversions the code makes.  The inside of the raft, gRPC,
    bolt, metrics and docopt libraries: they are interfaces, whose calls may fail where
    the libraries' do.  Deadlines of remote calls are answers of these interfaces.  The
    printing of values for the log ([String] methods), [ReadFromFile], which nothing
    calls, and the error type [ResultError], which nothing uses.  The generated API and
    the test fakes. *)
From stdpp Require Import base gmap list strings sorting.
From Stdlib Require Import ZArith Lia.
From Stdlib Require Strings.Byte.

(** * Machine integers

    Go's integer types are [Z] values kept in range by an explicit wrap after
    every arithmetic operation that can leave the range. *)
Section machine_integers.
Local Open Scope Z_scope.

Definition wrap_u32 (z : Z) : Z := z mod 2 ^ 32.
Definition wrap_u64 (z : Z) : Z := z mod 2 ^ 64.
Definition wrap_i32 (z : Z) : Z := (z + 2 ^ 31) mod 2 ^ 32 - 2 ^ 31.
Definition wrap_i64 (z : Z) : Z := (z + 2 ^ 63) mod 2 ^ 64 - 2 ^ 63.

Definition in_u32 (z : Z) : Prop := 0 <= z < 2 ^ 32.
Definition in_u64 (z : Z) : Prop := 0 <= z < 2 ^ 64.
Definition in_i32 (z : Z) : Prop := - 2 ^ 31 <= z < 2 ^ 31.
Definition in_i64 (z : Z) : Prop := - 2 ^ 63 <= z < 2 ^ 63.

(** [math.MaxInt64] *)
Definition MaxInt64 : Z := 2 ^ 63 - 1.

Lemma wrap_u32_id z : in_u32 z -> wrap_u32 z = z.
Proof. intros H. apply Z.mod_small, H. Qed.

Lemma wrap_u64_id z : in_u64 z -> wrap_u64 z = z.
Proof. intros H. apply Z.mod_small, H. Qed.

Lemma wrap_i32_id z : in_i32 z -> wrap_i32 z = z.
Proof. unfold in_i32, wrap_i32. intros H. rewrite Z.mod_small; lia. Qed.

Lemma wrap_i64_id z : in_i64 z -> wrap_i64 z = z.
Proof. unfold in_i64, wrap_i64. intros H. rewrite Z.mod_small; lia. Qed.

Lemma wrap_u32_range z : in_u32 (wrap_u32 z).
Proof. apply Z.mod_pos_bound. lia. Qed.

Lemma wrap_u64_range z : in_u64 (wrap_u64 z).
Proof. apply Z.mod_pos_bound. lia. Qed.

Lemma wrap_i64_range z : in_i64 (wrap_i64 z).
Proof.
  unfold in_i64, wrap_i64.
  pose proof (Z.mod_pos_bound (z + 2 ^ 63) (2 ^ 64) ltac:(lia)). lia.
Qed.

Lemma wrap_i32_range z : in_i32 (wrap_i32 z).
Proof.
  unfold in_i32, wrap_i32.
  pose proof (Z.mod_pos_bound (z + 2 ^ 31) (2 ^ 32) ltac:(lia)). lia.
Qed.

(** Converting a [uint64] to [int64] and back loses nothing. *)
Lemma wrap_u64_i64 z : in_u64 z -> wrap_u64 (wrap_i64 z) = z.
Proof.
  unfold in_u64, wrap_u64, wrap_i64. intros H.
  destruct (Z_lt_dec z (2 ^ 63)).
  - rewrite (Z.mod_small (z + 2 ^ 63)) by lia. rewrite Z.mod_small by lia. lia.
  - replace (z + 2 ^ 63) with ((z - 2 ^ 63) + 1 * 2 ^ 64) by lia.
    rewrite Z.mod_add by lia. rewrite (Z.mod_small (z - 2 ^ 63)) by lia.
    replace (z - 2 ^ 63 - 2 ^ 63) with (z + (-1) * 2 ^ 64) by lia.
    rewrite Z.mod_add by lia. apply Z.mod_small. lia.
Qed.
End machine_integers.

(** * Outcomes of Go calls

    A Go function that may mutate state, return an error or panic is a
    function from the state to an [outcome]: an error return keeps the state
    changes made before it.  [DIVERGE] is the outcome of a bounded loop whose
    fuel ran out; the theorems of the library show that it never happens. *)
Inductive outcome (E S A : Type) : Type :=
| OK (a : A) (s : S)
| ERR (e : E) (s : S)
| PANIC
| DIVERGE.
Arguments OK {E S A} a s.
Arguments ERR {E S A} e s.
Arguments PANIC {E S A}.
Arguments DIVERGE {E S A}.

Definition M (E S A : Type) : Type := S -> outcome E S A.

Section monad.
Context {E S : Type}.

Definition ret {A} (a : A) : M E S A := fun s => OK a s.
Definition raise {A} (e : E) : M E S A := fun s => ERR e s.
Definition panic {A} : M E S A := fun _ => PANIC.
Definition diverge {A} : M E S A := fun _ => DIVERGE.

Definition bind {A B} (m : M E S A) (k : A -> M E S B) : M E S B :=
  fun s => match m s with
           | OK a s' => k a s'
           | ERR e s' => ERR e s'
           | PANIC => PANIC
           | DIVERGE => DIVERGE
           end.

(** [x, err := f()] with the error inspected by the caller. *)
Definition try {A} (m : M E S A) : M E S (A + E) :=
  fun s => match m s with
           | OK a s' => OK (inl a) s'
           | ERR e s' => OK (inr e) s'
           | PANIC => PANIC
           | DIVERGE => DIVERGE
           end.

Definition get : M E S S := fun s => OK s s.
Definition gets {A} (f : S -> A) : M E S A := fun s => OK (f s) s.
Definition put (s : S) : M E S unit := fun _ => OK tt s.
Definition modify (f : S -> S) : M E S unit := fun s => OK tt (f s).

(** Dereferencing: a missing object is a nil-pointer or index panic. *)
Definition deref {A} (o : S -> option A) : M E S A :=
  fun s => match o s with Some a => OK a s | None => PANIC end.

Definition when (b : bool) (m : M E S unit) : M E S unit :=
  if b then m else ret tt.
End monad.

(** Run an operation of a component on the part of the state that holds it. *)
Definition zoom {E S T A} (g : S -> T) (p : T -> S -> S) (m : M E T A) : M E S A :=
  fun s => match m (g s) with
           | OK a t => OK a (p t s)
           | ERR e t => ERR e (p t s)
           | PANIC => PANIC
           | DIVERGE => DIVERGE
           end.

Declare Scope go_scope.
Delimit Scope go_scope with go.
Notation "x <- m ;; k" := (bind m (fun x => k))
  (at level 100, m at next level, right associativity) : go_scope.
Notation "m ;; k" := (bind m (fun _ => k))
  (at level 100, right associativity) : go_scope.
Open Scope go_scope.

(** Symbolic execution of a bind: rewrite with the outcome of its first part. *)
Section monad_lemmas.
Context {E S : Type}.

Lemma bind_OK {A B} (m : M E S A) (k : A -> M E S B) s a s' :
  m s = OK a s' -> bind m k s = k a s'.
Proof. unfold bind. by intros ->. Qed.

Lemma bind_ERR {A B} (m : M E S A) (k : A -> M E S B) s e s' :
  m s = ERR e s' -> bind m k s = ERR e s'.
Proof. unfold bind. by intros ->. Qed.

Lemma try_OK {A} (m : M E S A) s a s' : m s = OK a s' -> try m s = OK (inl a) s'.
Proof. unfold try. by intros ->. Qed.

Lemma try_ERR {A} (m : M E S A) s e s' : m s = ERR e s' -> try m s = OK (inr e) s'.
Proof. unfold try. by intros ->. Qed.

Lemma deref_OK {A} (o : S -> option A) s a : o s = Some a -> deref (E:=E) o s = OK a s.
Proof. unfold deref. by intros ->. Qed.

Lemma zoom_OK {T A} (g : S -> T) (p : T -> S -> S) (m : M E T A) s a t :
  m (g s) = OK a t -> zoom g p m s = OK a (p t s).
Proof. unfold zoom. by intros ->. Qed.

Lemma zoom_ERR {T A} (g : S -> T) (p : T -> S -> S) (m : M E T A) s e t :
  m (g s) = ERR e t -> zoom g p m s = ERR e (p t s).
Proof. unfold zoom. by intros ->. Qed.

Lemma bind_inv_OK {A B} (m : M E S A) (k : A -> M E S B) s b s' :
  bind m k s = OK b s' -> exists a s1, m s = OK a s1 /\ k a s1 = OK b s'.
Proof. unfold bind. destruct (m s) eqn:H; naive_solver. Qed.
End monad_lemmas.

(** Sequences of calls. *)
Lemma bind_assoc {E S A B C} (x : M E S A) (f : A -> M E S B) (g : B -> M E S C) s :
  bind (bind x f) g s = bind x (fun a => bind (f a) g) s.
Proof. unfold bind. by destruct (x s). Qed.

Lemma bind_OK2 {E S A B C} (x : M E S A) (f : A -> M E S B) (g : B -> M E S C) s b s' :
  bind x f s = OK b s' -> bind x (fun a => bind (f a) g) s = g b s'.
Proof. intros Hb. rewrite <- bind_assoc. by apply bind_OK. Qed.

(** A call returned normally or with an error: no panic and no endless loop. *)
Definition returns {E S A} (o : outcome E S A) : Prop :=
  match o with OK _ _ | ERR _ _ => True | PANIC | DIVERGE => False end.

(** The state after a call that returned. *)
Definition final {E S A} (o : outcome E S A) : option S :=
  match o with OK _ s | ERR _ s => Some s | PANIC | DIVERGE => None end.

(** * List lemmas shared by the components *)
Section list_lemmas.
Context {A : Type}.
Implicit Types l : list A.

(** Exchange the elements at two positions (the array part of a [Swap]). *)
Definition lswap (i j : nat) l : list A :=
  match l !! i, l !! j with
  | Some a, Some b => <[i:=b]> (<[j:=a]> l)
  | _, _ => l
  end.

Lemma length_lswap i j l : length (lswap i j l) = length l.
Proof. unfold lswap. repeat case_match; by rewrite ?length_insert. Qed.

Lemma lookup_lswap i j k l :
  i < length l -> j < length l ->
  lswap i j l !! k =
    if decide (k = i) then l !! j else if decide (k = j) then l !! i else l !! k.
Proof.
  intros Hi Hj. unfold lswap.
  destruct (lookup_lt_is_Some_2 l i Hi) as [a Ha].
  destruct (lookup_lt_is_Some_2 l j Hj) as [b Hb].
  rewrite Ha, Hb. repeat case_decide; subst.
  - apply list_lookup_insert_eq. by rewrite length_insert.
  - rewrite list_lookup_insert_ne by done. by rewrite list_lookup_insert_eq.
  - by rewrite !list_lookup_insert_ne by done.
Qed.

Lemma lswap_perm i j l : lswap i j l ≡ₚ l.
Proof.
  unfold lswap. destruct (l !! i) as [a|] eqn:Ha; [|done].
  destruct (l !! j) as [b|] eqn:Hb; [|done].
  destruct (decide (i = j)) as [->|Hij].
  { simplify_eq. by rewrite list_insert_insert_eq, list_insert_id. }
  pose proof (lookup_lt_Some _ _ _ Ha) as Hi.
  pose proof (lookup_lt_Some _ _ _ Hb) as Hj.
  assert (Hp : forall l1 k x y, l1 !! k = Some x ->
             y :: l1 ≡ₚ x :: <[k:=y]> l1).
  { intros l1 k x y H. rewrite <- (take_drop_middle l1 k x H) at 1.
    rewrite (insert_take_drop l1 k y) by (by eapply lookup_lt_Some).
    rewrite <- !Permutation_middle. apply perm_swap. }
  apply (Permutation_cons_inv (a := a)).
  rewrite (Hp l j b a Hb).
  rewrite (Hp (<[j:=a]> l) i a b); [done|].
  by rewrite list_lookup_insert_ne.
Qed.
End list_lemmas.

(** * Automation *)
Create HintDb go.
#[export] Hint Resolve wrap_u32_range wrap_u64_range wrap_i64_range wrap_i32_range : go.
#[export] Hint Resolve bind_OK try_OK try_ERR deref_OK zoom_OK : go.
Create Rewrite HintDb go.
#[export] Hint Rewrite @length_lswap @length_insert @length_app : go.

(** Run one monadic call whose outcome is the hypothesis or lemma [H]. *)
Ltac step_with H := erewrite bind_OK; [| eapply H; eauto with go ].
