(* ===== verification/GoHeap.v ===== *)
(** Go's [container/heap] over an abstract [heap.Interface].

    The job heaps and the client heap of package [state] are both driven by the
    functions of the standard library's [container/heap] ([Init], [Push], [Pop],
    [Remove], [Fix] with their helpers [up] and [down]).  The file has
    - the algorithms on plain lists, with the heap order they establish;
    - the algorithms as the library writes them, over a [HeapInterface];
    - [HeapLaws]: what an implementation promises about its [Less], [Swap],
      [Push] and [Pop]; from it the algorithms are total, keep every entry's
      index field equal to its position, permute the array as the list
      algorithms do, and therefore keep the heap order. *)
From stdpp Require Import base gmap list sorting.
From Stdlib Require Import ZArith Lia.
From S2P Require Import Prelude.

(** * The order of a heap *)

(** [Less] is a strict weak order: the ones in package [state] compare a key and
    break ties by an identifier. *)
Class StrictWeak {A : Type} (lt : A -> A -> bool) : Prop := {
  sw_asym a b : lt a b = true -> lt b a = false;
  sw_le_trans a b c : lt b a = false -> lt c b = false -> lt c a = false
}.

Definition parent (c : nat) : nat := (c - 1) / 2.

Lemma parent_lt c : 0 < c -> parent c < c.
Proof. unfold parent. intros. pose proof (Nat.div_mod_eq (c - 1) 2). lia. Qed.

Lemma parent_child i c : 0 < c -> parent c = i <-> c = 2 * i + 1 \/ c = 2 * i + 2.
Proof. unfold parent. pose proof (Nat.div_mod_eq (c-1) 2). pose proof (Nat.mod_upper_bound (c-1) 2). lia. Qed.

Section list_heap.
Context {A : Type} (lt : A -> A -> bool).
Implicit Types l : list A.

Definition edge_ok l (p c : nat) : Prop :=
  forall a b, l !! p = Some a -> l !! c = Some b -> lt b a = false.

(** The first [n] elements of [l] form a heap: no child is less than its parent. *)
Definition heap_upto (n : nat) l : Prop :=
  forall c, 0 < c < n -> edge_ok l (parent c) c.

Definition lless l (i j : nat) : bool :=
  match l !! i, l !! j with Some a, Some b => lt a b | _, _ => false end.

(** [up] and [down] on the array alone. *)
Fixpoint lup (fuel j : nat) l : list A :=
  match fuel with
  | 0 => l
  | S f =>
    let i := parent j in
    if (i =? j) || negb (lless l j i) then l else lup f i (lswap i j l)
  end.

Definition lchild l (i n : nat) : nat :=
  let j1 := 2 * i + 1 in
  let j2 := j1 + 1 in
  if (j2 <? n) && lless l j2 j1 then j2 else j1.

Fixpoint ldown (fuel i n : nat) l : list A * nat :=
  match fuel with
  | 0 => (l, i)
  | S f =>
    let j1 := 2 * i + 1 in
    if n <=? j1 then (l, i) else
    let j := lchild l i n in
    if negb (lless l j i) then (l, i) else ldown f j n (lswap i j l)
  end.

Lemma lup_perm fuel j l : lup fuel j l ≡ₚ l.
Proof.
  revert j l. induction fuel as [|f IH]; intros j l; simpl; [done|].
  case_match; [done|]. rewrite IH. apply lswap_perm.
Qed.

Lemma ldown_perm fuel i n l : (ldown fuel i n l).1 ≡ₚ l.
Proof.
  revert i l. induction fuel as [|f IH]; intros i l; simpl; [done|].
  repeat (case_match; try done). rewrite IH. apply lswap_perm.
Qed.

Lemma lchild_bounds l i n : 2 * i + 1 < n ->
  i < lchild l i n < n /\ parent (lchild l i n) = i.
Proof.
  intros. unfold lchild. cbv zeta. rewrite parent_child.
  all: destruct (2 * i + 1 + 1 <? n) eqn:E; simpl; [apply Nat.ltb_lt in E|]; try case_match; lia.
Qed.

(** [down] never touches the elements at or beyond its bound. *)
Lemma ldown_lookup_ge fuel i n l k :
  i < n -> n <= length l -> n <= k -> (ldown fuel i n l).1 !! k = l !! k.
Proof.
  revert i l. induction fuel as [|f IH]; intros i l Hi Hn Hk; simpl; [done|].
  destruct (n <=? _) eqn:E; [done|]. apply Nat.leb_gt in E.
  case_match; [done|].
  destruct (lchild_bounds l i n ltac:(lia)) as [Hj _].
  rewrite IH by (rewrite ?length_lswap; lia).
  rewrite lookup_lswap by lia. repeat case_decide; lia || done.
Qed.

(** [up] never touches the elements beyond the one it moves. *)
Lemma lup_lookup_gt fuel j l k :
  j < length l -> j < k -> lup fuel j l !! k = l !! k.
Proof.
  revert j l. induction fuel as [|f IH]; intros j l Hj Hk; simpl; [done|].
  destruct (parent j =? j) eqn:Ej; simpl; [done|]. apply Nat.eqb_neq in Ej.
  case_match; [done|]. assert (0 < j) as Hj0 by (destruct j; [done|lia]).
  pose proof (parent_lt j Hj0). rewrite IH by (rewrite ?length_lswap; lia).
  rewrite lookup_lswap by lia. repeat case_decide; lia || done.
Qed.

Lemma length_ldown fuel i n l : length (ldown fuel i n l).1 = length l.
Proof. apply Permutation_length, ldown_perm. Qed.

(** ** Restoring the order *)
Context `{!StrictWeak lt}.

(** Every edge of the heap holds but those at [i], and the parent of [i] is not
    greater than the children of [i]. *)
Definition exc (i n : nat) l : Prop :=
  (forall c, 0 < c < n -> c <> i -> parent c <> i -> edge_ok l (parent c) c) /\
  (forall c, 0 < c < n -> parent c = i -> 0 < i -> edge_ok l (parent i) c).
Definition chi (i n : nat) l : Prop := forall c, 0 < c < n -> parent c = i -> edge_ok l i c.
Definition par (i : nat) l : Prop := 0 < i -> edge_ok l (parent i) i.

Lemma exc_heap i n l : exc i n l -> chi i n l -> par i l -> heap_upto n l.
Proof.
  intros [H1 _] H2 H3 c Hc. destruct (decide (c = i)) as [->|]; [apply H3; lia|].
  destruct (decide (parent c = i)) as [E|]; [rewrite E; by apply H2|by apply H1].
Qed.

Lemma heap_exc i n l x : heap_upto n l -> exc i n (<[i:=x]> l).
Proof.
  intros H. split; intros c Hc.
  - intros Hi Hp a b. rewrite !list_lookup_insert_ne by done. by apply H.
  - intros Hp Hi a b. pose proof (parent_lt i Hi).
    pose proof (parent_lt c ltac:(lia)).
    rewrite !list_lookup_insert_ne by lia. intros Ha Hb.
    destruct (l !! i) as [y|] eqn:Hy.
    + apply (sw_le_trans a y b); [apply (H i); [lia|done..]|].
      rewrite <- Hp in Hy. by apply (H c).
    + apply lookup_ge_None in Hy. apply lookup_lt_Some in Hb. lia.
Qed.

(** The key of the element at [i] changed, from the order [lt] to [lt']. *)
Lemma exc_change (lt' : A -> A -> bool) i n l x :
  NoDup l -> l !! i = Some x -> (forall a b, a <> x -> b <> x -> lt' a b = lt a b) ->
  heap_upto n l ->
  (forall c, 0 < c < n -> c <> i -> parent c <> i ->
     forall a b, l !! parent c = Some a -> l !! c = Some b -> lt' b a = false) /\
  (forall c, 0 < c < n -> parent c = i -> 0 < i ->
     forall a b, l !! parent i = Some a -> l !! c = Some b -> lt' b a = false).
Proof.
  intros Hnd Hx Heq H.
  assert (forall k a, l !! k = Some a -> k <> i -> a <> x) as Hne.
  { intros k a Ha Hk ->. apply Hk. by eapply NoDup_lookup. }
  split; intros c Hc.
  - intros Hi Hp a b Ha Hb. rewrite Heq by (by eapply Hne). by apply (H c).
  - intros Hp Hi a b Ha Hb. pose proof (parent_lt i Hi). pose proof (parent_lt c ltac:(lia)).
    rewrite Heq by (eapply Hne; [done|lia]). apply (sw_le_trans _ x _).
    + apply (H i); [lia|done..].
    + apply (H c); [lia| |done]. by rewrite Hp.
Qed.

Lemma lookup_ex l i n : i < n -> n <= length l -> exists a, l !! i = Some a.
Proof. intros. apply lookup_lt_is_Some_2. lia. Qed.

(** Case analysis on the two exchanged positions. *)
Ltac swap_cases :=
  repeat case_decide; try lia; try (exfalso; congruence);
  let Ha := fresh "Ha" in let Hb := fresh "Hb" in
  intros Ha Hb; try (injection Ha as <-); try (injection Hb as <-).

Lemma lup_heap fuel j n l :
  j < fuel -> j < n -> n <= length l -> exc j n l -> chi j n l ->
  heap_upto n (lup fuel j l).
Proof.
  revert j l. induction fuel as [|f IH]; intros j l Hf Hj Hn Hexc Hchi; [lia|]. simpl.
  destruct (parent j =? j) eqn:Ej; simpl.
  { apply Nat.eqb_eq in Ej. apply (exc_heap j); [done..|].
    intros ?. pose proof (parent_lt j). lia. }
  apply Nat.eqb_neq in Ej.
  assert (0 < j) as Hj0. { destruct j; [done|lia]. }
  pose proof (parent_lt j Hj0) as Hp.
  destruct (lookup_ex l j n) as [x Hx]; [done..|].
  destruct (lookup_ex l (parent j) n) as [y Hy]; [lia..|].
  unfold lless. rewrite Hx, Hy. destruct (lt x y) eqn:Hlt; simpl.
  2: { apply (exc_heap j); [done..|]. intros _ a b ??. by simplify_eq. }
  pose proof (sw_asym _ _ Hlt) as Hge. destruct Hexc as [He1 He2].
  assert (exists i, i = parent j) as [i Hij] by eauto. rewrite <- Hij in *.
  assert (Hlk : forall k, lswap i j l !! k =
     if decide (k = i) then Some x else if decide (k = j) then Some y else l !! k).
  { intros k. rewrite lookup_lswap by lia. by rewrite Hx, Hy. }
  apply IH; rewrite ?length_lswap; [lia..| |].
  - split; intros c Hc.
    + intros Hci Hpi a b. rewrite !Hlk. swap_cases.
      * apply (He2 c); [lia|done|lia|done|done].
      * apply (He1 c); [lia|lia|lia|done|done].
    + intros Hci Hi a b. pose proof (parent_lt i Hi). rewrite !Hlk. swap_cases.
      * apply (He1 i); [lia|lia|lia|done|done].
      * apply (sw_le_trans a y b).
        -- apply (He1 i); [lia|lia|lia|done|done].
        -- apply (He1 c); [lia|lia|lia| by rewrite Hci | done].
  - intros c Hc Hci a b. pose proof (parent_lt c ltac:(lia)). rewrite !Hlk. swap_cases; [done|].
    apply (sw_le_trans x y b); [done|].
    apply (He1 c); [lia|lia|lia| by rewrite Hci | done].
Qed.

(** The child [down] picks is not greater than its sibling. *)
Lemma lchild_sibling i n l s b y :
  0 < s < n -> parent s = i -> s <> lchild l i n ->
  l !! s = Some b -> l !! lchild l i n = Some y -> lt b y = false.
Proof.
  intros Hs Hps Hne Hb Hy. apply parent_child in Hps; [|lia].
  unfold lchild, lless in *. replace (2 * i + 2) with (2 * i + 1 + 1) in * by lia.
  destruct (2 * i + 1 + 1 <? n) eqn:E; cbn [andb] in *; [|apply Nat.ltb_ge in E; lia].
  destruct Hps as [-> | ->]; rewrite Hb in *.
  - destruct (l !! (2 * i + 1 + 1)) as [v|] eqn:Hv; [|congruence].
    destruct (lt v b) eqn:Hvb; [|congruence].
    assert (v = y) as <- by congruence. by apply sw_asym.
  - destruct (l !! (2 * i + 1)) as [u|] eqn:Hu; [|congruence].
    destruct (lt b u) eqn:Hbu; [done|]. congruence.
Qed.

(** One exchange of [down]: the smaller child moves up. *)
Lemma down_step i n l :
  2 * i + 1 < n -> n <= length l -> exc i n l ->
  lless l (lchild l i n) i = true ->
  exc (lchild l i n) n (lswap i (lchild l i n) l) /\
  par (lchild l i n) (lswap i (lchild l i n) l).
Proof.
  intros Hi Hn [He1 He2] Hless.
  destruct (lchild_bounds l i n Hi) as [Hj Hpj].
  pose proof (lchild_sibling i n l) as Hsib.
  assert (exists j, j = lchild l i n) as [j Hjdef] by eauto. rewrite <- Hjdef in *.
  destruct (lookup_ex l i n) as [x Hx]; [lia|done|].
  destruct (lookup_ex l j n) as [y Hy]; [lia|done|].
  unfold lless in Hless. rewrite Hx, Hy in Hless.
  assert (Hlk : forall k, lswap i j l !! k =
     if decide (k = i) then Some y else if decide (k = j) then Some x else l !! k).
  { intros k. rewrite lookup_lswap by lia. by rewrite Hx, Hy. }
  split; [split; intros c Hc|].
  - intros Hcj Hpcj a b. pose proof (parent_lt c ltac:(lia)). rewrite !Hlk. swap_cases.
    + apply (Hsib c); [lia|done|done|done|done].
    + apply (He2 j); [lia|done|lia| congruence |done].
    + apply (He1 c); [lia|lia|lia|done|done].
  - intros Hpc Hj0 a b. pose proof (parent_lt c ltac:(lia)). rewrite Hpj, !Hlk. swap_cases.
    apply (He1 c); [lia|lia|lia| by rewrite Hpc | done].
  - intros _ a b. rewrite Hpj, !Hlk. swap_cases. by apply sw_asym.
Qed.

Lemma chi_stop i n l :
  n <= length l -> (n <= 2 * i + 1 \/ lless l (lchild l i n) i = false) -> chi i n l.
Proof.
  intros Hn Hstop c Hc Hpc a b Ha Hb. apply parent_child in Hpc as Hpc'; [|lia].
  destruct Hstop as [?|Hl]; [lia|]. revert Hl. unfold lchild, lless.
  destruct (lookup_ex l (2 * i + 1) n) as [u Hu]; [lia|done|].
  replace (2 * i + 2) with (2 * i + 1 + 1) in * by lia.
  destruct (2 * i + 1 + 1 <? n) eqn:E; cbn [andb].
  - apply Nat.ltb_lt in E. destruct (lookup_ex l (2 * i + 1 + 1) n) as [v Hv]; [lia|done|].
    rewrite Hv, Hu. destruct (lt v u) eqn:Hvu; rewrite ?Hv, ?Hu, Ha; intros Hf;
      destruct Hpc' as [-> | ->]; simplify_eq; try done.
    + eapply sw_le_trans; [done|]. by apply sw_asym.
    + by eapply sw_le_trans.
  - apply Nat.ltb_ge in E. rewrite Hu, Ha. intros Hf.
    destruct Hpc' as [-> | ->]; [by simplify_eq|lia].
Qed.

Lemma ldown_heap_par fuel i n l :
  n <= i + fuel -> i < n -> n <= length l -> exc i n l -> par i l ->
  heap_upto n (ldown fuel i n l).1.
Proof.
  revert i l. induction fuel as [|f IH]; intros i l Hf Hi Hn He Hp; [lia|]. simpl.
  destruct (n <=? i + (i + 0) + 1) eqn:E.
  { apply Nat.leb_le in E. apply (exc_heap i); [done| |done]. apply chi_stop; [done|left; lia]. }
  apply Nat.leb_gt in E. destruct (lless l (lchild l i n) i) eqn:Hl; simpl.
  - destruct (lchild_bounds l i n ltac:(lia)) as [Hj _].
    destruct (down_step i n l) as [??]; [lia|done..|].
    apply IH; rewrite ?length_lswap; try done; lia.
  - apply (exc_heap i); [done| |done]. apply chi_stop; auto.
Qed.

Lemma ldown_pos fuel i n l : i < n -> n <= length l -> i <= (ldown fuel i n l).2.
Proof.
  revert i l. induction fuel as [|f IH]; intros i l Hi Hn; simpl; [done|].
  destruct (n <=? _) eqn:E; simpl; [done|]. apply Nat.leb_gt in E.
  case_match; simpl; [done|]. destruct (lchild_bounds l i n ltac:(lia)) as [Hj _].
  etrans; [|apply IH]; rewrite ?length_lswap; lia.
Qed.

(** [down] either leaves the array alone, with the children of [i] in order, or
    moves the element and establishes the heap. *)
Lemma ldown_spec fuel i n l :
  n <= i + fuel -> i < n -> n <= length l -> exc i n l ->
  ((ldown fuel i n l).2 = i /\ (ldown fuel i n l).1 = l /\ chi i n l) \/
  (i < (ldown fuel i n l).2 /\ heap_upto n (ldown fuel i n l).1).
Proof.
  destruct fuel as [|f]; intros Hf Hi Hn He; [lia|]. simpl.
  destruct (n <=? i + (i + 0) + 1) eqn:E.
  { apply Nat.leb_le in E. left. split_and!; try done. apply chi_stop; [done|left; lia]. }
  apply Nat.leb_gt in E. destruct (lless l (lchild l i n) i) eqn:Hl; simpl.
  - right. destruct (lchild_bounds l i n ltac:(lia)) as [Hj _].
    destruct (down_step i n l) as [??]; [lia|done..|]. split.
    + pose proof (ldown_pos f (lchild l i n) n (lswap i (lchild l i n) l)) as Hle.
      rewrite length_lswap in Hle. lia.
    + apply ldown_heap_par; rewrite ?length_lswap; try done; lia.
  - left. split_and!; try done. apply chi_stop; auto.
Qed.

(** The root of a heap is a least element. *)
Lemma heap_root_min n l a k b :
  heap_upto n l -> n <= length l -> l !! 0 = Some a -> k < n -> l !! k = Some b ->
  lt b a = false.
Proof.
  intros Hh Hn Ha. revert b. induction (lt_wf k) as [k _ IH]. intros b Hk Hb.
  destruct (decide (k = 0)) as [->|].
  { assert (b = a) as -> by congruence. destruct (lt a a) eqn:E; [|done].
    by rewrite (sw_asym _ _ E) in E. }
  pose proof (parent_lt k ltac:(lia)).
  destruct (lookup_ex l (parent k) n) as [y Hy]; [lia|done|].
  eapply sw_le_trans; [apply (IH (parent k)); [lia|lia|done]|].
  by apply (Hh k); [lia|..].
Qed.

Lemma heap_upto_app n l l' : n <= length l -> heap_upto n (l ++ l') <-> heap_upto n l.
Proof.
  intros Hn. unfold heap_upto, edge_ok. split; intros H c Hc a b Ha Hb; pose proof (parent_lt c).
  - apply (H c); [lia|by rewrite lookup_app_l by lia..].
  - rewrite lookup_app_l in Ha, Hb by lia. by apply (H c).
Qed.
End list_heap.

(** * [heap.Interface] and the functions of [container/heap] *)

Class HeapInterface (E S X : Type) := {
  hLen : S -> nat;
  hLess : nat -> nat -> M E S bool;
  hSwap : nat -> nat -> M E S unit;
  hPush : X -> M E S unit;
  hPop : M E S X
}.

Module heap.
Section algorithms.
Context {E S X : Type} `{HeapInterface E S X}.

(** [func up(h Interface, j int)]; the parent index [(j-1)/2] of 0 is 0. *)
Fixpoint up_loop (fuel j : nat) : M E S unit :=
  match fuel with
  | 0 => diverge
  | Datatypes.S f =>
    let i := parent j in
    if i =? j then ret tt else
    less <- hLess j i ;;
    if less then hSwap i j ;; up_loop f i else ret tt
  end.
Definition up (j : nat) : M E S unit := up_loop (j + 1) j.

(** [func down(h Interface, i0, n int) bool]: the final position. *)
Fixpoint down_loop (fuel i n : nat) : M E S nat :=
  match fuel with
  | 0 => diverge
  | Datatypes.S f =>
    let j1 := 2 * i + 1 in
    if n <=? j1 then ret i else
    let j2 := j1 + 1 in
    j <- (if j2 <? n then less2 <- hLess j2 j1 ;; ret (if less2 : bool then j2 else j1)
          else ret j1) ;;
    less <- hLess j i ;;
    if less then hSwap i j ;; down_loop f j n else ret i
  end.
Definition down (i0 n : nat) : M E S bool :=
  i <- down_loop (n + 1) i0 n ;; ret (i0 <? i).

(** [func Init(h Interface)]: [down] from [n/2-1] to 0. *)
Fixpoint init_loop (k n : nat) : M E S unit :=
  match k with
  | 0 => ret tt
  | Datatypes.S i => down i n ;; init_loop i n
  end.
Definition Init : M E S unit :=
  n <- gets hLen ;; init_loop (n / 2) n.

(** [func Push(h Interface, x any)] *)
Definition Push (x : X) : M E S unit :=
  hPush x ;; n <- gets hLen ;; up (n - 1).

(** [func Pop(h Interface) any]; on an empty heap [Swap(0, -1)] panics. *)
Definition Pop : M E S X :=
  len <- gets hLen ;;
  if len =? 0 then panic else
  let n := len - 1 in
  hSwap 0 n ;; down 0 n ;; hPop.

(** [func Remove(h Interface, i int) any] *)
Definition Remove (i : nat) : M E S X :=
  len <- gets hLen ;;
  if len =? 0 then panic else
  let n := len - 1 in
  (if n =? i then ret tt else
   hSwap i n ;; moved <- down i n ;; if moved : bool then ret tt else up i) ;;
  hPop.

(** [func Fix(h Interface, i int)] *)
Definition Fix (i : nat) : M E S unit :=
  n <- gets hLen ;; moved <- down i n ;; if moved : bool then ret tt else up i.
End algorithms.
End heap.

(** * What an implementation promises

    [hview] is the array of entry references, [hidx] the index field stored in an
    entry, [hobs] everything that [Swap], [Push] and [Pop] do not write (the
    objects without their index fields, and the comparison function), [hok] says
    that a reference points to a live entry, and [hord] is the order that [Less]
    decides. *)
Class HeapLaws (E S X T : Type) `{EqDecision X} `{HeapInterface E S X} := {
  hview : S -> list X;
  hidx : S -> X -> option Z;
  hobs : S -> T;
  hok : T -> X -> Prop;
  hord : T -> X -> X -> bool;
  hord_order t : StrictWeak (hord t);
  hLen_view s : hLen s = length (hview s);
  hLess_spec s i j a b :
    hview s !! i = Some a -> hview s !! j = Some b ->
    hok (hobs s) a -> hok (hobs s) b ->
    hLess i j s = OK (hord (hobs s) a b) s;
  hSwap_spec s i j a b :
    hview s !! i = Some a -> hview s !! j = Some b ->
    hok (hobs s) a -> hok (hobs s) b ->
    exists s', hSwap i j s = OK tt s' /\
      hview s' = lswap i j (hview s) /\ hobs s' = hobs s /\
      (forall r, hidx s' r = if decide (r = a) then Some (Z.of_nat j)
                        else if decide (r = b) then Some (Z.of_nat i) else hidx s r);
  hPush_spec s x :
    hok (hobs s) x ->
    exists s', hPush x s = OK tt s' /\
      hview s' = hview s ++ [x] /\ hobs s' = hobs s /\
      (forall r, hidx s' r = if decide (r = x) then Some (Z.of_nat (length (hview s)))
                        else hidx s r);
  hPop_spec s l x :
    hview s = l ++ [x] -> hok (hobs s) x ->
    exists s', hPop s = OK x s' /\
      hview s' = l /\ hobs s' = hobs s /\
      (forall r, hidx s' r = if decide (r = x) then Some (-1)%Z else hidx s r)
}.
#[export] Existing Instance hord_order.

Section heap_proofs.
Context {E S X T : Type} `{HeapLaws E S X T}.
Implicit Types s : S.

Abbreviation view s := (hview (E:=E) (T:=T) s).
Abbreviation idx s := (hidx (E:=E) (T:=T) s).
Abbreviation obs s := (hobs (E:=E) (T:=T) s).
Abbreviation ord s := (hord (E:=E) (S:=S) (X:=X) (T:=T) (hobs (E:=E) (T:=T) s)).

(** Every entry is live and its index field is its position in the array. *)
Definition hwf s : Prop :=
  (forall i r, view s !! i = Some r -> idx s r = Some (Z.of_nat i)) /\
  (forall r, r ∈ view s -> hok (obs s) r).

(** The array is a heap for the order of its [Less]. *)
Definition hordered s : Prop := heap_upto (ord s) (length (view s)) (view s).

(** What the reorganising steps leave alone. *)
Definition hframe s s' : Prop :=
  hwf s' /\ obs s' = obs s /\ view s' ≡ₚ view s /\
  (forall r, r ∉ view s -> idx s' r = idx s r).

Lemma hwf_NoDup s : hwf s -> NoDup (view s).
Proof.
  intros [Hwf _]. apply NoDup_alt. intros i j r Hi Hj.
  apply Hwf in Hi, Hj. rewrite Hi in Hj. by apply (inj Some), Nat2Z.inj in Hj.
Qed.

Lemma hframe_refl s : hwf s -> hframe s s.
Proof. done. Qed.

Lemma hframe_trans s1 s2 s3 : hframe s1 s2 -> hframe s2 s3 -> hframe s1 s3.
Proof.
  intros (_&Ho1&Hv1&Hi1) (Hw&Ho2&Hv2&Hi2). split_and!; [done|congruence|by etrans|].
  intros r Hr. rewrite Hi2, Hi1; [done..|]. by rewrite Hv1.
Qed.

Lemma hwf_ok s i r : hwf s -> view s !! i = Some r -> hok (obs s) r.
Proof. intros [_ Hok] Hi. by eapply Hok, list_elem_of_lookup_2. Qed.

Lemma Swap_frame s i j :
  hwf s -> i < length (view s) -> j < length (view s) ->
  exists s', hSwap i j s = OK tt s' /\ hframe s s' /\ view s' = lswap i j (view s).
Proof.
  intros Hwf Hi Hj.
  destruct (lookup_lt_is_Some_2 (view s) i Hi) as [a Ha].
  destruct (lookup_lt_is_Some_2 (view s) j Hj) as [b Hb].
  destruct (hSwap_spec s i j a b) as (s' & Hs & Hv & Ho & Hx);
    [done|done|by eapply hwf_ok..|].
  exists s'. split_and!; [done|split_and!|done].
  - split; [destruct Hwf as [Hwf _]|intros r; rewrite Ho, Hv, lswap_perm; apply Hwf].
    intros k r. rewrite Hv, lookup_lswap by done. intros Hk. rewrite Hx.
    pose proof (Hwf _ _ Ha) as HHa. pose proof (Hwf _ _ Hb) as HHb.
    destruct (decide (k = i)) as [->|Hki].
    { assert (r = b) as -> by congruence. case_decide; [congruence|by case_decide]. }
    destruct (decide (k = j)) as [->|Hkj].
    { assert (r = a) as -> by congruence. by case_decide. }
    apply Hwf in Hk. rewrite !decide_False; [done|intros ->..];
      rewrite Hk in *; simplify_eq; lia.
  - done.
  - rewrite Hv. apply lswap_perm.
  - intros r Hr. rewrite Hx.
    apply list_elem_of_lookup_2 in Ha, Hb. repeat case_decide; simplify_eq; done.
Qed.

Lemma Less_frame s i j :
  hwf s -> i < length (view s) -> j < length (view s) ->
  hLess i j s = OK (lless (ord s) (view s) i j) s.
Proof.
  intros Hwf Hi Hj.
  destruct (lookup_lt_is_Some_2 (view s) i Hi) as [a Ha].
  destruct (lookup_lt_is_Some_2 (view s) j Hj) as [b Hb].
  rewrite (hLess_spec s i j a b); [|done|done|by eapply hwf_ok..].
  unfold lless. by rewrite Ha, Hb.
Qed.

Lemma hframe_len s s' : hframe s s' -> length (view s') = length (view s).
Proof. intros (_&_&Hv&_). by apply Permutation_length. Qed.

Lemma hframe_ord s s' : hframe s s' -> ord s' = ord s.
Proof. intros (_&Ho&_). by rewrite Ho. Qed.

(** [up] does on the array what the list algorithm does. *)
Lemma up_loop_refines fuel j s :
  hwf s -> j < length (view s) -> j < fuel ->
  exists s', heap.up_loop fuel j s = OK tt s' /\ hframe s s' /\
    view s' = lup (ord s) fuel j (view s).
Proof.
  revert j s. induction fuel as [|f IH]; intros j s Hwf Hj Hf; [lia|]. simpl.
  destruct (parent j =? j) eqn:Ej; simpl; [eexists; split_and!; eauto using hframe_refl|].
  apply Nat.eqb_neq in Ej. assert (0 < j) as Hj0 by (destruct j; [done|lia]).
  pose proof (parent_lt j Hj0).
  erewrite bind_OK; [|apply Less_frame; [done|lia|lia]].
  destruct (lless _ _ j _) eqn:Hl; simpl; [|eexists; split_and!; eauto using hframe_refl].
  destruct (Swap_frame s (parent j) j) as (s1 & Hs1 & Hf1 & Hv1); [done|lia|done|].
  erewrite bind_OK by done.
  destruct (IH (parent j) s1) as (s2 & Hs2 & Hf2 & Hv2);
    [apply Hf1|rewrite (hframe_len _ _ Hf1); lia|lia|].
  exists s2. split_and!; [done|by eapply hframe_trans|].
  by rewrite Hv2, Hv1, (hframe_ord _ _ Hf1).
Qed.

Lemma up_refines j s :
  hwf s -> j < length (view s) ->
  exists s', heap.up j s = OK tt s' /\ hframe s s' /\
    view s' = lup (ord s) (j + 1) j (view s).
Proof. intros. apply up_loop_refines; [done..|lia]. Qed.

Lemma down_child s i n :
  hwf s -> n <= length (view s) -> 2 * i + 1 < n ->
  (if 2 * i + 1 + 1 <? n then
     less2 <- hLess (2 * i + 1 + 1) (2 * i + 1) ;;
     ret (if less2 : bool then 2 * i + 1 + 1 else 2 * i + 1)
   else ret (2 * i + 1)) s = OK (lchild (ord s) (view s) i n) s.
Proof.
  intros Hwf Hn Hi. unfold lchild. destruct (_ <? n) eqn:En; [|done].
  apply Nat.ltb_lt in En. erewrite bind_OK; [|apply Less_frame; [done|lia|lia]].
  cbn [andb]. unfold ret. by case_match.
Qed.

Lemma down_loop_refines fuel i n s :
  hwf s -> i < n -> n <= length (view s) -> n < i + fuel ->
  exists s', heap.down_loop fuel i n s = OK (ldown (ord s) fuel i n (view s)).2 s' /\
    hframe s s' /\ view s' = (ldown (ord s) fuel i n (view s)).1.
Proof.
  revert i s. induction fuel as [|f IH]; intros i s Hwf Hi Hn Hf; [lia|].
  cbn [heap.down_loop ldown]. cbv zeta.
  destruct (n <=? 2 * i + 1) eqn:En; [eexists; split_and!; eauto using hframe_refl|].
  apply Nat.leb_gt in En. erewrite bind_OK by (by apply down_child).
  destruct (lchild_bounds (ord s) (view s) i n En) as [Hj _].
  erewrite bind_OK; [|apply Less_frame; [done|lia|lia]].
  destruct (lless _ _ _ i) eqn:Hl; cbn [negb];
    [|eexists; split_and!; eauto using hframe_refl].
  destruct (Swap_frame s i (lchild (ord s) (view s) i n)) as (s1 & Hs1 & Hf1 & Hv1); [done|lia..|].
  erewrite bind_OK by done.
  destruct (IH (lchild (ord s) (view s) i n) s1) as (s2 & Hs2 & Hf2 & Hv2);
    [apply Hf1|lia|rewrite (hframe_len _ _ Hf1); lia|lia|].
  rewrite Hv1, (hframe_ord _ _ Hf1) in Hs2, Hv2.
  exists s2. split_and!; [done|by eapply hframe_trans|done].
Qed.

(** [down] beyond the array is a no-op (used with [n = 0]). *)
Lemma down_loop_out fuel i n s : n <= i -> heap.down_loop (Datatypes.S fuel) i n s = OK i s.
Proof.
  intros. cbn [heap.down_loop]. cbv zeta. destruct (n <=? 2 * i + 1) eqn:En; [done|].
  apply Nat.leb_gt in En. lia.
Qed.

Lemma down_refines i n s :
  hwf s -> n <= length (view s) ->
  exists s', heap.down i n s = OK (i <? (ldown (ord s) (n + 1) i n (view s)).2) s' /\
    hframe s s' /\ view s' = (ldown (ord s) (n + 1) i n (view s)).1.
Proof.
  intros Hwf Hn. unfold heap.down. destruct (decide (i < n)).
  - destruct (down_loop_refines (n + 1) i n s) as (s' & Hs & Hf & Hv); [done..|lia|].
    erewrite bind_OK by done. eauto.
  - rewrite Nat.add_1_r. erewrite bind_OK by (apply down_loop_out; lia).
    exists s. cbn [ldown]. cbv zeta.
    destruct (n <=? 2 * i + 1) eqn:En; [|apply Nat.leb_gt in En; lia].
    split_and!; eauto using hframe_refl.
Qed.

(** ** The exported operations

    Each has a part that needs no order ([hframe]-style: total, index fields
    right, the multiset of entries known) and a part on the heap order. *)

Lemma hordered_intro s s' l :
  hframe s s' -> view s' = l -> heap_upto (ord s) (length (view s)) l -> hordered s'.
Proof.
  intros Hf Hv Hh. unfold hordered.
  by rewrite (hframe_len _ _ Hf), (hframe_ord _ _ Hf), Hv.
Qed.

Lemma lup_fixes l (lt : X -> X -> bool) `{!StrictWeak lt} i n :
  i < n -> n <= length l -> exc lt i n l -> chi lt i n l ->
  heap_upto lt n (lup lt (i + 1) i l).
Proof. intros. apply lup_heap; [done|lia|done..]. Qed.

Lemma heap_Push s x :
  hwf s -> hok (obs s) x -> x ∉ view s ->
  exists s', heap.Push x s = OK tt s' /\ hwf s' /\ obs s' = obs s /\
    view s' ≡ₚ x :: view s /\ (forall r, r <> x -> r ∉ view s -> idx s' r = idx s r) /\
    (hordered s -> hordered s').
Proof.
  intros Hwf Hx Hnin. destruct (hPush_spec s x Hx) as (s1 & Hs1 & Hv1 & Ho1 & Hi1).
  assert (hwf s1) as Hwf1.
  { destruct Hwf as [Hwf Hok].
    split; [|intros r; rewrite Hv1, Ho1, elem_of_app, list_elem_of_singleton; naive_solver].
    intros i r. rewrite Hv1, Hi1. intros Hr. case_decide; subst.
    - apply lookup_app_Some in Hr as [Hr|[? Hr]]; [by apply list_elem_of_lookup_2 in Hr|].
      apply list_lookup_singleton_Some in Hr as [? _]. f_equal. lia.
    - apply lookup_app_Some in Hr as [Hr|[? Hr]]; [by apply Hwf|].
      by apply list_lookup_singleton_Some in Hr as [_ ?]. }
  unfold heap.Push. erewrite bind_OK by done. unfold gets at 1, bind at 1.
  rewrite hLen_view, Hv1, length_app. simpl. rewrite Nat.add_sub.
  destruct (up_refines (length (view s)) s1) as (s2 & Hs2 & Hf2 & Hv2);
    [done|rewrite Hv1, length_app; simpl; lia|].
  exists s2. pose proof Hf2 as (Hwf2 & Ho2 & Hp2 & Hi2). split_and!; try done.
  - congruence.
  - rewrite Hp2, Hv1. by rewrite Permutation_app_comm.
  - intros r Hrx Hr. rewrite Hi2, Hi1 by (rewrite Hv1; set_solver). by case_decide.
  - intros Hh. eapply hordered_intro; [done..|]. rewrite Hv1, length_app. simpl.
    unfold hordered in Hh. rewrite <- Ho1 in Hh. set (n := length (view s)) in *.
    assert (heap_upto (ord s1) n (view s ++ [x])) as Hh1 by (by apply heap_upto_app).
    apply lup_fixes; [apply _|lia|rewrite length_app; simpl; lia| |].
    + split; intros c Hc Hne; [intros _; apply Hh1; lia|]. pose proof (parent_lt c). lia.
    + intros c Hc Hne. pose proof (parent_lt c). lia.
Qed.

(** The last step of [Pop] and [Remove]. *)
Lemma pop_last s l x :
  hwf s -> view s = l ++ [x] ->
  exists s', hPop s = OK x s' /\ hwf s' /\ obs s' = obs s /\ view s' = l /\
    idx s' x = Some (-1)%Z /\ (forall r, r ∉ view s -> idx s' r = idx s r).
Proof.
  intros Hwf Hv. assert (view s !! length l = Some x) as Hx.
  { rewrite Hv, lookup_app_r, Nat.sub_diag by lia. done. }
  destruct (hPop_spec s l x) as (s' & Hs & Hv' & Ho & Hi); [done|by eapply hwf_ok|].
  exists s'. split_and!; try done.
  - split; [|intros r; rewrite Hv', Ho; intros Hr; apply Hwf; rewrite Hv; set_solver].
    destruct Hwf as [Hwf _]. intros i r Hr. rewrite Hi. rewrite Hv' in Hr.
    assert (view s !! i = Some r) as Hr'.
    { rewrite Hv, lookup_app_l; [done|by eapply lookup_lt_Some]. }
    case_decide as Hd; [subst|by apply Hwf].
    apply Hwf in Hx. apply Hwf in Hr'. rewrite Hx in Hr'. simplify_eq.
    apply lookup_lt_Some in Hr. lia.
  - rewrite Hi. by case_decide.
  - intros r Hr. rewrite Hi. case_decide as Hd; [subst|done].
    apply list_elem_of_lookup_2 in Hx. done.
Qed.

Lemma view_snoc s : view s <> [] -> exists l x, view s = l ++ [x].
Proof. intros Hne. destruct (exists_last Hne) as (l & x & ->). eauto. Qed.

(** Swapping an element with the last one of the list. *)
Lemma lswap_snoc (l : list X) i x a :
  l !! i = Some a -> lswap i (length l) (l ++ [x]) = <[i:=x]> l ++ [a].
Proof.
  intros Ha. pose proof (lookup_lt_Some _ _ _ Ha) as Hi.
  unfold lswap. rewrite lookup_app_l, Ha by done.
  rewrite lookup_app_r, Nat.sub_diag by lia. cbn [lookup list_lookup].
  rewrite insert_app_r_alt, Nat.sub_diag by lia. simpl. by rewrite insert_app_l.
Qed.

(** A view of [n + 1] elements whose last one is [a]. *)
Lemma view_last s n a :
  length (view s) = n + 1 -> view s !! n = Some a ->
  exists l, view s = l ++ [a] /\ length l = n.
Proof.
  intros Hn Ha. destruct (view_snoc s) as (l & y & Hy); [by intros E0; rewrite E0 in Ha|].
  rewrite Hy in Hn, Ha |- *. rewrite length_app in Hn. simpl in Hn. exists l.
  rewrite lookup_app_r in Ha by lia. replace (n - length l) with 0 in Ha by lia. simplify_eq/=. split; [done|lia].
Qed.

(** [Remove] after its exchange with the last entry. *)
Lemma remove_reorg s i l x a :
  hwf s -> view s = l ++ [x] -> i < length l -> l !! i = Some a ->
  exists s', (hSwap i (length l) ;; moved <- heap.down i (length l) ;;
              if moved : bool then ret tt else heap.up i) s = OK tt s' /\
    hframe s s' /\ exists l', view s' = l' ++ [a] /\
      (hordered s -> heap_upto (ord s) (length l') l').
Proof.
  intros Hwf Hv Hi Ha. assert (length (view s) = length l + 1) as Hlen.
  { rewrite Hv, length_app. simpl. lia. }
  destruct (Swap_frame s i (length l)) as (s1 & Hs1 & Hf1 & Hv1); [done|lia..|].
  assert (view s1 = <[i:=x]> l ++ [a]) as Hv1'.
  { rewrite Hv1, Hv. by apply lswap_snoc. }
  assert (length (view s1) = length l + 1) as Hlen1 by (rewrite (hframe_len _ _ Hf1); lia).
  erewrite bind_OK by done.
  destruct (down_refines i (length l) s1) as (s2 & Hs2 & Hf2 & Hv2); [apply Hf1|lia|].
  erewrite bind_OK by done.
  assert (hordered s -> exc (ord s1) i (length l) (view s1)) as Hexc.
  { intros Hh. rewrite Hv1', (hframe_ord _ _ Hf1), <- insert_app_l by done.
    apply heap_exc; [apply _|]. unfold hordered in Hh. intros c Hc p q Hp Hq.
    pose proof (parent_lt c ltac:(lia)). rewrite lookup_app_l in Hp, Hq by lia.
    apply (Hh c); [lia|rewrite Hv, lookup_app_l by lia; done..]. }
  assert (Hlast : forall s', hframe s1 s' -> view s' !! length l = Some a ->
     exists l', view s' = l' ++ [a] /\ length l' = length l).
  { intros s' Hf. apply view_last. by rewrite (hframe_len _ _ Hf). }
  assert (Hla : view s1 !! length l = Some a).
  { rewrite Hv1', lookup_app_r, length_insert, Nat.sub_diag by (rewrite length_insert; lia). done. }
  pose proof (ldown_lookup_ge (ord s1) (length l + 1) i (length l) (view s1) (length l)
                ltac:(lia) ltac:(lia) ltac:(lia)) as Hge. rewrite <- Hv2, Hla in Hge.
  destruct (i <? _) eqn:Emv.
  - exists s2. split_and!; [done|by eapply hframe_trans|].
    destruct (Hlast s2) as (l' & Hl' & Hll'); [done|done|].
    exists l'. split; [done|]. intros Hh. apply Nat.ltb_lt in Emv.
    destruct (ldown_spec (ord s1) (length l + 1) i (length l) (view s1)) as [(?&_)|(_&Hheap)];
      [lia|lia|lia|by apply Hexc|lia|].
    rewrite <- Hv2, Hl', <- Hll' in Hheap. rewrite <- (hframe_ord _ _ Hf1).
    by apply heap_upto_app in Hheap.
  - apply Nat.ltb_ge in Emv. pose proof (hframe_len _ _ Hf2).
    destruct (up_refines i s2) as (s3 & Hs3 & Hf3 & Hv3); [apply Hf2|lia|].
    exists s3. split_and!; [done|by eapply hframe_trans; [|eapply hframe_trans]|].
    destruct (Hlast s3) as (l' & Hl' & Hll'); [by eapply hframe_trans| |].
    { rewrite Hv3, lup_lookup_gt by lia. done. }
    exists l'. split; [done|]. intros Hh.
    destruct (ldown_spec (ord s1) (length l + 1) i (length l) (view s1)) as [(_&Heq&Hchi)|(?&_)];
      [lia|lia|lia|by apply Hexc| |lia].
    rewrite <- Hv2 in Heq. rewrite Heq, (hframe_ord _ _ Hf2) in Hv3.
    apply (heap_upto_app _ _ l' [a]); [done|].
    rewrite <- Hl', Hv3, Hll', <- (hframe_ord _ _ Hf1).
    apply lup_fixes; [apply _|done|lia|by apply Hexc|done].
Qed.

Lemma heap_Remove s i x :
  hwf s -> view s !! i = Some x ->
  exists s', heap.Remove i s = OK x s' /\ hwf s' /\ obs s' = obs s /\
    view s ≡ₚ x :: view s' /\ idx s' x = Some (-1)%Z /\
    (forall r, r ∉ view s -> idx s' r = idx s r) /\ (hordered s -> hordered s').
Proof.
  intros Hwf Hx. destruct (view_snoc s) as (l & y & Hv); [by intros E0; rewrite E0 in Hx|].
  unfold heap.Remove. unfold gets at 1, bind at 1. rewrite hLen_view.
  assert (length (view s) = length l + 1) as Hlen by (rewrite Hv, length_app; simpl; lia).
  destruct (length (view s) =? 0) eqn:E0; [apply Nat.eqb_eq in E0; lia|].
  cbv zeta. replace (length (view s) - 1) with (length l) by lia.
  destruct (length l =? i) eqn:Ei.
  - apply Nat.eqb_eq in Ei. subst i. unfold ret at 1, bind at 1.
    rewrite Hv, lookup_app_r, Nat.sub_diag in Hx by lia. simplify_eq/=.
    destruct (pop_last s l x) as (s' & Hs & Hwf' & Ho & Hv' & Hi & Hr); [done..|].
    exists s'. split_and!; try done.
    + rewrite Hv, Hv'. by rewrite Permutation_app_comm.
    + unfold hordered. rewrite Hlen, Hv, Hv', Ho. intros Hh c Hc p q Hp Hq.
      pose proof (parent_lt c ltac:(lia)).
      apply (Hh c); [lia|by rewrite lookup_app_l by lia..].
  - apply Nat.eqb_neq in Ei.
    assert (i < length l) as Hil. { apply lookup_lt_Some in Hx. lia. }
    rewrite Hv, lookup_app_l in Hx by done.
    destruct (remove_reorg s i l y x) as (s1 & Hs1 & Hf1 & l' & Hl' & Hh'); [done..|].
    erewrite bind_OK by done.
    destruct (pop_last s1 l' x) as (s2 & Hs2 & Hwf2 & Ho2 & Hv2 & Hi2 & Hr2); [apply Hf1|done|].
    destruct Hf1 as (_ & Ho1 & Hp1 & Hr1).
    exists s2. split_and!; try done.
    + congruence.
    + rewrite <- Hp1, Hl', Hv2. by rewrite Permutation_app_comm.
    + intros r Hr. rewrite Hr2, Hr1; [done..|]. by rewrite Hp1.
    + intros Hh. unfold hordered. rewrite Hv2, Ho2, Ho1. by apply Hh'.
Qed.

(** [Pop] is [Remove] of the root: the same entry, the same reorganisation. *)
Lemma heap_Pop s x :
  hwf s -> view s !! 0 = Some x ->
  exists s', heap.Pop s = OK x s' /\ hwf s' /\ obs s' = obs s /\
    view s ≡ₚ x :: view s' /\ idx s' x = Some (-1)%Z /\
    (forall r, r ∉ view s -> idx s' r = idx s r) /\ (hordered s -> hordered s').
Proof.
  intros Hwf Hx. destruct (view_snoc s) as (l & y & Hv); [by intros E0; rewrite E0 in Hx|].
  assert (length (view s) = length l + 1) as Hlen by (rewrite Hv, length_app; simpl; lia).
  unfold heap.Pop. unfold gets at 1, bind at 1. rewrite hLen_view.
  destruct (length (view s) =? 0) eqn:E0; [apply Nat.eqb_eq in E0; lia|].
  cbv zeta. replace (length (view s) - 1) with (length l) by lia.
  destruct (Swap_frame s 0 (length l)) as (s1 & Hs1 & Hf1 & Hv1); [done|lia..|].
  erewrite bind_OK by done.
  destruct (down_refines 0 (length l) s1) as (s2 & Hs2 & Hf2 & Hv2);
    [apply Hf1|rewrite (hframe_len _ _ Hf1); lia|].
  erewrite bind_OK by done.
  destruct l as [|a l].
  { assert (x = y) as <- by (rewrite Hv in Hx; by simplify_eq/=).
    assert (view s1 = [x]) as Hv1' by (by rewrite Hv1, Hv).
    assert (view s2 = [x]) as Hv2' by (by rewrite Hv2, Hv1').
    destruct (pop_last s2 [] x) as (s3 & Hs3 & Hwf3 & Ho3 & Hv3 & Hi3 & Hr3); [apply Hf2|done|].
    destruct Hf1 as (_ & Ho1 & Hp1 & Hr1), Hf2 as (_ & Ho2 & Hp2 & Hr2).
    exists s3. split_and!; try done.
    - congruence.
    - by rewrite Hv, Hv3.
    - intros r Hr. rewrite Hr3, Hr2, Hr1; [done|done|by rewrite Hp1|by rewrite Hp2, Hp1].
    - intros _. unfold hordered. rewrite Hv3. intros c. simpl. lia. }
  assert (a = x) as -> by (rewrite Hv in Hx; by simplify_eq/=).
  pose proof (heap_Remove s 0 x Hwf Hx) as HR. unfold heap.Remove in HR.
  unfold gets at 1, bind at 1 in HR. rewrite hLen_view, E0 in HR. cbv zeta in HR.
  replace (length (view s) - 1) with (length (x :: l)) in HR by lia.
  cbn [length] in *. cbn [Nat.eqb] in HR.
  (* [Remove 0] calls [up 0] when nothing moved, which does nothing *)
  assert (heap.up 0 s2 = OK tt s2) as Hup by done.
  erewrite bind_OK in HR; [done|]. erewrite bind_OK by done. erewrite bind_OK by done.
  case_match; [done|exact Hup].
Qed.

(** After a change of the key at [i], [Fix] restores the heap. *)
Lemma heap_Fix s i :
  hwf s -> i < length (view s) ->
  exists s', heap.Fix i s = OK tt s' /\ hframe s s' /\
    (exc (ord s) i (length (view s)) (view s) -> hordered s').
Proof.
  intros Hwf Hi. unfold heap.Fix. unfold gets at 1, bind at 1. rewrite hLen_view.
  destruct (down_refines i (length (view s)) s) as (s1 & Hs1 & Hf1 & Hv1); [done|lia|].
  erewrite bind_OK by done. destruct (i <? _) eqn:Emv.
  - exists s1. split_and!; [done..|]. intros He. apply Nat.ltb_lt in Emv.
    destruct (ldown_spec (ord s) (length (view s) + 1) i (length (view s)) (view s))
      as [(?&_)|(_&Hheap)]; [lia|lia|lia|done|lia|].
    by eapply hordered_intro.
  - apply Nat.ltb_ge in Emv. pose proof (hframe_len _ _ Hf1).
    destruct (up_refines i s1) as (s2 & Hs2 & Hf2 & Hv2); [apply Hf1|lia|].
    exists s2. split_and!; [done|by eapply hframe_trans|]. intros He.
    destruct (ldown_spec (ord s) (length (view s) + 1) i (length (view s)) (view s))
      as [(_&Heq&Hchi)|(?&_)]; [lia|lia|lia|done| |lia].
    apply (hordered_intro s s2 (view s2)); [by apply (hframe_trans s s1 s2)|done|]. rewrite Hv2.
    rewrite Hv1, Heq, (hframe_ord _ _ Hf1). apply lup_fixes; [apply _|done|lia|done..].
Qed.

(** On an array that is a heap already, [Init] only compares. *)
Lemma down_ordered s i : hwf s -> hordered s -> heap.down i (length (view s)) s = OK false s.
Proof.
  intros Hwf Hh. unfold heap.down. rewrite Nat.add_1_r. set (n := length (view s)).
  assert (heap.down_loop (Datatypes.S n) i n s = OK i s) as Hd.
  2: { rewrite (bind_OK _ _ _ _ _ Hd). by rewrite Nat.ltb_irrefl. }
  destruct (decide (n <= i)); [by apply down_loop_out|]. cbn [heap.down_loop]. cbv zeta.
  destruct (n <=? 2 * i + 1) eqn:En; [done|]. apply Nat.leb_gt in En.
  erewrite bind_OK by (apply down_child; [done|lia|lia]).
  destruct (lchild_bounds (ord s) (view s) i n En) as [Hb Hp].
  erewrite bind_OK by (apply Less_frame; [done|fold n; lia..]).
  assert (lless (ord s) (view s) (lchild (ord s) (view s) i n) i = false) as ->; [|done].
  unfold lless. destruct (view s !! lchild _ _ _ _) as [b|] eqn:Eb; [|done].
  destruct (view s !! i) as [a|] eqn:Ea; [|done]. eapply (Hh (lchild (ord s) (view s) i n)); [lia| |done].
  by rewrite Hp.
Qed.

Lemma Init_ordered s : hwf s -> hordered s -> heap.Init s = OK tt s.
Proof.
  intros Hwf Hh. unfold heap.Init, gets, bind at 1. rewrite hLen_view.
  generalize (length (view s) / 2) as k. induction k as [|k IH]; [done|]. cbn [heap.init_loop].
  by erewrite bind_OK by (by apply down_ordered).
Qed.

(** The root that [Peek] reads is a least entry. *)
Lemma heap_root s x r :
  hordered s -> view s !! 0 = Some x -> r ∈ view s -> ord s r x = false.
Proof.
  intros Hh Hx [k Hk]%list_elem_of_lookup_1.
  eapply heap_root_min; [apply _|exact Hh|done|done|by eapply lookup_lt_Some|done].
Qed.
End heap_proofs.
