(* ===== verification/Job.v ===== *)
(** Jobs: [src/state/state.go], [src/state/errors.go] and the generated
    [src/state/state_string.go].

    A job object is a [Job] record; the methods of the [Job] interface are the
    functions of module [Job] under their Go names.  Two types implement the
    interface, [localJob] (package [state]) and [wrapJob] (package [store], for
    jobs restored from a snapshot): their methods agree but for [UpdateState], so
    the record carries the dynamic type as a tag. *)
From stdpp Require Import base gmap list strings.
From Stdlib Require Import ZArith Lia Ascii.
From S2P Require Import Prelude.
Local Open Scope Z_scope.

(** * Errors: the sentinel values of [errors.go] *)
Inductive error : Type :=
| ErrInvalidIndex
| ErrMismatchJobEntry
| ErrEntryExists
| ErrEntryMissing
| ErrContainerEmpty
| ErrInvalidJobTransition
| ErrInvalidOperation
| ErrUnauthorizedOperation
| ErrCancel
| ErrNoReservationFound
| ErrInvalidResvTimeout
| ErrClientIsWaitingForReservation
(** an error of a package outside [state], such as the YAML encoder's *)
| ErrOther (msg : string).

#[export] Instance error_eq_dec : EqDecision error.
Proof. solve_decision. Defined.

(** * Names and states *)
Abbreviation JobID := Z.
Abbreviation TubeName := string.
Abbreviation ClientID := string.

(** A Go byte slice: [None] is the nil slice. *)
Definition slice : Type := option (list Byte.byte).

Inductive JobState : Type := Initial | Ready | Reserved | Buried | Delayed | Deleted.

#[export] Instance JobState_eq_dec : EqDecision JobState.
Proof. solve_decision. Defined.

(** The [iota] value of the constant. *)
Definition JobState_iota (st : JobState) : nat :=
  match st with
  | Initial => 0 | Ready => 1 | Reserved => 2 | Buried => 3 | Delayed => 4 | Deleted => 5
  end%nat.

(** [stringer]'s output: the name is a slice of one constant string. *)
Definition JobState_name : string := "InitialReadyReservedBuriedDelayedDeleted".
Definition JobState_index : list nat := [0; 7; 12; 20; 26; 33; 40]%nat.
Definition JobState_String (st : JobState) : string :=
  let i := JobState_iota st in
  let lo := JobState_index !!! i in
  let hi := JobState_index !!! (i + 1)%nat in
  String.substring lo (hi - lo) JobState_name.

(** [strings.ToLower], on the ASCII strings it is applied to. *)
Definition lower_ascii (c : ascii) : ascii :=
  let n := nat_of_ascii c in
  if ((65 <=? n) && (n <=? 90))%nat then ascii_of_nat (n + 32) else c.
Fixpoint ToLower (s : string) : string :=
  match s with
  | EmptyString => EmptyString
  | String c s' => String (lower_ascii c) (ToLower s')
  end.

(** * The job object *)
Inductive JobImpl : Type := LocalJob | WrapJob.
#[export] Instance JobImpl_eq_dec : EqDecision JobImpl.
Proof. solve_decision. Defined.

Record Job : Type := mkJob {
  impl : JobImpl;
  id : Z;
  priority : Z;
  delay : Z;
  ttr : Z;
  bodySize : Z;
  body : slice;
  tubeName : TubeName;
  createdAt : Z;
  readyAt : Z;
  state : JobState;
  expiresAt : Z;
  reservedBy : ClientID;
  buriedAt : Z;
  reserveCount : Z;
  timeoutCount : Z;
  releaseCount : Z;
  buryCount : Z;
  kickCount : Z
}.

(** Assignments to the fields the code assigns. *)
Definition set_priority (v : Z) (j : Job) : Job :=
  let 'mkJob im i _ d t bs b tn c r st e rb ba n1 n2 n3 n4 n5 := j in
  mkJob im i v d t bs b tn c r st e rb ba n1 n2 n3 n4 n5.
Definition set_delay (v : Z) (j : Job) : Job :=
  let 'mkJob im i p _ t bs b tn c r st e rb ba n1 n2 n3 n4 n5 := j in
  mkJob im i p v t bs b tn c r st e rb ba n1 n2 n3 n4 n5.
Definition set_readyAt (v : Z) (j : Job) : Job :=
  let 'mkJob im i p d t bs b tn c _ st e rb ba n1 n2 n3 n4 n5 := j in
  mkJob im i p d t bs b tn c v st e rb ba n1 n2 n3 n4 n5.
Definition set_state (v : JobState) (j : Job) : Job :=
  let 'mkJob im i p d t bs b tn c r _ e rb ba n1 n2 n3 n4 n5 := j in
  mkJob im i p d t bs b tn c r v e rb ba n1 n2 n3 n4 n5.
Definition set_expiresAt (v : Z) (j : Job) : Job :=
  let 'mkJob im i p d t bs b tn c r st _ rb ba n1 n2 n3 n4 n5 := j in
  mkJob im i p d t bs b tn c r st v rb ba n1 n2 n3 n4 n5.
Definition set_reservedBy (v : ClientID) (j : Job) : Job :=
  let 'mkJob im i p d t bs b tn c r st e _ ba n1 n2 n3 n4 n5 := j in
  mkJob im i p d t bs b tn c r st e v ba n1 n2 n3 n4 n5.
Definition set_buriedAt (v : Z) (j : Job) : Job :=
  let 'mkJob im i p d t bs b tn c r st e rb _ n1 n2 n3 n4 n5 := j in
  mkJob im i p d t bs b tn c r st e rb v n1 n2 n3 n4 n5.
Definition set_counts (f : Z * Z * Z * Z * Z -> Z * Z * Z * Z * Z) (j : Job) : Job :=
  let 'mkJob im i p d t bs b tn c r st e rb ba n1 n2 n3 n4 n5 := j in
  let '(m1, m2, m3, m4, m5) := f (n1, n2, n3, n4, n5) in
  mkJob im i p d t bs b tn c r st e rb ba m1 m2 m3 m4 m5.

(** ** Methods of the interface that mutate the job *)
Definition UpdatePriority (newPriority : Z) : Job -> Job := set_priority newPriority.
Definition UpdateDelay (newDelay : Z) : Job -> Job := set_delay newDelay.
Definition UpdateReadyAt (nowSeconds : Z) (j : Job) : Job :=
  set_readyAt (wrap_i64 (nowSeconds + delay j)) j.
(** [localJob] forgets [buriedAt] when it leaves the Buried state, [wrapJob] does not. *)
Definition UpdateState (newState : JobState) (j : Job) : Job :=
  match impl j with
  | LocalJob => set_state newState (if decide (state j = Buried) then set_buriedAt 0 j else j)
  | WrapJob => set_state newState j
  end.
Definition UpdateReservedBy (c : ClientID) : Job -> Job := set_reservedBy c.
Definition UpdateReservation (nowSeconds : Z) (j : Job) : Job :=
  set_expiresAt (wrap_i64 (nowSeconds + ttr j)) j.
Definition ResetBuriedAt : Job -> Job := set_buriedAt 0.
Definition UpdateBuriedAt (nowSeconds : Z) : Job -> Job := set_buriedAt nowSeconds.
Definition IncReserveCount : Job -> Job :=
  set_counts (fun '(a, b, c, d, e) => (wrap_u32 (a + 1), b, c, d, e)).
Definition IncTimeoutCount : Job -> Job :=
  set_counts (fun '(a, b, c, d, e) => (a, wrap_u32 (b + 1), c, d, e)).
Definition IncReleaseCount : Job -> Job :=
  set_counts (fun '(a, b, c, d, e) => (a, b, wrap_u32 (c + 1), d, e)).
Definition IncBuryCount : Job -> Job :=
  set_counts (fun '(a, b, c, d, e) => (a, b, c, wrap_u32 (d + 1), e)).
Definition IncKickCount : Job -> Job :=
  set_counts (fun '(a, b, c, d, e) => (a, b, c, d, wrap_u32 (e + 1))).

(** * Statistics of a job *)

(** A value of Go's [map[string]interface{}] handed to the YAML encoder. *)
Inductive yvalue : Type := YInt (z : Z) | YStr (s : string).

Definition GetStatistics (nowSecs : Z) (j : Job) : gmap string yvalue :=
  let jobState := JobState_String (state j) in
  let age := wrap_i64 (nowSecs - createdAt j) in
  let timeLeft := 0 in
  let timeLeft :=
    if decide (state j = Delayed) then
      let t := wrap_i64 (readyAt j - nowSecs) in if t <? 0 then 0 else t
    else timeLeft in
  let timeLeft :=
    if decide (state j = Reserved) then
      let t := wrap_i64 (expiresAt j - nowSecs) in if t <? 0 then 0 else t
    else timeLeft in
  list_to_map [
    ("id", YInt (id j)); ("tube", YStr (tubeName j)); ("state", YStr (ToLower jobState));
    ("pri", YInt (priority j)); ("age", YInt age); ("delay", YInt (delay j));
    ("ttr", YInt (ttr j)); ("time-left", YInt timeLeft); ("file", YInt 0);
    ("reserves", YInt (reserveCount j)); ("timeouts", YInt (timeoutCount j));
    ("releases", YInt (releaseCount j)); ("buries", YInt (buryCount j));
    ("kicks", YInt (kickCount j)) ]%string.

(** * Reservations *)
Inductive ReservationStatus : Type := RUnknown | Queued | DeadlineSoon | Matched | Timeout | RError.

#[export] Instance ReservationStatus_eq_dec : EqDecision ReservationStatus.
Proof. solve_decision. Defined.

Record Reservation : Type := mkReservation {
  r_RequestId : string;
  r_ClientId : ClientID;
  r_JobId : JobID;
  r_Status : ReservationStatus;
  r_BodySize : Z;
  r_Body : slice;
  r_Error : option error
}.

(** The client and the request that a reservation answers, and the statuses that end the
    waiting of a client. *)
Definition answered_request (r : Reservation) : ClientID * string := (r_ClientId r, r_RequestId r).
Definition is_answer (r : Reservation) : Prop := r_Status r = Matched \/ r_Status r = Timeout \/ r_Status r = DeadlineSoon.

(** * The object store

    Jobs, heap entries and client entries are Go pointers shared between
    containers, so they live in a store and the containers hold references. *)
Abbreviation JobRef := positive.
Abbreviation EntRef := positive.
Abbreviation CliRef := positive.

(** [type JobEntry struct { Job; index int }] *)
Record JobEntry : Type := mkJobEntry { je_Job : JobRef; je_index : Z }.

(** [type ClientResvEntry struct] of [client_resv.go] *)
Record ClientResvEntry : Type := mkClientResvEntry {
  CliID : ClientID;
  WatchedTubes : list TubeName;
  ResvDeadlineAt : Z;
  IsWaitingForResv : bool;
  TickAt : Z;
  ReqID : string;
  HeapIndex : Z
}.

Record Mem : Type := mkMem {
  mjobs : gmap JobRef Job;
  ments : gmap EntRef JobEntry;
  mclis : gmap CliRef ClientResvEntry;
  mnext : positive
}.

(** The nil pointer: never allocated, so dereferencing it panics. *)
Definition nil_ref : positive := 1.
Definition empty_Mem : Mem := mkMem ∅ ∅ ∅ 2.

Definition set_mjobs (v : gmap JobRef Job) (m : Mem) : Mem :=
  mkMem v (ments m) (mclis m) (mnext m).
Definition set_ments (v : gmap EntRef JobEntry) (m : Mem) : Mem :=
  mkMem (mjobs m) v (mclis m) (mnext m).
Definition set_mclis (v : gmap CliRef ClientResvEntry) (m : Mem) : Mem :=
  mkMem (mjobs m) (ments m) v (mnext m).

(** Allocation of a fresh object. *)
Definition alloc_job (j : Job) (m : Mem) : JobRef * Mem :=
  (mnext m, mkMem (<[mnext m := j]> (mjobs m)) (ments m) (mclis m) (mnext m + 1)%positive).
Definition alloc_ent (e : JobEntry) (m : Mem) : EntRef * Mem :=
  (mnext m, mkMem (mjobs m) (<[mnext m := e]> (ments m)) (mclis m) (mnext m + 1)%positive).
Definition alloc_cli (c : ClientResvEntry) (m : Mem) : CliRef * Mem :=
  (mnext m, mkMem (mjobs m) (ments m) (<[mnext m := c]> (mclis m)) (mnext m + 1)%positive).

(** Every object of the store was allocated. *)
Record mem_wf (m : Mem) : Prop := {
  mw_jobs r j : mjobs m !! r = Some j -> (r < mnext m)%positive;
  mw_ents r e : ments m !! r = Some e -> (r < mnext m)%positive;
  mw_clis r c : mclis m !! r = Some c -> (r < mnext m)%positive
}.

(** ** The algebra of the setters *)
Ltac solve_job := intros; repeat match goal with j : Job |- _ => destruct j end;
  repeat match goal with i : JobImpl |- _ => destruct i | st : JobState |- _ => destruct st end;
  reflexivity.

Section state_transitions.
Implicit Types j : Job.
Lemma UpdateState_state st j : state (UpdateState st j) = st.
Proof. destruct st; solve_job. Qed.
Lemma UpdateState_id st j : id (UpdateState st j) = id j.
Proof. solve_job. Qed.
Lemma UpdateState_tubeName st j : tubeName (UpdateState st j) = tubeName j.
Proof. solve_job. Qed.
Lemma UpdateState_reservedBy st j : reservedBy (UpdateState st j) = reservedBy j.
Proof. solve_job. Qed.
End state_transitions.
#[export] Hint Rewrite UpdateState_state UpdateState_id UpdateState_tubeName
  UpdateState_reservedBy : go.
