(* ===== verification/JobHeap.v ===== *)
(** The job heaps: [src/state/job_heap.go].

    A [jobHeap] is an array of references to [JobEntry] objects and one of four
    comparison functions.  Its methods run on the pair of the object store and
    the heap; [Less], [Swap], [Push] and [Pop] are the [heap.Interface] that
    [container/heap] drives, and [jobHeap_laws] discharges [HeapLaws] for them. *)
From stdpp Require Import base gmap list strings.
From Stdlib Require Import ZArith Lia.
From S2P Require Import Prelude GoHeap Job.
Local Open Scope Z_scope.

(** The closure stored in [lessFn], by the constructor that installs it. *)
Inductive LessKind : Type := PriorityLess | DelayedLess | ReservedLess | BuriedLess.

Record jobHeap : Type := mkJobHeap { entries : list EntRef; lessFn : LessKind }.

Definition set_entries (v : list EntRef) (h : jobHeap) : jobHeap := mkJobHeap v (lessFn h).

(** ** The four orders *)
Definition priority_less (a b : Job) : bool :=
  if priority a =? priority b then id a <? id b else priority a <? priority b.
Definition delayed_less (a b : Job) : bool :=
  if readyAt a =? readyAt b then id a <? id b else readyAt a <? readyAt b.
Definition reserved_less (a b : Job) : bool :=
  if expiresAt a =? expiresAt b then id a <? id b else expiresAt a <? expiresAt b.
Definition buried_less (a b : Job) : bool :=
  if buriedAt a =? buriedAt b then id a <? id b else buriedAt a <? buriedAt b.

Definition job_less (k : LessKind) : Job -> Job -> bool :=
  match k with
  | PriorityLess => priority_less
  | DelayedLess => delayed_less
  | ReservedLess => reserved_less
  | BuriedLess => buried_less
  end.

#[export] Instance job_less_order k : StrictWeak (job_less k).
Proof.
  split; destruct k; simpl; unfold priority_less, delayed_less, reserved_less, buried_less;
    intros; repeat (case_match; try done); lia.
Qed.

(** The field that a heap orders its jobs by, smallest first. *)
Definition urgency (k : LessKind) (j : Job) : Z :=
  match k with
  | PriorityLess => priority j
  | DelayedLess => readyAt j
  | ReservedLess => expiresAt j
  | BuriedLess => buriedAt j
  end.

(** [a] comes before [b]: it is more urgent, or as urgent and older. *)
Definition before (k : LessKind) (a b : Job) : Prop :=
  urgency k a < urgency k b \/ urgency k a = urgency k b /\ id a < id b.

Lemma job_less_before k a b : job_less k a b = true <-> before k a b.
Proof.
  unfold before. destruct k; simpl; unfold priority_less, delayed_less, reserved_less, buried_less;
    case_match; lia.
Qed.

#[export] Instance before_dec k a b : Decision (before k a b) := _.

Lemma before_asym k a b : before k a b -> ~ before k b a.
Proof. unfold before. lia. Qed.

Lemma before_total k a b : id a <> id b -> job_less k a b = false -> before k b a.
Proof. rewrite <- not_true_iff_false, job_less_before. unfold before. lia. Qed.

(** ** Methods *)
Section methods.
Abbreviation HM := (M error (Mem * jobHeap)).

Definition entry_job (m : Mem) (r : EntRef) : option Job :=
  e ← ments m !! r; mjobs m !! je_Job e.

Definition Len (h : jobHeap) : nat := length (entries h).

(** [jh.entries[i]] (an out-of-range index panics) and the job it embeds. *)
Definition entry_at (i : nat) : HM EntRef := deref (fun s => entries s.2 !! i).
Definition load_entry (r : EntRef) : HM JobEntry := deref (fun s => ments s.1 !! r).
Definition load_job (r : EntRef) : HM Job := deref (fun s => entry_job s.1 r).
Definition set_index (r : EntRef) (i : Z) : HM unit :=
  e <- load_entry r ;;
  modify (fun s => (set_ments (<[r := mkJobEntry (je_Job e) i]> (ments s.1)) s.1, s.2)).

Definition Less (i j : nat) : HM bool :=
  k <- gets (fun s => lessFn s.2) ;;
  ri <- entry_at i ;; rj <- entry_at j ;;
  ji <- load_job ri ;; jj <- load_job rj ;;
  ret (job_less k ji jj).

Definition Swap (i j : nat) : HM unit :=
  ri <- entry_at i ;; rj <- entry_at j ;;
  modify (fun s => (s.1, set_entries (<[i := rj]> (<[j := ri]> (entries s.2))) s.2)) ;;
  ri' <- entry_at i ;; set_index ri' (Z.of_nat i) ;;
  rj' <- entry_at j ;; set_index rj' (Z.of_nat j).

Definition Push (item : EntRef) : HM unit :=
  n <- gets (fun s => Len s.2) ;;
  set_index item (Z.of_nat n) ;;
  modify (fun s => (s.1, set_entries (entries s.2 ++ [item]) s.2)).

Definition Pop : HM EntRef :=
  n <- gets (fun s => Len s.2) ;;
  item <- (if (n =? 0)%nat then panic else entry_at (n - 1)) ;;
  set_index item (-1) ;;
  modify (fun s => (s.1, set_entries (take (n - 1) (entries s.2)) s.2)) ;;
  ret item.

#[export] Instance jobHeap_interface : HeapInterface error (Mem * jobHeap) EntRef := {
  hLen s := Len s.2;
  hLess := Less;
  hSwap := Swap;
  hPush := Push;
  hPop := Pop
}.

Definition Peek (h : jobHeap) : option EntRef :=
  if (Len h =? 0)%nat then None else entries h !! 0%nat.

Definition Enqueue (j : JobRef) : HM EntRef :=
  e <- (fun s => let '(r, m) := alloc_ent (mkJobEntry j 0) s.1 in OK r (m, s.2)) ;;
  heap.Push e ;;
  ret e.

Definition Dequeue : HM JobRef :=
  e <- heap.Pop ;; en <- load_entry e ;; ret (je_Job en).

Definition RemoveAt (entry : EntRef) : HM EntRef :=
  en <- load_entry entry ;;
  n <- gets (fun s => Len s.2) ;;
  if Z.of_nat n <=? je_index en then raise ErrInvalidIndex else
  if je_index en <? 0 then panic else
  let i := Z.to_nat (je_index en) in
  j <- load_job entry ;;
  ri <- entry_at i ;; j' <- load_job ri ;;
  if negb (id j =? id j') then raise ErrMismatchJobEntry else
  heap.Remove i.

(** [for _, e := range jh.entries { if e.TubeName() == tubeName { count++ } }] *)
Fixpoint count_by_tube (tube : TubeName) (es : list EntRef) (count : Z) : HM Z :=
  match es with
  | [] => ret count
  | e :: es' =>
    j <- load_job e ;;
    count_by_tube tube es' (if decide (tubeName j = tube) then wrap_u64 (count + 1) else count)
  end.
Definition JobCountByTube (tube : TubeName) : HM Z :=
  h <- gets snd ;; count_by_tube tube (entries h) 0.

(** The constructors call [heap.Init] on the empty array. *)
Definition NewPriorityJobs : jobHeap := mkJobHeap [] PriorityLess.
Definition NewDelayedJobs : jobHeap := mkJobHeap [] DelayedLess.
Definition NewReservedJobs : jobHeap := mkJobHeap [] ReservedLess.
Definition NewBuriedJobs : jobHeap := mkJobHeap [] BuriedLess.

Lemma Init_empty m k : heap.Init (m, mkJobHeap [] k) = OK tt (m, mkJobHeap [] k).
Proof. done. Qed.
End methods.

(** * The laws *)

(** The store without the index fields of the entries. *)
Definition jobs_obs : Type :=
  gmap JobRef Job * gmap EntRef JobRef * gmap CliRef ClientResvEntry * positive * LessKind.
Definition obs_of (s : Mem * jobHeap) : jobs_obs :=
  (mjobs s.1, je_Job <$> ments s.1, mclis s.1, mnext s.1, lessFn s.2).
Definition obs_job (t : jobs_obs) (r : EntRef) : option Job :=
  let '(js, es, _, _, _) := t in jr ← es !! r; js !! jr.
Definition obs_ord (t : jobs_obs) (a b : EntRef) : bool :=
  match obs_job t a, obs_job t b with
  | Some ja, Some jb => job_less t.2 ja jb
  | Some _, None => true
  | _, _ => false
  end.

Lemma obs_job_of s r : obs_job (obs_of s) r = entry_job s.1 r.
Proof.
  unfold obs_job, obs_of, entry_job. simpl. rewrite lookup_fmap.
  by destruct (ments s.1 !! r).
Qed.

#[export] Instance obs_ord_order t : StrictWeak (obs_ord t).
Proof.
  unfold obs_ord. split; intros a b.
  - destruct (obs_job t a), (obs_job t b); try done. apply sw_asym.
  - intros c. destruct (obs_job t a), (obs_job t b), (obs_job t c); try done. apply sw_le_trans.
Qed.

Lemma set_index_OK r i m h e :
  ments m !! r = Some e ->
  set_index r i (m, h) = OK tt (set_ments (<[r := mkJobEntry (je_Job e) i]> (ments m)) m, h).
Proof. intros He. unfold set_index. by erewrite bind_OK by (by apply deref_OK). Qed.

Lemma obs_of_set_index m h r i e :
  ments m !! r = Some e ->
  obs_of (set_ments (<[r := mkJobEntry (je_Job e) i]> (ments m)) m, h) = obs_of (m, h).
Proof.
  intros He. unfold obs_of. simpl. f_equal. f_equal. f_equal. f_equal.
  rewrite fmap_insert. simpl. apply insert_id. by rewrite lookup_fmap, He.
Qed.

Lemma obs_ok_entry m h r : is_Some (obs_job (obs_of (m, h)) r) -> is_Some (ments m !! r).
Proof.
  intros [j Hj]. rewrite obs_job_of in Hj. unfold entry_job in Hj.
  apply bind_Some in Hj as (e & He & _). eauto.
Qed.

Lemma Less_law m h i j a b :
  entries h !! i = Some a -> entries h !! j = Some b ->
  is_Some (obs_job (obs_of (m, h)) a) -> is_Some (obs_job (obs_of (m, h)) b) ->
  Less i j (m, h) = OK (obs_ord (obs_of (m, h)) a b) (m, h).
Proof.
  intros Hi Hj [ja Ha] [jb Hb]. rewrite obs_job_of in Ha, Hb. unfold Less.
  erewrite bind_OK by done. do 4 (erewrite bind_OK by (by apply deref_OK)).
  unfold obs_ord. by rewrite !obs_job_of, Ha, Hb.
Qed.

Lemma Swap_law m h i j a b :
  entries h !! i = Some a -> entries h !! j = Some b ->
  is_Some (obs_job (obs_of (m, h)) a) -> is_Some (obs_job (obs_of (m, h)) b) ->
  exists s', Swap i j (m, h) = OK tt s' /\
    entries s'.2 = lswap i j (entries h) /\ obs_of s' = obs_of (m, h) /\
    (forall r, je_index <$> ments s'.1 !! r =
       if decide (r = a) then Some (Z.of_nat j)
       else if decide (r = b) then Some (Z.of_nat i) else je_index <$> ments m !! r).
Proof.
  intros Hi Hj [ea Ha]%obs_ok_entry [eb Hb]%obs_ok_entry.
  pose proof (lookup_lt_Some _ _ _ Hi). pose proof (lookup_lt_Some _ _ _ Hj). unfold Swap.
  do 2 (erewrite bind_OK by (by apply deref_OK)). erewrite bind_OK by done. simpl.
  erewrite bind_OK.
  2: { apply deref_OK. simpl. by rewrite list_lookup_insert_eq by (by rewrite length_insert). }
  erewrite bind_OK by (by apply set_index_OK).
  assert (exists ea', <[b:=mkJobEntry (je_Job eb) (Z.of_nat i)]> (ments m) !! a = Some ea' /\
            je_Job ea' = je_Job ea) as (ea' & Hea' & Hjea).
  { rewrite lookup_insert. case_decide; simplify_eq; eauto. }
  rewrite (bind_OK _ _ _ a (set_ments (<[b:=mkJobEntry (je_Job eb) (Z.of_nat i)]> (ments m)) m,
      set_entries (<[i:=b]> (<[j:=a]> (entries h))) h)).
  2: { apply deref_OK. simpl. destruct (decide (i = j)) as [->|].
       - rewrite list_lookup_insert_eq by (by rewrite length_insert). congruence.
       - rewrite list_lookup_insert_ne by done. by rewrite list_lookup_insert_eq. }
  rewrite (set_index_OK _ _ _ _ ea') by done. eexists. split_and!; [done| | |].
  - simpl. unfold lswap. by rewrite Hi, Hj.
  - rewrite obs_of_set_index by done. by rewrite obs_of_set_index.
  - intros r. cbn [fst ments set_ments]. rewrite !lookup_insert. by repeat case_decide; simplify_eq.
Qed.

Lemma Push_law m h x :
  is_Some (obs_job (obs_of (m, h)) x) ->
  exists s', Push x (m, h) = OK tt s' /\
    entries s'.2 = entries h ++ [x] /\ obs_of s' = obs_of (m, h) /\
    (forall r, je_index <$> ments s'.1 !! r =
       if decide (r = x) then Some (Z.of_nat (length (entries h)))
       else je_index <$> ments m !! r).
Proof.
  intros [ex Hex]%obs_ok_entry. unfold Push. erewrite bind_OK by done. cbn [snd].
  erewrite bind_OK by (by apply set_index_OK). eexists. split_and!; [done..| |].
  - by rewrite <- (obs_of_set_index m h x (Z.of_nat (Len h)) ex Hex).
  - intros r. cbn [fst ments set_ments]. rewrite lookup_insert. by repeat case_decide; simplify_eq.
Qed.

Lemma Pop_law m h l x :
  entries h = l ++ [x] -> is_Some (obs_job (obs_of (m, h)) x) ->
  exists s', Pop (m, h) = OK x s' /\
    entries s'.2 = l /\ obs_of s' = obs_of (m, h) /\
    (forall r, je_index <$> ments s'.1 !! r =
       if decide (r = x) then Some (-1) else je_index <$> ments m !! r).
Proof.
  intros Hv [ex Hex]%obs_ok_entry. unfold Pop.
  erewrite bind_OK by done. cbn [snd]. unfold Len. rewrite Hv, length_app. simpl.
  destruct (length l + 1 =? 0)%nat eqn:E0; [apply Nat.eqb_eq in E0; lia|].
  rewrite Nat.add_sub. erewrite bind_OK.
  2: { apply deref_OK. simpl. rewrite Hv, lookup_app_r, Nat.sub_diag by lia. done. }
  erewrite bind_OK by (by apply set_index_OK). simpl. eexists. split_and!; [done| | |].
  - simpl. by rewrite Hv, take_app_length.
  - by rewrite <- (obs_of_set_index m h x (-1) ex Hex).
  - intros r. cbn [fst ments set_ments]. rewrite lookup_insert. by repeat case_decide; simplify_eq.
Qed.

#[export] Instance jobHeap_laws : HeapLaws error (Mem * jobHeap) EntRef jobs_obs := {|
  hview s := entries s.2;
  hidx s r := je_index <$> ments s.1 !! r;
  hobs := obs_of;
  hok t r := is_Some (obs_job t r);
  hord := obs_ord;
  hord_order := obs_ord_order;
  hLen_view s := eq_refl;
  hLess_spec := fun '(m, h) => Less_law m h;
  hSwap_spec := fun '(m, h) => Swap_law m h;
  hPush_spec := fun '(m, h) => Push_law m h;
  hPop_spec := fun '(m, h) => Pop_law m h
|}.

(** * The methods on a well-formed heap *)
Definition jh_wf (m : Mem) (h : jobHeap) : Prop :=
  hwf (E:=error) (S:=Mem * jobHeap) (X:=EntRef) (T:=jobs_obs) (m, h).
Definition jh_sorted (m : Mem) (h : jobHeap) : Prop :=
  hordered (E:=error) (S:=Mem * jobHeap) (X:=EntRef) (T:=jobs_obs) (m, h).

Lemma jh_wf_alt m h :
  jh_wf m h <->
  (forall i r, entries h !! i = Some r -> je_index <$> ments m !! r = Some (Z.of_nat i)) /\
  (forall r, r ∈ entries h -> is_Some (entry_job m r)).
Proof.
  unfold jh_wf, hwf. split; intros [H1 H2]; (split; [done|]); intros r Hr.
  - rewrite <- (obs_job_of (m, h)). by apply H2.
  - change (is_Some (obs_job (obs_of (m, h)) r)). rewrite obs_job_of. by apply H2.
Qed.

Lemma jh_wf_empty m k : jh_wf m (mkJobHeap [] k).
Proof. apply jh_wf_alt. split; [by intros ??|intros ? []%not_elem_of_nil]. Qed.

Lemma jh_sorted_empty m k : jh_sorted m (mkJobHeap [] k).
Proof. intros c. simpl. lia. Qed.

(** The heap property, in terms of the jobs. *)
Lemma jh_sorted_frame m m' h :
  (forall r, r ∈ entries h -> entry_job m' r = entry_job m r) ->
  jh_sorted m h -> jh_sorted m' h.
Proof.
  unfold jh_sorted, hordered. simpl. intros Heq Hs c Hc a b Ha Hb.
  specialize (Hs c Hc a b Ha Hb). unfold obs_ord in *. rewrite !obs_job_of in *. simpl in *.
  rewrite !Heq by (by eapply list_elem_of_lookup_2). done.
Qed.

Lemma jh_wf_frame m m' h :
  (forall r, r ∈ entries h -> ments m' !! r = ments m !! r) ->
  (forall r, r ∈ entries h -> is_Some (entry_job m r) -> is_Some (entry_job m' r)) ->
  jh_wf m h -> jh_wf m' h.
Proof.
  rewrite !jh_wf_alt. intros He Hj [H1 H2]. split; [|by auto].
  intros i r Hr. rewrite He by (by eapply list_elem_of_lookup_2). auto.
Qed.

(** [Peek] returns a least job of the heap. *)
Lemma Peek_least m h r r' j j' :
  jh_sorted m h -> Peek h = Some r -> entry_job m r = Some j ->
  r' ∈ entries h -> entry_job m r' = Some j' -> job_less (lessFn h) j' j = false.
Proof.
  intros Hs Hp Hj Hr' Hj'. unfold Peek in Hp. case_match; [done|].
  pose proof (heap_root (E:=error) (S:=Mem * jobHeap) (m, h) r r' Hs Hp Hr') as Hl.
  change (obs_ord (obs_of (m, h)) r' r = false) in Hl. unfold obs_ord in Hl.
  rewrite !obs_job_of in Hl. cbn [fst] in Hl. by rewrite Hj, Hj' in Hl.
Qed.

Lemma Peek_Some h : Len h <> 0%nat -> exists r, Peek h = Some r /\ r ∈ entries h.
Proof.
  unfold Peek, Len. destruct h as [[|r es] k]; simpl; [done|]. intros _.
  exists r. split; [done|by left].
Qed.

(** What [Enqueue] and [RemoveAt] do to the store and the heap. *)
Record heap_pushed (jr : JobRef) (er : EntRef) (m : Mem) (h : jobHeap) (m' : Mem) (h' : jobHeap)
    : Prop := {
  hp_er : er = mnext m;
  hp_next : mnext m' = (mnext m + 1)%positive;
  hp_jobs : mjobs m' = mjobs m;
  hp_clis : mclis m' = mclis m;
  hp_ents : je_Job <$> ments m' = <[er := jr]> (je_Job <$> ments m);
  hp_frame r : r <> er -> r ∉ entries h -> ments m' !! r = ments m !! r;
  hp_entries : entries h' ≡ₚ er :: entries h;
  hp_less : lessFn h' = lessFn h;
  hp_wf : jh_wf m' h';
  hp_sorted : jh_sorted m h -> jh_sorted m' h'
}.

Record heap_removed (er : EntRef) (m : Mem) (h : jobHeap) (m' : Mem) (h' : jobHeap) : Prop := {
  hr_next : mnext m' = mnext m;
  hr_jobs : mjobs m' = mjobs m;
  hr_clis : mclis m' = mclis m;
  hr_ents : je_Job <$> ments m' = je_Job <$> ments m;
  hr_frame r : r ∉ entries h -> ments m' !! r = ments m !! r;
  hr_entries : entries h ≡ₚ er :: entries h';
  hr_less : lessFn h' = lessFn h;
  hr_wf : jh_wf m' h';
  hr_sorted : jh_sorted m h -> jh_sorted m' h'
}.

Lemma entry_frame (f f' : gmap EntRef JobEntry) r :
  je_Job <$> f' !! r = je_Job <$> f !! r -> je_index <$> f' !! r = je_index <$> f !! r ->
  f' !! r = f !! r.
Proof.
  destruct (f' !! r) as [[]|], (f !! r) as [[]|]; simpl; intros; by simplify_eq.
Qed.

Lemma obs_inv m h m' h' :
  obs_of (m', h') = obs_of (m, h) ->
  mjobs m' = mjobs m /\ je_Job <$> ments m' = je_Job <$> ments m /\ mclis m' = mclis m /\
  mnext m' = mnext m /\ lessFn h' = lessFn h.
Proof. unfold obs_of. simpl. intros. by simplify_eq. Qed.

Lemma Enqueue_spec m h jr j :
  mem_wf m -> jh_wf m h -> mjobs m !! jr = Some j ->
  exists m' h', Enqueue jr (m, h) = OK (mnext m) (m', h') /\
    heap_pushed jr (mnext m) m h m' h'.
Proof.
  intros Hmw Hwf Hj. set (er := mnext m).
  set (m1 := mkMem (mjobs m) (<[er := mkJobEntry jr 0]> (ments m)) (mclis m) (er + 1)).
  assert (er ∉ entries h) as Hnin.
  { intros Hin. apply jh_wf_alt in Hwf as [_ Hok]. destruct (Hok _ Hin) as [j' Hj'].
    unfold entry_job in Hj'. apply bind_Some in Hj' as (e & He & _).
    apply (mw_ents _ Hmw) in He. subst er. lia. }
  assert (forall r, r ∈ entries h -> ments m1 !! r = ments m !! r) as Hold.
  { intros r Hr. simpl. apply lookup_insert_ne. by intros <-. }
  assert (jh_wf m1 h) as Hwf1.
  { eapply jh_wf_frame; [done| |done]. intros r Hr. unfold entry_job. by rewrite Hold. }
  destruct (heap_Push (E:=error) (m1, h) er) as ([m' h'] & Hs & Hw & Ho & Hp & Hi & Hso); [done| |done|].
  { change (is_Some (obs_job (obs_of (m1, h)) er)). rewrite obs_job_of. unfold entry_job. simpl.
    rewrite lookup_insert_eq. simpl. eauto. }
  simpl in Ho, Hp, Hi. apply obs_inv in Ho as (Hmj & Hme & Hmc & Hmn & Hl).
  exists m', h'. split.
  { unfold Enqueue. erewrite bind_OK; [|simpl; reflexivity]. erewrite bind_OK by done. done. }
  split; try done.
  - rewrite Hme. simpl. by rewrite fmap_insert.
  - intros r Hr Hrn. rewrite <- (lookup_insert_ne (ments m) er r (mkJobEntry jr 0)) by done.
    apply entry_frame; [|by apply Hi]. rewrite <- !lookup_fmap, Hme. done.
  - intros Hsm. apply Hso. eapply jh_sorted_frame; [|done].
    intros r Hr. unfold entry_job. by rewrite Hold.
Qed.

Lemma removed_of_obs er m h m' h' :
  jh_wf m' h' -> obs_of (m', h') = obs_of (m, h) -> entries h ≡ₚ er :: entries h' ->
  (forall r, r ∉ entries h -> je_index <$> ments m' !! r = je_index <$> ments m !! r) ->
  (jh_sorted m h -> jh_sorted m' h') -> heap_removed er m h m' h'.
Proof.
  intros Hw Ho Hp Hi Hso. apply obs_inv in Ho as (Hmj & Hme & Hmc & Hmn & Hl).
  split; try done. intros r Hr. apply entry_frame; [|by apply Hi].
  by rewrite <- !lookup_fmap, Hme.
Qed.

(** A well-formed heap entry and its position. *)
Lemma jh_wf_entry m h er :
  jh_wf m h -> er ∈ entries h ->
  exists i e j, entries h !! i = Some er /\ ments m !! er = Some e /\
    je_index e = Z.of_nat i /\ mjobs m !! je_Job e = Some j.
Proof.
  intros [H1 H2]%jh_wf_alt Hin. destruct (H2 _ Hin) as [j Hj].
  apply list_elem_of_lookup_1 in Hin as [i Hi]. specialize (H1 _ _ Hi).
  unfold entry_job in Hj. apply bind_Some in Hj as (e & He & Hj).
  rewrite He in H1. simplify_eq/=. eauto 10.
Qed.

Lemma RemoveAt_spec m h er :
  jh_wf m h -> er ∈ entries h ->
  exists m' h', RemoveAt er (m, h) = OK er (m', h') /\ heap_removed er m h m' h'.
Proof.
  intros Hwf Hin. destruct (jh_wf_entry m h er Hwf Hin) as (i & e & j & Hi & He & Hx & Hj).
  pose proof (lookup_lt_Some _ _ _ Hi) as Hlt.
  destruct (heap_Remove (E:=error) (m, h) i er) as ([m' h'] & Hs & Hw & Ho & Hp & _ & Hr & Hso); [done..|].
  exists m', h'. split; [|by apply removed_of_obs].
  unfold RemoveAt. erewrite bind_OK by (by apply deref_OK). erewrite bind_OK by done.
  cbn [snd]. unfold Len. rewrite Hx. case_match; [lia|]. case_match; [lia|]. cbv zeta.
  rewrite Nat2Z.id. assert (entry_job m er = Some j) as Hej.
  { unfold entry_job. rewrite He. simpl. done. }
  erewrite bind_OK by (by apply deref_OK). do 2 (erewrite bind_OK by (by apply deref_OK)).
  rewrite Z.eqb_refl. simpl. exact Hs.
Qed.

Lemma Dequeue_spec m h er e :
  jh_wf m h -> entries h !! 0%nat = Some er -> ments m !! er = Some e ->
  exists m' h', Dequeue (m, h) = OK (je_Job e) (m', h') /\ heap_removed er m h m' h'.
Proof.
  intros Hwf Hx He.
  destruct (heap_Pop (E:=error) (m, h) er) as ([m' h'] & Hs & Hw & Ho & Hp & _ & Hr & Hso); [done..|].
  pose proof (removed_of_obs er m h m' h' Hw Ho Hp Hr Hso) as Hrm.
  exists m', h'. split; [|done]. unfold Dequeue. erewrite bind_OK by done.
  assert (exists e', ments m' !! er = Some e' /\ je_Job e' = je_Job e) as (e' & He' & Hje).
  { pose proof (hr_ents _ _ _ _ _ Hrm) as Hf. apply (f_equal (.!! er)) in Hf.
    rewrite !lookup_fmap, He in Hf. destruct (ments m' !! er); simplify_eq/=; eauto. }
  erewrite bind_OK by (by apply deref_OK). by rewrite <- Hje.
Qed.
