(* ===== verification/ClientResv.v ===== *)
(** Client reservations: [src/state/client_resv.go].

    - [clientResvHeap]: the heap of client entries ordered by [TickAt], ties
      broken by [CliID], on [container/heap];
    - [clientResvQueue]: a FIFO list with an index by [ClientID];
    - [clientResvMap]: the map of entries by [ClientID].
    Entries are shared objects: heap and queues hold references into the store. *)
From stdpp Require Import base gmap list strings.
From Stdlib Require Import ZArith Lia Ascii.
From S2P Require Import Prelude GoHeap Job.
Local Open Scope Z_scope.

Definition set_ResvDeadlineAt (v : Z) (c : ClientResvEntry) : ClientResvEntry :=
  mkClientResvEntry (CliID c) (WatchedTubes c) v (IsWaitingForResv c) (TickAt c) (ReqID c) (HeapIndex c).
Definition set_IsWaitingForResv (v : bool) (c : ClientResvEntry) : ClientResvEntry :=
  mkClientResvEntry (CliID c) (WatchedTubes c) (ResvDeadlineAt c) v (TickAt c) (ReqID c) (HeapIndex c).
Definition set_TickAt (v : Z) (c : ClientResvEntry) : ClientResvEntry :=
  mkClientResvEntry (CliID c) (WatchedTubes c) (ResvDeadlineAt c) (IsWaitingForResv c) v (ReqID c) (HeapIndex c).
Definition set_ReqID (v : string) (c : ClientResvEntry) : ClientResvEntry :=
  mkClientResvEntry (CliID c) (WatchedTubes c) (ResvDeadlineAt c) (IsWaitingForResv c) (TickAt c) v (HeapIndex c).
Definition set_WatchedTubes (v : list TubeName) (c : ClientResvEntry) : ClientResvEntry :=
  mkClientResvEntry (CliID c) v (ResvDeadlineAt c) (IsWaitingForResv c) (TickAt c) (ReqID c) (HeapIndex c).
Definition set_HeapIndex (v : Z) (c : ClientResvEntry) : ClientResvEntry :=
  mkClientResvEntry (CliID c) (WatchedTubes c) (ResvDeadlineAt c) (IsWaitingForResv c) (TickAt c) (ReqID c) v.

(** [newClientResvEntry]; the two URNs come from the [uuid] package. *)
Definition newClientResvEntry (cliUrn reqUrn : string) : ClientResvEntry :=
  mkClientResvEntry cliUrn [] MaxInt64 false 0 reqUrn (-1).

(** * The heap of clients *)
Module CliHeap.
Abbreviation clientResvHeap := (list CliRef).
Abbreviation CM := (M error (Mem * clientResvHeap)).

Definition newClientResvHeap : clientResvHeap := [].
(** [make(clientResvHeap, size)]: [size] nil pointers. *)
Definition newClientResvHeapWithSize (size : nat) : clientResvHeap := replicate size nil_ref.

Definition Len (h : clientResvHeap) : nat := length h.

Definition client_less (a b : ClientResvEntry) : bool :=
  if TickAt a =? TickAt b then String.ltb (CliID a) (CliID b) else TickAt a <? TickAt b.

Definition entry_at (i : nat) : CM CliRef := deref (fun s => s.2 !! i).
Definition load (r : CliRef) : CM ClientResvEntry := deref (fun s => mclis s.1 !! r).
Definition store (r : CliRef) (c : ClientResvEntry) : CM unit :=
  modify (fun s => (set_mclis (<[r := c]> (mclis s.1)) s.1, s.2)).
Definition set_index (r : CliRef) (i : Z) : CM unit :=
  c <- load r ;; store r (set_HeapIndex i c).

Definition Less (i j : nat) : CM bool :=
  ri <- entry_at i ;; rj <- entry_at j ;;
  ci <- load ri ;; cj <- load rj ;;
  ret (client_less ci cj).

Definition Swap (i j : nat) : CM unit :=
  ri <- entry_at i ;; rj <- entry_at j ;;
  modify (fun s => (s.1, <[i := rj]> (<[j := ri]> s.2))) ;;
  ri' <- entry_at i ;; set_index ri' (Z.of_nat i) ;;
  rj' <- entry_at j ;; set_index rj' (Z.of_nat j).

Definition Push (item : CliRef) : CM unit :=
  n <- gets (fun s => Len s.2) ;;
  set_index item (Z.of_nat n) ;;
  modify (fun s => (s.1, s.2 ++ [item])).

Definition Pop : CM CliRef :=
  n <- gets (fun s => Len s.2) ;;
  item <- (if (n =? 0)%nat then panic else entry_at (n - 1)) ;;
  set_index item (-1) ;;
  modify (fun s => (s.1, take (n - 1) s.2)) ;;
  ret item.

#[export] Instance clientResvHeap_interface : HeapInterface error (Mem * clientResvHeap) CliRef := {
  hLen s := Len s.2;
  hLess := Less;
  hSwap := Swap;
  hPush := Push;
  hPop := Pop
}.

Definition initializeHeap : CM unit := heap.Init.

Definition Enqueue (cli : CliRef) : CM unit := heap.Push cli.
Definition Dequeue : CM CliRef := heap.Pop.

Definition Remove (cli : CliRef) : CM unit :=
  c <- load cli ;;
  n <- gets (fun s => Len s.2) ;;
  if Z.of_nat n <=? HeapIndex c then raise ErrInvalidIndex else
  if HeapIndex c <? 0 then panic else
  let i := Z.to_nat (HeapIndex c) in
  r <- entry_at i ;; c' <- load r ;;
  if negb (String.eqb (CliID c) (CliID c')) then raise ErrMismatchJobEntry else
  heap.Remove i ;;
  ret tt.

Definition Peek (h : clientResvHeap) : option CliRef :=
  if (Len h =? 0)%nat then None else h !! 0%nat.

(** [cli.TickAt = newTickAt; heap.Fix(h, cli.HeapIndex)]; on the index -1 both loops
    of [Fix] stop at once, on any other negative index [up] panics. *)
Definition UpdateTickAt (cli : CliRef) (newTickAt : Z) : CM unit :=
  c <- load cli ;;
  store cli (set_TickAt newTickAt c) ;;
  if HeapIndex c =? -1 then ret tt else
  if HeapIndex c <? 0 then panic else heap.Fix (Z.to_nat (HeapIndex c)).

(** ** The laws *)

(** The store without the [HeapIndex] fields. *)
Definition clis_obs : Type :=
  gmap JobRef Job * gmap EntRef JobEntry * gmap CliRef ClientResvEntry * positive.
Definition obs_of (s : Mem * clientResvHeap) : clis_obs :=
  (mjobs s.1, ments s.1, set_HeapIndex 0 <$> mclis s.1, mnext s.1).
Definition obs_cli (t : clis_obs) (r : CliRef) : option ClientResvEntry :=
  let '(_, _, cs, _) := t in cs !! r.
Definition obs_ord (t : clis_obs) (a b : CliRef) : bool :=
  match obs_cli t a, obs_cli t b with
  | Some ca, Some cb => client_less ca cb
  | Some _, None => true
  | _, _ => false
  end.
End CliHeap.

(** [String.ltb] is the byte-wise order of Go's [<] on strings. *)
Section string_order.
Lemma string_ltb_cons a s b t :
  String.ltb (String a s) (String b t) =
    ((Ascii.N_of_ascii a <? Ascii.N_of_ascii b)%N ||
     ((Ascii.N_of_ascii a =? Ascii.N_of_ascii b)%N && String.ltb s t)).
Proof.
  unfold String.ltb. simpl. unfold Ascii.compare, N.ltb.
  destruct (N.compare_spec (Ascii.N_of_ascii a) (Ascii.N_of_ascii b)) as [->|Hlt|Hgt]; simpl.
  - by rewrite N.eqb_refl.
  - done.
  - rewrite (proj2 (N.eqb_neq _ _)) by lia. done.
Qed.

#[export] Instance string_ltb_order : StrictWeak String.ltb.
Proof.
  split.
  - intros a. induction a as [|x a IH]; intros [|y b]; try done.
    rewrite !string_ltb_cons. intros H. apply orb_true_iff in H as [H|[H1 H2]%andb_true_iff].
    + apply N.ltb_lt in H. apply orb_false_iff. split; [apply N.ltb_ge; lia|].
      apply andb_false_iff. left. apply N.eqb_neq. lia.
    + apply N.eqb_eq in H1. rewrite H1, N.ltb_irrefl, N.eqb_refl. simpl. by apply IH.
  - intros a. induction a as [|x a IH]; intros [|y b] [|z c]; try done.
    rewrite !string_ltb_cons. rewrite !orb_false_iff, !andb_false_iff, !N.ltb_ge, !N.eqb_neq.
    intros [? H1] [? H2]. split; [lia|].
    destruct (decide (Ascii.N_of_ascii z = Ascii.N_of_ascii x)); [right|by left].
    destruct H1; [lia|]. destruct H2; [lia|]. by eapply IH.
Qed.

Lemma string_ltb_total a b : String.ltb a b = false -> String.ltb b a = false -> a = b.
Proof.
  unfold String.ltb. rewrite (String.compare_antisym b a).
  destruct (String.compare a b) eqn:E; try done. by apply String.compare_eq_iff in E.
Qed.
End string_order.

Module CliHeapLaws.
Import CliHeap.

#[export] Instance client_less_order : StrictWeak client_less.
Proof.
  unfold client_less. split.
  - intros a b. destruct (Z.eqb_spec (TickAt a) (TickAt b)) as [->|].
    + rewrite Z.eqb_refl. apply sw_asym.
    + rewrite (proj2 (Z.eqb_neq _ _)) by done. lia.
  - intros a b c.
    destruct (Z.eqb_spec (TickAt b) (TickAt a)), (Z.eqb_spec (TickAt c) (TickAt b)),
      (Z.eqb_spec (TickAt c) (TickAt a)); try lia. apply sw_le_trans.
Qed.

#[export] Instance obs_ord_order t : StrictWeak (obs_ord t).
Proof.
  unfold obs_ord. split; intros a b.
  - destruct (obs_cli t a), (obs_cli t b); try done. apply sw_asym.
  - intros c. destruct (obs_cli t a), (obs_cli t b), (obs_cli t c); try done. apply sw_le_trans.
Qed.

Lemma obs_cli_of s r : obs_cli (obs_of s) r = set_HeapIndex 0 <$> mclis s.1 !! r.
Proof. unfold obs_cli, obs_of. apply lookup_fmap. Qed.

Lemma obs_ok_cli m h r : is_Some (obs_cli (obs_of (m, h)) r) <-> is_Some (mclis m !! r).
Proof. rewrite obs_cli_of. simpl. by rewrite fmap_is_Some. Qed.

Lemma cli_set_index_OK r i m h c :
  mclis m !! r = Some c ->
  set_index r i (m, h) = OK tt (set_mclis (<[r := set_HeapIndex i c]> (mclis m)) m, h).
Proof. intros Hc. unfold set_index. by erewrite bind_OK by (by apply deref_OK). Qed.

Lemma cli_obs_of_set_index m h r i c :
  mclis m !! r = Some c ->
  obs_of (set_mclis (<[r := set_HeapIndex i c]> (mclis m)) m, h) = obs_of (m, h).
Proof.
  intros Hc. unfold obs_of. simpl. f_equal. f_equal.
  rewrite fmap_insert. apply insert_id. by rewrite lookup_fmap, Hc.
Qed.

Lemma cli_Less_law m h i j a b :
  h !! i = Some a -> h !! j = Some b ->
  is_Some (obs_cli (obs_of (m, h)) a) -> is_Some (obs_cli (obs_of (m, h)) b) ->
  Less i j (m, h) = OK (obs_ord (obs_of (m, h)) a b) (m, h).
Proof.
  intros Hi Hj [ca Ha]%obs_ok_cli [cb Hb]%obs_ok_cli. unfold Less.
  do 4 (erewrite bind_OK by (by apply deref_OK)).
  unfold obs_ord. rewrite !obs_cli_of. simpl. by rewrite Ha, Hb.
Qed.

Lemma cli_Swap_law m (h : clientResvHeap) i j a b :
  h !! i = Some a -> h !! j = Some b ->
  is_Some (obs_cli (obs_of (m, h)) a) -> is_Some (obs_cli (obs_of (m, h)) b) ->
  exists s', Swap i j (m, h) = OK tt s' /\
    s'.2 = lswap i j h /\ obs_of s' = obs_of (m, h) /\
    (forall r, HeapIndex <$> mclis s'.1 !! r =
       if decide (r = a) then Some (Z.of_nat j)
       else if decide (r = b) then Some (Z.of_nat i) else HeapIndex <$> mclis m !! r).
Proof.
  intros Hi Hj [ca Ha]%obs_ok_cli [cb Hb]%obs_ok_cli.
  pose proof (lookup_lt_Some _ _ _ Hi). pose proof (lookup_lt_Some _ _ _ Hj). unfold Swap.
  do 2 (erewrite bind_OK by (by apply deref_OK)). erewrite bind_OK by done. simpl.
  erewrite bind_OK.
  2: { apply deref_OK. simpl. by rewrite list_lookup_insert_eq by (by rewrite length_insert). }
  erewrite bind_OK by (by apply cli_set_index_OK).
  assert (is_Some (<[b:=set_HeapIndex (Z.of_nat i) cb]> (mclis m) !! a)) as (ca' & Hca').
  { rewrite lookup_insert. case_decide; simplify_eq; eauto. }
  rewrite (bind_OK _ _ _ a (set_mclis (<[b:=set_HeapIndex (Z.of_nat i) cb]> (mclis m)) m,
      <[i:=b]> (<[j:=a]> h))).
  2: { apply deref_OK. simpl. destruct (decide (i = j)) as [->|].
       - rewrite list_lookup_insert_eq by (by rewrite length_insert). congruence.
       - rewrite list_lookup_insert_ne by done. by rewrite list_lookup_insert_eq. }
  rewrite (cli_set_index_OK _ _ _ _ ca') by done. eexists. split_and!; [done| | |].
  - simpl. unfold lswap. by rewrite Hi, Hj.
  - rewrite cli_obs_of_set_index by done. by rewrite cli_obs_of_set_index.
  - intros r. cbn [fst mclis set_mclis]. rewrite !lookup_insert. by repeat case_decide; simplify_eq.
Qed.

Lemma cli_Push_law m (h : clientResvHeap) x :
  is_Some (obs_cli (obs_of (m, h)) x) ->
  exists s', Push x (m, h) = OK tt s' /\
    s'.2 = h ++ [x] /\ obs_of s' = obs_of (m, h) /\
    (forall r, HeapIndex <$> mclis s'.1 !! r =
       if decide (r = x) then Some (Z.of_nat (length h)) else HeapIndex <$> mclis m !! r).
Proof.
  intros [cx Hcx]%obs_ok_cli. unfold Push. erewrite bind_OK by done. cbn [snd].
  erewrite bind_OK by (by apply cli_set_index_OK). eexists. split_and!; [done..| |].
  - by rewrite <- (cli_obs_of_set_index m h x (Z.of_nat (Len h)) cx Hcx).
  - intros r. cbn [fst mclis set_mclis]. rewrite lookup_insert. by repeat case_decide; simplify_eq.
Qed.

Lemma cli_Pop_law m (h : clientResvHeap) l x :
  h = l ++ [x] -> is_Some (obs_cli (obs_of (m, h)) x) ->
  exists s', Pop (m, h) = OK x s' /\
    s'.2 = l /\ obs_of s' = obs_of (m, h) /\
    (forall r, HeapIndex <$> mclis s'.1 !! r =
       if decide (r = x) then Some (-1) else HeapIndex <$> mclis m !! r).
Proof.
  intros Hv [cx Hcx]%obs_ok_cli. unfold Pop.
  erewrite bind_OK by done. cbn [snd]. unfold Len. rewrite Hv, length_app. simpl.
  destruct (length l + 1 =? 0)%nat eqn:E0; [apply Nat.eqb_eq in E0; lia|].
  rewrite Nat.add_sub. erewrite bind_OK.
  2: { apply deref_OK. simpl. rewrite lookup_app_r, Nat.sub_diag by lia. done. }
  erewrite bind_OK by (by apply cli_set_index_OK). simpl. eexists. split_and!; [done| | |].
  - simpl. by rewrite take_app_length.
  - by rewrite <- (cli_obs_of_set_index m (l ++ [x]) x (-1) cx Hcx).
  - intros r. cbn [fst mclis set_mclis]. rewrite lookup_insert. by repeat case_decide; simplify_eq.
Qed.

#[export] Instance clientResvHeap_laws : HeapLaws error (Mem * clientResvHeap) CliRef clis_obs := {|
  hview s := s.2;
  hidx s r := HeapIndex <$> mclis s.1 !! r;
  hobs := obs_of;
  hok t r := is_Some (obs_cli t r);
  hord := obs_ord;
  hord_order := obs_ord_order;
  hLen_view s := eq_refl;
  hLess_spec := fun '(m, h) => cli_Less_law m h;
  hSwap_spec := fun '(m, h) => cli_Swap_law m h;
  hPush_spec := fun '(m, h) => cli_Push_law m h;
  hPop_spec := fun '(m, h) => cli_Pop_law m h
|}.
End CliHeapLaws.
Export (hints) CliHeapLaws.

(** * The queue of clients *)
Module CliQueue.

(** [*list.Element]: its identity and its value. *)
Record Element : Type := mkElement { el_id : positive; el_Value : CliRef }.

(** [m] and [l]; [next] names the next list element. *)
Record clientResvQueue : Type := mkQueue {
  qm : gmap ClientID Element;
  ql : list Element;
  qnext : positive
}.

Definition newClientResvQueue : clientResvQueue := mkQueue ∅ [] 1.

(** [entry.CliID] is passed beside the entry's reference. *)
Definition Contains (cid : ClientID) (q : clientResvQueue) : bool :=
  bool_decide (is_Some (qm q !! cid)).

Definition Enqueue (cid : ClientID) (entry : CliRef) (q : clientResvQueue) : clientResvQueue + error :=
  if Contains cid q then inr ErrEntryExists else
  let elem := mkElement (qnext q) entry in
  inl (mkQueue (<[cid := elem]> (qm q)) (ql q ++ [elem]) (qnext q + 1)%positive).

Definition Find (cid : ClientID) (q : clientResvQueue) : CliRef + error :=
  match qm q !! cid with
  | None => inr ErrEntryMissing
  | Some elem => inl (el_Value elem)
  end.

(** [c.l.Remove(elem)] unlinks the element by identity. *)
Definition list_Remove (elem : Element) (l : list Element) : list Element :=
  filter (fun e => el_id e <> el_id elem) l.

Definition Remove (cid : ClientID) (q : clientResvQueue) : clientResvQueue + error :=
  match qm q !! cid with
  | None => inr ErrEntryMissing
  | Some elem => inl (mkQueue (delete cid (qm q)) (list_Remove elem (ql q)) (qnext q))
  end.

Definition Len (q : clientResvQueue) : nat := size (qm q).

(** [Dequeue] returns the front of the list and leaves it in place. *)
Definition Dequeue (q : clientResvQueue) : CliRef + error :=
  if (length (ql q) =? 0)%nat then inr ErrContainerEmpty else
  match ql q with
  | [] => inr ErrContainerEmpty
  | firstElem :: _ => inl (el_Value firstElem)
  end.

(** The values [Entries] sends on its channel, in order. *)
Definition Entries (m : Mem) (q : clientResvQueue) : list CliRef :=
  List.filter (fun r => match mclis m !! r with Some c => 0 <=? HeapIndex c | None => false end)
              (el_Value <$> ql q).
End CliQueue.

(** * The map of clients *)
Module CliMap.
Abbreviation clientResvMap := (gmap ClientID CliRef).
Abbreviation PM := (M error (Mem * clientResvMap)).

Definition Contains (cid : ClientID) (c : clientResvMap) : bool := bool_decide (is_Some (c !! cid)).

Definition Put (entry : CliRef) : PM unit :=
  e <- deref (fun s => mclis s.1 !! entry) ;;
  c <- gets snd ;;
  if Contains (CliID e) c then raise ErrEntryExists else
  modify (fun s => (s.1, <[CliID e := entry]> s.2)).

Definition Get (cid : ClientID) : PM CliRef :=
  c <- gets snd ;;
  match c !! cid with None => raise ErrEntryMissing | Some entry => ret entry end.

Definition Remove (cid : ClientID) : PM unit :=
  c <- gets snd ;;
  if Contains cid c then modify (fun s => (s.1, delete cid s.2)) else raise ErrEntryMissing.

Definition AddOrUpdate (cid : ClientID) (watchedTubes : list TubeName) (reqID : string)
    (resvDeadlineAt : Z) : PM CliRef :=
  c <- gets snd ;;
  match c !! cid with
  | Some entry =>
    e <- deref (fun s => mclis s.1 !! entry) ;;
    modify (fun s => (set_mclis (<[entry := set_ResvDeadlineAt resvDeadlineAt (set_ReqID reqID e)]>
                                   (mclis s.1)) s.1, s.2)) ;;
    ret entry
  | None =>
    entry <- (fun s => let '(r, m) := alloc_cli (mkClientResvEntry cid watchedTubes resvDeadlineAt
                                                   true 0 reqID (-1)) s.1 in OK r (m, s.2)) ;;
    Put entry ;;
    ret entry
  end.
End CliMap.
