(* ===== verification/Index.v ===== *)
(** The indexes of package [state]: [src/state/index.go].

    - [JobIndex]: the jobs by identifier, each with its current heap entry;
    - [tubeIndex]: the ready, delayed and buried heaps and the queue of waiting
      clients of every tube;
    - [reservedJobsIndex]: the heap of reserved jobs of every client.
    Operations that reach a heap run on the pair of the store and the index. *)
From stdpp Require Import base gmap list strings.
From Stdlib Require Import ZArith Lia.
From S2P Require Import Prelude GoHeap Job JobHeap ClientResv.
Local Open Scope Z_scope.

(** * [JobIndex] *)
Record IndexEntry : Type := mkIndexEntry { ie_job : JobRef; ie_entry : option EntRef }.

Record JobIndex : Type := mkJobIndex { jm : gmap JobID IndexEntry; ji_maxJobID : JobID }.

Module JobIdx.
Definition NewJobIndex : JobIndex := mkJobIndex ∅ 0.

Definition NextJobID (idx : JobIndex) : JobID * JobIndex :=
  let n := wrap_u64 (ji_maxJobID idx + 1) in (n, mkJobIndex (jm idx) n).

Definition Len (idx : JobIndex) : nat := size (jm idx).

(** [jid] is [job.ID()]; the new entry has no heap entry yet. *)
Definition Add (jid : JobID) (job : JobRef) (idx : JobIndex) : JobIndex + error :=
  match jm idx !! jid with
  | Some _ => inr ErrEntryExists
  | None => inl (mkJobIndex (<[jid := mkIndexEntry job None]> (jm idx)) (ji_maxJobID idx))
  end.

Definition Get (jid : JobID) (idx : JobIndex) : IndexEntry + error :=
  match jm idx !! jid with
  | None => inr ErrEntryMissing
  | Some e => inl e
  end.

Definition Remove (jid : JobID) (idx : JobIndex) : (IndexEntry * JobIndex) + error :=
  match jm idx !! jid with
  | None => inr ErrEntryMissing
  | Some e => inl (e, mkJobIndex (delete jid (jm idx)) (ji_maxJobID idx))
  end.

(** [e.entry = je] on the entry that the map holds for [jid]. *)
Definition set_entry (jid : JobID) (je : EntRef) (idx : JobIndex) : JobIndex :=
  mkJobIndex (alter (fun e => mkIndexEntry (ie_job e) (Some je)) jid (jm idx)) (ji_maxJobID idx).

(** What [Jobs] sends on its channel: every job once, in the map's order. *)
Definition Jobs (idx : JobIndex) (sent : list JobRef) : Prop :=
  sent ≡ₚ (ie_job ∘ snd) <$> map_to_list (jm idx).
End JobIdx.

(** * [tubeIndex] *)
Record tubeState : Type := mkTubeState {
  delayedJobs : jobHeap;
  readyJobs : jobHeap;
  waiting : CliQueue.clientResvQueue;
  buriedJobs : jobHeap
}.

Definition set_delayedJobs (h : jobHeap) (t : tubeState) : tubeState :=
  mkTubeState h (readyJobs t) (waiting t) (buriedJobs t).
Definition set_readyJobs (h : jobHeap) (t : tubeState) : tubeState :=
  mkTubeState (delayedJobs t) h (waiting t) (buriedJobs t).
Definition set_waiting (q : CliQueue.clientResvQueue) (t : tubeState) : tubeState :=
  mkTubeState (delayedJobs t) (readyJobs t) q (buriedJobs t).
Definition set_buriedJobs (h : jobHeap) (t : tubeState) : tubeState :=
  mkTubeState (delayedJobs t) (readyJobs t) (waiting t) h.

Abbreviation tubeIndex := (gmap TubeName tubeState).

Module TubeIdx.
Abbreviation TM := (M error (Mem * tubeIndex)).

Definition new_tubeState : tubeState :=
  mkTubeState NewDelayedJobs NewPriorityJobs CliQueue.newClientResvQueue NewBuriedJobs.

Definition getByName (tube : TubeName) (create : bool) : TM tubeState :=
  ti <- gets snd ;;
  match ti !! tube with
  | Some res => ret res
  | None =>
    if negb create then raise ErrEntryMissing else
    modify (fun s => (s.1, <[tube := new_tubeState]> s.2)) ;;
    ret new_tubeState
  end.

Definition cleanup (tube : TubeName) : TM unit :=
  ti <- gets snd ;;
  match ti !! tube with
  | None => ret tt
  | Some t =>
    if ((Len (readyJobs t) =? 0) && (Len (delayedJobs t) =? 0) &&
        (CliQueue.Len (waiting t) =? 0) && (Len (buriedJobs t) =? 0))%nat
    then modify (fun s => (s.1, delete tube s.2))
    else ret tt
  end.

(** Run a heap operation on a heap of the [tubeState] that the map points to. *)
Definition get_heap (tube : TubeName) (g : tubeState -> jobHeap) (s : Mem * tubeIndex) : Mem * jobHeap :=
  (s.1, match s.2 !! tube with Some t => g t | None => NewPriorityJobs end).
Definition put_heap (tube : TubeName) (p : jobHeap -> tubeState -> tubeState)
    (mh : Mem * jobHeap) (s : Mem * tubeIndex) : Mem * tubeIndex :=
  (mh.1, alter (p mh.2) tube s.2).
Definition on_heap {A} (tube : TubeName) (g : tubeState -> jobHeap)
    (p : jobHeap -> tubeState -> tubeState) (op : M error (Mem * jobHeap) A) : TM A :=
  zoom (get_heap tube g) (put_heap tube p) op.

(** [job.TubeName()] of a job, and of the job embedded in an entry. *)
Definition job_tube (job : JobRef) : TM TubeName :=
  j <- deref (fun s => mjobs s.1 !! job) ;; ret (tubeName j).
Definition entry_tube (je : EntRef) : TM TubeName :=
  j <- deref (fun s => entry_job s.1 je) ;; ret (tubeName j).

Definition EnqueueReadyJob (job : JobRef) : TM EntRef :=
  t <- job_tube job ;; getByName t true ;;
  on_heap t readyJobs set_readyJobs (Enqueue job).

Definition EnqueueDelayedJob (job : JobRef) : TM EntRef :=
  t <- job_tube job ;; getByName t true ;;
  on_heap t delayedJobs set_delayedJobs (Enqueue job).

Definition EnqueueBuriedJob (job : JobRef) : TM EntRef :=
  t <- job_tube job ;; getByName t true ;;
  on_heap t buriedJobs set_buriedJobs (Enqueue job).

Definition RemoveDelayedJob (jobEntry : EntRef) : TM EntRef :=
  t <- entry_tube jobEntry ;; getByName t false ;;
  res <- try (on_heap t delayedJobs set_delayedJobs (RemoveAt jobEntry)) ;;
  cleanup t ;;
  match res with inl r => ret r | inr e => raise e end.

Definition RemoveReadyJob (jobEntry : EntRef) : TM EntRef :=
  t <- entry_tube jobEntry ;; getByName t false ;;
  on_heap t readyJobs set_readyJobs (RemoveAt jobEntry).

Definition RemoveBuriedJob (jobEntry : EntRef) : TM EntRef :=
  t <- entry_tube jobEntry ;; getByName t false ;;
  on_heap t buriedJobs set_buriedJobs (RemoveAt jobEntry).

(** The three [Next...Job] methods: [Peek] of a non-empty heap. *)
Definition next_of (g : tubeState -> jobHeap) (tube : TubeName) (ti : tubeIndex) : EntRef + error :=
  match ti !! tube with
  | None => inr ErrEntryMissing
  | Some t =>
    if (Len (g t) =? 0)%nat then inr ErrEntryMissing else
    match Peek (g t) with Some e => inl e | None => inr ErrEntryMissing end
  end.
Definition NextDelayedJob : TubeName -> tubeIndex -> EntRef + error := next_of delayedJobs.
Definition NextReadyJob : TubeName -> tubeIndex -> EntRef + error := next_of readyJobs.
Definition NextBuriedJob : TubeName -> tubeIndex -> EntRef + error := next_of buriedJobs.

Definition EnqueueToWaitQ (tube : TubeName) (cid : ClientID) (cli : CliRef) : TM unit :=
  ts <- getByName tube true ;;
  match CliQueue.Enqueue cid cli (waiting ts) with
  | inl q => modify (fun s => (s.1, <[tube := set_waiting q ts]> s.2))
  | inr e => raise e
  end.

Definition WaitQLen (tube : TubeName) (ti : tubeIndex) : Z + error :=
  match ti !! tube with
  | None => inr ErrEntryMissing
  | Some t => inl (Z.of_nat (CliQueue.Len (waiting t)))
  end.

Definition DequeueFromWaitQ (tube : TubeName) (ti : tubeIndex) : CliRef + error :=
  match ti !! tube with
  | None => inr ErrEntryMissing
  | Some t => CliQueue.Dequeue (waiting t)
  end.

Definition RemoveFromWaitQ (tube : TubeName) (cid : ClientID) (ti : tubeIndex) : tubeIndex + error :=
  match ti !! tube with
  | None => inr ErrEntryMissing
  | Some t =>
    match CliQueue.Remove cid (waiting t) with
    | inl q => inl (<[tube := set_waiting q t]> ti)
    | inr e => inr e
    end
  end.

(** [GetTubeNames] ranges over the map: any order. *)
Definition GetTubeNames (ti : tubeIndex) (names : list TubeName) : Prop :=
  names ≡ₚ (map_to_list ti).*1.

Definition GetStatistics (tube : TubeName) (ti : tubeIndex) : gmap string yvalue + error :=
  match ti !! tube with
  | None => inr ErrEntryMissing
  | Some t => inl (list_to_map [
      ("name", YStr tube); ("current-jobs-urgent", YInt 0);
      ("current-jobs-ready", YInt (Z.of_nat (Len (readyJobs t))));
      ("current-jobs-reserved", YInt 0);
      ("current-jobs-delayed", YInt (Z.of_nat (Len (delayedJobs t))));
      ("current-jobs-buried", YInt (Z.of_nat (Len (buriedJobs t))));
      ("total-jobs", YInt 0); ("current-using", YInt 0);
      ("current-waiting", YInt (Z.of_nat (CliQueue.Len (waiting t))));
      ("current-watching", YInt 0); ("pause", YInt 0); ("cmd-delete", YInt 0);
      ("cmd-pause-tube", YInt 0); ("pause-time-left", YInt 0) ]%string)
  end.

(** The sums do not depend on the order of the loop. *)
Definition total_of (g : tubeState -> jobHeap) (ti : tubeIndex) : Z :=
  map_fold (fun _ t acc => wrap_u64 (acc + Z.of_nat (Len (g t)))) 0 ti.
Definition TotalJobCounts (ti : tubeIndex) : gmap string Z :=
  list_to_map [
    ("current-jobs-urgent", 0); ("current-jobs-ready", total_of readyJobs ti);
    ("current-jobs-reserved", 0); ("current-jobs-delayed", total_of delayedJobs ti);
    ("current-jobs-buried", total_of buriedJobs ti) ]%string.
End TubeIdx.

(** * [reservedJobsIndex] *)
Abbreviation reservedJobsIndex := (gmap ClientID jobHeap).

Module ResvIdx.
Abbreviation RM := (M error (Mem * reservedJobsIndex)).

Definition get_heap (cid : ClientID) (s : Mem * reservedJobsIndex) : Mem * jobHeap :=
  (s.1, match s.2 !! cid with Some h => h | None => NewReservedJobs end).
Definition put_heap (cid : ClientID) (mh : Mem * jobHeap) (s : Mem * reservedJobsIndex)
    : Mem * reservedJobsIndex := (mh.1, <[cid := mh.2]> s.2).
Definition on_heap {A} (cid : ClientID) (op : M error (Mem * jobHeap) A) : RM A :=
  zoom (get_heap cid) (put_heap cid) op.

Definition Enqueue (cid : ClientID) (job : JobRef) : RM EntRef :=
  r <- gets snd ;;
  (match r !! cid with
   | None => modify (fun s => (s.1, <[cid := NewReservedJobs]> s.2))
   | Some _ => ret tt
   end) ;;
  on_heap cid (JobHeap.Enqueue job).

(** The deferred function of [Remove]: it runs on the error return too. *)
Definition drop_if_empty (cid : ClientID) : RM unit :=
  r <- gets snd ;;
  match r !! cid with
  | None => panic
  | Some h => if (Len h =? 0)%nat then modify (fun s => (s.1, delete cid s.2)) else ret tt
  end.

Definition Remove (jobEntry : EntRef) : RM JobRef :=
  j <- deref (fun s => entry_job s.1 jobEntry) ;;
  let cid := reservedBy j in
  r <- gets snd ;;
  match r !! cid with
  | None => raise ErrEntryMissing
  | Some _ =>
    en <- deref (fun s => ments s.1 !! jobEntry) ;;
    res <- try (if je_index en =? 0 then on_heap cid Dequeue
                else e <- on_heap cid (RemoveAt jobEntry) ;;
                     en' <- deref (fun s => ments s.1 !! e) ;; ret (je_Job en')) ;;
    drop_if_empty cid ;;
    match res with inl a => ret a | inr e => raise e end
  end.

Definition NextReservedJob (cid : ClientID) (r : reservedJobsIndex) : EntRef + error :=
  match r !! cid with
  | None => inr ErrEntryMissing
  | Some resvJobs =>
    if (Len resvJobs =? 0)%nat then inr ErrEntryMissing else
    match Peek resvJobs with Some e => inl e | None => inr ErrEntryMissing end
  end.

(** Jobs of a tube in one heap; the sum over the map is order independent. *)
Definition heap_tube_count (m : Mem) (tube : TubeName) (h : jobHeap) : Z :=
  match JobCountByTube tube (m, h) with OK n _ => n | _ => 0 end.
Definition JobCount (tube : TubeName) (s : Mem * reservedJobsIndex) : Z :=
  map_fold (fun _ h acc => wrap_u64 (acc + heap_tube_count s.1 tube h)) 0 s.2.
Definition TotalJobs (r : reservedJobsIndex) : Z :=
  map_fold (fun _ h acc => wrap_u64 (acc + Z.of_nat (Len h))) 0 r.
End ResvIdx.
