(* ===== verification/JSM.v ===== *)
(** The job state machine: [src/state/jsm.go] (all but the snapshot part).

    [localJSM] is the Go struct with the object store its pointers point into.
    Every method is a definition under its Go name, in the monad of outcomes
    over [localJSM].  Where the code ranges over the map of tubes, the order in
    which the runtime yields the keys is an argument of the definition. *)
From stdpp Require Import base gmap list strings.
From Stdlib Require Import ZArith Lia.
From S2P Require Import Prelude GoHeap Job JobHeap ClientResv Index.
Local Open Scope Z_scope.

(** * State *)

(** The fields of [procStats]. *)
Inductive statField : Type :=
| nResv | nResvOnDemand | nResvOnTick
| nCmdBury | nCmdDelete | nCmdIgnore | nCmdKick | nCmdKickN | nCmdListTubes
| nCmdListTubesUsed | nCmdListTubesWatched | nCmdPauseTube | nCmdPut | nCmdPeek
| nCmdPeekReady | nCmdPeekDelayed | nCmdPeekBuried | nCmdRelease | nCmdReserved
| nCmdReservedWithTimeout | nCmdStats | nCmdStatsJob | nCmdStatsTube | nCmdTouch
| nCmdWatch | nJobTimeouts | nTotalJobs.

#[export] Instance statField_eq_dec : EqDecision statField.
Proof. solve_decision. Defined.

(** The first three counters are [int64], the others [uint64]. *)
Definition stat_wrap (f : statField) : Z -> Z :=
  match f with nResv | nResvOnDemand | nResvOnTick => wrap_i64 | _ => wrap_u64 end.

Definition procStats : Type := statField -> Z.
Definition incr_stat (f : statField) (st : procStats) : procStats :=
  fun g => if decide (g = f) then stat_wrap f (st f + 1) else st g.

Record localJSM : Type := mkJSM {
  mem : Mem;
  maxJobID : JobID;
  jobs : JobIndex;
  tubes : tubeIndex;
  clientHeap : CliHeap.clientResvHeap;
  clients : CliQueue.clientResvQueue;
  reservedJobs : reservedJobsIndex;
  nextDelayTickAt : Z;
  stat : procStats
}.

Definition set_mem (v : Mem) (s : localJSM) : localJSM :=
  mkJSM v (maxJobID s) (jobs s) (tubes s) (clientHeap s) (clients s) (reservedJobs s)
        (nextDelayTickAt s) (stat s).
Definition set_maxJobID (v : JobID) (s : localJSM) : localJSM :=
  mkJSM (mem s) v (jobs s) (tubes s) (clientHeap s) (clients s) (reservedJobs s)
        (nextDelayTickAt s) (stat s).
Definition set_jobs (v : JobIndex) (s : localJSM) : localJSM :=
  mkJSM (mem s) (maxJobID s) v (tubes s) (clientHeap s) (clients s) (reservedJobs s)
        (nextDelayTickAt s) (stat s).
Definition set_tubes (v : tubeIndex) (s : localJSM) : localJSM :=
  mkJSM (mem s) (maxJobID s) (jobs s) v (clientHeap s) (clients s) (reservedJobs s)
        (nextDelayTickAt s) (stat s).
Definition set_clientHeap (v : CliHeap.clientResvHeap) (s : localJSM) : localJSM :=
  mkJSM (mem s) (maxJobID s) (jobs s) (tubes s) v (clients s) (reservedJobs s)
        (nextDelayTickAt s) (stat s).
Definition set_clients (v : CliQueue.clientResvQueue) (s : localJSM) : localJSM :=
  mkJSM (mem s) (maxJobID s) (jobs s) (tubes s) (clientHeap s) v (reservedJobs s)
        (nextDelayTickAt s) (stat s).
Definition set_reservedJobs (v : reservedJobsIndex) (s : localJSM) : localJSM :=
  mkJSM (mem s) (maxJobID s) (jobs s) (tubes s) (clientHeap s) (clients s) v
        (nextDelayTickAt s) (stat s).
Definition set_nextDelayTickAt (v : Z) (s : localJSM) : localJSM :=
  mkJSM (mem s) (maxJobID s) (jobs s) (tubes s) (clientHeap s) (clients s) (reservedJobs s)
        v (stat s).
Definition set_stat (v : procStats) (s : localJSM) : localJSM :=
  mkJSM (mem s) (maxJobID s) (jobs s) (tubes s) (clientHeap s) (clients s) (reservedJobs s)
        (nextDelayTickAt s) v.

Definition maxTime : Z := MaxInt64.

Definition NewJSM : localJSM :=
  mkJSM empty_Mem 0 JobIdx.NewJobIndex ∅ CliHeap.newClientResvHeap
        CliQueue.newClientResvQueue ∅ maxTime (fun _ => 0).

Abbreviation JM := (M error localJSM).

(** * Access to the parts *)
Section parts.
Definition incr (f : statField) : JM unit := modify (fun s => set_stat (incr_stat f (stat s)) s).

Definition on_tubes {A} (op : M error (Mem * tubeIndex) A) : JM A :=
  zoom (fun s => (mem s, tubes s)) (fun t s => set_tubes t.2 (set_mem t.1 s)) op.
Definition on_resv {A} (op : M error (Mem * reservedJobsIndex) A) : JM A :=
  zoom (fun s => (mem s, reservedJobs s)) (fun t s => set_reservedJobs t.2 (set_mem t.1 s)) op.
Definition on_cheap {A} (op : M error (Mem * CliHeap.clientResvHeap) A) : JM A :=
  zoom (fun s => (mem s, clientHeap s)) (fun t s => set_clientHeap t.2 (set_mem t.1 s)) op.

(** A call that returns a value or an error and changes nothing. *)
Definition lift {A} (f : localJSM -> A + error) : JM A :=
  fun s => match f s with inl a => OK a s | inr e => ERR e s end.

Definition load_job (r : JobRef) : JM Job := deref (fun s => mjobs (mem s) !! r).
(** A method call on the job object: [f] is what the method assigns. *)
Definition update_job (r : JobRef) (f : Job -> Job) : JM unit :=
  j <- load_job r ;;
  modify (fun s => set_mem (set_mjobs (<[r := f j]> (mjobs (mem s))) (mem s)) s).
(** The job embedded in a heap entry. *)
Definition entry_load (e : EntRef) : JM Job := deref (fun s => entry_job (mem s) e).
(** [e.entry], dereferenced by the callee: nil panics. *)
Definition entry_of (e : IndexEntry) : JM EntRef := deref (fun _ => ie_entry e).

Definition load_cli (r : CliRef) : JM ClientResvEntry := deref (fun s => mclis (mem s) !! r).
Definition update_cli (r : CliRef) (f : ClientResvEntry -> ClientResvEntry) : JM unit :=
  c <- load_cli r ;;
  modify (fun s => set_mem (set_mclis (<[r := f c]> (mclis (mem s))) (mem s)) s).

Definition jobs_Get (jobID : JobID) : JM IndexEntry := lift (fun s => JobIdx.Get jobID (jobs s)).
Definition jobs_Add (jid : JobID) (r : JobRef) : JM unit :=
  idx <- lift (fun s => JobIdx.Add jid r (jobs s)) ;; modify (set_jobs idx).
Definition jobs_set_entry (jid : JobID) (je : EntRef) : JM unit :=
  modify (fun s => set_jobs (JobIdx.set_entry jid je (jobs s)) s).
Definition clients_Find (cid : ClientID) : JM CliRef := lift (fun s => CliQueue.Find cid (clients s)).
End parts.

(** * Transitions *)
Section transitions.

Definition NextJobID : JM JobID :=
  modify (fun s => set_maxJobID (wrap_u64 (maxJobID s + 1)) s) ;; gets maxJobID.

Definition fromInitialToReady (job : JobRef) : JM unit :=
  j <- load_job job ;;
  if decide (state j <> Initial) then raise ErrInvalidJobTransition else
  jobs_Add (id j) job ;;
  update_job job (UpdateState Ready) ;;
  je <- on_tubes (TubeIdx.EnqueueReadyJob job) ;;
  jobs_set_entry (id j) je.

Definition fromInitialToDelayed (job : JobRef) : JM unit :=
  j <- load_job job ;;
  if decide (state j <> Initial) then raise ErrInvalidJobTransition else
  jobs_Add (id j) job ;;
  update_job job (UpdateState Delayed) ;;
  je <- on_tubes (TubeIdx.EnqueueDelayedJob job) ;;
  jobs_set_entry (id j) je.

Definition fromDelayedToReady (jobID : JobID) : JM unit :=
  e <- jobs_Get jobID ;;
  j <- load_job (ie_job e) ;;
  if decide (state j <> Delayed) then raise ErrInvalidJobTransition else
  er <- entry_of e ;;
  en <- deref (fun s => ments (mem s) !! er) ;;
  if negb (je_index en =? 0) then raise ErrInvalidJobTransition else
  on_tubes (TubeIdx.RemoveDelayedJob er) ;;
  update_job (ie_job e) (UpdateState Ready) ;;
  je <- on_tubes (TubeIdx.EnqueueReadyJob (ie_job e)) ;;
  jobs_set_entry jobID je.

(** [len(clientID) > 0 && e.job.ReservedBy() != clientID] *)
Definition unauthorized (clientID : ClientID) (j : Job) : bool :=
  negb (String.eqb clientID "") && negb (String.eqb (reservedBy j) clientID).

Definition fromReservedToReady (jobID : JobID) (clientID : ClientID) (pri : Z) (updatePri : bool)
    : JM unit :=
  e <- jobs_Get jobID ;;
  j <- load_job (ie_job e) ;;
  if decide (state j <> Reserved) then raise ErrInvalidJobTransition else
  if unauthorized clientID j then raise ErrUnauthorizedOperation else
  er <- entry_of e ;;
  on_resv (ResvIdx.Remove er) ;;
  (if updatePri then
     update_job (ie_job e) IncReleaseCount ;; update_job (ie_job e) (UpdatePriority pri)
   else update_job (ie_job e) IncTimeoutCount) ;;
  update_job (ie_job e) (UpdateState Ready) ;;
  update_job (ie_job e) (UpdateReservedBy "") ;;
  je <- on_tubes (TubeIdx.EnqueueReadyJob (ie_job e)) ;;
  jobs_set_entry jobID je.

Definition fromReservedToDelayed (nowSeconds : Z) (jobID : JobID) (clientID : ClientID)
    (pri delay : Z) : JM unit :=
  e <- jobs_Get jobID ;;
  j <- load_job (ie_job e) ;;
  if decide (state j <> Reserved) then raise ErrInvalidJobTransition else
  if unauthorized clientID j then raise ErrUnauthorizedOperation else
  er <- entry_of e ;;
  on_resv (ResvIdx.Remove er) ;;
  update_job (ie_job e) (UpdatePriority pri) ;;
  update_job (ie_job e) (UpdateState Delayed) ;;
  update_job (ie_job e) (UpdateDelay delay) ;;
  update_job (ie_job e) (UpdateReadyAt nowSeconds) ;;
  update_job (ie_job e) (UpdateReservedBy "") ;;
  update_job (ie_job e) IncReleaseCount ;;
  je <- on_tubes (TubeIdx.EnqueueDelayedJob (ie_job e)) ;;
  jobs_set_entry jobID je ;;
  j' <- load_job (ie_job e) ;;
  modify (fun s => if readyAt j' <? nextDelayTickAt s then set_nextDelayTickAt (readyAt j') s else s).

Definition fromReadyToReserved (nowSeconds : Z) (jobID : JobID) (clientID : ClientID) : JM unit :=
  e <- jobs_Get jobID ;;
  j <- load_job (ie_job e) ;;
  if decide (state j <> Ready) then raise ErrInvalidJobTransition else
  er <- entry_of e ;;
  on_tubes (TubeIdx.RemoveReadyJob er) ;;
  update_job (ie_job e) (UpdateReservation nowSeconds) ;;
  update_job (ie_job e) (UpdateState Reserved) ;;
  update_job (ie_job e) (UpdateReservedBy clientID) ;;
  update_job (ie_job e) IncReserveCount ;;
  je <- on_resv (ResvIdx.Enqueue clientID (ie_job e)) ;;
  jobs_set_entry jobID je.

Definition fromReservedToBuried (nowSeconds : Z) (jobID : JobID) (priority : Z) (clientID : ClientID)
    : JM unit :=
  e <- jobs_Get jobID ;;
  j <- load_job (ie_job e) ;;
  if decide (state j <> Reserved) then raise ErrInvalidJobTransition else
  if unauthorized clientID j then raise ErrUnauthorizedOperation else
  er <- entry_of e ;;
  on_resv (ResvIdx.Remove er) ;;
  update_job (ie_job e) (UpdateReservedBy "") ;;
  update_job (ie_job e) (UpdateBuriedAt nowSeconds) ;;
  update_job (ie_job e) (UpdateState Buried) ;;
  update_job (ie_job e) (UpdatePriority priority) ;;
  update_job (ie_job e) IncBuryCount ;;
  je <- on_tubes (TubeIdx.EnqueueBuriedJob (ie_job e)) ;;
  jobs_set_entry jobID je.

Definition fromBuriedToReady (jobID : JobID) : JM unit :=
  e <- jobs_Get jobID ;;
  j <- load_job (ie_job e) ;;
  if decide (state j <> Buried) then raise ErrInvalidJobTransition else
  er <- entry_of e ;;
  on_tubes (TubeIdx.RemoveBuriedJob er) ;;
  update_job (ie_job e) ResetBuriedAt ;;
  update_job (ie_job e) (UpdateState Ready) ;;
  update_job (ie_job e) IncKickCount ;;
  je <- on_tubes (TubeIdx.EnqueueReadyJob (ie_job e)) ;;
  jobs_set_entry jobID je.
End transitions.

(** * Commands on jobs *)
Section commands.

Definition NewJob (nowSeconds priority delay ttr bodySize : Z) (body : slice) (tube : TubeName)
    : JM JobRef :=
  jid <- NextJobID ;;
  let newJob := mkJob LocalJob jid priority delay ttr bodySize body tube nowSeconds
                  (wrap_i64 (nowSeconds + delay)) Initial 0 "" 0 0 0 0 0 0 in
  job <- (fun s => let '(r, m) := alloc_job newJob (mem s) in OK r (set_mem m s)) ;;
  if 0 <? delay then
    modify (fun s => if readyAt newJob <? nextDelayTickAt s
                     then set_nextDelayTickAt (readyAt newJob) s else s) ;;
    fromInitialToDelayed job ;; ret job
  else fromInitialToReady job ;; ret job.

Definition Put (nowSeconds priority delay ttr bodySize : Z) (body : slice) (tube : TubeName)
    : JM JobID :=
  incr nCmdPut ;;
  newJob <- NewJob nowSeconds priority delay ttr bodySize body tube ;;
  incr nTotalJobs ;;
  j <- load_job newJob ;; ret (id j).

Definition GetJob (jobID : JobID) : JM JobRef :=
  incr nCmdPeek ;; e <- jobs_Get jobID ;; ret (ie_job e).

(** The names come in the order of the map iteration. *)
Definition GetTubes (order : list TubeName) : JM (list TubeName) :=
  incr nCmdListTubes ;; ret order.

Definition Delete (jobID : JobID) (clientID : ClientID) : JM unit :=
  incr nCmdDelete ;;
  e0 <- jobs_Get jobID ;;
  j0 <- load_job (ie_job e0) ;;
  if bool_decide (state j0 = Reserved) && negb (String.eqb (reservedBy j0) clientID)
  then raise ErrUnauthorizedOperation else
  r <- lift (fun s => JobIdx.Remove jobID (jobs s)) ;;
  modify (set_jobs r.2) ;;
  let e := r.1 in
  j <- load_job (ie_job e) ;;
  (match state j with
   | Ready => er <- entry_of e ;; on_tubes (TubeIdx.RemoveReadyJob er) ;; ret tt
   | Delayed => er <- entry_of e ;; on_tubes (TubeIdx.RemoveDelayedJob er) ;; ret tt
   | Reserved => er <- entry_of e ;; on_resv (ResvIdx.Remove er) ;; ret tt
   | _ => ret tt
   end) ;;
  update_job (ie_job e) (UpdateState Deleted) ;;
  update_job (ie_job e) (UpdateReservedBy "").

Definition PeekDelayedJob (tube : TubeName) : JM EntRef :=
  incr nCmdPeekDelayed ;; lift (fun s => TubeIdx.NextDelayedJob tube (tubes s)).
Definition PeekReadyJob (tube : TubeName) : JM EntRef :=
  incr nCmdPeekReady ;; lift (fun s => TubeIdx.NextReadyJob tube (tubes s)).
Definition PeekBuriedJob (tube : TubeName) : JM EntRef :=
  incr nCmdPeekBuried ;; lift (fun s => TubeIdx.NextBuriedJob tube (tubes s)).
Definition NextReservedJob (clientID : ClientID) : JM EntRef :=
  lift (fun s => ResvIdx.NextReservedJob clientID (reservedJobs s)).

Definition ReadyJob (jobID : JobID) : JM unit := fromDelayedToReady jobID.
Definition Reserve (nowSeconds : Z) (jobID : JobID) (clientID : ClientID) : JM unit :=
  fromReadyToReserved nowSeconds jobID clientID.
Definition Release (jobID : JobID) (clientID : ClientID) : JM unit :=
  incr nJobTimeouts ;; fromReservedToReady jobID clientID 0 false.
Definition ReleaseWith (nowSeconds : Z) (jobID : JobID) (clientID : ClientID) (pri delay : Z) : JM unit :=
  incr nCmdRelease ;;
  if delay =? 0 then fromReservedToReady jobID clientID pri true
  else fromReservedToDelayed nowSeconds jobID clientID pri delay.
Definition Bury (nowSeconds : Z) (jobID : JobID) (priority : Z) (clientID : ClientID) : JM unit :=
  incr nCmdBury ;; fromReservedToBuried nowSeconds jobID priority clientID.
Definition Kick (jobID : JobID) : JM unit := incr nCmdKick ;; fromBuriedToReady jobID.

(** The loop of [KickN]: [k] iterations left, [count] jobs kicked so far. *)
Fixpoint KickN_loop (tube : TubeName) (k : nat) (count : Z) : JM Z :=
  match k with
  | O => ret count
  | S k' =>
    r <- try (PeekBuriedJob tube) ;;
    match r with
    | inr ErrEntryMissing => ret count
    | inr _ => ret 0
    | inl e =>
      j <- entry_load e ;;
      Kick (id j) ;;
      KickN_loop tube k' (count + 1)
    end
  end.
Definition KickN (tube : TubeName) (n : Z) : JM Z :=
  incr nCmdKickN ;; KickN_loop tube (Z.to_nat n) 0.
End commands.

(** * Clients *)
Section clients.

Definition minTime (a b : Z) : Z := if a <? b then a else b.

(** [jsm.tubes[t].waiting.Remove(cli)]: a missing tube is a nil pointer, and an
    error is turned into a panic. *)
Definition waiting_Remove (t : TubeName) (cid : ClientID) : JM unit :=
  ts <- deref (fun s => tubes s !! t) ;;
  match CliQueue.Remove cid (waiting ts) with
  | inl q => modify (fun s => set_tubes (<[t := set_waiting q ts]> (tubes s)) s)
  | inr _ => panic
  end.

Fixpoint waiting_Remove_all (ts : list TubeName) (cid : ClientID) : JM unit :=
  match ts with
  | [] => ret tt
  | t :: ts' => waiting_Remove t cid ;; waiting_Remove_all ts' cid
  end.

Definition unReserve (cli : CliRef) : JM unit :=
  update_cli cli (set_IsWaitingForResv false) ;;
  update_cli cli (set_ResvDeadlineAt maxTime) ;;
  c <- load_cli cli ;;
  waiting_Remove_all (WatchedTubes c) (CliID c).

(** The time [updateClientTickAt] computes before it touches the heap. *)
Definition next_tick (cli : CliRef) : JM Z :=
  c <- load_cli cli ;;
  r <- try (NextReservedJob (CliID c)) ;;
  n <- (match r with
        | inl e =>
          job <- entry_load e ;;
          let resvDeadlineAt := if IsWaitingForResv c then wrap_i64 (expiresAt job - 1)
                                else expiresAt job in
          ret (minTime maxTime resvDeadlineAt)
        | inr ErrEntryMissing => ret maxTime
        | inr _ => panic
        end) ;;
  ret (if IsWaitingForResv c then minTime n (ResvDeadlineAt c) else n).

Definition updateClientTickAt (cli : CliRef) : JM unit :=
  nextTickAt <- next_tick cli ;;
  c <- load_cli cli ;;
  if nextTickAt <? maxTime then
    if HeapIndex c <? 0 then
      update_cli cli (set_TickAt nextTickAt) ;;
      on_cheap (CliHeap.Enqueue cli)
    else on_cheap (CliHeap.UpdateTickAt cli nextTickAt)
  else
    (if 0 <=? HeapIndex c then
       r <- try (on_cheap (CliHeap.Remove cli)) ;;
       match r with
       | inr _ => panic
       | inl _ =>
         cs <- gets JSM.clients ;;
         match CliQueue.Remove (CliID c) cs with
         | inl q => modify (set_clients q)
         | inr ErrEntryMissing => ret tt
         | inr _ => panic
         end
       end
     else ret tt) ;;
    update_cli cli (set_TickAt nextTickAt).

Definition Touch (nowSeconds : Z) (jobID : JobID) (clientID : ClientID) : JM unit :=
  incr nCmdTouch ;;
  e <- jobs_Get jobID ;;
  j <- load_job (ie_job e) ;;
  if decide (state j <> Reserved) then raise ErrInvalidOperation else
  if unauthorized clientID j then raise ErrUnauthorizedOperation else
  er <- entry_of e ;;
  on_resv (ResvIdx.Remove er) ;;
  update_job (ie_job e) (UpdateReservation nowSeconds) ;;
  je <- on_resv (ResvIdx.Enqueue clientID (ie_job e)) ;;
  jobs_set_entry jobID je ;;
  cli <- clients_Find clientID ;;
  updateClientTickAt cli.

(** Match the first ready job of tube [t] with client [cli], or with the client
    at the front of the tube's queue. *)
Definition tryReserveJob (nowSecs : Z) (t : TubeName) (cli : option CliRef) : JM Reservation :=
  n <- lift (fun s => TubeIdx.WaitQLen t (tubes s)) ;;
  if n =? 0 then raise ErrNoReservationFound else
  r <- try (PeekReadyJob t) ;;
  match r with
  | inr ErrEntryMissing => raise ErrNoReservationFound
  | inr _ => panic
  | inl je =>
    cr <- (match cli with
           | Some c => ret c
           | None => r <- try (lift (fun s => TubeIdx.DequeueFromWaitQ t (tubes s))) ;;
                     match r with inl c => ret c | inr _ => panic end
           end) ;;
    c <- load_cli cr ;;
    if negb (IsWaitingForResv c) then panic else
    job <- entry_load je ;;
    res <- try (Reserve nowSecs (id job) (CliID c)) ;;
    match res with
    | inr _ => panic
    | inl _ =>
      unReserve cr ;;
      let resv := mkReservation (ReqID c) (CliID c) (id job) Matched (bodySize job) (body job) None in
      updateClientTickAt cr ;;
      ret resv
    end
  end.

Definition maxTimeoutSecs : Z := 24 * 3600.

(** Join the queue of every watched tube; an error is a panic. *)
Fixpoint enqueue_all (ts : list TubeName) (cid : ClientID) (cli : CliRef) : JM unit :=
  match ts with
  | [] => ret tt
  | t :: ts' =>
    r <- try (on_tubes (TubeIdx.EnqueueToWaitQ t cid cli)) ;;
    match r with inl _ => enqueue_all ts' cid cli | inr _ => panic end
  end.

(** The first watched tube that has a ready job. *)
Fixpoint reserve_first (nowSecs : Z) (ts : list TubeName) (cli : CliRef) : JM (option Reservation) :=
  match ts with
  | [] => ret None
  | t :: ts' =>
    r <- try (tryReserveJob nowSecs t (Some cli)) ;;
    match r with
    | inr ErrNoReservationFound => reserve_first nowSecs ts' cli
    | inr _ => panic
    | inl resv => ret (Some resv)
    end
  end.

(** Look the client up, or register a new one, as waiting. *)
Definition start_waiting (clientId : ClientID) (reqID : string) (watchedTubes : list TubeName)
    (resvDeadlineAt : Z) : JM CliRef :=
  r <- try (clients_Find clientId) ;;
  match r with
  | inr ErrEntryMissing =>
    cli <- (fun s => let '(r, m) := alloc_cli (mkClientResvEntry clientId watchedTubes resvDeadlineAt
                                                 true 0 reqID (-1)) (mem s)
                     in OK r (set_mem m s)) ;;
    q <- lift (fun s => CliQueue.Enqueue clientId cli (JSM.clients s)) ;;
    modify (set_clients q) ;;
    ret cli
  | inr e => raise e
  | inl cli =>
    c <- load_cli cli ;;
    if IsWaitingForResv c then raise ErrClientIsWaitingForReservation else
    update_cli cli (set_ReqID reqID) ;;
    update_cli cli (set_WatchedTubes watchedTubes) ;;
    update_cli cli (set_ResvDeadlineAt resvDeadlineAt) ;;
    update_cli cli (set_IsWaitingForResv true) ;;
    ret cli
  end.

Definition AppendReservation (clientId : ClientID) (reqID : string) (watchedTubes : list TubeName)
    (nowSecs resvDeadlineAt : Z) : JM Reservation :=
  let maxTimeLimit := wrap_i64 (nowSecs + maxTimeoutSecs) in
  if (resvDeadlineAt <? nowSecs) || (maxTimeLimit <? resvDeadlineAt)
  then raise ErrInvalidResvTimeout else
  incr (if resvDeadlineAt =? maxTimeLimit then nCmdReserved else nCmdReservedWithTimeout) ;;
  cli <- start_waiting clientId reqID watchedTubes resvDeadlineAt ;;
  c <- load_cli cli ;;
  enqueue_all (WatchedTubes c) (CliID c) cli ;;
  r <- reserve_first nowSecs (WatchedTubes c) cli ;;
  match r with
  | Some resv => incr nResv ;; incr nResvOnDemand ;; ret resv
  | None =>
    updateClientTickAt cli ;;
    ret (mkReservation reqID (CliID c) 0 Queued 0 None None)
  end.

Fixpoint CheckClientState_loop (ids w nw m : list ClientID)
    : JM (list ClientID * list ClientID * list ClientID) :=
  match ids with
  | [] => ret (w, nw, m)
  | i :: ids' =>
    r <- try (clients_Find i) ;;
    match r with
    | inr ErrEntryMissing => CheckClientState_loop ids' w nw (m ++ [i])
    | inr e => raise e
    | inl cli =>
      c <- load_cli cli ;;
      if IsWaitingForResv c then CheckClientState_loop ids' (w ++ [i]) nw m
      else CheckClientState_loop ids' w (nw ++ [i]) m
    end
  end.
Definition CheckClientState (clientIDs : list ClientID)
    : JM (list ClientID * list ClientID * list ClientID) :=
  CheckClientState_loop clientIDs [] [] [].
End clients.

(** * The clock *)
Section ticks.

(** ** Delayed jobs *)
Definition delayed_count (t : TubeName) (s : localJSM) : nat :=
  match tubes s !! t with Some ts => Len (delayedJobs ts) | None => 0%nat end.

(** The inner loop on tube [t]: move jobs while the earliest is due. *)
Fixpoint tickDelay_tube (fuel : nat) (now : Z) (t : TubeName) (next : Z) : JM Z :=
  match fuel with
  | O => diverge
  | S f =>
    r <- try (PeekDelayedJob t) ;;
    match r with
    | inr ErrEntryMissing => ret next
    | inr _ => panic
    | inl e =>
      job <- entry_load e ;;
      if now <=? readyAt job then ret (if readyAt job <? next then readyAt job else next) else
      r' <- try (ReadyJob (id job)) ;;
      match r' with
      | inr _ => panic
      | inl _ => tickDelay_tube f now t next
      end
    end
  end.

Fixpoint tickDelay_tubes (order : list TubeName) (now next : Z) : JM Z :=
  match order with
  | [] => ret next
  | t :: order' =>
    fuel <- gets (fun s => S (delayed_count t s)) ;;
    next' <- tickDelay_tube fuel now t next ;;
    tickDelay_tubes order' now next'
  end.

Definition tickDelayJobs (order : list TubeName) (now : Z) : JM unit :=
  next <- tickDelay_tubes order now maxTime ;;
  modify (set_nextDelayTickAt next).

(** ** Ready jobs *)
Definition ready_count (t : TubeName) (s : localJSM) : nat :=
  match tubes s !! t with Some ts => Len (readyJobs ts) | None => 0%nat end.

Fixpoint tickReady_tube (fuel : nat) (nowSecs : Z) (t : TubeName) (result : list Reservation)
    : JM (list Reservation) :=
  match fuel with
  | O => diverge
  | S f =>
    r <- try (tryReserveJob nowSecs t None) ;;
    match r with
    | inr ErrNoReservationFound => ret result
    | inr _ => panic
    | inl resv => incr nResv ;; incr nResvOnTick ;; tickReady_tube f nowSecs t (result ++ [resv])
    end
  end.

Fixpoint tickReadyJobs_loop (order : list TubeName) (nowSecs : Z) (result : list Reservation)
    : JM (list Reservation) :=
  match order with
  | [] => ret result
  | t :: order' =>
    fuel <- gets (fun s => S (ready_count t s)) ;;
    result' <- tickReady_tube fuel nowSecs t result ;;
    tickReadyJobs_loop order' nowSecs result'
  end.
Definition tickReadyJobs (order : list TubeName) (nowSecs : Z) : JM (list Reservation) :=
  tickReadyJobs_loop order nowSecs [].

(** ** Clients *)
Definition resv_count (cid : ClientID) (s : localJSM) : nat :=
  match reservedJobs s !! cid with Some h => Len h | None => 0%nat end.

(** The inner loop of [tickClients] on one client. *)
Fixpoint tickClient_jobs (fuel : nat) (nowSecs : Z) (cli : CliRef) (result : list Reservation)
    : JM (list Reservation) :=
  match fuel with
  | O => diverge
  | S f =>
    c <- load_cli cli ;;
    r <- try (NextReservedJob (CliID c)) ;;
    match r with
    | inr ErrEntryMissing => ret result
    | inr _ => panic
    | inl e =>
      job <- entry_load e ;;
      let lowestResvDeadlineAt := expiresAt job in
      if lowestResvDeadlineAt <? nowSecs then
        r' <- try (Release (id job) (CliID c)) ;;
        match r' with
        | inr _ => panic
        | inl _ => tickClient_jobs f nowSecs cli result
        end
      else if (wrap_i64 (lowestResvDeadlineAt - 1) <? nowSecs) && IsWaitingForResv c then
        let resv := mkReservation (ReqID c) (CliID c) 0 DeadlineSoon 0 None None in
        unReserve cli ;;
        tickClient_jobs f nowSecs cli (result ++ [resv])
      else ret result
    end
  end.

(** One turn of the outer loop, after the client has been dequeued. *)
Definition tickClient (nowSecs : Z) (cli : CliRef) (result : list Reservation)
    : JM (list Reservation) :=
  c <- load_cli cli ;;
  result' <- (if IsWaitingForResv c && (ResvDeadlineAt c <? nowSecs) then
                let resv := mkReservation (ReqID c) (CliID c) 0 Timeout 0 None None in
                unReserve cli ;; ret (result ++ [resv])
              else ret result) ;;
  fuel <- gets (fun s => S (S (resv_count (CliID c) s))) ;;
  result'' <- tickClient_jobs fuel nowSecs cli result' ;;
  updateClientTickAt cli ;;
  ret result''.

Fixpoint tickClients_loop (fuel : nat) (nowSecs : Z) (result : list Reservation)
    : JM (list Reservation) :=
  match fuel with
  | O => diverge
  | S f =>
    h <- gets clientHeap ;;
    if (CliHeap.Len h =? 0)%nat then ret result else
    top <- deref (fun s => CliHeap.Peek (clientHeap s)) ;;
    c <- load_cli top ;;
    if nowSecs <=? TickAt c then ret result else
    cli <- on_cheap CliHeap.Dequeue ;;
    result' <- tickClient nowSecs cli result ;;
    tickClients_loop f nowSecs result'
  end.
Definition tickClients (nowSecs : Z) : JM (list Reservation) :=
  fuel <- gets (fun s => S (CliHeap.Len (clientHeap s))) ;;
  tickClients_loop fuel nowSecs [].

Definition Tick (delayOrder readyOrder : list TubeName) (nowSecs : Z) : JM (list Reservation) :=
  next <- gets nextDelayTickAt ;;
  (if next <? nowSecs then
     modify (set_nextDelayTickAt maxTime) ;; tickDelayJobs delayOrder nowSecs
   else ret tt) ;;
  r <- tickReadyJobs readyOrder nowSecs ;;
  r' <- tickClients nowSecs ;;
  ret (r ++ r').
End ticks.

(** * Statistics *)
Section statistics.
(** [yaml.Marshal] of [gopkg.in/yaml.v2] on a map of scalars. *)
Context (yaml_Marshal : gmap string yvalue -> list Byte.byte + string).

Definition marshal (stats : gmap string yvalue) : JM (list Byte.byte) :=
  match yaml_Marshal stats with inl b => ret b | inr e => raise (ErrOther e) end.

Definition GetStatsJobAsYaml (nowSeconds : Z) (jobID : JobID) : JM (list Byte.byte) :=
  incr nCmdStatsJob ;;
  e <- jobs_Get jobID ;;
  j <- load_job (ie_job e) ;;
  marshal (GetStatistics nowSeconds j).

Definition GetStatsTubeAsYaml (nowSeconds : Z) (tube : TubeName) : JM (list Byte.byte) :=
  incr nCmdStatsTube ;;
  stats <- lift (fun s => TubeIdx.GetStatistics tube (tubes s)) ;;
  n <- gets (fun s => ResvIdx.JobCount tube (mem s, reservedJobs s)) ;;
  marshal (<["current-jobs-reserved"%string := YInt n]> stats).

(** The map [GetStatsAsYaml] builds. *)
Definition jsm_stats (s : localJSM) : gmap string yvalue :=
  let st := stat s in
  let base : gmap string yvalue := list_to_map [
    ("cmd-use", YInt 0); ("cmd-watch", YInt 0); ("cmd-ignore", YInt 0);
    ("cmd-put", YInt (st nCmdPut)); ("cmd-peek", YInt (st nCmdPeek));
    ("cmd-peek-ready", YInt (st nCmdPeekReady)); ("cmd-peek-delayed", YInt (st nCmdPeekDelayed));
    ("cmd-peek-buried", YInt (st nCmdPeekBuried)); ("cmd-reserve", YInt (st nCmdReserved));
    ("cmd-reserve-with-timeout", YInt (st nCmdReservedWithTimeout));
    ("cmd-delete", YInt (st nCmdDelete)); ("cmd-release", YInt (st nCmdRelease));
    ("cmd-bury", YInt (st nCmdBury)); ("cmd-kick", YInt (st nCmdKick));
    ("cmd-touch", YInt (st nCmdTouch)); ("cmd-stats", YInt (st nCmdStats));
    ("cmd-stats-job", YInt (st nCmdStatsJob)); ("cmd-stats-tube", YInt (st nCmdStatsTube));
    ("cmd-list-tubes", YInt (st nCmdListTubes));
    ("cmd-list-tube-used", YInt (st nCmdListTubesUsed));
    ("cmd-list-tubes-watched", YInt (st nCmdListTubesWatched));
    ("cmd-pause-tube", YInt (st nCmdPauseTube));
    ("job-timeouts", YInt (st nJobTimeouts)); ("total-jobs", YInt (st nTotalJobs));
    ("current-connections", YInt (Z.of_nat (CliQueue.Len (clients s))));
    ("current-tubes", YInt (Z.of_nat (size (tubes s)))) ]%string in
  <["current-jobs-reserved"%string := YInt (ResvIdx.TotalJobs (reservedJobs s))]>
    ((YInt <$> TubeIdx.TotalJobCounts (tubes s)) ∪ base).

Definition GetStatsAsYaml (nowSeconds : Z) : JM (list Byte.byte) :=
  stats <- gets jsm_stats ;; marshal stats.

Definition Stop : JM unit := ret tt.
End statistics.
