(* ===== verification/Heaps.v ===== *)
(** The job heaps of a state machine as one collection.

    A job is in one heap at a time, named by a [hkey]: the ready, delayed or
    buried heap of its tube, or the reserved heap of its client.  [heap_of] reads
    the collection off [tubeIndex] and [reservedJobsIndex] (a missing tube or
    client has empty heaps), and the lemmas of this file say what every operation
    of [Index] does to the collection and to the queues of waiting clients. *)
From stdpp Require Import base gmap list strings.
From Stdlib Require Import ZArith Lia.
From S2P Require Import Prelude GoHeap Job JobHeap ClientResv Index.
Local Open Scope Z_scope.

Inductive hkey : Type :=
| HReady (t : TubeName) | HDelayed (t : TubeName) | HBuried (t : TubeName) | HReserved (c : ClientID).

#[export] Instance hkey_eq_dec : EqDecision hkey.
Proof. solve_decision. Defined.

Definition kind_of (k : hkey) : LessKind :=
  match k with
  | HReady _ => PriorityLess | HDelayed _ => DelayedLess
  | HBuried _ => BuriedLess | HReserved _ => ReservedLess
  end.

Definition tube_state (ti : tubeIndex) (t : TubeName) : tubeState :=
  default TubeIdx.new_tubeState (ti !! t).

Definition heap_of (ti : tubeIndex) (ri : reservedJobsIndex) (k : hkey) : jobHeap :=
  match k with
  | HReady t => readyJobs (tube_state ti t)
  | HDelayed t => delayedJobs (tube_state ti t)
  | HBuried t => buriedJobs (tube_state ti t)
  | HReserved c => default NewReservedJobs (ri !! c)
  end.

(** The queue of the clients that wait on a tube. *)
Definition wait_queue (ti : tubeIndex) (t : TubeName) : CliQueue.clientResvQueue :=
  waiting (tube_state ti t).

(** The heap a job belongs to.  A deleted job may linger in a buried heap. *)
Definition key_of (j : Job) : hkey :=
  match state j with
  | Ready => HReady (tubeName j)
  | Delayed => HDelayed (tubeName j)
  | Reserved => HReserved (reservedBy j)
  | Buried | Deleted | Initial => HBuried (tubeName j)
  end.

(** * Updates of the collection *)
Definition heaps_upd (k : hkey) (h : jobHeap) (H H' : hkey -> jobHeap) : Prop :=
  forall k', H' k' = if decide (k' = k) then h else H k'.

Lemma heaps_upd_eq k h H H' : heaps_upd k h H H' -> H' k = h.
Proof. intros Hu. rewrite Hu. by case_decide. Qed.

Lemma heaps_upd_ne k h H H' k' : heaps_upd k h H H' -> k' <> k -> H' k' = H k'.
Proof. intros Hu Hne. rewrite Hu. by case_decide. Qed.

(** The wait queues are the same, up to the re-creation of an empty one. *)
Definition queues_same (ti ti' : tubeIndex) : Prop :=
  forall t, wait_queue ti' t = wait_queue ti t \/
    (CliQueue.qm (wait_queue ti t) = ∅ /\ wait_queue ti' t = CliQueue.newClientResvQueue).

#[export] Instance queues_same_refl : Reflexive queues_same.
Proof. intros ti t. by left. Qed.
#[export] Instance queues_same_trans : Transitive queues_same.
Proof.
  intros t1 t2 t3 H1 H2 t. destruct (H1 t) as [E1|[E1 N1]], (H2 t) as [E2|[E2 N2]].
  - left. congruence.
  - right. split; congruence.
  - right. split; congruence.
  - right. done.
Qed.

(** * The three heaps of a tube *)
Inductive tkind : Type := TReady | TDelayed | TBuried.
Definition tget (k : tkind) : tubeState -> jobHeap :=
  match k with TReady => readyJobs | TDelayed => delayedJobs | TBuried => buriedJobs end.
Definition tset (k : tkind) : jobHeap -> tubeState -> tubeState :=
  match k with TReady => set_readyJobs | TDelayed => set_delayedJobs | TBuried => set_buriedJobs end.
Definition tkey (k : tkind) : TubeName -> hkey :=
  match k with TReady => HReady | TDelayed => HDelayed | TBuried => HBuried end.

Lemma heap_of_tkey k ti ri t : heap_of ti ri (tkey k t) = tget k (tube_state ti t).
Proof. by destruct k. Qed.

Lemma tkey_inj k t t' : tkey k t = tkey k t' -> t = t'.
Proof. destruct k; simpl; congruence. Qed.

Lemma tube_state_insert ti t ts t' :
  tube_state (<[t := ts]> ti) t' = if decide (t' = t) then ts else tube_state ti t'.
Proof. unfold tube_state. rewrite lookup_insert. repeat case_decide; simplify_eq; done. Qed.

Lemma heap_of_tset k ti ri t h :
  heaps_upd (tkey k t) h (heap_of ti ri) (heap_of (<[t := tset k h (tube_state ti t)]> ti) ri).
Proof.
  intros k'. destruct k' as [t'|t'|t'|c]; simpl; rewrite ?tube_state_insert;
    destruct k; simpl; repeat case_decide; simplify_eq; done.
Qed.

Lemma wait_queue_tset k ti t h t' :
  wait_queue (<[t := tset k h (tube_state ti t)]> ti) t' = wait_queue ti t'.
Proof.
  unfold wait_queue. rewrite tube_state_insert. case_decide; simplify_eq; [|done]. by destruct k.
Qed.

Lemma heap_of_create ti ri t k :
  ti !! t = None -> heap_of (<[t := TubeIdx.new_tubeState]> ti) ri k = heap_of ti ri k.
Proof.
  intros Ht. destruct k as [t'|t'|t'|c]; simpl; rewrite ?tube_state_insert; try done;
    (case_decide; [subst; unfold tube_state; by rewrite Ht|done]).
Qed.

(** [cleanup] deletes a tube only when that changes nothing. *)
Lemma nil_heap h k : lessFn h = k -> Len h = 0%nat -> h = mkJobHeap [] k.
Proof. destruct h as [[|? ?] ?]; simpl; intros; by simplify_eq. Qed.

Lemma cleanup_spec m ti ri t :
  (forall k, lessFn (heap_of ti ri k) = kind_of k) ->
  exists ti', TubeIdx.cleanup t (m, ti) = OK tt (m, ti') /\
    (forall k, heap_of ti' ri k = heap_of ti ri k) /\ queues_same ti ti'.
Proof.
  intros Hk. unfold TubeIdx.cleanup, bind, gets. simpl.
  destruct (ti !! t) as [ts|] eqn:Ht; [|exists ti; by split_and!].
  case_match eqn:Hl; [|exists ti; by split_and!]. apply andb_true_iff in Hl as [Hl H4].
  apply andb_true_iff in Hl as [Hl H3]. apply andb_true_iff in Hl as [H1 H2].
  apply Nat.eqb_eq in H1, H2, H3, H4. exists (delete t ti).
  assert (tube_state ti t = ts) as Hts by (unfold tube_state; by rewrite Ht).
  assert (forall t', tube_state (delete t ti) t' =
            if decide (t' = t) then TubeIdx.new_tubeState else tube_state ti t') as Hd.
  { intros t'. unfold tube_state. rewrite lookup_delete. repeat case_decide; simplify_eq; done. }
  pose proof (Hk (HReady t)) as K1. pose proof (Hk (HDelayed t)) as K2.
  pose proof (Hk (HBuried t)) as K3. simpl in K1, K2, K3. rewrite Hts in K1, K2, K3.
  split_and!; [done| |].
  - intros [t'|t'|t'|c]; simpl; rewrite ?Hd; try done; (case_decide; [subst t'|done]);
      rewrite Hts; simpl; symmetry; by apply nil_heap.
  - intros t'. unfold wait_queue. rewrite Hd. case_decide; [subst t'|by left]. right.
    rewrite Hts. split; [by apply map_size_empty_iff|done].
Qed.

Lemma on_heap_OK {A} k t (op : M error (Mem * jobHeap) A) m ti a m' h' :
  is_Some (ti !! t) -> op (m, tget k (tube_state ti t)) = OK a (m', h') ->
  TubeIdx.on_heap t (tget k) (tset k) op (m, ti) =
    OK a (m', <[t := tset k h' (tube_state ti t)]> ti).
Proof.
  intros [ts Ht] Hop. unfold tube_state in *. rewrite Ht in *. simpl in *.
  unfold TubeIdx.on_heap. erewrite zoom_OK.
  2: { unfold TubeIdx.get_heap. simpl. rewrite Ht. exact Hop. }
  unfold TubeIdx.put_heap. simpl. f_equal. f_equal. apply map_eq. intros t'.
  rewrite lookup_alter, lookup_insert. case_decide; simplify_eq; [by rewrite Ht|done].
Qed.

(** What a push into, or a removal from, the heap of one key does to the indexes. *)
Record tubes_eff (ti ti' : tubeIndex) (ri : reservedJobsIndex) (k : hkey) (h' : jobHeap) : Prop := {
  te_heaps : heaps_upd k h' (heap_of ti ri) (heap_of ti' ri);
  te_queues : queues_same ti ti'
}.

Lemma tubes_eff_create ti ri k t h :
  tubes_eff ti (<[t := tset k h (tube_state ti t)]> ti) ri (tkey k t) h.
Proof.
  split.
  - apply heap_of_tset.
  - intros t'. left. apply wait_queue_tset.
Qed.

Definition enqueue_op (k : tkind) : JobRef -> TubeIdx.TM EntRef :=
  match k with
  | TReady => TubeIdx.EnqueueReadyJob
  | TDelayed => TubeIdx.EnqueueDelayedJob
  | TBuried => TubeIdx.EnqueueBuriedJob
  end.

Lemma enqueue_op_unfold k jr :
  enqueue_op k jr = (t <- TubeIdx.job_tube jr ;; TubeIdx.getByName t true ;;
                     TubeIdx.on_heap t (tget k) (tset k) (Enqueue jr)).
Proof. by destruct k. Qed.

Lemma enqueue_op_spec k m ti ri jr j :
  mem_wf m -> mjobs m !! jr = Some j -> jh_wf m (heap_of ti ri (tkey k (tubeName j))) ->
  exists er m' ti' h', enqueue_op k jr (m, ti) = OK er (m', ti') /\
    heap_pushed jr er m (heap_of ti ri (tkey k (tubeName j))) m' h' /\
    tubes_eff ti ti' ri (tkey k (tubeName j)) h'.
Proof.
  intros Hm Hj Hwf. rewrite heap_of_tkey in *. set (t := tubeName j) in *.
  destruct (Enqueue_spec m _ jr j Hm Hwf Hj) as (m' & h' & He & Hp).
  exists (mnext m), m', (<[t := tset k h' (tube_state ti t)]> ti), h'.
  split_and!; [|done|apply tubes_eff_create].
  rewrite enqueue_op_unfold. erewrite bind_OK.
  2: { unfold TubeIdx.job_tube. erewrite bind_OK by (by apply deref_OK). done. }
  unfold TubeIdx.getByName. fold t.
  destruct (ti !! t) as [ts|] eqn:Ht; cbn [negb].
  - unfold bind, gets, ret. simpl. rewrite Ht. by apply on_heap_OK.
  - unfold bind, gets, ret. simpl. rewrite Ht. simpl.
    erewrite on_heap_OK; [|by rewrite lookup_insert_eq; eauto|].
    2: { rewrite tube_state_insert. case_decide; [|done]. unfold tube_state in He. by rewrite Ht in He. }
    rewrite tube_state_insert. case_decide; [|done]. unfold tube_state. rewrite Ht. simpl.
    by rewrite insert_insert_eq.
Qed.

Definition remove_op (k : tkind) : EntRef -> TubeIdx.TM EntRef :=
  match k with
  | TReady => TubeIdx.RemoveReadyJob
  | TDelayed => TubeIdx.RemoveDelayedJob
  | TBuried => TubeIdx.RemoveBuriedJob
  end.

Lemma tube_state_nonempty ti t k er : er ∈ entries (tget k (tube_state ti t)) -> is_Some (ti !! t).
Proof.
  unfold tube_state. destruct (ti !! t); [eauto|]. destruct k; simpl; by intros ?%elem_of_nil.
Qed.

Lemma remove_op_spec k m ti ri er j :
  (forall k, lessFn (heap_of ti ri k) = kind_of k) ->
  entry_job m er = Some j -> jh_wf m (heap_of ti ri (tkey k (tubeName j))) ->
  er ∈ entries (heap_of ti ri (tkey k (tubeName j))) ->
  exists m' ti' h', remove_op k er (m, ti) = OK er (m', ti') /\
    heap_removed er m (heap_of ti ri (tkey k (tubeName j))) m' h' /\
    tubes_eff ti ti' ri (tkey k (tubeName j)) h'.
Proof.
  intros Hk Hj Hwf Hin. rewrite heap_of_tkey in Hwf, Hin |- *. set (t := tubeName j) in *.
  pose proof (tube_state_nonempty _ _ _ _ Hin) as [ts Ht].
  destruct (RemoveAt_spec m _ er Hwf Hin) as (m' & h' & He & Hr).
  pose proof (on_heap_OK k t _ m ti _ _ _ ltac:(eauto) He) as Hon.
  set (ti1 := <[t := tset k h' (tube_state ti t)]> ti) in *.
  assert (TubeIdx.entry_tube er (m, ti) = OK t (m, ti)) as Het.
  { unfold TubeIdx.entry_tube. by erewrite bind_OK by (by apply deref_OK). }
  assert (forall b, TubeIdx.getByName t b (m, ti) = OK ts (m, ti)) as Hg.
  { intros b. unfold TubeIdx.getByName, bind, gets. simpl. by rewrite Ht. }
  pose proof (tubes_eff_create ti ri k t h') as Heff.
  destruct k; cbn [remove_op]; [exists m', ti1, h'|exists m'|exists m', ti1, h'].
  - split_and!; [|done..]. unfold TubeIdx.RemoveReadyJob.
    erewrite bind_OK by done. by erewrite bind_OK by done.
  - destruct (cleanup_spec m' ti1 ri t) as (ti2 & Hc & Hh & Hq).
    { intros k. pose proof (te_heaps _ _ _ _ _ Heff k) as Hu. fold ti1 in Hu. rewrite Hu.
      case_decide; [|done]. subst k.
      rewrite (hr_less _ _ _ _ _ Hr). apply (Hk (HDelayed t)). }
    exists ti2, h'. split_and!; [|done|].
    + unfold TubeIdx.RemoveDelayedJob. do 2 (erewrite bind_OK by done).
      erewrite bind_OK by (by apply try_OK). by erewrite bind_OK by done.
    + split; [intros k; rewrite Hh; apply Heff|by etransitivity; [apply Heff|]].
  - split_and!; [|done..]. unfold TubeIdx.RemoveBuriedJob.
    erewrite bind_OK by done. by erewrite bind_OK by done.
Qed.

(** * The heaps of the clients *)
Lemma heap_of_resv_insert ti ri c h :
  heaps_upd (HReserved c) h (heap_of ti ri) (heap_of ti (<[c := h]> ri)).
Proof.
  intros k. destruct k; simpl; rewrite ?lookup_insert; repeat case_decide; simplify_eq; done.
Qed.

Lemma resv_on_heap_OK {A} c (op : M error (Mem * jobHeap) A) m ri a m' h' :
  op (m, default NewReservedJobs (ri !! c)) = OK a (m', h') ->
  ResvIdx.on_heap c op (m, ri) = OK a (m', <[c := h']> ri).
Proof.
  intros Hop. unfold ResvIdx.on_heap. rewrite (zoom_OK _ _ _ _ a (m', h')); [done|].
  unfold ResvIdx.get_heap. simpl. destruct (ri !! c); exact Hop.
Qed.

Lemma resv_Enqueue_spec m ti ri c jr j :
  mem_wf m -> mjobs m !! jr = Some j -> jh_wf m (heap_of ti ri (HReserved c)) ->
  exists er m' ri' h', ResvIdx.Enqueue c jr (m, ri) = OK er (m', ri') /\
    heap_pushed jr er m (heap_of ti ri (HReserved c)) m' h' /\
    heaps_upd (HReserved c) h' (heap_of ti ri) (heap_of ti ri').
Proof.
  intros Hm Hj Hwf. destruct (Enqueue_spec m _ jr j Hm Hwf Hj) as (m' & h' & He & Hp).
  exists (mnext m), m', (<[c := h']> ri), h'. split_and!; [|done|apply heap_of_resv_insert].
  unfold ResvIdx.Enqueue, bind, gets, modify, ret. simpl. simpl in He.
  destruct (ri !! c) as [h|] eqn:Hc; cbn [default] in He.
  - apply resv_on_heap_OK. by rewrite Hc.
  - simpl. erewrite resv_on_heap_OK; [by rewrite insert_insert_eq|]. by rewrite lookup_insert_eq.
Qed.

Lemma drop_if_empty_spec m ti ri c h :
  lessFn h = ReservedLess -> ri !! c = Some h ->
  exists ri', ResvIdx.drop_if_empty c (m, ri) = OK tt (m, ri') /\
    (forall k, heap_of ti ri' k = heap_of ti ri k).
Proof.
  intros Hl Hc. unfold ResvIdx.drop_if_empty, bind, gets. simpl. rewrite Hc.
  destruct (Len h =? 0)%nat eqn:E0; [|eauto]. apply Nat.eqb_eq in E0.
  exists (delete c ri). split; [done|]. intros [t|t|t|c']; simpl; try done.
  rewrite lookup_delete. case_decide; [subst|done]. rewrite Hc. simpl. symmetry. by apply nil_heap.
Qed.

(** The middle of [Remove]: [Dequeue] at the root, [RemoveAt] elsewhere. *)
Lemma resv_take_spec m ri c er e :
  jh_wf m (default NewReservedJobs (ri !! c)) -> er ∈ entries (default NewReservedJobs (ri !! c)) ->
  ments m !! er = Some e ->
  exists m' h', (if je_index e =? 0 then ResvIdx.on_heap c Dequeue
                 else x <- ResvIdx.on_heap c (RemoveAt er) ;;
                      en' <- deref (fun s => ments s.1 !! x) ;; ret (je_Job en')) (m, ri)
      = OK (je_Job e) (m', <[c := h']> ri) /\
    heap_removed er m (default NewReservedJobs (ri !! c)) m' h'.
Proof.
  intros Hwf Hin He. destruct (jh_wf_entry _ _ _ Hwf Hin) as (i & e' & j & Hi & He' & Hx & Hj).
  simplify_eq. destruct (Z.eqb_spec (je_index e) 0) as [E0|E0].
  - assert (i = 0%nat) as -> by lia.
    destruct (Dequeue_spec _ _ _ _ Hwf Hi He) as (m' & h' & Hd & Hr).
    exists m', h'. split; [by apply resv_on_heap_OK|done].
  - destruct (RemoveAt_spec _ _ _ Hwf Hin) as (m' & h' & Hd & Hr). exists m', h'. split; [|done].
    erewrite bind_OK by (by apply resv_on_heap_OK).
    pose proof (hr_ents _ _ _ _ _ Hr) as Hf. apply (f_equal (.!! er)) in Hf.
    rewrite !lookup_fmap, He in Hf. destruct (ments m' !! er) as [e'|] eqn:He''; [|done].
    erewrite bind_OK by (by apply deref_OK). simplify_eq/=. by rewrite Hf.
Qed.

Lemma resv_Remove_spec m ti ri er j :
  (forall k, lessFn (heap_of ti ri k) = kind_of k) ->
  entry_job m er = Some j -> jh_wf m (heap_of ti ri (HReserved (reservedBy j))) ->
  er ∈ entries (heap_of ti ri (HReserved (reservedBy j))) ->
  exists jr m' ri' h', ResvIdx.Remove er (m, ri) = OK jr (m', ri') /\
    heap_removed er m (heap_of ti ri (HReserved (reservedBy j))) m' h' /\
    heaps_upd (HReserved (reservedBy j)) h' (heap_of ti ri) (heap_of ti ri').
Proof.
  intros Hk Hj Hwf Hin. set (c := reservedBy j) in *. pose proof (Hk (HReserved c)) as Hkc.
  simpl in *. pose proof Hj as Hj'. unfold entry_job in Hj'.
  apply bind_Some in Hj' as (e & He & _).
  destruct (ri !! c) as [h|] eqn:Hc; [|by apply elem_of_nil in Hin].
  destruct (resv_take_spec m ri c er e) as (m' & h' & Ht & Hr); [by rewrite Hc..|done|].
  rewrite Hc in Hr.
  destruct (drop_if_empty_spec m' ti (<[c := h']> ri) c h') as (ri' & Hd & Hh).
  { rewrite (hr_less _ _ _ _ _ Hr). done. }
  { by rewrite lookup_insert_eq. }
  exists (je_Job e), m', ri', h'. split_and!; [|done|].
  - unfold ResvIdx.Remove. erewrite bind_OK by (by apply deref_OK). cbv zeta. fold c.
    erewrite bind_OK by done. cbn [snd]. rewrite Hc.
    erewrite bind_OK by (by apply deref_OK). erewrite bind_OK by (by apply try_OK).
    by erewrite bind_OK by done.
  - intros k. rewrite Hh. apply heap_of_resv_insert.
Qed.
