(* ===== verification/JobInv.v ===== *)
(** The invariant of the jobs and what an elementary step does to it.

    [JInv m H ji]: every job of the index [ji] sits in the one heap that its
    state names, with the index pointing at its entry, and every heap entry
    belongs to such a job, or to a deleted one.  A transition of [jsm.go] takes a
    job out of its heap ([JInv_remove]), assigns its fields ([JInv_update]) and
    puts it into another heap ([JInv_push]). *)
From stdpp Require Import base gmap list strings.
From Stdlib Require Import ZArith Lia.
From S2P Require Import Prelude GoHeap Job JobHeap ClientResv Index Heaps.
Local Open Scope Z_scope.

(** A job that is in some heap for good reason. *)
Definition live (j : Job) : Prop := state j <> Initial /\ state j <> Deleted.

(** The heap has no entry of a deleted job. *)
Definition no_stale (m : Mem) (h : jobHeap) : Prop :=
  forall er j, er ∈ entries h -> entry_job m er = Some j -> state j <> Deleted.

Record JInv (m : Mem) (H : hkey -> jobHeap) (ji : gmap JobID IndexEntry) : Prop := {
  ji_mem : mem_wf m;
  ji_kind k : lessFn (H k) = kind_of k;
  ji_hwf k : jh_wf m (H k);
  ji_sorted k : no_stale m (H k) -> jh_sorted m (H k);
  ji_idx jid ie : ji !! jid = Some ie ->
    exists j er e, mjobs m !! ie_job ie = Some j /\ id j = jid /\ live j /\
      ie_entry ie = Some er /\ ments m !! er = Some e /\ je_Job e = ie_job ie /\
      er ∈ entries (H (key_of j));
  ji_back k er e : er ∈ entries (H k) -> ments m !! er = Some e ->
    exists j, mjobs m !! je_Job e = Some j /\ key_of j = k /\
      (state j = Deleted \/ ji !! id j = Some (mkIndexEntry (je_Job e) (Some er)))
}.

(** No heap refers to the job object. *)
Definition unref (m : Mem) (H : hkey -> jobHeap) (jr : JobRef) : Prop :=
  forall k er e, er ∈ entries (H k) -> ments m !! er = Some e -> je_Job e <> jr.

Section elementary_steps.
Context (m : Mem) (H : hkey -> jobHeap) (ji : gmap JobID IndexEntry).
Context (HI : JInv m H ji).

Lemma JInv_entry k er : er ∈ entries (H k) -> exists e, ments m !! er = Some e.
Proof.
  intros Hin. destruct (jh_wf_entry _ _ _ (ji_hwf _ _ _ HI k) Hin) as (? & e & ? & ? & ? & _). eauto.
Qed.

(** An entry is in one heap only. *)
Lemma JInv_disjoint k k' er : er ∈ entries (H k) -> er ∈ entries (H k') -> k = k'.
Proof.
  intros Hk Hk'. destruct (JInv_entry _ _ Hk) as [e He].
  destruct (ji_back _ _ _ HI _ _ _ Hk He) as (j & Hj & Hkj & _).
  destruct (ji_back _ _ _ HI _ _ _ Hk' He) as (j' & Hj' & Hkj' & _). congruence.
Qed.

Lemma JInv_NoDup k : NoDup (entries (H k)).
Proof.
  apply NoDup_alt. intros i i' r Hi Hi'. destruct (proj1 (jh_wf_alt _ _) (ji_hwf _ _ _ HI k)) as [Hx _].
  apply Hx in Hi. apply Hx in Hi'. rewrite Hi in Hi'. simplify_eq. lia.
Qed.

Lemma unref_index jr jid ie : unref m H jr -> ji !! jid = Some ie -> ie_job ie <> jr.
Proof.
  intros Hu Hie. destruct (ji_idx _ _ _ HI _ _ Hie) as (j & er & e & _ & _ & _ & _ & He & Hje & Hin).
  rewrite <- Hje. by eapply Hu.
Qed.

(** ** Taking the job [jid] out of its heap *)
Section removal.
Context (jid : JobID) (jr : JobRef) (er : EntRef) (j : Job) (m' : Mem) (h' : jobHeap) (H' : hkey -> jobHeap).
Context (Hji : ji !! jid = Some (mkIndexEntry jr (Some er))) (Hj : mjobs m !! jr = Some j).
Context (Hrem : heap_removed er m (H (key_of j)) m' h') (HH' : heaps_upd (key_of j) h' H H').

Lemma removed_je r e' : ments m' !! r = Some e' -> exists e, ments m !! r = Some e /\ je_Job e = je_Job e'.
Proof.
  intros He'. pose proof (hr_ents _ _ _ _ _ Hrem) as Hf. apply (f_equal (.!! r)) in Hf.
  rewrite !lookup_fmap, He' in Hf. destruct (ments m !! r); simplify_eq/=; eauto.
Qed.

Lemma removed_je' r e : ments m !! r = Some e -> exists e', ments m' !! r = Some e' /\ je_Job e' = je_Job e.
Proof.
  intros He. pose proof (hr_ents _ _ _ _ _ Hrem) as Hf. apply (f_equal (.!! r)) in Hf.
  rewrite !lookup_fmap, He in Hf. destruct (ments m' !! r); simplify_eq/=; eauto.
Qed.

Lemma removed_entry_job r : entry_job m' r = entry_job m r.
Proof.
  unfold entry_job. pose proof (hr_ents _ _ _ _ _ Hrem) as Hf. apply (f_equal (.!! r)) in Hf.
  rewrite !lookup_fmap in Hf. destruct (ments m !! r), (ments m' !! r); simplify_eq/=; [|done].
  by rewrite (hr_jobs _ _ _ _ _ Hrem), Hf.
Qed.

(** The entries of the new collection: those of the old one but [er]. *)
Lemma removed_elem k r : r ∈ entries (H' k) <-> r ∈ entries (H k) /\ r <> er.
Proof.
  rewrite HH'. case_decide as Hk; [subst k|].
  - pose proof (hr_entries _ _ _ _ _ Hrem) as Hp. pose proof (JInv_NoDup (key_of j)) as Hnd.
    rewrite Hp in Hnd |- *. apply NoDup_cons in Hnd as [Hnin _]. rewrite elem_of_cons.
    split; [intros Hr; split; [by right|by intros ->]|by intros [[?|?] ?]].
  - split; [|by intros [? _]]. intros Hr. split; [done|]. intros ->.
    apply Hk. eapply JInv_disjoint; [done|].
    rewrite (hr_entries _ _ _ _ _ Hrem). by left.
Qed.

Lemma removed_er : er ∈ entries (H (key_of j)).
Proof. rewrite (hr_entries _ _ _ _ _ Hrem). by left. Qed.

Lemma removed_unref : unref m' H' jr.
Proof.
  intros k r e' [Hr Hne]%removed_elem He' Hje.
  destruct (removed_je _ _ He') as (e & He & Hjee). rewrite <- Hjee in Hje.
  destruct (ji_idx _ _ _ HI _ _ Hji) as (j0 & er0 & e0 & Hj0 & Hid & [_ Hnd] & Hie & He0 & Hje0 & _).
  simpl in *. simplify_eq.
  destruct (ji_back _ _ _ HI _ _ _ Hr He) as (j1 & Hj1 & Hk1 & Hcase).
  destruct Hcase as [Hd|Hi]; [congruence|by simplify_eq].
Qed.

Lemma removed_stale k : no_stale m (H k) -> no_stale m' (H' k).
Proof. intros Hns r x [Hr _]%removed_elem. rewrite removed_entry_job. by apply Hns. Qed.

Lemma JInv_remove : JInv m' H' (delete jid ji).
Proof.
  assert (forall k, k <> key_of j -> forall r, r ∈ entries (H k) -> ments m' !! r = ments m !! r) as Hout.
  { intros k Hk r Hr. apply (hr_frame _ _ _ _ _ Hrem). intros Hr'. apply Hk. by eapply JInv_disjoint. }
  split.
  - destruct (ji_mem _ _ _ HI) as [W1 W2 W3].
    split; intros r; rewrite ?(hr_jobs _ _ _ _ _ Hrem), ?(hr_clis _ _ _ _ _ Hrem), (hr_next _ _ _ _ _ Hrem);
      [apply W1| |apply W3]. intros e' (e & He & _)%removed_je. by eapply W2.
  - intros k. rewrite HH'. case_decide; [subst|apply HI]. rewrite (hr_less _ _ _ _ _ Hrem). apply HI.
  - intros k. rewrite HH'. case_decide as Hk; [apply Hrem|].
    apply (jh_wf_frame m); [by apply Hout| |apply HI]. intros r _. by rewrite removed_entry_job.
  - intros k Hns. rewrite HH'. case_decide as Hk; [subst|].
    + apply (hr_sorted _ _ _ _ _ Hrem), HI. intros r jx Hr Hjx Hd.
      destruct (decide (r = er)) as [->|Hne].
      * destruct (ji_idx _ _ _ HI _ _ Hji) as (j0 & er0 & e0 & Hj0 & _ & [_ Hnd] & Hie & He0 & Hje0 & _).
        simpl in *. simplify_eq. unfold entry_job in Hjx. rewrite He0 in Hjx. simpl in Hjx. congruence.
      * apply (Hns r jx); [by apply removed_elem|by rewrite removed_entry_job|done].
    + apply (jh_sorted_frame m); [|apply (ji_sorted _ _ _ HI)].
      * intros r _. apply removed_entry_job.
      * intros r jx Hr Hjx. apply (Hns r jx); [by rewrite (heaps_upd_ne _ _ _ _ _ HH')|].
        by rewrite removed_entry_job.
  - intros jid' ie [Hne Hie]%lookup_delete_Some.
    destruct (ji_idx _ _ _ HI _ _ Hie) as (j1 & er1 & e1 & Hj1 & Hid & Hl & Hie1 & He1 & Hje1 & Hin).
    destruct (removed_je' _ _ He1) as (e1' & He1' & Hje1').
    exists j1, er1, e1'. rewrite (hr_jobs _ _ _ _ _ Hrem). split_and!; try done; [congruence|].
    apply removed_elem. split; [done|]. intros ->.
    destruct (ji_idx _ _ _ HI _ _ Hji) as (j0 & er0 & e0 & Hj0 & Hid0 & _ & Hie0 & He0 & Hje0 & _).
    simpl in *. simplify_eq. congruence.
  - intros k r e' [Hr Hne]%removed_elem He'. destruct (removed_je _ _ He') as (e & He & Hje).
    destruct (ji_back _ _ _ HI _ _ _ Hr He) as (j1 & Hj1 & Hk1 & Hcase).
    exists j1. rewrite (hr_jobs _ _ _ _ _ Hrem), <- Hje. split_and!; [done..|].
    destruct Hcase as [?|Hc]; [by left|right]. rewrite lookup_delete_ne; [done|].
    intros Heq. rewrite <- Heq in Hc. congruence.
Qed.
End removal.

(** ** Assigning to a job that no heap refers to *)
Lemma unref_entry_job jr j' k r :
  unref m H jr -> r ∈ entries (H k) ->
  entry_job (set_mjobs (<[jr := j']> (mjobs m)) m) r = entry_job m r.
Proof.
  intros Hu Hr. destruct (JInv_entry _ _ Hr) as [e He]. unfold entry_job. simpl. rewrite He. simpl.
  apply lookup_insert_ne. apply not_eq_sym. by eapply Hu.
Qed.

Lemma JInv_update jr j j' :
  mjobs m !! jr = Some j -> unref m H jr -> JInv (set_mjobs (<[jr := j']> (mjobs m)) m) H ji.
Proof.
  intros Hj Hu. split.
  - destruct (ji_mem _ _ _ HI) as [W1 W2 W3]. split; simpl; [|done..].
    intros r x [[<- _]|[_ Hx]]%lookup_insert_Some; by eapply W1.
  - apply HI.
  - intros k. apply (jh_wf_frame m); [done| |apply HI]. intros r Hr. by rewrite (unref_entry_job _ _ k).
  - intros k Hns. apply (jh_sorted_frame m); [|apply (ji_sorted _ _ _ HI)].
    + intros r Hr. by apply (unref_entry_job _ _ k).
    + intros r jx Hr Hjx. apply (Hns r jx Hr). by rewrite (unref_entry_job _ _ k).
  - intros jid ie Hie. pose proof (unref_index _ _ _ Hu Hie) as Hne.
    destruct (ji_idx _ _ _ HI _ _ Hie) as (j1 & er1 & e1 & Hj1 & ?).
    exists j1, er1, e1. simpl. rewrite lookup_insert_ne by done. done.
  - intros k r e Hr He. destruct (ji_back _ _ _ HI _ _ _ Hr He) as (j1 & Hj1 & ?).
    exists j1. simpl. rewrite lookup_insert_ne; [done|]. apply not_eq_sym. by eapply Hu.
Qed.

(** ** Deleting a buried job: its entry stays behind *)
Lemma JInv_delete_buried jid jr er j j' :
  ji !! jid = Some (mkIndexEntry jr (Some er)) -> mjobs m !! jr = Some j ->
  state j' = Deleted -> key_of j' = key_of j ->
  JInv (set_mjobs (<[jr := j']> (mjobs m)) m) H (delete jid ji).
Proof.
  intros Hji Hj Hst Hk.
  destruct (ji_idx _ _ _ HI _ _ Hji) as (j0 & er0 & e0 & Hj0 & Hid & Hl & Hie & He0 & Hje0 & Hin0).
  simpl in *. assert (j0 = j) as -> by congruence. assert (er0 = er) as -> by congruence.
  assert (forall r e, ments m !! r = Some e ->
    entry_job (set_mjobs (<[jr := j']> (mjobs m)) m) r =
      if decide (je_Job e = jr) then Some j' else entry_job m r) as Hej.
  { intros r e He. unfold entry_job. simpl. rewrite He. simpl. rewrite lookup_insert.
    repeat case_decide; congruence. }
  split.
  - destruct (ji_mem _ _ _ HI) as [W1 W2 W3]. split; simpl; [|done..].
    intros r x [[<- _]|[_ Hx]]%lookup_insert_Some; by eapply W1.
  - apply HI.
  - intros k. apply (jh_wf_frame m); [done| |apply HI]. intros r Hr [x Hx].
    destruct (JInv_entry _ _ Hr) as [e He]. rewrite (Hej _ _ He). case_decide; eauto.
  - intros k Hns. assert (forall r, r ∈ entries (H k) ->
      entry_job (set_mjobs (<[jr := j']> (mjobs m)) m) r = entry_job m r) as Heq.
    { intros r Hr. destruct (JInv_entry _ _ Hr) as [e He]. specialize (Hns r).
      rewrite (Hej _ _ He) in Hns |- *. case_decide; [|done]. by destruct (Hns j'). }
    apply (jh_sorted_frame m); [done|]. apply (ji_sorted _ _ _ HI).
    intros r x Hr Hx. apply (Hns r x Hr). by rewrite Heq.
  - intros jid' ie [Hne Hie']%lookup_delete_Some.
    destruct (ji_idx _ _ _ HI _ _ Hie') as (j1 & er1 & e1 & Hj1 & Hid1 & ?).
    exists j1, er1, e1. simpl. rewrite lookup_insert_ne; [done|]. congruence.
  - intros k r e Hr He. destruct (ji_back _ _ _ HI _ _ _ Hr He) as (j1 & Hj1 & Hk1 & Hcase). simpl.
    destruct (decide (je_Job e = jr)) as [Heq|Hne].
    + rewrite Heq, lookup_insert_eq. exists j'. split_and!; [done| |by left]. congruence.
    + exists j1. rewrite lookup_insert_ne by done. split_and!; [done..|].
      destruct Hcase as [?|Hc]; [by left|right]. rewrite lookup_delete_ne; [done|].
      intros Heq. rewrite <- Heq in Hc. congruence.
Qed.

(** ** A new job object *)
Lemma JInv_alloc j :
  JInv (alloc_job j m).2 H ji /\ unref (alloc_job j m).2 H (alloc_job j m).1.
Proof.
  pose proof (ji_mem _ _ _ HI) as [W1 W2 W3]. simpl.
  assert (forall r x, mjobs m !! r = Some x -> <[mnext m := j]> (mjobs m) !! r = Some x) as Hold.
  { intros r x Hx. rewrite lookup_insert_ne; [done|]. intros <-. apply W1 in Hx. lia. }
  assert (forall k r, r ∈ entries (H k) -> entry_job (alloc_job j m).2 r = entry_job m r) as Hej.
  { intros k r Hr. destruct (JInv_entry _ _ Hr) as [e He].
    destruct (ji_back _ _ _ HI _ _ _ Hr He) as (x & Hx & _).
    unfold entry_job. simpl. rewrite He. simpl. rewrite Hx. by apply Hold. }
  split; [split|].
  - split; simpl; [|intros ?? ?%W2; lia|intros ?? ?%W3; lia].
    intros r x [[<- _]|[_ Hx]]%lookup_insert_Some; [lia|]. apply W1 in Hx. lia.
  - apply HI.
  - intros k. apply (jh_wf_frame m); [done| |apply HI]. intros r Hr. by rewrite <- (Hej k).
  - intros k Hns. apply (jh_sorted_frame m); [by apply Hej|]. apply (ji_sorted _ _ _ HI).
    intros r x Hr Hx. apply (Hns r x Hr). by rewrite <- (Hej k) in Hx.
  - intros jid ie Hie. destruct (ji_idx _ _ _ HI _ _ Hie) as (j1 & er1 & e1 & Hj1 & ?).
    exists j1, er1, e1. split; [by apply Hold|done].
  - intros k r e Hr He. destruct (ji_back _ _ _ HI _ _ _ Hr He) as (j1 & Hj1 & ?).
    exists j1. split; [by apply Hold|done].
  - intros k r e Hr He. simpl in He. destruct (ji_back _ _ _ HI _ _ _ Hr He) as (j1 & Hj1 & _).
    intros Heq. apply W1 in Hj1. rewrite Heq in Hj1. lia.
Qed.

(** ** Putting a job into its heap *)
Section push.
Context (jr : JobRef) (er : EntRef) (j : Job) (m' : Mem) (h' : jobHeap) (H' : hkey -> jobHeap).
Context (Hj : mjobs m !! jr = Some j) (Hu : unref m H jr) (Hl : live j) (Hnew : ji !! id j = None).
Context (Hpush : heap_pushed jr er m (H (key_of j)) m' h') (HH' : heaps_upd (key_of j) h' H H').

Lemma pushed_fresh k : er ∉ entries (H k).
Proof.
  intros Hin. destruct (JInv_entry _ _ Hin) as [e He]. apply (mw_ents _ (ji_mem _ _ _ HI)) in He.
  rewrite (hp_er _ _ _ _ _ _ Hpush) in He. lia.
Qed.

Lemma pushed_je r : je_Job <$> ments m' !! r = if decide (r = er) then Some jr else je_Job <$> ments m !! r.
Proof.
  pose proof (hp_ents _ _ _ _ _ _ Hpush) as Hf. apply (f_equal (.!! r)) in Hf.
  rewrite lookup_fmap in Hf. rewrite Hf, lookup_insert. repeat case_decide; simplify_eq; try done.
  by rewrite lookup_fmap.
Qed.

Lemma pushed_elem k r : r ∈ entries (H' k) <-> r ∈ entries (H k) \/ r = er /\ k = key_of j.
Proof.
  rewrite HH'. case_decide as Hk; [subst k|].
  - rewrite (hp_entries _ _ _ _ _ _ Hpush), elem_of_cons.
    split; [intros [->|?]; auto|intros [?|[-> _]]; auto].
  - split; [auto|by intros [?|[_ ?]]].
Qed.

Lemma pushed_entry_job k r : r ∈ entries (H k) -> entry_job m' r = entry_job m r.
Proof.
  intros Hr. pose proof (pushed_je r) as Hf. unfold entry_job.
  case_decide as Heq; [rewrite Heq in Hr; by apply pushed_fresh in Hr|].
  rewrite (hp_jobs _ _ _ _ _ _ Hpush).
  destruct (ments m !! r), (ments m' !! r); simplify_eq/=; congruence.
Qed.

Lemma pushed_er_job : entry_job m' er = Some j.
Proof.
  pose proof (pushed_je er) as Hf. case_decide; [|done]. unfold entry_job.
  destruct (ments m' !! er); simplify_eq/=. by rewrite (hp_jobs _ _ _ _ _ _ Hpush).
Qed.

Lemma pushed_stale k : no_stale m (H k) -> no_stale m' (H' k).
Proof.
  intros Hns r x [Hr|[-> _]]%pushed_elem Hx.
  - rewrite (pushed_entry_job k) in Hx by done. by eapply Hns.
  - rewrite pushed_er_job in Hx. injection Hx as <-. apply Hl.
Qed.

Lemma JInv_push : JInv m' H' (<[id j := mkIndexEntry jr (Some er)]> ji).
Proof.
  assert (exists ee, ments m' !! er = Some ee /\ je_Job ee = jr) as (ee & Hee & Hjee).
  { pose proof (pushed_je er) as Hf. case_decide; [|done].
    destruct (ments m' !! er); simplify_eq/=; eauto. }
  split.
  - destruct (ji_mem _ _ _ HI) as [W1 W2 W3].
    split; intros r x; rewrite ?(hp_jobs _ _ _ _ _ _ Hpush), ?(hp_clis _ _ _ _ _ _ Hpush),
      (hp_next _ _ _ _ _ _ Hpush); [intros ?%W1; lia| |intros ?%W3; lia].
    intros Hx. pose proof (pushed_je r) as Hf. rewrite Hx in Hf. case_decide.
    + subst. rewrite (hp_er _ _ _ _ _ _ Hpush). lia.
    + destruct (ments m !! r) as [y|] eqn:Hy; [|done]. apply W2 in Hy. lia.
  - intros k. rewrite HH'. case_decide; [subst|apply HI]. rewrite (hp_less _ _ _ _ _ _ Hpush). apply HI.
  - intros k. rewrite HH'. case_decide as Hk; [apply Hpush|]. apply (jh_wf_frame m); [| |apply HI].
    + intros r Hr. apply (hp_frame _ _ _ _ _ _ Hpush); [by intros ->; apply pushed_fresh in Hr|].
      intros Hr'. apply Hk. by eapply JInv_disjoint.
    + intros r Hr. by rewrite (pushed_entry_job k).
  - intros k Hns. assert (no_stale m (H k)) as Hns'.
    { intros r jx Hr Hjx. apply (Hns r jx); [apply pushed_elem; by left|by rewrite (pushed_entry_job k)]. }
    rewrite HH'. case_decide; [subst; by apply (hp_sorted _ _ _ _ _ _ Hpush), HI|].
    apply (jh_sorted_frame m); [|by apply HI]. intros r Hr. by apply (pushed_entry_job k).
  - intros jid ie [[<- <-]|[Hne Hie]]%lookup_insert_Some.
    + exists j, er, ee. simpl. rewrite (hp_jobs _ _ _ _ _ _ Hpush).
      split_and!; try done. apply pushed_elem. by right.
    + destruct (ji_idx _ _ _ HI _ _ Hie) as (j1 & er1 & e1 & Hj1 & Hid & Hl1 & Hie1 & He1 & Hje1 & Hin).
      pose proof (pushed_je er1) as Hf. case_decide as Heq; [rewrite Heq in Hin; by apply pushed_fresh in Hin|].
      rewrite He1 in Hf. destruct (ments m' !! er1) as [e1'|] eqn:He1'; [|done].
      injection Hf as Hf.
      exists j1, er1, e1'. rewrite (hp_jobs _ _ _ _ _ _ Hpush). split_and!; try done; [congruence|].
      apply pushed_elem. by left.
  - intros k r e' [Hr|[-> ->]]%pushed_elem He'.
    + pose proof (pushed_je r) as Hf. case_decide as Heq; [rewrite Heq in Hr; by apply pushed_fresh in Hr|].
      rewrite He' in Hf. destruct (ments m !! r) as [e|] eqn:He; [|done].
      injection Hf as Hf.
      destruct (ji_back _ _ _ HI _ _ _ Hr He) as (j1 & Hj1 & Hk1 & Hcase).
      exists j1. rewrite (hp_jobs _ _ _ _ _ _ Hpush), Hf. split_and!; [done..|].
      destruct Hcase as [?|Hc]; [by left|right]. rewrite lookup_insert_ne; [done|]. congruence.
    + assert (e' = ee) as -> by congruence. exists j. rewrite Hjee, (hp_jobs _ _ _ _ _ _ Hpush). split_and!; [done..|].
      right. by rewrite lookup_insert_eq.
Qed.
End push.
End elementary_steps.
