(* ===== verification/Transitions.v ===== *)
(** The transitions of [jsm.go] on the job table.

    [abs] is the abstract state of the jobs, a finite map from identifiers to
    jobs; [JobsInv] ties it to the indexes and heaps of the state machine.  Every
    transition is shown to be total on the states of the invariant, and to be one
    assignment to the abstract table or an error that changes nothing. *)
From stdpp Require Import base gmap list strings.
From Stdlib Require Import ZArith Lia.
From S2P Require Import Prelude GoHeap Job JobHeap ClientResv Index JSM Heaps JobInv.
Local Open Scope Z_scope.

Definition heaps (s : localJSM) : hkey -> jobHeap := heap_of (tubes s) (reservedJobs s).
Definition JobsInv (s : localJSM) : Prop := JInv (mem s) (heaps s) (jm (jobs s)).

(** The jobs by identifier. *)
Definition abs (s : localJSM) : gmap JobID Job :=
  omap (fun ie => mjobs (mem s) !! ie_job ie) (jm (jobs s)).

Lemma abs_lookup s jid j :
  abs s !! jid = Some j <-> exists ie, jm (jobs s) !! jid = Some ie /\ mjobs (mem s) !! ie_job ie = Some j.
Proof. unfold abs. rewrite lookup_omap, bind_Some. done. Qed.

Lemma abs_None s jid : JobsInv s -> abs s !! jid = None <-> jm (jobs s) !! jid = None.
Proof.
  intros HI. unfold abs. rewrite lookup_omap. destruct (jm (jobs s) !! jid) as [ie|] eqn:Hie; [|done].
  destruct (ji_idx _ _ _ HI _ _ Hie) as (j & ? & ? & Hj & _). simpl. by rewrite Hj.
Qed.

(** What the index and the heaps hold for a job of the table. *)
Lemma abs_entry s jid j :
  JobsInv s -> abs s !! jid = Some j ->
  exists ie er, jm (jobs s) !! jid = Some ie /\ mjobs (mem s) !! ie_job ie = Some j /\
    ie_entry ie = Some er /\ id j = jid /\ live j /\
    entry_job (mem s) er = Some j /\ er ∈ entries (heaps s (key_of j)).
Proof.
  intros HI (ie & Hie & Hj)%abs_lookup.
  destruct (ji_idx _ _ _ HI _ _ Hie) as (j' & er & e & Hj' & Hid & Hl & Her & He & Hje & Hin).
  simplify_eq. exists ie, er. do 5 (split; [done|]). split; [|done].
  unfold entry_job. rewrite He. simpl. by rewrite Hje.
Qed.

(** ** What the job operations leave alone *)
Definition misc (s : localJSM) : JobID * JobID * Z * procStats :=
  (maxJobID s, ji_maxJobID (jobs s), nextDelayTickAt s, stat s).

Record cframe (s s' : localJSM) : Prop := {
  cf_clis : mclis (mem s') = mclis (mem s);
  cf_heap : clientHeap s' = clientHeap s;
  cf_clients : clients s' = clients s;
  cf_queues : queues_same (tubes s) (tubes s')
}.

#[export] Instance cframe_refl : Reflexive cframe.
Proof. intros s. by split. Qed.
#[export] Instance cframe_trans : Transitive cframe.
Proof.
  intros s1 s2 s3 [A1 A2 A3 A4] [B1 B2 B3 B4]. split; try congruence. by etransitivity.
Qed.

(** ** Elementary operations *)
Definition take_op (k : hkey) (er : EntRef) : JM positive :=
  match k with
  | HReady _ => on_tubes (TubeIdx.RemoveReadyJob er)
  | HDelayed _ => on_tubes (TubeIdx.RemoveDelayedJob er)
  | HBuried _ => on_tubes (TubeIdx.RemoveBuriedJob er)
  | HReserved _ => on_resv (ResvIdx.Remove er)
  end.
Definition push_op (k : hkey) (jr : JobRef) : JM EntRef :=
  match k with
  | HReady _ => on_tubes (TubeIdx.EnqueueReadyJob jr)
  | HDelayed _ => on_tubes (TubeIdx.EnqueueDelayedJob jr)
  | HBuried _ => on_tubes (TubeIdx.EnqueueBuriedJob jr)
  | HReserved c => on_resv (ResvIdx.Enqueue c jr)
  end.
Definition put_job (jr : JobRef) (j : Job) (s : localJSM) : localJSM :=
  set_mem (set_mjobs (<[jr := j]> (mjobs (mem s))) (mem s)) s.

(** The heaps changed and nothing else. *)
Record heaps_step (s s' : localJSM) : Prop := {
  hs_jobs : mjobs (mem s') = mjobs (mem s);
  hs_index : jobs s' = jobs s;
  hs_misc : misc s' = misc s;
  hs_frame : cframe s s';
  hs_stale k : no_stale (mem s) (heaps s k) -> no_stale (mem s') (heaps s' k)
}.

Lemma on_tubes_OK {A} (op : M error (Mem * tubeIndex) A) s a m ti :
  op (mem s, tubes s) = OK a (m, ti) -> on_tubes op s = OK a (set_tubes ti (set_mem m s)).
Proof. intros Hop. unfold on_tubes. by rewrite (zoom_OK _ _ _ _ _ _ Hop). Qed.
Lemma on_resv_OK {A} (op : M error (Mem * reservedJobsIndex) A) s a m ri :
  op (mem s, reservedJobs s) = OK a (m, ri) -> on_resv op s = OK a (set_reservedJobs ri (set_mem m s)).
Proof. intros Hop. unfold on_resv. by rewrite (zoom_OK _ _ _ _ _ _ Hop). Qed.
Lemma on_cheap_OK {A} (op : M error (Mem * CliHeap.clientResvHeap) A) s a m h :
  op (mem s, clientHeap s) = OK a (m, h) -> on_cheap op s = OK a (set_clientHeap h (set_mem m s)).
Proof. intros Hop. unfold on_cheap. by rewrite (zoom_OK _ _ _ _ _ _ Hop). Qed.

Lemma tube_key j : (exists c, key_of j = HReserved c /\ c = reservedBy j) \/
  exists k, key_of j = tkey k (tubeName j).
Proof.
  unfold key_of. destruct (state j); [right; by exists TBuried|right; by exists TReady| |
    right; by exists TBuried|right; by exists TDelayed|right; by exists TBuried]. left. eauto.
Qed.

Lemma take_op_spec s ji jid jr er j :
  JInv (mem s) (heaps s) ji -> ji !! jid = Some (mkIndexEntry jr (Some er)) ->
  mjobs (mem s) !! jr = Some j ->
  exists x s', take_op (key_of j) er s = OK x s' /\ heaps_step s s' /\
    JInv (mem s') (heaps s') (delete jid ji) /\ unref (mem s') (heaps s') jr.
Proof.
  intros HI Hji Hj.
  destruct (ji_idx _ _ _ HI _ _ Hji) as (j' & er' & e & Hj' & Hid & Hl & Her & He & Hje & Hin).
  simpl in *. assert (j' = j) as -> by congruence. assert (er' = er) as -> by congruence.
  assert (entry_job (mem s) er = Some j) as Hej by (unfold entry_job; rewrite He; simpl; congruence).
  pose proof (ji_hwf _ _ _ HI (key_of j)) as Hwf.
  destruct (tube_key j) as [(c & Hk & ->)|(k & Hk)]; rewrite Hk in *.
  - destruct (resv_Remove_spec (mem s) (tubes s) (reservedJobs s) er j)
      as (jr' & m' & ri' & h' & Hop & Hr & Hu); [apply HI|done..|].
    exists jr', (set_reservedJobs ri' (set_mem m' s)). rewrite <- Hk in Hr, Hu.
    split_and!; [by apply on_resv_OK|split; try done; [apply Hr|split; try done; apply Hr|]| |].
    + intros k'. eapply removed_stale; [exact HI|exact Hr|exact Hu].
    + by apply (JInv_remove _ _ _ HI _ _ _ j m' h' (heap_of (tubes s) ri') Hji Hj).
    + by apply (removed_unref _ _ _ HI _ _ _ j m' h' (heap_of (tubes s) ri') Hji Hj).
  - destruct (remove_op_spec k (mem s) (tubes s) (reservedJobs s) er j)
      as (m' & ti' & h' & Hop & Hr & [Hu Hq]); [apply HI|done..|].
    exists er, (set_tubes ti' (set_mem m' s)). rewrite <- Hk in Hr, Hu.
    split_and!; [|split; try done; [apply Hr|split; try done; apply Hr|]| |].
    + destruct k; by apply on_tubes_OK.
    + intros k'. eapply removed_stale; [exact HI|exact Hr|exact Hu].
    + by apply (JInv_remove _ _ _ HI _ _ _ j m' h' (heap_of ti' (reservedJobs s)) Hji Hj).
    + by apply (removed_unref _ _ _ HI _ _ _ j m' h' (heap_of ti' (reservedJobs s)) Hji Hj).
Qed.

Lemma push_op_spec s ji jr j :
  JInv (mem s) (heaps s) ji -> mjobs (mem s) !! jr = Some j -> unref (mem s) (heaps s) jr ->
  live j -> ji !! id j = None ->
  exists er s', push_op (key_of j) jr s = OK er s' /\ heaps_step s s' /\
    JInv (mem s') (heaps s') (<[id j := mkIndexEntry jr (Some er)]> ji).
Proof.
  intros HI Hj Hun Hl Hnew. pose proof (ji_hwf _ _ _ HI (key_of j)) as Hwf.
  pose proof (ji_mem _ _ _ HI) as Hmw.
  destruct (tube_key j) as [(c & Hk & ->)|(k & Hk)]; rewrite Hk in *.
  - destruct (resv_Enqueue_spec (mem s) (tubes s) (reservedJobs s) (reservedBy j) jr j)
      as (er & m' & ri' & h' & Hop & Hp & Hu); [done..|].
    exists er, (set_reservedJobs ri' (set_mem m' s)). rewrite <- Hk in Hp, Hu.
    split_and!; [by apply on_resv_OK|split; try done; [apply Hp|split; try done; apply Hp|]|].
    { intros k'. by eapply (pushed_stale _ _ _ HI _ _ _ _ _ _ Hj Hun Hl Hp Hu). }
    by apply (JInv_push _ _ _ HI jr er j m' h' (heap_of (tubes s) ri')).
  - destruct (enqueue_op_spec k (mem s) (tubes s) (reservedJobs s) jr j)
      as (er & m' & ti' & h' & Hop & Hp & [Hu Hq]); [done..|].
    exists er, (set_tubes ti' (set_mem m' s)). rewrite <- Hk in Hp, Hu.
    split_and!; [|split; try done; [apply Hp|split; try done; apply Hp|]|].
    + destruct k; by apply on_tubes_OK.
    + intros k'. by eapply (pushed_stale _ _ _ HI _ _ _ _ _ _ Hj Hun Hl Hp Hu).
    + by apply (JInv_push _ _ _ HI jr er j m' h' (heap_of ti' (reservedJobs s))).
Qed.

(** ** Running assignments to a job *)
Lemma load_job_OK r s j : mjobs (mem s) !! r = Some j -> load_job r s = OK j s.
Proof. intros Hj. unfold load_job. by apply (deref_OK (fun s => mjobs (mem s) !! r)). Qed.

Lemma run_update {A} r f (k : unit -> JM A) s j :
  mjobs (mem s) !! r = Some j -> bind (update_job r f) k s = k tt (put_job r (f j) s).
Proof.
  intros Hj. unfold update_job. rewrite bind_assoc.
  by rewrite (bind_OK _ _ _ _ _ (load_job_OK _ _ _ Hj)).
Qed.

Lemma put_job_lookup r j s : mjobs (mem (put_job r j s)) !! r = Some j.
Proof. apply lookup_insert_eq. Qed.

Lemma put_job_put_job r j j' s : put_job r j (put_job r j' s) = put_job r j s.
Proof. unfold put_job, set_mem, set_mjobs. simpl. by rewrite insert_insert_eq. Qed.

Lemma run_update_put {A} r f (k : unit -> JM A) s j :
  bind (update_job r f) k (put_job r j s) = k tt (put_job r (f j) s).
Proof. by rewrite (run_update _ _ _ _ j (put_job_lookup _ _ _)), put_job_put_job. Qed.

Lemma run_update_last r f s j : update_job r f (put_job r j s) = OK tt (put_job r (f j) s).
Proof.
  unfold update_job. rewrite (bind_OK _ _ _ _ _ (load_job_OK _ _ _ (put_job_lookup _ _ _))).
  unfold modify. f_equal. apply put_job_put_job.
Qed.

Lemma run_load {A} r (k : Job -> JM A) s j :
  mjobs (mem s) !! r = Some j -> bind (load_job r) k s = k j s.
Proof. intros Hj. by rewrite (bind_OK _ _ _ _ _ (load_job_OK _ _ _ Hj)). Qed.

(** ** A job moved to the heap of its new state *)
Record moved (s s' : localJSM) (jid : JobID) (j : Job) : Prop := {
  mv_inv : JobsInv s';
  mv_abs : abs s' = <[jid := j]> (abs s);
  mv_misc : misc s' = misc s;
  mv_frame : cframe s s';
  mv_stale k : no_stale (mem s) (heaps s k) -> no_stale (mem s') (heaps s' k)
}.

Lemma heaps_step_abs s s' : heaps_step s s' -> abs s' = abs s.
Proof. intros [Hj Hi _ _ _]. unfold abs. by rewrite Hi, Hj. Qed.

Lemma moved_step s s1 s' jid j : heaps_step s s1 -> moved s1 s' jid j -> moved s s' jid j.
Proof.
  intros Hh [M1 M2 M3 M4 M5]. split; [done| | | |].
  - by rewrite M2, (heaps_step_abs _ _ Hh).
  - rewrite M3. apply Hh.
  - etransitivity; [apply Hh|done].
  - intros k Hk. by apply M5, Hh.
Qed.

Lemma finish_spec s jid ie j :
  JInv (mem s) (heaps s) (delete jid (jm (jobs s))) -> unref (mem s) (heaps s) (ie_job ie) ->
  jm (jobs s) !! jid = Some ie -> is_Some (mjobs (mem s) !! ie_job ie) -> id j = jid -> live j ->
  exists s', (je <- push_op (key_of j) (ie_job ie) ;; jobs_set_entry jid je) (put_job (ie_job ie) j s)
      = OK tt s' /\ moved s s' jid j /\ mjobs (mem s') !! ie_job ie = Some j.
Proof.
  intros HI Hu Hie [j0 Hj0] Hid Hl. set (jr := ie_job ie) in *. set (s1 := put_job jr j s).
  pose proof (JInv_update _ _ _ HI jr j0 j Hj0 Hu) as HI1.
  destruct (push_op_spec s1 (delete jid (jm (jobs s))) jr j) as (er & s2 & Hop & [B1 B2 B3 B4 B5] & HI2).
  - exact HI1.
  - apply put_job_lookup.
  - exact Hu.
  - done.
  - rewrite Hid. apply lookup_delete_eq.
  - set (s3 := set_jobs (JobIdx.set_entry jid er (jobs s2)) s2). exists s3.
    assert (jm (jobs s3) = <[jid := mkIndexEntry jr (Some er)]> (jm (jobs s))) as Hjm.
    { simpl. rewrite B2. change (jobs s1) with (jobs s). apply map_eq. intros x.
      rewrite lookup_alter, lookup_insert. case_decide; simplify_eq; [by rewrite Hie|done]. }
    split_and!; [by rewrite (bind_OK _ _ _ _ _ Hop)| |
      change (mem s3) with (mem s2); rewrite B1; apply put_job_lookup]. split.
    + unfold JobsInv. rewrite Hjm, <- insert_delete_eq. rewrite Hid in HI2. exact HI2.
    + unfold abs. rewrite Hjm, omap_insert. cbn [ie_job]. change (mem s3) with (mem s2). rewrite B1.
      unfold s1. rewrite put_job_lookup. apply map_eq. intros x. rewrite !lookup_insert.
      case_decide as Hx; [done|]. rewrite !lookup_omap.
      destruct (jm (jobs s) !! x) as [ie'|] eqn:Hie'; [|done]. simpl. apply lookup_insert_ne.
      apply not_eq_sym. eapply (unref_index _ _ _ HI); [done|]. by rewrite lookup_delete_ne.
    + unfold misc in *. simpl in *. by rewrite B3.
    + split; [apply B4..].
    + intros k Hk. apply B5. intros r x Hr Hx. apply (Hk r x Hr).
      by rewrite <- (unref_entry_job _ _ _ HI jr j k r Hu Hr).
Qed.

(** * Transitions against the job table *)

(** [op] on job [jid] is the step [f] of the abstract job: an error of [f], or of
    a missing job, leaves the state as it was; otherwise the job is replaced in
    the table and [g] says what happens to the rest of the state. *)
Definition implements (op : JM unit) (jid : JobID) (f : Job -> Job + error)
    (g : Job -> localJSM -> localJSM) (s : localJSM) : Prop :=
  match abs s !! jid with
  | None => op s = ERR ErrEntryMissing s
  | Some j => match f j with
              | inr e => op s = ERR e s
              | inl j' => exists s', op s = OK tt s' /\ moved (g j' s) s' jid j'
              end
  end.
Definition no_more (_ : Job) (s : localJSM) : localJSM := s.

(** [nextDelayTickAt = min nextDelayTickAt job.readyAt] *)
Definition lower_tick (j : Job) (s : localJSM) : localJSM :=
  if readyAt j <? nextDelayTickAt s then set_nextDelayTickAt (readyAt j) s else s.

(** The abstract steps. *)
Definition release_job (pri : Z) (updatePri : bool) (j : Job) : Job :=
  UpdateReservedBy "" (UpdateState Ready
    (if updatePri then UpdatePriority pri (IncReleaseCount j) else IncTimeoutCount j)).
Definition delay_job (now pri d : Z) (j : Job) : Job :=
  IncReleaseCount (UpdateReservedBy "" (UpdateReadyAt now (UpdateDelay d
    (UpdateState Delayed (UpdatePriority pri j))))).
Definition reserve_job (now : Z) (c : ClientID) (j : Job) : Job :=
  IncReserveCount (UpdateReservedBy c (UpdateState Reserved (UpdateReservation now j))).
Definition bury_job (now pri : Z) (j : Job) : Job :=
  IncBuryCount (UpdatePriority pri (UpdateState Buried (UpdateBuriedAt now (UpdateReservedBy "" j)))).
Definition kick_job (j : Job) : Job := IncKickCount (UpdateState Ready (ResetBuriedAt j)).

Definition guard_state (st : JobState) (e : error) (k : Job + error) (j : Job) : Job + error :=
  if decide (state j <> st) then inr e else k.
Definition guard_owner (c : ClientID) (k : Job + error) (j : Job) : Job + error :=
  if unauthorized c j then inr ErrUnauthorizedOperation else k.

Definition a_release (c : ClientID) (pri : Z) (updatePri : bool) (j : Job) : Job + error :=
  guard_state Reserved ErrInvalidJobTransition (guard_owner c (inl (release_job pri updatePri j)) j) j.
Definition a_delay (now : Z) (c : ClientID) (pri d : Z) (j : Job) : Job + error :=
  guard_state Reserved ErrInvalidJobTransition (guard_owner c (inl (delay_job now pri d j)) j) j.
Definition a_reserve (now : Z) (c : ClientID) (j : Job) : Job + error :=
  guard_state Ready ErrInvalidJobTransition (inl (reserve_job now c j)) j.
Definition a_bury (now pri : Z) (c : ClientID) (j : Job) : Job + error :=
  guard_state Reserved ErrInvalidJobTransition (guard_owner c (inl (bury_job now pri j)) j) j.
Definition a_kick (j : Job) : Job + error :=
  guard_state Buried ErrInvalidJobTransition (inl (kick_job j)) j.

Lemma jobs_Get_OK s jid ie : jm (jobs s) !! jid = Some ie -> jobs_Get jid s = OK ie s.
Proof. intros Hie. unfold jobs_Get, lift, JobIdx.Get. by rewrite Hie. Qed.
Lemma jobs_Get_ERR s jid : JobsInv s -> abs s !! jid = None -> jobs_Get jid s = ERR ErrEntryMissing s.
Proof. intros HI Hie%abs_None; [|done]. unfold jobs_Get, lift, JobIdx.Get. by rewrite Hie. Qed.
Lemma entry_of_OK ie er s : ie_entry ie = Some er -> entry_of ie s = OK er s.
Proof. intros Hie. unfold entry_of. by apply (deref_OK (fun _ => ie_entry ie)). Qed.

(** Take the job [jid] of the table out of its heap. *)
Lemma take_spec s jid j ie er :
  JobsInv s -> jm (jobs s) !! jid = Some ie -> mjobs (mem s) !! ie_job ie = Some j ->
  ie_entry ie = Some er ->
  exists x s1, take_op (key_of j) er s = OK x s1 /\ heaps_step s s1 /\
    JInv (mem s1) (heaps s1) (delete jid (jm (jobs s1))) /\
    unref (mem s1) (heaps s1) (ie_job ie) /\ jm (jobs s1) !! jid = Some ie /\
    mjobs (mem s1) !! ie_job ie = Some j.
Proof.
  intros HI Hie Hj Her. destruct ie as [jr oe]. simpl in *. subst oe.
  destruct (take_op_spec s _ jid jr er j HI Hie Hj) as (x & s1 & Hop & Hh & HI1 & Hu).
  exists x, s1. destruct Hh as [B1 B2 B3 B4 B5]. rewrite B1, B2. split_and!; done.
Qed.

(** Open a transition on a job of the table: run its guards. *)
Ltac open_transition jid HI :=
  unfold implements;
  match goal with |- context [abs ?s !! jid] =>
    let Ha := fresh "Ha" in destruct (abs s !! jid) as [j|] eqn:Ha;
    [ destruct (abs_entry s jid j HI Ha) as (ie & er & Hie & Hj & Her & Hid & Hl & Hej & Hin);
      rewrite (bind_OK _ _ _ _ _ (jobs_Get_OK _ _ _ Hie)), (run_load _ _ _ _ Hj)
    | by rewrite (bind_ERR _ _ _ _ _ (jobs_Get_ERR _ _ HI Ha)) ]
  end.
Lemma live_state j st : state j = st -> st <> Initial -> st <> Deleted -> live j.
Proof. intros <-. by split. Qed.

(** Take the job out of the heap of its state [st]. *)
Ltac take_out Hst :=
  match goal with
  | HI : JobsInv ?s, Hie : jm (jobs ?s) !! ?jid = Some ?ie, Hj : mjobs (mem ?s) !! ie_job ?ie = Some ?j,
    Her : ie_entry ?ie = Some ?er |- _ =>
    rewrite (bind_OK _ _ _ _ _ (entry_of_OK _ _ _ Her));
    destruct (take_spec s jid j ie er HI Hie Hj Her) as (x & s1 & Ht & Hh & HI1 & Hu & Hie1 & Hj1);
    unfold key_of in Ht; rewrite Hst in Ht; cbn [take_op] in Ht; rewrite (bind_OK _ _ _ _ _ Ht)
  end.
(** The job goes into the heap of its new state. *)
Ltac put_in :=
  match goal with
  | Hh : heaps_step ?s ?s1, HI1 : JInv (mem ?s1) _ _, Hie1 : jm (jobs ?s1) !! ?jid = Some ?ie
    |- context [put_job _ ?j' ?s1] =>
    destruct (finish_spec s1 jid ie j') as (s2 & Hop & Hm & Hj2);
    [ done | done | done | by eauto | by autorewrite with go
    | by eapply live_state; [by autorewrite with go|..] |];
    autorewrite with go in Hop; cbn [push_op] in Hop
  end.

(** What the abstract steps do to the key and the identity of the job. *)
Ltac solve_step := repeat match goal with b : bool |- _ => destruct b end; solve_job.

Lemma release_key pri b j : key_of (release_job pri b j) = HReady (tubeName j).
Proof. solve_step. Qed.
Lemma delay_key now pri d j : key_of (delay_job now pri d j) = HDelayed (tubeName j).
Proof. solve_step. Qed.
Lemma reserve_key now c j : key_of (reserve_job now c j) = HReserved c.
Proof. solve_step. Qed.
Lemma bury_key now pri j : key_of (bury_job now pri j) = HBuried (tubeName j).
Proof. solve_step. Qed.
Lemma kick_key j : key_of (kick_job j) = HReady (tubeName j).
Proof. solve_step. Qed.

Lemma release_id pri b j : id (release_job pri b j) = id j.
Proof. solve_step. Qed.
Lemma delay_id now pri d j : id (delay_job now pri d j) = id j.
Proof. solve_step. Qed.
Lemma reserve_id now c j : id (reserve_job now c j) = id j.
Proof. solve_step. Qed.
Lemma bury_id now pri j : id (bury_job now pri j) = id j.
Proof. solve_step. Qed.
Lemma kick_id j : id (kick_job j) = id j.
Proof. solve_step. Qed.

Lemma release_state pri b j : state (release_job pri b j) = Ready.
Proof. solve_step. Qed.
Lemma delay_state now pri d j : state (delay_job now pri d j) = Delayed.
Proof. solve_step. Qed.
Lemma reserve_state now c j : state (reserve_job now c j) = Reserved.
Proof. solve_step. Qed.
Lemma bury_state now pri j : state (bury_job now pri j) = Buried.
Proof. solve_step. Qed.
Lemma kick_state j : state (kick_job j) = Ready.
Proof. solve_step. Qed.
#[export] Hint Rewrite release_key delay_key reserve_key bury_key kick_key release_id delay_id
  reserve_id bury_id kick_id release_state delay_state reserve_state bury_state kick_state : go.

Theorem fromReservedToReady_implements s jid cid pri updatePri :
  JobsInv s ->
  implements (fromReservedToReady jid cid pri updatePri) jid (a_release cid pri updatePri) no_more s.
Proof.
  intros HI. unfold fromReservedToReady, a_release, guard_state, guard_owner. open_transition jid HI.
  case_decide as Hst; [done|]. destruct (unauthorized cid j); [done|]. take_out Hst.
  assert (forall k : unit -> JM unit, bind (if updatePri then
       update_job (ie_job ie) IncReleaseCount ;; update_job (ie_job ie) (UpdatePriority pri)
     else update_job (ie_job ie) IncTimeoutCount) k s1 =
     k tt (put_job (ie_job ie) (if updatePri then UpdatePriority pri (IncReleaseCount j)
                                else IncTimeoutCount j) s1)) as Hupd.
  { intros k. destruct updatePri; rewrite ?bind_assoc, (run_update _ _ _ _ _ Hj1); [|done].
    by rewrite run_update_put. }
  rewrite Hupd, !run_update_put. fold (release_job pri updatePri j). put_in.
  exists s2. split; [exact Hop|by eapply moved_step].
Qed.

Theorem fromReadyToReserved_implements s now jid cid :
  JobsInv s -> implements (fromReadyToReserved now jid cid) jid (a_reserve now cid) no_more s.
Proof.
  intros HI. unfold fromReadyToReserved, a_reserve, guard_state. open_transition jid HI.
  case_decide as Hst; [done|]. take_out Hst.
  rewrite (run_update _ _ _ _ _ Hj1), !run_update_put. fold (reserve_job now cid j). put_in.
  exists s2. split; [exact Hop|by eapply moved_step].
Qed.

Theorem fromReservedToBuried_implements s now jid pri cid :
  JobsInv s -> implements (fromReservedToBuried now jid pri cid) jid (a_bury now pri cid) no_more s.
Proof.
  intros HI. unfold fromReservedToBuried, a_bury, guard_state, guard_owner. open_transition jid HI.
  case_decide as Hst; [done|]. destruct (unauthorized cid j); [done|]. take_out Hst.
  rewrite (run_update _ _ _ _ _ Hj1), !run_update_put. fold (bury_job now pri j). put_in.
  exists s2. split; [exact Hop|by eapply moved_step].
Qed.

Theorem fromBuriedToReady_implements s jid :
  JobsInv s -> implements (fromBuriedToReady jid) jid a_kick no_more s.
Proof.
  intros HI. unfold fromBuriedToReady, a_kick, guard_state. open_transition jid HI.
  case_decide as Hst; [done|]. take_out Hst.
  rewrite (run_update _ _ _ _ _ Hj1), !run_update_put. fold (kick_job j). put_in.
  exists s2. split; [exact Hop|by eapply moved_step].
Qed.

Lemma lower_tick_moved s s' jid j x :
  moved s s' jid j -> moved (lower_tick x s) (lower_tick x s') jid j.
Proof.
  intros [M1 M2 M3 M4 M5]. unfold misc in M3. injection M3 as A1 A2 A3 A4.
  unfold lower_tick. rewrite A3. destruct (readyAt x <? nextDelayTickAt s); [|by split; try done; unfold misc; congruence].
  split; [done|done|unfold misc; simpl; congruence| |done]. by split; apply M4.
Qed.

Theorem fromReservedToDelayed_implements s now jid cid pri d :
  JobsInv s ->
  implements (fromReservedToDelayed now jid cid pri d) jid (a_delay now cid pri d) lower_tick s.
Proof.
  intros HI. unfold fromReservedToDelayed, a_delay, guard_state, guard_owner. open_transition jid HI.
  case_decide as Hst; [done|]. destruct (unauthorized cid j); [done|]. take_out Hst.
  rewrite (run_update _ _ _ _ _ Hj1), !run_update_put. fold (delay_job now pri d j). put_in.
  rewrite (bind_OK2 _ _ _ _ _ _ Hop), (run_load _ _ _ _ Hj2). unfold modify.
  eexists. split; [done|]. fold (lower_tick (delay_job now pri d j) s2).
  apply lower_tick_moved. by eapply moved_step.
Qed.

(** * The heaps and the table *)

Lemma heap_elem_abs s k er :
  JobsInv s -> er ∈ entries (heaps s k) ->
  exists j, entry_job (mem s) er = Some j /\ key_of j = k /\
    (state j = Deleted \/ abs s !! id j = Some j /\
       exists ie, jm (jobs s) !! id j = Some ie /\ ie_entry ie = Some er /\
                  mjobs (mem s) !! ie_job ie = Some j).
Proof.
  intros HI Hin. destruct (JInv_entry _ _ _ HI _ _ Hin) as [e He].
  destruct (ji_back _ _ _ HI _ _ _ Hin He) as (j & Hj & Hk & Hcase).
  exists j. split_and!; [unfold entry_job; by rewrite He|done|].
  destruct Hcase as [?|Hie]; [by left|right].
  split; [apply abs_lookup; eauto|]. eexists. split; [done|]. done.
Qed.

(** Only buried heaps keep deleted jobs. *)
Definition keeps_deleted (k : hkey) : bool := match k with HBuried _ => true | _ => false end.

Lemma not_stale s k : JobsInv s -> keeps_deleted k = false -> no_stale (mem s) (heaps s k).
Proof.
  intros HI Hk er j Hin Hj Hd. destruct (heap_elem_abs _ _ _ HI Hin) as (j' & Hj' & Hkj & _).
  simplify_eq. unfold key_of in Hk. by rewrite Hd in Hk.
Qed.

(** The root of a heap without deleted jobs is the one least job of the table
    among those that belong to the heap. *)
Definition least (T : gmap JobID Job) (k : hkey) (j : Job) : Prop :=
  T !! id j = Some j /\ key_of j = k /\
  forall jid' j', T !! jid' = Some j' -> key_of j' = k -> jid' <> id j ->
    before (kind_of k) j j'.

Lemma least_unique T k j j' :
  (forall jid x, T !! jid = Some x -> id x = jid) -> least T k j -> least T k j' -> j = j'.
Proof.
  intros Hid (A1 & A2 & A3) (B1 & B2 & B3). destruct (decide (id j = id j')) as [E|E]; [congruence|].
  pose proof (A3 _ _ B1 B2 (not_eq_sym E)) as L1. pose proof (B3 _ _ A1 A2 E) as L2.
  by apply before_asym in L1.
Qed.

Lemma root_least s k er :
  JobsInv s -> no_stale (mem s) (heaps s k) -> entries (heaps s k) !! 0%nat = Some er ->
  exists j, entry_job (mem s) er = Some j /\ least (abs s) k j.
Proof.
  intros HI Hns Hr. pose proof (list_elem_of_lookup_2 _ _ _ Hr) as Hin.
  destruct (heap_elem_abs _ _ _ HI Hin) as (j & Hj & Hk & [Hd|[Ha _]]).
  { by destruct (Hns _ _ Hin Hj). }
  exists j. split_and!; [done|]. split_and!; [done..|]. intros jid' j' Ha' Hk' Hne.
  destruct (abs_entry _ _ _ HI Ha') as (ie & er' & _ & _ & _ & Hid & _ & Hj' & Hin').
  rewrite Hk' in Hin'. apply before_total; [congruence|].
  rewrite <- (ji_kind _ _ _ HI k). apply (Peek_least (mem s) (heaps s k) er er'); try done.
  - by apply HI.
  - unfold Peek, Len. destruct (entries (heaps s k)); [done|]. exact Hr.
Qed.

Lemma abs_id s jid j : JobsInv s -> abs s !! jid = Some j -> id j = jid.
Proof. intros HI Ha. by destruct (abs_entry _ _ _ HI Ha) as (? & ? & ? & ? & ? & ? & _). Qed.

(** ** From Delayed to Ready: only the first job of the tube *)
Definition earlier (T : gmap JobID Job) (j : Job) : Prop :=
  map_Exists (fun _ j' => key_of j' = key_of j /\ before DelayedLess j' j) T.
#[export] Instance earlier_dec T j : Decision (earlier T j) := _.

Definition a_ready (T : gmap JobID Job) (j : Job) : Job + error :=
  guard_state Delayed ErrInvalidJobTransition
    (if decide (earlier T j) then inr ErrInvalidJobTransition else inl (UpdateState Ready j)) j.

Lemma delayed_root s jid j ie er e :
  JobsInv s -> jm (jobs s) !! jid = Some ie -> mjobs (mem s) !! ie_job ie = Some j ->
  ie_entry ie = Some er -> ments (mem s) !! er = Some e -> er ∈ entries (heaps s (key_of j)) ->
  state j = Delayed -> (je_index e =? 0) = negb (bool_decide (earlier (abs s) j)).
Proof.
  intros HI Hie Hj Her He Hin Hst.
  assert (abs s !! jid = Some j) as Ha by (apply abs_lookup; eauto).
  pose proof (abs_id _ _ _ HI Ha) as Hid. assert (key_of j = HDelayed (tubeName j)) as Hk.
  { unfold key_of. by rewrite Hst. }
  destruct (jh_wf_entry _ _ _ (ji_hwf _ _ _ HI _) Hin) as (i & e' & j' & Hi & He' & Hx & Hj'). simplify_eq.
  assert (is_Some (entries (heaps s (key_of j)) !! 0%nat)) as [r0 Hr0].
  { apply lookup_lt_is_Some. apply lookup_lt_Some in Hi. lia. }
  destruct (root_least s (key_of j) r0) as (j0 & Hj0 & Hl); [done|apply not_stale; [done|by rewrite Hk]|done|].
  rewrite Hx. destruct (Z.eqb_spec (Z.of_nat i) 0) as [E|E]; symmetry.
  - apply negb_true_iff, bool_decide_eq_false. intros (jid' & j1 & Ha1 & Hk1 & Hless).
    assert (i = 0%nat) as -> by lia. simplify_eq.
    destruct (abs_entry _ _ _ HI Ha) as (ie1 & er1 & A1 & _ & A2 & _ & _ & A3 & _). simplify_eq.
    destruct Hl as (_ & _ & Hl). rewrite Hk in Hl.
    destruct (decide (jid' = id j0)) as [->|Hne].
    + simplify_eq. by destruct (before_asym _ _ _ Hless).
    + by destruct (before_asym _ _ _ (Hl _ _ Ha1 ltac:(congruence) Hne)).
  - apply negb_false_iff, bool_decide_eq_true. destruct Hl as (B1 & B2 & Hl).
    exists (id j0), j0. split_and!; [done..|]. rewrite Hk in Hl.
    apply (Hl (id j)); [done|by rewrite Hk|]. intros Heq.
    destruct (heap_elem_abs s _ r0 HI ltac:(by eapply list_elem_of_lookup_2)) as (j2 & C1 & C2 & C3).
    rewrite Hj0 in C1. simplify_eq. destruct C3 as [C3|[_ (ie2 & D1 & D2 & _)]].
    + unfold key_of in B2, Hk. rewrite C3, Hst in B2. done.
    + rewrite <- Heq in D1. simplify_eq. apply E.
      pose proof (JInv_NoDup _ _ _ HI (key_of j)) as Hnd.
      rewrite (NoDup_lookup _ _ _ _ Hnd Hi Hr0). done.
Qed.

Theorem fromDelayedToReady_implements s jid :
  JobsInv s -> implements (fromDelayedToReady jid) jid (a_ready (abs s)) no_more s.
Proof.
  intros HI. unfold fromDelayedToReady, a_ready, guard_state. open_transition jid HI.
  case_decide as Hst; [done|]. rewrite (bind_OK _ _ _ _ _ (entry_of_OK _ _ _ Her)).
  destruct (JInv_entry _ _ _ HI _ _ Hin) as [e He].
  rewrite (bind_OK _ _ _ _ _ (deref_OK (fun s => ments (mem s) !! er) s e He)).
  rewrite (delayed_root s jid j ie er e) by done. rewrite negb_involutive.
  destruct (decide (earlier (abs s) j)); [by rewrite bool_decide_eq_true_2|].
  rewrite bool_decide_eq_false_2 by done.
  destruct (take_spec s jid j ie er HI Hie Hj Her) as (x & s1 & Ht & Hh & HI1 & Hu & Hie1 & Hj1).
  unfold key_of in Ht. rewrite Hst in Ht. cbn [take_op] in Ht. rewrite (bind_OK _ _ _ _ _ Ht).
  rewrite (run_update _ _ _ _ _ Hj1).
  destruct (finish_spec s1 jid ie (UpdateState Ready j)) as (s2 & Hop & Hm & _);
    [done..|by eauto|by autorewrite with go|eapply live_state; [apply UpdateState_state|done..]|].
  - unfold key_of in Hop. rewrite UpdateState_state in Hop. exists s2.
    split; [exact Hop|by eapply moved_step].
Qed.
