(* ===== verification/Commands.v ===== *)
(** The commands of [jsm.go] on jobs, against the job table: put, delete, release,
    bury, kick, kick-n and the peeks. *)
From stdpp Require Import base gmap list strings.
From Stdlib Require Import ZArith Lia.
From S2P Require Import Prelude GoHeap Job JobHeap ClientResv Index JSM Heaps JobInv.
From S2P Require Import Transitions.
Local Open Scope Z_scope.

(** The state with one statistics counter incremented. *)
Definition bump (f : statField) (s : localJSM) : localJSM := set_stat (incr_stat f (stat s)) s.

Lemma run_incr {A} f (k : unit -> JM A) s : bind (incr f) k s = k tt (bump f s).
Proof. done. Qed.

Lemma bump_inv f s : JobsInv s -> JobsInv (bump f s).
Proof. done. Qed.
Lemma bump_abs f s : abs (bump f s) = abs s.
Proof. done. Qed.

Lemma bump_frame f s : cframe s (bump f s).
Proof. by split. Qed.

(** * Delete *)
Definition may_delete (cid : ClientID) (j : Job) : bool :=
  negb (bool_decide (state j = Reserved) && negb (String.eqb (reservedBy j) cid)).

Record deleted (s s' : localJSM) (jid : JobID) : Prop := {
  dl_inv : JobsInv s';
  dl_abs : abs s' = delete jid (abs s);
  dl_misc : misc s' = misc s;
  dl_frame : cframe s s'
}.

(** The jobs that stay do not share the object of the deleted one. *)
Lemma abs_delete s s' jid jr er j' :
  JobsInv s -> jm (jobs s) !! jid = Some (mkIndexEntry jr (Some er)) ->
  jm (jobs s') = delete jid (jm (jobs s)) -> mjobs (mem s') = <[jr := j']> (mjobs (mem s)) ->
  abs s' = delete jid (abs s).
Proof.
  intros HI Hie Hjm Hmj. apply map_eq. intros x. unfold abs. rewrite lookup_omap, Hjm, !lookup_delete.
  case_decide as Hx; [done|]. rewrite lookup_omap.
  destruct (jm (jobs s) !! x) as [ie'|] eqn:Hie'; [|done]. simpl. rewrite Hmj. apply lookup_insert_ne.
  destruct (ji_idx _ _ _ HI _ _ Hie) as (j0 & ? & ? & H1 & H2 & _).
  destruct (ji_idx _ _ _ HI _ _ Hie') as (j1 & ? & ? & H3 & H4 & _). simpl in *. congruence.
Qed.

(** The end of [Delete]: the index entry is gone, the heap entry too unless buried. *)
Lemma delete_tail s s1 jid jr er j :
  JobsInv s -> jm (jobs s) !! jid = Some (mkIndexEntry jr (Some er)) -> mjobs (mem s) !! jr = Some j ->
  heaps_step (set_jobs (mkJobIndex (delete jid (jm (jobs s))) (ji_maxJobID (jobs s))) s) s1 ->
  let j' := UpdateReservedBy "" (UpdateState Deleted j) in
  JInv (mem (put_job jr j' s1)) (heaps s1) (delete jid (jm (jobs s))) ->
  exists s', (update_job jr (UpdateState Deleted) ;; update_job jr (UpdateReservedBy "")) s1 = OK tt s' /\
    deleted s s' jid.
Proof.
  intros HI Hie Hj [B1 B2 B3 B4 B5] j' HI1. exists (put_job jr j' s1). split.
  - rewrite (run_update _ _ _ _ j) by (rewrite B1; done). apply run_update_last.
  - split.
    + unfold JobsInv. simpl. rewrite B2. exact HI1.
    + apply (abs_delete s _ jid jr er j' HI Hie); simpl; [by rewrite B2|by rewrite B1].
    + unfold misc in *. simpl in *. rewrite B2 in *. simpl in *. done.
    + split; simpl; apply B4.
Qed.

Theorem Delete_spec s jid cid :
  JobsInv s ->
  match abs s !! jid with
  | None => Delete jid cid s = ERR ErrEntryMissing (bump nCmdDelete s)
  | Some j =>
    if may_delete cid j then
      exists s', Delete jid cid s = OK tt s' /\ deleted (bump nCmdDelete s) s' jid
    else Delete jid cid s = ERR ErrUnauthorizedOperation (bump nCmdDelete s)
  end.
Proof.
  intros HI. unfold Delete. rewrite run_incr. rewrite <- (bump_abs nCmdDelete s).
  pose proof (bump_inv nCmdDelete s HI) as HI0. clear HI. revert HI0. generalize (bump nCmdDelete s).
  clear s. intros s HI. destruct (abs s !! jid) as [j|] eqn:Ha.
  2: by rewrite (bind_ERR _ _ _ _ _ (jobs_Get_ERR _ _ HI Ha)).
  destruct (abs_entry s jid j HI Ha) as ([jr oe] & er & Hie & Hj & Her & Hid & Hl & Hej & Hin).
  simpl in *. subst oe.
  rewrite (bind_OK _ _ _ _ _ (jobs_Get_OK _ _ _ Hie)). cbn [ie_job]. rewrite (run_load _ _ _ _ Hj).
  unfold may_delete. destruct (_ && _); cbn [negb]; [done|].
  set (s0 := set_jobs (mkJobIndex (delete jid (jm (jobs s))) (ji_maxJobID (jobs s))) s).
  rewrite (bind_OK _ _ s (mkIndexEntry jr (Some er), jobs s0) s).
  2: { unfold lift, JobIdx.Remove. by rewrite Hie. }
  cbn [fst snd]. rewrite (bind_OK (modify (set_jobs (jobs s0))) _ s tt s0) by done.
  cbv zeta. cbn [ie_job]. rewrite (run_load _ _ s0 j) by done.
  destruct (take_op_spec s0 (jm (jobs s)) jid jr er j HI Hie Hj) as (x & s1 & Ht & Hh & HI1 & Hu).
  assert (mjobs (mem s1) !! jr = Some j) as Hj1 by (rewrite (hs_jobs _ _ Hh); done).
  assert (forall j', JInv (mem (put_job jr j' s1)) (heaps s1) (delete jid (jm (jobs s)))) as HI2.
  { intros j'. by apply (JInv_update _ _ _ HI1 jr j). }
  assert (bind (entry_of (mkIndexEntry jr (Some er))) (fun er => take_op (key_of j) er ;; ret tt) s0
          = OK tt s1) as Hrun.
  { rewrite (bind_OK _ _ _ _ _ (entry_of_OK (mkIndexEntry jr (Some er)) er s0 eq_refl)). by rewrite (bind_OK _ _ _ _ _ Ht). }
  unfold key_of in Hrun. destruct Hl as [Hl1 Hl2].
  destruct (state j) eqn:Hst; try done; cbn [take_op] in Hrun.
  - rewrite (bind_OK _ _ _ _ _ Hrun). exact (delete_tail s s1 jid jr er j HI Hie Hj Hh (HI2 _)).
  - rewrite (bind_OK _ _ _ _ _ Hrun). exact (delete_tail s s1 jid jr er j HI Hie Hj Hh (HI2 _)).
  - rewrite (bind_OK (ret tt) _ s0 tt s0 eq_refl). apply (delete_tail s s0 jid jr er j HI Hie Hj); [by split|].
    apply (JInv_delete_buried _ _ _ HI jid jr er j _ Hie Hj);
      destruct j as [[]]; simpl in Hst; subst; reflexivity.
  - rewrite (bind_OK _ _ _ _ _ Hrun). exact (delete_tail s s1 jid jr er j HI Hie Hj Hh (HI2 _)).
Qed.

(** * Put *)
Section put.
Context (now pri d ttr bodySize : Z) (body : slice) (tube : TubeName).

Definition initial_job (jid : JobID) : Job :=
  mkJob LocalJob jid pri d ttr bodySize body tube now (wrap_i64 (now + d)) Initial 0 "" 0 0 0 0 0 0.
Definition new_job (jid : JobID) : Job :=
  UpdateState (if 0 <? d then Delayed else Ready) (initial_job jid).

(** What [Put] does beside adding the job. *)
Definition next_id (s : localJSM) : JobID := wrap_u64 (maxJobID s + 1).
Definition put_rest (s : localJSM) : localJSM :=
  let s1 := set_maxJobID (next_id s) (bump nCmdPut s) in
  if 0 <? d then lower_tick (initial_job (next_id s)) s1 else s1.

(** The state in which the job is added: the new object is allocated. *)
Definition put_alloc (s : localJSM) : localJSM :=
  set_mem (alloc_job (initial_job (next_id s)) (mem s)).2 (put_rest s).

Lemma put_rest_parts s :
  mem (put_rest s) = mem s /\ tubes (put_rest s) = tubes s /\ jobs (put_rest s) = jobs s /\
  reservedJobs (put_rest s) = reservedJobs s /\ clientHeap (put_rest s) = clientHeap s /\
  clients (put_rest s) = clients s /\ maxJobID (put_rest s) = next_id s /\
  stat (put_rest s) = incr_stat nCmdPut (stat s).
Proof. unfold put_rest, lower_tick. by repeat case_match. Qed.

Definition add_op (jid : JobID) (jr : JobRef) : JM unit :=
  jobs_Add jid jr ;; update_job jr (UpdateState (if 0 <? d then Delayed else Ready)) ;;
  je <- push_op (key_of (new_job jid)) jr ;; jobs_set_entry jid je.

Lemma Put_unfold s :
  Put now pri d ttr bodySize body tube s =
    (add_op (next_id s) (mnext (mem s)) ;; incr nTotalJobs ;;
     j <- load_job (mnext (mem s)) ;; ret (id j)) (put_alloc s).
Proof.
  unfold Put. rewrite run_incr. unfold NewJob. rewrite bind_assoc.
  set (s1 := set_maxJobID (next_id s) (bump nCmdPut s)). set (jr := mnext (mem s)).
  rewrite (bind_OK NextJobID _ (bump nCmdPut s) (next_id s) s1 eq_refl). cbv zeta.
  fold (initial_job (next_id s)). rewrite bind_assoc.
  set (m1 := (alloc_job (initial_job (next_id s)) (mem s)).2).
  erewrite (bind_OK _ _ s1 jr (set_mem m1 s1) eq_refl).
  assert (forall s', mjobs (mem (set_mem m1 s')) !! jr = Some (initial_job (next_id s))) as Hl.
  { intros s'. apply lookup_insert_eq. }
  unfold put_alloc, put_rest, add_op. fold s1 m1 jr. unfold new_job.
  destruct (0 <? d) eqn:Hd; unfold key_of; rewrite UpdateState_state.
  - rewrite bind_assoc.
    erewrite (bind_OK _ _ (set_mem m1 s1) tt (set_mem m1 (lower_tick (initial_job (next_id s)) s1))).
    2: { unfold modify, lower_tick. simpl. by case_match. }
    rewrite bind_assoc. unfold fromInitialToDelayed. rewrite bind_assoc, (run_load _ _ _ _ (Hl _)).
    done.
  - rewrite bind_assoc. unfold fromInitialToReady. rewrite bind_assoc, (run_load _ _ _ _ (Hl _)). done.
Qed.

Lemma put_alloc_inv s : JobsInv s -> JobsInv (put_alloc s) /\ unref (mem (put_alloc s)) (heaps s) (mnext (mem s)).
Proof.
  intros HI. destruct (JInv_alloc _ _ _ HI (initial_job (next_id s))) as [HI1 Hu].
  destruct (put_rest_parts s) as (P1 & P2 & P3 & P4 & _). split; [|done].
  unfold JobsInv, put_alloc, heaps. simpl. by rewrite P2, P3, P4.
Qed.

Lemma put_alloc_abs s : JobsInv s -> abs (put_alloc s) = abs s.
Proof.
  intros HI. destruct (put_rest_parts s) as (P1 & P2 & P3 & P4 & _).
  unfold abs, put_alloc. simpl. rewrite P3. apply map_eq. intros x. rewrite !lookup_omap.
  destruct (jm (jobs s) !! x) as [ie|] eqn:Hie; [|done]. simpl. apply lookup_insert_ne.
  destruct (ji_idx _ _ _ HI _ _ Hie) as (j & _ & _ & Hj & _).
  apply (mw_jobs _ (ji_mem _ _ _ HI)) in Hj. lia.
Qed.

Lemma put_alloc_frame s : cframe s (put_alloc s).
Proof.
  destruct (put_rest_parts s) as (P1 & P2 & P3 & P4 & P5 & P6 & _).
  split; simpl; rewrite ?P2; done.
Qed.

Lemma new_job_facts jid : id (new_job jid) = jid /\ live (new_job jid).
Proof. unfold new_job. by destruct (0 <? d). Qed.

(** A fresh identifier: the job is added. *)
Lemma add_op_spec s :
  JobsInv s -> abs s !! next_id s = None ->
  exists s', add_op (next_id s) (mnext (mem s)) (put_alloc s) = OK tt s' /\
    moved (put_rest s) s' (next_id s) (new_job (next_id s)) /\
    mjobs (mem s') !! mnext (mem s) = Some (new_job (next_id s)).
Proof.
  intros HI Hnew. set (jid := next_id s). set (jr := mnext (mem s)). set (s0 := put_alloc s).
  destruct (put_rest_parts s) as (P1 & P2 & P3 & P4 & P5 & P6 & _).
  destruct (put_alloc_inv s HI) as [HI0 Hu]. fold s0 jr in HI0, Hu.
  pose proof (put_alloc_abs s HI) as Habs. fold s0 in Habs.
  assert (jm (jobs s0) !! jid = None) as Hnone by (by apply (abs_None s0 jid HI0); rewrite Habs).
  set (s1 := set_jobs (mkJobIndex (<[jid := mkIndexEntry jr None]> (jm (jobs s0))) (ji_maxJobID (jobs s0))) s0).
  destruct (finish_spec s1 jid (mkIndexEntry jr None) (new_job jid)) as (s2 & Hop & Hm & Hj2).
  - simpl. rewrite delete_insert_id by done. exact HI0.
  - unfold heaps in *. simpl. rewrite P2, P4. exact Hu.
  - simpl. apply lookup_insert_eq.
  - simpl. rewrite lookup_insert_eq. eauto.
  - apply new_job_facts.
  - apply new_job_facts.
  - exists s2. split_and!; [|split|done].
    + unfold add_op. unfold jobs_Add. rewrite bind_assoc.
      rewrite (bind_OK _ _ s0 (jobs s1) s0); [|unfold lift, JobIdx.Add; by rewrite Hnone].
      rewrite (bind_OK (modify (set_jobs (jobs s1))) _ s0 tt s1) by done.
      rewrite (run_update _ _ _ _ (initial_job jid)); [exact Hop|]. simpl. apply lookup_insert_eq.
    + apply Hm.
    + rewrite (mv_abs _ _ _ _ Hm). apply map_eq. intros x. rewrite !lookup_insert.
      case_decide as Hx; [done|]. assert (abs s1 !! x = abs s0 !! x) as ->.
      { unfold abs. rewrite !lookup_omap. cbn [jobs s1 jm set_jobs]. by rewrite lookup_insert_ne. }
      rewrite Habs. unfold abs. by rewrite P1, P3.
    + rewrite (mv_misc _ _ _ _ Hm). unfold misc. simpl. done.
    + etransitivity; [|apply Hm]. split; simpl; rewrite ?P1; done.
    + intros k Hk. apply (mv_stale _ _ _ _ Hm). intros r x Hr Hx.
      unfold heaps in Hr, Hk. cbn in Hr. rewrite P1, P2, P4 in Hk. rewrite P2, P4 in Hr.
      apply (Hk r x Hr). rewrite <- Hx. symmetry.
      destruct (JInv_entry _ _ _ HI k r Hr) as [e He].
      destruct (ji_back _ _ _ HI _ _ _ Hr He) as (j0 & Hj0 & _).
      unfold entry_job. cbn. rewrite He. cbn. rewrite lookup_insert_ne; [done|].
      apply (mw_jobs _ (ji_mem _ _ _ HI)) in Hj0. lia.
Qed.

Theorem Put_fresh s :
  JobsInv s -> abs s !! next_id s = None ->
  exists s', Put now pri d ttr bodySize body tube s = OK (next_id s) s' /\
    moved (bump nTotalJobs (put_rest s)) s' (next_id s) (new_job (next_id s)).
Proof.
  intros HI Hnew. destruct (add_op_spec s HI Hnew) as (s' & Hop & Hm & Hj).
  exists (bump nTotalJobs s'). rewrite Put_unfold, (bind_OK _ _ _ _ _ Hop), run_incr.
  rewrite (run_load _ _ (bump nTotalJobs s') _ Hj), (proj1 (new_job_facts _)). split; [done|].
  destruct Hm as [M1 M2 M3 M4 M5]. split; [done|done| | |done].
  - unfold misc in *. simpl. injection M3 as A1 A2 A3 A4. by rewrite A1, A2, A3, A4.
  - split; apply M4.
Qed.

(** The identifier is taken (the counter wrapped around): an error, and no job. *)
Theorem Put_exists s j :
  JobsInv s -> abs s !! next_id s = Some j ->
  exists s', Put now pri d ttr bodySize body tube s = ERR ErrEntryExists s' /\
    JobsInv s' /\ abs s' = abs s /\ misc s' = misc (put_rest s) /\ cframe s s'.
Proof.
  intros HI Hold. exists (put_alloc s). destruct (put_rest_parts s) as (P1 & P2 & P3 & P4 & P5 & P6 & _).
  split_and!; [|by apply put_alloc_inv|by apply put_alloc_abs|done|apply put_alloc_frame].
  rewrite Put_unfold. apply bind_ERR. unfold add_op. apply bind_ERR. unfold jobs_Add. apply bind_ERR.
  apply abs_lookup in Hold as (ie & Hie & _). unfold lift, JobIdx.Add. simpl. by rewrite P3, Hie.
Qed.
End put.
