(* ===== verification/Refine.v ===== *)
(** Refinement: the commands on jobs against an abstract machine.

    The abstract machine keeps a finite map of jobs, the last identifier handed
    out and the next time a delayed job is due; it knows no heaps, entries,
    indexes or pointers. *)
From stdpp Require Import base gmap list strings.
From Stdlib Require Import ZArith Lia.
From S2P Require Import Prelude GoHeap Job JobHeap ClientResv Index JSM Heaps JobInv.
From S2P Require Import Transitions Commands.
Local Open Scope Z_scope.

(** * The abstract machine *)
Record table : Type := mkTable { t_jobs : gmap JobID Job; t_max : JobID; t_tick : Z }.

Inductive cmd : Type :=
| CPut (now pri d ttr bodySize : Z) (body : slice) (tube : TubeName)
| CDelete (jid : JobID) (cid : ClientID)
| CReserve (now : Z) (jid : JobID) (cid : ClientID)
| CRelease (jid : JobID) (cid : ClientID)
| CReleaseWith (now : Z) (jid : JobID) (cid : ClientID) (pri d : Z)
| CBury (now : Z) (jid : JobID) (pri : Z) (cid : ClientID)
| CKick (jid : JobID)
| CReady (jid : JobID).

(** The Go call a command stands for; calls without a result return 0. *)
Definition exec (c : cmd) : JM JobID :=
  match c with
  | CPut now pri d ttr bodySize body tube => Put now pri d ttr bodySize body tube
  | CDelete jid cid => Delete jid cid ;; ret 0
  | CReserve now jid cid => Reserve now jid cid ;; ret 0
  | CRelease jid cid => Release jid cid ;; ret 0
  | CReleaseWith now jid cid pri d => ReleaseWith now jid cid pri d ;; ret 0
  | CBury now jid pri cid => Bury now jid pri cid ;; ret 0
  | CKick jid => Kick jid ;; ret 0
  | CReady jid => ReadyJob jid ;; ret 0
  end.

(** A step of one job of the table. *)
Definition job_step (jid : JobID) (f : Job -> Job + error) (lower : bool) (t : table)
    : (JobID + error) * table :=
  match t_jobs t !! jid with
  | None => (inr ErrEntryMissing, t)
  | Some j => match f j with
              | inr e => (inr e, t)
              | inl j' => (inl 0, mkTable (<[jid := j']> (t_jobs t)) (t_max t)
                                    (if lower then Z.min (readyAt j') (t_tick t) else t_tick t))
              end
  end.

Definition astep (c : cmd) (t : table) : (JobID + error) * table :=
  match c with
  | CPut now pri d ttr bodySize body tube =>
    let jid := wrap_u64 (t_max t + 1) in
    let tick := if 0 <? d then Z.min (wrap_i64 (now + d)) (t_tick t) else t_tick t in
    match t_jobs t !! jid with
    | Some _ => (inr ErrEntryExists, mkTable (t_jobs t) jid tick)
    | None => (inl jid, mkTable (<[jid := new_job now pri d ttr bodySize body tube jid]> (t_jobs t)) jid tick)
    end
  | CDelete jid cid =>
    match t_jobs t !! jid with
    | None => (inr ErrEntryMissing, t)
    | Some j => if may_delete cid j then (inl 0, mkTable (delete jid (t_jobs t)) (t_max t) (t_tick t))
                else (inr ErrUnauthorizedOperation, t)
    end
  | CReserve now jid cid => job_step jid (a_reserve now cid) false t
  | CRelease jid cid => job_step jid (a_release cid 0 false) false t
  | CReleaseWith now jid cid pri d =>
    if d =? 0 then job_step jid (a_release cid pri true) false t
    else job_step jid (a_delay now cid pri d) true t
  | CBury now jid pri cid => job_step jid (a_bury now pri cid) false t
  | CKick jid => job_step jid a_kick false t
  | CReady jid => job_step jid (a_ready (t_jobs t)) false t
  end.

Definition abst (s : localJSM) : table := mkTable (abs s) (maxJobID s) (nextDelayTickAt s).

(** * The simulation *)

(** The outcome [o] of a call in state [s] is the abstract result [r]. *)
Definition matches (s : localJSM) (o : outcome error localJSM JobID) (r : (JobID + error) * table) : Prop :=
  match o with
  | OK a s' => r = (inl a, abst s') /\ JobsInv s' /\ cframe s s'
  | ERR e s' => r = (inr e, abst s') /\ JobsInv s' /\ cframe s s'
  | PANIC | DIVERGE => False
  end.

Lemma abst_misc s s' : abs s' = abs s -> misc s' = misc s -> abst s' = abst s.
Proof. unfold abst, misc. intros Ha Hm. injection Hm as H1 _ H3 _. congruence. Qed.

(** A transition, possibly after a counter was incremented. *)
Lemma implements_matches s0 s (op : JM unit) jid f (lower : bool) :
  JobsInv s -> cframe s0 s ->
  implements op jid f (if lower then lower_tick else no_more) s ->
  matches s0 ((op ;; ret 0) s) (job_step jid f lower (abst s)).
Proof.
  intros HI Hf0 Himp. unfold implements in Himp. unfold job_step. simpl.
  destruct (abs s !! jid) as [j|]; [|by rewrite (bind_ERR _ _ _ _ _ Himp)].
  destruct (f j) as [j'|e]; [|by rewrite (bind_ERR _ _ _ _ _ Himp)].
  destruct Himp as (s' & Hop & [M1 M2 M3 M4 M5]). rewrite (bind_OK _ _ _ _ _ Hop). simpl.
  assert (abs s' = <[jid := j']> (abs s) /\ maxJobID s' = maxJobID s /\ cframe s s' /\
    nextDelayTickAt s' = if lower then Z.min (readyAt j') (nextDelayTickAt s) else nextDelayTickAt s)
    as (E1 & E2 & E3 & E4).
  { unfold misc in M3. destruct lower; simpl in *; [|injection M3 as ?? ? ?; done]. unfold lower_tick in *.
    destruct (Z.ltb_spec (readyAt j') (nextDelayTickAt s)); simpl in *;
      injection M3 as ?? ? ?; split_and!; try done; try lia. split; apply M4. }
  unfold abst. rewrite E1, E2, E4. split_and!; [done..|]. by etransitivity.
Qed.

Lemma put_rest_abst now pri d ttr bodySize body tube s :
  maxJobID (put_rest now pri d ttr bodySize body tube s) = next_id s /\
  nextDelayTickAt (put_rest now pri d ttr bodySize body tube s) =
    (if 0 <? d then Z.min (wrap_i64 (now + d)) (nextDelayTickAt s) else nextDelayTickAt s).
Proof.
  unfold put_rest, lower_tick. destruct (0 <? d); simpl; [|done].
  destruct (Z.ltb_spec (wrap_i64 (now + d)) (nextDelayTickAt s)); simpl; split; try done; lia.
Qed.

Lemma Put_matches s now pri d ttr bodySize body tube :
  JobsInv s ->
  matches s (Put now pri d ttr bodySize body tube s)
    (astep (CPut now pri d ttr bodySize body tube) (abst s)).
Proof.
  intros HI. unfold astep. simpl. fold (next_id s).
  destruct (put_rest_abst now pri d ttr bodySize body tube s) as [R1 R2].
  destruct (put_rest_parts now pri d ttr bodySize body tube s) as (P1 & P2 & P3 & P4 & P5 & P6 & _).
  destruct (abs s !! next_id s) as [j|] eqn:Hj.
  - destruct (Put_exists now pri d ttr bodySize body tube s j HI Hj) as (s' & -> & H1 & H2 & H3 & H4).
    simpl. split_and!; [|done..]. unfold abst, misc in *. injection H3 as N1 N2 N3 N4.
    by rewrite H2, N1, N3, R1, R2.
  - destruct (Put_fresh now pri d ttr bodySize body tube s HI Hj) as (s' & -> & [M1 M2 M3 M4 M5]).
    simpl. unfold abst, misc in *. simpl in *. injection M3 as N1 N2 N3 N4. split_and!; [|done|].
    + rewrite M2. f_equal. f_equal; [|congruence..]. unfold abs. simpl. by rewrite P1, P3.
    + destruct M4 as [F1 F2 F3 F4]. simpl in *. rewrite P2 in F4. split; [congruence..|done].
Qed.

Lemma Delete_matches s jid cid :
  JobsInv s -> matches s ((Delete jid cid ;; ret 0) s) (astep (CDelete jid cid) (abst s)).
Proof.
  intros HI. pose proof (Delete_spec s jid cid HI) as HD. simpl.
  destruct (abs s !! jid) as [j|]; [|by rewrite (bind_ERR _ _ _ _ _ HD)].
  destruct (may_delete cid j); [|by rewrite (bind_ERR _ _ _ _ _ HD)].
  destruct HD as (s' & Hop & [D1 D2 D3 D4]). rewrite (bind_OK _ _ _ _ _ Hop). simpl.
  unfold abst, misc in *. simpl in *. injection D3 as N1 N2 N3 N4. split_and!; [|done|].
  - by rewrite D2, N1, N3.
  - etransitivity; [apply (bump_frame nCmdDelete)|done].
Qed.

(** Every command returns, with the result of the abstract machine and in a state
    of the invariant that abstracts to the machine's next state. *)
Lemma commands_match c s : JobsInv s -> matches s (exec c s) (astep c (abst s)).
Proof.
  intros HI. destruct c as [| |now jid cid|jid cid|now jid cid pri d|now jid pri cid|jid|jid]; cbn [exec].
  - by apply Put_matches.
  - by apply Delete_matches.
  - apply implements_matches; [done..|]. by apply fromReadyToReserved_implements.
  - unfold Release. rewrite bind_assoc, run_incr.
    apply (implements_matches s (bump nJobTimeouts s) _ _ _ false); [done..|].
    by apply fromReservedToReady_implements.
  - unfold ReleaseWith. rewrite bind_assoc, run_incr. simpl. destruct (d =? 0).
    + apply (implements_matches s (bump nCmdRelease s) _ _ _ false); [done..|].
      by apply fromReservedToReady_implements.
    + apply (implements_matches s (bump nCmdRelease s) _ _ _ true); [done..|].
      by apply fromReservedToDelayed_implements.
  - unfold Bury. rewrite bind_assoc, run_incr.
    apply (implements_matches s (bump nCmdBury s) _ _ _ false); [done..|].
    by apply fromReservedToBuried_implements.
  - unfold Kick. rewrite bind_assoc, run_incr.
    apply (implements_matches s (bump nCmdKick s) _ _ _ false); [done..|].
    by apply fromBuriedToReady_implements.
  - apply (implements_matches s s _ _ _ false); [done..|]. by apply fromDelayedToReady_implements.
Qed.

(** ** Sequences of commands *)
Fixpoint exec_all (cs : list cmd) (s : localJSM) : option (list (JobID + error) * localJSM) :=
  match cs with
  | [] => Some ([], s)
  | c :: cs' =>
    match exec c s with
    | OK a s' => '(rs, s2) ← exec_all cs' s'; Some (inl a :: rs, s2)
    | ERR e s' => '(rs, s2) ← exec_all cs' s'; Some (inr e :: rs, s2)
    | PANIC | DIVERGE => None
    end
  end.
Fixpoint astep_all (cs : list cmd) (t : table) : list (JobID + error) * table :=
  match cs with
  | [] => ([], t)
  | c :: cs' => let '(r, t1) := astep c t in let '(rs, t2) := astep_all cs' t1 in (r :: rs, t2)
  end.

Lemma exec_all_matches cs s :
  JobsInv s -> exists rs s', exec_all cs s = Some (rs, s') /\ astep_all cs (abst s) = (rs, abst s') /\ JobsInv s'.
Proof.
  revert s. induction cs as [|c cs IH]; intros s HI; [by exists [], s|]. simpl.
  pose proof (commands_match c s HI) as Hm. destruct (exec c s) as [a s1|e s1| |]; simpl in Hm; try done;
    destruct Hm as (-> & HI1 & _); destruct (IH s1 HI1) as (rs & s2 & -> & -> & HI2); simpl; eauto.
Qed.
