(* ===== verification/CliInv.v ===== *)
(** The queue and the heap of clients, as the state machine uses them.

    [qwf] says that the index by [ClientID] and the linked list of a
    [clientResvQueue] agree; [qview] is the queue as a list of clients, oldest
    first, and every operation is specified on it. *)
From stdpp Require Import base gmap list strings.
From Stdlib Require Import ZArith Lia.
From S2P Require Import Prelude GoHeap Job JobHeap ClientResv.
Local Open Scope Z_scope.

Definition cid_of (m : Mem) (r : CliRef) : option ClientID := CliID <$> mclis m !! r.

Section queue.
Import CliQueue.
Implicit Types (m : Mem) (q : clientResvQueue).

Record qwf m q : Prop := {
  qw_map cid el : qm q !! cid = Some el -> el ∈ ql q /\ cid_of m (el_Value el) = Some cid;
  qw_list el : el ∈ ql q -> exists cid, qm q !! cid = Some el;
  qw_ids : NoDup (el_id <$> ql q);
  qw_next el : el ∈ ql q -> (el_id el < qnext q)%positive
}.

Definition qview q : list CliRef := el_Value <$> ql q.

Lemma qwf_new m : qwf m newClientResvQueue.
Proof. split; simpl; [by intros ??; rewrite lookup_empty|set_solver|constructor|set_solver]. Qed.

Lemma qwf_frame m m' q :
  (forall r, r ∈ qview q -> cid_of m' r = cid_of m r) -> qwf m q -> qwf m' q.
Proof.
  intros Hc [A B C D]. split; [|done..]. intros cid el Hel. destruct (A _ _ Hel) as [Hin Hcid].
  split; [done|]. rewrite Hc; [done|]. by apply list_elem_of_fmap_2.
Qed.

Lemma qwf_elem m q r cid :
  qwf m q -> r ∈ qview q -> cid_of m r = Some cid ->
  exists el, qm q !! cid = Some el /\ el_Value el = r /\ el ∈ ql q.
Proof.
  intros Hq (el & -> & Hin)%list_elem_of_fmap Hcid. destruct (qw_list _ _ Hq _ Hin) as [cid' Hel].
  destruct (qw_map _ _ Hq _ _ Hel) as [_ Hc']. assert (cid' = cid) as -> by congruence. eauto.
Qed.

Lemma qwf_cid m q r : qwf m q -> r ∈ qview q -> exists cid, cid_of m r = Some cid.
Proof.
  intros Hq (el & -> & Hin)%list_elem_of_fmap. destruct (qw_list _ _ Hq _ Hin) as [cid' Hel].
  destruct (qw_map _ _ Hq _ _ Hel) as [_ Hc']. eauto.
Qed.

(** One entry per client. *)
Lemma qwf_inj m q r r' cid :
  qwf m q -> r ∈ qview q -> r' ∈ qview q -> cid_of m r = Some cid -> cid_of m r' = Some cid -> r = r'.
Proof.
  intros Hq Hr Hr' Hc Hc'. destruct (qwf_elem _ _ _ _ Hq Hr Hc) as (el & H1 & H2 & _).
  destruct (qwf_elem _ _ _ _ Hq Hr' Hc') as (el' & H1' & H2' & _). congruence.
Qed.

Lemma qwf_NoDup m q : qwf m q -> NoDup (qview q).
Proof.
  intros Hq. unfold qview. pose proof (NoDup_fmap_1 _ _ (qw_ids _ _ Hq)) as Hnd.
  apply NoDup_fmap_2_strong; [|done]. intros x y Hx Hy Hv.
  destruct (qw_list _ _ Hq _ Hx) as [cx Hcx], (qw_list _ _ Hq _ Hy) as [cy Hcy].
  destruct (qw_map _ _ Hq _ _ Hcx) as [_ H1], (qw_map _ _ Hq _ _ Hcy) as [_ H2]. congruence.
Qed.

(** [Len] counts the map, and the map is as long as the list. *)
Lemma Len_view m q : qwf m q -> Len q = length (qview q).
Proof.
  intros Hq. unfold Len, qview. rewrite length_fmap.
  assert ((map_to_list (qm q)).*2 ≡ₚ ql q) as Hp.
  - apply NoDup_Permutation; [|exact (NoDup_fmap_1 _ _ (qw_ids _ _ Hq))|].
    + apply NoDup_fmap_2_strong; [|apply NoDup_map_to_list].
      intros [c1 e1] [c2 e2] H1%elem_of_map_to_list H2%elem_of_map_to_list He. simpl in *. subst e2.
      destruct (qw_map _ _ Hq _ _ H1) as [_ C1], (qw_map _ _ Hq _ _ H2) as [_ C2]. congruence.
    + intros el. rewrite list_elem_of_fmap. split.
      * intros ([c e] & -> & Hin%elem_of_map_to_list). simpl. exact (proj1 (qw_map _ _ Hq _ _ Hin)).
      * intros Hin. destruct (qw_list _ _ Hq _ Hin) as [cid Hcid]. exists (cid, el).
        split; [done|]. by apply elem_of_map_to_list.
  - rewrite <- Hp, length_fmap, length_map_to_list. done.
Qed.

Lemma Find_inl m q cid r :
  qwf m q -> Find cid q = inl r <-> r ∈ qview q /\ cid_of m r = Some cid.
Proof.
  intros Hq. unfold Find. split.
  - destruct (qm q !! cid) as [el|] eqn:Hel; [|done]. intros [= <-].
    destruct (qw_map _ _ Hq _ _ Hel) as [Hin Hc]. split; [by apply list_elem_of_fmap_2|done].
  - intros [Hr Hc]. destruct (qwf_elem _ _ _ _ Hq Hr Hc) as (el & -> & <- & _). done.
Qed.

Lemma Find_inr m q cid :
  qwf m q -> (forall r, r ∈ qview q -> cid_of m r <> Some cid) -> Find cid q = inr ErrEntryMissing.
Proof.
  intros Hq Hno. unfold Find. destruct (qm q !! cid) as [el|] eqn:Hel; [|done].
  destruct (qw_map _ _ Hq _ _ Hel) as [Hin Hc]. by destruct (Hno (el_Value el)); [apply list_elem_of_fmap_2|].
Qed.

Lemma Find_cases m q cid :
  qwf m q -> (exists r, Find cid q = inl r /\ r ∈ qview q /\ cid_of m r = Some cid) \/
    (Find cid q = inr ErrEntryMissing /\ forall r, r ∈ qview q -> cid_of m r <> Some cid).
Proof.
  intros Hq. destruct (Find cid q) as [r|e] eqn:HF.
  - left. exists r. split; [done|]. by apply Find_inl.
  - right. unfold Find in HF. destruct (qm q !! cid) eqn:Hel; [done|]. simplify_eq. split; [done|].
    intros r Hr Hc. destruct (qwf_elem _ _ _ _ Hq Hr Hc) as (el & ? & _). congruence.
Qed.

Lemma q_Enqueue_spec m q r cid :
  qwf m q -> cid_of m r = Some cid -> (forall r', r' ∈ qview q -> cid_of m r' <> Some cid) ->
  exists q', Enqueue cid r q = inl q' /\ qview q' = qview q ++ [r] /\ qwf m q'.
Proof.
  intros Hq Hc Hno. assert (qm q !! cid = None) as Hnone.
  { destruct (qm q !! cid) as [el|] eqn:Hel; [|done]. destruct (qw_map _ _ Hq _ _ Hel) as [Hin Hcel].
    by destruct (Hno (el_Value el)); [apply list_elem_of_fmap_2|]. }
  unfold Enqueue, Contains. rewrite bool_decide_eq_false_2 by (rewrite Hnone; by intros [? ?]).
  eexists. split; [done|]. unfold qview. simpl. rewrite fmap_app. split; [done|]. split; simpl.
  - intros cid' el [[<- <-]|[Hne Hel]]%lookup_insert_Some; [split; [set_solver|done]|].
    destruct (qw_map _ _ Hq _ _ Hel). split; [set_solver|done].
  - intros el [Hin|Heq%list_elem_of_singleton]%elem_of_app; [|exists cid; by rewrite Heq, lookup_insert_eq].
    destruct (qw_list _ _ Hq _ Hin) as [cid' Hel]. exists cid'. rewrite lookup_insert_ne; [done|]. congruence.
  - rewrite fmap_app. simpl. apply NoDup_app. split_and!; [apply Hq| |apply NoDup_singleton].
    intros x (el & -> & Hin)%list_elem_of_fmap Heq%list_elem_of_singleton.
    apply (qw_next _ _ Hq) in Hin. lia.
  - intros el [Hin|Heq%list_elem_of_singleton]%elem_of_app; [apply (qw_next _ _ Hq) in Hin|subst; simpl]; lia.
Qed.

(** Unlinking an element by identity drops its client and nothing else. *)
Lemma list_Remove_view m q cid el :
  qwf m q -> qm q !! cid = Some el ->
  el_Value <$> list_Remove el (ql q) = filter (fun r => r <> el_Value el) (qview q).
Proof.
  intros Hq Hel. destruct (qw_map _ _ Hq _ _ Hel) as [Hin Hc].
  assert (forall e, e ∈ ql q -> el_id e <> el_id el <-> el_Value e <> el_Value el) as Hiff.
  { intros e He. split; intros Hne Heq; apply Hne.
    - destruct (qw_list _ _ Hq _ He) as [c' Hc']. destruct (qw_map _ _ Hq _ _ Hc') as [_ Hcc]. congruence.
    - pose proof (qw_ids _ _ Hq) as Hnd. apply list_elem_of_lookup_1 in He as [i Hi].
      apply list_elem_of_lookup_1 in Hin as [k Hk].
      assert (i = k) as -> by (eapply NoDup_lookup; [apply Hnd|rewrite list_lookup_fmap, Hi; done|
        rewrite list_lookup_fmap, Hk; simpl; congruence]). congruence. }
  unfold list_Remove, qview. revert Hiff. generalize (ql q). intros l. induction l as [|e l IH]; intros Hiff; [done|].
  pose proof (Hiff e ltac:(left)) as He. specialize (IH ltac:(intros; apply Hiff; by right)).
  rewrite fmap_cons, !filter_cons.
  repeat case_decide; try tauto. rewrite fmap_cons. by f_equal.
Qed.

Lemma Remove_spec m q r cid :
  qwf m q -> r ∈ qview q -> cid_of m r = Some cid ->
  exists q', Remove cid q = inl q' /\ qview q' = filter (fun x => x <> r) (qview q) /\ qwf m q'.
Proof.
  intros Hq Hr Hc. destruct (qwf_elem _ _ _ _ Hq Hr Hc) as (el & Hel & Hv & Hin).
  unfold Remove. rewrite Hel. eexists. split; [done|]. split.
  { unfold qview at 1. simpl. rewrite (list_Remove_view m q cid el Hq Hel). by rewrite Hv. }
  unfold list_Remove. split; simpl.
  - intros cid' el' [Hne Hel']%lookup_delete_Some. destruct (qw_map _ _ Hq _ _ Hel') as [Hin' Hc'].
    split; [|done]. apply list_elem_of_filter. split; [|done]. intros Heq.
    apply list_elem_of_lookup_1 in Hin as [i Hi]. apply list_elem_of_lookup_1 in Hin' as [k Hk].
    assert (i = k) as -> by (eapply (NoDup_lookup (el_id <$> ql q)); [apply Hq|rewrite list_lookup_fmap, Hi; done|
      rewrite list_lookup_fmap, Hk; simpl; congruence]). congruence.
  - intros el' [Hne Hin']%list_elem_of_filter. destruct (qw_list _ _ Hq _ Hin') as [c' Hc'].
    exists c'. apply lookup_delete_Some. split; [|done]. congruence.
  - eapply sublist_NoDup; [apply (qw_ids _ _ Hq)|]. apply fmap_sublist, sublist_filter.
  - intros el' [_ Hin']%list_elem_of_filter. by apply (qw_next _ _ Hq).
Qed.
End queue.

(** * The heap of clients *)

(** The entry but for [HeapIndex]. *)
Abbreviation no_idx := (set_HeapIndex 0).

Section client_heap.
Import CliHeap CliHeapLaws.
Implicit Types (m : Mem) (h : clientResvHeap).

Definition ch_wf m h : Prop :=
  hwf (E:=error) (S:=Mem * clientResvHeap) (X:=CliRef) (T:=clis_obs) (m, h).
Definition ch_sorted m h : Prop :=
  hordered (E:=error) (S:=Mem * clientResvHeap) (X:=CliRef) (T:=clis_obs) (m, h).

Lemma ch_wf_alt m h :
  ch_wf m h <->
  (forall i r, h !! i = Some r -> HeapIndex <$> mclis m !! r = Some (Z.of_nat i)) /\
  (forall r, r ∈ h -> is_Some (mclis m !! r)).
Proof.
  unfold ch_wf, hwf. split; intros [H1 H2]; (split; [done|]); intros r Hr.
  - by apply (obs_ok_cli m h), H2.
  - by apply (obs_ok_cli m h), H2.
Qed.

Lemma ch_wf_NoDup m h : ch_wf m h -> NoDup h.
Proof. intros Hw. exact (hwf_NoDup _ Hw). Qed.

(** A heap operation moves entries: it writes [HeapIndex] and nothing else. *)
Record moves m m' : Prop := {
  mo_jobs : mjobs m' = mjobs m;
  mo_ents : ments m' = ments m;
  mo_next : mnext m' = mnext m;
  mo_clis r : no_idx <$> mclis m' !! r = no_idx <$> mclis m !! r
}.

Lemma moves_obs m h m' h' : obs_of (m', h') = obs_of (m, h) -> moves m m'.
Proof.
  unfold obs_of. simpl. intros Ho. injection Ho as H1 H2 H3 H4. split; try done.
  intros r. by rewrite <- !lookup_fmap, H3.
Qed.

Lemma moves_entry m m' r c :
  moves m m' -> mclis m !! r = Some c -> exists c', mclis m' !! r = Some c' /\ no_idx c' = no_idx c.
Proof.
  intros Hm Hc. pose proof (mo_clis _ _ Hm r) as Hr. rewrite Hc in Hr.
  destruct (mclis m' !! r) as [c'|]; [|done]. exists c'. split; [done|]. by apply (inj Some).
Qed.

Lemma moves_back m m' r c' :
  moves m m' -> mclis m' !! r = Some c' -> exists c, mclis m !! r = Some c /\ no_idx c' = no_idx c.
Proof.
  intros Hm Hc. pose proof (mo_clis _ _ Hm r) as Hr. rewrite Hc in Hr.
  destruct (mclis m !! r) as [c|]; [|done]. exists c. split; [done|]. by apply (inj Some).
Qed.

Lemma no_idx_inv c c' :
  no_idx c' = no_idx c ->
  CliID c' = CliID c /\ WatchedTubes c' = WatchedTubes c /\ ResvDeadlineAt c' = ResvDeadlineAt c /\
  IsWaitingForResv c' = IsWaitingForResv c /\ TickAt c' = TickAt c /\ ReqID c' = ReqID c.
Proof. destruct c, c'. unfold set_HeapIndex. simpl. intros [=]. by split_and!. Qed.

Lemma moves_cid m m' r : moves m m' -> cid_of m' r = cid_of m r.
Proof.
  intros Hm. unfold cid_of. destruct (mclis m !! r) as [c|] eqn:Hc.
  - destruct (moves_entry _ _ _ _ Hm Hc) as (c' & -> & Hn%no_idx_inv). simpl. f_equal. apply Hn.
  - pose proof (mo_clis _ _ Hm r) as Hr. rewrite Hc in Hr. by destruct (mclis m' !! r).
Qed.

(** What the operations do. *)
Lemma cheap_Enqueue m h r :
  ch_wf m h -> is_Some (mclis m !! r) -> r ∉ h ->
  exists m' h', CliHeap.Enqueue r (m, h) = OK tt (m', h') /\ ch_wf m' h' /\ moves m m' /\
    h' ≡ₚ r :: h /\ (forall x, x <> r -> x ∉ h -> HeapIndex <$> mclis m' !! x = HeapIndex <$> mclis m !! x) /\
    (ch_sorted m h -> ch_sorted m' h').
Proof.
  intros Hw Hr Hn.
  destruct (heap_Push (E:=error) (m, h) r Hw) as ([m' h'] & Hs & Hw' & Ho & Hp & Hi & Hso);
    [by apply (obs_ok_cli m h)|done|].
  exists m', h'. split_and!; [exact Hs|exact Hw'|by eapply moves_obs|exact Hp|exact Hi|exact Hso].
Qed.

Lemma cheap_Dequeue m h r :
  ch_wf m h -> h !! 0%nat = Some r ->
  exists m' h', CliHeap.Dequeue (m, h) = OK r (m', h') /\ ch_wf m' h' /\ moves m m' /\
    h ≡ₚ r :: h' /\ HeapIndex <$> mclis m' !! r = Some (-1) /\
    (forall x, x ∉ h -> HeapIndex <$> mclis m' !! x = HeapIndex <$> mclis m !! x) /\
    (ch_sorted m h -> ch_sorted m' h').
Proof.
  intros Hw Hr.
  destruct (heap_Pop (E:=error) (m, h) r Hw Hr) as ([m' h'] & Hs & Hw' & Ho & Hp & Hx & Hi & Hso).
  exists m', h'. split_and!; [exact Hs|exact Hw'|by eapply moves_obs|exact Hp|exact Hx|exact Hi|exact Hso].
Qed.

Lemma cheap_Remove m h r :
  ch_wf m h -> r ∈ h ->
  exists m' h', CliHeap.Remove r (m, h) = OK tt (m', h') /\ ch_wf m' h' /\ moves m m' /\
    h ≡ₚ r :: h' /\ HeapIndex <$> mclis m' !! r = Some (-1) /\
    (forall x, x ∉ h -> HeapIndex <$> mclis m' !! x = HeapIndex <$> mclis m !! x) /\
    (ch_sorted m h -> ch_sorted m' h').
Proof.
  intros Hw [i Hi]%list_elem_of_lookup_1. pose proof (proj1 (ch_wf_alt m h) Hw) as [W1 W2].
  pose proof (W1 _ _ Hi) as Hx. destruct (mclis m !! r) as [c|] eqn:Hc; [|done]. simplify_eq/=.
  pose proof (lookup_lt_Some _ _ _ Hi) as Hlt.
  destruct (heap_Remove (E:=error) (m, h) i r Hw Hi) as ([m' h'] & Hs & Hw' & Ho & Hp & Hx' & Hi' & Hso).
  exists m', h'.
  split_and!; [|exact Hw'|by eapply moves_obs|exact Hp|exact Hx'|exact Hi'|exact Hso].
  unfold CliHeap.Remove. erewrite bind_OK by (by apply deref_OK). erewrite bind_OK by done.
  cbn [snd]. unfold Len. rewrite Hx. case_match; [lia|]. case_match; [lia|]. cbv zeta.
  rewrite Nat2Z.id. do 2 (erewrite bind_OK by (by apply deref_OK)). rewrite String.eqb_refl. simpl.
  by erewrite bind_OK by exact Hs.
Qed.

Lemma cheap_UpdateTickAt m h r v c :
  ch_wf m h -> r ∈ h -> mclis m !! r = Some c ->
  let m1 := set_mclis (<[r := set_TickAt v c]> (mclis m)) m in
  exists m' h', CliHeap.UpdateTickAt r v (m, h) = OK tt (m', h') /\ ch_wf m' h' /\ moves m1 m' /\
    h' ≡ₚ h /\ (forall x, x ∉ h -> HeapIndex <$> mclis m' !! x = HeapIndex <$> mclis m1 !! x) /\
    (ch_sorted m h -> ch_sorted m' h').
Proof.
  intros Hw [i Hi]%list_elem_of_lookup_1 Hc m1. pose proof (proj1 (ch_wf_alt m h) Hw) as [W1 W2].
  pose proof (W1 _ _ Hi) as Hx. rewrite Hc in Hx. simplify_eq/=.
  pose proof (lookup_lt_Some _ _ _ Hi) as Hlt.
  assert (ch_wf m1 h) as Hw1.
  { apply ch_wf_alt. split; intros k; intros; simpl; rewrite lookup_insert; case_decide; subst; eauto.
    simpl. rewrite Hx. f_equal. f_equal. eapply NoDup_lookup; [by apply (ch_wf_NoDup m h)|done..]. }
  destruct (heap_Fix (E:=error) (m1, h) i Hw1 Hlt) as ([m' h'] & Hs & (Hw' & Ho & Hp & Hi') & Hso).
  exists m', h'. split_and!; [|exact Hw'|by eapply moves_obs|exact Hp|exact Hi'|].
  - unfold CliHeap.UpdateTickAt. erewrite bind_OK by (by apply deref_OK). erewrite bind_OK by done.
    rewrite Hx. case_match; [lia|]. case_match; [lia|]. rewrite Nat2Z.id. exact Hs.
  - intros Hh. apply Hso. apply (exc_change (obs_ord (obs_of (m, h))) (obs_ord (obs_of (m1, h))) i (length h) h r);
      [by apply (ch_wf_NoDup m h)|done| |exact Hh].
    intros a b Ha Hb. unfold obs_ord. rewrite !obs_cli_of. simpl. by rewrite !lookup_insert_ne by done.
Qed.

(** [Peek] is a client with the least [TickAt]. *)
Lemma cheap_Peek_least m h r c r' c' :
  ch_sorted m h -> Peek h = Some r -> mclis m !! r = Some c -> r' ∈ h -> mclis m !! r' = Some c' ->
  TickAt c <= TickAt c'.
Proof.
  intros Hs Hp Hc Hr' Hc'. unfold Peek in Hp. case_match; [done|].
  pose proof (heap_root (E:=error) (S:=Mem * clientResvHeap) (m, h) r r' Hs Hp Hr') as Hl.
  change (obs_ord (obs_of (m, h)) r' r = false) in Hl. unfold obs_ord in Hl.
  rewrite !obs_cli_of in Hl. cbn [fst] in Hl. rewrite Hc, Hc' in Hl. simpl in Hl.
  unfold client_less in Hl. simpl in Hl. case_match; lia.
Qed.
End client_heap.

Section client_heap_frame.
Import CliHeap CliHeapLaws.

(** The fields the client heap looks at. *)
Definition heap_fields (c : ClientResvEntry) : ClientID * Z * Z := (CliID c, TickAt c, HeapIndex c).

Lemma ch_wf_frame m m' (h : clientResvHeap) :
  (forall r, r ∈ h -> heap_fields <$> mclis m' !! r = heap_fields <$> mclis m !! r) ->
  ch_wf m h -> ch_wf m' h.
Proof.
  rewrite !ch_wf_alt. intros Hf [H1 H2]. split.
  - intros i r Hi. specialize (H1 _ _ Hi). specialize (Hf r ltac:(by eapply list_elem_of_lookup_2)).
    destruct (mclis m !! r), (mclis m' !! r); simplify_eq/=; unfold heap_fields in *; congruence.
  - intros r Hr. specialize (H2 _ Hr) as [c Hc]. specialize (Hf _ Hr). rewrite Hc in Hf.
    destruct (mclis m' !! r); [eauto|done].
Qed.

Lemma ch_sorted_frame m m' (h : clientResvHeap) :
  (forall r, r ∈ h -> heap_fields <$> mclis m' !! r = heap_fields <$> mclis m !! r) ->
  ch_sorted m h -> ch_sorted m' h.
Proof.
  unfold ch_sorted, hordered. intros Hf Hs c Hc a b Ha Hb. specialize (Hs c Hc a b Ha Hb).
  pose proof (Hf a ltac:(by eapply list_elem_of_lookup_2)) as Fa.
  pose proof (Hf b ltac:(by eapply list_elem_of_lookup_2)) as Fb.
  change (obs_ord (obs_of (m, h)) b a = false) in Hs. change (obs_ord (obs_of (m', h)) b a = false).
  unfold obs_ord in *. rewrite !obs_cli_of in *. cbn [fst] in *.
  destruct (mclis m !! a) as [ca|], (mclis m' !! a) as [ca'|], (mclis m !! b) as [cb|],
    (mclis m' !! b) as [cb'|]; try done.
  injection Fa as A1 A2 A3. injection Fb as B1 B2 B3. unfold client_less in *. simpl in *.
  by rewrite A1, A2, B1, B2.
Qed.

Lemma ch_sorted_alt m (h : clientResvHeap) :
  ch_wf m h ->
  ch_sorted m h <-> forall k a b ca cb, (0 < k)%nat -> h !! parent k = Some a -> h !! k = Some b ->
    mclis m !! a = Some ca -> mclis m !! b = Some cb -> client_less cb ca = false.
Proof.
  intros [_ Hok]%ch_wf_alt. unfold ch_sorted, hordered, heap_upto, edge_ok.
  assert (forall a b ca cb, mclis m !! a = Some ca -> mclis m !! b = Some cb ->
    obs_ord (obs_of (m, h)) b a = client_less cb ca) as Hord.
  { intros a b ca cb Ha Hb. unfold obs_ord. rewrite !obs_cli_of. cbn [fst]. by rewrite Ha, Hb. }
  split.
  - intros Hs k a b ca cb Hk Ha Hb Hca Hcb. rewrite <- (Hord a b) by done.
    refine (Hs k _ a b Ha Hb). split; [done|]. by eapply lookup_lt_Some.
  - intros Hs k [Hk _] a b Ha Hb. destruct (Hok a) as [ca Hca]; [by eapply list_elem_of_lookup_2|].
    destruct (Hok b) as [cb Hcb]; [by eapply list_elem_of_lookup_2|].
    change (obs_ord (obs_of (m, h)) b a = false). rewrite (Hord a b ca cb) by done. by eapply Hs.
Qed.
End client_heap_frame.
