(* ===== verification/Clients.v ===== *)
(** The clients of the state machine: invariant and operations.

    [CInv] ties the registered clients, the queues of the tubes and the heap of
    clients together.  The operations that reserve, time out and re-schedule
    clients keep it, never panic, and have the stated effect on the queues. *)
From stdpp Require Import base gmap list strings.
From Stdlib Require Import ZArith Lia.
From S2P Require Import Prelude GoHeap Job JobHeap ClientResv Index JSM Heaps JobInv.
From S2P Require Import Transitions Commands CliInv.
Local Open Scope Z_scope.

Definition registered (s : localJSM) : list CliRef := qview (clients s).
Definition waiters (s : localJSM) (t : TubeName) : list CliRef := qview (wait_queue (tubes s) t).

Record CInv (s : localJSM) : Prop := {
  ci_reg : qwf (mem s) (clients s);
  ci_wq t : qwf (mem s) (wait_queue (tubes s) t);
  ci_in t r : r ∈ waiters s t -> exists c, mclis (mem s) !! r = Some c /\ r ∈ registered s /\
    IsWaitingForResv c = true /\ t ∈ WatchedTubes c;
  ci_out r c : r ∈ registered s -> mclis (mem s) !! r = Some c -> IsWaitingForResv c = true ->
    NoDup (WatchedTubes c) /\ (forall t, t ∈ WatchedTubes c -> r ∈ waiters s t) /\
    ResvDeadlineAt c < maxTime;
  ci_hwf : ch_wf (mem s) (clientHeap s);
  ci_hsorted : ch_sorted (mem s) (clientHeap s);
  ci_hreg r : r ∈ clientHeap s -> r ∈ registered s;
  ci_hidx r c : mclis (mem s) !! r = Some c -> r ∉ clientHeap s -> HeapIndex c = -1
}.

(** * Queues of the tubes *)
Lemma heap_of_set_waiting ti ri t q k :
  heap_of (<[t := set_waiting q (tube_state ti t)]> ti) ri k = heap_of ti ri k.
Proof.
  destruct k as [t'|t'|t'|c]; simpl; rewrite ?tube_state_insert; try done;
    by case_decide; subst.
Qed.

Lemma wait_queue_set_waiting ti t q t' :
  wait_queue (<[t := set_waiting q (tube_state ti t)]> ti) t' =
    if decide (t' = t) then q else wait_queue ti t'.
Proof. unfold wait_queue. rewrite tube_state_insert. by case_decide. Qed.

(** The queues become those of the view [w]; the job heaps stay. *)
Record queues_step (s : localJSM) (w : TubeName -> list CliRef) (ti' : tubeIndex) : Prop := {
  qs_heaps k : heap_of ti' (reservedJobs s) k = heaps s k;
  qs_wf t : qwf (mem s) (wait_queue ti' t);
  qs_view t : qview (wait_queue ti' t) = w t
}.

Lemma waiter_tube ti t r : r ∈ qview (wait_queue ti t) -> ti !! t = Some (tube_state ti t).
Proof. unfold wait_queue, tube_state. destruct (ti !! t); [done|]. by intros ?%elem_of_nil. Qed.

Lemma waiting_Remove_spec s t r cid :
  (forall t, qwf (mem s) (wait_queue (tubes s) t)) -> r ∈ waiters s t -> cid_of (mem s) r = Some cid ->
  exists ti', waiting_Remove t cid s = OK tt (set_tubes ti' s) /\
    queues_step s (fun t' => if decide (t' = t) then filter (fun x => x <> r) (waiters s t)
                             else waiters s t') ti'.
Proof.
  intros Hq Hr Hc. destruct (Remove_spec _ _ _ _ (Hq t) Hr Hc) as (q' & Hop & Hv & Hq').
  exists (<[t := set_waiting q' (tube_state (tubes s) t)]> (tubes s)). split.
  - unfold waiting_Remove. erewrite bind_OK by (by apply deref_OK, (waiter_tube _ _ r)).
    fold (wait_queue (tubes s) t). by rewrite Hop.
  - split; intros; rewrite ?heap_of_set_waiting, ?wait_queue_set_waiting; [done|by case_decide|].
    by case_decide; subst.
Qed.

(** The loop over the watched tubes leaves every one of their queues. *)
Lemma waiting_Remove_all_spec ts s r cid :
  NoDup ts -> (forall t, qwf (mem s) (wait_queue (tubes s) t)) ->
  (forall t, t ∈ ts -> r ∈ waiters s t) -> cid_of (mem s) r = Some cid ->
  exists ti', waiting_Remove_all ts cid s = OK tt (set_tubes ti' s) /\
    queues_step s (fun t => if decide (t ∈ ts) then filter (fun x => x <> r) (waiters s t)
                            else waiters s t) ti'.
Proof.
  revert s. induction ts as [|t ts IH]; intros s Hnd Hq Hr Hc; simpl.
  { exists (tubes s). split; [by destruct s|]. by split; intros. }
  apply NoDup_cons in Hnd as [Hnin Hnd].
  destruct (waiting_Remove_spec s t r cid Hq (Hr t ltac:(left)) Hc) as (ti1 & Hop & [Q1 Q2 Q3]).
  destruct (IH (set_tubes ti1 s)) as (ti2 & Hop2 & [R1 R2 R3]); [done|exact Q2| |done|].
  { intros t' Ht'. unfold waiters. simpl. rewrite Q3. case_decide; [by subst|]. apply Hr. by right. }
  exists ti2. rewrite (bind_OK _ _ _ _ _ Hop). split; [exact Hop2|]. split.
  - intros k. rewrite R1. unfold heaps. simpl. apply Q1.
  - exact R2.
  - intros t'. rewrite R3. unfold waiters. simpl. rewrite Q3.
    repeat case_decide; subst; rewrite ?elem_of_cons in *; try tauto; done.
Qed.

Lemma EnqueueToWaitQ_spec s t r cid :
  (forall t, qwf (mem s) (wait_queue (tubes s) t)) -> cid_of (mem s) r = Some cid ->
  (forall x, x ∈ waiters s t -> cid_of (mem s) x <> Some cid) ->
  exists ti', on_tubes (TubeIdx.EnqueueToWaitQ t cid r) s = OK tt (set_tubes ti' s) /\
    queues_step s (fun t' => if decide (t' = t) then waiters s t ++ [r] else waiters s t') ti'.
Proof.
  intros Hq Hc Hno. destruct (q_Enqueue_spec _ _ _ _ (Hq t) Hc Hno) as (q' & Hop & Hv & Hq').
  exists (<[t := set_waiting q' (tube_state (tubes s) t)]> (tubes s)). split.
  - rewrite (on_tubes_OK _ s tt (mem s)
      (<[t := set_waiting q' (tube_state (tubes s) t)]> (tubes s))); [by destruct s|].
    unfold TubeIdx.EnqueueToWaitQ, TubeIdx.getByName, bind, gets, modify, ret. cbn [snd fst negb].
    unfold wait_queue, tube_state in *. destruct (tubes s !! t) as [ts|]; simpl in *; rewrite Hop; [done|].
    cbn [fst snd]. by rewrite insert_insert_eq.
  - split; intros; rewrite ?heap_of_set_waiting, ?wait_queue_set_waiting; [done|by case_decide|].
    by case_decide; subst.
Qed.

Lemma enqueue_all_spec ts s r cid :
  NoDup ts -> (forall t, qwf (mem s) (wait_queue (tubes s) t)) -> cid_of (mem s) r = Some cid ->
  (forall t x, t ∈ ts -> x ∈ waiters s t -> cid_of (mem s) x <> Some cid) ->
  exists ti', enqueue_all ts cid r s = OK tt (set_tubes ti' s) /\
    queues_step s (fun t => if decide (t ∈ ts) then waiters s t ++ [r] else waiters s t) ti'.
Proof.
  revert s. induction ts as [|t ts IH]; intros s Hnd Hq Hc Hno; simpl.
  { exists (tubes s). split; [by destruct s|]. by split; intros. }
  apply NoDup_cons in Hnd as [Hnin Hnd].
  destruct (EnqueueToWaitQ_spec s t r cid Hq Hc) as (ti1 & Hop & [Q1 Q2 Q3]).
  { intros x. apply Hno. by left. }
  destruct (IH (set_tubes ti1 s)) as (ti2 & Hop2 & [R1 R2 R3]); [done|exact Q2|done| |].
  { intros t' x Ht'. unfold waiters. simpl. rewrite Q3. case_decide; [by subst|]. apply Hno. by right. }
  exists ti2. rewrite (bind_OK _ _ _ _ _ (try_OK _ _ _ _ Hop)). split; [exact Hop2|]. split.
  - intros k. rewrite R1. unfold heaps. simpl. apply Q1.
  - exact R2.
  - intros t'. rewrite R3. unfold waiters. simpl. rewrite Q3.
    repeat case_decide; subst; rewrite ?elem_of_cons in *; try tauto; done.
Qed.

(** * What client operations leave alone *)
Record jframe (s s' : localJSM) : Prop := {
  jf_jobs : mjobs (mem s') = mjobs (mem s);
  jf_ents : ments (mem s') = ments (mem s);
  jf_mem : mem_wf (mem s) -> mem_wf (mem s');
  jf_heaps k : heaps s' k = heaps s k;
  jf_index : jobs s' = jobs s;
  jf_resv : reservedJobs s' = reservedJobs s;
  jf_max : maxJobID s' = maxJobID s;
  jf_tick : nextDelayTickAt s' = nextDelayTickAt s
}.

#[export] Instance jframe_refl : Reflexive jframe.
Proof. intros s. by split. Qed.
#[export] Instance jframe_trans : Transitive jframe.
Proof.
  intros s1 s2 s3 [A1 A2 A3 A4 A5 A6 A7 A8] [B1 B2 B3 B4 B5 B6 B7 B8].
  split; try congruence; auto.
Qed.

Lemma jframe_abs s s' : jframe s s' -> abs s' = abs s.
Proof. intros [A1 _ _ _ A5 _ _ _]. unfold abs. by rewrite A5, A1. Qed.

Lemma jframe_entry_job s s' r : jframe s s' -> entry_job (mem s') r = entry_job (mem s) r.
Proof. intros [A1 A2 _ _ _ _ _ _]. unfold entry_job. by rewrite A2, A1. Qed.

Lemma jframe_inv s s' : jframe s s' -> JobsInv s -> JobsInv s'.
Proof.
  intros Hf [I1 I2 I3 I4 I5 I6]. pose proof Hf as [A1 A2 A3 A4 A5 A6 A7 A8]. unfold JobsInv.
  pose proof (fun r => jframe_entry_job s s' r Hf) as Hej. split.
  - auto.
  - intros k. rewrite A4. apply I2.
  - intros k. rewrite A4. apply (jh_wf_frame (mem s)); [by rewrite A2| |done].
    intros r _. by rewrite Hej.
  - intros k Hns. rewrite A4 in *. apply (jh_sorted_frame (mem s)); [by intros; apply Hej|].
    apply I4. intros r j Hr Hj. apply (Hns r j Hr). by rewrite Hej.
  - intros jid ie. rewrite A5. intros Hie. destruct (I5 _ _ Hie) as (j & er & e & ?).
    exists j, er, e. by rewrite A1, A2, A4.
  - intros k er e. rewrite A4, A2, A5, A1. apply I6.
Qed.

(** * Assignments to a client entry *)
Definition put_cli (r : CliRef) (c : ClientResvEntry) (s : localJSM) : localJSM :=
  set_mem (set_mclis (<[r := c]> (mclis (mem s))) (mem s)) s.

Lemma load_cli_OK r s c : mclis (mem s) !! r = Some c -> load_cli r s = OK c s.
Proof. intros Hc. unfold load_cli. by apply (deref_OK (fun s => mclis (mem s) !! r)). Qed.

Lemma run_load_cli {A} r (k : ClientResvEntry -> JM A) s c :
  mclis (mem s) !! r = Some c -> bind (load_cli r) k s = k c s.
Proof. intros Hc. by rewrite (bind_OK _ _ _ _ _ (load_cli_OK _ _ _ Hc)). Qed.

Lemma update_cli_OK r f s c :
  mclis (mem s) !! r = Some c -> update_cli r f s = OK tt (put_cli r (f c) s).
Proof. intros Hc. unfold update_cli. by rewrite (run_load_cli _ _ _ _ Hc). Qed.

Lemma put_cli_lookup r c s : mclis (mem (put_cli r c s)) !! r = Some c.
Proof. apply lookup_insert_eq. Qed.

Lemma put_cli_put_cli r c c' s : put_cli r c (put_cli r c' s) = put_cli r c s.
Proof. unfold put_cli, set_mem, set_mclis. simpl. by rewrite insert_insert_eq. Qed.

Lemma run_update_cli {A} r f (k : unit -> JM A) s c :
  mclis (mem s) !! r = Some c -> bind (update_cli r f) k s = k tt (put_cli r (f c) s).
Proof. intros Hc. by rewrite (bind_OK _ _ _ _ _ (update_cli_OK _ _ _ _ Hc)). Qed.

Lemma run_update_cli_put {A} r f (k : unit -> JM A) s c :
  bind (update_cli r f) k (put_cli r c s) = k tt (put_cli r (f c) s).
Proof. by rewrite (run_update_cli _ _ _ _ c (put_cli_lookup _ _ _)), put_cli_put_cli. Qed.

Lemma put_cli_jframe s r c c0 : mclis (mem s) !! r = Some c0 -> jframe s (put_cli r c s).
Proof.
  intros Hc. split; try done. intros [W1 W2 W3]. split; simpl; [done..|].
  intros x y [[<- _]|[_ Hy]]%lookup_insert_Some; by eapply W3.
Qed.

Lemma put_cli_cid s r c c0 x :
  mclis (mem s) !! r = Some c0 -> CliID c = CliID c0 -> cid_of (mem (put_cli r c s)) x = cid_of (mem s) x.
Proof.
  intros Hc Hid. unfold cid_of. simpl. rewrite lookup_insert. case_decide; [|done].
  subst. rewrite Hc. simpl. by rewrite Hid.
Qed.

(** * Leaving the queues *)
Definition unwait (c : ClientResvEntry) : ClientResvEntry :=
  set_ResvDeadlineAt maxTime (set_IsWaitingForResv false c).

Lemma filter_notin (r : CliRef) (l : list CliRef) : r ∉ l -> filter (fun x => x <> r) l = l.
Proof.
  induction l as [|x l IH]; [done|]. rewrite filter_cons. intros [Hne Hr]%not_elem_of_cons.
  case_decide; [f_equal; by apply IH|by destruct Hne].
Qed.

Lemma waiter_watches s t r c :
  CInv s -> r ∈ waiters s t -> mclis (mem s) !! r = Some c -> t ∈ WatchedTubes c.
Proof. intros HC Hr Hc. destruct (ci_in _ HC _ _ Hr) as (c' & ? & ? & ? & ?). by simplify_eq. Qed.

(** The effect of [unReserve]. *)
Record unreserved (s s' : localJSM) (r : CliRef) (c : ClientResvEntry) : Prop := {
  ur_jframe : jframe s s';
  ur_inv : CInv s';
  ur_clients : clients s' = clients s;
  ur_heap : clientHeap s' = clientHeap s;
  ur_clis : mclis (mem s') = <[r := unwait c]> (mclis (mem s));
  ur_waiters t : waiters s' t = filter (fun x => x <> r) (waiters s t);
  ur_stat : stat s' = stat s
}.

Lemma unReserve_spec s r c :
  CInv s -> r ∈ registered s -> mclis (mem s) !! r = Some c -> IsWaitingForResv c = true ->
  exists s', unReserve r s = OK tt s' /\ unreserved s s' r c.
Proof.
  intros HC Hreg Hc Hw. destruct (ci_out _ HC _ _ Hreg Hc Hw) as (Hnd & Hall & Hdl).
  set (s1 := put_cli r (unwait c) s).
  assert (forall x, cid_of (mem s1) x = cid_of (mem s) x) as Hcid by (intros; by eapply put_cli_cid).
  destruct (waiting_Remove_all_spec (WatchedTubes c) s1 r (CliID c)) as (ti' & Hop & [Q1 Q2 Q3]); [done| | | |].
  { intros t. apply (qwf_frame (mem s)); [by intros|apply HC]. }
  { exact Hall. }
  { rewrite Hcid. unfold cid_of. by rewrite Hc. }
  assert (forall t, waiters (set_tubes ti' s1) t = filter (fun x => x <> r) (waiters s t)) as Hwl.
  { intros t. unfold waiters at 1. simpl. rewrite Q3. case_decide as Hd; [done|].
    symmetry. apply filter_notin. intros Hin. apply Hd. by eapply waiter_watches. }
  exists (set_tubes ti' s1). split.
  - unfold unReserve. rewrite (run_update_cli _ _ _ _ _ Hc), run_update_cli_put.
    fold (unwait c). fold s1. rewrite (run_load_cli _ _ s1 (unwait c)) by apply put_cli_lookup. exact Hop.
  - assert (forall x, heap_fields <$> mclis (mem s1) !! x = heap_fields <$> mclis (mem s) !! x) as Hhf.
    { intros x. simpl. rewrite lookup_insert. case_decide; [subst; by rewrite Hc|done]. }
    split; try done.
    + etransitivity; [by apply (put_cli_jframe s r (unwait c) c)|]. fold s1. by split.
    + split; try done.
      * apply (qwf_frame (mem s)); [by intros|apply HC].
      * intros t x. rewrite Hwl. intros [Hne Hx]%list_elem_of_filter.
        destruct (ci_in _ HC _ _ Hx) as (cx & Hcx & ?). exists cx. simpl. by rewrite lookup_insert_ne.
      * intros x cx Hx. simpl. intros [[<- <-]|[Hne Hcx]]%lookup_insert_Some; [done|]. intros Hwx.
        destruct (ci_out _ HC _ _ Hx Hcx Hwx) as (N1 & N2 & N3). split_and!; [done| |done].
        intros t Ht. rewrite Hwl. apply list_elem_of_filter. split; [done|by apply N2].
      * apply (ch_wf_frame (mem s)); [by intros|apply HC].
      * apply (ch_sorted_frame (mem s)); [by intros|apply HC].
      * apply HC.
      * intros x cx. simpl. intros [[<- <-]|[Hne Hcx]]%lookup_insert_Some Hn;
          [exact (ci_hidx _ HC r c Hc Hn)|by eapply (ci_hidx _ HC)].
Qed.

(** * Scheduling *)

(** The fields that scheduling does not touch. *)
Definition core_fields (c : ClientResvEntry) : ClientID * list TubeName * Z * bool :=
  (CliID c, WatchedTubes c, ResvDeadlineAt c, IsWaitingForResv c).

Lemma core_inv c c' :
  core_fields c' = core_fields c ->
  CliID c' = CliID c /\ WatchedTubes c' = WatchedTubes c /\ ResvDeadlineAt c' = ResvDeadlineAt c /\
  IsWaitingForResv c' = IsWaitingForResv c.
Proof. unfold core_fields. intros [=]. by split_and!. Qed.

Lemma CInv_frame s s' :
  CInv s -> tubes s' = tubes s ->
  (forall x, core_fields <$> mclis (mem s') !! x = core_fields <$> mclis (mem s) !! x) ->
  qwf (mem s') (clients s') -> (forall x, x ∈ registered s' -> x ∈ registered s) ->
  (forall x c, x ∈ registered s -> mclis (mem s) !! x = Some c -> IsWaitingForResv c = true ->
     x ∈ registered s') ->
  ch_wf (mem s') (clientHeap s') -> ch_sorted (mem s') (clientHeap s') ->
  (forall x, x ∈ clientHeap s' -> x ∈ registered s') ->
  (forall x c, mclis (mem s') !! x = Some c -> x ∉ clientHeap s' -> HeapIndex c = -1) -> CInv s'.
Proof.
  intros HC Ht Hcore Hq Hsub Hkeep Hw Hso Hhr Hhi.
  assert (forall x c, mclis (mem s) !! x = Some c -> exists c', mclis (mem s') !! x = Some c' /\
            core_fields c' = core_fields c) as Hfwd.
  { intros x c Hc. specialize (Hcore x). rewrite Hc in Hcore.
    destruct (mclis (mem s') !! x) as [c'|]; [|done]. exists c'. split; [done|]. by apply (inj Some). }
  assert (forall x, cid_of (mem s') x = cid_of (mem s) x) as Hcid.
  { intros x. unfold cid_of. specialize (Hcore x).
    destruct (mclis (mem s) !! x) as [c|], (mclis (mem s') !! x) as [c'|]; try done.
    simpl in *. f_equal. unfold core_fields in Hcore. congruence. }
  split; try done.
  - intros t. rewrite Ht. apply (qwf_frame (mem s)); [by intros|apply HC].
  - intros t x. unfold waiters. rewrite Ht. intros Hx.
    destruct (ci_in _ HC t x Hx) as (c & Hc & Hr & Hwt & Hwatch).
    destruct (Hfwd _ _ Hc) as (c' & Hc' & (E1 & E2 & E3 & E4)%core_inv).
    exists c'. rewrite E2, E4. split_and!; try done. by eapply Hkeep.
  - intros x c' Hr Hc' Hwt. pose proof (Hcore x) as Hcx. rewrite Hc' in Hcx.
    destruct (mclis (mem s) !! x) as [c|] eqn:Hc; [|done]. apply (inj Some) in Hcx.
    apply core_inv in Hcx as (E1 & E2 & E3 & E4). rewrite E2, E3. rewrite E4 in Hwt.
    unfold waiters. rewrite Ht. apply (ci_out _ HC x c); [by apply Hsub|done..].
Qed.

(** The first reserved job of a client. *)
Definition resv_root (s : localJSM) (cid : ClientID) : option Job :=
  er ← entries (heaps s (HReserved cid)) !! 0%nat; entry_job (mem s) er.

Lemma NextReservedJob_spec s cid :
  NextReservedJob cid s = match entries (heaps s (HReserved cid)) !! 0%nat with
                          | Some er => OK er s
                          | None => ERR ErrEntryMissing s
                          end.
Proof.
  unfold NextReservedJob, lift, ResvIdx.NextReservedJob, heaps, heap_of, Peek, Len.
  destruct (reservedJobs s !! cid) as [[[|r es] k]|]; done.
Qed.

Lemma resv_root_Some s cid er :
  JobsInv s -> entries (heaps s (HReserved cid)) !! 0%nat = Some er ->
  exists j, entry_job (mem s) er = Some j /\ resv_root s cid = Some j /\ least (abs s) (HReserved cid) j.
Proof.
  intros HI Her. destruct (root_least s (HReserved cid) er HI) as (j & Hj & Hl); [|done|].
  { by apply not_stale. }
  exists j. split_and!; [done| |done]. unfold resv_root. by rewrite Her.
Qed.

Lemma resv_root_None s cid :
  JobsInv s -> entries (heaps s (HReserved cid)) !! 0%nat = None ->
  forall jid j, abs s !! jid = Some j -> key_of j <> HReserved cid.
Proof.
  intros HI Hn jid j Ha Hk. destruct (abs_entry _ _ _ HI Ha) as (ie & er & _ & _ & _ & _ & _ & _ & Hin).
  rewrite Hk in Hin. destruct (entries (heaps s (HReserved cid))); [by apply elem_of_nil in Hin|done].
Qed.

(** The time of the next event of a client. *)
Definition tick_of (s : localJSM) (c : ClientResvEntry) : Z :=
  let n := match resv_root s (CliID c) with
           | Some job => minTime maxTime (if IsWaitingForResv c then wrap_i64 (expiresAt job - 1)
                                          else expiresAt job)
           | None => maxTime
           end in
  if IsWaitingForResv c then minTime n (ResvDeadlineAt c) else n.

Lemma minTime_min a b : minTime a b = Z.min a b.
Proof. unfold minTime. destruct (Z.ltb_spec a b); lia. Qed.

Lemma run_entry_load {A} er (k : Job -> JM A) s j :
  entry_job (mem s) er = Some j -> bind (entry_load er) k s = k j s.
Proof.
  intros Hj. unfold entry_load.
  by rewrite (bind_OK _ _ _ _ _ (deref_OK (fun s => entry_job (mem s) er) s j Hj)).
Qed.

Lemma next_tick_OK s r c :
  JobsInv s -> mclis (mem s) !! r = Some c -> next_tick r s = OK (tick_of s c) s.
Proof.
  intros HI Hc. unfold next_tick. rewrite (run_load_cli _ _ _ _ Hc). unfold tick_of.
  pose proof (NextReservedJob_spec s (CliID c)) as Hn.
  destruct (entries (heaps s (HReserved (CliID c))) !! 0%nat) as [er|] eqn:Her.
  - destruct (resv_root_Some s _ er HI Her) as (j & Hj & -> & _).
    rewrite (bind_OK _ _ _ _ _ (try_OK _ _ _ _ Hn)). rewrite bind_assoc.
    by rewrite (run_entry_load _ _ _ _ Hj).
  - assert (resv_root s (CliID c) = None) as -> by (unfold resv_root; by rewrite Her).
    by rewrite (bind_OK _ _ _ _ _ (try_ERR _ _ _ _ Hn)).
Qed.

(** The effect of [updateClientTickAt]. *)
Record rescheduled (s s' : localJSM) (r : CliRef) (c : ClientResvEntry) : Prop := {
  rs_jframe : jframe s s';
  rs_inv : CInv s';
  rs_tubes : tubes s' = tubes s;
  rs_stat : stat s' = stat s;
  rs_self : no_idx <$> mclis (mem s') !! r = Some (no_idx (set_TickAt (tick_of s c) c));
  rs_others x : x <> r -> no_idx <$> mclis (mem s') !! x = no_idx <$> mclis (mem s) !! x;
  rs_heap x : x <> r -> x ∈ clientHeap s' <-> x ∈ clientHeap s;
  rs_in : r ∈ clientHeap s' <-> tick_of s c < maxTime;
  rs_len : (length (clientHeap s') <= S (length (clientHeap s)))%nat;
  rs_reg : tick_of s c < maxTime \/ r ∉ clientHeap s -> clients s' = clients s;
  rs_reg_others x : x <> r -> x ∈ registered s' <-> x ∈ registered s
}.

(** The client stays in the heap, or enters it. *)
Lemma reschedule_in s r c m' h' :
  CInv s -> JobsInv s -> r ∈ registered s -> mclis (mem s) !! r = Some c -> tick_of s c < maxTime ->
  moves (mem (put_cli r (set_TickAt (tick_of s c) c) s)) m' -> ch_wf m' h' -> ch_sorted m' h' ->
  r ∈ h' -> (forall x, x <> r -> x ∈ h' <-> x ∈ clientHeap s) ->
  (length h' <= S (length (clientHeap s)))%nat ->
  (forall x, x ∉ h' -> HeapIndex <$> mclis m' !! x = HeapIndex <$> mclis (mem s) !! x) ->
  rescheduled s (set_clientHeap h' (set_mem m' s)) r c.
Proof.
  intros HC HI Hreg Hc Hn Hm Hw Hso Hr Hoth Hlen Hidx.
  set (s1 := put_cli r (set_TickAt (tick_of s c) c) s) in *.
  assert (jframe s s1) as Hj1 by (by eapply put_cli_jframe).
  assert (forall x, x <> r -> no_idx <$> mclis m' !! x = no_idx <$> mclis (mem s) !! x) as Hx.
  { intros x Hne. rewrite (mo_clis _ _ Hm x). simpl. by rewrite lookup_insert_ne. }
  assert (no_idx <$> mclis m' !! r = Some (no_idx (set_TickAt (tick_of s c) c))) as Hself.
  { rewrite (mo_clis _ _ Hm r). simpl. by rewrite lookup_insert_eq. }
  assert (forall x, core_fields <$> mclis m' !! x = core_fields <$> mclis (mem s) !! x) as Hcore.
  { intros x. destruct (decide (x = r)) as [->|Hne].
    - destruct (mclis m' !! r) as [c'|]; [|done]. rewrite Hc. apply (inj Some) in Hself.
      apply no_idx_inv in Hself as (E1 & E2 & E3 & E4 & _). unfold core_fields. simpl in *. congruence.
    - specialize (Hx x Hne). destruct (mclis m' !! x) as [c'|], (mclis (mem s) !! x) as [c0|]; try done.
      apply (inj Some) in Hx. apply no_idx_inv in Hx as (E1 & E2 & E3 & E4 & _).
      unfold core_fields. simpl in *. congruence. }
  assert (CInv (set_clientHeap h' (set_mem m' s))) as HC'.
  { apply (CInv_frame s); try done.
    - simpl. apply (qwf_frame (mem s)); [|apply HC]. intros x _. unfold cid_of. specialize (Hcore x).
      destruct (mclis m' !! x) as [c'|], (mclis (mem s) !! x) as [c0|]; try done.
      unfold core_fields in Hcore. simpl in *. congruence.
    - intros x Hx'. destruct (decide (x = r)) as [->|Hne]; [done|]. apply (ci_hreg _ HC). by apply Hoth.
    - intros x cx Hcx Hnin. simpl in *. specialize (Hidx x Hnin). rewrite Hcx in Hidx.
      destruct (mclis (mem s) !! x) as [c0|] eqn:Hc0; [|done]. simplify_eq/=. rewrite Hidx.
      apply (ci_hidx _ HC x c0 Hc0). intros Hin. apply Hnin.
      destruct (decide (x = r)) as [->|Hne]; [done|by apply Hoth]. }
  split; try done.
  destruct Hj1 as [A1 A2 A3 A4 A5 A6 A7 A8]. split; try done; simpl.
  - rewrite (mo_jobs _ _ Hm). apply A1.
  - rewrite (mo_ents _ _ Hm). apply A2.
  - intros Hmw. apply A3 in Hmw. destruct Hmw as [W1 W2 W3].
    split; intros x y; rewrite ?(mo_jobs _ _ Hm), ?(mo_ents _ _ Hm), (mo_next _ _ Hm); [apply W1|apply W2|].
    intros (c0 & Hc0 & _)%(moves_back _ _ _ _ Hm). by eapply W3.
Qed.

Lemma heap_member s r c : CInv s -> mclis (mem s) !! r = Some c -> (HeapIndex c <? 0) = negb (bool_decide (r ∈ clientHeap s)).
Proof.
  intros HC Hc. case_bool_decide as Hd; simpl.
  - apply list_elem_of_lookup_1 in Hd as [i Hi].
    apply (proj1 (proj1 (ch_wf_alt _ _) (ci_hwf _ HC))) in Hi. rewrite Hc in Hi. simplify_eq/=.
    apply Z.ltb_ge. lia.
  - rewrite (ci_hidx _ HC _ _ Hc Hd). done.
Qed.

(** The client leaves the heap and the registry, unless it was not in the heap. *)
Lemma reschedule_out s r c :
  CInv s -> JobsInv s -> r ∈ registered s -> mclis (mem s) !! r = Some c -> maxTime <= tick_of s c ->
  r ∉ clientHeap s ->
  rescheduled s (put_cli r (set_TickAt (tick_of s c) c) s) r c.
Proof.
  intros HC HI Hreg Hc Hn Hnin. set (s1 := put_cli r (set_TickAt (tick_of s c) c) s).
  assert (forall x, core_fields <$> mclis (mem s1) !! x = core_fields <$> mclis (mem s) !! x) as Hcore.
  { intros x. simpl. rewrite lookup_insert. case_decide; [subst; by rewrite Hc|done]. }
  assert (forall x, x ∈ clientHeap s -> heap_fields <$> mclis (mem s1) !! x = heap_fields <$> mclis (mem s) !! x) as Hhf.
  { intros x Hx. simpl. rewrite lookup_insert_ne; [done|]. by intros ->. }
  split; try done.
  - by eapply put_cli_jframe.
  - apply (CInv_frame s); try done.
    + apply (qwf_frame (mem s)); [|apply HC]. intros x _. by eapply put_cli_cid.
    + apply (ch_wf_frame (mem s)); [done|apply HC].
    + apply (ch_sorted_frame (mem s)); [done|apply HC].
    + apply HC.
    + intros x cx. simpl. intros [[<- <-]|[Hne Hcx]]%lookup_insert_Some Hx;
        [exact (ci_hidx _ HC r c Hc Hnin)|by eapply (ci_hidx _ HC)].
  - simpl. by rewrite lookup_insert_eq.
  - intros x Hx. simpl. by rewrite lookup_insert_ne.
  - split; [done|lia].
  - simpl. lia.
Qed.

Lemma moves_mem_wf m m' : moves m m' -> mem_wf m -> mem_wf m'.
Proof.
  intros Hm [W1 W2 W3].
  split; intros x y; rewrite ?(mo_jobs _ _ Hm), ?(mo_ents _ _ Hm), (mo_next _ _ Hm); [apply W1|apply W2|].
  intros (c0 & Hc0 & _)%(moves_back _ _ _ _ Hm). by eapply W3.
Qed.

Lemma moves_core m m' x : moves m m' -> core_fields <$> mclis m' !! x = core_fields <$> mclis m !! x.
Proof.
  intros Hm. pose proof (mo_clis _ _ Hm x) as Hx.
  destruct (mclis m' !! x) as [c'|], (mclis m !! x) as [c0|]; try done.
  apply (inj Some) in Hx. apply no_idx_inv in Hx as (E1 & E2 & E3 & E4 & _).
  unfold core_fields. simpl. congruence.
Qed.

(** A client whose next tick lies beyond the end of time waits for nothing. *)
Lemma never_ticks_idle s r c :
  CInv s -> r ∈ registered s -> mclis (mem s) !! r = Some c -> maxTime <= tick_of s c ->
  IsWaitingForResv c = false.
Proof.
  intros HC Hreg Hc Hn. destruct (IsWaitingForResv c) eqn:Hwt; [|done].
  destruct (ci_out _ HC _ _ Hreg Hc Hwt) as (_ & _ & Hd).
  unfold tick_of in Hn. rewrite Hwt, minTime_min in Hn. lia.
Qed.

Lemma core_fields_cid m m' x :
  core_fields <$> mclis m !! x = core_fields <$> mclis m' !! x -> cid_of m x = cid_of m' x.
Proof.
  intros Hcore. unfold cid_of. destruct (mclis m !! x), (mclis m' !! x); try done.
  unfold core_fields in Hcore. simpl in *. congruence.
Qed.

Lemma reschedule_drop s r c c1 m1 h1 q1 :
  CInv s -> JobsInv s -> r ∈ registered s -> mclis (mem s) !! r = Some c -> maxTime <= tick_of s c ->
  moves (mem s) m1 -> ch_wf m1 h1 -> ch_sorted m1 h1 -> clientHeap s ≡ₚ r :: h1 ->
  mclis m1 !! r = Some c1 -> HeapIndex c1 = -1 ->
  (forall x, x ∉ clientHeap s -> HeapIndex <$> mclis m1 !! x = HeapIndex <$> mclis (mem s) !! x) ->
  qview q1 = filter (fun x => x <> r) (registered s) -> qwf (mem s) q1 ->
  rescheduled s (put_cli r (set_TickAt (tick_of s c) c1) (set_clients q1 (set_clientHeap h1 (set_mem m1 s)))) r c.
Proof.
  intros HC HI Hreg Hc Hn Hm Hw Hso Hp Hc1 Hi1 Hidx Hv Hq.
  assert (r ∉ h1) as Hnin.
  { pose proof (ch_wf_NoDup _ _ (ci_hwf _ HC)) as Hnd. rewrite Hp in Hnd. by apply NoDup_cons in Hnd as [? _]. }
  assert (no_idx c1 = no_idx c) as Hc1c.
  { pose proof (mo_clis _ _ Hm r) as Hr. rewrite Hc, Hc1 in Hr. by apply (inj Some). }
  pose proof (never_ticks_idle s r c HC Hreg Hc Hn) as Hnw.
  set (s2 := set_clients q1 (set_clientHeap h1 (set_mem m1 s))).
  assert (forall x, core_fields <$> mclis (mem (put_cli r (set_TickAt (tick_of s c) c1) s2)) !! x =
            core_fields <$> mclis (mem s) !! x) as Hcore.
  { intros x. simpl. rewrite lookup_insert. case_decide; [subst|by apply moves_core].
    rewrite Hc. simpl. f_equal. apply no_idx_inv in Hc1c as (E1 & E2 & E3 & E4 & _).
    unfold core_fields. simpl. congruence. }
  assert (forall x, x ∈ h1 -> heap_fields <$> <[r:=set_TickAt (tick_of s c) c1]> (mclis m1) !! x =
            heap_fields <$> mclis m1 !! x) as Hhf.
  { intros x Hx. rewrite lookup_insert_ne; [done|]. by intros ->. }
  split; try done.
  - etransitivity; [|by eapply (put_cli_jframe s2)]. split; try done; simpl.
    + apply (mo_jobs _ _ Hm). + apply (mo_ents _ _ Hm). + by apply moves_mem_wf.
  - apply (CInv_frame s); try done; simpl.
    + apply (qwf_frame (mem s)); [|done]. intros x _. by apply core_fields_cid.
    + intros x. unfold registered. simpl. rewrite Hv. by intros [_ ?]%list_elem_of_filter.
    + intros x cx Hx Hcx Hwx. unfold registered. simpl. rewrite Hv. apply list_elem_of_filter.
      split; [|done]. intros ->. congruence.
    + by apply (ch_wf_frame m1).
    + by apply (ch_sorted_frame m1).
    + intros x Hx. unfold registered. simpl. rewrite Hv. apply list_elem_of_filter.
      split; [by intros ->|]. apply (ci_hreg _ HC). rewrite Hp. by right.
    + intros x cx [[<- <-]|[Hne Hcx]]%lookup_insert_Some Hx; [done|].
      assert (x ∉ clientHeap s) as Hx' by (rewrite Hp, elem_of_cons; naive_solver).
      specialize (Hidx x Hx'). rewrite Hcx in Hidx.
      destruct (mclis (mem s) !! x) as [c0|] eqn:Hc0; [|done]. simplify_eq/=. rewrite Hidx.
      by apply (ci_hidx _ HC x c0).
  - simpl. rewrite lookup_insert_eq. simpl. f_equal.
    destruct c as [], c1 as []. unfold set_HeapIndex, set_TickAt in *. simpl in *. congruence.
  - intros x Hx. simpl. rewrite lookup_insert_ne by done. apply (mo_clis _ _ Hm).
  - intros x Hx. simpl. rewrite Hp, elem_of_cons. naive_solver.
  - simpl. split; [done|lia].
  - simpl. rewrite Hp. simpl. lia.
  - intros [?|Hni]; [lia|]. destruct Hni. rewrite Hp. by left.
  - intros x Hx. unfold registered. simpl. rewrite Hv, list_elem_of_filter. naive_solver.
Qed.

Lemma updateClientTickAt_spec s r c :
  CInv s -> JobsInv s -> r ∈ registered s -> mclis (mem s) !! r = Some c ->
  exists s', updateClientTickAt r s = OK tt s' /\ rescheduled s s' r c.
Proof.
  intros HC HI Hreg Hc. unfold updateClientTickAt.
  rewrite (bind_OK _ _ _ _ _ (next_tick_OK _ _ _ HI Hc)), (run_load_cli _ _ _ _ Hc).
  rewrite Z.leb_antisym, (heap_member s r c HC Hc), negb_involutive.
  destruct (Z.ltb_spec (tick_of s c) maxTime) as [Hn|Hn]; case_bool_decide as Hin; cbn [negb].
  - destruct (cheap_UpdateTickAt (mem s) (clientHeap s) r (tick_of s c) c) as (m' & h' & Hop & Hw & Hm & Hp & Hi & Hso);
      [apply HC|done..|].
    exists (set_clientHeap h' (set_mem m' s)). split; [by apply on_cheap_OK|].
    apply reschedule_in; try done; [by apply Hso, HC|by rewrite Hp|by intros; rewrite Hp|rewrite Hp; lia|].
    intros x Hx. rewrite Hp in Hx. rewrite Hi by done. simpl. rewrite lookup_insert_ne; [done|]. by intros ->.
  - set (s1 := put_cli r (set_TickAt (tick_of s c) c) s).
    assert (forall x, x ∈ clientHeap s -> heap_fields <$> mclis (mem s1) !! x = heap_fields <$> mclis (mem s) !! x) as Hhf.
    { intros x Hx. simpl. rewrite lookup_insert_ne; [done|]. by intros ->. }
    destruct (cheap_Enqueue (mem s1) (clientHeap s) r) as (m' & h' & Hop & Hw & Hm & Hp & Hi & Hso).
    { apply (ch_wf_frame (mem s)); [done|apply HC]. }
    { simpl. rewrite lookup_insert_eq. eauto. }
    { done. }
    exists (set_clientHeap h' (set_mem m' s)). rewrite (run_update_cli _ _ _ _ _ Hc). fold s1.
    split; [by rewrite (on_cheap_OK _ s1 _ _ _ Hop)|].
    apply reschedule_in; try done.
    + apply Hso, (ch_sorted_frame (mem s)); [done|apply HC].
    + rewrite Hp. by left.
    + intros x Hx. rewrite Hp, elem_of_cons. naive_solver.
    + rewrite Hp. simpl. lia.
    + intros x. rewrite Hp, not_elem_of_cons. intros [Hx1 Hx2]. rewrite Hi by done. simpl.
      by rewrite lookup_insert_ne.
  - destruct (cheap_Remove (mem s) (clientHeap s) r) as (m1 & h1 & Hop & Hw & Hm & Hp & Hr & Hi & Hso);
      [apply HC|done|].
    destruct (mclis m1 !! r) as [c1|] eqn:Hc1; [|done]. simplify_eq/=.
    destruct (Remove_spec (mem s) (clients s) r (CliID c)) as (q1 & Hq1 & Hv & Hqw);
      [apply HC|done|unfold cid_of; by rewrite Hc|].
    eexists. split; [|by apply (reschedule_drop s r c c1 m1 h1 q1); try done; apply Hso, HC].
    rewrite bind_assoc. rewrite (bind_OK _ _ _ _ _ (try_OK _ _ _ _ (on_cheap_OK _ s _ _ _ Hop))).
    rewrite bind_assoc, (bind_OK (gets JSM.clients) _ _ (clients s) (set_clientHeap h1 (set_mem m1 s))) by done.
    rewrite Hq1. by apply update_cli_OK.
  - rewrite (bind_OK (ret tt) _ s tt s) by done. eexists. split; [by apply update_cli_OK|].
    by apply reschedule_out.
Qed.
