(* ===== verification/Reserve.v ===== *)
(** Matching jobs with clients: [tryReserveJob], [AppendReservation], [Touch] and
    [CheckClientState] of [jsm.go]. *)
From stdpp Require Import base gmap list strings.
From Stdlib Require Import ZArith Lia.
From S2P Require Import Prelude GoHeap Job JobHeap ClientResv Index JSM Heaps JobInv.
From S2P Require Import Transitions Commands CliInv Clients.
Local Open Scope Z_scope.

(** * Job operations and the clients *)
Lemma cframe_waiters s s' t : CInv s -> cframe s s' -> waiters s' t = waiters s t.
Proof.
  intros HC [_ _ _ Hq]. unfold waiters. destruct (Hq t) as [->|[He ->]]; [done|].
  pose proof (ci_wq _ HC t) as Hw. destruct (qview (wait_queue (tubes s) t)) as [|r l] eqn:Hv; [done|].
  assert (r ∈ qview (wait_queue (tubes s) t)) as Hr by (rewrite Hv; left).
  destruct (qwf_cid _ _ _ Hw Hr) as [cid Hc]. destruct (qwf_elem _ _ _ _ Hw Hr Hc) as (el & Hel & _).
  by rewrite He, lookup_empty in Hel.
Qed.

Lemma cframe_CInv s s' : cframe s s' -> CInv s -> CInv s'.
Proof.
  intros Hf HC. pose proof (fun t => cframe_waiters s s' t HC Hf) as Hw. pose proof Hf as [F1 F2 F3 F4].
  assert (forall q, qwf (mem s) q -> qwf (mem s') q) as Hq.
  { intros q. apply qwf_frame. intros x _. unfold cid_of. by rewrite F1. }
  assert (forall x, heap_fields <$> mclis (mem s') !! x = heap_fields <$> mclis (mem s) !! x) as Hh.
  { intros. by rewrite F1. }
  assert (registered s' = registered s) as Hr by (unfold registered; by rewrite F3).
  split; rewrite ?F1, ?F2, ?F3, ?Hr.
  - apply Hq, HC.
  - intros t. destruct (F4 t) as [->|[_ ->]]; [apply Hq, HC|apply qwf_new].
  - intros t r. rewrite Hw. apply HC.
  - intros r c Hreg Hc Hwt. destruct (ci_out _ HC _ _ Hreg Hc Hwt) as (A & B & C).
    split_and!; [done| |done]. intros t Ht. rewrite Hw. by apply B.
  - apply (ch_wf_frame (mem s)); [by intros|apply HC].
  - apply (ch_sorted_frame (mem s)); [by intros|apply HC].
  - apply HC.
  - apply HC.
Qed.

(** [tick_of] reads the reserved heap of the client and the core of its entry. *)
Lemma tick_of_jframe s s' c c' : jframe s s' -> core_fields c' = core_fields c -> tick_of s' c' = tick_of s c.
Proof.
  intros Hf (E1 & E2 & E3 & E4)%core_inv. unfold tick_of, resv_root. rewrite E1, E3, E4, (jf_heaps _ _ Hf).
  destruct (entries (heaps s (HReserved (CliID c))) !! 0%nat) as [er|]; simpl; [|done].
  by rewrite (jframe_entry_job _ _ _ Hf).
Qed.

(** After [updateClientTickAt] the client's [TickAt] is up to date. *)
Definition scheduled (s : localJSM) (r : CliRef) (c : ClientResvEntry) : Prop :=
  mclis (mem s) !! r = Some c /\ TickAt c = tick_of s c /\ (r ∈ clientHeap s <-> TickAt c < maxTime).

Lemma rescheduled_scheduled s s' r c :
  rescheduled s s' r c -> exists c', scheduled s' r c' /\ core_fields c' = core_fields c /\ ReqID c' = ReqID c.
Proof.
  intros R. pose proof (rs_self _ _ _ _ R) as Hself. destruct (mclis (mem s') !! r) as [c'|] eqn:Hc'; [|done].
  apply (inj Some) in Hself. apply no_idx_inv in Hself as (E1 & E2 & E3 & E4 & E5 & E6). simpl in *.
  assert (core_fields c' = core_fields c) as Hcore by (unfold core_fields; congruence).
  assert (tick_of s' c' = tick_of s c) as Htk by (apply tick_of_jframe; [apply R|done]).
  exists c'. split; [|done]. unfold scheduled. split; [done|]. rewrite Htk. split; [done|].
  rewrite E5. apply R.
Qed.

(** * [tryReserveJob] *)
Definition ready_root (s : localJSM) (t : TubeName) : option EntRef := entries (heaps s (HReady t)) !! 0%nat.

Lemma PeekReadyJob_spec s t :
  PeekReadyJob t s = match ready_root s t with
                     | Some er => OK er (bump nCmdPeekReady s)
                     | None => ERR ErrEntryMissing (bump nCmdPeekReady s)
                     end.
Proof.
  unfold PeekReadyJob. rewrite run_incr. unfold lift, TubeIdx.NextReadyJob, TubeIdx.next_of, ready_root, heaps,
    heap_of, tube_state, Peek, Len. simpl.
  destruct (tubes s !! t) as [ts|]; simpl; [|done]. by destruct (readyJobs ts) as [[|x es] k].
Qed.

Definition matched_resv (c : ClientResvEntry) (j : Job) : Reservation :=
  mkReservation (ReqID c) (CliID c) (id j) Matched (bodySize j) (body j) None.

(** Job [j] went to client [r], whose entry was [c]. *)
Record matched (s s' : localJSM) (now : Z) (j : Job) (r : CliRef) (c : ClientResvEntry) : Prop := {
  mt_jobs : JobsInv s';
  mt_cinv : CInv s';
  mt_abs : abs s' = <[id j := reserve_job now (CliID c) j]> (abs s);
  mt_waiters t : waiters s' t = filter (fun x => x <> r) (waiters s t);
  mt_self : exists c', scheduled s' r c' /\ core_fields c' = core_fields (unwait c);
  mt_others x : x <> r -> no_idx <$> mclis (mem s') !! x = no_idx <$> mclis (mem s) !! x;
  mt_heap x : x <> r -> x ∈ clientHeap s' <-> x ∈ clientHeap s;
  mt_reg x : x <> r -> x ∈ registered s' <-> x ∈ registered s;
  mt_reg_self : r ∈ clientHeap s' \/ r ∉ clientHeap s -> r ∈ registered s';
  mt_max : maxJobID s' = maxJobID s;
  mt_tick : nextDelayTickAt s' = nextDelayTickAt s
}.

(** The part of [tryReserveJob] after the choice of job and client. *)
Lemma reserve_for s now t er j r c :
  JobsInv s -> CInv s -> ready_root s t = Some er -> entry_job (mem s) er = Some j ->
  r ∈ registered s -> mclis (mem s) !! r = Some c -> IsWaitingForResv c = true ->
  exists s', (res <- try (Reserve now (id j) (CliID c)) ;;
     match res with
     | inr _ => panic
     | inl _ => unReserve r ;; updateClientTickAt r ;; ret (matched_resv c j)
     end) s = OK (matched_resv c j) s' /\ matched s s' now j r c.
Proof.
  intros HI HC Her Hj Hreg Hc Hw.
  destruct (root_least s (HReady t) er HI) as (j' & Hj' & Hl); [by apply not_stale|done|].
  simplify_eq. destruct Hl as (Ha & Hk & _).
  pose proof (fromReadyToReserved_implements s now (id j) (CliID c) HI) as Himp.
  unfold implements, a_reserve, guard_state in Himp. rewrite Ha in Himp.
  rewrite decide_False in Himp. 2: { unfold key_of in Hk. destruct (state j); naive_solver. }
  destruct Himp as (s1 & Hop & [M1 M2 M3 M4 M5]). unfold no_more in *.
  rewrite (bind_OK _ _ _ _ _ (try_OK _ _ _ _ Hop)).
  pose proof (cframe_CInv _ _ M4 HC) as HC1. destruct M4 as [F1 F2 F3 F4].
  assert (registered s1 = registered s) as Hr1 by (unfold registered; by rewrite F3).
  destruct (unReserve_spec s1 r c) as (s2 & Hop2 & U); [done|by rewrite Hr1|by rewrite F1|done|].
  rewrite (bind_OK _ _ _ _ _ Hop2).
  pose proof (jframe_inv _ _ (ur_jframe _ _ _ _ U) M1) as HI2.
  assert (registered s2 = registered s) as Hr2.
  { unfold registered. by rewrite (ur_clients _ _ _ _ U), F3. }
  destruct (updateClientTickAt_spec s2 r (unwait c)) as (s3 & Hop3 & R);
    [apply U|done|by rewrite Hr2|rewrite (ur_clis _ _ _ _ U); apply lookup_insert_eq|].
  rewrite (bind_OK _ _ _ _ _ Hop3). exists s3. split; [done|].
  unfold misc in M3. injection M3 as N1 N2 N3 N4. split.
  - by apply (jframe_inv s2); [apply R|].
  - apply R.
  - rewrite (jframe_abs _ _ (rs_jframe _ _ _ _ R)), (jframe_abs _ _ (ur_jframe _ _ _ _ U)). done.
  - intros t'. unfold waiters at 1. rewrite (rs_tubes _ _ _ _ R). fold (waiters s2 t').
    rewrite (ur_waiters _ _ _ _ U). f_equal. apply cframe_waiters; [done|]. by split.
  - destruct (rescheduled_scheduled _ _ _ _ R) as (c' & ? & ? & _). eauto.
  - intros x Hx. rewrite (rs_others _ _ _ _ R) by done. rewrite (ur_clis _ _ _ _ U), lookup_insert_ne by done.
    by rewrite F1.
  - intros x Hx. rewrite (rs_heap _ _ _ _ R) by done. by rewrite (ur_heap _ _ _ _ U), F2.
  - intros x Hx. rewrite (rs_reg_others _ _ _ _ R) by done. by rewrite Hr2.
  - intros Hor. unfold registered. rewrite (rs_reg _ _ _ _ R); [by fold (registered s2); rewrite Hr2|].
    rewrite (rs_in _ _ _ _ R) in Hor. rewrite (ur_heap _ _ _ _ U), F2. done.
  - rewrite (jf_max _ _ (rs_jframe _ _ _ _ R)), (jf_max _ _ (ur_jframe _ _ _ _ U)). done.
  - rewrite (jf_tick _ _ (rs_jframe _ _ _ _ R)), (jf_tick _ _ (ur_jframe _ _ _ _ U)). done.
Qed.

Lemma WaitQLen_spec s t :
  CInv s -> is_Some (tubes s !! t) -> TubeIdx.WaitQLen t (tubes s) = inl (Z.of_nat (length (waiters s t))).
Proof.
  intros HC [ts Ht]. unfold TubeIdx.WaitQLen, waiters. rewrite Ht. rewrite <- (Len_view (mem s)) by apply HC.
  unfold wait_queue, tube_state. by rewrite Ht.
Qed.

Lemma DequeueFromWaitQ_spec s t r l :
  waiters s t = r :: l -> TubeIdx.DequeueFromWaitQ t (tubes s) = inl r.
Proof.
  intros Hw. assert (r ∈ waiters s t) as Hr by (rewrite Hw; left).
  pose proof (waiter_tube _ _ _ Hr) as Ht. unfold TubeIdx.DequeueFromWaitQ. rewrite Ht.
  fold (wait_queue (tubes s) t). unfold waiters, qview, CliQueue.Dequeue in *.
  destruct (CliQueue.ql (wait_queue (tubes s) t)) as [|el els]; [done|]. simpl in *. by simplify_eq.
Qed.

(** Nothing to match: no client waits on the tube, or no job is ready in it. *)
Lemma tryReserveJob_none s now t cli :
  CInv s -> is_Some (tubes s !! t) -> waiters s t = [] \/ ready_root s t = None ->
  exists s', tryReserveJob now t cli s = ERR ErrNoReservationFound s' /\ (s' = s \/ s' = bump nCmdPeekReady s).
Proof.
  intros HC Ht Hno. unfold tryReserveJob.
  rewrite (bind_OK (lift _) _ s (Z.of_nat (length (waiters s t))) s); [|unfold lift; by rewrite WaitQLen_spec].
  destruct (Z.eqb_spec (Z.of_nat (length (waiters s t))) 0) as [E|E]; [eauto|].
  destruct Hno as [Hw|Hr]; [rewrite Hw in E; done|].
  pose proof (PeekReadyJob_spec s t) as Hp. rewrite Hr in Hp.
  rewrite (bind_OK _ _ _ _ _ (try_ERR _ _ _ _ Hp)). eauto.
Qed.

(** The ready job of the tube that is least goes to the given client, or else to
    the client that heads the queue. *)
Lemma tryReserveJob_some s now t cli er r l :
  JobsInv s -> CInv s -> ready_root s t = Some er -> waiters s t = r :: l ->
  let r' := default r cli in r' ∈ waiters s t ->
  exists j c s', least (abs s) (HReady t) j /\ mclis (mem s) !! r' = Some c /\
    tryReserveJob now t cli s = OK (matched_resv c j) s' /\ matched s s' now j r' c.
Proof.
  intros HI HC Her Hw r' Hr'. destruct (ci_in _ HC _ _ Hr') as (c & Hc & Hreg & Hwt & Hwatch).
  destruct (root_least s (HReady t) er HI) as (j & Hj & Hl); [by apply not_stale|done|].
  set (s0 := bump nCmdPeekReady s).
  destruct (reserve_for s0 now t er j r' c) as (s' & Hop & M); [done|by apply (cframe_CInv s)|done..|].
  exists j, c, s'. split_and!; [done|done| |].
  - unfold tryReserveJob.
    rewrite (bind_OK (lift _) _ s (Z.of_nat (length (waiters s t))) s).
    2: { unfold lift. rewrite WaitQLen_spec; [done|done|]. rewrite (waiter_tube _ _ _ Hr'). eauto. }
    rewrite Hw. cbn [length]. rewrite (proj2 (Z.eqb_neq _ _)) by lia.
    pose proof (PeekReadyJob_spec s t) as Hp. rewrite Her in Hp.
    rewrite (bind_OK _ _ _ _ _ (try_OK _ _ _ _ Hp)). fold s0.
    rewrite (bind_OK _ _ s0 r' s0).
    2: { subst r'. destruct cli as [r0|]; [done|]. simpl.
         rewrite (bind_OK _ _ s0 (inl r) s0); [done|]. unfold try, lift.
         change (tubes s0) with (tubes s). by rewrite (DequeueFromWaitQ_spec s t r l Hw). }
    rewrite (run_load_cli _ _ s0 c Hc), Hwt. cbn [negb].
    rewrite (run_entry_load _ _ s0 j Hj). exact Hop.
  - destruct M as [M1 M2 M3 M4 M5 M6 M7 M8 M9 M10 M11]. by split.
Qed.

(** * Registering a client as waiting *)

(** The entry of a client that starts waiting. *)
Definition start_entry (old : option ClientResvEntry) (cid : ClientID) (reqID : string)
    (watched : list TubeName) (deadline : Z) : ClientResvEntry :=
  match old with
  | None => mkClientResvEntry cid watched deadline true 0 reqID (-1)
  | Some c => mkClientResvEntry (CliID c) watched deadline true (TickAt c) reqID (HeapIndex c)
  end.

Record started (s s' : localJSM) (r : CliRef) (c : ClientResvEntry) : Prop := {
  st_jframe : jframe s s';
  st_tubes : tubes s' = tubes s;
  st_heap : clientHeap s' = clientHeap s;
  st_reg : registered s' = registered s \/ registered s' = registered s ++ [r];
  st_in : r ∈ registered s';
  st_qwf : qwf (mem s') (clients s');
  st_self : mclis (mem s') !! r = Some c;
  st_old : r ∈ clientHeap s -> heap_fields <$> mclis (mem s) !! r = Some (heap_fields c);
  st_idx : r ∉ clientHeap s -> HeapIndex c = -1;
  st_free t : r ∉ waiters s t;
  st_same : r ∈ registered s -> cid_of (mem s) r = Some (CliID c);
  st_cid x : x <> r -> x ∈ registered s -> cid_of (mem s) x <> Some (CliID c);
  st_others x : x <> r -> mclis (mem s') !! x = mclis (mem s) !! x
}.

Lemma start_waiting_new s cid reqID watched deadline :
  CInv s -> JobsInv s -> CliQueue.Find cid (clients s) = inr ErrEntryMissing ->
  exists r s', start_waiting cid reqID watched deadline s = OK r s' /\
    started s s' r (start_entry None cid reqID watched deadline).
Proof.
  intros HC HI Hf. pose proof (ji_mem _ _ _ HI) as Hmw. set (r := mnext (mem s)).
  set (c := start_entry None cid reqID watched deadline).
  assert (mclis (mem s) !! r = None) as Hfresh.
  { destruct (mclis (mem s) !! r) as [c0|] eqn:E; [|done]. apply (mw_clis _ Hmw) in E. subst r. lia. }
  set (s1 := set_mem (alloc_cli c (mem s)).2 s).
  assert (forall q, (forall x, x ∈ qview q -> is_Some (mclis (mem s) !! x)) ->
            forall x, x ∈ qview q -> cid_of (mem s1) x = cid_of (mem s) x) as Hcid.
  { intros q Hall x Hx. unfold cid_of. simpl. rewrite lookup_insert_ne; [done|].
    intros Heq. destruct (Hall _ Hx) as [y Hy]. rewrite <- Heq in Hy. fold r in Hy. by rewrite Hfresh in Hy. }
  assert (forall q, qwf (mem s) q -> forall x, x ∈ qview q -> is_Some (mclis (mem s) !! x)) as Hall.
  { intros q Hq x Hx. destruct (qwf_cid _ _ _ Hq Hx) as [c0 Hc0]. unfold cid_of in Hc0.
    destruct (mclis (mem s) !! x); [eauto|done]. }
  destruct (Find_cases (mem s) (clients s) cid (ci_reg _ HC)) as [(r0 & E & _)|[_ Hno]]; [congruence|].
  assert (forall x, x ∈ registered s -> cid_of (mem s1) x = cid_of (mem s) x) as Hcr.
  { apply Hcid, Hall, HC. }
  destruct (q_Enqueue_spec (mem s1) (clients s) r cid) as (q' & Hq & Hv & Hqw).
  { apply (qwf_frame (mem s)); [exact Hcr|apply HC]. }
  { unfold cid_of. simpl. by rewrite lookup_insert_eq. }
  { intros x Hx. rewrite Hcr by done. by apply Hno. }
  assert (r ∉ registered s) as Hnr.
  { intros Hr. destruct (Hall _ (ci_reg _ HC) _ Hr) as [y Hy]. by rewrite Hfresh in Hy. }
  exists r, (set_clients q' s1). split.
  - unfold start_waiting. rewrite (bind_OK _ _ s (inr ErrEntryMissing) s).
    2: { unfold try, clients_Find, lift. by rewrite Hf. }
    rewrite (bind_OK _ _ s r s1) by done.
    rewrite (bind_OK _ _ s1 q' s1); [done|]. unfold lift. change (clients s1) with (clients s). by rewrite Hq.
  - split; try done.
    + split; try done. intros [W1 W2 W3]. split; simpl; [intros ?? ?%W1; lia|intros ?? ?%W2; lia|].
      intros x y [[<- _]|[_ Hy]]%lookup_insert_Some; [subst r; lia|]. apply W3 in Hy. lia.
    + right. unfold registered. simpl. by rewrite Hv.
    + unfold registered. simpl. rewrite Hv. set_solver.
    + simpl. by rewrite lookup_insert_eq.
    + intros Hin. by destruct (Hnr (ci_hreg _ HC _ Hin)).
    + intros t Hin. destruct (ci_in _ HC _ _ Hin) as (? & _ & ? & _). done.
    + intros x _ Hx. by apply Hno.
    + intros x Hx. simpl. by rewrite lookup_insert_ne.
Qed.

Lemma start_waiting_old s cid reqID watched deadline r c :
  CInv s -> CliQueue.Find cid (clients s) = inl r -> mclis (mem s) !! r = Some c ->
  if IsWaitingForResv c
  then start_waiting cid reqID watched deadline s = ERR ErrClientIsWaitingForReservation s
  else exists s', start_waiting cid reqID watched deadline s = OK r s' /\
         started s s' r (start_entry (Some c) cid reqID watched deadline).
Proof.
  intros HC Hf Hc. assert (r ∈ registered s /\ cid_of (mem s) r = Some cid) as [Hr Hcid].
  { by apply (Find_inl _ _ _ _ (ci_reg _ HC)). }
  assert (forall k, start_waiting cid reqID watched deadline s = k ->
    (if IsWaitingForResv c then raise ErrClientIsWaitingForReservation else
     update_cli r (set_ReqID reqID) ;; update_cli r (set_WatchedTubes watched) ;;
     update_cli r (set_ResvDeadlineAt deadline) ;; update_cli r (set_IsWaitingForResv true) ;; ret r) s = k) as Hk.
  { intros k <-. unfold start_waiting. rewrite (bind_OK _ _ s (inl r) s).
    2: { unfold try, clients_Find, lift. by rewrite Hf. }
    by rewrite (run_load_cli _ _ _ _ Hc). }
  rewrite <- (Hk _ eq_refl). clear Hk. destruct (IsWaitingForResv c) eqn:Hwt; [done|].
  set (c' := start_entry (Some c) cid reqID watched deadline).
  exists (put_cli r c' s). split.
  - rewrite (run_update_cli _ _ _ _ _ Hc), !run_update_cli_put. done.
  - assert (forall x, cid_of (mem (put_cli r c' s)) x = cid_of (mem s) x) as Hcids by (intros; by eapply put_cli_cid).
    split; try done.
    + by eapply put_cli_jframe.
    + by left.
    + apply (qwf_frame (mem s)); [by intros|apply HC].
    + apply put_cli_lookup.
    + intros _. by rewrite Hc.
    + intros Hin. exact (ci_hidx _ HC r c Hc Hin).
    + intros t Hin. destruct (ci_in _ HC _ _ Hin) as (c0 & Hc0 & _ & Hw0 & _). congruence.
    + intros _. unfold cid_of. by rewrite Hc.
    + intros x Hne Hx Hcx. apply Hne. eapply (qwf_inj _ _ _ _ _ (ci_reg _ HC) Hx Hr Hcx).
      unfold cid_of. by rewrite Hc.
    + intros x Hx. simpl. by rewrite lookup_insert_ne.
Qed.

(** * [AppendReservation] *)

(** In the queues of all its watched tubes, the client is waiting for good. *)
Lemma started_waiting s s1 r c ti' :
  CInv s -> started s s1 r c -> IsWaitingForResv c = true -> NoDup (WatchedTubes c) ->
  ResvDeadlineAt c < maxTime ->
  queues_step s1 (fun t => if decide (t ∈ WatchedTubes c) then waiters s1 t ++ [r] else waiters s1 t) ti' ->
  CInv (set_tubes ti' s1).
Proof.
  intros HC S Hwt Hnd Hdl [Q1 Q2 Q3].
  assert (forall t, waiters s1 t = waiters s t) as Hw1 by (intros; unfold waiters; by rewrite (st_tubes _ _ _ _ S)).
  assert (forall x, x ∈ registered s -> x ∈ registered s1) as Hsub.
  { intros x Hx. destruct (st_reg _ _ _ _ S) as [->| ->]; set_solver. }
  assert (forall x, x <> r -> x ∈ registered s1 -> x ∈ registered s) as Hsub'.
  { intros x Hne Hx. destruct (st_reg _ _ _ _ S) as [E|E]; rewrite E in Hx; [done|].
    apply elem_of_app in Hx as [Hx|Hx%list_elem_of_singleton]; done. }
  assert (forall x, x ∈ clientHeap s -> heap_fields <$> mclis (mem s1) !! x = heap_fields <$> mclis (mem s) !! x) as Hhf.
  { intros x Hx. destruct (decide (x = r)) as [->|Hne]; [|by rewrite (st_others _ _ _ _ S)].
    by rewrite (st_self _ _ _ _ S), (st_old _ _ _ _ S Hx). }
  split; simpl.
  - apply S.
  - exact Q2.
  - intros t x. unfold waiters. simpl. rewrite Q3. intros Hx.
    destruct (decide (x = r)) as [->|Hne].
    + exists c. split_and!; [apply S|apply S|done|]. case_decide; [done|].
      rewrite Hw1 in Hx. by destruct (st_free _ _ _ _ S t).
    + assert (x ∈ waiters s t) as Hx'.
      { rewrite Hw1 in Hx. case_decide; [|done]. apply elem_of_app in Hx as [?|Hx%list_elem_of_singleton]; done. }
      destruct (ci_in _ HC _ _ Hx') as (cx & Hcx & Hrx & ? & ?). exists cx.
      rewrite (st_others _ _ _ _ S) by done. split_and!; [done| |done|done]. by apply Hsub.
  - intros x cx Hx Hcx Hwx. unfold waiters. simpl.
    destruct (decide (x = r)) as [->|Hne].
    + rewrite (st_self _ _ _ _ S) in Hcx. simplify_eq. split_and!; [done| |done].
      intros t Ht. rewrite Q3. rewrite decide_True by done. set_solver.
    + rewrite (st_others _ _ _ _ S) in Hcx by done.
      destruct (ci_out _ HC x cx (Hsub' _ Hne Hx) Hcx Hwx) as (A & B & C). split_and!; [done| |done].
      intros t Ht. rewrite Q3, Hw1. specialize (B t Ht). case_decide; [set_solver|done].
  - apply (ch_wf_frame (mem s)); rewrite (st_heap _ _ _ _ S); [done|apply HC].
  - apply (ch_sorted_frame (mem s)); rewrite (st_heap _ _ _ _ S); [done|apply HC].
  - intros x. rewrite (st_heap _ _ _ _ S). intros Hx. by apply Hsub, (ci_hreg _ HC).
  - intros x cx Hcx. rewrite (st_heap _ _ _ _ S). intros Hx. destruct (decide (x = r)) as [->|Hne].
    + rewrite (st_self _ _ _ _ S) in Hcx. simplify_eq. by apply (st_idx _ _ _ _ S).
    + rewrite (st_others _ _ _ _ S) in Hcx by done. by eapply (ci_hidx _ HC).
Qed.

(** Only statistics changed. *)
Definition stat_only (s s' : localJSM) : Prop := exists st, s' = set_stat st s.

Lemma stat_only_refl s : stat_only s s.
Proof. exists (stat s). by destruct s. Qed.
Lemma stat_only_bump s s' f : stat_only (bump f s) s' -> stat_only s s'.
Proof. intros [st ->]. by exists st. Qed.

(** The first tube of the list with a ready job. *)
Definition first_ready (s : localJSM) (ts : list TubeName) (t : TubeName) : Prop :=
  exists l1 l2, ts = l1 ++ t :: l2 /\ (forall t', t' ∈ l1 -> ready_root s t' = None) /\
    ready_root s t <> None.

Lemma reserve_first_spec now r ts s :
  JobsInv s -> CInv s -> (forall t, t ∈ ts -> r ∈ waiters s t) ->
  (exists s', reserve_first now ts r s = OK None s' /\ stat_only s s' /\
     forall t, t ∈ ts -> ready_root s t = None) \/
  (exists t j c s', first_ready s ts t /\ least (abs s) (HReady t) j /\ mclis (mem s) !! r = Some c /\
     reserve_first now ts r s = OK (Some (matched_resv c j)) s' /\ matched s s' now j r c).
Proof.
  revert s. induction ts as [|t ts IH]; intros s HI HC Hin.
  { left. exists s. split_and!; [done|apply stat_only_refl|]. by intros t ?%elem_of_nil. }
  pose proof (Hin t ltac:(left)) as Hr. cbn [reserve_first].
  destruct (ready_root s t) as [er|] eqn:Her.
  - right. destruct (waiters s t) as [|r0 l] eqn:Hw; [by apply elem_of_nil in Hr|].
    destruct (tryReserveJob_some s now t (Some r) er r0 l) as (j & c & s' & Hl & Hc & Hop & M);
      [done|done|done|done|simpl; by rewrite Hw|].
    exists t, j, c, s'. split_and!; [|done|done| |done].
    + exists [], ts. split_and!; [done|by intros ? ?%elem_of_nil|congruence].
    + by rewrite (bind_OK _ _ _ _ _ (try_OK _ _ _ _ Hop)).
  - destruct (tryReserveJob_none s now t (Some r) HC) as (s1 & Hop & Hs1);
      [by rewrite (waiter_tube _ _ _ Hr); eauto|by right|].
    rewrite (bind_OK _ _ _ _ _ (try_ERR _ _ _ _ Hop)).
    assert (stat_only s s1) as [st ->] by (destruct Hs1 as [->| ->]; [apply stat_only_refl|by eexists]).
    destruct (IH (set_stat st s)) as [(s' & Hop' & [st' Hst] & Hno)|(t' & j & c & s' & Hfr & Hl & Hc & Hop' & M)].
    + done.
    + by apply (cframe_CInv s).
    + intros t' Ht'. apply Hin. by right.
    + left. exists s'. split_and!; [done|subst; by eexists|]. intros t' [->|Ht']%elem_of_cons; [done|by apply Hno].
    + right. exists t', j, c, s'. split_and!; [|done|done|done|].
      * destruct Hfr as (l1 & l2 & -> & H1 & H2). exists (t :: l1), l2. split_and!; [done| |done].
        intros x [->|Hx]%elem_of_cons; [done|by apply H1].
      * destruct M as [M1 M2 M3 M4 M5 M6 M7 M8 M9 M10 M11]. by split.
Qed.

(** A step in which client [r] was served, queued or re-scheduled: the invariants
    hold, its schedule is up to date and the other clients are as they were. *)
Record client_step (s s' : localJSM) (r : CliRef) (c' : ClientResvEntry) : Prop := {
  cs_jobs : JobsInv s';
  cs_cinv : CInv s';
  cs_self : scheduled s' r c';
  cs_others x : x <> r -> no_idx <$> mclis (mem s') !! x = no_idx <$> mclis (mem s) !! x;
  cs_heap x : x <> r -> x ∈ clientHeap s' <-> x ∈ clientHeap s;
  cs_reg x : x <> r -> x ∈ registered s' <-> x ∈ registered s;
  cs_reg_self : TickAt c' < maxTime -> r ∈ registered s';
  cs_max : maxJobID s' = maxJobID s;
  cs_tick : nextDelayTickAt s' = nextDelayTickAt s
}.

Lemma matched_client_step s s' now j r c :
  matched s s' now j r c ->
  exists c', client_step s s' r c' /\ core_fields c' = core_fields (unwait c).
Proof.
  intros M. destruct (mt_self _ _ _ _ _ _ M) as (c' & Hs & Hcore). exists c'. split; [|done].
  split; try apply M; [done|]. intros Ht. apply (ci_hreg s'); [apply M|]. by apply Hs.
Qed.

Definition queued_resv (cid : ClientID) (reqID : string) : Reservation :=
  mkReservation reqID cid 0 Queued 0 None None.

(** What a call that passes the checks does, for the client's new entry [c]. *)
Record appended (s s' : localJSM) (now : Z) (r : CliRef) (c : ClientResvEntry) (resv : Reservation)
    : Prop := {
  ap_same : r ∈ registered s -> cid_of (mem s) r = Some (CliID c);
  ap_cid x : x <> r -> x ∈ registered s -> cid_of (mem s) x <> Some (CliID c);
  ap_step : exists c', client_step s s' r c' /\ CliID c' = CliID c /\
    (IsWaitingForResv c' = true <-> r_Status resv = Queued);
  ap_result :
    (exists t j, first_ready s (WatchedTubes c) t /\ least (abs s) (HReady t) j /\
       resv = matched_resv c j /\ abs s' = <[id j := reserve_job now (CliID c) j]> (abs s) /\
       forall t', waiters s' t' = waiters s t') \/
    ((forall t, t ∈ WatchedTubes c -> ready_root s t = None) /\
       resv = queued_resv (CliID c) (ReqID c) /\ abs s' = abs s /\
       forall t', waiters s' t' = if decide (t' ∈ WatchedTubes c) then waiters s t' ++ [r] else waiters s t')
}.

Lemma filter_snoc (r : CliRef) (l : list CliRef) : r ∉ l -> filter (fun x => x <> r) (l ++ [r]) = l.
Proof.
  intros Hr. rewrite filter_app, filter_notin by done.
  rewrite filter_cons, decide_False by naive_solver. rewrite filter_nil. by rewrite app_nil_r.
Qed.

(** The state between the queueing of client [r] and the search for a job: the
    client waits on the tubes it watches, and nothing else moved since [s]. *)
Record awaiting (s s2 : localJSM) (r : CliRef) (c : ClientResvEntry) : Prop := {
  aw_cinv : CInv s2;
  aw_jframe : jframe s s2;
  aw_self : mclis (mem s2) !! r = Some c;
  aw_reg_self : r ∈ registered s2;
  aw_others x : x <> r -> no_idx <$> mclis (mem s2) !! x = no_idx <$> mclis (mem s) !! x;
  aw_heap : clientHeap s2 = clientHeap s;
  aw_reg x : x <> r -> x ∈ registered s2 <-> x ∈ registered s;
  aw_free t : r ∉ waiters s t;
  aw_waiters t : waiters s2 t =
    if decide (t ∈ WatchedTubes c) then waiters s t ++ [r] else waiters s t;
  aw_same : r ∈ registered s -> cid_of (mem s) r = Some (CliID c);
  aw_cid x : x <> r -> x ∈ registered s -> cid_of (mem s) x <> Some (CliID c)
}.

Lemma started_awaiting s s0 s1 r c :
  JobsInv s -> CInv s -> stat_only s s0 -> started s0 s1 r c -> IsWaitingForResv c = true ->
  NoDup (WatchedTubes c) -> ResvDeadlineAt c < maxTime ->
  exists s2, enqueue_all (WatchedTubes c) (CliID c) r s1 = OK tt s2 /\ awaiting s s2 r c.
Proof.
  intros HI HC [st0 ->] S Hwt Hnd Hdl. assert (CInv (set_stat st0 s)) as HC0 by (by apply (cframe_CInv s)).
  assert (forall t, waiters s1 t = waiters s t) as Hw1 by (intros; unfold waiters; by rewrite (st_tubes _ _ _ _ S)).
  destruct (enqueue_all_spec (WatchedTubes c) s1 r (CliID c)) as (ti' & Hop1 & Q); [done| | | |].
  { intros t. rewrite (st_tubes _ _ _ _ S). apply (qwf_frame (mem s)); [|apply HC].
    intros x Hx. unfold cid_of. rewrite (st_others _ _ _ _ S); [done|]. intros ->. by destruct (st_free _ _ _ _ S t). }
  { unfold cid_of. by rewrite (st_self _ _ _ _ S). }
  { intros t x _. rewrite Hw1. intros Hx. destruct (ci_in _ HC _ _ Hx) as (cx & Hcx & Hrx & _).
    assert (x <> r) as Hne by (intros ->; by destruct (st_free _ _ _ _ S t)).
    unfold cid_of. rewrite (st_others _ _ _ _ S) by done. exact (st_cid _ _ _ _ S x Hne Hrx). }
  pose proof (started_waiting _ _ _ _ _ HC0 S Hwt Hnd Hdl Q) as HC2.
  eexists. split; [exact Hop1|]. destruct Q as [Q1 Q2 Q3]. split; try done; try apply S.
  - destruct (st_jframe _ _ _ _ S) as [A1 A2 A3 A4 A5 A6 A7 A8]. split; try done.
    intros k. unfold heaps at 1. simpl. rewrite Q1. apply A4.
  - intros x Hx. simpl. by rewrite (st_others _ _ _ _ S).
  - intros x Hne. change (x ∈ registered s1 <-> x ∈ registered s).
    destruct (st_reg _ _ _ _ S) as [->| ->]; [done|].
    rewrite elem_of_app, list_elem_of_singleton. unfold registered. simpl. naive_solver.
  - intros t. unfold waiters at 1. simpl. rewrite Q3. by rewrite Hw1.
Qed.

Lemma awaiting_roots s s2 r c t : awaiting s s2 r c -> ready_root s2 t = ready_root s t.
Proof. intros E. unfold ready_root. by rewrite (jf_heaps _ _ (aw_jframe _ _ _ _ E)). Qed.

(** A step of client [r] from the state where it waits is a step from the state of the call. *)
Lemma awaiting_step s s2 s' r c c' :
  awaiting s s2 r c -> client_step s2 s' r c' -> client_step s s' r c'.
Proof.
  intros E [C1 C2 C3 C4 C5 C6 C7 C8 C9]. split; try done.
  - intros x Hx. rewrite C4 by done. by apply (aw_others _ _ _ _ E).
  - intros x Hx. rewrite C5 by done. by rewrite (aw_heap _ _ _ _ E).
  - intros x Hx. rewrite C6 by done. by apply (aw_reg _ _ _ _ E).
  - rewrite C8. apply (jf_max _ _ (aw_jframe _ _ _ _ E)).
  - rewrite C9. apply (jf_tick _ _ (aw_jframe _ _ _ _ E)).
Qed.

(** Nor does a change of the jobs alone make a difference. *)
Lemma cframe_client_step s s1 s' r c' :
  cframe s s1 -> maxJobID s1 = maxJobID s -> nextDelayTickAt s1 = nextDelayTickAt s ->
  client_step s1 s' r c' -> client_step s s' r c'.
Proof.
  intros [F1 F2 F3 F4] N1 N2 [C1 C2 C3 C4 C5 C6 C7 C8 C9].
  assert (registered s1 = registered s) as Hr1 by (unfold registered; by rewrite F3).
  split; try done; try congruence; intros x Hx.
  - rewrite C4 by done. by rewrite F1.
  - rewrite C5 by done. by rewrite F2.
  - rewrite C6 by done. by rewrite Hr1.
Qed.

(** Statistics are no part of a client's step. *)
Lemma client_step_stat s s' s'' r c' : client_step s s' r c' -> stat_only s' s'' -> client_step s s'' r c'.
Proof. intros [C1 C2 C3 C4 C5 C6 C7 C8 C9] [st ->]. split; try done. by apply (cframe_CInv s'). Qed.

Lemma rescheduled_client_step s s' r c :
  JobsInv s -> rescheduled s s' r c ->
  exists c', client_step s s' r c' /\ core_fields c' = core_fields c.
Proof.
  intros HI R. destruct (rescheduled_scheduled _ _ _ _ R) as (c' & Hs & Hcore & _).
  exists c'. split; [|done]. split; try apply R; try done.
  - by apply (jframe_inv s); [apply R|].
  - intros Ht. apply (ci_hreg s'); [apply R|]. by apply Hs.
Qed.

(** The two ends of the search: a job was matched, or the client stays queued. *)
Lemma awaiting_matched s s2 s3 s' now r c t j :
  awaiting s s2 r c -> first_ready s2 (WatchedTubes c) t -> least (abs s2) (HReady t) j ->
  matched s2 s3 now j r c -> stat_only s3 s' -> appended s s' now r c (matched_resv c j).
Proof.
  intros E Hfr Hl M Hst. destruct (matched_client_step _ _ _ _ _ _ M) as (c' & C & Hcore).
  apply core_inv in Hcore as (E1 & E2 & E3 & E4).
  split; [apply (aw_same _ _ _ _ E)|apply (aw_cid _ _ _ _ E)| |].
  - exists c'. split; [|split; [done|by rewrite E4]]. by apply (client_step_stat _ s3); [apply (awaiting_step _ _ _ _ _ _ E)|].
  - destruct Hst as [st ->]. left. exists t, j. rewrite <- (jframe_abs _ _ (aw_jframe _ _ _ _ E)).
    split_and!; [|done|done|apply (mt_abs _ _ _ _ _ _ M)|].
    + destruct Hfr as (l1 & l2 & H1 & H2 & H3). exists l1, l2.
      split_and!; [done|intros t' Ht'|]; rewrite <- (awaiting_roots _ _ _ _ _ E); [by apply H2|done].
    + intros t'. change (waiters s3 t' = waiters s t').
      rewrite (mt_waiters _ _ _ _ _ _ M), (aw_waiters _ _ _ _ E).
      pose proof (aw_free _ _ _ _ E t'). case_decide; [by apply filter_snoc|by apply filter_notin].
Qed.

Lemma awaiting_queued s s2 st s4 now r c :
  JobsInv s -> awaiting s s2 r c -> IsWaitingForResv c = true ->
  (forall t, t ∈ WatchedTubes c -> ready_root s2 t = None) ->
  rescheduled (set_stat st s2) s4 r c -> appended s s4 now r c (queued_resv (CliID c) (ReqID c)).
Proof.
  intros HI E Hwt Hno R.
  assert (JobsInv s2) as HI2 by (apply (jframe_inv s); [apply E|done]).
  destruct (rescheduled_client_step _ _ _ _ (HI2 : JobsInv (set_stat st s2)) R) as (c' & C & Hcore).
  apply core_inv in Hcore as (E1 & E2 & E3 & E4).
  split; [apply (aw_same _ _ _ _ E)|apply (aw_cid _ _ _ _ E)| |].
  - exists c'. split; [|split; [done|by rewrite E4, Hwt]].
    apply (awaiting_step _ s2 _ _ _ _ E). by destruct C.
  - right. split_and!; [|done| |].
    + intros t Ht. rewrite <- (awaiting_roots _ _ _ _ _ E). by apply Hno.
    + rewrite (jframe_abs _ _ (rs_jframe _ _ _ _ R)). apply (jframe_abs _ _ (aw_jframe _ _ _ _ E)).
    + intros t. unfold waiters at 1. rewrite (rs_tubes _ _ _ _ R). apply (aw_waiters _ _ _ _ E).
Qed.

Lemma append_tail s s0 s1 now r c reqID :
  JobsInv s -> CInv s -> stat_only s s0 -> started s0 s1 r c -> IsWaitingForResv c = true ->
  NoDup (WatchedTubes c) -> ResvDeadlineAt c < maxTime -> ReqID c = reqID ->
  exists resv s', (c <- load_cli r ;; enqueue_all (WatchedTubes c) (CliID c) r ;;
    r0 <- reserve_first now (WatchedTubes c) r ;;
    match r0 with
    | Some resv => incr nResv ;; incr nResvOnDemand ;; ret resv
    | None => updateClientTickAt r ;; ret (mkReservation reqID (CliID c) 0 Queued 0 None None)
    end) s1 = OK resv s' /\ appended s s' now r c resv.
Proof.
  intros HI HC Hst S Hwt Hnd Hdl <-. rewrite (run_load_cli _ _ _ _ (st_self _ _ _ _ S)).
  destruct (started_awaiting s s0 s1 r c) as (s2 & Hop1 & E); try done.
  rewrite (bind_OK _ _ _ _ _ Hop1). assert (JobsInv s2) as HI2 by (apply (jframe_inv s); [apply E|done]).
  pose proof (aw_cinv _ _ _ _ E) as HC2.
  destruct (reserve_first_spec now r (WatchedTubes c) s2 HI2 HC2)
    as [(s3 & Hop & [st3 ->] & Hno)|(t & j & c0 & s3 & Hfr & Hl & Hc0 & Hop & M)].
  { intros t Ht. rewrite (aw_waiters _ _ _ _ E), decide_True by done. set_solver. }
  - rewrite (bind_OK _ _ _ _ _ Hop).
    destruct (updateClientTickAt_spec (set_stat st3 s2) r c) as (s4 & Hop4 & R);
      [by apply (cframe_CInv s2)|done|apply (aw_reg_self _ _ _ _ E)|apply (aw_self _ _ _ _ E)|].
    rewrite (bind_OK _ _ _ _ _ Hop4). eexists _, s4. split; [done|]. by eapply awaiting_queued.
  - assert (c0 = c) as -> by (pose proof (aw_self _ _ _ _ E); congruence).
    rewrite (bind_OK _ _ _ _ _ Hop), !run_incr. eexists _, _. split; [done|].
    eapply (awaiting_matched s s2); [done|done|done|done|]. do 2 eapply stat_only_bump. apply stat_only_refl.
Qed.

(** The entry the registry holds for a client identifier. *)
Definition client_entry (s : localJSM) (cid : ClientID) : option (CliRef * ClientResvEntry) :=
  match CliQueue.Find cid (clients s) with
  | inl r => c ← mclis (mem s) !! r; Some (r, c)
  | inr _ => None
  end.

Lemma client_entry_Some s cid r c :
  CInv s -> client_entry s cid = Some (r, c) ->
  CliQueue.Find cid (clients s) = inl r /\ mclis (mem s) !! r = Some c /\ r ∈ registered s /\ CliID c = cid.
Proof.
  intros HC. unfold client_entry. destruct (CliQueue.Find cid (clients s)) as [r'|] eqn:Hf; [|done].
  destruct (mclis (mem s) !! r') as [c'|] eqn:Hc; [|done]. intros [= <- <-].
  apply (Find_inl _ _ _ _ (ci_reg _ HC)) in Hf as [Hr Hcid]. unfold cid_of in Hcid. rewrite Hc in Hcid.
  by simplify_eq/=.
Qed.

Lemma client_entry_None s cid :
  CInv s -> client_entry s cid = None -> CliQueue.Find cid (clients s) = inr ErrEntryMissing.
Proof.
  intros HC. unfold client_entry.
  destruct (Find_cases (mem s) (clients s) cid (ci_reg _ HC)) as [(r & -> & _ & Hc)|[-> _]]; [|done].
  unfold cid_of in Hc. by destruct (mclis (mem s) !! r).
Qed.

Section append.
Context (s : localJSM) (cid : ClientID) (reqID : string) (watched : list TubeName) (now deadline : Z).
Context (HI : JobsInv s) (HC : CInv s) (Hnd : NoDup watched) (Hnow : 0 <= now)
  (Hclock : now + maxTimeoutSecs < maxTime).

Definition valid_deadline : bool := negb ((deadline <? now) || (now + maxTimeoutSecs <? deadline)).

Definition resv_counter : statField :=
  if deadline =? now + maxTimeoutSecs then nCmdReserved else nCmdReservedWithTimeout.

Lemma AppendReservation_unfold :
  AppendReservation cid reqID watched now deadline s =
    if valid_deadline then
      (cli <- start_waiting cid reqID watched deadline ;;
       c <- load_cli cli ;; enqueue_all (WatchedTubes c) (CliID c) cli ;;
       r0 <- reserve_first now (WatchedTubes c) cli ;;
       match r0 with
       | Some resv => incr nResv ;; incr nResvOnDemand ;; ret resv
       | None => updateClientTickAt cli ;; ret (mkReservation reqID (CliID c) 0 Queued 0 None None)
       end) (bump resv_counter s)
    else ERR ErrInvalidResvTimeout s.
Proof.
  unfold AppendReservation, valid_deadline, resv_counter.
  assert (wrap_i64 (now + maxTimeoutSecs) = now + maxTimeoutSecs) as ->.
  { apply wrap_i64_id. unfold in_i64, maxTime, MaxInt64, maxTimeoutSecs in *. lia. }
  destruct (_ || _); done.
Qed.

Theorem AppendReservation_spec :
  if valid_deadline then
    match client_entry s cid with
    | Some (r, c) =>
      if IsWaitingForResv c
      then AppendReservation cid reqID watched now deadline s
           = ERR ErrClientIsWaitingForReservation (bump resv_counter s)
      else exists resv s', AppendReservation cid reqID watched now deadline s = OK resv s' /\
             appended s s' now r (start_entry (Some c) cid reqID watched deadline) resv
    | None => exists r resv s', AppendReservation cid reqID watched now deadline s = OK resv s' /\
                appended s s' now r (start_entry None cid reqID watched deadline) resv
    end
  else AppendReservation cid reqID watched now deadline s = ERR ErrInvalidResvTimeout s.
Proof.
  rewrite AppendReservation_unfold. destruct valid_deadline eqn:Hv; [|done].
  apply negb_true_iff, orb_false_iff in Hv as [Hv1 Hv2]. apply Z.ltb_ge in Hv1, Hv2.
  set (s0 := bump resv_counter s).
  assert (CInv s0) as HC0 by (by apply (cframe_CInv s)). assert (stat_only s s0) as Hst by (by eexists).
  change (client_entry s cid) with (client_entry s0 cid).
  destruct (client_entry s0 cid) as [[r c]|] eqn:He.
  - apply (client_entry_Some _ _ _ _ HC0) in He as (Hf & Hc & Hr & Hid).
    pose proof (start_waiting_old s0 cid reqID watched deadline r c HC0 Hf Hc) as Hsw.
    destruct (IsWaitingForResv c); [by rewrite (bind_ERR _ _ _ _ _ Hsw)|].
    destruct Hsw as (s1 & Hop & S). rewrite (bind_OK _ _ _ _ _ Hop).
    apply (append_tail s s0 s1); try done. simpl. lia.
  - destruct (start_waiting_new s0 cid reqID watched deadline HC0) as (r & s1 & Hop & S);
      [done|by apply client_entry_None|].
    exists r. rewrite (bind_OK _ _ _ _ _ Hop). apply (append_tail s s0 s1); try done. simpl. lia.
Qed.
End append.

(** * [Touch] *)
Definition touch_job (now : Z) (j : Job) : Job := UpdateReservation now j.
Definition a_touch (now : Z) (c : ClientID) (j : Job) : Job + error :=
  guard_state Reserved ErrInvalidOperation (guard_owner c (inl (touch_job now j)) j) j.

(** The job part of [Touch]; the caller names itself. *)
Lemma Touch_job s now jid cid :
  JobsInv s -> cid <> ""%string ->
  match abs s !! jid with
  | None => Touch now jid cid s = ERR ErrEntryMissing (bump nCmdTouch s)
  | Some j => match a_touch now cid j with
              | inr e => Touch now jid cid s = ERR e (bump nCmdTouch s)
              | inl j' => exists s', moved (bump nCmdTouch s) s' jid j' /\
                  Touch now jid cid s = (cli <- clients_Find cid ;; updateClientTickAt cli) s'
              end
  end.
Proof.
  intros HI Hcid. change (abs s) with (abs (bump nCmdTouch s)).
  assert (JobsInv (bump nCmdTouch s)) as HI0 by done. unfold Touch. rewrite run_incr.
  clear HI. revert HI0. generalize (bump nCmdTouch s). clear s. intros s HI.
  unfold a_touch, guard_state, guard_owner. open_transition jid HI.
  case_decide as Hst; [done|]. destruct (unauthorized cid j) eqn:Hun; [done|].
  assert (reservedBy j = cid) as Hrb.
  { unfold unauthorized in Hun. apply andb_false_iff in Hun as [H|H]; apply negb_false_iff, String.eqb_eq in H; done. }
  take_out Hst. rewrite (run_update _ _ _ _ _ Hj1). fold (touch_job now j).
  destruct (finish_spec s1 jid ie (touch_job now j)) as (s2 & Hop & Hm & _);
    [done|done|done|by eauto|by destruct j|by destruct j|].
  exists s2. split; [by eapply moved_step|].
  assert (key_of (touch_job now j) = HReserved cid) as Hk.
  { unfold key_of. destruct j. simpl in *. by rewrite Hst, Hrb. }
  rewrite Hk in Hop. cbn [push_op] in Hop. by rewrite (bind_OK2 _ _ _ _ _ _ Hop).
Qed.
