(* ===== verification/Inv.v ===== *)
(** The invariant of the whole state machine.

    Beside [JobsInv] and [CInv] it relates the jobs to the clocks of the clients:
    every waiting client and every client with reserved jobs is in the client heap
    with a [TickAt] not later than its first deadline, every reserved job belongs
    to a registered client, and [nextDelayTickAt] is not later than the first
    delayed job. *)
From stdpp Require Import base gmap list strings.
From Stdlib Require Import ZArith Lia.
From S2P Require Import Prelude GoHeap Job JobHeap ClientResv Index JSM Heaps JobInv.
From S2P Require Import Transitions Commands CliInv Clients Reserve.
Local Open Scope Z_scope.

(** Times for which no sum of a time and a duration overflows. *)
Definition clock_ok (now : Z) : Prop := 0 <= now < 2 ^ 62.
Definition ttr_ok (ttr : Z) : Prop := 0 <= ttr < 2 ^ 62.

Definition timely (s : localJSM) (r : CliRef) : Prop :=
  forall c, mclis (mem s) !! r = Some c ->
    (IsWaitingForResv c = true -> r ∈ clientHeap s /\ TickAt c <= ResvDeadlineAt c) /\
    (forall jid j, abs s !! jid = Some j -> key_of j = HReserved (CliID c) ->
       r ∈ clientHeap s /\ TickAt c <= expiresAt j).

Record Inv (s : localJSM) : Prop := {
  inv_jobs : JobsInv s;
  inv_cli : CInv s;
  inv_timely r : r ∈ registered s -> timely s r;
  inv_own jid j cid : abs s !! jid = Some j -> key_of j = HReserved cid ->
    exists r, r ∈ registered s /\ cid_of (mem s) r = Some cid;
  inv_ttr jid j : abs s !! jid = Some j -> ttr_ok (ttr j);
  inv_exp jid j : abs s !! jid = Some j -> state j = Reserved -> 0 <= expiresAt j < maxTime;
  inv_delay jid j : abs s !! jid = Some j -> state j = Delayed -> nextDelayTickAt s <= readyAt j
}.

Lemma key_reserved j c : key_of j = HReserved c <-> state j = Reserved /\ reservedBy j = c.
Proof. unfold key_of. destruct (state j); split; try naive_solver. Qed.

Lemma key_delayed j t : key_of j = HDelayed t <-> state j = Delayed /\ tubeName j = t.
Proof. unfold key_of. destruct (state j); split; try naive_solver. Qed.

Lemma key_ready j t : key_of j = HReady t <-> state j = Ready /\ tubeName j = t.
Proof. unfold key_of. destruct (state j); split; try naive_solver. Qed.

Lemma reserve_expires now c j :
  clock_ok now -> ttr_ok (ttr j) -> expiresAt (reserve_job now c j) = now + ttr j.
Proof.
  intros Hn Ht. destruct j as [[] ? ? ? t ? ? ? ? ? []]; simpl in *; unfold clock_ok, ttr_ok in *; apply wrap_i64_id;
    unfold in_i64; lia.
Qed.

(** ** The schedule of a client that was just updated *)
Lemma tick_of_le_expires s c jid j :
  JobsInv s -> (forall jid j, abs s !! jid = Some j -> state j = Reserved -> 0 <= expiresAt j < maxTime) ->
  abs s !! jid = Some j -> key_of j = HReserved (CliID c) -> tick_of s c <= expiresAt j.
Proof.
  intros HI Hexp Ha Hk. destruct (entries (heaps s (HReserved (CliID c))) !! 0%nat) as [er|] eqn:Her.
  2: { by destruct (resv_root_None s (CliID c) HI Her jid j Ha). }
  destruct (resv_root_Some s (CliID c) er HI Her) as (j0 & _ & Hroot & Hl & Hk0 & Hmin).
  assert (expiresAt j0 <= expiresAt j) as Hle.
  { destruct (decide (jid = id j0)) as [->|Hne]; [by simplify_eq|].
    specialize (Hmin _ _ Ha Hk Hne). unfold before in Hmin. simpl in Hmin. lia. }
  apply key_reserved in Hk0 as [Hst0 _]. pose proof (Hexp _ _ Hl Hst0) as Hb.
  unfold tick_of. rewrite Hroot. destruct (IsWaitingForResv c); rewrite ?minTime_min.
  - rewrite wrap_i64_id; [lia|]. unfold in_i64, maxTime, MaxInt64 in *. lia.
  - lia.
Qed.

Lemma timely_scheduled s r c :
  JobsInv s -> CInv s -> (forall jid j, abs s !! jid = Some j -> state j = Reserved -> 0 <= expiresAt j < maxTime) ->
  r ∈ registered s -> scheduled s r c -> timely s r.
Proof.
  intros HI HC Hexp Hr (Hc & Ht & Hin) c' Hc'. simplify_eq. split.
  - intros Hw. destruct (ci_out _ HC _ _ Hr Hc Hw) as (_ & _ & Hd).
    assert (TickAt c <= ResvDeadlineAt c) by (rewrite Ht; unfold tick_of; rewrite Hw, minTime_min; lia).
    split; [apply Hin; lia|done].
  - intros jid j Ha Hk. pose proof (tick_of_le_expires s c jid j HI Hexp Ha Hk) as Hle.
    apply key_reserved in Hk as [Hst _]. specialize (Hexp _ _ Ha Hst). rewrite <- Ht in Hle.
    split; [apply Hin; lia|done].
Qed.

(** ** Preservation by a step of one client *)
Section client_step_inv.
Context (s s' : localJSM) (r : CliRef) (c' : ClientResvEntry).
Context (HI : Inv s) (HS : client_step s s' r c').
(** The client keeps its identifier. *)
Context (Hid : r ∈ registered s -> cid_of (mem s) r = Some (CliID c')).
Context (Hcids : forall x, x <> r -> x ∈ registered s -> cid_of (mem s) x <> Some (CliID c')).
(** A reserved job was reserved before, or is reserved by the client. *)
Context (Hjobs : forall jid j cid, abs s' !! jid = Some j -> key_of j = HReserved cid ->
  cid = CliID c' \/ abs s !! jid = Some j).
Context (Hexp : forall jid j, abs s' !! jid = Some j -> state j = Reserved -> 0 <= expiresAt j < maxTime).

Lemma client_step_cid x : x <> r -> cid_of (mem s') x = cid_of (mem s) x.
Proof.
  intros Hx. unfold cid_of. pose proof (cs_others _ _ _ _ HS x Hx) as Ho.
  destruct (mclis (mem s') !! x) as [a|], (mclis (mem s) !! x) as [b|]; try done.
  apply (inj Some), no_idx_inv in Ho as [E _]. simpl. by rewrite E.
Qed.

Lemma client_step_timely x : x ∈ registered s' -> timely s' x.
Proof.
  intros Hx. destruct (decide (x = r)) as [->|Hne].
  - apply (timely_scheduled s' r c'); try done; apply HS.
  - intros c Hc. pose proof (cs_others _ _ _ _ HS x Hne) as Ho. rewrite Hc in Ho.
    destruct (mclis (mem s) !! x) as [c0|] eqn:Hc0; [|done].
    apply (inj Some), no_idx_inv in Ho as (E1 & E2 & E3 & E4 & E5 & E6).
    apply (cs_reg _ _ _ _ HS x Hne) in Hx. destruct (inv_timely _ HI x Hx c0 Hc0) as [T1 T2].
    pose proof (cs_heap _ _ _ _ HS x Hne) as Hh. rewrite E1, E3, E4, E5. split; [by rewrite Hh|].
    intros jid j Ha Hk. rewrite Hh. destruct (Hjobs _ _ _ Ha Hk) as [Heq|Ha']; [|by eapply T2].
    destruct (Hcids x Hne Hx). unfold cid_of. rewrite Hc0. simpl. congruence.
Qed.

Lemma client_step_own jid j cid :
  abs s' !! jid = Some j -> key_of j = HReserved cid ->
  exists x, x ∈ registered s' /\ cid_of (mem s') x = Some cid.
Proof.
  intros Ha Hk.
  destruct (cs_self _ _ _ _ HS) as (Hc' & Ht & Hin).
  assert (cid = CliID c' -> r ∈ registered s' /\ cid_of (mem s') r = Some cid) as Hself.
  { intros ->. split; [|unfold cid_of; by rewrite Hc']. apply (cs_reg_self _ _ _ _ HS).
    pose proof (tick_of_le_expires s' c' jid j (cs_jobs _ _ _ _ HS) Hexp Ha Hk) as Hle.
    apply key_reserved in Hk as [Hst _]. specialize (Hexp _ _ Ha Hst). lia. }
  destruct (decide (cid = CliID c')) as [E|E]; [eauto|].
  destruct (Hjobs _ _ _ Ha Hk) as [?|Ha']; [done|].
  destruct (inv_own _ HI _ _ _ Ha' Hk) as (x & Hx & Hcx).
  destruct (decide (x = r)) as [->|Hne]; [rewrite (Hid Hx) in Hcx; by simplify_eq|].
  exists x. rewrite client_step_cid by done. split; [by apply (cs_reg _ _ _ _ HS)|done].
Qed.

Lemma client_step_inv :
  (forall jid j, abs s' !! jid = Some j -> ttr_ok (ttr j)) ->
  (forall jid j, abs s' !! jid = Some j -> state j = Delayed -> nextDelayTickAt s <= readyAt j) -> Inv s'.
Proof.
  intros Httr Hdel. split; try done.
  - apply HS. - apply HS. - apply client_step_timely. - apply client_step_own.
  - intros jid j Ha Hst. rewrite (cs_tick _ _ _ _ HS). by eapply Hdel.
Qed.
End client_step_inv.

(** ** Preservation by a step of the jobs *)
Lemma job_step_inv s s' :
  Inv s -> JobsInv s' -> cframe s s' ->
  (forall jid j, abs s' !! jid = Some j -> state j = Reserved -> abs s !! jid = Some j) ->
  (forall jid j, abs s' !! jid = Some j -> ttr_ok (ttr j)) ->
  (forall jid j, abs s' !! jid = Some j -> state j = Delayed -> nextDelayTickAt s' <= readyAt j) -> Inv s'.
Proof.
  intros HI HJ Hf Hres Httr Hdel. pose proof Hf as [F1 F2 F3 F4].
  assert (registered s' = registered s) as Hr by (unfold registered; by rewrite F3). split; try done.
  - apply (cframe_CInv s); [done|apply HI].
  - intros r. rewrite Hr. intros Hreg c. rewrite F1. intros Hc. rewrite F2.
    destruct (inv_timely _ HI r Hreg c Hc) as [T1 T2]. split; [done|].
    intros jid j Ha Hk. eapply T2; [|done]. apply Hres; [done|]. by apply key_reserved in Hk as [? _].
  - intros jid j cid Ha Hk. rewrite Hr. unfold cid_of. rewrite F1. eapply (inv_own _ HI); [|done].
    apply Hres; [done|]. by apply key_reserved in Hk as [? _].
  - intros jid j Ha Hst. eapply (inv_exp _ HI); [|done]. by apply Hres.
Qed.

Lemma stat_only_inv s s' : stat_only s s' -> Inv s -> Inv s'.
Proof.
  intros [st ->] HI. destruct HI as [I1 I2 I3 I4 I5 I6 I7]. split; try done. by apply (cframe_CInv s).
Qed.

(** * The initial state *)
Lemma NewJSM_inv : Inv NewJSM.
Proof.
  assert (abs NewJSM = ∅) as Ha by done.
  assert (forall k, entries (heaps NewJSM k) = [] /\ lessFn (heaps NewJSM k) = kind_of k) as Hh.
  { intros []; done. }
  split.
  - split.
    + by split; intros ??; simpl; rewrite lookup_empty.
    + apply Hh.
    + intros k. destruct (Hh k) as [He Hk]. destruct (heaps NewJSM k); simpl in *; subst. apply jh_wf_empty.
    + intros k _. destruct (Hh k) as [He Hk]. destruct (heaps NewJSM k); simpl in *; subst. apply jh_sorted_empty.
    + intros jid ie. simpl. by rewrite lookup_empty.
    + intros k er e. rewrite (proj1 (Hh k)). by intros ?%elem_of_nil.
  - split; try (simpl; intros; by rewrite lookup_empty in *).
    + apply qwf_new.
    + intros t. apply qwf_new.
    + intros t r. by intros ?%elem_of_nil.
    + apply ch_wf_alt. split; [by intros ??|by intros r ?%elem_of_nil].
    + intros c. simpl. lia.
    + intros r. by intros ?%elem_of_nil.
  - intros r. by intros ?%elem_of_nil.
  - intros jid j cid. rewrite Ha, lookup_empty. done.
  - intros jid j. rewrite Ha, lookup_empty. done.
  - intros jid j. rewrite Ha, lookup_empty. done.
  - intros jid j. rewrite Ha, lookup_empty. done.
Qed.
