(* ===== verification/Tick.v ===== *)
(** The clock: [tickDelayJobs], [tickReadyJobs], [tickClients] and [Tick].

    Every loop terminates within the fuel read off the state, no branch panics,
    the invariant is kept, and the effect on the job table is exactly that due
    delayed jobs become ready, ready jobs are matched with waiting clients, and
    expired reservations are released. *)
From stdpp Require Import base gmap list strings.
From Stdlib Require Import ZArith Lia.
From S2P Require Import Prelude GoHeap Job JobHeap ClientResv Index JSM Heaps JobInv.
From S2P Require Import Transitions Commands CliInv Clients Reserve Inv.
Local Open Scope Z_scope.

(** * The length of a heap is the number of its jobs in the table *)
Definition jobs_with (k : hkey) (T : gmap JobID Job) : gmap JobID Job :=
  filter (fun p => key_of p.2 = k) T.

(** Where each job of a heap without deleted jobs is in the table. *)
Lemma heap_elem_live s k er :
  JobsInv s -> no_stale (mem s) (heaps s k) -> er ∈ entries (heaps s k) ->
  exists j ie, entry_job (mem s) er = Some j /\ abs s !! id j = Some j /\ key_of j = k /\
    jm (jobs s) !! id j = Some ie /\ ie_entry ie = Some er.
Proof.
  intros HI Hk Hin. destruct (heap_elem_abs _ _ _ HI Hin) as (j & Hj & Hkj & [Hd|(Ha & ie & Hie & Her & _)]).
  - by destruct (Hk _ _ Hin Hj).
  - exists j, ie. split_and!; done.
Qed.

(** The jobs of a heap without deleted jobs are the jobs of the table filed under it. *)
Lemma heap_table s k :
  JobsInv s -> no_stale (mem s) (heaps s k) ->
  omap (entry_job (mem s)) (entries (heaps s k)) ≡ₚ (map_to_list (jobs_with k (abs s))).*2.
Proof.
  intros HI Hk. apply NoDup_Permutation.
  - pose proof (JInv_NoDup _ _ _ HI k) as Hnd.
    assert (forall er, er ∈ entries (heaps s k) -> exists j ie, entry_job (mem s) er = Some j /\
      jm (jobs s) !! id j = Some ie /\ ie_entry ie = Some er) as Hall.
    { intros er Her. destruct (heap_elem_live _ _ _ HI Hk Her) as (j & ie & ? & _ & _ & ? & ?); eauto. }
    induction (entries (heaps s k)) as [|er es IH]; [apply NoDup_nil_2|].
    apply NoDup_cons in Hnd as [Hni Hnd]. destruct (Hall er) as (j & ie & Hj & Hie & He); [left|].
    simpl. rewrite Hj. apply NoDup_cons. split; [|apply IH; [done|intros; apply Hall; by right]].
    intros (er' & Hin & Hj')%list_elem_of_omap. destruct (Hall er') as (j2 & ie' & E1 & E2 & E3); [by right|].
    congruence.
  - apply NoDup_fmap_2_strong; [|apply NoDup_map_to_list].
    intros [i a] [i' b] Ha%elem_of_map_to_list Hb%elem_of_map_to_list E. simpl in E. subst b.
    apply map_lookup_filter_Some in Ha as [Ha _], Hb as [Hb _].
    apply (abs_id _ _ _ HI) in Ha, Hb. congruence.
  - intros j. rewrite list_elem_of_fmap, list_elem_of_omap. split.
    + intros (er & Hin & Hj). destruct (heap_elem_live _ _ _ HI Hk Hin) as (j' & ie & E & Ha & Hkj & _).
      simplify_eq. exists (id j, j). split; [done|]. apply elem_of_map_to_list. by apply map_lookup_filter_Some.
    + intros ([jid j'] & -> & Hin%elem_of_map_to_list). simpl.
      apply map_lookup_filter_Some in Hin as [Ha Hkj]. simpl in *.
      destruct (abs_entry _ _ _ HI Ha) as (ie & er & _ & _ & _ & _ & _ & Hej & Her).
      rewrite Hkj in Her. eauto.
Qed.

Lemma omap_total {A B} (f : A -> option B) l : (forall x, x ∈ l -> is_Some (f x)) -> length (omap f l) = length l.
Proof.
  induction l as [|x l IH]; intros Hall; [done|]. simpl. destruct (Hall x) as [y ->]; [left|].
  simpl. f_equal. apply IH. intros; apply Hall; by right.
Qed.

Lemma heap_count s k :
  JobsInv s -> no_stale (mem s) (heaps s k) -> length (entries (heaps s k)) = size (jobs_with k (abs s)).
Proof.
  intros HI Hk. rewrite <- (omap_total (entry_job (mem s))).
  - by rewrite heap_table, length_fmap, length_map_to_list.
  - intros er Hin. destruct (heap_elem_live _ _ _ HI Hk Hin) as (j & _ & -> & _). eauto.
Qed.

(** A job that leaves the heap makes it shorter. *)
Lemma jobs_with_leave k T jid j j' :
  T !! jid = Some j -> key_of j = k -> key_of j' <> k ->
  size (jobs_with k T) = S (size (jobs_with k (<[jid := j']> T))).
Proof.
  intros Ha Hk Hk'. unfold jobs_with. rewrite map_filter_insert_False by done.
  rewrite map_filter_delete.
  assert (filter (fun p : JobID * Job => key_of p.2 = k) T !! jid = Some j) as Hf.
  { by apply map_lookup_filter_Some. }
  rewrite <- (insert_delete_id _ _ _ Hf) at 1. apply map_size_insert_None, lookup_delete_eq.
Qed.

(** * Delayed jobs *)
Definition due (now : Z) (j : Job) : bool := bool_decide (state j = Delayed) && (readyAt j <? now).

(** The due jobs of the tubes in [ts] become ready. *)
Definition wake (now : Z) (ts : list TubeName) (T : gmap JobID Job) : gmap JobID Job :=
  (fun j => if due now j && bool_decide (tubeName j ∈ ts) then UpdateState Ready j else j) <$> T.

Definition delayed_root (s : localJSM) (t : TubeName) : option EntRef := entries (heaps s (HDelayed t)) !! 0%nat.

Lemma PeekDelayedJob_spec s t :
  PeekDelayedJob t s = match delayed_root s t with
                       | Some er => OK er (bump nCmdPeekDelayed s)
                       | None => ERR ErrEntryMissing (bump nCmdPeekDelayed s)
                       end.
Proof.
  unfold PeekDelayedJob. rewrite run_incr. unfold lift, TubeIdx.NextDelayedJob, TubeIdx.next_of, delayed_root,
    heaps, heap_of, tube_state, Peek, Len. simpl.
  destruct (tubes s !! t) as [ts|]; simpl; [|done]. by destruct (delayedJobs ts) as [[|x es] k].
Qed.

Lemma delayed_none s t :
  JobsInv s -> delayed_root s t = None -> forall jid j, abs s !! jid = Some j -> key_of j <> HDelayed t.
Proof.
  intros HI Hn jid j Ha Hk. destruct (abs_entry _ _ _ HI Ha) as (ie & er & _ & _ & _ & _ & _ & _ & Hin).
  rewrite Hk in Hin. unfold delayed_root in Hn.
  destruct (entries (heaps s (HDelayed t))); [by apply elem_of_nil in Hin|done].
Qed.

(** Moving the first due job leaves the same jobs to wake. *)
Lemma wake_step now t T jid j :
  T !! jid = Some j -> due now j = true -> tubeName j = t ->
  wake now [t] (<[jid := UpdateState Ready j]> T) = wake now [t] T.
Proof.
  intros Ha Hd Ht. unfold wake. rewrite fmap_insert. apply map_eq. intros x.
  rewrite lookup_insert. case_decide as Hx; [subst x|done]. rewrite lookup_fmap, Ha. simpl. f_equal.
  assert (due now (UpdateState Ready j) = false) as -> by (unfold due; by rewrite UpdateState_state).
  rewrite Hd, (bool_decide_eq_true_2 (tubeName j ∈ [t])) by (by apply list_elem_of_singleton). done.
Qed.

Lemma wake_id now ts T :
  (forall jid j, T !! jid = Some j -> due now j = true -> tubeName j ∉ ts) -> wake now ts T = T.
Proof.
  intros Hno. unfold wake. apply map_eq. intros x. rewrite lookup_fmap.
  destruct (T !! x) as [j|] eqn:Hj; [|done]. simpl. f_equal.
  destruct (due now j) eqn:Hd; [|done]. rewrite bool_decide_eq_false_2; [done|by eapply Hno].
Qed.

Lemma least_not_earlier T t j :
  (forall jid x, T !! jid = Some x -> id x = jid) -> least T (HDelayed t) j -> ~ earlier T j.
Proof.
  intros Hid (Ha & Hk & Hmin) (jid' & j' & Ha' & Hk' & Hless).
  destruct (decide (jid' = id j)) as [->|Hne].
  - simplify_eq. by destruct (before_asym _ _ _ Hless).
  - specialize (Hmin _ _ Ha' ltac:(congruence) Hne).
    by apply before_asym in Hmin.
Qed.

(** The effect of a part of [tickDelayJobs]. *)
Record delay_ticked (s s' : localJSM) (T' : gmap JobID Job) : Prop := {
  dt_jobs : JobsInv s';
  dt_frame : cframe s s';
  dt_abs : abs s' = T';
  dt_max : maxJobID s' = maxJobID s
}.

(** The least job of a delayed heap is the first to become ready. *)
Lemma least_delayed_first T t j jid' j' :
  least T (HDelayed t) j -> T !! jid' = Some j' -> key_of j' = HDelayed t -> readyAt j <= readyAt j'.
Proof.
  intros (Ha & Hk & Hmin) Ha' Hk'. destruct (decide (jid' = id j)) as [->|Hne]; [by simplify_eq|].
  apply key_delayed in Hk as [Hst _]. specialize (Hmin _ _ Ha' Hk' Hne). unfold before in Hmin. simpl in Hmin. lia.
Qed.

(** Nothing wakes in a tube whose delayed jobs all lie ahead. *)
Lemma wake_none now t T :
  (forall jid j, T !! jid = Some j -> key_of j = HDelayed t -> now <= readyAt j) -> wake now [t] T = T.
Proof.
  intros Hle. apply wake_id. intros jid j Ha Hd Hin%list_elem_of_singleton.
  unfold due in Hd. apply andb_true_iff in Hd as [Hd1 Hd2]. apply bool_decide_eq_true in Hd1.
  specialize (Hle jid j Ha (proj2 (key_delayed _ _) (conj Hd1 Hin))). lia.
Qed.

Lemma tickDelay_tube_spec fuel now t next s :
  JobsInv s -> (size (jobs_with (HDelayed t) (abs s)) < fuel)%nat ->
  exists next' s', tickDelay_tube fuel now t next s = OK next' s' /\
    delay_ticked s s' (wake now [t] (abs s)) /\ next' <= next /\
    (forall jid j, abs s' !! jid = Some j -> key_of j = HDelayed t -> next' <= readyAt j).
Proof.
  revert s. induction fuel as [|f IH]; intros s HI Hf; [lia|]. cbn [tickDelay_tube].
  pose proof (PeekDelayedJob_spec s t) as Hp. destruct (delayed_root s t) as [er|] eqn:Her.
  2: { rewrite (bind_OK _ _ _ _ _ (try_ERR _ _ _ _ Hp)). pose proof (delayed_none s t HI Her) as Hno.
       exists next, (bump nCmdPeekDelayed s). split; [done|]. split; [|split; [lia|]].
       - split; try done. symmetry. apply wake_none. intros jid j Ha Hk. by destruct (Hno jid j Ha).
       - intros jid j Ha Hk. by destruct (Hno jid j Ha). }
  rewrite (bind_OK _ _ _ _ _ (try_OK _ _ _ _ Hp)). set (s0 := bump nCmdPeekDelayed s).
  destruct (root_least s (HDelayed t) er HI) as (j & Hj & Hl); [by apply not_stale|done|].
  pose proof Hl as (Ha & Hk & Hmin). pose proof Hk as [Hst Htn]%key_delayed.
  rewrite (run_entry_load _ _ s0 j Hj).
  assert (forall jid' j', abs s !! jid' = Some j' -> key_of j' = HDelayed t -> readyAt j <= readyAt j') as Hle.
  { intros jid' j'. by apply (least_delayed_first (abs s) t). }
  destruct (Z.leb_spec now (readyAt j)) as [Hnow|Hnow].
  - exists (if readyAt j <? next then readyAt j else next), s0. split; [done|].
    assert ((if readyAt j <? next then readyAt j else next) = Z.min (readyAt j) next) as ->.
    { destruct (Z.ltb_spec (readyAt j) next); lia. }
    split; [|split; [lia|]].
    + split; try done. symmetry. apply wake_none. intros jid' j' Ha' Hk'. specialize (Hle jid' j' Ha' Hk'). lia.
    + intros jid' j' Ha' Hk'. specialize (Hle jid' j' Ha' Hk'). lia.
  - pose proof (fromDelayedToReady_implements s0 (id j) HI) as Himp. unfold implements in Himp.
    change (abs s0) with (abs s) in Himp. rewrite Ha in Himp.
    unfold a_ready, guard_state in Himp. rewrite decide_False in Himp by (intros Hn; by apply Hn).
    rewrite decide_False in Himp by (eapply least_not_earlier; [intros; by eapply abs_id|done]).
    destruct Himp as (s1 & Hop & [M1 M2 M3 M4 M5]). unfold no_more in *.
    rewrite (bind_OK _ _ s0 (inl tt) s1); [|by apply try_OK].
    assert (due now j = true) as Hdue.
    { unfold due. rewrite Hst. simpl. by apply Z.ltb_lt. }
    assert (key_of (UpdateState Ready j) <> HDelayed t) as Hkr.
    { unfold key_of. by rewrite UpdateState_state. }
    destruct (IH s1) as (next' & s' & Hop' & [D1 D2 D3 D4] & Hn & Hlow); [done| |].
    { rewrite M2. change (abs s0) with (abs s).
      pose proof (jobs_with_leave _ _ _ _ _ Ha Hk Hkr). lia. }
    exists next', s'. split; [exact Hop'|]. split; [|done]. split; [done| | |].
    + etransitivity; [apply (bump_frame nCmdPeekDelayed)|]. by etransitivity.
    + rewrite D3, M2. change (abs s0) with (abs s). by apply wake_step.
    + rewrite D4. unfold misc in M3. by injection M3 as N1 _ _ _.
Qed.

Lemma delayed_count_spec t s : JobsInv s -> delayed_count t s = size (jobs_with (HDelayed t) (abs s)).
Proof.
  intros HI. rewrite <- (heap_count s (HDelayed t)) by (done || by apply not_stale). unfold delayed_count, heaps, heap_of, tube_state, Len.
  by destruct (tubes s !! t).
Qed.

Lemma due_ready now j : due now (UpdateState Ready j) = false.
Proof. unfold due. by rewrite UpdateState_state. Qed.

Lemma wake_cons now t ts T : wake now (t :: ts) T = wake now ts (wake now [t] T).
Proof.
  unfold wake. rewrite <- map_fmap_compose. apply map_fmap_ext. intros jid j _. simpl.
  assert (bool_decide (tubeName j ∈ t :: ts) =
          bool_decide (tubeName j ∈ [t]) || bool_decide (tubeName j ∈ ts)) as ->.
  { apply Bool.eq_iff_eq_true. rewrite orb_true_iff, !bool_decide_eq_true, elem_of_cons, list_elem_of_singleton. done. }
  destruct (due now j) eqn:Hd; simpl; [|by rewrite Hd].
  destruct (bool_decide (tubeName j ∈ [t])); simpl; [by rewrite due_ready|by rewrite Hd].
Qed.

Lemma wake_delayed now ts T jid j :
  wake now ts T !! jid = Some j -> state j = Delayed -> T !! jid = Some j.
Proof.
  unfold wake. rewrite lookup_fmap. destruct (T !! jid) as [j0|]; [|done]. simpl. intros [= <-].
  case_match; [by rewrite UpdateState_state|done].
Qed.

Lemma tickDelay_tubes_spec order now next s :
  JobsInv s ->
  exists next' s', tickDelay_tubes order now next s = OK next' s' /\
    delay_ticked s s' (wake now order (abs s)) /\ next' <= next /\
    (forall jid j t, abs s' !! jid = Some j -> key_of j = HDelayed t -> t ∈ order -> next' <= readyAt j).
Proof.
  revert next s. induction order as [|t order IH]; intros next s HI; cbn [tickDelay_tubes].
  { exists next, s. split; [done|]. split; [|split; [lia|by intros ??? _ _ ?%elem_of_nil]].
    split; try done. symmetry. apply wake_id. intros. apply not_elem_of_nil. }
  rewrite (bind_OK (gets _) _ s (S (delayed_count t s)) s) by done.
  destruct (tickDelay_tube_spec (S (delayed_count t s)) now t next s HI)
    as (next1 & s1 & Hop & [D1 D2 D3 D4] & Hn & Hlow).
  { rewrite delayed_count_spec by done. lia. }
  rewrite (bind_OK _ _ _ _ _ Hop).
  destruct (IH next1 s1 D1) as (next2 & s2 & Hop2 & [E1 E2 E3 E4] & Hn2 & Hlow2).
  exists next2, s2. split; [exact Hop2|]. split; [|split; [lia|]].
  - split; [done|by etransitivity| |congruence]. rewrite E3, D3. by rewrite <- wake_cons.
  - intros jid j t' Ha Hk [->|Hin]%elem_of_cons; [|by eapply Hlow2].
    assert (next1 <= readyAt j); [|lia]. eapply Hlow; [|done]. rewrite E3 in Ha.
    eapply wake_delayed; [done|]. by apply key_delayed in Hk as [? _].
Qed.

(** The names the loop ranges over include every tube of the map. *)
Definition covers (order : list TubeName) (s : localJSM) : Prop :=
  forall t, is_Some (tubes s !! t) -> t ∈ order.

Lemma delayed_tube s jid j : JobsInv s -> abs s !! jid = Some j -> state j = Delayed -> is_Some (tubes s !! tubeName j).
Proof.
  intros HI Ha Hst. destruct (abs_entry _ _ _ HI Ha) as (ie & er & _ & _ & _ & _ & _ & _ & Hin).
  rewrite (proj2 (key_delayed j (tubeName j)) (conj Hst eq_refl)) in Hin.
  by apply (tube_state_nonempty _ _ TDelayed er).
Qed.

(** All due jobs, of any tube. *)
Definition wake_all (now : Z) (T : gmap JobID Job) : gmap JobID Job :=
  (fun j => if due now j then UpdateState Ready j else j) <$> T.

Lemma wake_covers now order s :
  JobsInv s -> covers order s -> wake now order (abs s) = wake_all now (abs s).
Proof.
  intros HI Hcov. unfold wake, wake_all. apply map_fmap_ext. intros jid j Ha.
  destruct (due now j) eqn:Hd; [|done]. rewrite bool_decide_eq_true_2; [done|]. apply Hcov.
  unfold due in Hd. apply andb_true_iff in Hd as [Hd _]. apply bool_decide_eq_true in Hd.
  by eapply delayed_tube.
Qed.

Lemma tickDelayJobs_spec order now s :
  JobsInv s -> covers order s ->
  exists s', tickDelayJobs order now s = OK tt s' /\ delay_ticked s s' (wake_all now (abs s)) /\
    (forall jid j, abs s' !! jid = Some j -> state j = Delayed -> nextDelayTickAt s' <= readyAt j).
Proof.
  intros HI Hcov. unfold tickDelayJobs.
  destruct (tickDelay_tubes_spec order now maxTime s HI) as (next & s1 & Hop & [D1 D2 D3 D4] & Hn & Hlow).
  rewrite (bind_OK _ _ _ _ _ Hop). exists (set_nextDelayTickAt next s1). split; [done|].
  rewrite (wake_covers now order s HI Hcov) in D3. split.
  - split; try done. destruct D2 as [F1 F2 F3 F4]. by split.
  - intros jid j Ha Hst. simpl. change (abs s1 !! jid = Some j) in Ha.
    eapply Hlow; [done|by apply key_delayed|]. apply Hcov.
    rewrite D3 in Ha. unfold wake_all in Ha. rewrite lookup_fmap in Ha.
    destruct (abs s !! jid) as [j0|] eqn:Ha0; [|done]. simpl in Ha. simplify_eq.
    destruct (due now j0); [by rewrite UpdateState_state in Hst|]. by eapply delayed_tube.
Qed.

Lemma UpdateState_fields st j :
  ttr (UpdateState st j) = ttr j /\ expiresAt (UpdateState st j) = expiresAt j /\ readyAt (UpdateState st j) = readyAt j.
Proof. split_and!; solve_job. Qed.

Lemma wake_all_lookup now T jid j :
  wake_all now T !! jid = Some j ->
  exists j0, T !! jid = Some j0 /\ (j = j0 /\ due now j0 = false \/ j = UpdateState Ready j0 /\ due now j0 = true).
Proof.
  unfold wake_all. rewrite lookup_fmap. destruct (T !! jid) as [j0|]; [|done]. simpl. intros [= <-].
  exists j0. split; [done|]. destruct (due now j0); auto.
Qed.

(** The delayed part of [Tick], guarded by [nextDelayTickAt]. *)
Definition tick_delay (order : list TubeName) (now : Z) : JM unit :=
  next <- gets nextDelayTickAt ;;
  if next <? now then modify (set_nextDelayTickAt maxTime) ;; tickDelayJobs order now else ret tt.

Lemma tick_delay_inv order now s :
  Inv s -> covers order s ->
  exists s', tick_delay order now s = OK tt s' /\ Inv s' /\ abs s' = wake_all now (abs s) /\ maxJobID s' = maxJobID s /\ cframe s s'.
Proof.
  intros HI Hcov. unfold tick_delay. rewrite (bind_OK (gets _) _ s (nextDelayTickAt s) s) by done.
  destruct (Z.ltb_spec (nextDelayTickAt s) now) as [Hlt|Hge].
  - set (s0 := set_nextDelayTickAt maxTime s).
    rewrite (bind_OK (modify _) _ s tt s0) by done.
    destruct (tickDelayJobs_spec order now s0) as (s' & Hop & [D1 D2 D3 D4] & Hlow); [apply HI|done|].
    change (abs s0) with (abs s) in D3. exists s'. split; [exact Hop|].
    assert (cframe s s') as Hf by (destruct D2 as [F1 F2 F3 F4]; by split).
    split_and!; try done. apply (job_step_inv s); try done.
    + intros jid j Ha Hst. rewrite D3 in Ha.
      destruct (wake_all_lookup _ _ _ _ Ha) as (j0 & Ha0 & [[-> _]|[-> _]]); [done|].
      by rewrite UpdateState_state in Hst.
    + intros jid j Ha. rewrite D3 in Ha.
      destruct (wake_all_lookup _ _ _ _ Ha) as (j0 & Ha0 & [[-> _]|[-> _]]); [by eapply (inv_ttr _ HI)|].
      rewrite (proj1 (UpdateState_fields _ _)). by eapply (inv_ttr _ HI).
  - exists s. split_and!; try done. unfold wake_all. symmetry. apply map_eq. intros jid.
    rewrite lookup_fmap. destruct (abs s !! jid) as [j|] eqn:Ha; [|done]. simpl. f_equal.
    destruct (due now j) eqn:Hd; [|done]. unfold due in Hd. apply andb_true_iff in Hd as [H1 H2].
    apply bool_decide_eq_true in H1. pose proof (inv_delay _ HI _ _ Ha H1). lia.
Qed.

(** * Ready jobs *)

(** ** Reserving a job never drops a tube from the map *)
Section keeps_tube.
Context (t : TubeName).

Definition keeps {S A} (P : S -> Prop) (op : M error S A) : Prop :=
  forall s, P s -> match op s with OK _ s' | ERR _ s' => P s' | PANIC | DIVERGE => True end.

Lemma keeps_bind {S A B} (P : S -> Prop) (x : M error S A) (f : A -> M error S B) :
  keeps P x -> (forall a, keeps P (f a)) -> keeps P (bind x f).
Proof.
  intros Hx Hf s Hs. unfold bind. specialize (Hx s Hs). destruct (x s); try done. by apply Hf.
Qed.
Lemma keeps_try {S A} (P : S -> Prop) (x : M error S A) : keeps P x -> keeps P (try x).
Proof. intros Hx s Hs. unfold try. specialize (Hx s Hs). by destruct (x s). Qed.
Lemma keeps_deref {S A} (P : S -> Prop) (f : S -> option A) : keeps P (deref (E:=error) f).
Proof. intros s Hs. unfold deref. by destruct (f s). Qed.

Definition has_tube (s : localJSM) : Prop := is_Some (tubes s !! t).

Lemma keeps_lift {A} (f : localJSM -> A + error) : keeps has_tube (lift f).
Proof. intros s Hs. unfold lift. by destruct (f s). Qed.
Lemma keeps_update_job r f : keeps has_tube (update_job r f).
Proof. apply keeps_bind; [apply keeps_deref|by intros j s Hs]. Qed.
Lemma keeps_update_cli r f : keeps has_tube (update_cli r f).
Proof. apply keeps_bind; [apply keeps_deref|by intros j s Hs]. Qed.
Lemma keeps_on_resv {A} (op : M error (Mem * reservedJobsIndex) A) : keeps has_tube (on_resv op).
Proof. intros s Hs. unfold on_resv, zoom. by destruct (op _). Qed.
Lemma keeps_on_cheap {A} (op : M error (Mem * CliHeap.clientResvHeap) A) : keeps has_tube (on_cheap op).
Proof. intros s Hs. unfold on_cheap, zoom. by destruct (op _). Qed.

Lemma keeps_on_heap {A} t' g p (op : M error (Mem * jobHeap) A) :
  keeps (fun s : Mem * tubeIndex => is_Some (s.2 !! t)) (TubeIdx.on_heap t' g p op).
Proof.
  intros s Hs. unfold TubeIdx.on_heap, zoom. destruct (op _); simpl; try done;
    rewrite lookup_alter; by case_decide; rewrite ?fmap_is_Some; subst.
Qed.

Lemma keeps_RemoveReadyJob er : keeps has_tube (on_tubes (TubeIdx.RemoveReadyJob er)).
Proof.
  assert (keeps (fun s : Mem * tubeIndex => is_Some (s.2 !! t)) (TubeIdx.RemoveReadyJob er)) as Hk.
  { apply keeps_bind; [apply keeps_bind; [apply keeps_deref|by intros j s Hs]|]. intros t'.
    apply keeps_bind; [|intros _; apply keeps_on_heap].
    intros s Hs. unfold TubeIdx.getByName, bind, gets. by destruct (s.2 !! t'). }
  intros s Hs. unfold on_tubes, zoom. specialize (Hk (mem s, tubes s) Hs).
  by destruct (TubeIdx.RemoveReadyJob er (mem s, tubes s)).
Qed.

Lemma keeps_waiting_Remove t' cid : keeps has_tube (waiting_Remove t' cid).
Proof.
  apply keeps_bind; [apply keeps_deref|]. intros ts s Hs. destruct (CliQueue.Remove cid (waiting ts)); [|done].
  unfold has_tube in *. simpl. rewrite lookup_insert. case_decide; [eauto|done].
Qed.

Lemma keeps_waiting_Remove_all ts cid : keeps has_tube (waiting_Remove_all ts cid).
Proof.
  induction ts as [|t' ts IH]; [by intros s Hs|]. apply keeps_bind; [apply keeps_waiting_Remove|done].
Qed.

Lemma keeps_Reserve now jid cid : keeps has_tube (Reserve now jid cid).
Proof.
  apply keeps_bind; [apply keeps_lift|intros e]. apply keeps_bind; [apply keeps_deref|intros j].
  case_decide; [by intros s Hs|]. apply keeps_bind; [apply keeps_deref|intros er].
  apply keeps_bind; [apply keeps_RemoveReadyJob|intros _].
  repeat (apply keeps_bind; [apply keeps_update_job|intros _]).
  apply keeps_bind; [apply keeps_on_resv|]. by intros je s Hs.
Qed.

Lemma keeps_updateClientTickAt r : keeps has_tube (updateClientTickAt r).
Proof.
  apply keeps_bind; [|intros n].
  { apply keeps_bind; [apply keeps_deref|intros c]. apply keeps_bind; [apply keeps_try, keeps_lift|intros x].
    apply keeps_bind; [|by intros n s Hs]. destruct x as [e|[]]; try (by intros s Hs).
    apply keeps_bind; [apply keeps_deref|by intros j s Hs]. }
  apply keeps_bind; [apply keeps_deref|intros c]. destruct (n <? maxTime).
  - destruct (HeapIndex c <? 0); [|apply keeps_on_cheap].
    apply keeps_bind; [apply keeps_update_cli|intros _; apply keeps_on_cheap].
  - apply keeps_bind; [|intros _; apply keeps_update_cli]. destruct (0 <=? HeapIndex c); [|by intros s Hs].
    apply keeps_bind; [apply keeps_try, keeps_on_cheap|]. intros [x|x]; [|by intros s Hs].
    apply keeps_bind; [by intros s Hs|]. intros cs. destruct (CliQueue.Remove (CliID c) cs) as [q|[]]; by intros s Hs.
Qed.

Lemma keeps_tryReserveJob now t' cli : keeps has_tube (tryReserveJob now t' cli).
Proof.
  apply keeps_bind; [apply keeps_lift|intros n]. destruct (n =? 0); [by intros s Hs|].
  apply keeps_bind; [apply keeps_try, keeps_bind; [by intros s Hs|intros _; apply keeps_lift]|].
  intros [je|[]]; try (by intros s Hs). apply keeps_bind.
  { destruct cli; [by intros s Hs|]. apply keeps_bind; [apply keeps_try, keeps_lift|]. by intros [x|x] s Hs. }
  intros cr. apply keeps_bind; [apply keeps_deref|intros c]. destruct (negb _); [by intros s Hs|].
  apply keeps_bind; [apply keeps_deref|intros j]. apply keeps_bind; [apply keeps_try, keeps_Reserve|].
  intros [x|x]; [|by intros s Hs]. apply keeps_bind.
  { do 2 (apply keeps_bind; [apply keeps_update_cli|intros _]).
    apply keeps_bind; [apply keeps_deref|intros c']. apply keeps_waiting_Remove_all. }
  intros _. cbv zeta. apply keeps_bind; [apply keeps_updateClientTickAt|]. by intros _ s Hs.
Qed.
End keeps_tube.

(** ** The invariant when a job is matched *)
Lemma reserve_ttr now c j : ttr (reserve_job now c j) = ttr j.
Proof. solve_step. Qed.

Lemma registered_cid s r c :
  CInv s -> r ∈ registered s -> mclis (mem s) !! r = Some c ->
  cid_of (mem s) r = Some (CliID c) /\
  forall x, x <> r -> x ∈ registered s -> cid_of (mem s) x <> Some (CliID c).
Proof.
  intros HC Hr Hc. assert (cid_of (mem s) r = Some (CliID c)) as Hcid by (unfold cid_of; by rewrite Hc).
  split; [done|]. intros x Hne Hx Hcx. apply Hne. by eapply (qwf_inj _ _ _ _ _ (ci_reg _ HC)).
Qed.

(** The table in which [j] is reserved by [cid] satisfies the bounds. *)
Lemma reserved_bounds s now j cid :
  Inv s -> clock_ok now -> abs s !! id j = Some j ->
  let T := <[id j := reserve_job now cid j]> (abs s) in
  (forall jid x, T !! jid = Some x -> ttr_ok (ttr x)) /\
  (forall jid x, T !! jid = Some x -> state x = Reserved -> 0 <= expiresAt x < maxTime) /\
  (forall jid x, T !! jid = Some x -> state x = Delayed -> nextDelayTickAt s <= readyAt x) /\
  (forall jid x c, T !! jid = Some x -> key_of x = HReserved c -> c = cid \/ abs s !! jid = Some x).
Proof.
  intros HI Hn Ha T. pose proof (inv_ttr _ HI _ _ Ha) as Ht. split_and!; intros jid x.
  - intros [[<- <-]|[_ Hx]]%lookup_insert_Some; [by rewrite reserve_ttr|by eapply (inv_ttr _ HI)].
  - intros [[<- <-]|[_ Hx]]%lookup_insert_Some; [|by eapply (inv_exp _ HI)]. intros _.
    rewrite reserve_expires by done. unfold clock_ok, ttr_ok, maxTime, MaxInt64 in *. lia.
  - intros [[<- <-]|[_ Hx]]%lookup_insert_Some; [by rewrite reserve_state|by eapply (inv_delay _ HI)].
  - intros c [[<- <-]|[_ Hx]]%lookup_insert_Some; [|by right]. rewrite reserve_key. intros [= ->]. by left.
Qed.

Lemma matched_inv s s' now j r c :
  Inv s -> clock_ok now -> matched s s' now j r c -> r ∈ registered s -> mclis (mem s) !! r = Some c ->
  abs s !! id j = Some j -> Inv s'.
Proof.
  intros HI Hn M Hr Hc Ha. destruct (matched_client_step _ _ _ _ _ _ M) as (c' & HS & (E1 & _)%core_inv).
  simpl in E1. destruct (registered_cid s r c (inv_cli _ HI) Hr Hc) as [Hid Hcids].
  destruct (reserved_bounds s now j (CliID c) HI Hn Ha) as (B1 & B2 & B3 & B4).
  rewrite <- (mt_abs _ _ _ _ _ _ M), <- E1 in *. by apply (client_step_inv s s' r c' HI HS).
Qed.

(** ** The loop on one tube *)

(** The reservations handed out, as updates of the table. *)
Definition apply_resvs (now : Z) (rs : list Reservation) (T : gmap JobID Job) : gmap JobID Job :=
  foldl (fun T rv => alter (reserve_job now (r_ClientId rv)) (r_JobId rv) T) T rs.

(** No client waits on the tube, or the tube has no ready job. *)
Definition idle (s : localJSM) (t : TubeName) : Prop :=
  waiters s t = [] \/ forall jid j, abs s !! jid = Some j -> key_of j <> HReady t.

Lemma ready_none s t :
  JobsInv s -> ready_root s t = None -> forall jid j, abs s !! jid = Some j -> key_of j <> HReady t.
Proof.
  intros HI Hn jid j Ha Hk. destruct (abs_entry _ _ _ HI Ha) as (ie & er & _ & _ & _ & _ & _ & _ & Hin).
  rewrite Hk in Hin. unfold ready_root in Hn.
  destruct (entries (heaps s (HReady t))); [by apply elem_of_nil in Hin|done].
Qed.

Lemma matched_idle s s' now j r c t : matched s s' now j r c -> idle s t -> idle s' t.
Proof.
  intros M [Hw|Hno]; [left; by rewrite (mt_waiters _ _ _ _ _ _ M), Hw|right].
  intros jid x. rewrite (mt_abs _ _ _ _ _ _ M).
  intros [[<- <-]|[_ Hx]]%lookup_insert_Some; [by rewrite reserve_key|by eapply Hno].
Qed.

(** The effect of a part of [tickReadyJobs]. *)
Record ready_ticked (s s' : localJSM) (now : Z) (rs : list Reservation) : Prop := {
  rt_inv : Inv s';
  rt_abs : abs s' = apply_resvs now rs (abs s);
  rt_matched : Forall (fun rv => r_Status rv = Matched) rs;
  rt_idle t : idle s t -> idle s' t;
  rt_tubes t : has_tube t s -> has_tube t s';
  rt_max : maxJobID s' = maxJobID s
}.

Lemma ready_ticked_trans s s1 s' now rs rs' :
  ready_ticked s s1 now rs -> ready_ticked s1 s' now rs' -> ready_ticked s s' now (rs ++ rs').
Proof.
  intros [A1 A2 A3 A4 A5 A6] [B1 B2 B3 B4 B5 B6]. split; [done| | |auto|auto|congruence].
  - unfold apply_resvs. rewrite foldl_app. fold (apply_resvs now rs (abs s)). by rewrite <- A2.
  - by apply Forall_app.
Qed.

Lemma stat_only_ticked s s' now : Inv s -> stat_only s s' -> ready_ticked s s' now [].
Proof. intros HI Hst. pose proof (stat_only_inv _ _ Hst HI). destruct Hst as [st ->]. by split. Qed.

Lemma matched_ticked s s' now j r c :
  Inv s -> clock_ok now -> matched s s' now j r c -> r ∈ registered s -> mclis (mem s) !! r = Some c ->
  abs s !! id j = Some j -> (forall t, has_tube t s -> has_tube t s') ->
  ready_ticked s (bump nResvOnTick (bump nResv s')) now [matched_resv c j].
Proof.
  intros HI Hn M Hr Hc Ha Ht.
  assert (Inv (bump nResvOnTick (bump nResv s'))) as HI'.
  { apply (stat_only_inv s'); [by eexists|by eapply matched_inv]. }
  split; [done| |by repeat constructor| |done|apply M].
  - change (abs s' = apply_resvs now [matched_resv c j] (abs s)). rewrite (mt_abs _ _ _ _ _ _ M).
    unfold apply_resvs. simpl. apply map_eq. intros x. rewrite lookup_insert, lookup_alter.
    case_decide; [subst; by rewrite Ha|done].
  - intros t' Hid. pose proof (matched_idle _ _ _ _ _ _ _ M Hid) as [H|H]; [by left|by right].
Qed.

Lemma tickReady_tube_spec fuel now t result s :
  Inv s -> clock_ok now -> has_tube t s -> (size (jobs_with (HReady t) (abs s)) < fuel)%nat ->
  exists rs s', tickReady_tube fuel now t result s = OK (result ++ rs) s' /\
    ready_ticked s s' now rs /\ idle s' t.
Proof.
  revert result s. induction fuel as [|f IH]; intros result s HI Hn Ht Hf; [lia|]. cbn [tickReady_tube].
  pose proof (inv_jobs _ HI) as HJ. pose proof (inv_cli _ HI) as HC.
  assert (waiters s t = [] \/ ready_root s t = None \/ exists r l er, waiters s t = r :: l /\ ready_root s t = Some er)
    as Hcase by (destruct (waiters s t), (ready_root s t); eauto 10).
  assert (forall s', tryReserveJob now t None s = ERR ErrNoReservationFound s' -> stat_only s s' -> idle s t ->
    exists rs s', (r <- try (tryReserveJob now t None) ;; match r with
       | inl resv => incr nResv ;; incr nResvOnTick ;; tickReady_tube f now t (result ++ [resv])
       | inr ErrNoReservationFound => ret result | inr _ => panic end) s = OK (result ++ rs) s' /\
       ready_ticked s s' now rs /\ idle s' t) as Hstop.
  { intros s' Hop Hst Hid. exists [], s'. rewrite (bind_OK _ _ _ _ _ (try_ERR _ _ _ _ Hop)), app_nil_r.
    pose proof (stat_only_ticked s s' now HI Hst) as R. split_and!; [done|done|by apply R]. }
  destruct Hcase as [Hw|[Hr|(r & l & er & Hw & Hr)]].
  - destruct (tryReserveJob_none s now t None HC Ht ltac:(by left)) as (s' & Hop & Hs').
    apply (Hstop s' Hop); [destruct Hs' as [->| ->]; [apply stat_only_refl|by eexists]|by left].
  - destruct (tryReserveJob_none s now t None HC Ht ltac:(by right)) as (s' & Hop & Hs').
    apply (Hstop s' Hop); [destruct Hs' as [->| ->]; [apply stat_only_refl|by eexists]|].
    right. by apply ready_none.
  - clear Hstop. destruct (tryReserveJob_some s now t None er r l HJ HC Hr Hw) as (j & c & s1 & Hl & Hc & Hop & M).
    { simpl. rewrite Hw. left. }
    simpl in Hc, M. destruct (ci_in _ HC t r) as (c0 & _ & Hreg & _); [rewrite Hw; left|].
    pose proof Hl as (Ha & Hk & _).
    assert (ready_ticked s (bump nResvOnTick (bump nResv s1)) now [matched_resv c j]) as R.
    { apply (matched_ticked s s1 now j r c HI Hn M Hreg Hc Ha).
      intros t' Ht'. pose proof (keeps_tryReserveJob t' now t None s Ht') as Hkeep. by rewrite Hop in Hkeep. }
    rewrite (bind_OK _ _ _ _ _ (try_OK _ _ _ _ Hop)), !run_incr.
    destruct (IH (result ++ [matched_resv c j]) _ (rt_inv _ _ _ _ R) Hn) as (rs & s' & Hop' & R' & Hid').
    { by apply (rt_tubes _ _ _ _ R). }
    { rewrite (rt_abs _ _ _ _ R). unfold apply_resvs. simpl.
      assert (alter (reserve_job now (CliID c)) (id j) (abs s) = <[id j := reserve_job now (CliID c) j]> (abs s)) as ->.
      { apply map_eq. intros x. rewrite lookup_insert, lookup_alter. case_decide; [subst; by rewrite Ha|done]. }
      assert (key_of (reserve_job now (CliID c) j) <> HReady t) as Hne by (by rewrite reserve_key).
      pose proof (jobs_with_leave _ _ _ _ _ Ha Hk Hne). lia. }
    exists (matched_resv c j :: rs), s'. split_and!.
    + rewrite Hop'. by rewrite <- app_assoc.
    + by apply (ready_ticked_trans s _ s' now [matched_resv c j] rs R).
    + done.
Qed.

Lemma ready_count_spec t s : JobsInv s -> ready_count t s = size (jobs_with (HReady t) (abs s)).
Proof.
  intros HI. rewrite <- (heap_count s (HReady t)) by (done || by apply not_stale). unfold ready_count, heaps, heap_of, tube_state, Len.
  by destruct (tubes s !! t).
Qed.

Lemma tickReadyJobs_loop_spec order now result s :
  Inv s -> clock_ok now -> (forall t, t ∈ order -> has_tube t s) ->
  exists rs s', tickReadyJobs_loop order now result s = OK (result ++ rs) s' /\
    ready_ticked s s' now rs /\ forall t, t ∈ order -> idle s' t.
Proof.
  revert result s. induction order as [|t order IH]; intros result s HI Hn Ht; cbn [tickReadyJobs_loop].
  { exists [], s. rewrite app_nil_r. split_and!; [done|by apply stat_only_ticked, stat_only_refl|].
    by intros t ?%elem_of_nil. }
  rewrite (bind_OK (gets _) _ s (S (ready_count t s)) s) by done.
  destruct (tickReady_tube_spec (S (ready_count t s)) now t result s HI Hn (Ht t ltac:(left)))
    as (rs1 & s1 & Hop1 & R1 & Hid1).
  { rewrite ready_count_spec by apply HI. lia. }
  rewrite (bind_OK _ _ _ _ _ Hop1).
  destruct (IH (result ++ rs1) s1 (rt_inv _ _ _ _ R1) Hn) as (rs2 & s2 & Hop2 & R2 & Hid2).
  { intros t' Ht'. apply (rt_tubes _ _ _ _ R1), Ht. by right. }
  exists (rs1 ++ rs2), s2. split_and!.
  - by rewrite app_assoc.
  - by eapply ready_ticked_trans.
  - intros t' [->|Hin]%elem_of_cons; [by apply (rt_idle _ _ _ _ R2)|by apply Hid2].
Qed.

(** * Clients *)
Definition expired (now : Z) (j : Job) : bool := bool_decide (state j = Reserved) && (expiresAt j <? now).

(** The expired reservations are released, and counted as timeouts. *)
Definition expire (now : Z) (T : gmap JobID Job) : gmap JobID Job :=
  (fun j => if expired now j then release_job 0 false j else j) <$> T.

Lemma expire_step now T jid j :
  T !! jid = Some j -> expired now j = true ->
  expire now (<[jid := release_job 0 false j]> T) = expire now T.
Proof.
  intros Ha He. unfold expire. rewrite fmap_insert. apply map_eq. intros x. rewrite lookup_insert.
  case_decide; [subst x|done]. rewrite lookup_fmap, Ha. simpl. f_equal. rewrite He.
  assert (expired now (release_job 0 false j) = false) as ->; [|done].
  unfold expired. by rewrite release_state.
Qed.

Lemma release_ttr pri b j : ttr (release_job pri b j) = ttr j.
Proof. solve_step. Qed.

Lemma resv_count_spec cid s : resv_count cid s = length (entries (heaps s (HReserved cid))).
Proof. unfold resv_count, heaps, heap_of, Len. by destruct (reservedJobs s !! cid). Qed.

(** A state in which the jobs of client [r] are being released. *)
Record releasing (s s' : localJSM) (now : Z) (r : CliRef) (c c' : ClientResvEntry) : Prop := {
  rl_jobs : JobsInv s';
  rl_cinv : CInv s';
  rl_heap : clientHeap s' = clientHeap s;
  rl_clients : clients s' = clients s;
  rl_self : mclis (mem s') !! r = Some c';
  rl_core : c' = c \/ c' = unwait c;
  rl_others x : x <> r -> mclis (mem s') !! x = mclis (mem s) !! x;
  rl_expire : expire now (abs s') = expire now (abs s);
  rl_abs jid j : abs s' !! jid = Some j -> abs s !! jid = Some j \/
    exists j0, abs s !! jid = Some j0 /\ state j0 = Reserved /\ j = release_job 0 false j0;
  rl_max : maxJobID s' = maxJobID s;
  rl_tick : nextDelayTickAt s' = nextDelayTickAt s
}.

Lemma releasing_refl s now r c : JobsInv s -> CInv s -> mclis (mem s) !! r = Some c -> releasing s s now r c c.
Proof. intros. split; try done; auto. Qed.

Lemma unwait_unwait c : unwait (unwait c) = unwait c.
Proof. done. Qed.

Lemma releasing_trans s s1 s' now r c c1 c' :
  releasing s s1 now r c c1 -> releasing s1 s' now r c1 c' -> releasing s s' now r c c'.
Proof.
  intros [A1 A2 A3 A4 A5 A6 A7 A8 A9 A10 A11] [B1 B2 B3 B4 B5 B6 B7 B8 B9 B10 B11].
  split; try done; try congruence.
  - destruct A6 as [->| ->], B6 as [->| ->]; rewrite ?unwait_unwait; auto.
  - intros x Hx. by rewrite B7, A7.
  - intros jid j Ha. destruct (B9 _ _ Ha) as [Ha1|(j1 & Ha1 & Hst1 & ->)]; [by apply A9|].
    destruct (A9 _ _ Ha1) as [?|(j0 & _ & _ & ->)]; [eauto|]. by rewrite release_state in Hst1.
Qed.

Lemma releasing_registered s s' now r c c' : releasing s s' now r c c' -> registered s' = registered s.
Proof. intros R. unfold registered. by rewrite (rl_clients _ _ _ _ _ _ R). Qed.

(** Releasing one expired job. *)
Lemma release_one s now r c j :
  JobsInv s -> CInv s -> mclis (mem s) !! r = Some c -> abs s !! id j = Some j ->
  key_of j = HReserved (CliID c) -> expired now j = true ->
  exists s', Release (id j) (CliID c) s = OK tt s' /\ releasing s s' now r c c /\
    abs s' = <[id j := release_job 0 false j]> (abs s).
Proof.
  intros HI HC Hc Ha Hk He. pose proof Hk as [Hst Hrb]%key_reserved.
  unfold Release. rewrite run_incr. set (s0 := bump nJobTimeouts s).
  pose proof (fromReservedToReady_implements s0 (id j) (CliID c) 0 false HI) as Himp.
  unfold implements, a_release, guard_state, guard_owner in Himp. change (abs s0) with (abs s) in Himp.
  rewrite Ha in Himp. rewrite decide_False in Himp by (intros Hn; by apply Hn).
  assert (unauthorized (CliID c) j = false) as Hun.
  { unfold unauthorized. rewrite Hrb, String.eqb_refl. by rewrite andb_false_r. }
  rewrite Hun in Himp. destruct Himp as (s' & Hop & [M1 M2 M3 M4 M5]). unfold no_more in *.
  change (abs s0) with (abs s) in M2. exists s'. split; [exact Hop|]. split; [|done].
  assert (cframe s s') as Hf by (etransitivity; [apply (bump_frame nJobTimeouts)|exact M4]).
  pose proof Hf as [F1 F2 F3 F4]. unfold misc in M3. injection M3 as N1 N2 N3 N4. split; try done; auto.
  - by apply (cframe_CInv s).
  - by rewrite F1.
  - intros x _. by rewrite F1.
  - rewrite M2. by apply expire_step.
  - intros jid x. rewrite M2. intros [[<- <-]|[_ Hx]]%lookup_insert_Some; [|by left]. right. eauto.
Qed.

(** [unReserve] as a step of the loop. *)
Lemma unreserve_one s now r c :
  JobsInv s -> CInv s -> r ∈ registered s -> mclis (mem s) !! r = Some c -> IsWaitingForResv c = true ->
  exists s', unReserve r s = OK tt s' /\ releasing s s' now r c (unwait c) /\
    (forall k, heaps s' k = heaps s k) /\ jframe s s'.
Proof.
  intros HI HC Hr Hc Hw. destruct (unReserve_spec s r c HC Hr Hc Hw) as (s' & Hop & [U1 U2 U3 U4 U5 U6 U7]).
  exists s'. split; [done|]. split; [|split; [apply U1|done]]. pose proof (jframe_abs _ _ U1) as Ha.
  split; try done; auto.
  - by apply (jframe_inv s).
  - rewrite U5. apply lookup_insert_eq.
  - intros x Hx. rewrite U5. by rewrite lookup_insert_ne.
  - by rewrite Ha.
  - intros jid j. rewrite Ha. auto.
  - apply U1. - apply U1.
Qed.

(** Nothing of the client is overdue. *)
Definition not_overdue (s : localJSM) (now : Z) (c : ClientResvEntry) : Prop :=
  match resv_root s (CliID c) with
  | None => True
  | Some j => now <= expiresAt j /\ (IsWaitingForResv c = true -> now <= wrap_i64 (expiresAt j - 1))
  end.

Definition soon_resv (c : ClientResvEntry) : Reservation :=
  mkReservation (ReqID c) (CliID c) 0 DeadlineSoon 0 None None.
Definition timeout_resv (c : ClientResvEntry) : Reservation :=
  mkReservation (ReqID c) (CliID c) 0 Timeout 0 None None.

Lemma tickClient_jobs_spec fuel now r result s c :
  JobsInv s -> CInv s -> r ∈ registered s -> mclis (mem s) !! r = Some c ->
  (length (entries (heaps s (HReserved (CliID c)))) + (if IsWaitingForResv c then 1 else 0) < fuel)%nat ->
  exists rs s' c', tickClient_jobs fuel now r result s = OK (result ++ rs) s' /\
    releasing s s' now r c c' /\ not_overdue s' now c' /\
    (rs = [] \/ rs = [soon_resv c] /\ IsWaitingForResv c = true).
Proof.
  revert result s c. induction fuel as [|f IH]; intros result s c HI HC Hr Hc Hf; [lia|].
  cbn [tickClient_jobs]. rewrite (run_load_cli _ _ _ _ Hc). pose proof (NextReservedJob_spec s (CliID c)) as Hn.
  destruct (entries (heaps s (HReserved (CliID c))) !! 0%nat) as [er|] eqn:Her.
  2: { rewrite (bind_OK _ _ _ _ _ (try_ERR _ _ _ _ Hn)). exists [], s, c. rewrite app_nil_r.
       split_and!; [done|by apply releasing_refl| |by left]. unfold not_overdue, resv_root. by rewrite Her. }
  rewrite (bind_OK _ _ _ _ _ (try_OK _ _ _ _ Hn)).
  destruct (resv_root_Some s (CliID c) er HI Her) as (j & Hej & Hroot & Hl & Hk & Hmin).
  rewrite (run_entry_load _ _ _ _ Hej). cbv zeta. destruct (Z.ltb_spec (expiresAt j) now) as [Hexp|Hexp].
  - assert (expired now j = true) as He.
    { unfold expired. apply key_reserved in Hk as [-> _]. rewrite bool_decide_eq_true_2 by done. simpl. by apply Z.ltb_lt. }
    destruct (release_one s now r c j HI HC Hc Hl Hk He) as (s1 & Hop & R1 & Ha1).
    rewrite (bind_OK _ _ _ _ _ (try_OK _ _ _ _ Hop)).
    destruct (IH result s1 c) as (rs & s' & c' & Hop' & R' & Hno & Hrs).
    + apply R1. + apply R1. + by rewrite (releasing_registered _ _ _ _ _ _ R1). + apply R1.
    + rewrite (heap_count s1 _ (rl_jobs _ _ _ _ _ _ R1)) by (apply not_stale; [apply R1|done]).
      rewrite (heap_count s _ HI) in Hf by (by apply not_stale).
      assert (key_of (release_job 0 false j) <> HReserved (CliID c)) as Hne by (by rewrite release_key).
      rewrite Ha1. pose proof (jobs_with_leave _ _ _ _ _ Hl Hk Hne). lia.
    + exists rs, s', c'. split_and!; try done. by eapply releasing_trans.
  - destruct (Z.ltb_spec (wrap_i64 (expiresAt j - 1)) now) as [Hs|Hs], (IsWaitingForResv c) eqn:Hw; cbn [andb].
    2-4: exists [], s, c; rewrite app_nil_r; split_and!; [done|by apply releasing_refl| |by left];
         unfold not_overdue; rewrite Hroot, Hw; done.
    destruct (unreserve_one s now r c HI HC Hr Hc Hw) as (s1 & Hop & R1 & Hh1 & Hj1).
    rewrite (bind_OK _ _ _ _ _ Hop).
    destruct (IH (result ++ [soon_resv c]) s1 (unwait c)) as (rs & s' & c' & Hop' & R' & Hno & Hrs).
    + apply R1. + apply R1. + by rewrite (releasing_registered _ _ _ _ _ _ R1). + apply R1.
    + change (CliID (unwait c)) with (CliID c). rewrite Hh1.
      change (IsWaitingForResv (unwait c)) with false. cbv iota. lia.
    + exists (soon_resv c :: rs), s', c'. rewrite <- app_assoc in Hop'.
      split_and!; [exact Hop'|by eapply releasing_trans|done|].
      destruct Hrs as [->|[_ ?]]; [by right|done].
Qed.

Lemma tick_of_ge s now c :
  not_overdue s now c -> (IsWaitingForResv c = true -> now <= ResvDeadlineAt c) -> now <= maxTime -> now <= tick_of s c.
Proof.
  unfold not_overdue, tick_of. intros Hno Hdl Hmax.
  destruct (resv_root s (CliID c)) as [j|], (IsWaitingForResv c); rewrite ?minTime_min.
  - destruct Hno as [_ Hno]. specialize (Hno eq_refl). specialize (Hdl eq_refl). lia.
  - lia.
  - specialize (Hdl eq_refl). lia.
  - lia.
Qed.

(** What the event loop tells a client whose turn it is. *)
Definition timed_out (now : Z) (c : ClientResvEntry) : bool := IsWaitingForResv c && (ResvDeadlineAt c <? now).

Definition client_msgs (now : Z) (c : ClientResvEntry) (rs : list Reservation) : Prop :=
  rs = (if timed_out now c then [timeout_resv c] else []) \/
  timed_out now c = false /\ IsWaitingForResv c = true /\ rs = [soon_resv c].

(** The timeout part of [tickClient]. *)
Lemma tick_timeout s now r c result :
  JobsInv s -> CInv s -> r ∈ registered s -> mclis (mem s) !! r = Some c ->
  exists s' c', (if IsWaitingForResv c && (ResvDeadlineAt c <? now) then
      unReserve r ;; ret (result ++ [timeout_resv c]) else ret result) s
      = OK (result ++ if timed_out now c then [timeout_resv c] else []) s' /\
    releasing s s' now r c c' /\ (c' = if timed_out now c then unwait c else c) /\
    (forall k, heaps s' k = heaps s k).
Proof.
  intros HI HC Hr Hc. fold (timed_out now c). destruct (timed_out now c) eqn:Ht.
  - unfold timed_out in Ht. apply andb_true_iff in Ht as [Hw _].
    destruct (unreserve_one s now r c HI HC Hr Hc Hw) as (s1 & Hop & R1 & Hh1 & _).
    exists s1, (unwait c). by rewrite (bind_OK _ _ _ _ _ Hop).
  - exists s, c. rewrite app_nil_r. split_and!; [done|by apply releasing_refl|done|done].
Qed.

(** The effect of one turn of the outer loop on the client [r]. *)
Record client_ticked (s s' : localJSM) (now : Z) (r : CliRef) (c' : ClientResvEntry) : Prop := {
  ct_step : client_step s s' r c';
  ct_reg : r ∈ registered s';
  ct_late : now <= TickAt c';
  ct_expire : expire now (abs s') = expire now (abs s);
  ct_abs jid j : abs s' !! jid = Some j -> abs s !! jid = Some j \/
    exists j0, abs s !! jid = Some j0 /\ state j0 = Reserved /\ j = release_job 0 false j0
}.

Lemma tickClient_spec s now r c result :
  JobsInv s -> CInv s -> r ∈ registered s -> r ∉ clientHeap s -> mclis (mem s) !! r = Some c -> now <= maxTime ->
  exists rs s' c', tickClient now r result s = OK (result ++ rs) s' /\ client_ticked s s' now r c' /\
    CliID c' = CliID c /\ client_msgs now c rs.
Proof.
  intros HI HC Hr Hnin Hc Hmax. unfold tickClient. rewrite (run_load_cli _ _ _ _ Hc). cbv zeta.
  destruct (tick_timeout s now r c result HI HC Hr Hc) as (s2 & c2 & Hop2 & R2 & Hc2 & Hh2).
  rewrite (bind_OK _ _ _ _ _ Hop2). rewrite (bind_OK (gets _) _ s2 (S (S (resv_count (CliID c) s2))) s2) by done.
  assert (CliID c2 = CliID c) as Hid2 by (subst c2; by destruct (timed_out now c)).
  destruct (tickClient_jobs_spec (S (S (resv_count (CliID c) s2))) now r
    (result ++ if timed_out now c then [timeout_resv c] else []) s2 c2) as (rs & s3 & c3 & Hop3 & R3 & Hno & Hrs).
  { apply R2. } { apply R2. } { by rewrite (releasing_registered _ _ _ _ _ _ R2). } { apply R2. }
  { rewrite resv_count_spec, Hid2. destruct (IsWaitingForResv c2); lia. }
  rewrite (bind_OK _ _ _ _ _ Hop3). pose proof (releasing_trans _ _ _ _ _ _ _ _ R2 R3) as R.
  assert (registered s3 = registered s) as Hr3 by (by eapply releasing_registered).
  destruct (updateClientTickAt_spec s3 r c3) as (s4 & Hop4 & RS);
    [apply R|apply R|by rewrite Hr3|apply R|].
  rewrite (bind_OK _ _ _ _ _ Hop4).
  destruct (rescheduled_scheduled _ _ _ _ RS) as (c4 & Hs4 & Hcore4 & _).
  assert (CliID c3 = CliID c) as Hid3 by (destruct (rl_core _ _ _ _ _ _ R3) as [->| ->]; done).
  assert (clients s4 = clients s) as Hcl.
  { rewrite (rs_reg _ _ _ _ RS); [apply R|]. right. by rewrite (rl_heap _ _ _ _ _ _ R). }
  pose proof (jframe_abs _ _ (rs_jframe _ _ _ _ RS)) as Ha4.
  exists ((if timed_out now c then [timeout_resv c] else []) ++ rs), s4, c4. split_and!.
  - by rewrite <- app_assoc.
  - split.
    + split; try apply RS; try done.
      * by apply (jframe_inv s3); [apply RS|apply R].
      * intros x Hx. rewrite (rs_others _ _ _ _ RS) by done. by rewrite (rl_others _ _ _ _ _ _ R).
      * intros x Hx. rewrite (rs_heap _ _ _ _ RS) by done. by rewrite (rl_heap _ _ _ _ _ _ R).
      * intros x Hx. unfold registered. by rewrite Hcl.
      * intros _. unfold registered. by rewrite Hcl.
      * rewrite (jf_max _ _ (rs_jframe _ _ _ _ RS)). apply R.
      * rewrite (jf_tick _ _ (rs_jframe _ _ _ _ RS)). apply R.
    + unfold registered. by rewrite Hcl.
    + destruct Hs4 as (_ & -> & _). rewrite (tick_of_jframe s3 s4 c3 c4) by (done || apply RS).
      apply tick_of_ge; [done| |done]. intros Hw3.
      destruct (rl_core _ _ _ _ _ _ R3) as [->| ->]; [|done]. subst c2. destruct (timed_out now c) eqn:Ht; [done|].
      unfold timed_out in Ht. rewrite Hw3 in Ht. simpl in Ht. lia.
    + rewrite Ha4. apply R.
    + rewrite Ha4. apply R.
  - apply core_inv in Hcore4 as (E & _). congruence.
  - unfold client_msgs. destruct Hrs as [->|[-> Hw2]]; [left; by rewrite app_nil_r|right].
    subst c2. destruct (timed_out now c); [done|]. done.
Qed.

(** ** The outer loop *)
Lemma dequeue_step s r :
  CInv s -> clientHeap s !! 0%nat = Some r ->
  exists s1, on_cheap CliHeap.Dequeue s = OK r s1 /\ jframe s s1 /\ CInv s1 /\ clients s1 = clients s /\
    ~ (r ∈ clientHeap s1) /\ (forall x, x <> r -> x ∈ clientHeap s1 <-> x ∈ clientHeap s) /\
    (forall x, no_idx <$> mclis (mem s1) !! x = no_idx <$> mclis (mem s) !! x).
Proof.
  intros HC Hr. destruct (cheap_Dequeue (mem s) (clientHeap s) r) as (m' & h' & Hop & Hw & Hm & Hp & Hx & Hi & Hso);
    [apply HC|done|].
  assert (r ∉ h') as Hnin.
  { pose proof (ch_wf_NoDup _ _ (ci_hwf _ HC)) as Hnd. rewrite Hp in Hnd. by apply NoDup_cons in Hnd as [? _]. }
  exists (set_clientHeap h' (set_mem m' s)). split; [by apply on_cheap_OK|]. split_and!; try done.
  - split; try done; simpl; [apply Hm|apply Hm|by apply moves_mem_wf].
  - apply (CInv_frame s); try done; simpl.
    + intros x. by apply moves_core.
    + apply (qwf_frame (mem s)); [|apply HC]. intros x _. by apply moves_cid.
    + by apply Hso, HC.
    + intros x Hin. apply (ci_hreg _ HC). rewrite Hp. by right.
    + intros x cx Hcx Hn. destruct (decide (x = r)) as [->|Hne]; [rewrite Hcx in Hx; by simplify_eq/=|].
      assert (x ∉ clientHeap s) as Hn' by (rewrite Hp, elem_of_cons; intros [?|?]; done).
      specialize (Hi x Hn'). rewrite Hcx in Hi. destruct (mclis (mem s) !! x) as [c0|] eqn:Hc0; [|done].
      simplify_eq/=. rewrite Hi. by apply (ci_hidx _ HC x c0).
  - intros x Hne. simpl. rewrite Hp, elem_of_cons. split; [by right|by intros [?|?]].
  - apply (mo_clis _ _ Hm).
Qed.

Definition is_due (s : localJSM) (now : Z) (r : CliRef) : Prop :=
  match mclis (mem s) !! r with Some c => TickAt c < now | None => False end.
#[export] Instance is_due_dec s now r : Decision (is_due s now r).
Proof. unfold is_due. destruct (mclis (mem s) !! r); apply _. Defined.
Definition due_set (s : localJSM) (now : Z) : gset CliRef :=
  list_to_set (filter (is_due s now) (clientHeap s)).

Lemma elem_due s now r : r ∈ due_set s now <-> r ∈ clientHeap s /\ is_due s now r.
Proof. unfold due_set. rewrite elem_of_list_to_set, list_elem_of_filter. tauto. Qed.

Lemma due_set_size s now : (size (due_set s now) <= length (clientHeap s))%nat.
Proof.
  unfold due_set. etransitivity; [|apply (length_filter (is_due s now))].
  generalize (filter (is_due s now) (clientHeap s)). intros l. induction l as [|x l IH].
  - by rewrite list_to_set_nil, size_empty.
  - rewrite list_to_set_cons, size_union_alt, size_singleton. cbn [length].
    apply le_n_S. etransitivity; [|exact IH]. apply subseteq_size. set_solver.
Qed.

Lemma no_idx_due s s' now x :
  no_idx <$> mclis (mem s') !! x = no_idx <$> mclis (mem s) !! x -> is_due s' now x <-> is_due s now x.
Proof.
  intros Hx. unfold is_due. destruct (mclis (mem s') !! x) as [a|], (mclis (mem s) !! x) as [b|]; try done.
  apply (inj Some), no_idx_inv in Hx as (_ & _ & _ & _ & E & _). by rewrite E.
Qed.

Lemma client_ticked_due s s' now r c' :
  client_ticked s s' now r c' -> r ∈ due_set s now -> (size (due_set s' now) < size (due_set s now))%nat.
Proof.
  intros [[_ _ Hs Ho Hh _ _ _ _] _ Hl _ _] Hr. apply subset_size. split.
  - intros x [Hx Hd]%elem_due. apply elem_due. destruct (decide (x = r)) as [->|Hne]; [by apply elem_due in Hr|].
    split; [by apply Hh|]. by eapply no_idx_due; [symmetry; apply Ho|].
  - intros Hsub. apply Hsub, elem_due in Hr as [_ Hd]. unfold is_due in Hd.
    destruct Hs as (Hc & _ & _). rewrite Hc in Hd. lia.
Qed.

(** One turn, from the invariant to the invariant. *)
Lemma tick_one s now r c result :
  Inv s -> now <= maxTime -> CliHeap.Peek (clientHeap s) = Some r -> mclis (mem s) !! r = Some c ->
  exists rs s' c', (cli <- on_cheap CliHeap.Dequeue ;; tickClient now cli result) s = OK (result ++ rs) s' /\
    Inv s' /\ client_ticked s s' now r c' /\ client_msgs now c rs.
Proof.
  intros HI Hmax Hp Hc. pose proof (inv_cli _ HI) as HC. pose proof (inv_jobs _ HI) as HJ.
  assert (clientHeap s !! 0%nat = Some r) as Hr0 by (unfold CliHeap.Peek in Hp; by case_match).
  assert (r ∈ registered s) as Hreg by (by eapply (ci_hreg _ HC), list_elem_of_lookup_2).
  destruct (dequeue_step s r HC Hr0) as (s1 & Hop1 & Hj1 & HC1 & Hcl1 & Hnin & Hh1 & Ho1).
  rewrite (bind_OK _ _ _ _ _ Hop1).
  assert (registered s1 = registered s) as Hreg1 by (unfold registered; by rewrite Hcl1).
  pose proof (Ho1 r) as Hc1. rewrite Hc in Hc1. destruct (mclis (mem s1) !! r) as [c1|] eqn:Hc1'; [|done].
  apply (inj Some), no_idx_inv in Hc1 as (E1 & E2 & E3 & E4 & E5 & E6).
  destruct (tickClient_spec s1 now r c1 result) as (rs & s' & c' & Hop & T & Hid & Hmsg); try done.
  { by apply (jframe_inv s). } { by rewrite Hreg1. }
  pose proof (jframe_abs _ _ Hj1) as Ha1. destruct T as [[C1 C2 C3 C4 C5 C6 C7 C8 C9] T2 T3 T4 T5].
  rewrite Ha1 in T4, T5. exists rs, s', c'. split; [done|].
  assert (client_ticked s s' now r c') as T.
  { split; try done. split; try done.
    - intros x Hx. by rewrite C4.
    - intros x Hx. by rewrite C5, Hh1.
    - intros x Hx. by rewrite C6, Hreg1.
    - rewrite C8. apply Hj1.
    - rewrite C9. apply Hj1. }
  split_and!; [|done|].
  - destruct (registered_cid s r c HC Hreg Hc) as [Hcid Hcids].
    assert (CliID c' = CliID c) as Hidc by congruence. rewrite <- Hidc in Hcid, Hcids.
    apply (client_step_inv s s' r c' HI (ct_step _ _ _ _ _ T)); try done.
    + intros jid j cid Ha Hk. destruct (T5 _ _ Ha) as [?|(j0 & _ & _ & ->)]; [by right|]. by rewrite release_key in Hk.
    + intros jid j Ha Hst. destruct (T5 _ _ Ha) as [?|(j0 & _ & _ & ->)]; [by eapply (inv_exp _ HI)|].
      by rewrite release_state in Hst.
    + intros jid j Ha. destruct (T5 _ _ Ha) as [?|(j0 & ? & _ & ->)]; [by eapply (inv_ttr _ HI)|].
      rewrite release_ttr. by eapply (inv_ttr _ HI).
    + intros jid j Ha Hst. destruct (T5 _ _ Ha) as [?|(j0 & _ & _ & ->)]; [by eapply (inv_delay _ HI)|].
      by rewrite release_state in Hst.
  - unfold client_msgs, timed_out, timeout_resv, soon_resv in *. by rewrite <- E1, <- E3, <- E4, <- E6.
Qed.

(** The effect of [tickClients] or of a part of it. *)
Record clients_ticked (s s' : localJSM) (now : Z) : Prop := {
  kt_inv : Inv s';
  kt_expire : expire now (abs s') = expire now (abs s);
  kt_max : maxJobID s' = maxJobID s;
  kt_tick : nextDelayTickAt s' = nextDelayTickAt s
}.

Lemma tickClients_loop_spec fuel now result s :
  Inv s -> now <= maxTime -> (size (due_set s now) < fuel)%nat ->
  exists rs s', tickClients_loop fuel now result s = OK (result ++ rs) s' /\ clients_ticked s s' now /\
    (forall r c, r ∈ clientHeap s' -> mclis (mem s') !! r = Some c -> now <= TickAt c).
Proof.
  revert result s. induction fuel as [|f IH]; intros result s HI Hmax Hf; [lia|]. cbn [tickClients_loop].
  rewrite (bind_OK (gets clientHeap) _ s (clientHeap s) s) by done. pose proof (inv_cli _ HI) as HC.
  destruct (CliHeap.Peek (clientHeap s)) as [r|] eqn:Hp.
  2: { exists [], s. rewrite app_nil_r. unfold CliHeap.Peek in Hp.
       destruct (CliHeap.Len (clientHeap s) =? 0)%nat eqn:E0.
       - split_and!; [done|done|]. unfold CliHeap.Len in E0.
         destruct (clientHeap s); [by intros r c ?%elem_of_nil|done].
       - apply lookup_ge_None in Hp. apply Nat.eqb_neq in E0. unfold CliHeap.Len in E0. lia. }
  assert (clientHeap s !! 0%nat = Some r) as Hr0 by (unfold CliHeap.Peek in Hp; by case_match).
  assert ((CliHeap.Len (clientHeap s) =? 0)%nat = false) as ->.
  { unfold CliHeap.Peek in Hp. by case_match. }
  rewrite (bind_OK _ _ s r s) by (unfold deref; by rewrite Hp).
  pose proof (list_elem_of_lookup_2 _ _ _ Hr0) as Hin.
  destruct (proj2 (proj1 (ch_wf_alt _ _) (ci_hwf _ HC)) r Hin) as [c Hc].
  rewrite (run_load_cli _ _ _ _ Hc). destruct (Z.leb_spec now (TickAt c)) as [Hle|Hgt].
  { exists [], s. rewrite app_nil_r. split_and!; [done|done|]. intros r' c' Hr' Hc'.
    pose proof (cheap_Peek_least _ _ _ _ _ _ (ci_hsorted _ HC) Hp Hc Hr' Hc'). lia. }
  destruct (tick_one s now r c result HI Hmax Hp Hc) as (rs1 & s1 & c1 & Hop1 & HI1 & T1 & _).
  rewrite <- bind_assoc, (bind_OK _ _ _ _ _ Hop1).
  assert (r ∈ due_set s now) as Hdue by (apply elem_due; unfold is_due; rewrite Hc; split; [done|lia]).
  pose proof (client_ticked_due _ _ _ _ _ T1 Hdue) as Hsz.
  destruct (IH (result ++ rs1) s1 HI1 Hmax) as (rs2 & s2 & Hop2 & [K1 K2 K3 K4] & Hpost); [lia|].
  destruct T1 as [[_ _ _ _ _ _ _ C8 C9] _ _ T4 _].
  exists (rs1 ++ rs2), s2. split_and!; [by rewrite app_assoc| |done]. split; congruence.
Qed.

Lemma expire_id now T :
  (forall jid j, T !! jid = Some j -> state j = Reserved -> now <= expiresAt j) -> expire now T = T.
Proof.
  intros Hno. unfold expire. apply map_eq. intros x. rewrite lookup_fmap.
  destruct (T !! x) as [j|] eqn:Hj; [|done]. simpl. f_equal. destruct (expired now j) eqn:He; [|done].
  unfold expired in He. apply andb_true_iff in He as [H1 H2]. apply bool_decide_eq_true in H1.
  specialize (Hno _ _ Hj H1). lia.
Qed.

(** Nothing is overdue: no reserved job, no waiting client. *)
Record settled (s : localJSM) (now : Z) : Prop := {
  se_resv jid j : abs s !! jid = Some j -> state j = Reserved -> now <= expiresAt j;
  se_wait r c : r ∈ registered s -> mclis (mem s) !! r = Some c -> IsWaitingForResv c = true ->
    now <= ResvDeadlineAt c
}.

Lemma tickClients_spec now s :
  Inv s -> now <= maxTime ->
  exists rs s', tickClients now s = OK rs s' /\ clients_ticked s s' now /\
    abs s' = expire now (abs s) /\ settled s' now.
Proof.
  intros HI Hmax. unfold tickClients.
  rewrite (bind_OK (gets _) _ s (S (CliHeap.Len (clientHeap s))) s) by done.
  destruct (tickClients_loop_spec (S (CliHeap.Len (clientHeap s))) now [] s HI Hmax) as (rs & s' & Hop & K & Hpost).
  { pose proof (due_set_size s now). unfold CliHeap.Len. lia. }
  exists rs, s'. split; [done|]. pose proof (kt_inv _ _ _ K) as HI'.
  assert (settled s' now) as Hset.
  { split.
    - intros jid j Ha Hst. assert (key_of j = HReserved (reservedBy j)) as Hk by (by apply key_reserved).
      destruct (inv_own _ HI' _ _ _ Ha Hk) as (r & Hr & Hcid). unfold cid_of in Hcid.
      destruct (mclis (mem s') !! r) as [c|] eqn:Hc; [|done]. simplify_eq/=.
      destruct (inv_timely _ HI' r Hr c Hc) as [_ T2]. rewrite <- Hcid in Hk.
      destruct (T2 _ _ Ha Hk) as [Hin Hle]. pose proof (Hpost r c Hin Hc). lia.
    - intros r c Hr Hc Hw. destruct (inv_timely _ HI' r Hr c Hc) as [T1 _]. destruct (T1 Hw) as [Hin Hle].
      pose proof (Hpost r c Hin Hc). lia. }
  split_and!; [done| |done]. rewrite <- (kt_expire _ _ _ K). symmetry. apply expire_id. apply Hset.
Qed.

(** * [Tick] *)

(** The table after a tick: due jobs ready, matches made, expired reservations released. *)
Definition tick_table (now : Z) (matches : list Reservation) (T : gmap JobID Job) : gmap JobID Job :=
  expire now (apply_resvs now matches (wake_all now T)).

Lemma apply_resvs_delayed now rs T jid j :
  apply_resvs now rs T !! jid = Some j -> state j = Delayed -> T !! jid = Some j.
Proof.
  revert T. induction rs as [|rv rs IH]; intros T; [done|]. unfold apply_resvs. simpl.
  fold (apply_resvs now rs (alter (reserve_job now (r_ClientId rv)) (r_JobId rv) T)).
  intros Ha Hst. apply IH in Ha; [|done]. rewrite lookup_alter in Ha. case_decide; [|done]. subst.
  destruct (T !! r_JobId rv) as [j0|]; [|done]. simplify_eq/=. by rewrite reserve_state in Hst.
Qed.

(** The second loop ranges over the keys of the map at that point. *)
Definition ranges (delayOrder readyOrder : list TubeName) (now : Z) (s : localJSM) : Prop :=
  covers delayOrder s /\
  forall s1, tick_delay delayOrder now s = OK tt s1 -> forall t, t ∈ readyOrder <-> has_tube t s1.

Lemma Tick_spec delayOrder readyOrder now s :
  Inv s -> clock_ok now -> ranges delayOrder readyOrder now s ->
  exists matches others s', Tick delayOrder readyOrder now s = OK (matches ++ others) s' /\ Inv s' /\
    maxJobID s' = maxJobID s /\ abs s' = tick_table now matches (abs s) /\ settled s' now /\
    Forall (fun rv => r_Status rv = Matched) matches /\
    (forall jid j, abs s' !! jid = Some j -> state j = Delayed -> now <= readyAt j).
Proof.
  intros HI Hn [Hcov Hrd].
  destruct (tick_delay_inv delayOrder now s HI Hcov) as (s1 & Hop1 & HI1 & Ha1 & Hm1 & Hf1).
  destruct (tickReadyJobs_loop_spec readyOrder now [] s1 HI1 Hn (fun t => proj1 (Hrd s1 Hop1 t))) as (ms & s2 & Hop2 & R2 & Hid2).
  destruct (tickClients_spec now s2 (rt_inv _ _ _ _ R2)) as (os & s3 & Hop3 & K3 & Ha3 & Hset).
  { unfold clock_ok, maxTime, MaxInt64 in *. lia. }
  exists ms, os, s3. split.
  - unfold Tick. rewrite <- bind_assoc. unfold tick_delay in Hop1. rewrite (bind_OK _ _ _ _ _ Hop1).
    unfold tickReadyJobs.
    rewrite (bind_OK _ _ _ _ _ Hop2). by rewrite (bind_OK _ _ _ _ _ Hop3).
  - assert (abs s3 = tick_table now ms (abs s)) as Ht.
    { unfold tick_table. by rewrite Ha3, (rt_abs _ _ _ _ R2), Ha1. }
    split_and!; [apply K3| |done|done|apply R2|].
    + rewrite (kt_max _ _ _ K3), (rt_max _ _ _ _ R2). done.
    + intros jid j Ha Hst. rewrite Ht in Ha. unfold tick_table, expire in Ha. rewrite lookup_fmap in Ha.
      destruct (apply_resvs now ms (wake_all now (abs s)) !! jid) as [j0|] eqn:E; [|done]. simplify_eq/=.
      destruct (expired now j0); [by rewrite release_state in Hst|].
      apply apply_resvs_delayed in E; [|done]. apply wake_all_lookup in E as (j1 & _ & [[-> Hd]|[-> _]]).
      * unfold due in Hd. rewrite Hst in Hd. simpl in Hd. lia.
      * by rewrite UpdateState_state in Hst.
Qed.
