(* ===== verification/Machine.v ===== *)
(** The job state machine as a whole: the calls of the [JSM] interface as a step
    relation, and the invariant of every reachable state. *)
From stdpp Require Import base gmap list strings.
From Stdlib Require Import ZArith Lia.
From S2P Require Import Prelude GoHeap Job JobHeap ClientResv Index JSM Heaps JobInv.
From S2P Require Import Transitions Commands CliInv Clients Reserve Inv Tick Refine.
Local Open Scope Z_scope.

(** * Commands and the invariant *)

(** The commands clients can issue; reserving and readying are internal. *)
Definition public (c : cmd) : Prop :=
  match c with
  | CReserve _ _ _ | CReady _ => False
  | CPut _ _ _ ttr _ _ _ => ttr_ok ttr
  | _ => True
  end.

(** What a command does to the part of the table the clocks depend on. *)
Definition tame (t t' : table) : Prop :=
  (forall jid j, t_jobs t' !! jid = Some j -> state j = Reserved -> t_jobs t !! jid = Some j) /\
  ((forall jid j, t_jobs t !! jid = Some j -> ttr_ok (ttr j)) ->
   forall jid j, t_jobs t' !! jid = Some j -> ttr_ok (ttr j)) /\
  ((forall jid j, t_jobs t !! jid = Some j -> state j = Delayed -> t_tick t <= readyAt j) ->
   forall jid j, t_jobs t' !! jid = Some j -> state j = Delayed -> t_tick t' <= readyAt j).

Lemma tame_refl t : tame t t.
Proof. by split_and!. Qed.

Lemma tame_insert t jid j' mx tick :
  state j' <> Reserved -> ((forall jid j, t_jobs t !! jid = Some j -> ttr_ok (ttr j)) -> ttr_ok (ttr j')) ->
  (state j' = Delayed -> tick <= readyAt j') -> tick <= t_tick t ->
  tame t (mkTable (<[jid := j']> (t_jobs t)) mx tick).
Proof.
  intros Hst Httr Hd Hle. split_and!; simpl.
  - intros x y [[_ <-]|[_ ?]]%lookup_insert_Some; [done|done].
  - intros Hall x y [[_ <-]|[_ ?]]%lookup_insert_Some; [by apply Httr|by eapply Hall].
  - intros Hall x y [[_ <-]|[_ ?]]%lookup_insert_Some Hy; [by apply Hd|].
    etransitivity; [done|by eapply Hall].
Qed.

Lemma job_step_tame jid f lower t r t' :
  (forall j j', f j = inl j' -> state j' <> Reserved /\ ttr j' = ttr j /\ (state j' = Delayed -> lower = true)) ->
  job_step jid f lower t = (r, t') -> tame t t'.
Proof.
  intros Hf. unfold job_step. destruct (t_jobs t !! jid) as [j|] eqn:Hj; [|intros [= _ <-]; apply tame_refl].
  destruct (f j) as [j'|e] eqn:He; intros [= _ <-]; [|apply tame_refl].
  destruct (Hf _ _ He) as (H1 & H2 & H3). apply tame_insert; [done| | |].
  - intros Hall. rewrite H2. by eapply Hall.
  - intros Hd. rewrite (H3 Hd). lia.
  - destruct lower; lia.
Qed.

Ltac step_fields := intros j j';
  unfold a_release, a_delay, a_bury, a_kick, guard_state, guard_owner;
  repeat (case_match; try done); intros [= <-]; autorewrite with go; split_and!; try done; solve_step.

Lemma astep_tame c t r t' : public c -> astep c t = (r, t') -> tame t t'.
Proof.
  destruct c as [now pri d ttr bs b tube|jid cid| |jid cid|now jid cid pri d|now jid pri cid|jid|]; intros Hp; try done; simpl.
  - assert ((if 0 <? d then Z.min (wrap_i64 (now + d)) (t_tick t) else t_tick t) <= t_tick t) as Hle
      by (destruct (0 <? d); lia).
    destruct (t_jobs t !! _) as [j|]; intros [= _ <-].
    + split_and!; simpl; try done. intros Hall x y Hx Hy. etransitivity; [done|by eapply Hall].
    + apply tame_insert; [| | |done]; unfold new_job; destruct (0 <? d); simpl; try done. lia.
  - destruct (t_jobs t !! jid) as [j|]; [|intros [= _ <-]; apply tame_refl].
    destruct (may_delete cid j); intros [= _ <-]; [|apply tame_refl].
    split_and!; simpl.
    + intros x y [_ ?]%lookup_delete_Some. done.
    + intros Hall x y [_ ?]%lookup_delete_Some. by eapply Hall.
    + intros Hall x y [_ ?]%lookup_delete_Some. by eapply Hall.
  - apply job_step_tame. step_fields.
  - destruct (d =? 0); apply job_step_tame; step_fields.
  - apply job_step_tame. step_fields.
  - apply job_step_tame. step_fields.
Qed.

Lemma matches_inv c s s' r :
  Inv s -> public c -> astep c (abst s) = (r, abst s') -> JobsInv s' -> cframe s s' -> Inv s'.
Proof.
  intros HI Hp Ha HJ Hf. destruct (astep_tame _ _ _ _ Hp Ha) as (H1 & H2 & H3). simpl in *.
  apply (job_step_inv s); try done.
  - apply H2. intros. by eapply (inv_ttr _ HI).
  - apply H3. intros. by eapply (inv_delay _ HI).
Qed.

(** The identifiers: no job appears under a new one. *)
Definition same_ids (s s' : localJSM) : Prop :=
  maxJobID s' = maxJobID s /\ forall jid, is_Some (abs s' !! jid) -> is_Some (abs s !! jid).
(** ... but for the one that [Put] draws. *)
Definition next_ids (s s' : localJSM) : Prop :=
  same_ids s s' \/ maxJobID s' = wrap_u64 (maxJobID s + 1) /\
    forall jid, is_Some (abs s' !! jid) -> jid = maxJobID s' \/ is_Some (abs s !! jid).

#[export] Instance same_ids_refl : Reflexive same_ids.
Proof. by split. Qed.
#[export] Instance same_ids_trans : Transitive same_ids.
Proof. intros s1 s2 s3 [A1 A2] [B1 B2]. split; [congruence|auto]. Qed.

Lemma stat_only_ids s s' : stat_only s s' -> same_ids s s'.
Proof. intros [st ->]. by split. Qed.

(** A call that returns, keeps the invariant and respects [R]. *)
Definition safe_call {A} (R : localJSM -> localJSM -> Prop) (s : localJSM) (o : outcome error localJSM A) : Prop :=
  exists s', final o = Some s' /\ Inv s' /\ R s s'.

Lemma astep_ids c t r t' :
  astep c t = (r, t') ->
  (t_max t' = t_max t /\ forall jid, is_Some (t_jobs t' !! jid) -> is_Some (t_jobs t !! jid)) \/
  (exists now pri d ttr bs b tube, c = CPut now pri d ttr bs b tube) /\ t_max t' = wrap_u64 (t_max t + 1) /\
    forall jid, is_Some (t_jobs t' !! jid) -> jid = t_max t' \/ is_Some (t_jobs t !! jid).
Proof.
  assert (forall jid f lower, job_step jid f lower t = (r, t') ->
    t_max t' = t_max t /\ forall x, is_Some (t_jobs t' !! x) -> is_Some (t_jobs t !! x)) as Hjs.
  { intros jid f lower. unfold job_step. destruct (t_jobs t !! jid) as [j|] eqn:Hj; [|by intros [= _ <-]].
    destruct (f j) as [j'|e]; intros [= _ <-]; [|done]. split; [done|]. simpl. intros x.
    rewrite lookup_insert. case_decide; [subst; rewrite Hj; eauto|done]. }
  destruct c as [now pri d ttr bs b tube|jid cid|now jid cid|jid cid|now jid cid pri d|now jid pri cid|jid|jid];
    simpl; try (by intros H; left; eapply Hjs).
  - intros Hs. right. split; [eauto 10|]. destruct (t_jobs t !! _); simplify_eq/=; (split; [done|]); [auto|].
    intros x. rewrite lookup_insert. case_decide; auto.
  - left. destruct (t_jobs t !! jid) as [j|]; [|by simplify_eq]. destruct (may_delete cid j); simplify_eq/=; [|done].
    split; [done|]. intros x. rewrite lookup_delete. case_decide; [by intros [? ?]|done].
  - intros H; left. destruct (d =? 0); by eapply Hjs.
Qed.

Lemma exec_safe c s : Inv s -> public c -> safe_call next_ids s (exec c s).
Proof.
  intros HI Hp. pose proof (commands_match c s (inv_jobs _ HI)) as Hm. unfold safe_call.
  assert (forall r s', astep c (abst s) = (r, abst s') -> next_ids s s') as Hids.
  { intros r s' Ha. destruct (astep_ids _ _ _ _ Ha) as [?|(_ & ?)]; [by left|by right]. }
  destruct (exec c s) as [a s'|e s'| |]; simpl in *; try done; destruct Hm as (Ha & HJ & Hf);
    exists s'; (split_and!; [done|by eapply matches_inv|by eapply Hids]).
Qed.

(** * Kicking the buried jobs of a tube *)
Definition buried_root (s : localJSM) (t : TubeName) : option EntRef := entries (heaps s (HBuried t)) !! 0%nat.

Lemma PeekBuriedJob_spec s t :
  PeekBuriedJob t s = match buried_root s t with
                      | Some er => OK er (bump nCmdPeekBuried s)
                      | None => ERR ErrEntryMissing (bump nCmdPeekBuried s)
                      end.
Proof.
  unfold PeekBuriedJob. rewrite run_incr. unfold lift, TubeIdx.NextBuriedJob, TubeIdx.next_of, buried_root,
    heaps, heap_of, tube_state, Peek, Len. simpl.
  destruct (tubes s !! t) as [ts|]; simpl; [|done]. by destruct (buriedJobs ts) as [[|x es] k].
Qed.

Lemma Kick_outcome s jid :
  Inv s -> (exists s', Kick jid s = OK tt s' /\ Inv s' /\ same_ids s s') \/
    (exists e s', Kick jid s = ERR e s' /\ Inv s' /\ same_ids s s').
Proof.
  intros HI. pose proof (commands_match (CKick jid) s (inv_jobs _ HI)) as Hm. cbn [exec] in Hm.
  assert (forall r s', astep (CKick jid) (abst s) = (r, abst s') -> same_ids s s') as Hids.
  { intros r s' Ha. destruct (astep_ids _ _ _ _ Ha) as [?|((? & ? & ? & ? & ? & ? & ? & ?) & _)]; done. }
  unfold bind in Hm. destruct (Kick jid s) as [[] s1|e s1| |]; simpl in Hm; try done; destruct Hm as (Ha & HJ & Hf).
  - left. exists s1. split_and!; [done|by eapply (matches_inv (CKick jid) s)|by eapply Hids].
  - right. exists e, s1. split_and!; [done|by eapply (matches_inv (CKick jid) s)|by eapply Hids].
Qed.

Lemma KickN_loop_safe tube k count s : Inv s -> safe_call same_ids s (KickN_loop tube k count s).
Proof.
  revert count s. induction k as [|k IH]; intros count s HI; cbn [KickN_loop]; [by exists s|].
  pose proof (PeekBuriedJob_spec s tube) as Hp. set (s0 := bump nCmdPeekBuried s) in *.
  assert (stat_only s s0) as Hst by (by eexists).
  assert (Inv s0) as HI0 by (by apply (stat_only_inv s)). assert (same_ids s s0) as Hid0 by (by apply stat_only_ids).
  destruct (buried_root s tube) as [er|] eqn:Her.
  2: { rewrite (bind_OK _ _ _ _ _ (try_ERR _ _ _ _ Hp)). by exists s0. }
  rewrite (bind_OK _ _ _ _ _ (try_OK _ _ _ _ Hp)).
  destruct (heap_elem_abs s (HBuried tube) er (inv_jobs _ HI)) as (j & Hj & _); [by eapply list_elem_of_lookup_2|].
  rewrite (run_entry_load _ _ s0 j Hj).
  destruct (Kick_outcome s0 (id j) HI0) as [(s1 & Hk & HI1 & Hid1)|(e & s1 & Hk & HI1 & Hid1)].
  - rewrite (bind_OK _ _ _ _ _ Hk). destruct (IH (count + 1) s1 HI1) as (s2 & Hf & HI2 & Hid2).
    exists s2. split_and!; [done|done|]. etransitivity; [exact Hid0|]. by etransitivity.
  - rewrite (bind_ERR _ _ _ _ _ Hk). exists s1. split_and!; [done|done|by etransitivity].
Qed.

(** Kicking [n] jobs out of the buried queue of [t], each time the first. *)
Inductive kicked (t : TubeName) : nat -> gmap JobID Job -> gmap JobID Job -> Prop :=
| kicked_none T : kicked t 0 T T
| kicked_first n T j T' :
    least T (HBuried t) j -> kicked t n (<[id j := kick_job j]> T) T' -> kicked t (S n) T T'.

Lemma kick_buried_key j t : key_of j = HBuried t -> key_of (kick_job j) = HReady t.
Proof.
  assert (key_of (kick_job j) = HReady (tubeName j)) as -> by solve_job.
  unfold key_of. intros Hk. f_equal. destruct (state j); by inversion Hk.
Qed.

(** One kick of the first buried job. *)
Lemma Kick_first s t er :
  JobsInv s -> no_stale (mem s) (heaps s (HBuried t)) -> buried_root s t = Some er ->
  exists j s', entry_job (mem s) er = Some j /\ least (abs s) (HBuried t) j /\ Kick (id j) s = OK tt s' /\
    moved (bump nCmdKick s) s' (id j) (kick_job j).
Proof.
  intros HI Hns Hr. destruct (root_least s _ _ HI Hns Hr) as (j & Hj & Hl). pose proof Hl as (Ha & Hk & _).
  pose proof (fromBuriedToReady_implements (bump nCmdKick s) (id j) HI) as Himp. unfold implements in Himp.
  change (abs (bump nCmdKick s)) with (abs s) in Himp. rewrite Ha in Himp. unfold a_kick, guard_state in Himp.
  assert (state j = Buried) as Hst.
  { destruct (abs_entry _ _ _ HI Ha) as (_ & _ & _ & _ & _ & _ & [Hl1 Hl2] & _). unfold key_of in Hk. by destruct (state j). }
  rewrite Hst in Himp. simpl in Himp.
  destruct Himp as (s' & Hop & Hm). exists j, s'. split_and!; [done|done| |done]. unfold Kick. by rewrite run_incr.
Qed.

Lemma KickN_loop_spec tube k count s :
  JobsInv s -> no_stale (mem s) (heaps s (HBuried tube)) ->
  let n := Nat.min k (size (jobs_with (HBuried tube) (abs s))) in
  exists s', KickN_loop tube k count s = OK (count + Z.of_nat n) s' /\
    kicked tube n (abs s) (abs s') /\ JobsInv s' /\ no_stale (mem s') (heaps s' (HBuried tube)).
Proof.
  revert count s. induction k as [|k IH]; intros count s HI Hns; cbn [KickN_loop].
  { exists s. rewrite Z.add_0_r. split_and!; [done|constructor|done..]. }
  pose proof (heap_count s _ HI Hns) as Hc.
  pose proof (PeekBuriedJob_spec s tube) as Hp. set (s0 := bump nCmdPeekBuried s) in *.
  destruct (buried_root s tube) as [er|] eqn:Her.
  2: { rewrite (bind_OK _ _ _ _ _ (try_ERR _ _ _ _ Hp)). unfold buried_root in Her.
       destruct (entries (heaps s (HBuried tube))); [|done]. rewrite <- Hc. simpl.
       exists s0. rewrite Z.add_0_r. split_and!; [done|constructor|done..]. }
  rewrite (bind_OK _ _ _ _ _ (try_OK _ _ _ _ Hp)).
  destruct (Kick_first s0 tube er HI Hns Her) as (j & s1 & Hj & Hl & Hk & [M1 M2 M3 M4 M5]).
  rewrite (run_entry_load _ _ s0 j Hj), (bind_OK _ _ _ _ _ Hk).
  destruct (IH (count + 1) s1 M1 (M5 _ Hns)) as (s2 & Hop & Hkd & HI2 & Hns2).
  change (abs (bump nCmdKick s0)) with (abs s) in M2. change (abs s0) with (abs s) in Hl.
  pose proof Hl as (Ha & Hkj & _).
  assert (key_of (kick_job j) <> HBuried tube) as Hne by (by rewrite (kick_buried_key _ _ Hkj)).
  rewrite (jobs_with_leave _ _ _ _ _ Ha Hkj Hne). rewrite M2 in Hop, Hkd. exists s2. split_and!; [|by econstructor|done..].
  rewrite Hop. f_equal. simpl. lia.
Qed.

(** * Touch *)
Lemma touch_fields now j :
  ttr (touch_job now j) = ttr j /\ state (touch_job now j) = state j /\ id (touch_job now j) = id j /\
  reservedBy (touch_job now j) = reservedBy j.
Proof. split_and!; solve_job. Qed.

Lemma touch_expires now j : clock_ok now -> ttr_ok (ttr j) -> expiresAt (touch_job now j) = now + ttr j.
Proof.
  intros Hn Ht. destruct j; simpl in *; unfold clock_ok, ttr_ok in *; apply wrap_i64_id; unfold in_i64; lia.
Qed.

(** A touch by the owner: the job's deadline moves and the client is rescheduled. *)
Lemma Touch_run s now jid cid j :
  Inv s -> cid <> ""%string -> abs s !! jid = Some j -> state j = Reserved -> reservedBy j = cid ->
  exists s1 s' r c, moved (bump nCmdTouch s) s1 jid (touch_job now j) /\ Touch now jid cid s = OK tt s' /\
    r ∈ registered s /\ mclis (mem s) !! r = Some c /\ CliID c = cid /\ rescheduled s1 s' r c.
Proof.
  intros HI Hcid Ha Hst Hrb. pose proof (Touch_job s now jid cid (inv_jobs _ HI) Hcid) as HT. rewrite Ha in HT.
  unfold a_touch, guard_state, guard_owner in HT. rewrite decide_False in HT by (intros Hn; by apply Hn).
  assert (unauthorized cid j = false) as Hun by (unfold unauthorized; by rewrite Hrb, String.eqb_refl, andb_false_r).
  rewrite Hun in HT. destruct HT as (s1 & Hm & Hop). pose proof Hm as [M1 _ _ M4 _].
  destruct (inv_own _ HI _ _ _ Ha (proj2 (key_reserved j cid) (conj Hst Hrb))) as (r & Hr & Hrc).
  unfold cid_of in Hrc. destruct (mclis (mem s) !! r) as [c|] eqn:Hc; [|done]. injection Hrc as Hrc.
  assert (cframe s s1) as Hf by (etransitivity; [apply (bump_frame nCmdTouch)|exact M4]).
  pose proof Hf as [F1 F2 F3 F4]. pose proof (cframe_CInv _ _ Hf (inv_cli _ HI)) as HC1.
  assert (registered s1 = registered s) as Hr1 by (unfold registered; by rewrite F3).
  destruct (updateClientTickAt_spec s1 r c) as (s' & Hup & R); [done|done|by rewrite Hr1|by rewrite F1|].
  exists s1, s', r, c. split_and!; [done| |done|done|done|done].
  rewrite Hop, (bind_OK (clients_Find cid) _ s1 r s1); [done|].
  unfold clients_Find, lift. assert (CliQueue.Find cid (clients s1) = inl r) as ->; [|done].
  apply (Find_inl (mem s1)); [apply HC1|]. fold (registered s1). rewrite Hr1. split; [done|].
  unfold cid_of. rewrite F1, Hc. by rewrite <- Hrc.
Qed.

Lemma Touch_safe s now jid cid :
  Inv s -> clock_ok now -> cid <> ""%string -> safe_call same_ids s (Touch now jid cid s).
Proof.
  intros HI Hn Hcid. pose proof (Touch_job s now jid cid (inv_jobs _ HI) Hcid) as HT.
  assert (Inv (bump nCmdTouch s)) as HI0 by (apply (stat_only_inv s); [by eexists|done]).
  assert (forall e : error, safe_call same_ids s (A:=unit) (ERR e (bump nCmdTouch s))) as Herr by (by eexists).
  destruct (abs s !! jid) as [j|] eqn:Ha; [|by rewrite HT].
  unfold a_touch, guard_state, guard_owner in HT. case_decide as Hst; [by rewrite HT|].
  destruct (unauthorized cid j) eqn:Hun; [by rewrite HT|]. clear HT.
  assert (reservedBy j = cid) as Hrb.
  { unfold unauthorized in Hun. apply andb_false_iff in Hun as [H|H]; apply negb_false_iff, String.eqb_eq in H; done. }
  destruct (Touch_run s now jid cid j) as (s1 & s' & r & c & [M1 M2 M3 M4 _] & Hop & Hr & Hc & Hrc & R); [done..| |done|].
  { by destruct (decide (state j = Reserved)). }
  rewrite Hop. exists s'. split; [done|]. destruct (touch_fields now j) as (T1 & T2 & T3 & T4).
  change (abs (bump nCmdTouch s)) with (abs s) in M2.
  assert (cframe s s1) as Hf by (etransitivity; [apply (bump_frame nCmdTouch)|exact M4]).
  pose proof (jframe_abs _ _ (rs_jframe _ _ _ _ R)) as Ha'.
  destruct (rescheduled_client_step s1 s' r c) as (c' & HS1 & Hcore); [done|done|].
  split.
  2: { split; [|intros x; rewrite Ha', M2, lookup_insert; case_decide; [subst; rewrite Ha; eauto|done]].
       rewrite (jf_max _ _ (rs_jframe _ _ _ _ R)). unfold misc in M3. by injection M3 as N1 _ _ _. }
  apply core_inv in Hcore as (E1 & _). assert (client_step s s' r c') as HS.
  { unfold misc in M3. injection M3 as N1 N2 N3 N4. by apply (cframe_client_step s s1). }
  destruct (registered_cid s r c (inv_cli _ HI) Hr Hc) as [Hid Hids]. rewrite <- E1 in Hid, Hids.
  pose proof (inv_ttr _ HI _ _ Ha) as Httr.
  assert (0 <= expiresAt (touch_job now j) < maxTime) as Hexp.
  { rewrite touch_expires by done. unfold clock_ok, ttr_ok, maxTime, MaxInt64 in *. lia. }
  apply (client_step_inv s s' r c' HI HS); rewrite ?Ha', ?M2; try done; intros x y.
  - intros cx [[<- <-]|[_ ?]]%lookup_insert_Some Hkx; [left|by right].
    apply key_reserved in Hkx as [_ Hkx]. rewrite T4 in Hkx. congruence.
  - intros [[<- <-]|[_ ?]]%lookup_insert_Some Hy; [done|by eapply (inv_exp _ HI)].
  - intros [[<- <-]|[_ ?]]%lookup_insert_Some; [by rewrite T1|by eapply (inv_ttr _ HI)].
  - intros [[<- <-]|[_ ?]]%lookup_insert_Some Hy; [|by eapply (inv_delay _ HI)].
    rewrite T2 in Hy. destruct (decide (state j = Reserved)); [congruence|done].
Qed.

(** * AppendReservation *)
Lemma appended_inv s s' now r c resv : Inv s -> clock_ok now -> appended s s' now r c resv -> Inv s'.
Proof.
  intros HI Hn [Hsame Hcids (c' & HS & Hid & _) Hres]. rewrite <- Hid in Hsame, Hcids.
  destruct Hres as [(t & j & _ & Hl & _ & Ha & _)|(_ & _ & Ha & _)].
  - destruct Hl as (Hj & _ & _). destruct (reserved_bounds s now j (CliID c) HI Hn Hj) as (B1 & B2 & B3 & B4).
    rewrite <- Ha, <- Hid in *. by apply (client_step_inv s s' r c' HI HS).
  - apply (client_step_inv s s' r c' HI HS); rewrite ?Ha; try done; try (intros; by right).
    + intros. by eapply (inv_exp _ HI).
    + intros. by eapply (inv_ttr _ HI).
    + intros. by eapply (inv_delay _ HI).
Qed.

Lemma clock_limit now : clock_ok now -> now + maxTimeoutSecs < maxTime.
Proof. unfold clock_ok, maxTimeoutSecs, maxTime, MaxInt64. lia. Qed.

Lemma appended_ids s s' now r c resv : appended s s' now r c resv -> same_ids s s'.
Proof.
  intros [_ _ (c' & HS & _ & _) Hres]. split; [apply HS|]. intros x.
  destruct Hres as [(t & j & _ & (Hj & _ & _) & _ & -> & _)|(_ & _ & -> & _)]; [|done].
  rewrite lookup_insert. case_decide; [subst; rewrite Hj; eauto|done].
Qed.

Lemma AppendReservation_safe s cid reqID watched now deadline :
  Inv s -> clock_ok now -> NoDup watched ->
  safe_call same_ids s (AppendReservation cid reqID watched now deadline s).
Proof.
  intros HI Hn Hnd.
  pose proof (AppendReservation_spec s cid reqID watched now deadline (inv_jobs _ HI) (inv_cli _ HI) Hnd
    (proj1 Hn) (clock_limit _ Hn)) as Hsp.
  destruct (valid_deadline now deadline); [|rewrite Hsp; by exists s].
  destruct (client_entry s cid) as [[r c]|].
  - destruct (IsWaitingForResv c).
    + rewrite Hsp. eexists. split; [done|]. split; [|by apply stat_only_ids; eexists].
      apply (stat_only_inv s); [by eexists|done].
    + destruct Hsp as (resv & s' & -> & A). exists s'.
      split_and!; [done|by eapply appended_inv|by eapply appended_ids].
  - destruct Hsp as (r & resv & s' & -> & A). exists s'.
    split_and!; [done|by eapply appended_inv|by eapply appended_ids].
Qed.

(** * CheckClientState *)
Definition client_class (s : localJSM) (cid : ClientID) : option bool :=
  (fun p => IsWaitingForResv p.2) <$> client_entry s cid.

Lemma Find_client s cid :
  CInv s ->
  match client_entry s cid with
  | Some (r, c) => clients_Find cid s = OK r s /\ mclis (mem s) !! r = Some c
  | None => clients_Find cid s = ERR ErrEntryMissing s
  end.
Proof.
  intros HC. unfold clients_Find, lift. destruct (client_entry s cid) as [[r c]|] eqn:He.
  - apply client_entry_Some in He as (-> & ? & _); done.
  - by rewrite (client_entry_None s cid HC He).
Qed.

(** The three lists partition the request by the state of the client. *)
Lemma CheckClientState_loop_spec s ids w nw m :
  CInv s ->
  CheckClientState_loop ids w nw m s =
    OK (w ++ filter (fun i => client_class s i = Some true) ids,
        nw ++ filter (fun i => client_class s i = Some false) ids,
        m ++ filter (fun i => client_class s i = None) ids) s.
Proof.
  intros HC. revert w nw m. induction ids as [|i ids IH]; intros w nw m; cbn [CheckClientState_loop].
  { by rewrite !filter_nil, !app_nil_r. }
  pose proof (Find_client s i HC) as Hf. rewrite !filter_cons.
  destruct (client_entry s i) as [[r c]|] eqn:He.
  - assert (client_class s i = Some (IsWaitingForResv c)) as Hcc by (unfold client_class; by rewrite He).
    destruct Hf as [Hf Hc]. rewrite (bind_OK _ _ _ _ _ (try_OK _ _ _ _ Hf)), (run_load_cli _ _ _ _ Hc).
    destruct (IsWaitingForResv c); rewrite IH; repeat case_decide; try congruence; by rewrite <- app_assoc.
  - assert (client_class s i = None) as Hcc by (unfold client_class; by rewrite He).
    rewrite (bind_OK _ _ _ _ _ (try_ERR _ _ _ _ Hf)), IH.
    repeat case_decide; try congruence. by rewrite <- app_assoc.
Qed.

(** * The interface *)
Inductive call : Type :=
| KCmd (c : cmd)
| KKickN (tube : TubeName) (n : Z)
| KTouch (now : Z) (jid : JobID) (cid : ClientID)
| KAppend (cid : ClientID) (reqID : string) (watched : list TubeName) (now deadline : Z)
| KTick (delayOrder readyOrder : list TubeName) (now : Z)
| KPeekDelayed (tube : TubeName)
| KPeekReady (tube : TubeName)
| KPeekBuried (tube : TubeName)
| KGetJob (jid : JobID)
| KCheck (ids : list ClientID).

Definition run (k : call) : JM unit :=
  match k with
  | KCmd c => exec c ;; ret tt
  | KKickN tube n => KickN tube n ;; ret tt
  | KTouch now jid cid => Touch now jid cid
  | KAppend cid reqID watched now deadline => AppendReservation cid reqID watched now deadline ;; ret tt
  | KTick delayOrder readyOrder now => Tick delayOrder readyOrder now ;; ret tt
  | KPeekDelayed tube => PeekDelayedJob tube ;; ret tt
  | KPeekReady tube => PeekReadyJob tube ;; ret tt
  | KPeekBuried tube => PeekBuriedJob tube ;; ret tt
  | KGetJob jid => GetJob jid ;; ret tt
  | KCheck ids => CheckClientState ids ;; ret tt
  end.

(** What a caller must respect. *)
Definition call_ok (k : call) (s : localJSM) : Prop :=
  match k with
  | KCmd c => public c
  | KTouch now _ cid => clock_ok now /\ cid <> ""%string
  | KAppend _ _ watched now _ => clock_ok now /\ NoDup watched
  | KTick delayOrder readyOrder now => clock_ok now /\ ranges delayOrder readyOrder now s
  | _ => True
  end.

Lemma safe_drop {A} R (m : JM A) s : safe_call R s (m s) -> safe_call R s ((m ;; ret tt) s).
Proof.
  intros (s' & Hf & HI). unfold safe_call, bind. destruct (m s); simpl in *; simplify_eq; eauto.
Qed.

Lemma safe_stat {A} (m : JM A) s s' :
  Inv s -> stat_only s s' -> (exists a, m s = OK a s') \/ (exists e, m s = ERR e s') -> safe_call same_ids s (m s).
Proof.
  intros HI Hst [[a ->]|[e ->]]; exists s'; (split_and!; [done|by apply (stat_only_inv s)|by apply stat_only_ids]).
Qed.

Lemma safe_next {A} s (o : outcome error localJSM A) : safe_call same_ids s o -> safe_call next_ids s o.
Proof. intros (s' & ? & ? & ?). exists s'. split_and!; [done|done|by left]. Qed.

Lemma tick_table_ids now ms T jid : is_Some (tick_table now ms T !! jid) -> is_Some (T !! jid).
Proof.
  unfold tick_table, expire. rewrite lookup_fmap, fmap_is_Some. intros Ha.
  assert (forall U, is_Some (apply_resvs now ms U !! jid) -> is_Some (U !! jid)) as Hr.
  { clear Ha. induction ms as [|rv ms IH]; intros U; [done|]. unfold apply_resvs. simpl. intros Ha%IH.
    rewrite lookup_alter in Ha. case_decide; [subst; by apply fmap_is_Some in Ha|done]. }
  apply Hr in Ha. unfold wake_all in Ha. by rewrite lookup_fmap, fmap_is_Some in Ha.
Qed.

(** Every call of the interface returns, and keeps the invariant. *)
Lemma run_safe k s : Inv s -> call_ok k s -> safe_call next_ids s (run k s).
Proof.
  intros HI Hok. destruct k as [c|tube n|now jid cid|cid reqID watched now deadline|dO rO now|tube|tube|tube|jid|ids];
    cbn [run call_ok] in *; [by apply safe_drop, exec_safe|..]; apply safe_next.
  - apply safe_drop. unfold KickN. rewrite run_incr. set (s0 := bump nCmdKickN s).
    destruct (KickN_loop_safe tube (Z.to_nat n) 0 s0) as (s' & Hf & HI' & Hid).
    { apply (stat_only_inv s); [by eexists|done]. }
    exists s'. split_and!; [done|done|]. etransitivity; [|exact Hid]. by apply stat_only_ids; eexists.
  - destruct Hok. by apply Touch_safe.
  - destruct Hok. apply safe_drop. by apply AppendReservation_safe.
  - destruct Hok as [Hn Hr]. apply safe_drop.
    destruct (Tick_spec dO rO now s HI Hn Hr) as (ms & os & s' & -> & HI' & Hmax & Ha & _).
    exists s'. split_and!; [done|done|]. split; [done|]. intros jid. rewrite Ha. apply tick_table_ids.
  - apply safe_drop. pose proof (PeekDelayedJob_spec s tube) as Hp.
    eapply safe_stat; [done|by eexists|]. destruct (delayed_root s tube); eauto.
  - apply safe_drop. pose proof (PeekReadyJob_spec s tube) as Hp.
    eapply safe_stat; [done|by eexists|]. destruct (ready_root s tube); eauto.
  - apply safe_drop. pose proof (PeekBuriedJob_spec s tube) as Hp.
    eapply safe_stat; [done|by eexists|]. destruct (buried_root s tube); eauto.
  - apply safe_drop. eapply (safe_stat _ s (bump nCmdPeek s)); [done|by eexists|].
    unfold GetJob. rewrite run_incr. unfold bind, jobs_Get, lift, JobIdx.Get. simpl.
    destruct (jm (jobs s) !! jid); eauto.
  - apply safe_drop. unfold CheckClientState. rewrite CheckClientState_loop_spec by apply HI. by exists s.
Qed.

(** The states a server can be in. *)
Inductive reachable : localJSM -> Prop :=
| reach_new : reachable NewJSM
| reach_call s k s' : reachable s -> call_ok k s -> final (run k s) = Some s' -> reachable s'.

Lemma reachable_inv s : reachable s -> Inv s.
Proof.
  induction 1 as [|s k s' _ IH Hok Hf]; [apply NewJSM_inv|].
  destruct (run_safe k s IH Hok) as (s1 & Hf1 & HI1 & _). congruence.
Qed.

(** ** Identifiers *)

(** As long as the counter has not wrapped, it bounds the identifiers in use. *)
Definition fresh_ids (s : localJSM) : Prop :=
  in_u64 (maxJobID s) /\ forall jid, is_Some (abs s !! jid) -> 0 <= jid <= maxJobID s.

Lemma next_ids_fresh s s' :
  next_ids s s' -> fresh_ids s -> maxJobID s < 2 ^ 64 - 1 ->
  fresh_ids s' /\ maxJobID s <= maxJobID s' /\
  (forall jid, is_Some (abs s' !! jid) -> is_Some (abs s !! jid) \/ maxJobID s < jid).
Proof.
  intros Hn [Hm Hids] Hlt. unfold fresh_ids, in_u64 in *. destruct Hn as [[E Hs]|[E Hs]].
  - rewrite E. split_and!; [lia..| |lia|by auto]. intros jid Hj. by apply Hids, Hs.
  - rewrite wrap_u64_id in E by (unfold in_u64; lia). split_and!; [lia..| |lia|].
    + intros jid [->|Hj%Hids]%Hs; lia.
    + intros jid [->|Hj]%Hs; [right; lia|by left].
Qed.

(** The identifiers of every reachable state are 64-bit numbers. *)
Lemma reachable_ids s : reachable s -> in_u64 (maxJobID s) /\ forall jid, is_Some (abs s !! jid) -> in_u64 jid.
Proof.
  induction 1 as [|s k s' Hr [IH1 IH2] Hok Hf].
  { split; [done|]. intros jid [j Hj]. done. }
  destruct (run_safe k s (reachable_inv _ Hr) Hok) as (s1 & Hf1 & _ & Hn). assert (s1 = s') as -> by congruence.
  destruct Hn as [[-> Hs]|[E Hs]]; [split; [done|]; intros jid Hj; by apply IH2, Hs|].
  assert (in_u64 (maxJobID s')) as Hm by (rewrite E; apply wrap_u64_range). split; [done|].
  intros jid [->|Hj]%Hs; [done|by apply IH2].
Qed.
