(* ===== verification/Scenario.v ===== *)
(** Executable runs of the state machine.

    The requirements on the callers are decidable, so a list of calls can be
    replayed by computation; the states it passes through are reachable.  The
    concrete instances of the properties are states built this way. *)
From stdpp Require Import base gmap list strings.
From Stdlib Require Import ZArith Lia.
From S2P Require Import Prelude GoHeap Job JobHeap ClientResv Index JSM Heaps JobInv.
From S2P Require Import Transitions Commands CliInv Clients Reserve Inv Tick Refine Machine.
Local Open Scope Z_scope.

#[export] Instance clock_ok_dec now : Decision (clock_ok now).
Proof. unfold clock_ok. apply _. Defined.
#[export] Instance ttr_ok_dec ttr : Decision (ttr_ok ttr).
Proof. unfold ttr_ok. apply _. Defined.
#[export] Instance public_dec c : Decision (public c).
Proof. destruct c; simpl; apply _. Defined.

Definition coversb (order : list TubeName) (s : localJSM) : Prop := map_Forall (fun t _ => t ∈ order) (tubes s).
Lemma covers_spec order s : coversb order s <-> covers order s.
Proof. unfold coversb, covers, map_Forall. split; [intros Hc t [x Hx]; eauto|intros Hc t x Hx; eauto]. Qed.
#[export] Instance covers_dec order s : Decision (covers order s).
Proof. refine (cast_if (decide (coversb order s))); by rewrite <- covers_spec. Defined.

Definition rangesb (delayOrder readyOrder : list TubeName) (now : Z) (s : localJSM) : Prop :=
  covers delayOrder s /\
  match tick_delay delayOrder now s with
  | OK _ s1 => Forall (fun t => has_tube t s1) readyOrder /\ covers readyOrder s1
  | _ => True
  end.
Lemma ranges_spec dO rO now s : rangesb dO rO now s <-> ranges dO rO now s.
Proof.
  unfold rangesb, ranges, has_tube. apply and_iff_compat_l. destruct (tick_delay dO now s) as [[] s1|e s1| |]; [|naive_solver..].
  rewrite Forall_forall. split.
  - intros [Hf Hc] s2 [= <-] t. split; [apply Hf|apply Hc].
  - intros Hr. split; [intros t; apply Hr; done|intros t; apply Hr; done].
Qed.
#[export] Instance has_tube_dec t s : Decision (has_tube t s).
Proof. unfold has_tube. apply _. Defined.
#[export] Instance rangesb_dec dO rO now s : Decision (rangesb dO rO now s).
Proof. unfold rangesb. destruct (tick_delay dO now s); apply _. Defined.
#[export] Instance ranges_dec dO rO now s : Decision (ranges dO rO now s).
Proof. refine (cast_if (decide (rangesb dO rO now s))); by rewrite <- ranges_spec. Defined.

#[export] Instance call_ok_dec k s : Decision (call_ok k s).
Proof. destruct k; simpl; apply _. Defined.

(** No deleted job is left in a heap. *)
Definition no_staleb (m : Mem) (h : jobHeap) : bool :=
  forallb (fun er => match entry_job m er with Some j => negb (bool_decide (state j = Deleted)) | None => true end)
    (entries h).
Lemma no_stale_spec m h : no_staleb m h = true -> no_stale m h.
Proof.
  unfold no_staleb, no_stale. rewrite forallb_forall. intros Hf er j Hin Hj.
  specialize (Hf er). rewrite Hj, negb_true_iff, bool_decide_eq_false in Hf. apply Hf. by apply list_elem_of_In.
Qed.

(** Replay a call; one that its caller may not make is skipped. *)
Definition step (s : localJSM) (k : call) : localJSM :=
  if decide (call_ok k s) then default s (final (run k s)) else s.
Definition after (ks : list call) : localJSM := foldl step NewJSM ks.

Lemma step_reachable s k : reachable s -> reachable (step s k).
Proof.
  intros Hr. unfold step. case_decide as Hok; [|done].
  destruct (run_safe k s (reachable_inv _ Hr) Hok) as (s' & Hf & _). rewrite Hf. simpl. by eapply reach_call.
Qed.

Lemma after_reachable ks : reachable (after ks).
Proof.
  unfold after. assert (forall s, reachable s -> reachable (foldl step s ks)) as Hall; [|apply Hall; constructor].
  induction ks as [|k ks IH]; intros s Hr; [done|]. by apply IH, step_reachable.
Qed.

(** * A small run *)

(** Clients ["a"] and ["b"] and tube ["t"]; times in seconds. *)
Definition put (now pri d ttr : Z) : call := KCmd (CPut now pri d ttr 0 (Some []) "t").
Definition resv (c : ClientID) (now deadline : Z) : call := KAppend c "r" ["t"] now deadline.
Definition tick (now : Z) : call := KTick ["t"] ["t"] now.

(** Jobs 1 and 2 are ready, job 3 delayed; ["a"] reserves job 2, job 2 is buried,
    ["a"] reserves job 1. *)
Definition script : list call :=
  [put 10 5 0 60; put 11 3 0 60; put 12 7 20 60; resv "a" 13 100; KCmd (CBury 14 2 9 "a"); resv "a" 15 100].
Definition demo : localJSM := after script.
(** ["b"] finds no ready job and waits. *)
Definition waiting_demo : localJSM := after (script ++ [resv "b" 16 100]).
