(* ===== verification/Frame.v ===== *)
(** What the operations of the state machine leave alone.

    Triples over the monad of calls, and the operations that change neither the
    identifier of a client nor whether it waits: whatever holds of the map from
    clients to identifier and waiting flag holds after them.  The proofs walk through the
    bodies of the operations. *)
From stdpp Require Import base gmap list strings.
From Stdlib Require Import ZArith Lia.
From S2P Require Import Prelude GoHeap Job JobHeap ClientResv Index JSM.
Local Open Scope Z_scope.

(** * Triples *)
Section triples.
Context {E S : Type} (P : S -> Prop).

(** [op] keeps [P] on normal and on error returns, and a result satisfies [Q]. *)
Definition triple {A} (op : M E S A) (Q : A -> Prop) : Prop :=
  forall s, P s -> match op s with OK a s' => P s' /\ Q a | ERR _ s' => P s' | PANIC | DIVERGE => True end.

Lemma triple_bind {A B} (x : M E S A) (f : A -> M E S B) R Q :
  triple x R -> (forall a, R a -> triple (f a) Q) -> triple (bind x f) Q.
Proof.
  intros Hx Hf s Hs. unfold bind. specialize (Hx s Hs). destruct (x s) as [a s'|e s'| |]; try done.
  exact (Hf a (proj2 Hx) s' (proj1 Hx)).
Qed.
Lemma triple_mono {A} (x : M E S A) (Q Q' : A -> Prop) : triple x Q -> (forall a, Q a -> Q' a) -> triple x Q'.
Proof. intros Hx HQ s Hs. specialize (Hx s Hs). destruct (x s); try done. by destruct Hx; auto. Qed.
Lemma triple_ret {A} (a : A) (Q : A -> Prop) : Q a -> triple (ret a) Q.
Proof. by intros HQ s Hs. Qed.
Lemma triple_raise {A} e (Q : A -> Prop) : triple (raise e) Q.
Proof. by intros s Hs. Qed.
Lemma triple_panic {A} (Q : A -> Prop) : triple panic Q.
Proof. by intros s Hs. Qed.
Lemma triple_diverge {A} (Q : A -> Prop) : triple diverge Q.
Proof. by intros s Hs. Qed.
Lemma triple_gets {A} (f : S -> A) : triple (gets f) (fun _ => True).
Proof. by intros s Hs. Qed.
Lemma triple_deref {A} (f : S -> option A) : triple (deref f) (fun _ => True).
Proof. intros s Hs. unfold deref. by destruct (f s). Qed.
Lemma triple_modify f : (forall s, P s -> P (f s)) -> triple (modify f) (fun _ => True).
Proof. intros Hf s Hs. split; [by apply Hf|done]. Qed.
Lemma triple_try {A} (x : M E S A) Q :
  triple x Q -> triple (try x) (fun r => match r with inl a => Q a | inr _ => True end).
Proof. intros Hx s Hs. unfold try. specialize (Hx s Hs). by destruct (x s). Qed.
Lemma triple_try_any {A} (x : M E S A) : triple x (fun _ => True) -> triple (try x) (fun _ => True).
Proof. intros Hx s Hs. unfold try. specialize (Hx s Hs). by destruct (x s). Qed.
End triples.

Lemma triple_zoom {E S T A} (P : S -> Prop) (P' : T -> Prop) (g : S -> T) (p : T -> S -> S) (op : M E T A) Q :
  (forall s, P s -> P' (g s)) -> (forall t s, P' t -> P s -> P (p t s)) -> triple P' op Q -> triple P (zoom g p op) Q.
Proof.
  intros Hg Hp Hop s Hs. unfold zoom. specialize (Hop (g s) (Hg s Hs)). destruct (op (g s)) as [a t|e t| |]; try done; [|by apply Hp].
  destruct Hop. by split; [apply Hp|].
Qed.

(** The algorithms of [container/heap] keep what the methods of the interface keep. *)
Section heap_triples.
Context {E S X : Type} `{HeapInterface E S X} (P : S -> Prop).
Context (Hless : forall i j, triple P (hLess i j) (fun _ => True)).
Context (Hswap : forall i j, triple P (hSwap i j) (fun _ => True)).
Context (Hpush : forall x, triple P (hPush x) (fun _ => True)).
Context (Hpop : triple P hPop (fun _ => True)).

Lemma triple_up fuel j : triple P (heap.up_loop fuel j) (fun _ => True).
Proof using Hless Hswap.
  revert j. induction fuel as [|f IH]; intros j; [apply triple_diverge|]. cbn [heap.up_loop].
  destruct (parent j =? j)%nat; [by apply triple_ret|].
  apply (triple_bind _ _ _ _ _ (Hless j (parent j))). intros [] _; [|by apply triple_ret].
  apply (triple_bind _ _ _ _ _ (Hswap (parent j) j)). intros _ _. apply IH.
Qed.

Lemma triple_down_loop fuel i n : triple P (heap.down_loop fuel i n) (fun _ => True).
Proof using Hless Hswap.
  revert i. induction fuel as [|f IH]; intros i; [apply triple_diverge|]. cbn [heap.down_loop].
  destruct (n <=? _)%nat; [by apply triple_ret|]. apply (triple_bind _ _ _ (fun _ => True)).
  { destruct (_ <? n)%nat; [|by apply triple_ret]. eapply triple_bind; [apply Hless|]. intros b _. by apply triple_ret. }
  intros j _. eapply triple_bind; [apply Hless|]. intros [] _; [|by apply triple_ret].
  eapply triple_bind; [apply Hswap|]. intros _ _. apply IH.
Qed.

Lemma triple_down i n : triple P (heap.down i n) (fun _ => True).
Proof using Hless Hswap. eapply triple_bind; [apply triple_down_loop|]. intros j _. by apply triple_ret. Qed.

Lemma triple_Push x : triple P (heap.Push x) (fun _ => True).
Proof using Hless Hswap Hpush.
  eapply triple_bind; [apply Hpush|intros _ _]. eapply triple_bind; [apply triple_gets|intros n _]. apply triple_up.
Qed.

Lemma triple_Pop : triple P heap.Pop (fun _ => True).
Proof using Hless Hswap Hpop.
  eapply triple_bind; [apply triple_gets|intros n _]. destruct (n =? 0)%nat; [apply triple_panic|]. cbv zeta.
  eapply triple_bind; [apply Hswap|intros _ _]. eapply triple_bind; [apply triple_down|intros _ _]. apply Hpop.
Qed.

Lemma triple_moved i n : triple P (moved <- heap.down i n ;; if moved : bool then ret tt else heap.up i) (fun _ => True).
Proof using Hless Hswap.
  eapply triple_bind; [apply triple_down|]. intros [] _; [by apply triple_ret|apply triple_up].
Qed.

Lemma triple_Remove i : triple P (heap.Remove i) (fun _ => True).
Proof using Hless Hswap Hpop.
  eapply triple_bind; [apply triple_gets|intros n _]. destruct (n =? 0)%nat; [apply triple_panic|]. cbv zeta.
  eapply triple_bind; [|intros _ _; apply Hpop]. instantiate (1 := fun _ => True).
  destruct (_ =? i)%nat; [by apply triple_ret|]. eapply triple_bind; [apply Hswap|intros _ _]. apply triple_moved.
Qed.

Lemma triple_Fix i : triple P (heap.Fix i) (fun _ => True).
Proof using Hless Hswap. eapply triple_bind; [apply triple_gets|intros n _]. apply triple_moved. Qed.
End heap_triples.

(** One step of a walk through the body of an operation. *)
Create HintDb known.
#[export] Hint Resolve triple_raise triple_panic triple_diverge triple_gets triple_deref : known.
Ltac walk_atom := first
  [ solve [eauto 2 with known nocore] | apply triple_ret; solve [done | eauto]
  | apply triple_modify; intros ? ?; solve [done | by case_match]
  | eapply triple_try; walk_atom ].
Ltac walk := cbv zeta; lazymatch goal with
  | |- triple _ (bind _ _) _ => eapply triple_bind; [walk_first|intros ? ?; walk]
  | |- triple _ (try _) (fun _ => True) => apply triple_try_any; walk
  | |- triple _ (if ?b then _ else _) _ => destruct b; walk
  | |- triple _ (match ?x with _ => _ end) _ => destruct x; walk
  | |- _ => try walk_atom
  end
with walk_first := first [ walk_atom | instantiate (1 := fun _ => True); walk ].

(** * The clients *)

(** What is seen of a client: its identifier, and whether it waits. *)
(** A client is seen as its identifier and the request it waits for, if it waits. *)
Abbreviation cview := (gmap CliRef (ClientID * option string)).
Definition view_cli (c : ClientResvEntry) : ClientID * option string :=
  (CliID c, if IsWaitingForResv c then Some (ReqID c) else None).
Definition view (m : Mem) : cview := view_cli <$> mclis m.

Lemma view_insert m r c : view (set_mclis (<[r := c]> (mclis m)) m) = <[r := view_cli c]> (view m).
Proof. apply fmap_insert. Qed.
Lemma view_same m r c c' :
  mclis m !! r = Some c -> view_cli c' = view_cli c -> view (set_mclis (<[r := c']> (mclis m)) m) = view m.
Proof. intros Hc E. rewrite view_insert, E. apply insert_id. unfold view. by rewrite lookup_fmap, Hc. Qed.

Section frame.
Context (P : cview -> Prop).

Definition known_part {T} (s : Mem * T) : Prop := P (view s.1).
Definition known (s : localJSM) : Prop := P (view (mem s)).

(** ** Job heaps do not touch the clients *)
Lemma known_set_index r i : triple known_part (JobHeap.set_index r i) (fun _ => True).
Proof. unfold JobHeap.set_index, load_entry. walk. Qed.
Hint Resolve known_set_index : known.
Lemma known_Less i j : triple known_part (JobHeap.Less i j) (fun _ => True).
Proof. unfold JobHeap.Less, entry_at, JobHeap.load_job. walk. Qed.
Lemma known_Swap i j : triple known_part (JobHeap.Swap i j) (fun _ => True).
Proof. unfold JobHeap.Swap, entry_at. walk. Qed.
Lemma known_Push x : triple known_part (JobHeap.Push x) (fun _ => True).
Proof. unfold JobHeap.Push. walk. Qed.
Lemma known_Pop : triple known_part JobHeap.Pop (fun _ => True).
Proof. unfold JobHeap.Pop, entry_at. walk. Qed.
Hint Resolve known_Less known_Swap known_Push known_Pop : known.

Lemma known_heap_Push (e : EntRef) : triple (known_part (T:=jobHeap)) (heap.Push e) (fun _ => True).
Proof. apply triple_Push; intros; simpl; eauto with known. Qed.
Lemma known_heap_Pop : triple (known_part (T:=jobHeap)) (heap.Pop (X:=EntRef)) (fun _ => True).
Proof. apply triple_Pop; intros; simpl; eauto with known. Qed.
Lemma known_heap_Remove i : triple (known_part (T:=jobHeap)) (heap.Remove (X:=EntRef) i) (fun _ => True).
Proof. apply triple_Remove; intros; simpl; eauto with known. Qed.
Hint Resolve known_heap_Push known_heap_Pop known_heap_Remove : known.

Lemma known_Enqueue j : triple known_part (JobHeap.Enqueue j) (fun _ => True).
Proof.
  unfold JobHeap.Enqueue. apply (triple_bind _ _ _ (fun _ => True)); [by intros s Hs|]. intros e _. walk.
Qed.
Lemma known_Dequeue : triple known_part JobHeap.Dequeue (fun _ => True).
Proof. unfold JobHeap.Dequeue, load_entry. walk. Qed.
Lemma known_RemoveAt e : triple known_part (RemoveAt e) (fun _ => True).
Proof. unfold RemoveAt, load_entry, JobHeap.load_job, entry_at. walk. Qed.
Hint Resolve known_Enqueue known_Dequeue known_RemoveAt : known.

(** ** The client heap changes times and indexes only *)
Lemma known_load {A} r (k : ClientResvEntry -> M error (Mem * CliHeap.clientResvHeap) A) R :
  (forall c, triple known_part (k c) R) -> triple known_part (bind (CliHeap.load r) k) R.
Proof. intros Hk. eapply triple_bind; [apply triple_deref|]. intros c _. apply Hk. Qed.
Lemma known_load_store {A} r f (k : ClientResvEntry -> M error (Mem * CliHeap.clientResvHeap) A) R :
  (forall c, view_cli (f c) = view_cli c) -> (forall c, triple known_part (k c) R) ->
  triple known_part (c <- CliHeap.load r ;; CliHeap.store r (f c) ;; k c) R.
Proof.
  intros Hf Hk s Hs. unfold bind at 1, CliHeap.load, deref. destruct (mclis s.1 !! r) as [c|] eqn:Hc; [|done].
  apply (Hk c). unfold known_part. simpl. by rewrite (view_same _ _ c).
Qed.
Lemma known_cli_index r i : triple known_part (CliHeap.set_index r i) (fun _ => True).
Proof.
  intros s Hs. unfold CliHeap.set_index, bind, CliHeap.load, deref. destruct (mclis s.1 !! r) as [c|] eqn:Hc; [|done].
  split; [|done]. unfold known_part. simpl. by rewrite (view_same _ _ c).
Qed.
Hint Resolve known_cli_index : known.
Hint Extern 1 (triple _ (CliHeap.load _) _) => apply triple_deref : known.
Lemma known_cli_Less i j : triple known_part (CliHeap.Less i j) (fun _ => True).
Proof. unfold CliHeap.Less, CliHeap.entry_at. walk. Qed.
Lemma known_cli_Swap i j : triple known_part (CliHeap.Swap i j) (fun _ => True).
Proof. unfold CliHeap.Swap, CliHeap.entry_at. walk. Qed.
Lemma known_cli_Push x : triple known_part (CliHeap.Push x) (fun _ => True).
Proof. unfold CliHeap.Push. walk. Qed.
Lemma known_cli_Pop : triple known_part CliHeap.Pop (fun _ => True).
Proof. unfold CliHeap.Pop, CliHeap.entry_at. walk. Qed.
Hint Resolve known_cli_Less known_cli_Swap known_cli_Push known_cli_Pop : known.

Lemma known_cli_Enqueue r : triple known_part (CliHeap.Enqueue r) (fun _ => True).
Proof. apply triple_Push; intros; simpl; eauto with known. Qed.
Lemma known_cli_Dequeue : triple known_part CliHeap.Dequeue (fun _ => True).
Proof. apply triple_Pop; intros; simpl; eauto with known. Qed.
Lemma known_cli_Remove r : triple known_part (CliHeap.Remove r) (fun _ => True).
Proof.
  unfold CliHeap.Remove, CliHeap.entry_at. walk.
  apply triple_Remove; intros; simpl; eauto with known.
Qed.
Lemma known_UpdateTickAt r n : triple known_part (CliHeap.UpdateTickAt r n) (fun _ => True).
Proof.
  apply (known_load_store r (set_TickAt n)); [done|]. intros c. walk.
  apply triple_Fix; intros; simpl; eauto with known.
Qed.
Hint Resolve known_cli_Enqueue known_cli_Dequeue known_cli_Remove known_UpdateTickAt : known.

(** ** The indexes *)
Lemma known_on_heap {A} t g p (op : M error (Mem * jobHeap) A) R :
  triple known_part op R -> triple known_part (TubeIdx.on_heap t g p op) R.
Proof. by apply triple_zoom. Qed.
Lemma known_on_resv_heap {A} cid (op : M error (Mem * jobHeap) A) R :
  triple known_part op R -> triple known_part (ResvIdx.on_heap cid op) R.
Proof. by apply triple_zoom. Qed.
Hint Resolve known_on_heap known_on_resv_heap : known.

Lemma known_getByName t b : triple known_part (TubeIdx.getByName t b) (fun _ => True).
Proof. unfold TubeIdx.getByName. walk. Qed.
Lemma known_cleanup t : triple known_part (TubeIdx.cleanup t) (fun _ => True).
Proof. unfold TubeIdx.cleanup. walk. Qed.
Lemma known_job_tube r : triple known_part (TubeIdx.job_tube r) (fun _ => True).
Proof. unfold TubeIdx.job_tube. walk. Qed.
Lemma known_entry_tube r : triple known_part (TubeIdx.entry_tube r) (fun _ => True).
Proof. unfold TubeIdx.entry_tube. walk. Qed.
Hint Resolve known_getByName known_cleanup known_job_tube known_entry_tube : known.

Lemma known_resv_Enqueue cid r : triple known_part (ResvIdx.Enqueue cid r) (fun _ => True).
Proof. unfold ResvIdx.Enqueue. walk. Qed.
Lemma known_resv_drop cid : triple known_part (ResvIdx.drop_if_empty cid) (fun _ => True).
Proof. unfold ResvIdx.drop_if_empty. walk. Qed.
Hint Resolve known_resv_Enqueue known_resv_drop : known.
Lemma known_resv_Remove e : triple known_part (ResvIdx.Remove e) (fun _ => True).
Proof.
  unfold ResvIdx.Remove. walk.
Qed.
Hint Resolve known_resv_Remove : known.

(** ** The state machine *)
Lemma known_on_tubes {A} (op : M error (Mem * tubeIndex) A) R : triple known_part op R -> triple known (on_tubes op) R.
Proof. by apply triple_zoom. Qed.
Lemma known_on_resv {A} (op : M error (Mem * reservedJobsIndex) A) R : triple known_part op R -> triple known (on_resv op) R.
Proof. by apply triple_zoom. Qed.
Lemma known_on_cheap {A} (op : M error (Mem * CliHeap.clientResvHeap) A) R :
  triple known_part op R -> triple known (on_cheap op) R.
Proof. by apply triple_zoom. Qed.
Hint Resolve known_on_resv known_on_cheap : known.
Lemma known_lift {A} (f : localJSM -> A + error) : triple known (lift f) (fun _ => True).
Proof. intros s Hs. unfold lift. by destruct (f s). Qed.
Hint Resolve known_lift : known.
Lemma known_enqueue_ready r : triple known (on_tubes (TubeIdx.EnqueueReadyJob r)) (fun _ => True).
Proof. apply known_on_tubes. unfold TubeIdx.EnqueueReadyJob. walk. Qed.
Lemma known_enqueue_delayed r : triple known (on_tubes (TubeIdx.EnqueueDelayedJob r)) (fun _ => True).
Proof. apply known_on_tubes. unfold TubeIdx.EnqueueDelayedJob. walk. Qed.
Lemma known_enqueue_buried r : triple known (on_tubes (TubeIdx.EnqueueBuriedJob r)) (fun _ => True).
Proof. apply known_on_tubes. unfold TubeIdx.EnqueueBuriedJob. walk. Qed.
Lemma known_remove_ready e : triple known (on_tubes (TubeIdx.RemoveReadyJob e)) (fun _ => True).
Proof. apply known_on_tubes. unfold TubeIdx.RemoveReadyJob. walk. Qed.
Lemma known_remove_delayed e : triple known (on_tubes (TubeIdx.RemoveDelayedJob e)) (fun _ => True).
Proof. apply known_on_tubes. unfold TubeIdx.RemoveDelayedJob. walk. Qed.
Lemma known_remove_buried e : triple known (on_tubes (TubeIdx.RemoveBuriedJob e)) (fun _ => True).
Proof. apply known_on_tubes. unfold TubeIdx.RemoveBuriedJob. walk. Qed.
Lemma known_enqueue_wait t cid r : triple known (on_tubes (TubeIdx.EnqueueToWaitQ t cid r)) (fun _ => True).
Proof. apply known_on_tubes. unfold TubeIdx.EnqueueToWaitQ. walk. Qed.
Hint Resolve known_enqueue_ready known_enqueue_delayed known_enqueue_buried known_remove_ready known_remove_delayed
  known_remove_buried known_enqueue_wait : known.

Lemma known_update_job r f : triple known (update_job r f) (fun _ => True).
Proof. unfold update_job, load_job. walk. Qed.
Lemma known_load_cli r : triple known (load_cli r) (fun c => exists v, P v /\ v !! r = Some (view_cli c)).
Proof.
  intros s Hs. unfold load_cli, deref. destruct (mclis (mem s) !! r) as [c|] eqn:Hc; [|done]. split; [done|].
  exists (view (mem s)). split; [done|]. unfold view. by rewrite lookup_fmap, Hc.
Qed.
Lemma known_update_cli r f : (forall c, view_cli (f c) = view_cli c) -> triple known (update_cli r f) (fun _ => True).
Proof.
  intros Hf s Hs. unfold update_cli, bind, load_cli, deref. destruct (mclis (mem s) !! r) as [c|] eqn:Hc; [|done].
  split; [|done]. unfold known. simpl. by rewrite (view_same _ _ c).
Qed.
Hint Resolve known_update_job known_load_cli : known.
Hint Extern 1 (triple _ (update_cli _ _) _) => (apply known_update_cli; reflexivity) : known.
Hint Extern 1 (triple _ (load_job _) _) => apply triple_deref : known.
Hint Extern 1 (triple _ (entry_of _) _) => apply triple_deref : known.
Hint Extern 1 (triple _ (entry_load _) _) => apply triple_deref : known.
Hint Extern 1 (triple _ (jobs_Get _) _) => apply known_lift : known.
Hint Extern 1 (triple _ (clients_Find _) _) => apply known_lift : known.
Hint Extern 1 (triple _ (NextReservedJob _) _) => apply known_lift : known.
Hint Extern 1 (triple _ (incr _) _) => (apply triple_modify; intros ? ?; assumption) : known.
Hint Extern 1 (triple _ (jobs_set_entry _ _) _) => (apply triple_modify; intros ? ?; assumption) : known.

Lemma known_jobs_Add jid r : triple known (jobs_Add jid r) (fun _ => True).
Proof. unfold jobs_Add. walk. Qed.
Hint Resolve known_jobs_Add : known.
Lemma known_toReady_initial r : triple known (fromInitialToReady r) (fun _ => True).
Proof. unfold fromInitialToReady. walk. Qed.
Lemma known_toDelayed_initial r : triple known (fromInitialToDelayed r) (fun _ => True).
Proof. unfold fromInitialToDelayed. walk. Qed.
Lemma known_ReadyJob jid : triple known (ReadyJob jid) (fun _ => True).
Proof. unfold ReadyJob, fromDelayedToReady. walk. Qed.
Lemma known_toReady jid cid pri b : triple known (fromReservedToReady jid cid pri b) (fun _ => True).
Proof. unfold fromReservedToReady. walk. Qed.
Lemma known_toDelayed now jid cid pri d : triple known (fromReservedToDelayed now jid cid pri d) (fun _ => True).
Proof. unfold fromReservedToDelayed. walk. Qed.
Lemma known_Reserve now jid cid : triple known (Reserve now jid cid) (fun _ => True).
Proof. unfold Reserve, fromReadyToReserved. walk. Qed.
Hint Resolve known_toReady_initial known_toDelayed_initial known_ReadyJob known_toReady known_toDelayed known_Reserve : known.
Lemma known_Release jid cid : triple known (Release jid cid) (fun _ => True).
Proof. unfold Release. walk. Qed.
Lemma known_ReleaseWith now jid cid pri d : triple known (ReleaseWith now jid cid pri d) (fun _ => True).
Proof. unfold ReleaseWith. walk. Qed.
Lemma known_Bury now jid pri cid : triple known (Bury now jid pri cid) (fun _ => True).
Proof. unfold Bury, fromReservedToBuried. walk. Qed.
Lemma known_Kick jid : triple known (Kick jid) (fun _ => True).
Proof. unfold Kick, fromBuriedToReady. walk. Qed.
Hint Resolve known_Release known_Kick : known.
Lemma known_Put now pri d ttr sz b t : triple known (Put now pri d ttr sz b t) (fun _ => True).
Proof.
  unfold Put, NewJob, NextJobID. walk. all: done.
Qed.
Lemma known_Delete jid cid : triple known (Delete jid cid) (fun _ => True).
Proof. unfold Delete. walk. Qed.
Lemma known_peeks t :
  triple known (PeekReadyJob t) (fun _ => True) /\ triple known (PeekDelayedJob t) (fun _ => True) /\
  triple known (PeekBuriedJob t) (fun _ => True).
Proof. unfold PeekReadyJob, PeekDelayedJob, PeekBuriedJob. split_and!; walk. Qed.
Hint Extern 1 (triple _ (PeekReadyJob _) _) => apply known_peeks : known.
Hint Extern 1 (triple _ (PeekDelayedJob _) _) => apply known_peeks : known.
Hint Extern 1 (triple _ (PeekBuriedJob _) _) => apply known_peeks : known.
Lemma known_KickN t n : triple known (KickN t n) (fun _ => True).
Proof.
  unfold KickN. walk. generalize 0. induction (Z.to_nat n) as [|k IH]; intros count; cbn [KickN_loop]; walk.
Qed.

(** ** Scheduling *)
Lemma known_waiting_Remove t cid : triple known (waiting_Remove t cid) (fun _ => True).
Proof. unfold waiting_Remove. walk. Qed.
Hint Resolve known_waiting_Remove : known.
Lemma known_waiting_Remove_all ts cid : triple known (waiting_Remove_all ts cid) (fun _ => True).
Proof. induction ts as [|t ts IH]; cbn [waiting_Remove_all]; walk. Qed.
Hint Resolve known_waiting_Remove_all : known.
Lemma known_next_tick r : triple known (next_tick r) (fun _ => True).
Proof. unfold next_tick. walk. Qed.
Hint Resolve known_next_tick : known.
Lemma known_updateClientTickAt r : triple known (updateClientTickAt r) (fun _ => True).
Proof. unfold updateClientTickAt. walk. Qed.
Hint Resolve known_updateClientTickAt : known.
Lemma known_Touch now jid cid : triple known (Touch now jid cid) (fun _ => True).
Proof. unfold Touch. walk. Qed.
Lemma known_enqueue_all ts cid r : triple known (enqueue_all ts cid r) (fun _ => True).
Proof. induction ts as [|t ts IH]; cbn [enqueue_all]; walk. Qed.

Lemma known_tickDelay_tube fuel now t next : triple known (tickDelay_tube fuel now t next) (fun _ => True).
Proof. induction fuel as [|f IH]; cbn [tickDelay_tube]; walk. Qed.
Hint Resolve known_tickDelay_tube : known.
Lemma known_tickDelay_tubes order now next : triple known (tickDelay_tubes order now next) (fun _ => True).
Proof. revert next. induction order as [|t order IH]; intros next; cbn [tickDelay_tubes]; walk. Qed.
Hint Resolve known_tickDelay_tubes : known.
Lemma known_tickDelayJobs order now : triple known (tickDelayJobs order now) (fun _ => True).
Proof. unfold tickDelayJobs. walk. Qed.
End frame.

#[export] Hint Resolve known_lift known_load_cli known_update_job known_Put known_Bury known_Delete known_Kick known_KickN
  known_Reserve known_Release known_ReleaseWith known_Touch known_waiting_Remove_all known_updateClientTickAt
  known_enqueue_all known_tickDelayJobs known_on_cheap known_cli_Dequeue : known.
#[export] Hint Extern 1 (triple _ (update_cli _ _) _) => (apply known_update_cli; reflexivity) : known.
#[export] Hint Extern 1 (triple _ (load_job _) _) => apply triple_deref : known.
#[export] Hint Extern 1 (triple _ (entry_load _) _) => apply triple_deref : known.
#[export] Hint Extern 1 (triple _ (jobs_Get _) _) => apply known_lift : known.
#[export] Hint Extern 1 (triple _ (clients_Find _) _) => apply known_lift : known.
#[export] Hint Extern 1 (triple _ (NextReservedJob _) _) => apply known_lift : known.
#[export] Hint Extern 1 (triple _ (incr _) _) => (apply triple_modify; intros ? ?; assumption) : known.
#[export] Hint Extern 1 (triple _ (PeekReadyJob _) _) => apply known_peeks : known.
#[export] Hint Extern 1 (triple _ (PeekDelayedJob _) _) => apply known_peeks : known.
#[export] Hint Extern 1 (triple _ (PeekBuriedJob _) _) => apply known_peeks : known.
