(* ===== verification/Known.v ===== *)
(** Whose identifiers the state machine holds.

    A client enters the store only through [AppendReservation], under the identifier
    it is called with, and no operation changes the identifier of an entry.  So a
    property of the identifiers passed to [AppendReservation] holds of every client in
    the store, and of the client of every reservation that an operation returns. *)
From stdpp Require Import base gmap list strings.
From Stdlib Require Import ZArith Lia.
From S2P Require Import Prelude GoHeap Job JobHeap ClientResv Index JSM Frame.
Local Open Scope Z_scope.

Section known_ids.
Context (Q : ClientID -> Prop).

Definition ids_ok (v : cview) : Prop := map_Forall (fun _ x => Q x.1) v.
Abbreviation kn := (known ids_ok).

Lemma ids_insert v r x : Q x.1 -> ids_ok v -> ids_ok (<[r := x]> v).
Proof. intros Hx Hv. by apply map_Forall_insert_2. Qed.
Lemma ids_load r : triple kn (load_cli r) (fun c => Q (CliID c)).
Proof. eapply triple_mono; [apply known_load_cli|]. intros c (v & Hv & Hc). exact (Hv r _ Hc). Qed.
Lemma ids_update r f : (forall c, CliID (f c) = CliID c) -> triple kn (update_cli r f) (fun _ => True).
Proof.
  intros Hf. eapply triple_bind; [apply ids_load|intros c Hc]. apply triple_modify. intros s Hs. unfold known.
  simpl. rewrite view_insert. apply ids_insert; [simpl; by rewrite Hf|done].
Qed.
Hint Resolve ids_load | 0 : known.
Hint Extern 0 (triple _ (update_cli _ _) _) => (apply ids_update; reflexivity) : known.

Lemma ids_unReserve r : triple kn (unReserve r) (fun _ => True).
Proof. unfold unReserve. walk. Qed.
Hint Resolve ids_unReserve : known.

Abbreviation named := (fun r => Q (r_ClientId r)).
Lemma ids_tryReserveJob now t cli : triple kn (tryReserveJob now t cli) named.
Proof. unfold tryReserveJob. walk. Qed.
Hint Resolve ids_tryReserveJob : known.
Lemma ids_reserve_first now ts r :
  triple kn (reserve_first now ts r) (fun o => match o with Some r => named r | None => True end).
Proof. induction ts as [|t ts IH]; cbn [reserve_first]; walk. Qed.
Lemma ids_start_waiting cid rid w dl : Q cid -> triple kn (start_waiting cid rid w dl) (fun _ => True).
Proof.
  intros Hc. unfold start_waiting. walk. split; [|done]. unfold known, view. simpl. rewrite fmap_insert. by apply ids_insert.
Qed.
Hint Resolve ids_reserve_first ids_start_waiting : known.
Lemma ids_AppendReservation cid rid w now dl : Q cid -> triple kn (AppendReservation cid rid w now dl) named.
Proof. intros Hc. unfold AppendReservation. walk. Qed.

Lemma ids_Check_loop ids w nw m :
  Forall Q ids -> Forall Q w -> Forall Q nw -> Forall Q m ->
  triple kn (CheckClientState_loop ids w nw m) (fun r => Forall Q r.1.1 /\ Forall Q r.1.2 /\ Forall Q r.2).
Proof.
  revert w nw m. induction ids as [|i ids IH]; intros w nw m Hi Hw Hn Hm; cbn [CheckClientState_loop]; [by apply triple_ret|].
  apply Forall_cons in Hi as [Hi Hids].
  walk; apply IH; try done; apply Forall_app; by rewrite Forall_singleton.
Qed.
Lemma ids_CheckClientState ids :
  Forall Q ids -> triple kn (CheckClientState ids) (fun r => Forall Q r.1.1 /\ Forall Q r.1.2 /\ Forall Q r.2).
Proof. intros Hids. by apply ids_Check_loop. Qed.

(** ** The clock *)
Lemma named_app rs r : Forall named rs -> named r -> Forall named (rs ++ [r]).
Proof. intros Hrs Hr. apply Forall_app. by rewrite Forall_singleton. Qed.
Hint Resolve named_app : known.

Lemma ids_tickReady_tube fuel now t result :
  Forall named result -> triple kn (tickReady_tube fuel now t result) (Forall named).
Proof.
  revert result. induction fuel as [|f IH]; intros result Hr; cbn [tickReady_tube]; walk. apply IH. by apply named_app.
Qed.
Hint Resolve ids_tickReady_tube : known.
Lemma ids_tickReadyJobs order now : triple kn (tickReadyJobs order now) (Forall named).
Proof.
  unfold tickReadyJobs. assert (Forall named []) as Hr by constructor. revert Hr. generalize (@nil Reservation).
  induction order as [|t order IH]; intros result Hr; cbn [tickReadyJobs_loop]; walk.
Qed.

Lemma ids_tickClient_jobs fuel now r result :
  Forall named result -> triple kn (tickClient_jobs fuel now r result) (Forall named).
Proof.
  revert result. induction fuel as [|f IH]; intros result Hr; cbn [tickClient_jobs]; walk.
  apply IH. by apply named_app.
Qed.
Hint Resolve ids_tickClient_jobs : known.
Lemma ids_tickClient now r result : Forall named result -> triple kn (tickClient now r result) (Forall named).
Proof.
  intros Hr. unfold tickClient. eapply triple_bind; [apply ids_load|intros c Hc].
  apply (triple_bind _ _ _ (Forall named)); [|intros rs Hrs; walk].
  walk. apply triple_ret. by apply named_app.
Qed.
Hint Resolve ids_tickClient : known.
Lemma ids_tickClients now : triple kn (tickClients now) (Forall named).
Proof.
  unfold tickClients. walk. clear H. assert (Forall named []) as Hr by constructor. revert Hr. generalize (@nil Reservation).
  induction a as [|f IH]; intros result Hr; cbn [tickClients_loop]; walk.
Qed.
Hint Resolve ids_tickReadyJobs ids_tickClients : known.
Lemma ids_Tick delayOrder readyOrder now : triple kn (Tick delayOrder readyOrder now) (Forall named).
Proof. unfold Tick. walk. apply triple_ret. by apply Forall_app. Qed.
End known_ids.

Lemma ids_NewJSM Q : known (ids_ok Q) NewJSM.
Proof. intros r x. unfold view. simpl. by rewrite fmap_empty, lookup_empty. Qed.

#[export] Hint Resolve ids_AppendReservation ids_CheckClientState ids_Tick : known.
