(* ===== verification/Waiting.v ===== *)
(** Who waits, and who is answered: a tick answers exactly the clients it stops from
    waiting, each once.

    Judgements on the map of clients (see [Frame]): what an operation makes of it on a
    normal and on an error return. *)
From stdpp Require Import base gmap list strings.
From Stdlib Require Import ZArith Lia.
From S2P Require Import Prelude GoHeap Job JobHeap ClientResv Index JSM Clients Frame.
Local Open Scope Z_scope.

(** * Operations that never return an error *)
Section calm.
Context {E S : Type}.
Definition calm {A} (op : M E S A) : Prop := forall s, match op s with ERR _ _ => False | _ => True end.

Lemma calm_bind {A B} (x : M E S A) (f : A -> M E S B) : calm x -> (forall a, calm (f a)) -> calm (bind x f).
Proof. intros Hx Hf s. unfold bind. specialize (Hx s). destruct (x s); try done. apply Hf. Qed.
Lemma calm_ret {A} (a : A) : calm (ret a).
Proof. done. Qed.
Lemma calm_panic {A} : calm (panic (A:=A)).
Proof. done. Qed.
Lemma calm_diverge {A} : calm (diverge (A:=A)).
Proof. done. Qed.
Lemma calm_gets {A} (f : S -> A) : calm (gets f).
Proof. done. Qed.
Lemma calm_modify f : calm (modify f).
Proof. done. Qed.
Lemma calm_deref {A} (f : S -> option A) : calm (deref f).
Proof. intros s. unfold deref. by destruct (f s). Qed.
Lemma calm_try {A} (x : M E S A) : calm (try x).
Proof. intros s. unfold try. by destruct (x s). Qed.
Lemma calm_zoom {T A} (g : S -> T) (p : T -> S -> S) (op : M E T A) :
  (forall t, match op t with ERR _ _ => False | _ => True end) -> calm (zoom g p op).
Proof. intros Hop s. unfold zoom. specialize (Hop (g s)). by destruct (op (g s)). Qed.
End calm.
Create HintDb calm.
#[export] Hint Resolve calm_ret calm_panic calm_diverge calm_gets calm_modify calm_deref calm_try : calm.
Ltac calm := cbv zeta; repeat first
  [ solve [eauto 2 with calm nocore] | apply calm_bind; [|intros ?]
  | match goal with |- calm (if ?b then _ else _) => destruct b | |- calm (match ?x with _ => _ end) => destruct x end ].

Section calm_heaps.
Context {E S X : Type} `{HeapInterface E S X}.
Context (Hless : forall i j, calm (hLess i j)) (Hswap : forall i j, calm (hSwap i j)).
Lemma calm_up fuel j : calm (heap.up_loop fuel j).
Proof using Hless Hswap. revert j. induction fuel as [|f IH]; intros j; cbn [heap.up_loop]; calm. Qed.
Lemma calm_down fuel i n : calm (heap.down_loop fuel i n).
Proof using Hless Hswap. revert i. induction fuel as [|f IH]; intros i; cbn [heap.down_loop]; calm. Qed.
End calm_heaps.

Lemma calm_cli_index r i : calm (CliHeap.set_index r i).
Proof. unfold CliHeap.set_index, CliHeap.load, CliHeap.store. calm. Qed.
#[export] Hint Resolve calm_cli_index : calm.
Lemma calm_cli_Less i j : calm (CliHeap.Less i j).
Proof. unfold CliHeap.Less, CliHeap.entry_at, CliHeap.load. calm. Qed.
Lemma calm_cli_Swap i j : calm (CliHeap.Swap i j).
Proof. unfold CliHeap.Swap, CliHeap.entry_at. calm. Qed.
Lemma calm_cli_Enqueue r : calm (CliHeap.Enqueue r).
Proof.
  unfold CliHeap.Enqueue, heap.Push, heap.up. simpl. unfold CliHeap.Push. calm.
  apply calm_up; intros; simpl; [apply calm_cli_Less|apply calm_cli_Swap].
Qed.
Lemma calm_UpdateTickAt r n : calm (CliHeap.UpdateTickAt r n).
Proof.
  unfold CliHeap.UpdateTickAt, CliHeap.load, CliHeap.store, heap.Fix, heap.down, heap.up. calm.
  - apply calm_down; intros; simpl; [apply calm_cli_Less|apply calm_cli_Swap].
  - apply calm_up; intros; simpl; [apply calm_cli_Less|apply calm_cli_Swap].
Qed.

Lemma calm_update_cli r f : calm (update_cli r f).
Proof. unfold update_cli, load_cli. calm. Qed.
Lemma calm_waiting_Remove_all ts cid : calm (waiting_Remove_all ts cid).
Proof. induction ts as [|t ts IH]; cbn [waiting_Remove_all]; unfold waiting_Remove; calm. Qed.
#[export] Hint Resolve calm_update_cli calm_waiting_Remove_all : calm.
Lemma calm_unReserve r : calm (unReserve r).
Proof. unfold unReserve, load_cli. calm. Qed.
Lemma calm_updateClientTickAt r : calm (updateClientTickAt r).
Proof.
  unfold updateClientTickAt, next_tick, load_cli, entry_load. calm.
  - apply calm_zoom, calm_cli_Enqueue.
  - apply calm_zoom, calm_UpdateTickAt.
Qed.
#[export] Hint Resolve calm_unReserve calm_updateClientTickAt : calm.

(** * Clients that wait *)
Section waiting.
Implicit Types v : cview.

Definition waits (x : CliRef * (ClientID * option string)) : option (ClientID * string) := (fun q => (x.2.1, q)) <$> x.2.2.
Definition waiting_ids v : list (ClientID * string) := omap waits (map_to_list v).
(** The clients that wait for a reservation, with the requests they wait for. *)
Definition waiting_requests (s : localJSM) : list (ClientID * string) := waiting_ids (view (mem s)).

Lemma waiting_insert v r i (w : option string) :
  v !! r = None -> waiting_ids (<[r := (i, w)]> v) ≡ₚ (match w with Some q => [(i, q)] | None => [] end) ++ waiting_ids v.
Proof.
  intros Hr. unfold waiting_ids. rewrite (map_to_list_insert v r (i, w) Hr). by destruct w.
Qed.

Lemma waiting_answer v r i q : v !! r = Some (i, Some q) -> waiting_ids v ≡ₚ waiting_ids (<[r := (i, None)]> v) ++ [(i, q)].
Proof.
  intros Hr. rewrite <- (insert_delete_id v r (i, Some q) Hr) at 1. rewrite <- (insert_delete_eq v r (i, None)).
  rewrite !waiting_insert by apply lookup_delete_eq. simpl. apply Permutation_cons_append.
Qed.

(** * Judgements *)
Definition judge {A} (Pre : cview -> Prop) (op : JM A) (Post : A -> cview -> Prop) (Err : cview -> Prop) : Prop :=
  forall s, Pre (view (mem s)) ->
    match op s with OK a s' => Post a (view (mem s')) | ERR _ s' => Err (view (mem s')) | PANIC | DIVERGE => True end.

Lemma judge_bind {A B} Pre (x : JM A) (f : A -> JM B) Mid Post Err :
  judge Pre x Mid Err -> (forall a, judge (Mid a) (f a) Post Err) -> judge Pre (bind x f) Post Err.
Proof. intros Hx Hf s Hs. unfold bind. specialize (Hx s Hs). destruct (x s); try done. by apply Hf. Qed.
Lemma judge_mono {A} Pre (x : JM A) Post Post' Err :
  judge Pre x Post Err -> (forall a v, Post a v -> Post' a v) -> judge Pre x Post' Err.
Proof. intros Hx HP s Hs. specialize (Hx s Hs). destruct (x s); auto. Qed.
Lemma judge_ret {A} (Pre : cview -> Prop) (a : A) Post Err : (forall v, Pre v -> Post a v) -> judge Pre (ret a) Post Err.
Proof. intros HP s Hs. by apply HP. Qed.
Lemma judge_panic {A} Pre (Post : A -> cview -> Prop) Err : judge Pre panic Post Err.
Proof. by intros s Hs. Qed.
Lemma judge_diverge {A} Pre (Post : A -> cview -> Prop) Err : judge Pre diverge Post Err.
Proof. by intros s Hs. Qed.
Lemma judge_raise {A} (Pre Err : cview -> Prop) e (Post : A -> cview -> Prop) : (forall v, Pre v -> Err v) -> judge Pre (raise e) Post Err.
Proof. intros HE s Hs. by apply HE. Qed.
Lemma judge_try {A} Pre (x : JM A) Post Err Err' :
  judge Pre x Post Err -> judge Pre (try x) (fun r v => match r with inl a => Post a v | inr _ => Err v end) Err'.
Proof. intros Hx s Hs. unfold try. specialize (Hx s Hs). by destruct (x s). Qed.

Lemma judge_at {A} (Pre : cview -> Prop) (x : JM A) Post Err :
  (forall v, Pre v -> judge (eq v) x Post Err) -> judge Pre x Post Err.
Proof. intros Hx s Hs. by apply (Hx _ Hs). Qed.

(** An operation that leaves the clients alone. *)
Lemma judge_frame {A} Pre (x : JM A) Q (Err : cview -> Prop) :
  triple (known Pre) x Q -> (forall v, Pre v -> Err v) -> judge Pre x (fun a v => Pre v /\ Q a) Err.
Proof. intros Hx HE s Hs. specialize (Hx s Hs). destruct (x s); try done. by apply HE. Qed.
Lemma judge_calm {A} Pre (x : JM A) Post Err Err' : calm x -> judge Pre x Post Err' -> judge Pre x Post Err.
Proof. intros Hc Hx s Hs. specialize (Hc s). specialize (Hx s Hs). by destruct (x s). Qed.
Lemma judge_skip {A B} Pre (x : JM A) (f : A -> JM B) Post (Err : cview -> Prop) :
  (forall P, triple (known P) x (fun _ => True)) -> (forall v, Pre v -> Err v) ->
  (forall a, judge Pre (f a) Post Err) -> judge Pre (bind x f) Post Err.
Proof.
  intros Hx HE Hf s Hs. unfold bind. specialize (Hx Pre s Hs). destruct (x s) as [a s'|e s'| |]; try done; [|by apply HE].
  apply Hf, Hx.
Qed.

(** Loading a client shows its entry of the map. *)
Lemma judge_load {B} v r (f : ClientResvEntry -> JM B) Post Err :
  (forall c, v !! r = Some (view_cli c) -> judge (eq v) (f c) Post Err) -> judge (eq v) (bind (load_cli r) f) Post Err.
Proof.
  intros Hf s Hs. unfold bind, load_cli, deref. destruct (mclis (mem s) !! r) as [c|] eqn:Hc; [|done].
  apply Hf; [|done]. rewrite Hs. unfold view. by rewrite lookup_fmap, Hc.
Qed.

Lemma judge_update v r x y f Err :
  v !! r = Some x -> (forall c, view_cli c = x -> view_cli (f c) = y) ->
  judge (eq v) (update_cli r f) (fun _ => eq (<[r := y]> v)) Err.
Proof.
  intros Hr Hf s Hs. unfold update_cli, bind, load_cli, deref. destruct (mclis (mem s) !! r) as [c|] eqn:Hc; [|done].
  simpl. rewrite view_insert, <- Hs. f_equal. symmetry. apply Hf. rewrite Hs in Hr. unfold view in Hr.
  rewrite lookup_fmap, Hc in Hr. by injection Hr.
Qed.

Lemma judge_unReserve v r i q Err :
  v !! r = Some (i, q) -> judge (eq v) (unReserve r) (fun _ => eq (<[r := (i, None)]> v)) Err.
Proof.
  intros Hr. apply (judge_calm _ _ _ _ (fun _ => True)); [apply calm_unReserve|].
  unfold unReserve. eapply judge_bind; [eapply (judge_update v r _ (i, None)); [exact Hr|]|intros []].
  { unfold view_cli. intros c E. injection E as E _. simpl. by rewrite E. }
  eapply judge_bind; [eapply (judge_update _ r (i, None) (i, None)); [apply lookup_insert_eq|]|intros []].
  { unfold view_cli. intros c E. injection E as E E'. simpl. by rewrite E, E'. }
  rewrite insert_insert_eq. apply judge_load. intros c _.
  eapply judge_mono; [apply judge_frame; [apply known_waiting_Remove_all|auto]|]. by intros a v' [? _].
Qed.

(** * Who is answered *)

(** From a map [v], the match that [op] makes answers its client. *)
Definition matched_in v (cli : option CliRef) (rv : Reservation) v' : Prop :=
  r_Status rv = Matched /\ waiting_ids v ≡ₚ waiting_ids v' ++ [answered_request rv] /\
  forall r, cli = Some r -> v !! r = Some (r_ClientId rv, Some (r_RequestId rv)).
Definition matching v cli (op : JM Reservation) : Prop := judge (eq v) op (matched_in v cli) (fun v' => v' = v).

Lemma matching_tryReserveJob v now t cli : matching v cli (tryReserveJob now t cli).
Proof.
  unfold tryReserveJob, matching. apply judge_skip; [intros P; apply known_lift|done|intros n].
  destruct (n =? 0); [by apply judge_raise|].
  apply judge_skip; [intros P; apply triple_try_any, known_peeks|done|].
  intros [je|[]]; try apply judge_panic; [|by apply judge_raise].
  eapply (judge_bind _ _ _ (fun cr v' => v = v' /\ forall r, cli = Some r -> cr = r)).
  { destruct cli as [r|]; [apply judge_ret; by intros ? <-; split; [|intros ? [= ->]]|].
    apply judge_skip; [intros P; walk|done|]. intros [x|x]; [by apply judge_ret|apply judge_panic]. }
  intros cr. apply judge_at. intros v0 [<- Hcr]. apply judge_load. intros c Hc. unfold view_cli in Hc.
  destruct (IsWaitingForResv c); [|apply judge_panic]. cbn [negb].
  apply judge_skip; [intros P; apply triple_deref|done|intros job].
  apply judge_skip; [intros P; apply triple_try_any, known_Reserve|done|]. intros [x|x]; [|apply judge_panic].
  eapply judge_bind; [by eapply judge_unReserve|intros []]. cbv zeta.
  eapply judge_bind.
  { apply (judge_calm _ _ _ _ (fun _ => True)); [apply calm_updateClientTickAt|].
    apply judge_frame; [apply known_updateClientTickAt|done]. }
  intros []. apply judge_ret. intros v' [<- _]. split_and!; [done|by apply waiting_answer|].
  intros r Hr. by rewrite <- (Hcr r Hr).
Qed.

(** The loops append to a list of reservations. *)
Abbreviation names := (fmap (M:=list) answered_request).
Definition appending v (op : JM (list Reservation)) (result : list Reservation) : Prop :=
  judge (eq v) op (fun rs v' => exists new, rs = result ++ new /\ waiting_ids v ≡ₚ waiting_ids v' ++ names new /\ Forall is_answer new)
    (fun _ => True).

Lemma appending_ret v result : appending v (ret result) result.
Proof. apply judge_ret. intros v' <-. exists []. by rewrite !app_nil_r. Qed.

(** Append [rs] and go on. *)
Lemma appending_more v v1 op result rs :
  waiting_ids v ≡ₚ waiting_ids v1 ++ names rs -> Forall is_answer rs -> appending v1 op (result ++ rs) ->
  judge (eq v1) op (fun rs' v' => exists new, rs' = result ++ new /\ waiting_ids v ≡ₚ waiting_ids v' ++ names new /\
    Forall is_answer new) (fun _ => True).
Proof.
  intros Hp Hrs Hop. eapply judge_mono; [exact Hop|]. intros rs' v' (new & -> & Hn & Hnew). exists (rs ++ new).
  rewrite app_assoc. split_and!; [done| |by apply Forall_app]. rewrite Hp, Hn, fmap_app, <- !app_assoc. by rewrite (Permutation_app_comm (names new)).
Qed.

Lemma appending_tickReady_tube v fuel now t result : appending v (tickReady_tube fuel now t result) result.
Proof.
  revert v result. induction fuel as [|f IH]; intros v result; cbn [tickReady_tube]; [apply judge_diverge|].
  eapply judge_bind; [apply judge_try, matching_tryReserveJob|]. intros [r|[]]; try apply judge_panic; cbv beta iota.
  - apply judge_at. intros v1 (Hst & Hp & _). do 2 (apply judge_skip; [intros P; walk|done|intros _]).
    apply (appending_more v v1 _ result [r]); [done| |apply IH]. apply Forall_singleton. by left.
  - apply judge_ret. intros v' ->. exists []. by rewrite !app_nil_r.
Qed.

Lemma appending_bind v (x : JM (list Reservation)) f result :
  appending v x result -> (forall v' r, appending v' (f r) r) -> appending v (bind x f) result.
Proof.
  intros Hx Hf. eapply judge_bind; [exact Hx|]. intros r. apply judge_at. intros v1 (new & -> & Hp & Hnew).
  by apply (appending_more v v1 _ result new).
Qed.

Lemma appending_tickReadyJobs v order now : appending v (tickReadyJobs order now) [].
Proof.
  unfold tickReadyJobs. generalize (@nil Reservation). revert v.
  induction order as [|t order IH]; intros v result; cbn [tickReadyJobs_loop]; [apply appending_ret|].
  apply judge_skip; [intros P; apply triple_gets|done|intros fuel].
  apply appending_bind; [apply appending_tickReady_tube|]. intros v' r. apply IH.
Qed.

Lemma appending_tickClient_jobs v fuel now r result : appending v (tickClient_jobs fuel now r result) result.
Proof.
  revert v result. induction fuel as [|f IH]; intros v result; cbn [tickClient_jobs]; [apply judge_diverge|].
  apply judge_load. intros c Hc. apply judge_skip; [intros P; apply triple_try_any, known_lift|done|].
  intros [e|[]]; try apply judge_panic; [|apply appending_ret].
  apply judge_skip; [intros P; apply triple_deref|done|intros job]. cbv zeta.
  destruct (expiresAt job <? now).
  { apply judge_skip; [intros P; apply triple_try_any, known_Release|done|]. intros [x|x]; [apply IH|apply judge_panic]. }
  destruct (_ && _) eqn:Hw; [|apply appending_ret]. apply andb_true_iff in Hw as [_ Hw].
  unfold view_cli in Hc. rewrite Hw in Hc. eapply judge_bind; [by eapply judge_unReserve|intros []].
  apply (appending_more v _ _ result [mkReservation (ReqID c) (CliID c) 0 DeadlineSoon 0 None None]);
    [by apply waiting_answer|apply Forall_singleton; right; by right|]. apply IH.
Qed.

Lemma appending_tickClient v now r result : appending v (tickClient now r result) result.
Proof.
  unfold tickClient. apply judge_load. intros c Hc. apply appending_bind.
  - destruct (_ && _) eqn:Hw; [|apply appending_ret]. apply andb_true_iff in Hw as [Hw _].
    unfold view_cli in Hc. rewrite Hw in Hc. cbv zeta. eapply judge_bind; [by eapply judge_unReserve|intros []].
    apply (appending_more v _ _ result [mkReservation (ReqID c) (CliID c) 0 Timeout 0 None None]);
      [by apply waiting_answer|apply Forall_singleton; right; by left|]. apply appending_ret.
  - intros v' rs. apply judge_skip; [intros P; apply triple_gets|done|intros fuel].
    apply appending_bind; [apply appending_tickClient_jobs|]. intros v2 rs2.
    apply judge_skip; [intros P; apply known_updateClientTickAt|done|intros _]. apply appending_ret.
Qed.

Lemma appending_tickClients v now : appending v (tickClients now) [].
Proof.
  unfold tickClients. apply judge_skip; [intros P; apply triple_gets|done|intros fuel].
  generalize (@nil Reservation). revert v. induction fuel as [|f IH]; intros v result; cbn [tickClients_loop]; [apply judge_diverge|].
  apply judge_skip; [intros P; apply triple_gets|done|intros h]. destruct (_ =? _)%nat; [apply appending_ret|].
  apply judge_skip; [intros P; apply triple_deref|done|intros top]. apply judge_load. intros c _.
  destruct (now <=? TickAt c); [apply appending_ret|].
  apply judge_skip; [intros P; walk|done|intros r].
  apply appending_bind; [apply appending_tickClient|]. intros v' rs. apply IH.
Qed.

(** The clients that waited before a tick are those that still wait and those it answers. *)
Lemma Tick_accounts delayOrder readyOrder now s rs s' :
  Tick delayOrder readyOrder now s = OK rs s' -> waiting_requests s ≡ₚ waiting_requests s' ++ names rs /\ Forall is_answer rs.
Proof.
  intros Hop. assert (appending (view (mem s)) (Tick delayOrder readyOrder now) []) as Ha.
  { unfold Tick. apply judge_skip; [intros P; apply triple_gets|done|intros next].
    apply judge_skip; [intros P; walk|done|intros _].
    apply appending_bind; [apply appending_tickReadyJobs|]. intros v r.
    eapply judge_bind; [apply appending_tickClients|]. intros r'. apply judge_ret. intros v' (new & -> & Hp). eauto. }
  specialize (Ha s eq_refl). rewrite Hop in Ha. by destruct Ha as (new & -> & Hp).
Qed.

(** * Requests *)
Lemma waiting_start v r i q : v !! r = Some (i, None) -> waiting_ids (<[r := (i, Some q)]> v) ≡ₚ (i, q) :: waiting_ids v.
Proof.
  intros Hr. rewrite <- (insert_delete_id v r (i, None) Hr) at 2. rewrite <- (insert_delete_eq v r (i, Some q)).
  by rewrite !waiting_insert by apply lookup_delete_eq.
Qed.

Lemma judge_reserve_first v now ts r :
  judge (eq v) (reserve_first now ts r)
    (fun o v' => match o with
                 | Some rv => matched_in v (Some r) rv v'
                 | None => v' = v end) (fun _ => True).
Proof.
  induction ts as [|t ts IH]; cbn [reserve_first]; [by apply judge_ret|].
  eapply judge_bind; [apply judge_try, matching_tryReserveJob|]. intros [rv|[]]; try apply judge_panic.
  - by apply judge_ret.
  - apply judge_at. by intros ? ->.
Qed.

Lemma start_waiting_view s cid rid w dl cli s1 :
  mem_wf (mem s) -> start_waiting cid rid w dl s = OK cli s1 ->
  exists i, view (mem s1) !! cli = Some (i, Some rid) /\ waiting_requests s1 ≡ₚ (i, rid) :: waiting_requests s.
Proof.
  intros Hwf. unfold start_waiting. unfold bind at 1, try, clients_Find, lift.
  destruct (CliQueue.Find cid (JSM.clients s)) as [r|e].
  - unfold bind at 1, load_cli, deref. destruct (mclis (mem s) !! r) as [c|] eqn:Hc; [|done].
    destruct (IsWaitingForResv c) eqn:Hw; [done|]. intros Hop.
    assert (view (mem s) !! r = Some (CliID c, None)) as Hv by (unfold view; rewrite lookup_fmap, Hc; unfold view_cli; simpl; by rewrite Hw).
    rewrite (run_update_cli _ _ _ _ _ Hc), !run_update_cli_put in Hop. injection Hop as <- <-. exists (CliID c).
    unfold waiting_requests. unfold put_cli. simpl. rewrite view_insert. change (view_cli (set_IsWaitingForResv true _)) with (CliID c, Some rid).
    split; [apply lookup_insert_eq|]. by apply waiting_start.
  - destruct e; try done. unfold alloc_cli, bind at 1. cbn [fst snd].
    unfold bind at 1, lift. destruct (CliQueue.Enqueue _ _ _) as [q|]; [|done]. intros [= <- <-]. exists cid.
    unfold waiting_requests, view. simpl. rewrite fmap_insert. split; [apply lookup_insert_eq|].
    change (view_cli (mkClientResvEntry _ _ _ _ _ _ _)) with (cid, Some rid). rewrite waiting_insert; [done|]. rewrite lookup_fmap. destruct (mclis (mem s) !! mnext (mem s)) as [c|] eqn:E; [|done].
    apply (mw_clis _ Hwf) in E. lia.
Qed.

(** A reservation request puts the client among those that wait, or answers it. *)
Lemma Append_accounts s cid rid w now dl r s' :
  mem_wf (mem s) -> AppendReservation cid rid w now dl s = OK r s' ->
  waiting_requests s' ≡ₚ (if decide (r_Status r = Queued) then [answered_request r] else []) ++ waiting_requests s.
Proof.
  intros Hwf. unfold AppendReservation. cbv zeta. destruct (_ || _); [done|]. intros Hop.
  apply bind_inv_OK in Hop as ([] & s1 & E1 & Hop). injection E1 as <-.
  apply bind_inv_OK in Hop as (cli & s2 & E2 & Hop). apply start_waiting_view in E2 as (i & Hi & Hw); [|done].
  assert (judge (eq (view (mem s2))) (c <- load_cli cli ;; enqueue_all (WatchedTubes c) (CliID c) cli ;;
    r <- reserve_first now (WatchedTubes c) cli ;;
    match r with
    | Some resv => incr nResv ;; incr nResvOnDemand ;; ret resv
    | None => updateClientTickAt cli ;; ret (mkReservation rid (CliID c) 0 Queued 0 None None)
    end) (fun r v' => matched_in (view (mem s2)) (Some cli) r v' \/
       r_Status r = Queued /\ answered_request r = (i, rid) /\ v' = view (mem s2)) (fun _ => True)) as Hj.
  { apply judge_load. intros c Hc. rewrite Hi in Hc. injection Hc as -> _.
    apply judge_skip; [intros P; apply known_enqueue_all|done|intros _].
    eapply judge_bind; [apply judge_reserve_first|]. intros [rv|].
    - apply judge_at. intros v' Hm. do 2 (apply judge_skip; [intros P; walk|done|intros _]).
      apply judge_ret. intros ? <-. by left.
    - apply judge_at. intros ? ->. apply judge_skip; [intros P; apply known_updateClientTickAt|done|intros _].
      apply judge_ret. intros ? <-. by right. }
  specialize (Hj s2 eq_refl). rewrite Hop in Hj. destruct Hj as [(Hst & Hp & Hid)|(Hst & Hid & Hv)].
  - rewrite decide_False by (by rewrite Hst). specialize (Hid cli eq_refl). rewrite Hi in Hid. injection Hid as -> ->.
    simpl. unfold waiting_requests in *. rewrite Hw, <- Permutation_cons_append in Hp.
    by apply (Permutation_cons_inv (a := answered_request r)).
  - rewrite decide_True by done. rewrite Hid. unfold waiting_requests in *. by rewrite Hv, Hw.
Qed.
End waiting.
