(* ===== verification/Snapshot.v ===== *)
(** Snapshots: [localSnapshot] of [src/state/jsm.go] and [src/store/snapshot.go].

    A snapshot of the state machine is a protobuf message with the jobs and the
    client entries; restoring it fills fresh indexes, heaps and queues, which
    [FinalizeRestore] then installs in the state machine. *)
From stdpp Require Import base gmap list strings.
From Stdlib Require Import ZArith Lia.
From S2P Require Import Prelude GoHeap Job JobHeap ClientResv Index JSM.
Local Open Scope Z_scope.

(** * [localSnapshot] *)

(** [l_jsm] is the state machine the snapshot points to; its [mem] is the store
    that the objects of both live in. *)
Record localSnapshot : Type := mkSnapshot {
  l_jsm : localJSM;
  l_ji : JobIndex;
  l_ti : tubeIndex;
  l_ri : reservedJobsIndex;
  l_clientHeap : CliHeap.clientResvHeap;
  l_clients : CliQueue.clientResvQueue;
  l_maxJobID : JobID
}.

Definition newLocalSnapshot (jsm : localJSM) : localSnapshot :=
  mkSnapshot jsm JobIdx.NewJobIndex ∅ ∅ CliHeap.newClientResvHeap CliQueue.newClientResvQueue 0.

Abbreviation SM := (M error localSnapshot).

Section snapshot_parts.
Definition l_mem (l : localSnapshot) : Mem := mem (l_jsm l).
Definition set_l_mem (v : Mem) (l : localSnapshot) : localSnapshot :=
  mkSnapshot (set_mem v (l_jsm l)) (l_ji l) (l_ti l) (l_ri l) (l_clientHeap l) (l_clients l) (l_maxJobID l).
Definition set_l_ji (v : JobIndex) (l : localSnapshot) : localSnapshot :=
  mkSnapshot (l_jsm l) v (l_ti l) (l_ri l) (l_clientHeap l) (l_clients l) (l_maxJobID l).
Definition set_l_ti (v : tubeIndex) (l : localSnapshot) : localSnapshot :=
  mkSnapshot (l_jsm l) (l_ji l) v (l_ri l) (l_clientHeap l) (l_clients l) (l_maxJobID l).
Definition set_l_ri (v : reservedJobsIndex) (l : localSnapshot) : localSnapshot :=
  mkSnapshot (l_jsm l) (l_ji l) (l_ti l) v (l_clientHeap l) (l_clients l) (l_maxJobID l).
Definition set_l_clientHeap (v : CliHeap.clientResvHeap) (l : localSnapshot) : localSnapshot :=
  mkSnapshot (l_jsm l) (l_ji l) (l_ti l) (l_ri l) v (l_clients l) (l_maxJobID l).
Definition set_l_clients (v : CliQueue.clientResvQueue) (l : localSnapshot) : localSnapshot :=
  mkSnapshot (l_jsm l) (l_ji l) (l_ti l) (l_ri l) (l_clientHeap l) v (l_maxJobID l).
Definition set_l_maxJobID (v : JobID) (l : localSnapshot) : localSnapshot :=
  mkSnapshot (l_jsm l) (l_ji l) (l_ti l) (l_ri l) (l_clientHeap l) (l_clients l) v.

Definition on_ti {A} (op : M error (Mem * tubeIndex) A) : SM A :=
  zoom (fun l => (l_mem l, l_ti l)) (fun t l => set_l_ti t.2 (set_l_mem t.1 l)) op.
Definition on_ri {A} (op : M error (Mem * reservedJobsIndex) A) : SM A :=
  zoom (fun l => (l_mem l, l_ri l)) (fun t l => set_l_ri t.2 (set_l_mem t.1 l)) op.
Definition on_lheap {A} (op : M error (Mem * CliHeap.clientResvHeap) A) : SM A :=
  zoom (fun l => (l_mem l, l_clientHeap l)) (fun t l => set_l_clientHeap t.2 (set_l_mem t.1 l)) op.
Definition l_lift {A} (f : localSnapshot -> A + error) : SM A :=
  fun l => match f l with inl a => OK a l | inr e => ERR e l end.
End snapshot_parts.

Section local_snapshot.
(** [ie.entry, err = ...] on the entry the index holds for the job. *)
Definition l_set_entry (jid : JobID) (je : EntRef) : SM unit :=
  modify (fun l => set_l_ji (JobIdx.set_entry jid je (l_ji l)) l).

Definition restoreJob (j : JobRef) : SM unit :=
  jb <- deref (fun l => mjobs (l_mem l) !! j) ;;
  idx <- l_lift (fun l => JobIdx.Add (id jb) j (l_ji l)) ;;
  modify (set_l_ji idx) ;;
  mx <- gets l_maxJobID ;;
  (if mx <? id jb then modify (set_l_maxJobID (id jb)) else ret tt) ;;
  match state jb with
  | Reserved => je <- on_ri (ResvIdx.Enqueue (reservedBy jb) j) ;; l_set_entry (id jb) je
  | Ready => je <- on_ti (TubeIdx.EnqueueReadyJob j) ;; l_set_entry (id jb) je
  | Delayed => je <- on_ti (TubeIdx.EnqueueDelayedJob j) ;; l_set_entry (id jb) je
  | Buried => je <- on_ti (TubeIdx.EnqueueBuriedJob j) ;; l_set_entry (id jb) je
  | Initial | Deleted => ret tt
  end.

(** A context, when there is one: whether its [Done] channel is closed when the
    [i]-th value of a channel has been received. *)
Definition Context_t : Type := option (nat -> bool).
Definition cancelled (ctx : Context_t) (i : nat) : bool :=
  match ctx with Some done => done i | None => false end.

(** An unbuffered channel that its sender will close: each value is produced by
    the sender when the receiver takes it.  The loops return the error and what
    they left unread. *)
Fixpoint RestoreJobs (ctx : Context_t) (i : nat) (jobsCh : list (SM JobRef))
    : SM (option error * list (SM JobRef)) :=
  match jobsCh with
  | [] => ret (None, [])
  | recv :: jobsCh' =>
    j <- recv ;;
    if cancelled ctx i then ret (Some ErrCancel, jobsCh') else
    r <- try (restoreJob j) ;;
    match r with
    | inr e => ret (Some e, jobsCh')
    | inl _ => RestoreJobs ctx (S i) jobsCh'
    end
  end.

Fixpoint restore_waiting (cid : ClientID) (cli : CliRef) (ts : list TubeName) : SM unit :=
  match ts with
  | [] => ret tt
  | t :: ts' => on_ti (TubeIdx.EnqueueToWaitQ t cid cli) ;; restore_waiting cid cli ts'
  end.

Definition restoreClient (cli : CliRef) : SM unit :=
  c <- deref (fun l => mclis (l_mem l) !! cli) ;;
  if HeapIndex c <? 0 then raise ErrInvalidIndex else
  q <- l_lift (fun l => CliQueue.Enqueue (CliID c) cli (l_clients l)) ;;
  modify (set_l_clients q) ;;
  (if IsWaitingForResv c then restore_waiting (CliID c) cli (WatchedTubes c) else ret tt) ;;
  h <- gets l_clientHeap ;;
  if Z.of_nat (length h) <=? HeapIndex c then panic else
  modify (set_l_clientHeap (<[Z.to_nat (HeapIndex c) := cli]> h)).

Fixpoint RestoreClients_loop (ctx : Context_t) (i : nat) (entriesCh : list (SM CliRef))
    : SM (option error * list (SM CliRef)) :=
  match entriesCh with
  | [] => ret (None, [])
  | recv :: entriesCh' =>
    cli <- recv ;;
    if cancelled ctx i then ret (Some ErrCancel, entriesCh') else
    r <- try (restoreClient cli) ;;
    match r with
    | inr _ => panic
    | inl _ => RestoreClients_loop ctx (S i) entriesCh'
    end
  end.
Definition RestoreClients (ctx : Context_t) (nClients : nat) (entriesCh : list (SM CliRef))
    : SM (option error * list (SM CliRef)) :=
  modify (set_l_clientHeap (CliHeap.newClientResvHeapWithSize nClients)) ;;
  r <- RestoreClients_loop ctx 0 entriesCh ;;
  match r with
  | (Some e, rest) => ret (Some e, rest)
  | (None, rest) => on_lheap CliHeap.initializeHeap ;; ret (None, rest)
  end.

Definition FinalizeRestore (l : localSnapshot) : localJSM :=
  set_clients (l_clients l) (set_clientHeap (l_clientHeap l) (set_reservedJobs (l_ri l)
    (set_tubes (l_ti l) (set_jobs (l_ji l) (set_maxJobID (l_maxJobID l) (l_jsm l)))))).
End local_snapshot.

(** * The messages *)
Record JobProto : Type := mkJobProto {
  jp_Id : Z; jp_Priority : Z; jp_Delay : Z; jp_Ttr : Z; jp_TubeName : string; jp_CreatedAt : Z;
  jp_ReadyAt : Z; jp_ExpiresAt : Z; jp_State : JobState; jp_ReservedBy : string; jp_BodySize : Z;
  jp_Body : slice; jp_BuriedAt : Z; jp_ReserveCount : Z; jp_TimeoutCount : Z; jp_ReleaseCount : Z;
  jp_BuryCount : Z; jp_KickCount : Z
}.

Record ClientResvEntryProto : Type := mkCliProto {
  cp_ClientId : string; cp_ResvDeadlineAt : Z; cp_IsWaitingForResv : bool; cp_TickAt : Z;
  cp_ReqId : string; cp_HeapIndex : Z; cp_WatchedTube : list string
}.

Record SnapshotProto : Type := mkSnapshotProto {
  sp_Jobs : list JobProto; sp_Reservations : list ClientResvEntryProto
}.

(** The conversions between the two enumerations of states keep the number. *)
Definition JobToJobProto (j : Job) : JobProto :=
  mkJobProto (wrap_i64 (id j)) (priority j) (delay j) (wrap_i32 (ttr j)) (tubeName j) (createdAt j)
    (readyAt j) (expiresAt j) (state j) (reservedBy j) (wrap_i32 (bodySize j)) (body j) (buriedAt j)
    (reserveCount j) (timeoutCount j) (releaseCount j) (buryCount j) (kickCount j).

(** What the getters of [wrapJob] return. *)
Definition NewJobFromJobProto (jp : JobProto) : Job :=
  mkJob WrapJob (wrap_u64 (jp_Id jp)) (jp_Priority jp) (jp_Delay jp) (jp_Ttr jp) (jp_BodySize jp)
    (jp_Body jp) (jp_TubeName jp) (jp_CreatedAt jp) (jp_ReadyAt jp) (jp_State jp) (jp_ExpiresAt jp)
    (jp_ReservedBy jp) (jp_BuriedAt jp) (jp_ReserveCount jp) (jp_TimeoutCount jp) (jp_ReleaseCount jp)
    (jp_BuryCount jp) (jp_KickCount jp).

Definition appendClientRsvEntry (cli : ClientResvEntry) : ClientResvEntryProto :=
  mkCliProto (CliID cli) (ResvDeadlineAt cli) (IsWaitingForResv cli) (TickAt cli) (ReqID cli)
    (wrap_i32 (HeapIndex cli)) (WatchedTubes cli).

(** The entry built for a message: the tubes of the message are not used. *)
Definition NewClientFromProto (r : ClientResvEntryProto) : ClientResvEntry :=
  mkClientResvEntry (cp_ClientId r) [] (cp_ResvDeadlineAt r) (cp_IsWaitingForResv r) (cp_TickAt r)
    (cp_ReqId r) (cp_HeapIndex r).

(** * [snapshot.go] *)
Section store_snapshot.

(** [createFrom]: the clients in queue order, the jobs in the order [sent] in
    which the runtime yields the map. *)
Definition createFrom (sent : list JobRef) (jsm : localJSM) : SnapshotProto :=
  mkSnapshotProto
    (JobToJobProto <$> omap (fun r => mjobs (mem jsm) !! r) sent)
    (appendClientRsvEntry <$> omap (fun r => mclis (mem jsm) !! r) (CliQueue.Entries (mem jsm) (clients jsm))).

Definition NewSnapshotFrom (sent : list JobRef) (jsm : localJSM) : SnapshotProto := createFrom sent jsm.

(** The sending halves of the channels: an object is allocated per message. *)
Definition send_job (jp : JobProto) : SM JobRef :=
  fun l => let '(r, m) := alloc_job (NewJobFromJobProto jp) (l_mem l) in OK r (set_l_mem m l).
Definition send_client (r : ClientResvEntryProto) : SM CliRef :=
  fun l => let '(c, m) := alloc_cli (NewClientFromProto r) (l_mem l) in OK c (set_l_mem m l).

(** The sender blocks for ever when the receiver returned before the last value. *)
Definition await {A} (r : option error * list A) : SM unit :=
  match r with
  | (_, _ :: _) => diverge
  | (Some e, []) => raise e
  | (None, []) => ret tt
  end.

Definition restoreCliRevEntries (ctx : Context_t) (snap : SnapshotProto) : SM unit :=
  r <- RestoreClients ctx (length (sp_Reservations snap)) (send_client <$> sp_Reservations snap) ;;
  await r.

Definition restoreJobs (ctx : Context_t) (snap : SnapshotProto) : SM unit :=
  r <- RestoreJobs ctx 0 (send_job <$> sp_Jobs snap) ;; await r.

(** [restoreTo], with the two contexts of the two goroutines. *)
Definition restoreTo (ctx1 ctx2 : Context_t) (snap : SnapshotProto) : SM localJSM :=
  restoreCliRevEntries ctx1 snap ;; restoreJobs ctx2 snap ;; gets FinalizeRestore.

(** [RestoreSnapshotTo] after the message has been read. *)
Definition RestoreSnapshotTo (ctx1 ctx2 : Context_t) (snap : SnapshotProto) (jsm : localJSM)
    : outcome error localSnapshot localJSM :=
  restoreTo ctx1 ctx2 snap (newLocalSnapshot jsm).
End store_snapshot.
