(* ===== verification/Restore.v ===== *)
(** Restoring a snapshot gives the state machine it was taken from back.

    [FinalizeRestore] of a snapshot under construction is a state of the state
    machine, so the invariants of the earlier files apply to it at every step. *)
From stdpp Require Import base gmap list strings.
From Stdlib Require Import ZArith Lia.
From S2P Require Import Prelude GoHeap Job JobHeap ClientResv Index JSM Heaps JobInv.
From S2P Require Import Transitions Commands CliInv Clients Reserve Inv Tick Refine Machine.
From S2P Require Import Snapshot.
Local Open Scope Z_scope.

Abbreviation built := FinalizeRestore.

(** * Jobs *)
Lemma on_ti_sim {A} (op : M error (Mem * tubeIndex) A) l a s' :
  on_tubes op (built l) = OK a s' ->
  exists l', on_ti op l = OK a l' /\ built l' = s' /\ l_ji l' = jobs s'.
Proof.
  unfold on_tubes, on_ti, zoom. change (mem (built l), tubes (built l)) with (l_mem l, l_ti l).
  destruct (op (l_mem l, l_ti l)) as [x t|e t| |]; intros [= -> <-]. eauto.
Qed.

Lemma on_ri_sim {A} (op : M error (Mem * reservedJobsIndex) A) l a s' :
  on_resv op (built l) = OK a s' ->
  exists l', on_ri op l = OK a l' /\ built l' = s' /\ l_ji l' = jobs s'.
Proof.
  unfold on_resv, on_ri, zoom. change (mem (built l), reservedJobs (built l)) with (l_mem l, l_ri l).
  destruct (op (l_mem l, l_ri l)) as [x t|e t| |]; intros [= -> <-]. eauto.
Qed.

(** The restored part of the table grew by [js]. *)
Record restored (l l' : localSnapshot) (js : list Job) : Prop := {
  rj_inv : JobsInv (built l');
  rj_abs : abs (built l') = list_to_map ((fun j => (id j, j)) <$> js) ∪ abs (built l);
  rj_max : l_maxJobID l' = foldl Z.max (l_maxJobID l) (id <$> js);
  rj_frame : cframe (built l) (built l');
  rj_tick : nextDelayTickAt (l_jsm l') = nextDelayTickAt (l_jsm l);
  rj_stale k : no_stale (mem (built l)) (heaps (built l) k) -> no_stale (mem (built l')) (heaps (built l') k)
}.

Lemma restored_none l : JobsInv (built l) -> restored l l [].
Proof. intros HI. split; try done. simpl. by rewrite map_empty_union. Qed.

(** The heap entry is created by the operation of the heap that the state names. *)
Lemma restore_push l jr j er s' :
  live j -> push_op (key_of j) jr (built l) = OK er s' ->
  exists l', match state j with
             | Reserved => je <- on_ri (ResvIdx.Enqueue (reservedBy j) jr) ;; l_set_entry (id j) je
             | Ready => je <- on_ti (TubeIdx.EnqueueReadyJob jr) ;; l_set_entry (id j) je
             | Delayed => je <- on_ti (TubeIdx.EnqueueDelayedJob jr) ;; l_set_entry (id j) je
             | Buried => je <- on_ti (TubeIdx.EnqueueBuriedJob jr) ;; l_set_entry (id j) je
             | Initial | Deleted => ret tt
             end l = OK tt l' /\
    built l' = set_jobs (JobIdx.set_entry (id j) er (jobs s')) s'.
Proof.
  intros [Hl1 Hl2] Hop. unfold key_of in Hop.
  destruct (state j); try done; simpl in Hop;
    (apply on_ti_sim in Hop || apply on_ri_sim in Hop); destruct Hop as (l' & Hop & <- & Hji);
    rewrite (bind_OK _ _ _ _ _ Hop); (eexists; split; [done|]); by rewrite <- Hji.
Qed.

Lemma restoreJob_spec l jr j :
  JobsInv (built l) -> mjobs (l_mem l) !! jr = Some j -> unref (l_mem l) (heaps (built l)) jr ->
  live j -> abs (built l) !! id j = None ->
  exists l', restoreJob jr l = OK tt l' /\ restored l l' [j].
Proof.
  intros HI Hj Hu Hl Hnew. assert (jm (l_ji l) !! id j = None) as Hji by (by apply (abs_None (built l))).
  unfold restoreJob. rewrite (bind_OK _ _ _ _ _ (deref_OK (fun l => mjobs (l_mem l) !! jr) l j Hj)).
  set (idx := mkJobIndex (<[id j := mkIndexEntry jr None]> (jm (l_ji l))) (ji_maxJobID (l_ji l))).
  rewrite (bind_OK (l_lift _) _ l idx l) by (unfold l_lift, JobIdx.Add; by rewrite Hji).
  unfold modify at 1, bind at 1. unfold gets at 1, bind at 1.
  set (l1 := set_l_maxJobID (Z.max (l_maxJobID l) (id j)) (set_l_ji idx l)).
  rewrite (bind_OK _ _ _ tt l1).
  2: { simpl. unfold l1. destruct (Z.ltb_spec (l_maxJobID l) (id j)); unfold modify, ret; do 2 f_equal.
       - by rewrite Z.max_r by lia.
       - rewrite Z.max_l by lia. done. }
  destruct (push_op_spec (built l1) (jm (l_ji l)) jr j) as (er & s2 & Hop & [B1 B2 B3 B4 B5] & HI2); [done..|].
  destruct (restore_push l1 jr j er s2 Hl Hop) as (l2 & -> & Hb). exists l2. split; [done|].
  assert (jm (jobs (built l2)) = <[id j := mkIndexEntry jr (Some er)]> (jm (l_ji l))) as Hjm.
  { rewrite Hb. simpl. rewrite B2. simpl. by rewrite alter_insert, decide_True by done. }
  assert (mem (built l2) = mem s2 /\ tubes (built l2) = tubes s2 /\ reservedJobs (built l2) = reservedJobs s2)
    as (E1 & E2 & E3) by (by rewrite Hb).
  unfold misc in B3. injection B3 as N1 N2 N3 N4. split.
  - unfold JobsInv. rewrite Hjm. unfold heaps. rewrite E1, E2, E3. exact HI2.
  - simpl. rewrite <- insert_union_l, map_empty_union.
    unfold abs. rewrite Hjm, E1, B1, omap_insert. cbn [ie_job].
    change (mjobs (mem (built l1))) with (mjobs (l_mem l)). by rewrite Hj.
  - change (l_maxJobID l2) with (maxJobID (built l2)). rewrite Hb. simpl. rewrite N1. done.
  - rewrite Hb. split; apply B4.
  - change (nextDelayTickAt (l_jsm l2)) with (nextDelayTickAt (built l2)). by rewrite Hb.
  - intros k. unfold heaps. rewrite E1, E2, E3. apply B5.
Qed.

Lemma restored_app l1 l2 l3 j js :
  id j ∉ id <$> js -> restored l1 l2 [j] -> restored l2 l3 js -> restored l1 l3 (j :: js).
Proof.
  intros Hni [A1 A2 A3 A4 A5 A6] [B1 B2 B3 B4 B5 B6]. split; [done| | | | |auto].
  - rewrite B2, A2. simpl. rewrite <- !insert_union_l, map_empty_union, insert_union_r; [done|].
    apply not_elem_of_list_to_map_1. rewrite <- list_fmap_compose. done.
  - rewrite B3, A3. done.
  - by etransitivity.
  - congruence.
Qed.

(** Receiving a job allocates it. *)
Lemma send_job_spec l jp :
  JobsInv (built l) ->
  exists jr l', send_job jp l = OK jr l' /\ restored l l' [] /\ mjobs (l_mem l') !! jr = Some (NewJobFromJobProto jp) /\
    unref (l_mem l') (heaps (built l')) jr.
Proof.
  intros HI. destruct (JInv_alloc _ _ _ HI (NewJobFromJobProto jp)) as [HI1 Hu].
  eexists _, _. split; [done|]. split_and!; [|simpl; apply lookup_insert_eq|exact Hu].
  split; [exact HI1| |done|done|done|].
  - simpl. rewrite map_empty_union. unfold abs. simpl. apply map_eq. intros x. rewrite !lookup_omap.
    destruct (jm (l_ji l) !! x) as [ie|] eqn:Hie; [|done]. simpl. apply lookup_insert_ne.
    destruct (ji_idx _ _ _ HI _ _ Hie) as (j & _ & _ & Hj & _). apply (mw_jobs _ (ji_mem _ _ _ HI)) in Hj.
    change (mem (built l)) with (l_mem l) in Hj. lia.
  - intros k Hns r x Hr Hx. apply (Hns r x Hr). rewrite <- Hx.
    destruct (JInv_entry _ _ _ HI _ _ Hr) as [e He]. destruct (ji_back _ _ _ HI _ _ _ Hr He) as (y & Hy & _).
    change (mem (built l)) with (l_mem l) in He, Hy. unfold entry_job. simpl. unfold l_mem in *. rewrite He. simpl.
    symmetry. rewrite lookup_insert_ne; [done|].
    apply (mw_jobs _ (ji_mem _ _ _ HI)) in Hy. change (mem (built l)) with (mem (l_jsm l)) in Hy. lia.
Qed.

Definition uncancelled (ctx : Context_t) : Prop := forall i, cancelled ctx i = false.

Lemma RestoreJobs_spec ctx i jps l :
  uncancelled ctx -> JobsInv (built l) ->
  let js := NewJobFromJobProto <$> jps in
  Forall live js -> NoDup (id <$> js) -> (forall j, j ∈ js -> abs (built l) !! id j = None) ->
  exists l', RestoreJobs ctx i (send_job <$> jps) l = OK (None, []) l' /\ restored l l' js.
Proof.
  intros Hctx. revert i l. induction jps as [|jp jps IH]; intros i l HI js Hl Hnd Hnew.
  { exists l. split; [done|by apply restored_none]. }
  subst js. simpl in *. apply Forall_cons in Hl as [Hlj Hl]. apply NoDup_cons in Hnd as [Hni Hnd].
  destruct (send_job_spec l jp HI) as (jr & l1 & Hop & R1 & Hj & Hu). rewrite (bind_OK _ _ _ _ _ Hop), Hctx.
  assert (abs (built l1) = abs (built l)) as Ha1 by (rewrite (rj_abs _ _ _ R1); simpl; by rewrite map_empty_union).
  destruct (restoreJob_spec l1 jr (NewJobFromJobProto jp)) as (l2 & Hop2 & R2);
    [apply R1|done|done|done|rewrite Ha1; apply Hnew; left|].
  rewrite (bind_OK _ _ _ _ _ (try_OK _ _ _ _ Hop2)).
  destruct (IH (S i) l2) as (l3 & Hop3 & R3); [apply R2|done|done| |].
  { intros j Hin. rewrite (rj_abs _ _ _ R2), Ha1. apply lookup_union_None. split; [|apply Hnew; by right].
    apply not_elem_of_list_to_map_1. simpl. rewrite list_elem_of_singleton. intros E. apply Hni. rewrite <- E.
    by apply list_elem_of_fmap_2. }
  exists l3. split; [done|]. apply (restored_app l l2); [done| |done].
  destruct R1 as [C1 C2 C3 C4 C5 C6], R2 as [D1 D2 D3 D4 D5 D6].
  split; [done| | |by etransitivity|congruence|auto].
  - by rewrite D2, Ha1.
  - rewrite D3, C3. done.
Qed.

(** * Clients *)

(** An entry of a restored client watches no tube. *)
Lemma restoreClient_spec l r c :
  mclis (l_mem l) !! r = Some c -> WatchedTubes c = [] -> 0 <= HeapIndex c < Z.of_nat (length (l_clientHeap l)) ->
  qwf (l_mem l) (l_clients l) -> (forall r', r' ∈ qview (l_clients l) -> cid_of (l_mem l) r' <> Some (CliID c)) ->
  exists q', qview q' = qview (l_clients l) ++ [r] /\ qwf (l_mem l) q' /\
    restoreClient r l = OK tt (set_l_clientHeap (<[Z.to_nat (HeapIndex c) := r]> (l_clientHeap l)) (set_l_clients q' l)).
Proof.
  intros Hc Hw Hi Hq Hno.
  destruct (q_Enqueue_spec (l_mem l) (l_clients l) r (CliID c)) as (q' & Henq & Hv & Hq');
    [done|unfold cid_of; by rewrite Hc|done|].
  exists q'. split_and!; [done..|]. unfold restoreClient.
  rewrite (bind_OK _ _ _ _ _ (deref_OK (fun l => mclis (l_mem l) !! r) l c Hc)).
  destruct (Z.ltb_spec (HeapIndex c) 0); [lia|].
  rewrite (bind_OK (l_lift _) _ l q' l) by (unfold l_lift; by rewrite Henq).
  unfold modify at 1, bind at 1. rewrite Hw. simpl.
  rewrite (bind_OK _ _ _ tt (set_l_clients q' l)) by (by destruct (IsWaitingForResv c)).
  unfold gets, bind at 1. simpl. by destruct (Z.leb_spec (Z.of_nat (length (l_clientHeap l))) (HeapIndex c)); [lia|].
Qed.

(** The clients of [cps] were restored as the objects [rs]. *)
Record enlisted (l l' : localSnapshot) (rs : list CliRef) (cps : list ClientResvEntryProto) : Prop := {
  en_jobs : jframe (built l) (built l');
  en_tubes : l_ti l' = l_ti l;
  en_view : qview (l_clients l') = qview (l_clients l) ++ rs;
  en_qwf : qwf (l_mem l') (l_clients l');
  en_new : Forall2 (fun r cp => mclis (l_mem l') !! r = Some (NewClientFromProto cp)) rs cps;
  en_old r c : mclis (l_mem l) !! r = Some c -> mclis (l_mem l') !! r = Some c;
  en_only r c : mclis (l_mem l') !! r = Some c -> mclis (l_mem l) !! r = Some c \/ r ∈ rs;
  en_len : length (l_clientHeap l') = length (l_clientHeap l);
  en_heap k r cp : rs !! k = Some r -> cps !! k = Some cp ->
    l_clientHeap l' !! Z.to_nat (cp_HeapIndex cp) = Some r;
  en_rest i : (forall cp, cp ∈ cps -> Z.to_nat (cp_HeapIndex cp) <> i) -> l_clientHeap l' !! i = l_clientHeap l !! i
}.

Lemma enlisted_none l : qwf (l_mem l) (l_clients l) -> enlisted l l [] [].
Proof. intros Hq. split; try done; [by rewrite app_nil_r|auto]. Qed.

(** Receiving a client allocates it; then it is filed. *)
Lemma enlist_one l cp :
  mem_wf (l_mem l) -> qwf (l_mem l) (l_clients l) ->
  (forall r', r' ∈ qview (l_clients l) -> cid_of (l_mem l) r' <> Some (cp_ClientId cp)) ->
  0 <= cp_HeapIndex cp < Z.of_nat (length (l_clientHeap l)) ->
  exists r l1 l', send_client cp l = OK r l1 /\ restoreClient r l1 = OK tt l' /\ enlisted l l' [r] [cp].
Proof.
  intros Hmw Hq Hno Hi. set (r := mnext (l_mem l)). set (c := NewClientFromProto cp).
  set (l1 := set_l_mem (alloc_cli c (l_mem l)).2 l).
  assert (forall x y, mclis (l_mem l) !! x = Some y -> mclis (l_mem l1) !! x = Some y) as Hold.
  { intros x y Hx. unfold l1. simpl. rewrite lookup_insert_ne; [done|]. apply (mw_clis _ Hmw) in Hx. lia. }
  assert (forall x, x ∈ qview (l_clients l) -> cid_of (l_mem l1) x = cid_of (l_mem l) x) as Hcid.
  { intros x Hx. destruct (qwf_cid _ _ _ Hq Hx) as [cid Hcid]. unfold cid_of in *.
    destruct (mclis (l_mem l) !! x) as [y|] eqn:Hy; [|done]. by rewrite (Hold _ _ Hy). }
  assert (qwf (l_mem l1) (l_clients l)) as Hq1 by (by apply (qwf_frame (l_mem l))).
  assert (mclis (l_mem l1) !! r = Some c) as Hr by (simpl; apply lookup_insert_eq).
  destruct (restoreClient_spec l1 r c) as (q' & Hv & Hq' & Hop); [done|done|done|done| |].
  { intros x Hx. rewrite Hcid by done. by apply Hno. }
  exists r, l1. eexists. split; [done|]. split; [exact Hop|]. split; try done.
  - split; try done. intros _. destruct Hmw as [W1 W2 W3]. split; simpl; [intros ?? ?%W1; lia|intros ?? ?%W2; lia|].
    intros x y [[<- _]|[_ Hx]]%lookup_insert_Some; [lia|]. apply W3 in Hx. lia.
  - by repeat constructor.
  - intros x y. unfold l1. simpl. intros [[<- _]|[_ Hx]]%lookup_insert_Some; [right; by apply list_elem_of_singleton|by left].
  - simpl. by rewrite length_insert.
  - intros [|k] x y Hx Hy; simplify_eq/=. rewrite list_lookup_insert_eq; [done|lia].
  - intros i Hne. simpl. apply list_lookup_insert_ne. apply Hne. by apply list_elem_of_singleton.
Qed.

Lemma enlisted_app l1 l2 l3 r rs cp cps :
  enlisted l1 l2 [r] [cp] -> enlisted l2 l3 rs cps ->
  (forall cp', cp' ∈ cps -> Z.to_nat (cp_HeapIndex cp') <> Z.to_nat (cp_HeapIndex cp)) ->
  enlisted l1 l3 (r :: rs) (cp :: cps).
Proof.
  intros [A1 A2 A3 A4 A5 A6 A7 A8 A9 A10] [B1 B2 B3 B4 B5 B6 B7 B8 B9 B10] Hne.
  apply Forall2_cons in A5 as [A5 _]. split; [by etransitivity|congruence| |done| |auto| |congruence| |].
  - rewrite B3, A3, <- app_assoc. done.
  - constructor; [by apply B6|done].
  - intros x y [Hx|Hx]%B7; [|right; by right]. apply A7 in Hx as [Hx|Hx%list_elem_of_singleton]; [by left|].
    right. rewrite Hx. left.
  - intros [|k] x y Hx Hy; simplify_eq/=; [|by eapply B9]. rewrite B10 by done. by apply (A9 0%nat).
  - intros i Hi. rewrite B10, A10; [done| |].
    + intros cp' ->%list_elem_of_singleton. apply Hi. left.
    + intros cp' Hin. apply Hi. by right.
Qed.

Lemma RestoreClients_loop_spec ctx i cps l :
  uncancelled ctx -> mem_wf (l_mem l) -> qwf (l_mem l) (l_clients l) ->
  (forall cp r', cp ∈ cps -> r' ∈ qview (l_clients l) -> cid_of (l_mem l) r' <> Some (cp_ClientId cp)) ->
  Forall (fun cp => 0 <= cp_HeapIndex cp < Z.of_nat (length (l_clientHeap l))) cps ->
  NoDup (cp_ClientId <$> cps) -> NoDup (cp_HeapIndex <$> cps) ->
  exists rs l', RestoreClients_loop ctx i (send_client <$> cps) l = OK (None, []) l' /\ enlisted l l' rs cps.
Proof.
  intros Hctx. revert i l. induction cps as [|cp cps IH]; intros i l Hmw Hq Hno Hb Hn1 Hn2.
  { exists [], l. split; [done|by apply enlisted_none]. }
  simpl in *. apply Forall_cons in Hb as [Hbc Hb]. apply NoDup_cons in Hn1 as [Hi1 Hn1], Hn2 as [Hi2 Hn2].
  destruct (enlist_one l cp) as (r & l1 & l2 & Hs & Hop & E); [done|done|by intros; apply Hno; [left|]|done|].
  rewrite (bind_OK _ _ _ _ _ Hs), Hctx, (bind_OK _ _ _ _ _ (try_OK _ _ _ _ Hop)).
  destruct (IH (S i) l2) as (rs & l3 & Hop3 & E3); [| | | |done|done|].
  - by apply E.
  - apply E.
  - intros cp' x Hin. rewrite (en_view _ _ _ _ E). intros [Hx|Hx%list_elem_of_singleton]%elem_of_app.
    + destruct (qwf_cid _ _ _ Hq Hx) as [cid Hcid]. unfold cid_of in *.
      destruct (mclis (l_mem l) !! x) as [y|] eqn:Hy; [|done]. rewrite (en_old _ _ _ _ E _ _ Hy).
      specialize (Hno cp' x (list_elem_of_further _ _ _ Hin) Hx). by rewrite Hy in Hno.
    + subst x. pose proof (en_new _ _ _ _ E) as [Hr _]%Forall2_cons. unfold cid_of. rewrite Hr. simpl.
      intros [= E0]. apply Hi1. rewrite E0. by apply list_elem_of_fmap_2.
  - rewrite (en_len _ _ _ _ E). done.
  - exists (r :: rs), l3. split; [done|]. apply (enlisted_app l l2); [done|done|]. intros cp' Hin E0. apply Hi2.
    rewrite Forall_forall in Hb. specialize (Hb _ Hin). replace (cp_HeapIndex cp) with (cp_HeapIndex cp') by lia.
    by apply list_elem_of_fmap_2.
Qed.

(** The indexes are the positions of the array ... *)
Definition positions (cps : list ClientResvEntryProto) : Prop :=
  cp_HeapIndex <$> cps ≡ₚ Z.of_nat <$> seq 0 (length cps).
(** ... and the array is a heap. *)
Definition tick_ordered (cps : list ClientResvEntryProto) : Prop :=
  forall a b k, a ∈ cps -> b ∈ cps -> (0 < k)%nat -> cp_HeapIndex b = Z.of_nat k ->
    cp_HeapIndex a = Z.of_nat (parent k) -> CliHeap.client_less (NewClientFromProto b) (NewClientFromProto a) = false.

Lemma positions_elem cps i : positions cps -> (i < length cps)%nat -> exists cp, cp ∈ cps /\ cp_HeapIndex cp = Z.of_nat i.
Proof.
  intros Hp Hi. unfold positions in Hp. assert (Z.of_nat i ∈ cp_HeapIndex <$> cps) as (cp & -> & Hin)%list_elem_of_fmap; [|eauto].
  rewrite Hp. apply list_elem_of_fmap_2, elem_of_seq. lia.
Qed.

Lemma positions_range cps : positions cps -> Forall (fun cp => 0 <= cp_HeapIndex cp < Z.of_nat (length cps)) cps.
Proof.
  unfold positions. intros Hp. apply Forall_forall. intros cp Hin. apply (list_elem_of_fmap_2 cp_HeapIndex) in Hin.
  rewrite Hp in Hin. apply list_elem_of_fmap in Hin as (k & -> & Hk%elem_of_seq). lia.
Qed.

Lemma positions_NoDup cps : positions cps -> NoDup (cp_HeapIndex <$> cps).
Proof. unfold positions. intros ->. apply NoDup_fmap; [intros ???; lia|apply NoDup_seq]. Qed.

(** What the restored heap holds at a position. *)
Lemma enlisted_at l l' rs cps i r :
  enlisted l l' rs cps -> positions cps -> length (l_clientHeap l) = length cps -> l_clientHeap l' !! i = Some r ->
  exists cp, cp ∈ cps /\ cp_HeapIndex cp = Z.of_nat i /\ r ∈ rs /\ mclis (l_mem l') !! r = Some (NewClientFromProto cp).
Proof.
  intros E Hp Hlen Hr. assert (i < length cps)%nat as Hi.
  { rewrite <- Hlen, <- (en_len _ _ _ _ E). by eapply lookup_lt_Some. }
  destruct (positions_elem cps i Hp Hi) as (cp & Hin & Hcp). exists cp. split_and!; [done|done|..];
    apply list_elem_of_lookup_1 in Hin as [k Hk];
    destruct (Forall2_lookup_r _ _ _ _ _ (en_new _ _ _ _ E) Hk) as (x & Hx & Hc);
    pose proof (en_heap _ _ _ _ E _ _ _ Hx Hk) as Hh; rewrite Hcp, Nat2Z.id, Hr in Hh; simplify_eq; [|done].
  by eapply list_elem_of_lookup_2.
Qed.

Lemma enlisted_heap l l' rs cps :
  enlisted l l' rs cps -> positions cps -> tick_ordered cps -> length (l_clientHeap l) = length cps ->
  ch_wf (l_mem l') (l_clientHeap l') /\ ch_sorted (l_mem l') (l_clientHeap l').
Proof.
  intros E Hp Ho Hlen. pose proof (fun i r => enlisted_at l l' rs cps i r E Hp Hlen) as Hat.
  assert (ch_wf (l_mem l') (l_clientHeap l')) as Hwf.
  { apply ch_wf_alt. split.
    - intros i r Hr. destruct (Hat _ _ Hr) as (cp & _ & <- & _ & ->). done.
    - intros r [i Hr]%list_elem_of_lookup_1. destruct (Hat _ _ Hr) as (cp & _ & _ & _ & ->). eauto. }
  split; [done|]. apply ch_sorted_alt; [done|]. intros k a b ca cb Hk Ha Hb Hca Hcb.
  destruct (Hat _ _ Ha) as (pa & Hpa & Ia & _ & Ea), (Hat _ _ Hb) as (pb & Hpb & Ib & _ & Eb).
  simplify_eq. by eapply (Ho pa pb k).
Qed.

(** Restoring the clients of a message into an empty snapshot. *)
Lemma RestoreClients_spec ctx cps s :
  uncancelled ctx -> mem_wf (mem s) -> NoDup (cp_ClientId <$> cps) -> positions cps -> tick_ordered cps ->
  let l := newLocalSnapshot s in
  exists rs l', RestoreClients ctx (length cps) (send_client <$> cps) l = OK (None, []) l' /\
    enlisted (set_l_clientHeap (CliHeap.newClientResvHeapWithSize (length cps)) l) l' rs cps /\
    ch_wf (l_mem l') (l_clientHeap l') /\ ch_sorted (l_mem l') (l_clientHeap l').
Proof.
  intros Hctx Hmw Hnd Hp Ho l. unfold RestoreClients. unfold modify at 1, bind at 1.
  set (l0 := set_l_clientHeap _ l). assert (length (l_clientHeap l0) = length cps) as Hlen by apply length_replicate.
  destruct (RestoreClients_loop_spec ctx 0 cps l0) as (rs & l' & Hop & E);
    [done|done|apply qwf_new|by intros ??? ?%elem_of_nil| |done|by apply positions_NoDup|].
  { rewrite Hlen. by apply positions_range. }
  destruct (enlisted_heap l0 l' rs cps E Hp Ho Hlen) as [Hwf Hs].
  rewrite (bind_OK _ _ _ _ _ Hop). cbv beta iota. rewrite (bind_OK _ _ l' tt l').
  2: { unfold on_lheap, CliHeap.initializeHeap.
       pose proof (Init_ordered (E:=error) (l_mem l', l_clientHeap l') Hwf Hs) as Hin. unfold zoom. rewrite Hin.
       by destruct l' as [[] ? ? ? ? ? ?]. }
  by exists rs, l'.
Qed.

(** * Taking the snapshot *)

(** The same job, as a [wrapJob]. *)
Definition rewrap (j : Job) : Job :=
  let 'mkJob _ i p d t bs b tn c r st e rb ba n1 n2 n3 n4 n5 := j in
  mkJob WrapJob i p d t bs b tn c r st e rb ba n1 n2 n3 n4 n5.

(** The fields fit the integers of the message. *)
Definition fits (j : Job) : Prop := in_u64 (id j) /\ in_i32 (ttr j) /\ in_i32 (bodySize j).

Lemma job_round_trip j : fits j -> NewJobFromJobProto (JobToJobProto j) = rewrap j.
Proof.
  intros (Hi & Ht & Hb). destruct j. unfold NewJobFromJobProto, JobToJobProto, rewrap. simpl in *.
  by rewrite wrap_u64_i64, !wrap_i32_id.
Qed.

Lemma rewrap_id j : id (rewrap j) = id j.
Proof. by destruct j. Qed.
Lemma rewrap_key j : key_of (rewrap j) = key_of j.
Proof. by destruct j. Qed.
Lemma rewrap_live j : live (rewrap j) <-> live j.
Proof. by destruct j. Qed.

Lemma omap_ids m (ml : list (JobID * IndexEntry)) :
  Forall (fun p => exists j, mjobs m !! ie_job p.2 = Some j /\ id j = p.1) ml ->
  id <$> omap (fun r => mjobs m !! r) ((ie_job ∘ snd) <$> ml) = ml.*1.
Proof.
  induction 1 as [|[jid ie] ml (j & Hj & Hid) _ IH]; [done|]. rewrite !fmap_cons. simpl in *. rewrite Hj. simpl. by rewrite Hid, <- IH.
Qed.

Lemma sent_ids s sent :
  JobsInv s -> JobIdx.Jobs (jobs s) sent ->
  id <$> omap (fun r => mjobs (mem s) !! r) sent ≡ₚ (map_to_list (jm (jobs s))).*1.
Proof.
  unfold JobIdx.Jobs. intros HI ->. rewrite omap_ids; [done|]. apply Forall_forall.
  intros [jid ie] Hin%elem_of_map_to_list. destruct (ji_idx _ _ _ HI _ _ Hin) as (j & _ & _ & Hj & Hid & _). eauto.
Qed.

Lemma sent_elem s sent j :
  JobsInv s -> JobIdx.Jobs (jobs s) sent ->
  j ∈ omap (fun r => mjobs (mem s) !! r) sent <-> abs s !! id j = Some j.
Proof.
  unfold JobIdx.Jobs. intros HI Hs. rewrite list_elem_of_omap. setoid_rewrite Hs. setoid_rewrite list_elem_of_fmap.
  setoid_rewrite abs_lookup. split.
  - intros (r & ([jid ie] & -> & Hin%elem_of_map_to_list) & Hj). simpl in *.
    destruct (ji_idx _ _ _ HI _ _ Hin) as (j' & _ & _ & Hj' & Hid & _). simplify_eq. eauto.
  - intros (ie & Hie & Hj). exists (ie_job ie). split; [|done]. exists (id j, ie). split; [done|].
    by apply elem_of_map_to_list.
Qed.

(** The table that a snapshot's jobs rebuild. *)
Lemma snapshot_table s sent :
  JobsInv s -> JobIdx.Jobs (jobs s) sent -> (forall jid j, abs s !! jid = Some j -> fits j) ->
  let js := NewJobFromJobProto <$> sp_Jobs (createFrom sent s) in
  Forall live js /\ id <$> js ≡ₚ (map_to_list (jm (jobs s))).*1 /\ NoDup (id <$> js) /\
  list_to_map ((fun j => (id j, j)) <$> js) = rewrap <$> abs s.
Proof.
  intros HI Hs Hfit js. pose proof (fun j => sent_elem s sent j HI Hs) as Hel.
  assert (js = rewrap <$> omap (fun r => mjobs (mem s) !! r) sent) as ->.
  { subst js. simpl. rewrite <- list_fmap_compose. apply list_fmap_ext. intros i j Hj%list_elem_of_lookup_2.
    simpl. apply job_round_trip. apply Hel in Hj. by eapply Hfit. }
  assert (id <$> (rewrap <$> omap (fun r => mjobs (mem s) !! r) sent) ≡ₚ (map_to_list (jm (jobs s))).*1) as Hids.
  { rewrite <- list_fmap_compose, <- (sent_ids s sent HI Hs).
    erewrite list_fmap_ext; [done|]. intros i j _. apply rewrap_id. }
  assert (NoDup (id <$> (rewrap <$> omap (fun r => mjobs (mem s) !! r) sent))) as Hnd.
  { rewrite Hids. apply NoDup_fst_map_to_list. }
  split_and!; [|done|done|].
  - apply Forall_fmap, Forall_forall. intros j Hj%Hel. simpl. apply rewrap_live.
    by destruct (abs_entry _ _ _ HI Hj) as (? & ? & _ & _ & _ & _ & ? & _).
  - apply map_eq. intros i. apply option_eq. intros x.
    rewrite <- elem_of_list_to_map by (rewrite <- list_fmap_compose; exact Hnd).
    rewrite list_elem_of_fmap. setoid_rewrite list_elem_of_fmap. rewrite lookup_fmap, fmap_Some. split.
    + intros (y & [= -> ->] & j & -> & Hj%Hel). rewrite rewrap_id. eauto.
    + intros (j & Hj & ->). pose proof (abs_id _ _ _ HI Hj) as <-. exists (rewrap j).
      split; [by rewrite rewrap_id|]. exists j. by rewrite Hel.
Qed.

(** The clients sent are those of the client heap. *)
Lemma Entries_heap s : CInv s -> CliQueue.Entries (mem s) (clients s) ≡ₚ clientHeap s.
Proof.
  intros HC. pose proof (proj1 (ch_wf_alt _ _) (ci_hwf _ HC)) as [Hidx Hlive].
  assert (forall r, r ∈ CliQueue.Entries (mem s) (clients s) <->
    r ∈ registered s /\ exists c, mclis (mem s) !! r = Some c /\ 0 <= HeapIndex c) as Hel.
  { intros r. unfold CliQueue.Entries. rewrite list_elem_of_In, filter_In, <- list_elem_of_In.
    apply and_iff_compat_l. destruct (mclis (mem s) !! r) as [c|]; [|naive_solver]. rewrite Z.leb_le. naive_solver. }
  apply NoDup_Permutation.
  - unfold CliQueue.Entries. apply NoDup_ListNoDup, List.NoDup_filter, NoDup_ListNoDup. apply (qwf_NoDup (mem s)), HC.
  - by apply (ch_wf_NoDup (mem s)), HC.
  - intros r. rewrite Hel. split.
    + intros (_ & c & Hc & Hi). destruct (decide (r ∈ clientHeap s)) as [|Hn]; [done|].
      rewrite (ci_hidx _ HC _ _ Hc Hn) in Hi. lia.
    + intros Hr. split; [by apply (ci_hreg _ HC)|]. destruct (Hlive _ Hr) as [c Hc]. exists c. split; [done|].
      apply list_elem_of_lookup_1 in Hr as [i Hi]. apply Hidx in Hi. rewrite Hc in Hi. simplify_eq/=. lia.
Qed.

Lemma omap_positions (m : Mem) (h : list CliRef) k :
  (forall i r, h !! i = Some r -> HeapIndex <$> mclis m !! r = Some (Z.of_nat (k + i))) ->
  HeapIndex <$> omap (fun r => mclis m !! r) h = Z.of_nat <$> seq k (length h).
Proof.
  revert k. induction h as [|r h IH]; intros k Hh; [done|]. simpl. pose proof (Hh 0%nat r eq_refl) as Hr.
  destruct (mclis m !! r) as [c|]; [|done]. injection Hr as Hr. rewrite !fmap_cons. f_equal; [rewrite Hr; lia|].
  apply IH. intros i x Hi. rewrite (Hh (S i) x Hi). do 2 f_equal. lia.
Qed.

Definition snap_clients (s : localJSM) : list ClientResvEntry :=
  omap (fun r => mclis (mem s) !! r) (CliQueue.Entries (mem s) (clients s)).

Lemma snap_clients_elem s c :
  CInv s -> c ∈ snap_clients s <-> exists i r, clientHeap s !! i = Some r /\ mclis (mem s) !! r = Some c /\ HeapIndex c = Z.of_nat i.
Proof.
  intros HC. pose proof (proj1 (ch_wf_alt _ _) (ci_hwf _ HC)) as [Hidx _].
  unfold snap_clients. rewrite list_elem_of_omap. setoid_rewrite Entries_heap; [|done]. split.
  - intros (r & [i Hi]%list_elem_of_lookup_1 & Hc). exists i, r. split_and!; [done..|].
    apply Hidx in Hi. rewrite Hc in Hi. by injection Hi.
  - intros (i & r & Hi & Hc & _). exists r. split; [by eapply list_elem_of_lookup_2|done].
Qed.

(** The client entries of a snapshot of a state whose heap is not absurdly large. *)
Lemma snapshot_clients s sent :
  CInv s -> Z.of_nat (length (clientHeap s)) < 2 ^ 31 ->
  let cps := sp_Reservations (createFrom sent s) in
  NoDup (cp_ClientId <$> cps) /\ positions cps /\ tick_ordered cps /\ length cps = length (clientHeap s) /\
  (forall cp, cp ∈ cps -> exists c, c ∈ snap_clients s /\ cp = appendClientRsvEntry c /\ cp_HeapIndex cp = HeapIndex c).
Proof.
  intros HC Hlen cps. pose proof (proj1 (ch_wf_alt _ _) (ci_hwf _ HC)) as [Hidx Hlive].
  assert (forall c, c ∈ snap_clients s -> wrap_i32 (HeapIndex c) = HeapIndex c) as Hwrap.
  { intros c (i & r & Hi%lookup_lt_Some & _ & ->)%snap_clients_elem; [|done]. apply wrap_i32_id. unfold in_i32. lia. }
  assert (cps = appendClientRsvEntry <$> snap_clients s) as Hcps by done.
  assert (cp_HeapIndex <$> cps ≡ₚ Z.of_nat <$> seq 0 (length (clientHeap s))) as Hp.
  { rewrite Hcps, <- list_fmap_compose.
    rewrite (list_fmap_ext _ HeapIndex) by (intros i c Hc%list_elem_of_lookup_2; by apply Hwrap).
    unfold snap_clients. rewrite Entries_heap by done. rewrite (omap_positions _ _ 0); [done|].
    intros i r Hi. by apply Hidx. }
  assert (length cps = length (clientHeap s)) as Hl.
  { apply Permutation_length in Hp. rewrite !length_fmap, length_seq in Hp. done. }
  assert (forall cp, cp ∈ cps -> exists c, c ∈ snap_clients s /\ cp = appendClientRsvEntry c /\
    cp_HeapIndex cp = HeapIndex c) as Hback.
  { rewrite Hcps. intros cp (c & -> & Hc)%list_elem_of_fmap. exists c. split_and!; [done|done|]. by apply Hwrap. }
  split_and!; [|by unfold positions; rewrite Hl| |done|done].
  - rewrite Hcps, <- list_fmap_compose. unfold snap_clients. rewrite Entries_heap by done.
    pose proof (ch_wf_NoDup _ _ (ci_hwf _ HC)) as Hnd. pose proof (ci_hreg _ HC) as Hreg.
    revert Hnd Hreg. generalize (clientHeap s) as h. induction h as [|r h IH]; intros Hnd Hreg; [constructor|].
    apply NoDup_cons in Hnd as [Hni Hnd]. simpl. destruct (mclis (mem s) !! r) as [c|] eqn:Hc.
    2: { apply IH; [done|]. intros x Hx. apply Hreg. by right. }
    rewrite fmap_cons. apply NoDup_cons. split; [|apply IH; [done|intros x Hx; apply Hreg; by right]].
    intros (c' & E & (r' & Hr' & Hc')%list_elem_of_omap)%list_elem_of_fmap. simpl in E. apply Hni.
    rewrite (qwf_inj (mem s) (clients s) r r' (CliID c)); [done|apply HC|apply Hreg; left|apply Hreg; by right| |];
      unfold cid_of; rewrite ?Hc, ?Hc'; simpl; congruence.
  - intros a b k Ha Hb Hk Hib Hia. destruct (Hback _ Ha) as (ca & Hca & -> & Ea), (Hback _ Hb) as (cb & Hcb & -> & Eb).
    apply snap_clients_elem in Hca as (i & ra & Hra & Hca & Ia), Hcb as (i' & rb & Hrb & Hcb & Ib); [|done..].
    assert (i = parent k) as -> by lia. assert (i' = k) as -> by lia.
    pose proof (proj1 (ch_sorted_alt _ _ (ci_hwf _ HC)) (ci_hsorted _ HC) k ra rb ca cb Hk Hra Hrb Hca Hcb) as Hl0.
    exact Hl0.
Qed.

(** * The round trip *)

(** [s'] is what a snapshot of [s] restores: the table of jobs, the client heap
    position by position without the watched tubes, and nothing else. *)
Record restored_from (s s' : localJSM) : Prop := {
  sr_jobs : JobsInv s';
  sr_cli : CInv s';
  sr_abs : abs s' = rewrap <$> abs s;
  sr_stale k : no_stale (mem s') (heaps s' k);
  sr_max : (forall jid, is_Some (abs s' !! jid) -> jid <= maxJobID s') /\
    (maxJobID s' = 0 \/ is_Some (abs s' !! maxJobID s'));
  sr_tick : nextDelayTickAt s' = maxTime;
  sr_len : length (clientHeap s') = length (clientHeap s);
  sr_heap i r' c' : clientHeap s' !! i = Some r' -> mclis (mem s') !! r' = Some c' ->
    exists r c, clientHeap s !! i = Some r /\ mclis (mem s) !! r = Some c /\ c' = set_WatchedTubes [] c;
  sr_reg r : r ∈ registered s' -> r ∈ clientHeap s';
  sr_wait t : waiters s' t = []
}.

Lemma foldl_max (z : Z) (l : list Z) :
  (forall x, x ∈ l -> x <= foldl Z.max z l) /\ z <= foldl Z.max z l /\ (foldl Z.max z l = z \/ foldl Z.max z l ∈ l).
Proof.
  revert z. induction l as [|x l IH]; intros z; simpl.
  { split_and!; [by intros ? ?%elem_of_nil|lia|by left]. }
  destruct (IH (Z.max z x)) as (A & B & C). split_and!; [|lia|].
  - intros y [->|Hy]%elem_of_cons; [lia|auto].
  - destruct C as [C|C]; [|right; by right]. rewrite C.
    destruct (Z.max_spec z x) as [[_ ->]|[_ ->]]; [right; left|by left].
Qed.

(** The state after the clients have been restored. *)
Lemma enlisted_CInv s sent l' rs :
  CInv s -> Z.of_nat (length (clientHeap s)) < 2 ^ 31 ->
  let cps := sp_Reservations (createFrom sent s) in
  let l0 := set_l_clientHeap (CliHeap.newClientResvHeapWithSize (length cps)) (newLocalSnapshot NewJSM) in
  enlisted l0 l' rs cps -> ch_wf (l_mem l') (l_clientHeap l') -> ch_sorted (l_mem l') (l_clientHeap l') ->
  CInv (built l') /\ (forall r, r ∈ registered (built l') -> r ∈ clientHeap (built l')) /\
  length (l_clientHeap l') = length (clientHeap s) /\
  (forall i r' c', clientHeap (built l') !! i = Some r' -> mclis (mem (built l')) !! r' = Some c' ->
    exists r c, clientHeap s !! i = Some r /\ mclis (mem s) !! r = Some c /\ c' = set_WatchedTubes [] c).
Proof.
  intros HC Hlen cps l0 E Hwf Hs. destruct (snapshot_clients s sent HC Hlen) as (Hnd & Hp & Ho & Hl & Hback).
  fold cps in Hnd, Hp, Ho, Hl, Hback.
  assert (length (l_clientHeap l0) = length cps) as Hl0 by apply length_replicate.
  pose proof (fun i r => enlisted_at l0 l' rs cps i r E Hp Hl0) as Hat.
  assert (registered (built l') = rs) as Hreg by exact (en_view _ _ _ _ E).
  assert (forall r, r ∈ rs -> r ∈ l_clientHeap l') as Hin.
  { intros r [k Hk]%list_elem_of_lookup_1. destruct (Forall2_lookup_l _ _ _ _ _ (en_new _ _ _ _ E) Hk) as (cp & Hcp & _).
    eapply list_elem_of_lookup_2, (en_heap _ _ _ _ E); done. }
  assert (forall i r' c', l_clientHeap l' !! i = Some r' -> mclis (l_mem l') !! r' = Some c' ->
    exists r c, clientHeap s !! i = Some r /\ mclis (mem s) !! r = Some c /\ c' = set_WatchedTubes [] c) as Hheap.
  { intros i r' c' Hr' Hc'. destruct (Hat _ _ Hr') as (cp & Hcp & Hi & _ & Hc). simplify_eq.
    destruct (Hback _ Hcp) as (c & (i' & r & Hr & Hc0 & Hi')%snap_clients_elem & -> & Hw); [|done].
    assert (i' = i) as -> by lia. exists r, c. split_and!; [done|done|]. unfold NewClientFromProto, set_WatchedTubes.
    by rewrite Hw. }
  split_and!; [|intros r; rewrite Hreg; apply Hin|by rewrite (en_len _ _ _ _ E), Hl0, Hl|done].
  assert (forall t, wait_queue (tubes (built l')) t = CliQueue.newClientResvQueue) as Hwq.
  { intros t. unfold wait_queue, tube_state. simpl. rewrite (en_tubes _ _ _ _ E). done. }
  split; [apply E| | | |done|done| |].
  - intros t. rewrite Hwq. apply qwf_new.
  - intros t r Hr. unfold waiters in Hr. rewrite Hwq in Hr. by apply elem_of_nil in Hr.
  - intros r c Hr Hc Hw. rewrite Hreg in Hr. apply Hin in Hr. apply list_elem_of_lookup_1 in Hr as [i Hi].
    destruct (Hheap _ _ _ Hi Hc) as (r0 & c0 & Hr0 & Hc0 & ->). split_and!; [constructor|by intros t ?%elem_of_nil|].
    destruct (ci_out _ HC r0 c0) as (_ & _ & Hd); [by eapply (ci_hreg _ HC), list_elem_of_lookup_2|done|done|done].
  - intros r [i Hr]%list_elem_of_lookup_1. rewrite Hreg. by destruct (Hat _ _ Hr) as (_ & _ & _ & ? & _).
  - intros r c Hc Hni. destruct (en_only _ _ _ _ E _ _ Hc) as [Hc0|Hr]; [done|]. by apply Hin in Hr.
Qed.

(** The jobs of a restored table are the jobs the snapshot lists. *)
Lemma restored_dom s sent (T : gmap JobID Job) jid :
  JobsInv s -> T = rewrap <$> abs s ->
  id <$> (NewJobFromJobProto <$> sp_Jobs (createFrom sent s)) ≡ₚ (map_to_list (jm (jobs s))).*1 ->
  is_Some (T !! jid) <-> jid ∈ id <$> (NewJobFromJobProto <$> sp_Jobs (createFrom sent s)).
Proof.
  intros HI -> Hids. rewrite Hids, list_elem_of_fmap, lookup_fmap, fmap_is_Some. unfold abs. rewrite lookup_omap.
  split.
  - destruct (jm (jobs s) !! jid) as [ie|] eqn:Hie; [|by intros [? ?]]. intros _. exists (jid, ie).
    by rewrite elem_of_map_to_list.
  - intros ([x ie] & -> & Hie%elem_of_map_to_list). simpl. rewrite Hie. simpl.
    destruct (ji_idx _ _ _ HI _ _ Hie) as (j & _ & _ & -> & _). eauto.
Qed.

Lemma snapshot_round_trip s sent ctx1 ctx2 :
  Inv s -> JobIdx.Jobs (jobs s) sent -> (forall jid j, abs s !! jid = Some j -> fits j) ->
  Z.of_nat (length (clientHeap s)) < 2 ^ 31 -> uncancelled ctx1 -> uncancelled ctx2 ->
  exists s' l, RestoreSnapshotTo ctx1 ctx2 (NewSnapshotFrom sent s) NewJSM = OK s' l /\ restored_from s s'.
Proof.
  intros HI Hsent Hfit Hlen Hc1 Hc2. pose proof (inv_cli _ HI) as HC.
  destruct (snapshot_clients s sent HC Hlen) as (Hnd & Hp & Ho & Hl & _).
  destruct (snapshot_table s sent (inv_jobs _ HI) Hsent Hfit) as (Hlive & Hids & Hndj & Htab).
  unfold RestoreSnapshotTo, restoreTo, restoreCliRevEntries, NewSnapshotFrom.
  destruct (RestoreClients_spec ctx1 (sp_Reservations (createFrom sent s)) NewJSM) as (rs & l1 & Hop1 & E & Hwf & Hs);
    [done|apply (ji_mem _ _ _ (inv_jobs _ NewJSM_inv))|done..|].
  destruct (enlisted_CInv s sent l1 rs HC Hlen E Hwf Hs) as (HC1 & Hin1 & Hl1 & Hheap1).
  assert (JobsInv (built l1)) as HI1.
  { eapply jframe_inv; [apply (en_jobs _ _ _ _ E)|]. apply NewJSM_inv. }
  assert (abs (built l1) = ∅) as Ha1 by (rewrite (jframe_abs _ _ (en_jobs _ _ _ _ E)); done).
  unfold restoreJobs.
  destruct (RestoreJobs_spec ctx2 0 (sp_Jobs (createFrom sent s)) l1) as (l2 & Hop2 & R);
    [done|done|done|done|by intros; rewrite Ha1|].
  exists (built l2), l2. split.
  { rewrite bind_assoc, (bind_OK _ _ _ _ _ Hop1). cbn [await]. unfold ret at 1, bind at 1.
    by rewrite bind_assoc, (bind_OK _ _ _ _ _ Hop2). }
  destruct R as [R1 R2 R3 R4 R5 R6]. rewrite Ha1, map_union_empty, Htab in R2.
  pose proof R4 as [F1 F2 F3 F4]. pose proof (cframe_CInv _ _ R4 HC1) as HC2.
  assert (forall jid, is_Some (abs (built l2) !! jid) <-> jid ∈ id <$> (NewJobFromJobProto <$> sp_Jobs (createFrom sent s))) as Hdom.
  { intros jid. apply restored_dom; [apply HI|exact R2|exact Hids]. }
  split; [done|done|done| | | | | | |].
  - intros k. apply R6. rewrite (jf_heaps _ _ (en_jobs _ _ _ _ E)).
    assert (entries (heaps (built (newLocalSnapshot NewJSM)) k) = []) as Hk by (by destruct k).
    intros er j Her. replace (heaps (built _) k) with (heaps (built (newLocalSnapshot NewJSM)) k) in Her by done.
    rewrite Hk in Her. by apply elem_of_nil in Her.
  - change (maxJobID (built l2)) with (l_maxJobID l2). rewrite R3.
    assert (l_maxJobID l1 = 0) as -> by exact (jf_max _ _ (en_jobs _ _ _ _ E)).
    destruct (foldl_max 0 (id <$> (NewJobFromJobProto <$> sp_Jobs (createFrom sent s)))) as (A & _ & C). split.
    + intros jid Hj%Hdom. by apply A.
    + destruct C as [C|C]; [by left|right]. by apply Hdom.
  - change (nextDelayTickAt (built l2)) with (nextDelayTickAt (l_jsm l2)). rewrite R5.
    exact (jf_tick _ _ (en_jobs _ _ _ _ E)).
  - rewrite F2. exact Hl1.
  - intros i r' c'. rewrite F1, F2. apply Hheap1.
  - intros r. unfold registered. rewrite F2, F3. apply Hin1.
  - intros t. rewrite (cframe_waiters _ _ t HC1 R4). unfold waiters, wait_queue, tube_state. simpl.
    by rewrite (en_tubes _ _ _ _ E).
Qed.

Lemma rewrap_fields j :
  state (rewrap j) = state j /\ ttr (rewrap j) = ttr j /\ expiresAt (rewrap j) = expiresAt j /\ readyAt (rewrap j) = readyAt j.
Proof. by destruct j. Qed.

(** Without delayed jobs the restored state satisfies the whole invariant. *)
Lemma restored_inv s s' :
  Inv s -> restored_from s s' -> (forall jid j, abs s !! jid = Some j -> state j <> Delayed) -> Inv s'.
Proof.
  intros HI R Hnd.
  assert (forall jid j', abs s' !! jid = Some j' -> exists j, abs s !! jid = Some j /\ j' = rewrap j) as Hj.
  { intros jid j'. rewrite (sr_abs _ _ R), lookup_fmap, fmap_Some. done. }
  assert (forall r0 c0, r0 ∈ clientHeap s -> mclis (mem s) !! r0 = Some c0 ->
    exists r, r ∈ clientHeap s' /\ cid_of (mem s') r = Some (CliID c0)) as Hfind.
  { intros r0 c0 [i Hi]%list_elem_of_lookup_1 Hc0. destruct (lookup_lt_is_Some_2 (clientHeap s') i) as [r Hr].
    { rewrite (sr_len _ _ R). by eapply lookup_lt_Some. }
    exists r. split; [by eapply list_elem_of_lookup_2|].
    destruct (proj2 (proj1 (ch_wf_alt _ _) (ci_hwf _ (sr_cli _ _ R))) r) as [c Hc]; [by eapply list_elem_of_lookup_2|].
    destruct (sr_heap _ _ R _ _ _ Hr Hc) as (r1 & c1 & Hr1 & Hc1 & ->). simplify_eq. unfold cid_of. by rewrite Hc. }
  split; [apply R|apply R| | | | |].
  - intros r Hr c Hc. apply (sr_reg _ _ R) in Hr. split; [intros Hw|intros jid j' Ha Hk]; (split; [done|]);
      apply list_elem_of_lookup_1 in Hr as [i Hi]; destruct (sr_heap _ _ R _ _ _ Hi Hc) as (r0 & c0 & Hr0 & Hc0 & ->);
      pose proof (inv_timely _ HI r0 (ci_hreg _ (inv_cli _ HI) _ (list_elem_of_lookup_2 _ _ _ Hr0)) c0 Hc0) as [T1 T2].
    + by apply T1.
    + destruct (Hj _ _ Ha) as (j & Hj0 & ->). rewrite rewrap_key in Hk.
      rewrite (proj1 (proj2 (proj2 (rewrap_fields j)))). by eapply T2.
  - intros jid j' cid Ha Hk. destruct (Hj _ _ Ha) as (j & Hj0 & ->). rewrite rewrap_key in Hk.
    destruct (inv_own _ HI _ _ _ Hj0 Hk) as (r0 & Hr0 & Hcid). unfold cid_of in Hcid.
    destruct (mclis (mem s) !! r0) as [c0|] eqn:Hc0; [|done]. injection Hcid as <-.
    destruct (inv_timely _ HI r0 Hr0 c0 Hc0) as [_ T2]. destruct (T2 _ _ Hj0 Hk) as [Hh _].
    destruct (Hfind r0 c0 Hh Hc0) as (r & Hr & Hc). exists r. split; [by apply (ci_hreg _ (sr_cli _ _ R))|done].
  - intros jid j' Ha. destruct (Hj _ _ Ha) as (j & Hj0 & ->). destruct (rewrap_fields j) as (_ & -> & _).
    by eapply (inv_ttr _ HI).
  - intros jid j' Ha. destruct (Hj _ _ Ha) as (j & Hj0 & ->). destruct (rewrap_fields j) as (-> & _ & -> & _).
    by eapply (inv_exp _ HI).
  - intros jid j' Ha. destruct (Hj _ _ Ha) as (j & Hj0 & ->). destruct (rewrap_fields j) as (-> & _).
    intros Hst. by destruct (Hnd _ _ Hj0).
Qed.
