(* ===== verification/WrapJob.v ===== *)
(** The two implementations of the interface [Job]: [localJob] of [src/state/state.go] and
    [wrapJob] of [src/store/snapshot.go].

    Jobs that come out of a snapshot or over the network are [wrapJob]s, which keep the
    protobuf message and convert its integers on every access.  The rest of the library
    works on the record [Job], tagged with the implementation; here both types are given
    method by method, as instances of one interface, and related. *)
From stdpp Require Import base gmap list strings.
From Stdlib Require Import ZArith Lia.
From S2P Require Import Prelude Job JSM JobInv Snapshot Restore.
Local Open Scope Z_scope.

(** * The interface [Job] *)
Class JobIface (J : Type) : Type := {
  ID : J -> JobID; Priority : J -> Z; UpdatePriority : Z -> J -> Z * J; Delay : J -> Z;
  UpdateDelay : Z -> J -> Z * J; TTR : J -> Z; BodySize : J -> Z; Body : J -> slice; TubeName_ : J -> TubeName;
  CreatedAt : J -> Z; ReadyAt : J -> Z; UpdateReadyAt : Z -> J -> Z * J; State : J -> JobState;
  UpdateState : JobState -> J -> J; ExpiresAt : J -> Z; UpdateReservation : Z -> J -> Z * J;
  ReservedBy : J -> ClientID; UpdateReservedBy : ClientID -> J -> J; BuriedAt : J -> Z; ResetBuriedAt : J -> J;
  UpdateBuriedAt : Z -> J -> Z * J; ReserveCount : J -> Z; IncReserveCount : J -> J; TimeoutCount : J -> Z;
  IncTimeoutCount : J -> J; ReleaseCount : J -> Z; IncReleaseCount : J -> J; BuryCount : J -> Z;
  IncBuryCount : J -> J; KickCount : J -> Z; IncKickCount : J -> J
}.

(** A call of the interface and what it returns. *)
Inductive call : Type :=
| MID | MPriority | MUpdatePriority (newPriority : Z) | MDelay | MUpdateDelay (newDelay : Z) | MTTR | MBodySize
| MBody | MTubeName | MCreatedAt | MReadyAt | MUpdateReadyAt (nowSeconds : Z) | MState | MUpdateState (newState : JobState)
| MExpiresAt | MUpdateReservation (nowSeconds : Z) | MReservedBy | MUpdateReservedBy (clientID : ClientID)
| MBuriedAt | MResetBuriedAt | MUpdateBuriedAt (nowSeconds : Z) | MReserveCount | MIncReserveCount | MTimeoutCount
| MIncTimeoutCount | MReleaseCount | MIncReleaseCount | MBuryCount | MIncBuryCount | MKickCount | MIncKickCount.
Inductive value : Type := VInt (z : Z) | VStr (s : string) | VState (st : JobState) | VBody (b : slice) | VNone.

Definition invoke {J} `{JobIface J} (c : call) (j : J) : value * J :=
  let int (p : Z * J) := (VInt p.1, p.2) in
  match c with
  | MID => (VInt (ID j), j)
  | MPriority => (VInt (Priority j), j)
  | MUpdatePriority p => int (UpdatePriority p j)
  | MDelay => (VInt (Delay j), j)
  | MUpdateDelay d => int (UpdateDelay d j)
  | MTTR => (VInt (TTR j), j)
  | MBodySize => (VInt (BodySize j), j)
  | MBody => (VBody (Body j), j)
  | MTubeName => (VStr (TubeName_ j), j)
  | MCreatedAt => (VInt (CreatedAt j), j)
  | MReadyAt => (VInt (ReadyAt j), j)
  | MUpdateReadyAt now => int (UpdateReadyAt now j)
  | MState => (VState (State j), j)
  | MUpdateState st => (VNone, UpdateState st j)
  | MExpiresAt => (VInt (ExpiresAt j), j)
  | MUpdateReservation now => int (UpdateReservation now j)
  | MReservedBy => (VStr (ReservedBy j), j)
  | MUpdateReservedBy c => (VNone, UpdateReservedBy c j)
  | MBuriedAt => (VInt (BuriedAt j), j)
  | MResetBuriedAt => (VNone, ResetBuriedAt j)
  | MUpdateBuriedAt now => int (UpdateBuriedAt now j)
  | MReserveCount => (VInt (ReserveCount j), j)
  | MIncReserveCount => (VNone, IncReserveCount j)
  | MTimeoutCount => (VInt (TimeoutCount j), j)
  | MIncTimeoutCount => (VNone, IncTimeoutCount j)
  | MReleaseCount => (VInt (ReleaseCount j), j)
  | MIncReleaseCount => (VNone, IncReleaseCount j)
  | MBuryCount => (VInt (BuryCount j), j)
  | MIncBuryCount => (VNone, IncBuryCount j)
  | MKickCount => (VInt (KickCount j), j)
  | MIncKickCount => (VNone, IncKickCount j)
  end.
Fixpoint invoke_all {J} `{JobIface J} (cs : list call) (j : J) : list value * J :=
  match cs with
  | [] => ([], j)
  | c :: cs' => let '(v, j1) := invoke c j in let '(vs, j2) := invoke_all cs' j1 in (v :: vs, j2)
  end.

(** * [localJob] *)

(** The methods of the record [Job]; a setter returns the value it set. *)
Module localJob.
Definition UpdatePriority (newPriority : Z) (j : Job) : Z * Job :=
  let j' := Job.UpdatePriority newPriority j in (priority j', j').
Definition UpdateDelay (newDelay : Z) (j : Job) : Z * Job :=
  let j' := Job.UpdateDelay newDelay j in (delay j', j').
Definition UpdateReadyAt (nowSeconds : Z) (j : Job) : Z * Job :=
  let j' := Job.UpdateReadyAt nowSeconds j in (readyAt j', j').
Definition UpdateReservation (nowSeconds : Z) (j : Job) : Z * Job :=
  let j' := Job.UpdateReservation nowSeconds j in (expiresAt j', j').
Definition UpdateBuriedAt (nowSeconds : Z) (j : Job) : Z * Job :=
  let j' := Job.UpdateBuriedAt nowSeconds j in (buriedAt j', j').
End localJob.

#[export] Instance Job_iface : JobIface Job := {
  ID := id; Priority := priority; UpdatePriority := localJob.UpdatePriority; Delay := delay;
  UpdateDelay := localJob.UpdateDelay; TTR := ttr; BodySize := bodySize; Body := body; TubeName_ := tubeName;
  CreatedAt := createdAt; ReadyAt := readyAt; UpdateReadyAt := localJob.UpdateReadyAt; State := state;
  UpdateState := Job.UpdateState; ExpiresAt := expiresAt; UpdateReservation := localJob.UpdateReservation;
  ReservedBy := reservedBy; UpdateReservedBy := Job.UpdateReservedBy; BuriedAt := buriedAt; ResetBuriedAt := Job.ResetBuriedAt;
  UpdateBuriedAt := localJob.UpdateBuriedAt; ReserveCount := reserveCount; IncReserveCount := Job.IncReserveCount;
  TimeoutCount := timeoutCount; IncTimeoutCount := Job.IncTimeoutCount; ReleaseCount := releaseCount;
  IncReleaseCount := Job.IncReleaseCount; BuryCount := buryCount; IncBuryCount := Job.IncBuryCount;
  KickCount := kickCount; IncKickCount := Job.IncKickCount
}.

(** * [wrapJob] *)

(** Assignments to the fields of the message. *)
Section message_fields.
Definition set_jp_Priority (v : Z) (jp : JobProto) : JobProto :=
  mkJobProto (jp_Id jp) v (jp_Delay jp) (jp_Ttr jp) (jp_TubeName jp) (jp_CreatedAt jp) (jp_ReadyAt jp)
    (jp_ExpiresAt jp) (jp_State jp) (jp_ReservedBy jp) (jp_BodySize jp) (jp_Body jp) (jp_BuriedAt jp)
    (jp_ReserveCount jp) (jp_TimeoutCount jp) (jp_ReleaseCount jp) (jp_BuryCount jp) (jp_KickCount jp).
Definition set_jp_Delay (v : Z) (jp : JobProto) : JobProto :=
  mkJobProto (jp_Id jp) (jp_Priority jp) v (jp_Ttr jp) (jp_TubeName jp) (jp_CreatedAt jp) (jp_ReadyAt jp)
    (jp_ExpiresAt jp) (jp_State jp) (jp_ReservedBy jp) (jp_BodySize jp) (jp_Body jp) (jp_BuriedAt jp)
    (jp_ReserveCount jp) (jp_TimeoutCount jp) (jp_ReleaseCount jp) (jp_BuryCount jp) (jp_KickCount jp).
Definition set_jp_ReadyAt (v : Z) (jp : JobProto) : JobProto :=
  mkJobProto (jp_Id jp) (jp_Priority jp) (jp_Delay jp) (jp_Ttr jp) (jp_TubeName jp) (jp_CreatedAt jp) v
    (jp_ExpiresAt jp) (jp_State jp) (jp_ReservedBy jp) (jp_BodySize jp) (jp_Body jp) (jp_BuriedAt jp)
    (jp_ReserveCount jp) (jp_TimeoutCount jp) (jp_ReleaseCount jp) (jp_BuryCount jp) (jp_KickCount jp).
Definition set_jp_ExpiresAt (v : Z) (jp : JobProto) : JobProto :=
  mkJobProto (jp_Id jp) (jp_Priority jp) (jp_Delay jp) (jp_Ttr jp) (jp_TubeName jp) (jp_CreatedAt jp)
    (jp_ReadyAt jp) v (jp_State jp) (jp_ReservedBy jp) (jp_BodySize jp) (jp_Body jp) (jp_BuriedAt jp)
    (jp_ReserveCount jp) (jp_TimeoutCount jp) (jp_ReleaseCount jp) (jp_BuryCount jp) (jp_KickCount jp).
Definition set_jp_State (v : JobState) (jp : JobProto) : JobProto :=
  mkJobProto (jp_Id jp) (jp_Priority jp) (jp_Delay jp) (jp_Ttr jp) (jp_TubeName jp) (jp_CreatedAt jp)
    (jp_ReadyAt jp) (jp_ExpiresAt jp) v (jp_ReservedBy jp) (jp_BodySize jp) (jp_Body jp) (jp_BuriedAt jp)
    (jp_ReserveCount jp) (jp_TimeoutCount jp) (jp_ReleaseCount jp) (jp_BuryCount jp) (jp_KickCount jp).
Definition set_jp_ReservedBy (v : string) (jp : JobProto) : JobProto :=
  mkJobProto (jp_Id jp) (jp_Priority jp) (jp_Delay jp) (jp_Ttr jp) (jp_TubeName jp) (jp_CreatedAt jp)
    (jp_ReadyAt jp) (jp_ExpiresAt jp) (jp_State jp) v (jp_BodySize jp) (jp_Body jp) (jp_BuriedAt jp)
    (jp_ReserveCount jp) (jp_TimeoutCount jp) (jp_ReleaseCount jp) (jp_BuryCount jp) (jp_KickCount jp).
Definition set_jp_BuriedAt (v : Z) (jp : JobProto) : JobProto :=
  mkJobProto (jp_Id jp) (jp_Priority jp) (jp_Delay jp) (jp_Ttr jp) (jp_TubeName jp) (jp_CreatedAt jp)
    (jp_ReadyAt jp) (jp_ExpiresAt jp) (jp_State jp) (jp_ReservedBy jp) (jp_BodySize jp) (jp_Body jp) v
    (jp_ReserveCount jp) (jp_TimeoutCount jp) (jp_ReleaseCount jp) (jp_BuryCount jp) (jp_KickCount jp).
Definition set_jp_ReserveCount (v : Z) (jp : JobProto) : JobProto :=
  mkJobProto (jp_Id jp) (jp_Priority jp) (jp_Delay jp) (jp_Ttr jp) (jp_TubeName jp) (jp_CreatedAt jp)
    (jp_ReadyAt jp) (jp_ExpiresAt jp) (jp_State jp) (jp_ReservedBy jp) (jp_BodySize jp) (jp_Body jp)
    (jp_BuriedAt jp) v (jp_TimeoutCount jp) (jp_ReleaseCount jp) (jp_BuryCount jp) (jp_KickCount jp).
Definition set_jp_TimeoutCount (v : Z) (jp : JobProto) : JobProto :=
  mkJobProto (jp_Id jp) (jp_Priority jp) (jp_Delay jp) (jp_Ttr jp) (jp_TubeName jp) (jp_CreatedAt jp)
    (jp_ReadyAt jp) (jp_ExpiresAt jp) (jp_State jp) (jp_ReservedBy jp) (jp_BodySize jp) (jp_Body jp)
    (jp_BuriedAt jp) (jp_ReserveCount jp) v (jp_ReleaseCount jp) (jp_BuryCount jp) (jp_KickCount jp).
Definition set_jp_ReleaseCount (v : Z) (jp : JobProto) : JobProto :=
  mkJobProto (jp_Id jp) (jp_Priority jp) (jp_Delay jp) (jp_Ttr jp) (jp_TubeName jp) (jp_CreatedAt jp)
    (jp_ReadyAt jp) (jp_ExpiresAt jp) (jp_State jp) (jp_ReservedBy jp) (jp_BodySize jp) (jp_Body jp)
    (jp_BuriedAt jp) (jp_ReserveCount jp) (jp_TimeoutCount jp) v (jp_BuryCount jp) (jp_KickCount jp).
Definition set_jp_BuryCount (v : Z) (jp : JobProto) : JobProto :=
  mkJobProto (jp_Id jp) (jp_Priority jp) (jp_Delay jp) (jp_Ttr jp) (jp_TubeName jp) (jp_CreatedAt jp)
    (jp_ReadyAt jp) (jp_ExpiresAt jp) (jp_State jp) (jp_ReservedBy jp) (jp_BodySize jp) (jp_Body jp)
    (jp_BuriedAt jp) (jp_ReserveCount jp) (jp_TimeoutCount jp) (jp_ReleaseCount jp) v (jp_KickCount jp).
Definition set_jp_KickCount (v : Z) (jp : JobProto) : JobProto :=
  mkJobProto (jp_Id jp) (jp_Priority jp) (jp_Delay jp) (jp_Ttr jp) (jp_TubeName jp) (jp_CreatedAt jp)
    (jp_ReadyAt jp) (jp_ExpiresAt jp) (jp_State jp) (jp_ReservedBy jp) (jp_BodySize jp) (jp_Body jp)
    (jp_BuriedAt jp) (jp_ReserveCount jp) (jp_TimeoutCount jp) (jp_ReleaseCount jp) (jp_BuryCount jp) v.
End message_fields.

Module wrapJob.
(** [wrapJob] is the pointer to its message. *)
Definition wrapJob : Type := JobProto.
Implicit Types j : wrapJob.
Definition ID j : JobID := wrap_u64 (jp_Id j).
Definition Priority j : Z := jp_Priority j.
Definition UpdatePriority (newPriority : Z) j : Z * wrapJob :=
  let j := set_jp_Priority newPriority j in (jp_Priority j, j).
Definition Delay j : Z := jp_Delay j.
Definition UpdateDelay (newDelay : Z) j : Z * wrapJob :=
  let j := set_jp_Delay newDelay j in (jp_Delay j, j).
Definition TTR j : Z := jp_Ttr j.
Definition BodySize j : Z := jp_BodySize j.
Definition Body j : slice := jp_Body j.
Definition TubeName_ j : TubeName := jp_TubeName j.
Definition CreatedAt j : Z := jp_CreatedAt j.
Definition ReadyAt j : Z := jp_ReadyAt j.
Definition UpdateReadyAt (nowSeconds : Z) j : Z * wrapJob :=
  let j := set_jp_ReadyAt (wrap_i64 (nowSeconds + jp_Delay j)) j in (jp_ReadyAt j, j).
Definition State j : JobState := jp_State j.
Definition UpdateState (newState : JobState) j : wrapJob := set_jp_State newState j.
Definition UpdateReservedBy (clientID : ClientID) j : wrapJob := set_jp_ReservedBy clientID j.
Definition ExpiresAt j : Z := jp_ExpiresAt j.
Definition ReservedBy j : ClientID := jp_ReservedBy j.
Definition UpdateReservation (nowSeconds : Z) j : Z * wrapJob :=
  let j := set_jp_ExpiresAt (wrap_i64 (nowSeconds + jp_Ttr j)) j in (jp_ExpiresAt j, j).
Definition ResetBuriedAt j : wrapJob := set_jp_BuriedAt 0 j.
Definition UpdateBuriedAt (nowSeconds : Z) j : Z * wrapJob :=
  let j := set_jp_BuriedAt nowSeconds j in (jp_BuriedAt j, j).
Definition BuriedAt j : Z := jp_BuriedAt j.
Definition ReserveCount j : Z := jp_ReserveCount j.
Definition IncReserveCount j : wrapJob := set_jp_ReserveCount (wrap_u32 (jp_ReserveCount j + 1)) j.
Definition TimeoutCount j : Z := jp_TimeoutCount j.
Definition IncTimeoutCount j : wrapJob := set_jp_TimeoutCount (wrap_u32 (jp_TimeoutCount j + 1)) j.
Definition ReleaseCount j : Z := jp_ReleaseCount j.
Definition IncReleaseCount j : wrapJob := set_jp_ReleaseCount (wrap_u32 (jp_ReleaseCount j + 1)) j.
Definition BuryCount j : Z := jp_BuryCount j.
Definition IncBuryCount j : wrapJob := set_jp_BuryCount (wrap_u32 (jp_BuryCount j + 1)) j.
Definition KickCount j : Z := jp_KickCount j.
Definition IncKickCount j : wrapJob := set_jp_KickCount (wrap_u32 (jp_KickCount j + 1)) j.
End wrapJob.

#[export] Instance wrapJob_iface : JobIface JobProto := {
  ID := wrapJob.ID; Priority := wrapJob.Priority; UpdatePriority := wrapJob.UpdatePriority; Delay :=
  wrapJob.Delay; UpdateDelay := wrapJob.UpdateDelay; TTR := wrapJob.TTR; BodySize := wrapJob.BodySize; Body :=
  wrapJob.Body; TubeName_ := wrapJob.TubeName_; CreatedAt := wrapJob.CreatedAt; ReadyAt := wrapJob.ReadyAt;
  UpdateReadyAt := wrapJob.UpdateReadyAt; State := wrapJob.State; UpdateState := wrapJob.UpdateState; ExpiresAt
  := wrapJob.ExpiresAt; UpdateReservation := wrapJob.UpdateReservation; ReservedBy := wrapJob.ReservedBy;
  UpdateReservedBy := wrapJob.UpdateReservedBy; BuriedAt := wrapJob.BuriedAt; ResetBuriedAt :=
  wrapJob.ResetBuriedAt; UpdateBuriedAt := wrapJob.UpdateBuriedAt; ReserveCount := wrapJob.ReserveCount;
  IncReserveCount := wrapJob.IncReserveCount; TimeoutCount := wrapJob.TimeoutCount; IncTimeoutCount :=
  wrapJob.IncTimeoutCount; ReleaseCount := wrapJob.ReleaseCount; IncReleaseCount := wrapJob.IncReleaseCount;
  BuryCount := wrapJob.BuryCount; IncBuryCount := wrapJob.IncBuryCount; KickCount := wrapJob.KickCount;
  IncKickCount := wrapJob.IncKickCount
}.

(** * The implementations agree *)

(** The record [Job] tagged [WrapJob] is an exact account of [wrapJob]: every call returns
    the same and the results correspond again. *)
Lemma wrapJob_refines c (jp : JobProto) :
  invoke c (NewJobFromJobProto jp) = prod_map (fun v => v) NewJobFromJobProto (invoke c jp).
Proof. by destruct c, jp. Qed.

(** [UpdateState] forgets the time of burial of a [localJob] only. *)
Definition reset_first (c : call) (j : Job) : Prop :=
  match c with MUpdateState _ => state j = Buried -> buriedAt j = 0 | _ => True end.
Fixpoint resets_first (cs : list call) (j : Job) : Prop :=
  match cs with [] => True | c :: cs' => reset_first c j /\ resets_first cs' (invoke c j).2 end.

Lemma rewrap_invoke c j :
  reset_first c j -> invoke c (rewrap j) = prod_map (fun v => v) rewrap (invoke c j).
Proof.
  destruct c; try (by destruct j). unfold reset_first, invoke, prod_map, rewrap. simpl. unfold Job.UpdateState. simpl.
  intros Hb. destruct (impl j) eqn:Hi; destruct j; simpl in *; subst; [|done].
  case_decide as Hst; [|done]. by rewrite Hb.
Qed.

Lemma rewrap_invoke_all cs j :
  resets_first cs j -> invoke_all cs (rewrap j) = prod_map (fun v => v) rewrap (invoke_all cs j).
Proof.
  revert j. induction cs as [|c cs IH]; intros j; [done|]. intros [Hc Hcs]. cbn [invoke_all].
  rewrite (rewrap_invoke c j Hc). destruct (invoke c j) as [v j1]. cbn in *. rewrite (IH j1 Hcs).
  by destruct (invoke_all cs j1).
Qed.

Lemma wrapJob_refines_all cs (jp : JobProto) :
  invoke_all cs (NewJobFromJobProto jp) = prod_map (fun v => v) NewJobFromJobProto (invoke_all cs jp).
Proof.
  revert jp. induction cs as [|c cs IH]; intros jp; [done|]. cbn [invoke_all].
  rewrite (wrapJob_refines c jp). destruct (invoke c jp) as [v j1]. cbn. rewrite (IH j1).
  by destruct (invoke_all cs j1).
Qed.

(** * Restored jobs *)

(** C23: a job that went through its message behaves as before.  When its
    integers fit the message, any sequence of calls of the interface on the [wrapJob] returns
    what it returns on the job itself, and leaves a message that stands for the resulting job;
    the one condition is that a job with a time of burial leaves the Buried state only after
    [ResetBuriedAt].  Without the reset the two implementations differ: a [localJob] forgets
    the time, a [wrapJob] keeps it. *)
Theorem restored_jobs_behave cs j :
  fits j -> resets_first cs j ->
  (invoke_all cs (JobToJobProto j)).1 = (invoke_all cs j).1 /\
  NewJobFromJobProto (invoke_all cs (JobToJobProto j)).2 = rewrap (invoke_all cs j).2 /\
  (forall st, impl j = LocalJob -> state j = Buried ->
     (invoke_all [MUpdateState st; MBuriedAt] j).1 = [VNone; VInt 0] /\
     (invoke_all [MUpdateState st; MBuriedAt] (JobToJobProto j)).1 = [VNone; VInt (buriedAt j)]).
Proof.
  intros Hf Hr. pose proof (wrapJob_refines_all cs (JobToJobProto j)) as Hw.
  rewrite (job_round_trip j Hf), (rewrap_invoke_all cs j Hr) in Hw.
  split_and!.
  - exact (eq_sym (f_equal fst Hw)).
  - exact (eq_sym (f_equal snd Hw)).
  - intros st Hi Hb. destruct j. simpl in *. by subst.
Qed.

(** A buried job, kicked and reserved by a client. *)
Definition buried_job : Job :=
  mkJob LocalJob 7 10 0 60 3 (Some [Byte.x61; Byte.x62; Byte.x63]) "t" 100 100 Buried 0 "" 120 1 0 0 1 0.
Definition kick_and_reserve : list call :=
  [MResetBuriedAt; MUpdateState Ready; MIncKickCount; MUpdateReservation 200; MUpdateState Reserved;
   MUpdateReservedBy "c"; MIncReserveCount; MExpiresAt; MReservedBy; MBuriedAt; MKickCount].
Lemma restored_jobs_behave_witness :
  (invoke_all kick_and_reserve (JobToJobProto buried_job)).1 =
    [VNone; VNone; VNone; VInt 260; VNone; VNone; VNone; VInt 260; VStr "c"; VInt 0; VInt 1].
Proof.
  etransitivity.
  - apply (restored_jobs_behave kick_and_reserve buried_job).
    + unfold fits, in_u64, in_i32. simpl. lia.
    + repeat split; discriminate.
  - reflexivity.
Defined.
