(* ===== verification/Parse.v ===== *)
(** Framing of the client protocol: [src/beanstalkd/core/parse.go].

    Commands and job bodies end with the two bytes CR LF and arrive in chunks of
    any size.  [Scan] finds the first delimiter across chunk boundaries; the main
    lemma says that how the bytes were chunked makes no difference. *)
From stdpp Require Import base list strings.
From Stdlib Require Import ZArith Lia.
From Stdlib Require Strings.Byte.
From S2P Require Import Prelude.

Section framing.
Abbreviation bytes := (list Byte.byte).

#[local] Instance byte_eq_dec : EqDecision Byte.byte.
Proof. intros a b. exact (Byte.byte_eq_dec a b). Defined.

Definition CR : Byte.byte := Byte.x0d.
Definition LF : Byte.byte := Byte.x0a.

(** Errors of this package, and those of the reader. *)
Inductive perr : Type := ErrNoData | ErrDelimiterMissing | ErrIO (msg : string).

(** ** Readers *)

(** What successive calls of [Read] will find: bytes, or an error; at the end of
    the list the stream has ended. *)
Definition Reader : Type := list (bytes + string).
Definition EOF : string := "EOF".

(** [Read] into a buffer of [k] bytes. *)
Definition Read (k : nat) (rdr : Reader) : (bytes + string) * Reader :=
  match rdr with
  | [] => (inr EOF, [])
  | inr e :: rdr' => (inr e, rdr')
  | inl c :: rdr' => if length c <=? k then (inl c, rdr') else (inl (take k c), inl (drop k c) :: rdr')
  end.

(** The bytes still to come. *)
Definition data (rdr : Reader) : bytes := concat (omap (fun x => match x with inl c => Some c | inr _ => None end) rdr).

(** Every read delivers bytes. *)
Definition steady (rdr : Reader) : Prop := Forall (fun x => exists c, x = inl c /\ c <> []) rdr.

(** ** The delimiter *)
Definition starts_LF (b : bytes) : bool := match b with y :: _ => bool_decide (y = LF) | [] => false end.

(** [DelimRe.FindIndex]: the first CR LF. *)
Fixpoint split (b : bytes) : option (bytes * bytes) :=
  match b with
  | [] => None
  | x :: b' =>
    if bool_decide (x = CR) && starts_LF b' then Some ([], tail b')
    else match split b' with Some (l, r) => Some (x :: l, r) | None => None end
  end.

Definition ends_CR (b : bytes) : bool := bool_decide (last b = Some CR).

(** ** [Scan] *)
Definition readBufferSizeBytes : nat := 4 * 1024.
Definition MaxCmdSizeBytes : nat := 226.
Definition MaxJobDataSizeBytes : nat := 128 * 1024 + 2.

(** A triple of Go results; [None] as a slice is nil. *)
Definition scanned : Type := option bytes * option bytes * option perr.

(** The loop; every turn that does not return adds a byte to [buf]. *)
Fixpoint Scan_loop (fuel : nat) (rdr : Reader) (buf : bytes) (lastCR : bool) (bufSize limitBytes : nat)
    : option (scanned * Reader) :=
  match fuel with
  | 0 => None
  | S f =>
    if length buf <? limitBytes then
      match Read bufSize rdr with
      | (inr e, rdr') => Some ((None, None, Some (ErrIO e)), rdr')
      | (inl [], rdr') => Some ((None, Some buf, Some ErrNoData), rdr')
      | (inl b, rdr') =>
        if lastCR && starts_LF b then Some ((Some (take (length buf - 1) buf), Some (tail b), None), rdr')
        else match split b with
             | Some (lhs, rhs) => Some ((Some (buf ++ lhs), Some rhs, None), rdr')
             | None => Scan_loop f rdr' (buf ++ b) (ends_CR b) bufSize limitBytes
             end
      end
    else Some ((None, None, Some ErrDelimiterMissing), rdr)
  end.

Definition Scan (rdr : Reader) (b : bytes) (limitBytes : nat) : option (scanned * Reader) :=
  match split b with
  | Some (lhs, rhs) => Some ((Some lhs, Some rhs, None), rdr)
  | None => Scan_loop (S limitBytes) rdr b (ends_CR b) (Nat.min readBufferSizeBytes limitBytes) limitBytes
  end.

Definition ScanJobData (rdr : Reader) (b : bytes) (maxJobDataSizeBytes : nat) : option (scanned * Reader) :=
  Scan rdr b maxJobDataSizeBytes.
Definition ScanCmdLine (rdr : Reader) (b : bytes) : option (scanned * Reader) := Scan rdr b MaxCmdSizeBytes.

(** ** [Discard] *)
Definition discarded : Type := option bytes * option perr.

(** [Read] of [io.MultiReader(bytes.NewReader(b), rdr)]: the bytes of [b] come first. *)
Definition multi_Read (k : nat) (b : bytes) (rdr : Reader) : (bytes + string) * bytes * Reader :=
  match b with
  | [] => let '(r, rdr') := Read k rdr in (r, [], rdr')
  | _ => (inl (take k b), drop k b, rdr)
  end.

(** The loop; what is left of [b] when it returns is lost with the multi reader. *)
Fixpoint Discard_loop (fuel : nat) (b : bytes) (rdr : Reader) (lastCR : bool) : option (discarded * Reader) :=
  match fuel with
  | 0 => None
  | S f =>
    match multi_Read 1024 b rdr with
    | (inr e, _, rdr') => Some ((None, Some (ErrIO e)), rdr')
    | (inl [], _, rdr') => Some ((None, Some ErrNoData), rdr')
    | (inl c, b', rdr') =>
      if lastCR && starts_LF c then Some ((Some (tail c), None), rdr')
      else match split c with
           | Some (_, rhs) => Some ((Some rhs, None), rdr')
           | None => Discard_loop f b' rdr' (ends_CR c)
           end
    end
  end.

(** One turn per byte at most, and one for the end of the stream. *)
Definition Discard (rdr : Reader) (b : bytes) : option (discarded * Reader) :=
  Discard_loop (S (length b + length (data rdr))) b rdr false.

(** * The first delimiter *)
Lemma split_app_some b l r c : split b = Some (l, r) -> split (b ++ c) = Some (l, r ++ c).
Proof.
  revert l r. induction b as [|x b IH]; intros l r; [done|]. simpl.
  destruct b as [|y b].
  - simpl. rewrite andb_false_r. done.
  - change (starts_LF ((y :: b) ++ c)) with (starts_LF (y :: b)). destruct (bool_decide (x = CR) && starts_LF (y :: b)).
    + intros [= <- <-]. done.
    + destruct (split (y :: b)) as [[l' r']|]; [|done]. intros [= <- <-]. by rewrite (IH l' r').
Qed.

Lemma split_sound b l r : split b = Some (l, r) -> b = l ++ CR :: LF :: r.
Proof.
  revert l r. induction b as [|x b IH]; intros l r; [done|]. simpl.
  destruct (bool_decide (x = CR) && starts_LF b) eqn:E.
  - intros [= <- <-]. apply andb_true_iff in E as [->%bool_decide_eq_true E]. destruct b as [|y b]; [done|].
    simpl in E. apply bool_decide_eq_true in E as ->. done.
  - destruct (split b) as [[l' r']|]; [|done]. intros [= <- <-]. by rewrite (IH l' r').
Qed.

(** Where the delimiter is when bytes without one are followed by [c]. *)
Lemma split_app_none b c :
  split b = None ->
  split (b ++ c) =
    if ends_CR b && starts_LF c then Some (take (length b - 1) b, tail c)
    else match split c with Some (l, r) => Some (b ++ l, r) | None => None end.
Proof.
  unfold ends_CR. induction b as [|x b IH]; intros Hn; simpl.
  { by destruct (split c) as [[??]|]. }
  simpl in Hn. destruct (bool_decide (x = CR) && starts_LF b) eqn:E; [done|].
  assert (split b = None) as Hb by (by destruct (split b) as [[??]|]). specialize (IH Hb).
  destruct b as [|y b].
  - simpl. assert (bool_decide (Some x = Some CR) = bool_decide (x = CR)) as ->.
    { apply bool_decide_ext. split; congruence. }
    destruct (bool_decide (x = CR) && starts_LF c); [done|]. by destruct (split c) as [[??]|].
  - change (starts_LF ((y :: b) ++ c)) with (starts_LF (y :: b)). rewrite E, IH.
    change (last (x :: y :: b)) with (last (y :: b)).
    destruct (bool_decide (last (y :: b) = Some CR) && starts_LF c).
    + do 2 f_equal. simpl. rewrite Nat.sub_0_r. done.
    + by destruct (split c) as [[??]|].
Qed.

Lemma split_prefix b c l r : split b = None -> split (b ++ c) = Some (l, r) -> length b <= length l + 1.
Proof.
  intros Hn. rewrite (split_app_none b c Hn). case_match; [|case_match; [|done]; case_match]; intros [= <- <-].
  - rewrite length_take. lia.
  - rewrite length_app. lia.
Qed.

(** * Readers *)
Lemma Read_data k rdr c rdr' : Read k rdr = (inl c, rdr') -> data rdr = c ++ data rdr'.
Proof.
  destruct rdr as [|[x|e] rdr]; simpl; [done| |done]. destruct (length x <=? k); intros [= <- <-]; [done|].
  unfold data. simpl. by rewrite app_assoc, take_drop.
Qed.

Lemma Read_steady k rdr :
  steady rdr -> 0 < k -> rdr <> [] ->
  exists c rdr', Read k rdr = (inl c, rdr') /\ c <> [] /\ steady rdr'.
Proof.
  intros Hs Hk Hr. destruct Hs as [|x rdr (c & -> & Hc) Hs]; [done|]. simpl.
  destruct (length c <=? k) eqn:E; [eauto|]. apply Nat.leb_gt in E. eexists _, _. split; [done|].
  split; [destruct c, k; simpl in *; try done; lia|]. constructor; [|done]. eexists. split; [done|].
  intros Hd%(f_equal length). rewrite length_drop in Hd. simpl in Hd. lia.
Qed.

(** * [Scan] *)
Section scan.
Context (bufSize limitBytes : nat).

(** What the loop does with a chunk. *)
Lemma Scan_step f rdr buf b rdr' :
  split buf = None -> length buf < limitBytes -> Read bufSize rdr = (inl b, rdr') -> b <> [] ->
  Scan_loop (S f) rdr buf (ends_CR buf) bufSize limitBytes =
    match split (buf ++ b) with
    | Some (lhs, rhs) => Some ((Some lhs, Some rhs, None), rdr')
    | None => Scan_loop f rdr' (buf ++ b) (ends_CR (buf ++ b)) bufSize limitBytes
    end.
Proof.
  intros Hn Hlt Hr Hb. cbn [Scan_loop]. rewrite (proj2 (Nat.ltb_lt _ _) Hlt), Hr, (split_app_none buf b Hn).
  destruct b as [|y b]; [done|]. destruct (ends_CR buf && starts_LF (y :: b)); [done|].
  destruct (split (y :: b)) as [[lhs rhs]|]; [done|]. f_equal. unfold ends_CR. by rewrite last_app_cons.
Qed.

(** The fuel is enough, whatever the reader does. *)
Lemma Scan_loop_total f rdr buf :
  split buf = None -> limitBytes < f + length buf -> 0 < f ->
  exists res, Scan_loop f rdr buf (ends_CR buf) bufSize limitBytes = Some res.
Proof.
  revert rdr buf. induction f as [|f IH]; intros rdr buf Hn Hf Hpos; [lia|].
  destruct (length buf <? limitBytes) eqn:E; [|cbn [Scan_loop]; rewrite E; eauto]. apply Nat.ltb_lt in E.
  destruct (Read bufSize rdr) as [[[|y b]|e] rdr'] eqn:Hr.
  - cbn [Scan_loop]. rewrite (proj2 (Nat.ltb_lt _ _) E), Hr. eauto.
  - rewrite (Scan_step f rdr buf (y :: b) rdr') by done. destruct (split (buf ++ y :: b)) as [[? ?]|] eqn:Hs; [eauto|].
    apply IH; [done| |]; rewrite ?length_app; simpl; lia.
  - cbn [Scan_loop]. rewrite (proj2 (Nat.ltb_lt _ _) E), Hr. eauto.
Qed.

(** A line that is returned is the one up to the first delimiter of what was read. *)
Lemma Scan_loop_sound f rdr buf lhs rhs rdr' :
  split buf = None ->
  Scan_loop f rdr buf (ends_CR buf) bufSize limitBytes = Some ((Some lhs, Some rhs, None), rdr') ->
  exists c, data rdr = c ++ data rdr' /\ split (buf ++ c) = Some (lhs, rhs).
Proof.
  revert rdr buf. induction f as [|f IH]; intros rdr buf Hn; [done|].
  destruct (length buf <? limitBytes) eqn:E; [|cbn [Scan_loop]; by rewrite E]. apply Nat.ltb_lt in E.
  destruct (Read bufSize rdr) as [[[|y b]|e] rdr1] eqn:Hr.
  - cbn [Scan_loop]. by rewrite (proj2 (Nat.ltb_lt _ _) E), Hr.
  - rewrite (Scan_step f rdr buf (y :: b) rdr1) by done. rewrite (Read_data _ _ _ _ Hr).
    destruct (split (buf ++ y :: b)) as [[l r]|] eqn:Hs; [intros [= <- <- <-]; eauto|].
    intros (c & Hd & Hc)%IH; [|done]. exists ((y :: b) ++ c). rewrite Hd.
    split; [by rewrite <- app_assoc|]. by rewrite app_assoc.
  - cbn [Scan_loop]. by rewrite (proj2 (Nat.ltb_lt _ _) E), Hr.
Qed.

(** A delimiter within the limit is found. *)
Lemma Scan_loop_complete f rdr buf lhs rest :
  0 < bufSize -> steady rdr -> split buf = None -> limitBytes < f + length buf ->
  split (buf ++ data rdr) = Some (lhs, rest) -> length lhs + 2 <= limitBytes ->
  exists rhs rdr', Scan_loop f rdr buf (ends_CR buf) bufSize limitBytes = Some ((Some lhs, Some rhs, None), rdr') /\
    rhs ++ data rdr' = rest /\ steady rdr'.
Proof.
  intros Hk. revert rdr buf. induction f as [|f IH]; intros rdr buf Hst Hn Hf Hs Hl;
    pose proof (split_prefix _ _ _ _ Hn Hs) as Hlen; [lia|].
  destruct (Read_steady bufSize rdr Hst Hk) as (b & rdr1 & Hr & Hb & Hst1).
  { intros ->. unfold data in Hs. simpl in Hs. rewrite app_nil_r in Hs. congruence. }
  rewrite (Scan_step f rdr buf b rdr1) by (done || lia). rewrite (Read_data _ _ _ _ Hr), app_assoc in Hs.
  destruct (split (buf ++ b)) as [[l r]|] eqn:Hs1.
  - rewrite (split_app_some _ _ _ _ Hs1) in Hs. injection Hs as <- <-. eauto.
  - apply IH; [done|done| |done|done]. rewrite length_app. destruct b; [done|]. simpl. lia.
Qed.
End scan.

Lemma Scan_total rdr b limitBytes : exists res, Scan rdr b limitBytes = Some res.
Proof.
  unfold Scan. destruct (split b) as [[? ?]|] eqn:Hs; [eauto|]. apply Scan_loop_total; [done|lia..].
Qed.

Lemma Scan_sound rdr b limitBytes lhs rhs rdr' :
  Scan rdr b limitBytes = Some ((Some lhs, Some rhs, None), rdr') ->
  exists c, data rdr = c ++ data rdr' /\ split (b ++ c) = Some (lhs, rhs).
Proof.
  unfold Scan. destruct (split b) as [[l r]|] eqn:Hs.
  - intros [= <- <- <-]. exists []. split; [done|]. by rewrite app_nil_r.
  - by apply Scan_loop_sound.
Qed.

Lemma Scan_complete rdr b limitBytes lhs rest :
  steady rdr -> split (b ++ data rdr) = Some (lhs, rest) -> length lhs + 2 <= limitBytes ->
  exists rhs rdr', Scan rdr b limitBytes = Some ((Some lhs, Some rhs, None), rdr') /\
    rhs ++ data rdr' = rest /\ steady rdr'.
Proof.
  intros Hst Hs Hl. unfold Scan. destruct (split b) as [[l r]|] eqn:Hb.
  - rewrite (split_app_some _ _ _ _ Hb) in Hs. injection Hs as <- <-. eauto.
  - apply Scan_loop_complete; [|done|done|lia|done|done]. unfold readBufferSizeBytes. lia.
Qed.

(** * [Discard] *)
Lemma Discard_loop_spec f rdr buf :
  split buf = None -> length (data rdr) < f -> steady rdr ->
  match split (buf ++ data rdr) with
  | Some (_, rest) => exists rhs rdr', Discard_loop f [] rdr (ends_CR buf) = Some ((Some rhs, None), rdr') /\
      rhs ++ data rdr' = rest /\ steady rdr'
  | None => exists rdr', Discard_loop f [] rdr (ends_CR buf) = Some ((None, Some (ErrIO EOF)), rdr')
  end.
Proof.
  revert rdr buf. induction f as [|f IH]; intros rdr buf Hn Hf Hst; [lia|].
  destruct (decide (rdr = [])) as [->|Hne].
  { unfold data. simpl. rewrite app_nil_r, Hn. eauto. }
  destruct (Read_steady 1024 rdr Hst) as (c & rdr1 & Hr & Hc & Hst1); [lia|done|].
  cbn [Discard_loop multi_Read]. rewrite Hr. pose proof (Read_data _ _ _ _ Hr) as Hd. rewrite Hd, app_assoc.
  pose proof (split_app_none buf c Hn) as Hs. destruct c as [|y c]; [done|].
  destruct (ends_CR buf && starts_LF (y :: c)).
  { rewrite (split_app_some _ _ _ _ Hs). eauto. }
  destruct (split (y :: c)) as [[l r]|] eqn:Hsb.
  - rewrite (split_app_some _ _ _ _ Hs). eauto.
  - assert (ends_CR (y :: c) = ends_CR (buf ++ y :: c)) as -> by (unfold ends_CR; by rewrite last_app_cons).
    apply IH; [done| |done]. rewrite Hd, length_app in Hf. simpl in Hf. lia.
Qed.

(** [Discard] returns what follows the first delimiter, when the buffer fits one read. *)
Lemma Discard_spec rdr b :
  steady rdr -> length b <= 1024 ->
  match split (b ++ data rdr) with
  | Some (_, rest) => exists rhs rdr', Discard rdr b = Some ((Some rhs, None), rdr') /\ rhs ++ data rdr' = rest /\ steady rdr'
  | None => exists rdr', Discard rdr b = Some ((None, Some (ErrIO EOF)), rdr')
  end.
Proof.
  intros Hst Hb. unfold Discard. destruct b as [|x b].
  { apply (Discard_loop_spec _ rdr []); [done|simpl; lia|done]. }
  cbn [Discard_loop multi_Read]. rewrite take_ge, drop_ge by done. cbn [andb].
  destruct (split (x :: b)) as [[l r]|] eqn:Hs.
  - rewrite (split_app_some _ _ _ _ Hs). eauto.
  - apply Discard_loop_spec; [done|simpl; lia|done].
Qed.

(** The bytes of the buffer beyond the read that finds the delimiter are lost. *)
Lemma Discard_long rdr b l r : split (take 1024 b) = Some (l, r) -> Discard rdr b = Some ((Some r, None), rdr).
Proof.
  intros Hs. unfold Discard. destruct b as [|x b]; [done|]. cbn [Discard_loop multi_Read].
  change (take 1024 (x :: b)) with (x :: take 1023 b) in *. cbn [andb]. by rewrite Hs.
Qed.
End framing.
