(* ===== verification/Persist.v ===== *)
(** Writing a snapshot to the sink of the raft library and reading it back: [Persist],
    [readFull] and [RestoreSnapshotTo] of [src/store/snapshot.go].

    The protobuf codec and the sink are parameters. *)
From stdpp Require Import base gmap list strings.
From Stdlib Require Import ZArith Lia.
From Stdlib Require Strings.Byte.
From S2P Require Import Prelude Job JSM Snapshot Parse.
Local Open Scope Z_scope.

Abbreviation bytes := (list Byte.byte).

(** [raft.SnapshotSink] *)
Class SnapshotSink (K : Type) : Type := {
  sink_Write : bytes -> M string K unit;
  sink_Close : M string K unit;
  sink_Cancel : M string K unit
}.

Section persist.
(** [proto.Marshal] and [proto.Unmarshal] *)
Context (proto_Marshal : SnapshotProto -> bytes + string) (proto_Unmarshal : bytes -> SnapshotProto + string).
Context {K : Type} `{SnapshotSink K}.

Definition marshal (snap : SnapshotProto) : M string K bytes :=
  match proto_Marshal snap with inl b => ret b | inr e => raise e end.

(** A failure cancels the sink; the error of [Cancel] is only logged. *)
Definition cancel_with (e : string) : M string K unit := try sink_Cancel ;; raise e.
Definition Persist (snap : SnapshotProto) : M string K unit :=
  err <- try (b <- marshal snap ;; sink_Write b ;; sink_Close) ;;
  match err with
  | inl _ => ret tt
  | inr e => cancel_with e
  end.

(** [ioutil.ReadAll] *)
Fixpoint ReadAll (rdr : Reader) : bytes + string :=
  match rdr with
  | [] => inl []
  | inr e :: rdr' => if String.eqb e EOF then inl [] else inr e
  | inl c :: rdr' => match ReadAll rdr' with inl b => inl (c ++ b) | inr e => inr e end
  end.
Definition readFull (rdr : Reader) : SnapshotProto + string :=
  match ReadAll rdr with inl b => proto_Unmarshal b | inr e => inr e end.

(** [RestoreSnapshotTo] from its reader on; an error of the reader or the codec is a
    string. *)
Definition RestoreFrom (ctx1 ctx2 : Context_t) (rdr : Reader) (jsm : localJSM)
    : outcome error localSnapshot localJSM + string :=
  match readFull rdr with
  | inr e => inr e
  | inl snap => inl (RestoreSnapshotTo ctx1 ctx2 snap jsm)
  end.

Lemma ReadAll_steady rdr : steady rdr -> ReadAll rdr = inl (data rdr).
Proof. induction 1 as [|x rdr (c & -> & _) _ IH]; [done|]. simpl. rewrite IH. done. Qed.

(** ** What a sink promises *)
Class SinkLaws : Type := {
  (** what was written so far, and what is kept once the sink is done *)
  written : K -> bytes;
  stored : K -> option bytes;
  law_Write b k : returns (sink_Write b k) /\ forall k', sink_Write b k = OK tt k' -> written k' = written k ++ b;
  law_Close k : returns (sink_Close k) /\ forall k', sink_Close k = OK tt k' -> stored k' = Some (written k);
  law_Cancel k : exists k', final (sink_Cancel k) = Some k' /\ stored k' = None
}.
Context `{!SinkLaws}.

(** A snapshot is stored completely or not at all. *)
Lemma Persist_spec snap k :
  written k = [] ->
  match Persist snap k with
  | OK _ k' => exists b, proto_Marshal snap = inl b /\ stored k' = Some b
  | ERR _ k' => stored k' = None
  | PANIC | DIVERGE => False
  end.
Proof.
  intros Hk. assert (forall (e : string) k1, exists k2, cancel_with e k1 = ERR e k2 /\
    stored k2 = None) as Hc.
  { intros e k1. destruct (law_Cancel k1) as (k2 & Hf & Hs). exists k2. unfold cancel_with, bind, try. by destruct (sink_Cancel k1); simplify_eq/=. }
  assert (Persist snap k = match (b <- marshal snap ;; sink_Write b ;; sink_Close) k with
    | OK _ k' => OK tt k' | ERR e k1 => cancel_with e k1 | PANIC => PANIC | DIVERGE => DIVERGE end) as ->.
  { unfold Persist, bind at 1, try at 1. by destruct ((b <- marshal snap ;; sink_Write b ;; sink_Close) k). }
  unfold bind, marshal, ret, raise. destruct (proto_Marshal snap) as [b|e]; [|by destruct (Hc e k) as (k2 & -> & ?)].
  destruct (law_Write b k) as [Hr Hw].
  destruct (sink_Write b k) as [[] k1|e k1| |]; try done; [|by destruct (Hc e k1) as (k2 & -> & ?)]. specialize (Hw k1 eq_refl).
  destruct (law_Close k1) as [Hr' Hcl]. destruct (sink_Close k1) as [[] k2|e k2| |]; try done; [|by destruct (Hc e k2) as (k3 & -> & ?)].
  exists b. split; [done|]. by rewrite (Hcl k2 eq_refl), Hw, Hk.
Qed.
End persist.

(** * A codec and a sink *)

(** Messages are countable, which gives a codec. *)
#[export] Instance byte_eq_dec : EqDecision Byte.byte.
Proof. intros a b. exact (Byte.byte_eq_dec a b). Defined.
#[export] Instance byte_countable : Countable Byte.byte := inj_countable Byte.to_N Byte.of_N Byte.of_to_N.
Definition state_index (st : JobState) : N :=
  match st with Initial => 0 | Ready => 1 | Reserved => 2 | Buried => 3 | Delayed => 4 | Deleted => 5 end.
Definition index_state (n : N) : JobState :=
  match n with 0 => Initial | 1 => Ready | 2 => Reserved | 3 => Buried | 4 => Delayed | _ => Deleted end%N.
#[export] Instance state_countable : Countable JobState.
Proof. refine (inj_countable' state_index index_state _). by intros []. Defined.
#[export] Instance JobProto_eq_dec : EqDecision JobProto.
Proof. solve_decision. Defined.
#[export] Instance JobProto_countable : Countable JobProto.
Proof.
  refine (inj_countable' (fun p => (jp_Id p, jp_Priority p, jp_Delay p, jp_Ttr p, jp_TubeName p, jp_CreatedAt p, jp_ReadyAt p,
      jp_ExpiresAt p, jp_State p, (jp_ReservedBy p, jp_BodySize p, jp_Body p, jp_BuriedAt p, jp_ReserveCount p, jp_TimeoutCount p,
      jp_ReleaseCount p, jp_BuryCount p, jp_KickCount p)))
    (fun '(a1, a2, a3, a4, a5, a6, a7, a8, a9, (b1, b2, b3, b4, b5, b6, b7, b8, b9)) =>
      mkJobProto a1 a2 a3 a4 a5 a6 a7 a8 a9 b1 b2 b3 b4 b5 b6 b7 b8 b9) _).
  by intros [].
Defined.
#[export] Instance CliProto_eq_dec : EqDecision ClientResvEntryProto.
Proof. solve_decision. Defined.
#[export] Instance CliProto_countable : Countable ClientResvEntryProto.
Proof.
  refine (inj_countable' (fun p => (cp_ClientId p, cp_ResvDeadlineAt p, cp_IsWaitingForResv p, cp_TickAt p, cp_ReqId p,
      cp_HeapIndex p, cp_WatchedTube p))
    (fun '(a, b, c, d, e, f, g) => mkCliProto a b c d e f g) _).
  by intros [].
Defined.
#[export] Instance SnapshotProto_eq_dec : EqDecision SnapshotProto.
Proof. solve_decision. Defined.
#[export] Instance SnapshotProto_countable : Countable SnapshotProto.
Proof. refine (inj_countable' (fun p => (sp_Jobs p, sp_Reservations p)) (fun '(a, b) => mkSnapshotProto a b) _). by intros []. Defined.

Fixpoint bits (p : positive) : bytes :=
  match p with xH => [] | xO p => Byte.x00 :: bits p | xI p => Byte.x01 :: bits p end.
Fixpoint unbits (b : bytes) : positive :=
  match b with [] => xH | Byte.x00 :: b => xO (unbits b) | _ :: b => xI (unbits b) end.
Definition bit_Marshal (m : SnapshotProto) : bytes + string := inl (bits (encode m)).
Definition bit_Unmarshal (b : bytes) : SnapshotProto + string :=
  match decode (unbits b) with Some m => inl m | None => inr "malformed message"%string end.
Lemma bit_codec m b : bit_Marshal m = inl b -> bit_Unmarshal b = inl m.
Proof.
  intros [= <-]. unfold bit_Unmarshal. assert (forall p, unbits (bits p) = p) as -> by (induction p; simpl; congruence).
  by rewrite decode_encode.
Qed.

(** A file that appears when it is closed. *)
Definition file_sink : SnapshotSink (bytes * option bytes) := {|
  sink_Write b k := OK tt (k.1 ++ b, k.2);
  sink_Close k := OK tt (k.1, Some k.1);
  sink_Cancel k := OK tt (k.1, None)
|}.
Definition file_laws : @SinkLaws _ file_sink.
Proof.
  refine {| written := fst; stored := snd |}; simpl.
  - intros b k. split; [done|]. by intros k' [= <-].
  - intros k. split; [done|]. by intros k' [= <-].
  - intros k. by eexists.
Defined.
