(* ===== verification/CmdData.v ===== *)
(** Command lines: [src/beanstalkd/core/cmd_data.go] and [cmd_type.go].

    A line is a command word and its arguments.  The regular expressions of the
    source are small enough to be written as functions on strings; the numbers go
    through [strconv].  The main lemma is a round trip: a line printed from
    arguments in range parses to these arguments. *)
From stdpp Require Import base gmap list strings.
From Stdlib Require Import ZArith Lia DecimalString DecimalN Ascii.
From S2P Require Import Prelude.
Local Open Scope Z_scope.

(** * [CmdType] *)
Module Cmd.
Inductive CmdType : Type :=
| Unknown | Bury | Delete | Ignore | Kick | KickJob | ListTubes | ListTubeUser | PauseTube | Peek
| PeekBuried | PeekDelayed | PeekReady | Put | Quit | Release | Reserve | ReserveJob
| ReserveWithTimeout | Stats | StatsJob | StatsTube | Touch | Use | Watch | Max.

#[export] Instance CmdType_eq_dec : EqDecision CmdType.
Proof. solve_decision. Defined.

(** The constants in order. *)
Definition all : list CmdType :=
  [Unknown; Bury; Delete; Ignore; Kick; KickJob; ListTubes; ListTubeUser; PauseTube; Peek;
   PeekBuried; PeekDelayed; PeekReady; Put; Quit; Release; Reserve; ReserveJob;
   ReserveWithTimeout; Stats; StatsJob; StatsTube; Touch; Use; Watch; Max].
Fixpoint index_of (c : CmdType) (l : list CmdType) : nat :=
  match l with [] => 0 | x :: l' => if decide (x = c) then 0 else S (index_of c l') end%nat.
Definition iota (c : CmdType) : nat := index_of c all.

(** The generated [String] method. *)
Definition CmdType_name : string :=
  "UnknownBuryDeleteIgnoreKickKickJobListTubesListTubeUserPauseTubePeekPeekBuriedPeekDelayedPeekReadyPutQuitReleaseReserveReserveJobReserveWithTimeoutStatsStatsJobStatsTubeTouchUseWatchMax".
Definition CmdType_index : list nat :=
  [0; 7; 11; 17; 23; 27; 34; 43; 55; 64; 68; 78; 89; 98; 101; 105; 112; 119; 129; 147; 152; 160; 169;
   174; 177; 182; 185]%nat.
Definition String (c : CmdType) : string :=
  let lo := CmdType_index !!! iota c in
  let hi := CmdType_index !!! S (iota c) in
  String.substring lo (hi - lo) CmdType_name.

Definition IsUpper (c : Ascii.ascii) : bool :=
  let n := Ascii.nat_of_ascii c in ((65 <=? n) && (n <=? 90))%nat.
Definition ToLower (c : Ascii.ascii) : Ascii.ascii :=
  if IsUpper c then Ascii.ascii_of_nat (Ascii.nat_of_ascii c + 32) else c.

(** [i] is true past the first character. *)
Fixpoint kebab (i : bool) (s : string) : string :=
  match s with
  | EmptyString => EmptyString
  | String.String ch s' =>
    let rest := String.String (ToLower ch) (kebab true s') in
    if IsUpper ch && i then String.String "-"%char rest else rest
  end.
Definition kebabCase (s : string) : string := kebab false s.

(** The map that [init] fills, from [Unknown + 1] to [Max - 1]. *)
Definition commandTypeStrings : gmap string CmdType :=
  list_to_map ((fun c => (kebabCase (String c), c)) <$> take 24 (drop 1 all)).
End Cmd.
Export (hints) Cmd.
Import Cmd.

(** * Errors and results *)
Inductive cerr : Type := ErrBadFormat | ErrJobSizeTooBig | ErrCmdTokensMissing | ErrCmdNotFound.

Record CmdData : Type := mkCmdData {
  cd_CmdType : CmdType;
  cd_Args : string;
  cd_Data : option (list Byte.byte);
  cd_NeedData : bool
}.

Record putArg : Type := mkPutArg {
  pa_pri : Z; pa_delay : Z; pa_ttr : Z; pa_size : Z; pa_data : option (list Byte.byte)
}.
Record releaseArg : Type := mkReleaseArg { ra_id : Z; ra_pri : Z; ra_delay : Z }.
Record buryArg : Type := mkBuryArg { ba_id : Z; ba_pri : Z }.

(** * Numbers *)

(** [strconv.ParseUint(s, 10, bits)] *)
Definition ParseUint (s : string) (bits : Z) : option Z :=
  match NilZero.uint_of_string s with
  | None => None
  | Some d => let n := Z.of_N (N.of_uint d) in if n <? 2 ^ bits then Some n else None
  end.
(** [strconv.ParseInt(s, 10, bits)]: an optional sign and digits. *)
Definition ParseInt (s : string) (bits : Z) : option Z :=
  let signed neg s' :=
    match NilZero.uint_of_string s' with
    | None => None
    | Some d =>
      let n := Z.of_N (N.of_uint d) in
      if (neg : bool) then if n <=? 2 ^ (bits - 1) then Some (- n) else None
      else if n <? 2 ^ (bits - 1) then Some n else None
    end in
  match s with
  | String.String "-"%char s' => signed true s'
  | String.String "+"%char s' => signed false s'
  | _ => signed false s
  end.
Definition Atoi (s : string) : option Z := ParseInt s 64.

(** [fmt.Sprintf("%d", n)] of a number that is not negative. *)
Definition fmt_d (n : Z) : string := NilZero.string_of_uint (N.to_uint (Z.to_N n)).

(** * The regular expressions *)

(** [\s] and [\d] *)
Definition is_space (c : Ascii.ascii) : bool :=
  let n := Ascii.nat_of_ascii c in
  ((n =? 9) || (n =? 10) || (n =? 12) || (n =? 13) || (n =? 32))%nat.
Definition is_digit (c : Ascii.ascii) : bool :=
  let n := Ascii.nat_of_ascii c in ((48 <=? n) && (n <=? 57))%nat.
Fixpoint all_chars (p : Ascii.ascii -> bool) (s : string) : bool :=
  match s with EmptyString => true | String.String c s' => p c && all_chars p s' end.
(** [^\d+$] *)
Definition is_digits (s : string) : bool := negb (String.eqb s "") && all_chars is_digit s.

(** [spaceRe.ReplaceAllLiteralString(s, "")] for [(\s{2,}|\s+(^|$))]: runs of two
    or more spaces go, and one space at the end; a single space elsewhere stays.
    So a space stays when neither neighbour is a space and one follows. *)
Definition space_or_end (s : string) : bool :=
  match s with EmptyString => true | String.String c _ => is_space c end.
Fixpoint strip (prev_space : bool) (s : string) : string :=
  match s with
  | EmptyString => EmptyString
  | String.String c s' =>
    if is_space c && (prev_space || space_or_end s') then strip true s'
    else String.String c (strip (is_space c) s')
  end.

(** [splitRe.Split(s, 2)]: at the first space. *)
Fixpoint split2 (s : string) : list string :=
  match s with
  | EmptyString => [""]
  | String.String c s' =>
    if is_space c then [""; s']
    else match split2 s' with
         | w :: ws => String.String c w :: ws
         | [] => []
         end
  end%string.

(** The pieces between blanks. *)
Fixpoint fields (s : string) : list string :=
  match s with
  | EmptyString => [""]
  | String.String c s' =>
    if Ascii.eqb c " "%char then "" :: fields s'
    else match fields s' with
         | f :: fs => String.String c f :: fs
         | [] => []
         end
  end%string.

Abbreviation tokenMap := (gmap string string).

(** [matchNamedGroups] with an expression [^(?P<a>\d+) (?P<b>\d+) ...$]. *)
Definition match_digits (names : list string) (args : string) : option tokenMap :=
  let fs := fields args in
  if ((length fs =? length names)%nat && forallb is_digits fs) then Some (list_to_map (zip names fs)) else None.
Definition putRe : string -> option tokenMap := match_digits ["pri"; "delay"; "ttr"; "bytes"]%string.
Definition idArgRe : string -> option tokenMap := match_digits ["id"]%string.
Definition reserveWithTimeoutRe : string -> option tokenMap := match_digits ["seconds"]%string.
Definition buryArgRe : string -> option tokenMap := match_digits ["id"; "pri"]%string.
Definition kickNArgRe : string -> option tokenMap := match_digits ["bound"]%string.
Definition releaseArgRe : string -> option tokenMap := match_digits ["id"; "pri"; "delay"]%string.

(** [[a-zA-Z0-9+\/;.$_()]], and the same with the dash. *)
Definition tube_first (c : Ascii.ascii) : bool :=
  let n := Ascii.nat_of_ascii c in
  (((97 <=? n) && (n <=? 122)) || ((65 <=? n) && (n <=? 90)) || ((48 <=? n) && (n <=? 57)) ||
   existsb (Nat.eqb n) [43; 47; 59; 46; 36; 95; 40; 41])%nat.
Definition tube_next (c : Ascii.ascii) : bool := tube_first c || Ascii.eqb c "-"%char.
Definition tubeArgRe (args : string) : option tokenMap :=
  match args with
  | String.String c s' =>
    if tube_first c && all_chars tube_next s' && (String.length s' <=? 199)%nat
    then Some {[ "tube"%string := args ]} else None
  | EmptyString => None
  end.

(** [tm["name"]] *)
Definition tm_get (tm : tokenMap) (name : string) : string := default ""%string (tm !! name).

(** * The arguments *)
Definition NewPutArg (data : CmdData) : putArg + cerr :=
  match putRe (cd_Args data) with
  | None => inr ErrBadFormat
  | Some tm =>
    match ParseUint (tm_get tm "pri") 32 with None => inr ErrBadFormat | Some pri =>
    match ParseInt (tm_get tm "delay") 64 with None => inr ErrBadFormat | Some delay =>
    match Atoi (tm_get tm "ttr") with None => inr ErrBadFormat | Some ttr =>
    match Atoi (tm_get tm "bytes") with None => inr ErrBadFormat | Some bytes =>
      inl (mkPutArg pri delay ttr bytes (cd_Data data))
    end end end end
  end.

Definition NewTubeArg (data : CmdData) : string + cerr :=
  match tubeArgRe (cd_Args data) with
  | None => inr ErrBadFormat
  | Some tm => inl (tm_get tm "tube")
  end.

Definition NewIDArg (data : CmdData) : Z + cerr :=
  match idArgRe (cd_Args data) with
  | None => inr ErrBadFormat
  | Some tm => match ParseUint (tm_get tm "id") 64 with None => inr ErrBadFormat | Some i => inl i end
  end.

Definition NewReserveWithTimeoutArg (data : CmdData) : Z + cerr :=
  match reserveWithTimeoutRe (cd_Args data) with
  | None => inr ErrBadFormat
  | Some tm => match Atoi (tm_get tm "seconds") with None => inr ErrBadFormat | Some n => inl n end
  end.

Definition NewBuryArg (data : CmdData) : buryArg + cerr :=
  match buryArgRe (cd_Args data) with
  | None => inr ErrBadFormat
  | Some tm =>
    match ParseUint (tm_get tm "id") 64 with None => inr ErrBadFormat | Some i =>
    match ParseUint (tm_get tm "pri") 32 with None => inr ErrBadFormat | Some p => inl (mkBuryArg i p)
    end end
  end.

Definition NewKickNArg (data : CmdData) : Z + cerr :=
  match kickNArgRe (cd_Args data) with
  | None => inr ErrBadFormat
  | Some tm => match Atoi (tm_get tm "bound") with None => inr ErrBadFormat | Some n => inl n end
  end.

Definition NewReleaseArg (data : CmdData) : releaseArg + cerr :=
  match releaseArgRe (cd_Args data) with
  | None => inr ErrBadFormat
  | Some tm =>
    match ParseUint (tm_get tm "id") 64 with None => inr ErrBadFormat | Some i =>
    match ParseUint (tm_get tm "pri") 32 with None => inr ErrBadFormat | Some p =>
    match ParseInt (tm_get tm "delay") 64 with None => inr ErrBadFormat | Some d => inl (mkReleaseArg i p d)
    end end end
  end.

(** * [ParseCommandLine] *)
Definition ParseCommandLine (cmdLine : string) (maxJobDataSizeBytes : Z) : CmdData + cerr :=
  let s := strip false cmdLine in
  let tokens := split2 s in
  match tokens with
  | [] => inr ErrCmdTokensMissing
  | t0 :: ts =>
    if (match ts with [] => true | _ => false end && String.eqb t0 "") then inr ErrCmdTokensMissing else
    match commandTypeStrings !! t0 with
    | None => inr ErrCmdNotFound
    | Some c =>
      let args := match ts with [a] => a | _ => ""%string end in
      if decide (c = Put) then
        let cd := mkCmdData c args (Some []) true in
        match NewPutArg cd with
        | inr e => inr e
        | inl arg => if maxJobDataSizeBytes <? pa_size arg then inr ErrJobSizeTooBig else inl cd
        end
      else inl (mkCmdData c args None false)
    end
  end.

(** * Lines made of words *)
Definition word (w : string) : Prop := w <> ""%string /\ all_chars (fun c => negb (is_space c)) w = true.
(** The words with single blanks between them. *)
Abbreviation line := (String.concat " "%string).

Section words.
Local Open Scope string_scope.

Lemma word_cons c w : word (String.String c w) -> is_space c = false /\ (w = "" \/ word w).
Proof.
  intros [_ Hw]. simpl in Hw. apply andb_true_iff in Hw as [Hc%negb_true_iff Hw]. split; [done|].
  destruct w; [by left|right]. split; done.
Qed.

Lemma line_cons w v ws : line (w :: v :: ws) = w ++ String.String " "%char (line (v :: ws)).
Proof. done. Qed.

Lemma strip_word p w s : word w -> strip p (w ++ s) = w ++ strip false s.
Proof.
  revert p. induction w as [|c w IH]; intros p Hw; [by destruct Hw|].
  apply word_cons in Hw as [Hc Hw]. simpl. rewrite Hc. simpl.
  destruct Hw as [->|Hw]; [done|]. by rewrite IH.
Qed.

Lemma strip_line ws : Forall word ws -> strip false (line ws) = line ws.
Proof.
  induction 1 as [|w ws Hw Hws IH]; [done|]. destruct ws as [|v ws].
  - simpl. pose proof (strip_word false w "" Hw) as Hs. simpl in Hs.
    assert (forall x, x ++ "" = x) as Hnil; [|by rewrite !Hnil in Hs].
    induction x as [|a x IHx]; [done|]. change (String.String a (x ++ "") = String.String a x). by rewrite IHx.
  - rewrite line_cons, strip_word by done. f_equal. cbn [strip].
    apply Forall_cons in Hws as [Hv _]. destruct v as [|c v]; [by destruct Hv|].
    apply word_cons in Hv as [Hc _].
    assert (space_or_end (line (String.String c v :: ws)) = false) as ->.
    { destruct ws; simpl; done. }
    simpl orb. rewrite andb_false_r. f_equal. change (is_space " "%char) with true.
    rewrite <- IH at 2. destruct ws; simpl; by rewrite Hc.
Qed.

Lemma split2_word w s : word w -> split2 (w ++ String.String " "%char s) = [w; s].
Proof.
  induction w as [|c w IH]; intros Hw; [by destruct Hw|]. apply word_cons in Hw as [Hc Hw]. simpl. rewrite Hc.
  destruct Hw as [->|Hw]; [done|]. by rewrite IH.
Qed.

Lemma fields_word w : word w -> fields w = [w].
Proof.
  induction w as [|c w IH]; intros Hw; [by destruct Hw|]. apply word_cons in Hw as [Hc Hw]. simpl.
  destruct (Ascii.eqb_spec c " "%char) as [->|_]; [done|]. destruct Hw as [->|Hw]; [done|]. by rewrite IH.
Qed.

Lemma fields_word_app w s : word w -> fields (w ++ String.String " "%char s) = w :: fields s.
Proof.
  induction w as [|c w IH]; intros Hw; [by destruct Hw|]. apply word_cons in Hw as [Hc Hw]. simpl.
  destruct (Ascii.eqb_spec c " "%char) as [->|_]; [done|]. destruct Hw as [->|Hw]; [done|]. by rewrite IH.
Qed.

Lemma fields_line w ws : Forall word (w :: ws) -> fields (line (w :: ws)) = w :: ws.
Proof.
  revert w. induction ws as [|v ws IH]; intros w [Hw Hws]%Forall_cons; [by apply fields_word|].
  by rewrite line_cons, fields_word_app, IH.
Qed.
End words.

(** ** Printed numbers *)
Lemma to_uint_nonnil n : N.to_uint n <> Decimal.Nil.
Proof. intros Hn. pose proof (Unsigned.of_to n) as H. rewrite Hn in H. simpl in H. subst n. done. Qed.

Lemma digits_of_uint d : all_chars is_digit (NilEmpty.string_of_uint d) = true.
Proof. induction d; simpl; rewrite ?IHd; done. Qed.

Lemma fmt_d_digits n : is_digits (fmt_d n) = true.
Proof.
  unfold fmt_d, is_digits. pose proof (to_uint_nonnil (Z.to_N n)) as Hn. pose proof (digits_of_uint (N.to_uint (Z.to_N n))) as Hd.
  destruct (N.to_uint (Z.to_N n)); [done|..]; simpl in *; done.
Qed.

Lemma digit_not_space c : is_digit c = true -> is_space c = false.
Proof.
  unfold is_digit, is_space. intros [H1%Nat.leb_le H2%Nat.leb_le]%andb_true_iff.
  repeat (apply orb_false_iff; split); apply Nat.eqb_neq; lia.
Qed.

Lemma digits_word s : is_digits s = true -> word s.
Proof.
  unfold is_digits. intros [Hn%negb_true_iff%String.eqb_neq Hd]%andb_true_iff. split; [done|]. clear Hn.
  induction s as [|c s IH]; [done|]. simpl in *. apply andb_true_iff in Hd as [Hc Hd].
  by rewrite (digit_not_space _ Hc), IH.
Qed.

Lemma uint_fmt_d n : 0 <= n -> NilZero.uint_of_string (fmt_d n) = Some (N.to_uint (Z.to_N n)).
Proof. intros _. apply NilZero.usu, to_uint_nonnil. Qed.

Lemma ParseUint_fmt n bits : 0 <= n < 2 ^ bits -> ParseUint (fmt_d n) bits = Some n.
Proof.
  intros Hn. unfold ParseUint. rewrite uint_fmt_d by lia. rewrite Unsigned.of_to, Z2N.id by lia.
  by rewrite (proj2 (Z.ltb_lt _ _)) by lia.
Qed.

Lemma ParseInt_fmt n bits : 0 <= n < 2 ^ (bits - 1) -> ParseInt (fmt_d n) bits = Some n.
Proof.
  intros Hn. unfold ParseInt. pose proof (fmt_d_digits n) as Hd. pose proof (uint_fmt_d n ltac:(lia)) as Hu.
  assert (Z.of_N (N.of_uint (N.to_uint (Z.to_N n))) = n) as Hback by (rewrite Unsigned.of_to; lia).
  destruct (fmt_d n) as [|c s]; [done|]. unfold is_digits in Hd. simpl in Hd. apply andb_true_iff in Hd as [Hc _].
  assert (c <> "-"%char /\ c <> "+"%char) as [Hc1 Hc2] by (split; intros ->; done).
  rewrite Hu, Hback. rewrite (proj2 (Z.ltb_lt _ _)) by lia.
  destruct c as [[] [] [] [] [] [] [] []]; try done; congruence.
Qed.

Lemma digits_all ns : forallb is_digits (fmt_d <$> ns) = true.
Proof. induction ns as [|n ns IH]; [done|]. rewrite fmap_cons. cbn [forallb]. by rewrite fmt_d_digits, IH. Qed.

Lemma numbers_words ns : Forall word (fmt_d <$> ns).
Proof. apply Forall_fmap, Forall_forall. intros x _. apply digits_word, fmt_d_digits. Qed.

Lemma match_digits_line names (ns : list Z) :
  ns <> [] -> length names = length ns ->
  match_digits names (line (fmt_d <$> ns)) = Some (list_to_map (zip names (fmt_d <$> ns))).
Proof.
  intros Hne Hl. unfold match_digits. destruct ns as [|n ns]; [done|].
  rewrite fmap_cons, fields_line by apply (numbers_words (n :: ns)). rewrite <- fmap_cons.
  by rewrite length_fmap, Hl, Nat.eqb_refl, digits_all.
Qed.

(** * Round trips *)

(** A command word followed by arguments is taken apart at the first blank. *)
Lemma ParseCommandLine_words w v ws maxSize c :
  word w -> Forall word (v :: ws) -> commandTypeStrings !! w = Some c -> c <> Put ->
  ParseCommandLine (line (w :: v :: ws)) maxSize = inl (mkCmdData c (line (v :: ws)) None false).
Proof.
  intros Hw Hws Hc Hp. unfold ParseCommandLine. rewrite strip_line by (by constructor).
  rewrite line_cons, split2_word by done. cbn [andb]. rewrite Hc. by rewrite decide_False.
Qed.

Lemma NewPutArg_line pri delay ttr size d nd c :
  0 <= pri < 2 ^ 32 -> 0 <= delay < 2 ^ 63 -> 0 <= ttr < 2 ^ 63 -> 0 <= size < 2 ^ 63 ->
  NewPutArg (mkCmdData c (line (fmt_d <$> [pri; delay; ttr; size])) d nd) = inl (mkPutArg pri delay ttr size d).
Proof.
  intros H1 H2 H3 H4. unfold NewPutArg, putRe, Atoi. cbn [cd_Args cd_Data]. rewrite match_digits_line by done.
  change (tm_get _ "pri") with (fmt_d pri). change (tm_get _ "delay") with (fmt_d delay).
  change (tm_get _ "ttr") with (fmt_d ttr). change (tm_get _ "bytes") with (fmt_d size).
  by rewrite ParseUint_fmt, !ParseInt_fmt by lia.
Qed.

Lemma put_line pri delay ttr size maxSize :
  0 <= pri < 2 ^ 32 -> 0 <= delay < 2 ^ 63 -> 0 <= ttr < 2 ^ 63 -> 0 <= size < 2 ^ 63 ->
  let args := line (fmt_d <$> [pri; delay; ttr; size]) in
  ParseCommandLine (line ["put"; args]%string) maxSize =
    (if maxSize <? size then inr ErrJobSizeTooBig else inl (mkCmdData Put args (Some []) true)).
Proof.
  intros H1 H2 H3 H4 args. unfold ParseCommandLine.
  change (line ["put"%string; args]) with (line ("put"%string :: (fmt_d <$> [pri; delay; ttr; size]))).
  rewrite strip_line by (constructor; [done|apply numbers_words]).
  change (line ("put"%string :: (fmt_d <$> [pri; delay; ttr; size]))) with ("put" +:+ String.String " "%char args)%string.
  rewrite split2_word by done. cbn [andb]. change (commandTypeStrings !! "put"%string) with (Some Put).
  cbv beta iota zeta. rewrite decide_True by done. unfold args at 1. by rewrite NewPutArg_line.
Qed.

(** * The ranges of the arguments *)
Section ranges.
Local Open Scope Z_scope.

Lemma match_digits_get names args tm name :
  match_digits names args = Some tm -> name ∈ names -> is_digits (tm_get tm name) = true.
Proof.
  unfold match_digits. destruct (length (fields args) =? length names)%nat eqn:Hlen; [|done].
  destruct (forallb is_digits (fields args)) eqn:Hall; [|done]. intros [= <-] Hn. apply Nat.eqb_eq in Hlen.
  unfold tm_get. destruct ((list_to_map (zip names (fields args)) : tokenMap) !! name) as [v|] eqn:Hv.
  - apply elem_of_list_to_map_2 in Hv. apply elem_of_zip_r in Hv. simpl. rewrite forallb_forall in Hall. apply Hall.
    by apply list_elem_of_In.
  - exfalso. apply not_elem_of_list_to_map in Hv. apply Hv. by rewrite fst_zip by lia.
Qed.

Lemma ParseUint_range s bits n : ParseUint s bits = Some n -> 0 <= n < 2 ^ bits.
Proof.
  unfold ParseUint. destruct (NilZero.uint_of_string s) as [d|]; [|done].
  destruct (Z.ltb_spec (Z.of_N (N.of_uint d)) (2 ^ bits)); [|done]. intros [= <-]. lia.
Qed.
Lemma ParseInt_range s bits n : is_digits s = true -> ParseInt s bits = Some n -> 0 <= n < 2 ^ (bits - 1).
Proof.
  intros Hd. assert (ParseInt s bits =
    match NilZero.uint_of_string s with
    | None => None
    | Some d => let n := Z.of_N (N.of_uint d) in if n <? 2 ^ (bits - 1) then Some n else None
    end) as ->.
  { destruct s as [|c s]; [done|]. destruct c as [[] [] [] [] [] [] [] []]; done. }
  destruct (NilZero.uint_of_string s) as [d|]; [|done]. cbv zeta.
  destruct (Z.ltb_spec (Z.of_N (N.of_uint d)) (2 ^ (bits - 1))); [|done]. intros [= <-]. lia.
Qed.

(** A tube name: one to two hundred characters of the allowed ones, no dash in front. *)
Definition tube_ok (t : string) : Prop :=
  exists c s, t = String.String c s /\ tube_first c = true /\ all_chars tube_next s = true /\ (String.length t <= 200)%nat.
Lemma tubeArg_ok args tm : tubeArgRe args = Some tm -> tube_ok (tm_get tm "tube").
Proof.
  unfold tubeArgRe. destruct args as [|c s]; [done|].
  destruct (tube_first c) eqn:H1; [|done]. destruct (all_chars tube_next s) eqn:H2; [|done].
  destruct (String.length s <=? 199)%nat eqn:H3; [|done]. intros [= <-]. apply Nat.leb_le in H3.
  unfold tm_get. rewrite lookup_singleton_eq. simpl. exists c, s. split_and!; try done. simpl. lia.
Qed.
End ranges.
