(* ===== verification/Processor.v ===== *)
(** The command processor: [src/beanstalkd/core/cmd_proc.go] and [client.go].

    One goroutine owns the registered clients and the state machine and handles
    one request at a time.  The state machine is reached through the [JSM]
    interface, here the class [JSMOps].  Responses go out on a channel per client;
    the model keeps the list of everything sent. *)
From stdpp Require Import base gmap list strings.
From Stdlib Require Import ZArith Lia.
From S2P Require Import Prelude Job CmdData.
Import Cmd.
Local Open Scope Z_scope.

(** * The interface of the state machine *)
Class JSMOps (J : Type) : Type := {
  jPut : Z -> Z -> Z -> Z -> Z -> slice -> TubeName -> M error J JobID;
  jBury : Z -> JobID -> Z -> ClientID -> M error J unit;
  jDelete : JobID -> ClientID -> M error J unit;
  jKick : JobID -> M error J unit;
  jKickN : TubeName -> Z -> M error J Z;
  jGetTubes : M error J (list TubeName);
  jGetJob : JobID -> M error J Job;
  jPeekBuriedJob : TubeName -> M error J Job;
  jPeekDelayedJob : TubeName -> M error J Job;
  jPeekReadyJob : TubeName -> M error J Job;
  jReleaseWith : Z -> JobID -> ClientID -> Z -> Z -> M error J unit;
  jGetStatsJobAsYaml : Z -> JobID -> M error J (list Byte.byte);
  jGetStatsTubeAsYaml : Z -> TubeName -> M error J (list Byte.byte);
  jGetStatsAsYaml : Z -> M error J (list Byte.byte);
  jTouch : Z -> JobID -> ClientID -> M error J unit;
  jAppendReservation : ClientID -> string -> list TubeName -> Z -> Z -> M error J Reservation;
  jTick : Z -> M error J (list Reservation);
  jCheckClientState : list ClientID -> M error J (list ClientID * list ClientID * list ClientID)
}.

(** * Requests and responses *)

(** The dynamic type of [CmdRequest.cmd]. *)
Inductive cmdArg : Type :=
| ANone | APut (a : putArg) | ABury (a : buryArg) | AId (i : JobID) | ATube (t : TubeName)
| AKickN (bound : Z) | ARelease (a : releaseArg) | AResvTimeout (timeoutSeconds : Z).

Record CmdRequest : Type := mkCmdRequest {
  rq_ID : string; rq_ClientID : ClientID; rq_CmdType : CmdType; rq_cmd : cmdArg
}.

Record CmdResponse : Type := mkCmdResponse {
  rs_RequestID : string; rs_ClientID : ClientID; rs_Response : slice; rs_HasMore : bool
}.

Definition as_arg {A} (f : A -> cmdArg) (r : A + cerr) : cmdArg + cerr :=
  match r with inl a => inl (f a) | inr e => inr e end.

(** [uuid] is the fresh identifier of the request. *)
Definition NewCmdRequest (uuid : string) (cmdData : CmdData) (clientID : ClientID) : CmdRequest + cerr :=
  let arg :=
    match cd_CmdType cmdData with
    | Bury => as_arg ABury (NewBuryArg cmdData)
    | Delete | KickJob => as_arg AId (NewIDArg cmdData)
    | Kick => as_arg AKickN (NewKickNArg cmdData)
    | Put => as_arg APut (NewPutArg cmdData)
    | Peek => as_arg AId (NewIDArg cmdData)
    | Ignore | Use | Watch => as_arg ATube (NewTubeArg cmdData)
    | Release => as_arg ARelease (NewReleaseArg cmdData)
    | ReserveWithTimeout => as_arg AResvTimeout (NewReserveWithTimeoutArg cmdData)
    | Touch => as_arg AId (NewIDArg cmdData)
    | StatsJob => as_arg AId (NewIDArg cmdData)
    | StatsTube => as_arg ATube (NewTubeArg cmdData)
    | ListTubes | PeekReady | PeekDelayed | PeekBuried | Quit | Reserve | Stats => inl ANone
    | _ => inr ErrCmdNotFound
    end in
  match arg with
  | inl a => inl (mkCmdRequest uuid clientID (cd_CmdType cmdData) a)
  | inr e => inr e
  end.

(** [[]byte(s)] *)
Definition bytes_of (s : string) : slice := Some (String.list_byte_of_string s).
(** [fmt.Sprintf("%d", n)] *)
Definition fmt_int (n : Z) : string := if n <? 0 then ("-" +:+ fmt_d (- n))%string else fmt_d n.

Definition MsgInternalError : string := "INTERNAL_ERROR".
Definition MsgBadFormat : string := "BAD_FORMAT".
Definition MsgUnknownCommand : string := "UNKNOWN_COMMAND".
Definition MsgCannotIgnoreTube : string := "NOT_IGNORED".
Definition MsgTimedOut : string := "TIMED_OUT".
Definition MsgDeadlineSoon : string := "DEADLINE_SOON".
Definition MsgNotFound : string := "NOT_FOUND".

Definition defaultTubeName : TubeName := "default".

(** * The processor *)
Section processor.
Context {J : Type} `{JSMOps J}.

(** [client], without its channel; a nil [tubeSet] is empty. *)
Record client : Type := mkClient { cl_id : ClientID; cl_useTube : TubeName; cl_watching : gset TubeName }.

Record cmdProcessor : Type := mkProc {
  p_jsm : J;
  p_clients : gmap ClientID client;
  (** everything sent on response channels, in order *)
  p_sent : list CmdResponse;
  (** clients whose response channel was closed *)
  p_closed : list ClientID
}.

Abbreviation PM := (M error cmdProcessor).

Definition set_p_jsm (j : J) (p : cmdProcessor) : cmdProcessor :=
  mkProc j (p_clients p) (p_sent p) (p_closed p).
Definition set_p_clients (v : gmap ClientID client) (p : cmdProcessor) : cmdProcessor :=
  mkProc (p_jsm p) v (p_sent p) (p_closed p).

Definition call {A} (m : M error J A) : PM A := zoom p_jsm set_p_jsm m.

(** [cli.responseCh <- r] *)
Definition send (r : CmdResponse) : PM unit :=
  modify (fun p => mkProc (p_jsm p) (p_clients p) (p_sent p ++ [r]) (p_closed p)).
Definition close_ch (cid : ClientID) : PM unit :=
  modify (fun p => mkProc (p_jsm p) (p_clients p) (p_sent p) (p_closed p ++ [cid])).

Definition NewClient (uuid : string) (useTube : TubeName) : client :=
  mkClient uuid useTube {[ defaultTubeName ]}.

Definition NewCmdResponseFromReq (req : CmdRequest) : CmdResponse :=
  mkCmdResponse (rq_ID req) (rq_ClientID req) None false.
Definition setResponse (s : string) (r : CmdResponse) : CmdResponse :=
  mkCmdResponse (rs_RequestID r) (rs_ClientID r) (bytes_of s) (rs_HasMore r).
Definition respond (req : CmdRequest) (s : string) : option CmdResponse :=
  Some (setResponse s (NewCmdResponseFromReq req)).

Definition sendCmdResponse (reqID : string) (cli : client) (b : slice) (hasMore : bool) : PM unit :=
  send (mkCmdResponse reqID (cl_id cli) b hasMore).

Definition yamlHdr : list Byte.byte := [Byte.x2d; Byte.x2d; Byte.x2d; Byte.x0a].
Definition sendYamlResponse (b : list Byte.byte) (req : CmdRequest) (cli : client) : PM unit :=
  let respBytes := yamlHdr ++ b in
  sendCmdResponse (rq_ID req) cli (bytes_of ("OK " +:+ fmt_int (Z.of_nat (length respBytes)))) true ;;
  sendCmdResponse (rq_ID req) cli (Some respBytes) false.

(** ** The commands; [None] is a nil response *)
Definition put (now : Z) (cli : client) (req : CmdRequest) : PM (option CmdResponse) :=
  match rq_cmd req with
  | APut a =>
    r <- try (call (jPut now (pa_pri a) (pa_delay a) (pa_ttr a) (pa_size a) (pa_data a) (cl_useTube cli))) ;;
    ret (match r with
         | inr _ => respond req MsgInternalError
         | inl newJobID => respond req ("INSERTED " +:+ fmt_int newJobID)
         end)
  | _ => panic
  end.

Definition bury (now : Z) (cli : client) (req : CmdRequest) : PM (option CmdResponse) :=
  match rq_cmd req with
  | ABury a =>
    r <- try (call (jBury now (ba_id a) (ba_pri a) (cl_id cli))) ;;
    ret (match r with inr _ => respond req MsgNotFound | inl _ => respond req "BURIED" end)
  | _ => panic
  end.

Definition delete (cli : client) (req : CmdRequest) : PM (option CmdResponse) :=
  match rq_cmd req with
  | AId i =>
    r <- try (call (jDelete i (cl_id cli))) ;;
    ret (match r with inr _ => respond req MsgNotFound | inl _ => respond req "DELETED" end)
  | _ => panic
  end.

Definition ignore (cli : client) (req : CmdRequest) : PM (option CmdResponse) :=
  match rq_cmd req with
  | ATube t =>
    if (1 <? size (cl_watching cli))%nat then
      let w := cl_watching cli ∖ {[ t ]} in
      modify (fun p => set_p_clients (<[cl_id cli := mkClient (cl_id cli) (cl_useTube cli) w]> (p_clients p)) p) ;;
      ret (respond req ("WATCHING " +:+ fmt_int (Z.of_nat (size w))))
    else ret (respond req MsgCannotIgnoreTube)
  | _ => panic
  end.

Definition kick (cli : client) (req : CmdRequest) : PM (option CmdResponse) :=
  match rq_cmd req with
  | AId i =>
    r <- try (call (jKick i)) ;;
    ret (match r with inr _ => respond req MsgNotFound | inl _ => respond req "KICKED" end)
  | _ => panic
  end.

Definition kickN (cli : client) (req : CmdRequest) : PM (option CmdResponse) :=
  match rq_cmd req with
  | AKickN bound =>
    r <- try (call (jKickN (cl_useTube cli) bound)) ;;
    ret (match r with inr _ => respond req MsgInternalError | inl n => respond req ("KICKED " +:+ fmt_int n) end)
  | _ => panic
  end.

(** [yaml.Marshal] of a list of names. *)
Context (yaml_names : list TubeName -> list Byte.byte + string).

Definition listTubes (cli : client) (req : CmdRequest) : PM (option CmdResponse) :=
  r <- try (call jGetTubes) ;;
  match r with
  | inr _ => ret (respond req MsgInternalError)
  | inl tubes =>
    match yaml_names tubes with
    | inr _ => ret (respond req MsgInternalError)
    | inl b => sendYamlResponse b req cli ;; ret None
    end
  end.

Definition replyPeek (r : Job + error) (cli : client) (req : CmdRequest) : PM (option CmdResponse) :=
  match r with
  | inr _ => ret (respond req MsgNotFound)
  | inl j =>
    sendCmdResponse (rq_ID req) cli (bytes_of ("FOUND " +:+ fmt_int (id j) +:+ " " +:+ fmt_int (bodySize j))) true ;;
    sendCmdResponse (rq_ID req) cli (body j) false ;;
    ret None
  end.

Definition peek (cli : client) (req : CmdRequest) : PM (option CmdResponse) :=
  match rq_cmd req with
  | AId i => r <- try (call (jGetJob i)) ;; replyPeek r cli req
  | _ => panic
  end.

Definition callPeekFunc (pf : TubeName -> M error J Job) (cli : client) (req : CmdRequest) : PM (option CmdResponse) :=
  r <- try (call (pf (cl_useTube cli))) ;; replyPeek r cli req.

Definition releaseWith (now : Z) (cli : client) (req : CmdRequest) : PM (option CmdResponse) :=
  match rq_cmd req with
  | ARelease a =>
    r <- try (call (jReleaseWith now (ra_id a) (cl_id cli) (ra_pri a) (ra_delay a))) ;;
    ret (match r with inr _ => respond req MsgNotFound | inl _ => respond req "RELEASED" end)
  | _ => panic
  end.

Definition reply_yaml (r : list Byte.byte + error) (cli : client) (req : CmdRequest) : PM (option CmdResponse) :=
  match r with
  | inr _ => ret (respond req MsgNotFound)
  | inl b => sendYamlResponse b req cli ;; ret None
  end.

Definition statsJob (now : Z) (cli : client) (req : CmdRequest) : PM (option CmdResponse) :=
  match rq_cmd req with
  | AId i => r <- try (call (jGetStatsJobAsYaml now i)) ;; reply_yaml r cli req
  | _ => panic
  end.
Definition statsTube (now : Z) (cli : client) (req : CmdRequest) : PM (option CmdResponse) :=
  match rq_cmd req with
  | ATube t => r <- try (call (jGetStatsTubeAsYaml now t)) ;; reply_yaml r cli req
  | _ => panic
  end.
Definition stats (now : Z) (cli : client) (req : CmdRequest) : PM (option CmdResponse) :=
  r <- try (call (jGetStatsAsYaml now)) ;; reply_yaml r cli req.

Definition touch (now : Z) (cli : client) (req : CmdRequest) : PM (option CmdResponse) :=
  match rq_cmd req with
  | AId i =>
    r <- try (call (jTouch now i (rq_ClientID req))) ;;
    ret (match r with inr _ => respond req MsgNotFound | inl _ => respond req "TOUCHED" end)
  | _ => panic
  end.

Definition use (cli : client) (req : CmdRequest) : PM (option CmdResponse) :=
  match rq_cmd req with
  | ATube t =>
    modify (fun p => set_p_clients (<[cl_id cli := mkClient (cl_id cli) t (cl_watching cli)]> (p_clients p)) p) ;;
    ret (respond req ("USING " +:+ t))
  | _ => panic
  end.

Definition watch (cli : client) (req : CmdRequest) : PM (option CmdResponse) :=
  match rq_cmd req with
  | ATube t =>
    let w := {[ t ]} ∪ cl_watching cli in
    modify (fun p => set_p_clients (<[cl_id cli := mkClient (cl_id cli) (cl_useTube cli) w]> (p_clients p)) p) ;;
    ret (respond req ("WATCHING " +:+ fmt_int (Z.of_nat (size w))))
  | _ => panic
  end.

(** The client is taken off the set; its own fields are garbage afterwards. *)
Definition quit (cli : client) (req : CmdRequest) : PM (option CmdResponse) :=
  cs <- gets p_clients ;;
  match cs !! cl_id cli with
  | None => panic
  | Some _ => modify (set_p_clients (base.delete (cl_id cli) cs)) ;; ret (Some (NewCmdResponseFromReq req))
  end.

(** [cli] is [None] for a nil pointer, which [sendCmdResponse] dereferences. *)
Definition replyReservation (r : option Reservation) (cli : option client) (reqID : string) : PM unit :=
  let snd_to (c : option client) id b more :=
    match c with None => panic | Some c => sendCmdResponse id c b more end in
  match r with
  | None => snd_to cli reqID (bytes_of MsgInternalError) false
  | Some r =>
    match r_Status r with
    | Matched =>
      snd_to cli (r_RequestId r)
        (bytes_of ("RESERVED " +:+ fmt_int (r_JobId r) +:+ " " +:+ fmt_int (r_BodySize r))) true ;;
      snd_to cli (r_RequestId r) (r_Body r) false
    | Timeout => snd_to cli (r_RequestId r) (bytes_of MsgTimedOut) false
    | DeadlineSoon => snd_to cli (r_RequestId r) (bytes_of MsgDeadlineSoon) false
    | Queued => ret tt
    | RUnknown | RError =>
      cs <- gets p_clients ;; snd_to (cs !! r_ClientId r) (r_RequestId r) (bytes_of MsgInternalError) false
    end
  end.

(** The order in which the runtime ranges over a set of names. *)
Context (range : gset TubeName -> list TubeName).

Definition appendReservation (cli : client) (reqID : string) (nowSecs deadlineAt : Z) : PM unit :=
  r <- try (call (jAppendReservation (cl_id cli) reqID (range (cl_watching cli)) nowSecs deadlineAt)) ;;
  match r with
  | inr _ => replyReservation None (Some cli) reqID
  | inl resv => replyReservation (Some resv) (Some cli) reqID
  end.

Context (maxReserveTimeoutSecs : Z).

(** [now'] is the second reading of the clock, by [addToNow]. *)
Definition reserveWithTimeout (now now' : Z) (cli : client) (req : CmdRequest) : PM (option CmdResponse) :=
  match rq_cmd req with
  | AResvTimeout timeoutSeconds =>
    if maxReserveTimeoutSecs <? timeoutSeconds then ret (respond req MsgBadFormat) else
    appendReservation cli (rq_ID req) now (wrap_i64 (now' + timeoutSeconds)) ;; ret None
  | _ => panic
  end.
Definition reserve (now now' : Z) (cli : client) (req : CmdRequest) : PM (option CmdResponse) :=
  appendReservation cli (rq_ID req) now (wrap_i64 (now' + maxReserveTimeoutSecs)) ;; ret None.

Definition execute (now now' : Z) (cli : client) (req : CmdRequest) : PM (option CmdResponse) :=
  match rq_CmdType req with
  | Bury => bury now cli req
  | Delete => delete cli req
  | Ignore => ignore cli req
  | Kick => kickN cli req
  | KickJob => kick cli req
  | ListTubes => listTubes cli req
  | Peek => peek cli req
  | PeekBuried => callPeekFunc jPeekBuriedJob cli req
  | PeekDelayed => callPeekFunc jPeekDelayedJob cli req
  | PeekReady => callPeekFunc jPeekReadyJob cli req
  | Put => put now cli req
  | Release => releaseWith now cli req
  | Reserve => reserve now now' cli req
  | ReserveWithTimeout => reserveWithTimeout now now' cli req
  | StatsJob => statsJob now cli req
  | StatsTube => statsTube now cli req
  | Stats => stats now cli req
  | Touch => touch now cli req
  | Use => use cli req
  | Watch => watch cli req
  | Quit => quit cli req
  | _ => ret (respond req MsgUnknownCommand)
  end.

Definition processRequest (now now' : Z) (req : CmdRequest) : PM unit :=
  cs <- gets p_clients ;;
  match cs !! rq_ClientID req with
  | None => panic
  | Some cli =>
    resp <- execute now now' cli req ;;
    (match resp with Some r => send r | None => ret tt end) ;;
    if decide (rq_CmdType req = Quit) then close_ch (cl_id cli) else ret tt
  end.

(** ** The branches of [Run] *)
Definition registerClient (uuid : string) : PM (ClientID * option error) :=
  let nc := NewClient uuid defaultTubeName in
  cs <- gets p_clients ;;
  match cs !! uuid with
  | Some _ => ret (uuid, Some ErrEntryExists)
  | None => modify (set_p_clients (<[uuid := nc]> cs)) ;; ret (uuid, None)
  end.

Fixpoint replyAll (resv : list Reservation) : PM unit :=
  match resv with
  | [] => ret tt
  | r :: rs =>
    cs <- gets p_clients ;;
    replyReservation (Some r) (cs !! r_ClientId r) (r_RequestId r) ;; replyAll rs
  end.
Definition tick (now : Z) : PM unit :=
  r <- try (call (jTick now)) ;;
  match r with inr _ => ret tt | inl resv => replyAll resv end.
End processor.
