(* ===== verification/ProcSpec.v ===== *)
(** The command processor against the interface of the state machine.

    [JSMLaws] is what the processor needs of a state machine: under the conditions
    its callers guarantee every call returns and keeps an invariant, and a
    reservation names the request it answers.  From these laws every request gets
    exactly one complete reply, or waits for a reservation. *)
From stdpp Require Import base gmap list strings.
From Stdlib Require Import ZArith Lia.
From S2P Require Import Prelude Job CmdData Processor Inv.
Import Cmd.
Local Open Scope Z_scope.

(** A call that returns in a state of [I]. *)
Definition kept {J A} (I : J -> Prop) (o : outcome error J A) : Prop :=
  exists j, final o = Some j /\ I j.

Class JSMLaws (J : Type) `{JSMOps J} : Type := {
  jinv : J -> Prop;
  (** the times to run that the machine can take *)
  jttr_ok : Z -> Prop;
  law_Put now pri d ttr sz b t s : jinv s -> jttr_ok ttr -> kept jinv (jPut now pri d ttr sz b t s);
  law_Bury now jid pri cid s : jinv s -> kept jinv (jBury now jid pri cid s);
  law_Delete jid cid s : jinv s -> kept jinv (jDelete jid cid s);
  law_Kick jid s : jinv s -> kept jinv (jKick jid s);
  law_KickN t n s : jinv s -> kept jinv (jKickN t n s);
  law_GetTubes s : jinv s -> kept jinv (jGetTubes s);
  law_GetJob jid s : jinv s -> kept jinv (jGetJob jid s);
  law_PeekBuriedJob t s : jinv s -> kept jinv (jPeekBuriedJob t s);
  law_PeekDelayedJob t s : jinv s -> kept jinv (jPeekDelayedJob t s);
  law_PeekReadyJob t s : jinv s -> kept jinv (jPeekReadyJob t s);
  law_ReleaseWith now jid cid pri d s : jinv s -> kept jinv (jReleaseWith now jid cid pri d s);
  law_StatsJob now jid s : jinv s -> kept jinv (jGetStatsJobAsYaml now jid s);
  law_StatsTube now t s : jinv s -> kept jinv (jGetStatsTubeAsYaml now t s);
  law_Stats now s : jinv s -> kept jinv (jGetStatsAsYaml now s);
  law_Touch now jid cid s : jinv s -> clock_ok now -> cid <> ""%string -> kept jinv (jTouch now jid cid s);
  law_Append cid rid w now dl s : jinv s -> clock_ok now -> NoDup w ->
    kept jinv (jAppendReservation cid rid w now dl s) /\
    (forall r s', jAppendReservation cid rid w now dl s = OK r s' ->
       r_RequestId r = rid /\ r_ClientId r = cid /\ (r_Status r = Matched \/ r_Status r = Queued));
  law_Tick now s : jinv s -> clock_ok now -> kept jinv (jTick now s);
  law_Check ids s : jinv s -> kept jinv (jCheckClientState ids s)
}.

Create HintDb jsm.
#[export] Hint Resolve law_Put law_Bury law_Delete law_Kick law_KickN law_GetTubes law_GetJob law_PeekBuriedJob
  law_PeekDelayedJob law_PeekReadyJob law_ReleaseWith law_StatsJob law_StatsTube law_Stats law_Touch law_Tick law_Check : jsm.

(** * Complete replies *)

(** What a connection reads for one request: responses that announce more, and a
    last one that does not. *)
Definition complete (rid : string) (cid : ClientID) (rs : list CmdResponse) : Prop :=
  exists init fin, rs = init ++ [fin] /\ Forall (fun r => rs_HasMore r = true) init /\ rs_HasMore fin = false /\
    Forall (fun r => rs_RequestID r = rid /\ rs_ClientID r = cid) rs.

Lemma complete_one rid cid b : complete rid cid [mkCmdResponse rid cid b false].
Proof. exists [], (mkCmdResponse rid cid b false). by repeat constructor. Qed.
Lemma complete_two rid cid b b' : complete rid cid [mkCmdResponse rid cid b true; mkCmdResponse rid cid b' false].
Proof. exists [mkCmdResponse rid cid b true], (mkCmdResponse rid cid b' false). by repeat constructor. Qed.

(** The argument of a request has the type of its command. *)
Definition typed (c : CmdType) (a : cmdArg) : Prop :=
  match c, a with
  | Bury, ABury _ | Kick, AKickN _ | Put, APut _ | Release, ARelease _ | ReserveWithTimeout, AResvTimeout _ => True
  | (Delete | KickJob | Peek | Touch | StatsJob), AId _ => True
  | (Ignore | Use | Watch | StatsTube), ATube _ => True
  | (Bury | Kick | Put | Release | ReserveWithTimeout | Delete | KickJob | Peek | Touch | StatsJob | Ignore | Use |
     Watch | StatsTube), _ => False
  | _, _ => True
  end.

Lemma NewCmdRequest_typed uuid cd cid req :
  NewCmdRequest uuid cd cid = inl req ->
  rq_ID req = uuid /\ rq_ClientID req = cid /\ rq_CmdType req = cd_CmdType cd /\ typed (rq_CmdType req) (rq_cmd req).
Proof.
  unfold NewCmdRequest, as_arg. destruct (cd_CmdType cd) eqn:E;
    repeat (case_match; try done); intros [= <-]; simpl; rewrite ?E; simplify_eq; done.
Qed.

Definition is_reserve (c : CmdType) : Prop := c = Reserve \/ c = ReserveWithTimeout.

Section processor_spec.
Context {J : Type} `{JSMLaws J}.
Context (yaml_names : list TubeName -> list Byte.byte + string) (range : gset TubeName -> list TubeName)
  (maxSecs : Z).
Hypothesis range_perm : forall X, range X ≡ₚ elements X.
Implicit Types (p : cmdProcessor (J:=J)) (cli : client).

(** The clients are filed under their identifiers, and the state machine is sound. *)
Record PInv p : Prop := {
  pi_jsm : jinv (p_jsm p);
  pi_ids cid cli : p_clients p !! cid = Some cli -> cl_id cli = cid
}.

(** What a command may do to the set of clients: change the entry of its own client. *)
Definition own_only cid p p' : Prop := forall x, x <> cid -> p_clients p' !! x = p_clients p !! x.

(** A command handler ended with [resp] to be sent, after having sent [rs]. *)
Record answered (req : CmdRequest) p (resp : option CmdResponse) p' : Prop := {
  an_inv : PInv p';
  an_own : own_only (rq_ClientID req) p p';
  an_sent : exists rs, p_sent p' = p_sent p ++ rs /\
    (complete (rq_ID req) (rq_ClientID req) (rs ++ option_list resp) \/
     rs = [] /\ resp = None /\ is_reserve (rq_CmdType req));
  an_closed : p_closed p' = p_closed p
}.
Definition answers (req : CmdRequest) (m : M error cmdProcessor (option CmdResponse)) p : Prop :=
  exists resp p', m p = OK resp p' /\ answered req p resp p'.

(** A call of the state machine changes nothing of the processor. *)
Lemma call_kept {A} (m : M error J A) p :
  PInv p -> kept jinv (m (p_jsm p)) ->
  exists r j, try (call m) p = OK r (set_p_jsm j p) /\ PInv (set_p_jsm j p) /\
    (forall a, r = inl a -> m (p_jsm p) = OK a j).
Proof.
  intros [I1 I2] (j & Hf & Hj). unfold try, call, zoom. destruct (m (p_jsm p)) as [a s|e s| |]; simplify_eq/=.
  - exists (inl a), j. split_and!; [done|by split|]. by intros ? [= <-].
  - exists (inr e), j. split_and!; [done|by split|done].
Qed.

Lemma answers_ret req s p : PInv p -> answers req (ret (respond req s)) p.
Proof.
  intros Hp. eexists _, p. split; [done|]. split; [done|done| |done]. exists []. rewrite app_nil_r. split; [done|].
  left. apply complete_one.
Qed.

(** Handlers that call the state machine once and answer with a word. *)
Lemma answers_call {A} req (m : M error J A) (f : A + error -> string) p :
  PInv p -> kept jinv (m (p_jsm p)) ->
  answers req (r <- try (call m) ;; ret (respond req (f r))) p.
Proof.
  intros Hp Hk. destruct (call_kept m p Hp Hk) as (r & j & Hop & Hp' & _).
  eexists _, (set_p_jsm j p). split; [by rewrite (bind_OK _ _ _ _ _ Hop)|].
  split; [done|done| |done]. exists []. rewrite app_nil_r. split; [done|]. left. apply complete_one.
Qed.

(** Handlers that continue after the call. *)
Lemma answers_then {A} req (m : M error J A) k p :
  PInv p -> kept jinv (m (p_jsm p)) ->
  (forall r j, PInv (set_p_jsm j p) -> (forall a, r = inl a -> m (p_jsm p) = OK a j) -> answers req (k r) (set_p_jsm j p)) ->
  answers req (r <- try (call m) ;; k r) p.
Proof.
  intros Hp Hk Hkont. destruct (call_kept m p Hp Hk) as (r & j & Hop & Hp' & Hr).
  destruct (Hkont r j Hp' Hr) as (resp & p' & Hk' & [A1 A2 A3 A4]). exists resp, p'.
  split; [by rewrite (bind_OK _ _ _ _ _ Hop)|]. by split.
Qed.

(** Two responses in a row. *)
Lemma answers_two req cli b b' p :
  PInv p -> cl_id cli = rq_ClientID req ->
  answers req (sendCmdResponse (rq_ID req) cli b true ;; sendCmdResponse (rq_ID req) cli b' false ;; ret None) p.
Proof.
  intros [I1 I2] Hid. eexists None, _. split; [done|]. split; [by split|done| |done].
  exists [mkCmdResponse (rq_ID req) (cl_id cli) b true; mkCmdResponse (rq_ID req) (cl_id cli) b' false].
  simpl. split; [by rewrite <- app_assoc|]. left. rewrite Hid. apply complete_two.
Qed.

Lemma answers_update req cli u w s p :
  PInv p -> cl_id cli = rq_ClientID req ->
  answers req (modify (fun p => set_p_clients (<[cl_id cli := mkClient (cl_id cli) u w]> (p_clients p)) p) ;;
               ret (respond req s)) p.
Proof.
  intros [I1 I2] Hid. eexists _, _. split; [done|]. split.
  - split; [done|]. simpl. intros x c [[<- <-]|[_ ?]]%lookup_insert_Some; [done|by apply I2].
  - intros x Hx. simpl. rewrite lookup_insert_ne; [done|congruence].
  - exists []. rewrite app_nil_r. split; [done|]. left. apply complete_one.
  - done.
Qed.

Lemma answers_peek req cli r p :
  PInv p -> cl_id cli = rq_ClientID req -> answers req (replyPeek r cli req) p.
Proof. intros Hp Hid. destruct r as [j|e]; [by apply answers_two|by apply answers_ret]. Qed.

Lemma answers_yaml req cli r p :
  PInv p -> cl_id cli = rq_ClientID req -> answers req (reply_yaml r cli req) p.
Proof.
  intros Hp Hid. destruct r as [b|e]; [|by apply answers_ret].
  destruct (answers_two req cli (bytes_of ("OK " +:+ fmt_int (Z.of_nat (length (yamlHdr ++ b)))))
    (Some (yamlHdr ++ b)) p Hp Hid) as (resp & p' & Hop & Ha). exists resp, p'. done.
Qed.

Lemma range_NoDup X : NoDup (range X).
Proof. rewrite range_perm. apply NoDup_elements. Qed.

(** A reservation is answered at once, or the client waits. *)
Lemma answers_append req cli now dl p :
  PInv p -> cl_id cli = rq_ClientID req -> clock_ok now -> is_reserve (rq_CmdType req) ->
  answers req (appendReservation range cli (rq_ID req) now dl ;; ret None) p.
Proof.
  intros Hp Hid Hn Hr. unfold appendReservation. set (w := range (cl_watching cli)).
  destruct (law_Append (cl_id cli) (rq_ID req) w now dl (p_jsm p)) as [Hk Hres]; [apply Hp|done|apply range_NoDup|].
  destruct (call_kept _ p Hp Hk) as (r & j & Hop & Hp' & Hr'). unfold answers.
  rewrite bind_assoc, (bind_OK _ _ _ _ _ Hop). destruct r as [resv|e].
  - destruct (Hres resv j (Hr' _ eq_refl)) as (E1 & E2 & [Est|Est]); unfold replyReservation; rewrite Est.
    + rewrite E1. destruct (answers_two req cli
        (bytes_of ("RESERVED " +:+ fmt_int (r_JobId resv) +:+ " " +:+ fmt_int (r_BodySize resv))) (r_Body resv)
        (set_p_jsm j p) Hp' Hid) as (resp & p' & Hop' & Ha).
      exists resp, p'. rewrite bind_assoc. by split; [|destruct Ha; split].
    + exists None, (set_p_jsm j p). split; [done|]. split; [done|done| |done]. exists []. rewrite app_nil_r.
      split; [done|]. by right.
  - eexists None, _. split; [done|]. split; [by destruct Hp' as [? ?]; split|done| |done].
    eexists. split; [done|]. left. simpl. rewrite Hid. apply complete_one.
Qed.

Definition req_ok (req : CmdRequest) : Prop :=
  typed (rq_CmdType req) (rq_cmd req) /\ rq_ClientID req <> ""%string /\
  match rq_cmd req with APut a => jttr_ok (pa_ttr a) | _ => True end.

Lemma answers_names req cli b p :
  PInv p -> cl_id cli = rq_ClientID req -> answers req (sendYamlResponse b req cli ;; ret None) p.
Proof. intros Hp Hid. by apply (answers_yaml req cli (inl b)). Qed.

Lemma answers_quit req cli p :
  PInv p -> p_clients p !! rq_ClientID req = Some cli -> answers req (quit cli req) p.
Proof.
  intros Hp Hcli. pose proof (pi_ids _ Hp _ _ Hcli) as Hid. destruct Hp as [I1 I2].
  unfold answers, quit. unfold gets, bind at 1. rewrite Hid, Hcli. eexists _, _. split; [done|]. split.
  - split; [done|]. simpl. intros x c [_ ?]%lookup_delete_Some. by apply I2.
  - intros x Hx. simpl. by rewrite lookup_delete_ne.
  - exists []. rewrite app_nil_r. split; [done|]. left. apply complete_one.
  - done.
Qed.

(** One step of a handler: an answer, or a call of the state machine and what follows it. *)
Ltac answer :=
  first [ by apply answers_ret | by apply answers_update | by apply answers_peek | by apply answers_yaml
        | by apply answers_names | by apply answers_quit
        | apply answers_then; [done|by eauto with jsm|intros [?|?] ? ? _; cbv beta iota; try case_match; answer] ].

Lemma execute_answers now now' cli req p :
  PInv p -> p_clients p !! rq_ClientID req = Some cli -> clock_ok now -> req_ok req ->
  answers req (execute yaml_names range maxSecs now now' cli req) p.
Proof.
  intros Hp Hcli Hn (Ht & Hne & Httr). pose proof (pi_ids _ Hp _ _ Hcli) as Hid. pose proof (pi_jsm _ Hp) as HJ.
  unfold execute. destruct (rq_CmdType req) eqn:Ec; try (by apply answers_ret); destruct (rq_cmd req) eqn:Ea; try done;
    unfold bury, delete, ignore, kickN, kick, listTubes, peek, put, releaseWith, statsJob, statsTube, stats, touch,
      use, watch, callPeekFunc, reserve, reserveWithTimeout; rewrite ?Ea; try case_match;
    first [answer | apply answers_append; [done|done|done|rewrite Ec; by (left + right)]].
Qed.

(** Every request of a registered client is answered completely, in one piece, and
    only a reservation may leave its client waiting. *)
Lemma processRequest_spec now now' cli req p :
  PInv p -> p_clients p !! rq_ClientID req = Some cli -> clock_ok now -> req_ok req ->
  exists p' rs, processRequest yaml_names range maxSecs now now' req p = OK tt p' /\ PInv p' /\
    p_sent p' = p_sent p ++ rs /\ own_only (rq_ClientID req) p p' /\
    (complete (rq_ID req) (rq_ClientID req) rs \/ rs = [] /\ is_reserve (rq_CmdType req)) /\
    p_closed p' = p_closed p ++ (if decide (rq_CmdType req = Quit) then [rq_ClientID req] else []).
Proof.
  intros Hp Hcli Hn Hok. destruct (execute_answers now now' cli req p Hp Hcli Hn Hok) as (resp & p1 & Hop & [[A1 A1'] A2 (rs & A3 & Hc) A4]).
  pose proof (pi_ids _ Hp _ _ Hcli) as Hid.
  unfold processRequest. unfold gets, bind at 1. rewrite Hcli, (bind_OK _ _ _ _ _ Hop).
  assert (exists p2, (match resp with Some r => send r | None => ret tt end) p1 = OK tt p2 /\ PInv p2 /\
    p_sent p2 = p_sent p ++ rs ++ option_list resp /\ own_only (rq_ClientID req) p p2 /\ p_closed p2 = p_closed p)
    as (p2 & Hs & I2 & S2 & O2 & C2).
  { destruct resp as [r|]; eexists; (split_and!; [done|by split| |done|done]); simpl; rewrite A3; [by rewrite app_assoc|].
    by rewrite app_nil_r. }
  rewrite (bind_OK _ _ _ _ _ Hs). case_decide as Hq; eexists _, (rs ++ option_list resp).
  - split_and!; [done|by destruct I2; split|done|done| |simpl; by rewrite C2, Hid].
    destruct Hc as [Hc|(-> & -> & Hr)]; [by left|by right].
  - split_and!; [done|done|done|done| |by rewrite C2, app_nil_r].
    destruct Hc as [Hc|(-> & -> & Hr)]; [by left|by right].
Qed.
End processor_spec.
