(* ===== verification/LocalJSM.v ===== *)
(** The state machine behind the [JSM] interface: [localJSM] satisfies the laws
    the command processor relies on. *)
From stdpp Require Import base gmap list strings.
From Stdlib Require Import ZArith Lia.
From S2P Require Import Prelude GoHeap Job JobHeap ClientResv Index JSM Heaps JobInv.
From S2P Require Import Transitions Commands CliInv Clients Reserve Inv Tick Refine Machine.
From S2P Require Import Scenario CmdData Processor ProcSpec.
Local Open Scope Z_scope.

Section local.
(** The YAML encoder, and the order in which the runtime ranges over a map's keys. *)
Context (yaml_Marshal : gmap string yvalue -> list Byte.byte + string) (range : gset TubeName -> list TubeName).

Definition tube_names (s : localJSM) : list TubeName := range (dom (tubes s)).
(** The keys at the moment of the second loop of [Tick]. *)
Definition ready_names (now : Z) (s : localJSM) : list TubeName :=
  match tick_delay (tube_names s) now s with OK _ s1 => tube_names s1 | _ => [] end.

#[export] Instance localJSM_ops : JSMOps localJSM := {
  jPut := JSM.Put;
  jBury := JSM.Bury;
  jDelete := JSM.Delete;
  jKick := JSM.Kick;
  jKickN := JSM.KickN;
  jGetTubes := fun s => JSM.GetTubes (tube_names s) s;
  jGetJob jid := r <- JSM.GetJob jid ;; JSM.load_job r;
  jPeekBuriedJob t := e <- JSM.PeekBuriedJob t ;; entry_load e;
  jPeekDelayedJob t := e <- JSM.PeekDelayedJob t ;; entry_load e;
  jPeekReadyJob t := e <- JSM.PeekReadyJob t ;; entry_load e;
  jReleaseWith := JSM.ReleaseWith;
  jGetStatsJobAsYaml := JSM.GetStatsJobAsYaml yaml_Marshal;
  jGetStatsTubeAsYaml := JSM.GetStatsTubeAsYaml yaml_Marshal;
  jGetStatsAsYaml := JSM.GetStatsAsYaml yaml_Marshal;
  jTouch := JSM.Touch;
  jAppendReservation := JSM.AppendReservation;
  jTick now := fun s => JSM.Tick (tube_names s) (ready_names now s) now s;
  jCheckClientState := JSM.CheckClientState
}.

(** ** The laws *)
Lemma safe_kept {A} R s (o : outcome error localJSM A) : safe_call R s o -> kept Inv o.
Proof. intros (s' & Hf & HI & _). by exists s'. Qed.

Lemma exec_kept {A} (m : JM A) (f : A -> JobID) c s :
  Inv s -> public c -> exec c = bind m (fun a => ret (f a)) -> kept Inv (m s).
Proof.
  intros HI Hp Hc. destruct (exec_safe c s HI Hp) as (s' & Hf & HI' & _). rewrite Hc in Hf.
  exists s'. split; [|done]. unfold bind in Hf. by destruct (m s).
Qed.

Lemma stat_kept {A} (m : JM A) s s' :
  Inv s -> stat_only s s' -> (exists a, m s = OK a s') \/ (exists e, m s = ERR e s') -> kept Inv (m s).
Proof. intros HI Hst Hm. eapply (safe_kept same_ids s). by eapply safe_stat. Qed.

(** Peeking reads the first entry of a heap. *)
Lemma peek_kept (m : JM EntRef) k f s :
  Inv s ->
  m s = match entries (heaps s k) !! 0%nat with
        | Some er => OK er (bump f s) | None => ERR ErrEntryMissing (bump f s) end ->
  kept Inv ((e <- m ;; entry_load e) s).
Proof.
  intros HI Hm. apply (stat_kept _ s (bump f s)); [done|by eexists|].
  destruct (entries (heaps s k) !! 0%nat) as [er|] eqn:Her.
  - left. destruct (heap_elem_abs s k er (inv_jobs _ HI)) as (j & Hj & _); [by eapply list_elem_of_lookup_2|].
    exists j. rewrite (bind_OK _ _ _ _ _ Hm). unfold entry_load, deref.
    change (entry_job (mem (bump f s)) er) with (entry_job (mem s) er). by rewrite Hj.
  - right. exists ErrEntryMissing. by rewrite (bind_ERR _ _ _ _ _ Hm).
Qed.

Lemma marshal_cases stats s :
  (exists a, marshal yaml_Marshal stats s = OK a s) \/ (exists e, marshal yaml_Marshal stats s = ERR e s).
Proof. unfold marshal. destruct (yaml_Marshal stats); [left|right]; by eexists. Qed.

(** Reading a job of the index. *)
Lemma get_job_kept {A} f jid (k : Job -> JM A) s :
  Inv s -> (forall j s, (exists a, k j s = OK a s) \/ (exists e, k j s = ERR e s)) ->
  kept Inv ((incr f ;; e <- jobs_Get jid ;; j <- JSM.load_job (ie_job e) ;; k j) s).
Proof.
  intros HI Hk. apply (stat_kept _ s (bump f s)); [done|by eexists|]. rewrite run_incr.
  destruct (jm (jobs s) !! jid) as [ie|] eqn:Hie.
  - destruct (ji_idx _ _ _ (inv_jobs _ HI) _ _ Hie) as (j & _ & _ & Hj & _).
    rewrite (bind_OK _ _ _ _ _ (jobs_Get_OK (bump f s) jid ie Hie)), (run_load _ _ (bump f s) j Hj). apply Hk.
  - right. exists ErrEntryMissing. apply bind_ERR. unfold jobs_Get, lift, JobIdx.Get.
    change (jobs (bump f s)) with (jobs s). by rewrite Hie.
Qed.

Lemma append_result s cid reqID watched now deadline r s' :
  Inv s -> clock_ok now -> NoDup watched -> AppendReservation cid reqID watched now deadline s = OK r s' ->
  r_RequestId r = reqID /\ r_ClientId r = cid /\ (r_Status r = Matched \/ r_Status r = Queued).
Proof.
  intros HI Hn Hnd Hop.
  pose proof (AppendReservation_spec s cid reqID watched now deadline (inv_jobs _ HI) (inv_cli _ HI) Hnd
    (proj1 Hn) (clock_limit _ Hn)) as Hsp. rewrite Hop in Hsp.
  assert (forall x c0, appended s s' now x (start_entry c0 cid reqID watched deadline) r ->
    CliID (start_entry c0 cid reqID watched deadline) = cid ->
    r_RequestId r = reqID /\ r_ClientId r = cid /\ (r_Status r = Matched \/ r_Status r = Queued)) as Hap.
  { intros x c0 [_ _ _ [(t & j & _ & _ & -> & _)|(_ & -> & _)]] Hid; simpl; rewrite ?Hid;
      (split_and!; [by destruct c0|done|auto]). }
  destruct (valid_deadline now deadline); [|done]. destruct (client_entry s cid) as [[x c]|] eqn:He.
  - destruct (IsWaitingForResv c); [done|]. destruct Hsp as (resv & s1 & [= <- <-] & Ha). apply (Hap _ _ Ha).
    apply (client_entry_Some _ _ _ _ (inv_cli _ HI)) in He as (_ & _ & _ & <-). done.
  - destruct Hsp as (x & resv & s1 & [= <- <-] & Ha). by apply (Hap _ _ Ha).
Qed.

(** The runtime ranges over the keys of a map. *)
Hypothesis range_perm : forall X, range X ≡ₚ elements X.

Lemma tube_names_elem t s : t ∈ tube_names s <-> is_Some (tubes s !! t).
Proof. unfold tube_names. rewrite range_perm, elem_of_elements. apply elem_of_dom. Qed.

Lemma names_range now s : ranges (tube_names s) (ready_names now s) now s.
Proof.
  apply ranges_spec. split; [intros t Ht; by apply tube_names_elem|].
  unfold ready_names. destruct (tick_delay (tube_names s) now s) as [[] s1|e s1| |] eqn:E; try done. split.
  - apply Forall_forall. intros t Ht. unfold has_tube. by apply tube_names_elem.
  - intros t Ht. by apply tube_names_elem.
Qed.

#[export] Instance localJSM_laws : JSMLaws localJSM.
Proof.
  refine {| jinv := Inv |}; simpl.
  - intros now pri d ttr sz b t s HI Httr. apply (safe_kept next_ids s), (exec_safe (CPut now pri d ttr sz b t)); done.
  - intros now jid pri cid s HI. by apply (exec_kept _ (fun _ => 0) (CBury now jid pri cid)).
  - intros jid cid s HI. by apply (exec_kept _ (fun _ => 0) (CDelete jid cid)).
  - intros jid s HI. by apply (exec_kept _ (fun _ => 0) (CKick jid)).
  - intros t n s HI. unfold KickN. rewrite run_incr.
    eapply (safe_kept same_ids (bump nCmdKickN s)), KickN_loop_safe. apply (stat_only_inv s); [by eexists|done].
  - intros s HI. apply (stat_kept _ s (bump nCmdListTubes s)); [done|by eexists|left; by eexists].
  - intros jid s HI. pose proof (get_job_kept nCmdPeek jid ret s HI (fun j s => or_introl (ex_intro _ j eq_refl))) as Hk.
    destruct Hk as (s' & Hf & HI'). exists s'. split; [|done]. rewrite <- Hf. unfold GetJob.
    rewrite bind_assoc, !run_incr, bind_assoc. unfold bind, ret at 1. destruct (jobs_Get jid _) as [ie s1|e s1| |]; [|done..].
    by destruct (JSM.load_job (ie_job ie) s1).
  - intros t s HI. apply (peek_kept _ (HBuried t) nCmdPeekBuried); [done|apply PeekBuriedJob_spec].
  - intros t s HI. apply (peek_kept _ (HDelayed t) nCmdPeekDelayed); [done|apply PeekDelayedJob_spec].
  - intros t s HI. apply (peek_kept _ (HReady t) nCmdPeekReady); [done|apply PeekReadyJob_spec].
  - intros now jid cid pri d s HI. by apply (exec_kept _ (fun _ => 0) (CReleaseWith now jid cid pri d)).
  - intros now jid s HI. apply (get_job_kept nCmdStatsJob); [done|]. intros j s0. apply marshal_cases.
  - intros now t s HI. apply (stat_kept _ s (bump nCmdStatsTube s)); [done|by eexists|].
    unfold GetStatsTubeAsYaml. rewrite run_incr. unfold bind, lift.
    destruct (TubeIdx.GetStatistics t _) as [st|e]; [|right; by eexists]. apply marshal_cases.
  - intros now s HI. apply (stat_kept _ s s); [done|apply stat_only_refl|]. apply marshal_cases.
  - intros now jid cid s HI Hn Hc. by eapply (safe_kept same_ids s), Touch_safe.
  - intros cid rid w now dl s HI Hn Hnd. split; [by eapply (safe_kept same_ids s), AppendReservation_safe|].
    intros r s'. by apply append_result.
  - intros now s HI Hn. apply (safe_kept next_ids s).
    destruct (run_safe (KTick (tube_names s) (ready_names now s) now) s HI) as (s' & Hf & HI' & Hid).
    { split; [done|apply names_range]. }
    exists s'. split; [|done]. cbn [run] in Hf. unfold bind in Hf. by destruct (Tick _ _ now s).
  - intros ids s HI. unfold CheckClientState. rewrite CheckClientState_loop_spec by apply HI. by exists s.
Defined.
End local.

(** A concrete instance: no encoder, and the order in which [elements] lists a set. *)
Definition no_yaml (_ : gmap string yvalue) : list Byte.byte + string := inr "no encoder"%string.
Definition any_order (X : gset TubeName) : list TubeName := elements X.
Lemma any_order_perm X : any_order X ≡ₚ elements X.
Proof. done. Qed.
