(* ===== verification/ProcWaits.v ===== *)
(** Who waits, as the command processor sees it.

    [JSMWaits] adds to the laws of the state machine which clients wait for which request:
    a queued reservation adds one, a tick ends exactly those it answers, and nothing else
    changes them.  What is known of the request is a token: for the state machine in the
    process its identifier, for a proxy client, which keeps only the clients, nothing.  From it: a request of the processor is answered at once or its client
    waits for it, and a tick answers the clients that stop waiting. *)
From stdpp Require Import base gmap list strings.
From Stdlib Require Import ZArith Lia.
From S2P Require Import Prelude Job CmdData Processor Inv Frame ProcSpec.
Import Cmd.
Local Open Scope Z_scope.

(** [m] does not change what [w] says of the state. *)
Definition steady_call {J W A} (I : J -> Prop) (w : J -> list W) (m : M error J A) : Prop :=
  forall s s', I s -> final (m s) = Some s' -> w s' ≡ₚ w s.

(** What [replyReservation] answers. *)
Definition is_reply (r : Reservation) : Prop := r_Status r <> Queued.

Class JSMWaits (J : Type) `{JSMLaws J} : Type := {
  jtoken : Type;
  jtag : string -> jtoken;
  (** the clients that wait, with the requests they wait for *)
  jwaits : J -> list (ClientID * jtoken);
  waits_Put now pri d ttr sz b t : steady_call jinv jwaits (jPut now pri d ttr sz b t);
  waits_Bury now jid pri cid : steady_call jinv jwaits (jBury now jid pri cid);
  waits_Delete jid cid : steady_call jinv jwaits (jDelete jid cid);
  waits_Kick jid : steady_call jinv jwaits (jKick jid);
  waits_KickN t n : steady_call jinv jwaits (jKickN t n);
  waits_GetTubes : steady_call jinv jwaits jGetTubes;
  waits_GetJob jid : steady_call jinv jwaits (jGetJob jid);
  waits_PeekBuriedJob t : steady_call jinv jwaits (jPeekBuriedJob t);
  waits_PeekDelayedJob t : steady_call jinv jwaits (jPeekDelayedJob t);
  waits_PeekReadyJob t : steady_call jinv jwaits (jPeekReadyJob t);
  waits_ReleaseWith now jid cid pri d : steady_call jinv jwaits (jReleaseWith now jid cid pri d);
  waits_StatsJob now jid : steady_call jinv jwaits (jGetStatsJobAsYaml now jid);
  waits_StatsTube now t : steady_call jinv jwaits (jGetStatsTubeAsYaml now t);
  waits_Stats now : steady_call jinv jwaits (jGetStatsAsYaml now);
  waits_Touch now jid cid : steady_call jinv jwaits (jTouch now jid cid);
  waits_Append cid rid w now dl s : jinv s -> clock_ok now -> NoDup w ->
    match jAppendReservation cid rid w now dl s with
    | OK r s' => jwaits s' ≡ₚ (if decide (r_Status r = Queued) then [(cid, jtag rid)] else []) ++ jwaits s
    | ERR _ s' => jwaits s' ≡ₚ jwaits s
    | PANIC | DIVERGE => True
    end;
  waits_Tick now s : jinv s -> clock_ok now ->
    match jTick now s with
    | OK rs s' => Forall is_reply rs /\ jwaits s ≡ₚ jwaits s' ++ ((fun r => (r_ClientId r, jtag (r_RequestId r))) <$> rs)
    | ERR _ s' => jwaits s' ≡ₚ jwaits s
    | PANIC | DIVERGE => True
    end;
  waits_Check ids s w nw m s' : jinv s -> jCheckClientState ids s = OK (w, nw, m) s' -> w ++ nw ++ m ≡ₚ ids
}.
Create HintDb waits.
#[export] Hint Resolve waits_Put waits_Bury waits_Delete waits_Kick waits_KickN waits_GetTubes waits_GetJob
  waits_PeekBuriedJob waits_PeekDelayedJob waits_PeekReadyJob waits_ReleaseWith waits_StatsJob waits_StatsTube waits_Stats
  waits_Touch : waits.

Section proc_waits.
Context {J : Type} `{JSMWaits J}.

(** What a reservation answers. *)
Definition answers (r : Reservation) : ClientID * jtoken := (r_ClientId r, jtag (r_RequestId r)).

Context (yaml_names : list TubeName -> list Byte.byte + string) (range : gset TubeName -> list TubeName)
  (maxSecs : Z).
Hypothesis range_perm : forall X, range X ≡ₚ elements X.
Implicit Types (p : cmdProcessor (J:=J)) (cli : client).

Definition waits_of p : list (ClientID * jtoken) := jwaits (p_jsm p).

(** * Commands that change neither who waits nor who is registered *)
Definition same_waits (W : list (ClientID * jtoken)) (X : gset ClientID) p : Prop :=
  waits_of p ≡ₚ W /\ X ⊆ dom (p_clients p).

Lemma same_call {A} (m : M error J A) W X p :
  steady_call jinv jwaits m -> jinv (p_jsm p) -> same_waits W X p ->
  match try (call m) p with OK _ p' => same_waits W X p' | ERR _ _ => False | _ => True end.
Proof.
  intros Hm Hj [HW HX]. unfold try, call, zoom. specialize (Hm (p_jsm p)).
  destruct (m (p_jsm p)) as [a s|e s| |]; try done; (split; [|done]); unfold waits_of; simpl; rewrite (Hm s Hj eq_refl); done.
Qed.

(** A command that starts with one call of the state machine. *)
Definition quiet (op : M error (cmdProcessor (J:=J)) (option CmdResponse)) : Prop :=
  forall W X p, jinv (p_jsm p) -> same_waits W X p ->
    match op p with OK _ p' => same_waits W X p' | ERR _ _ => False | _ => True end.

Lemma quiet_ret r : quiet (ret r).
Proof. by intros W X p Hj Hs. Qed.
Lemma quiet_panic : quiet panic.
Proof. by intros W X p Hj Hs. Qed.
Lemma quiet_send id cli b more k : quiet k -> quiet (sendCmdResponse id cli b more ;; k).
Proof. intros Hk W X p Hj Hs. unfold sendCmdResponse, send, modify, bind. by apply Hk. Qed.
Lemma quiet_update cli c r :
  quiet (modify (fun p => set_p_clients (<[cl_id cli := c]> (p_clients p)) p) ;; ret r).
Proof. intros W X p Hj [HW HX]. unfold modify, bind. split; [done|]. simpl. rewrite dom_insert. set_solver. Qed.
Lemma quiet_then {A} (m : M error J A) k :
  steady_call jinv jwaits m -> (forall s, jinv s -> kept jinv (m s)) -> (forall r, quiet (k r)) ->
  quiet (bind (try (call m)) k).
Proof.
  intros Hm Hk Hkont W X p Hj Hs. pose proof (same_call m W X p Hm Hj Hs) as Hc. destruct (Hk (p_jsm p) Hj) as (s' & Hf & Hj').
  unfold bind. unfold try, call, zoom in *. destruct (m (p_jsm p)) as [a s|e s| |]; simplify_eq/=; by apply Hkont.
Qed.
Lemma quiet_peek r cli req : quiet (replyPeek r cli req).
Proof. destruct r; [do 2 apply quiet_send|]; apply quiet_ret. Qed.
Lemma quiet_names b req cli : quiet (sendYamlResponse b req cli ;; ret None).
Proof.
  intros W X p Hj Hs. unfold sendYamlResponse, sendCmdResponse, send, modify, bind. done.
Qed.
Lemma quiet_yaml r cli req : quiet (reply_yaml r cli req).
Proof. destruct r; [apply quiet_names|apply quiet_ret]. Qed.

Ltac quiet :=
  first [ apply quiet_ret | apply quiet_panic | apply quiet_update | apply quiet_peek | apply quiet_yaml | apply quiet_names
        | apply quiet_then; [by eauto with waits|by eauto with jsm|intros [?|?]; cbv beta iota; try case_match; quiet] ].

Lemma execute_quiet now now' cli req :
  clock_ok now -> req_ok req -> ~ is_reserve (rq_CmdType req) -> rq_CmdType req <> Quit ->
  quiet (execute yaml_names range maxSecs now now' cli req).
Proof.
  intros Hn (Ht & Hne & Httr) Hnr Hnq. unfold execute. destruct (rq_CmdType req) eqn:Ec; try (by apply quiet_ret); try done;
    try (exfalso; apply Hnr; by (left + right)); destruct (rq_cmd req) eqn:Ea; try done;
    unfold bury, delete, ignore, kickN, kick, listTubes, peek, put, releaseWith, statsJob, statsTube, stats, touch,
      use, watch, callPeekFunc; rewrite ?Ea; try case_match; quiet.
Qed.

(** * Reservations *)

(** A reservation is answered, or its client waits for it. *)
Definition waits_or_answered (who : ClientID * jtoken) p p' : Prop :=
  dom (p_clients p') = dom (p_clients p) /\
  (p_sent p' = p_sent p /\ waits_of p' ≡ₚ who :: waits_of p \/
   p_sent p' <> p_sent p /\ waits_of p' ≡ₚ waits_of p).

Lemma sent_more p rs : rs <> [] -> p_sent p ++ rs <> p_sent p.
Proof. intros Hrs E. apply Hrs. apply (app_inv_head (p_sent p)). by rewrite app_nil_r. Qed.

Lemma append_waits_or cli rid now dl p :
  jinv (p_jsm p) -> clock_ok now ->
  match appendReservation range cli rid now dl p with
  | OK _ p' => waits_or_answered (cl_id cli, jtag rid) p p'
  | ERR _ _ => False
  | _ => True
  end.
Proof.
  intros Hj Hn. pose proof (range_NoDup range range_perm (cl_watching cli)) as Hnd.
  pose proof (waits_Append (cl_id cli) rid (range (cl_watching cli)) now dl (p_jsm p) Hj Hn Hnd) as Hw.
  destruct (law_Append (cl_id cli) rid (range (cl_watching cli)) now dl (p_jsm p) Hj Hn Hnd) as [_ Hr].
  unfold appendReservation, bind, try, call, zoom. destruct (jAppendReservation _ _ _ _ _ _) as [r s|e s| |]; try done.
  - destruct (Hr r s eq_refl) as (_ & _ & [Hst|Hst]); unfold replyReservation; rewrite Hst in *.
    + split; [done|]. right. simpl. split; [|exact Hw]. rewrite <- app_assoc. by apply sent_more.
    + split; [done|]. left. by split.
  - split; [done|]. right. split; [|exact Hw]. simpl. by apply sent_more.
Qed.

(** * Requests *)
Lemma processRequest_inv now now' cli req p p' :
  p_clients p !! rq_ClientID req = Some cli -> processRequest yaml_names range maxSecs now now' req p = OK tt p' ->
  exists resp p1, execute yaml_names range maxSecs now now' cli req p = OK resp p1 /\
    p_jsm p' = p_jsm p1 /\ p_clients p' = p_clients p1 /\ p_sent p' = p_sent p1 ++ option_list resp.
Proof.
  intros Hcli. unfold processRequest, gets, bind at 1. rewrite Hcli. intros (resp & p1 & Hop & Hr)%bind_inv_OK.
  exists resp, p1. split; [done|]. destruct resp as [r|]; case_decide; injection Hr as <-; by rewrite ?app_nil_r.
Qed.

Lemma quit_run cli req p :
  p_clients p !! cl_id cli = Some cli ->
  quit cli req p = OK (Some (NewCmdResponseFromReq req)) (set_p_clients (base.delete (cl_id cli) (p_clients p)) p).
Proof. intros Hcli. unfold quit, gets, bind at 1. by rewrite Hcli. Qed.

(** A reservation command is answered at once, or its client waits. *)
Lemma reserve_waits now now' cli req p resp p1 :
  jinv (p_jsm p) -> clock_ok now -> is_reserve (rq_CmdType req) -> typed (rq_CmdType req) (rq_cmd req) ->
  execute yaml_names range maxSecs now now' cli req p = OK resp p1 ->
  resp = None /\ waits_or_answered (cl_id cli, jtag (rq_ID req)) p p1 \/ is_Some resp /\ p1 = p.
Proof.
  intros Hj Hn Hr Ht Hop. unfold execute in Hop. destruct Hr as [Hr|Hr]; rewrite Hr in *.
  - apply bind_inv_OK in Hop as ([] & p2 & Ha & [= <- <-]). left. split; [done|].
    pose proof (append_waits_or cli (rq_ID req) now (wrap_i64 (now' + maxSecs)) p Hj Hn) as Hw. by rewrite Ha in Hw.
  - unfold reserveWithTimeout in Hop. destruct (rq_cmd req) as [| | | | | | |n]; try done.
    destruct (maxSecs <? n); [injection Hop as <- <-; right; by split|].
    apply bind_inv_OK in Hop as ([] & p2 & Ha & [= <- <-]). left. split; [done|].
    pose proof (append_waits_or cli (rq_ID req) now (wrap_i64 (now' + n)) p Hj Hn) as Hw. by rewrite Ha in Hw.
Qed.

Lemma processRequest_waits now now' cli req p p' :
  PInv p -> p_clients p !! rq_ClientID req = Some cli -> clock_ok now -> req_ok req ->
  processRequest yaml_names range maxSecs now now' req p = OK tt p' ->
  (p_sent p' = p_sent p /\ waits_of p' ≡ₚ (rq_ClientID req, jtag (rq_ID req)) :: waits_of p \/
   p_sent p' <> p_sent p /\ waits_of p' ≡ₚ waits_of p) /\
  (rq_ClientID req ∈ dom (p_clients p') <-> rq_CmdType req <> Quit).
Proof.
  intros Hp Hcli Hn Hok Hop. pose proof (pi_ids _ Hp _ _ Hcli) as Hid. pose proof (pi_jsm _ Hp) as Hj.
  destruct (processRequest_inv _ _ _ _ _ _ Hcli Hop) as (resp & p1 & He & E1 & E2 & E3).
  unfold waits_of. rewrite E1, E2, E3. destruct (decide (rq_CmdType req = Quit)) as [Hq|Hq].
  { unfold execute in He. rewrite Hq, (quit_run cli req p) in He by (by rewrite Hid). injection He as <- <-. split.
    - right. split; [by apply (sent_more p)|done].
    - simpl. rewrite dom_delete_L, Hid. set_solver. }
  assert (rq_ClientID req ∈ dom (p_clients p)) as Hdom by (by apply elem_of_dom_2 in Hcli).
  assert (Decision (is_reserve (rq_CmdType req))) as Hdec by (unfold is_reserve; apply _). destruct (decide (is_reserve (rq_CmdType req))) as [Hr|Hr].
  - destruct (reserve_waits now now' cli req p resp p1 Hj Hn Hr (proj1 Hok) He) as [[-> [-> Hw]]|[[r ->] ->]].
    + rewrite app_nil_r, Hid in *. by split.
    + split; [|done]. right. split; [by apply sent_more|done].
  - pose proof (execute_quiet now now' cli req Hn Hok Hr Hq (waits_of p) {[ rq_ClientID req ]} p Hj) as Hw.
    rewrite He in Hw. destruct Hw as [Hw HX]; [split; [done|set_solver]|]. split; [|set_solver].
    right. split; [|done]. destruct (processRequest_spec yaml_names range maxSecs range_perm now now' cli req p Hp Hcli Hn Hok)
      as (p2 & rs & Hop2 & _ & Hs & _ & Hc & _).
    rewrite Hop in Hop2. injection Hop2 as <-. rewrite <- E3, Hs. apply sent_more.
    destruct Hc as [(i & f & -> & _)|[_ ?]]; [by destruct i|done].
Qed.

(** * The ticker *)

(** What a client reads when its reservation is answered. *)
Definition answer_of (r : Reservation) : list CmdResponse :=
  let resp b more := mkCmdResponse (r_RequestId r) (r_ClientId r) b more in
  match r_Status r with
  | Matched =>
    [resp (bytes_of ("RESERVED " +:+ fmt_int (r_JobId r) +:+ " " +:+ fmt_int (r_BodySize r))) true; resp (r_Body r) false]
  | Timeout => [resp (bytes_of MsgTimedOut) false]
  | DeadlineSoon => [resp (bytes_of MsgDeadlineSoon) false]
  | Queued => []
  | RUnknown | RError => [resp (bytes_of MsgInternalError) false]
  end.

Lemma answer_complete r : is_reply r -> complete (r_RequestId r) (r_ClientId r) (answer_of r).
Proof. unfold answer_of, is_reply. destruct (r_Status r); intros Hr; try done; apply complete_one || apply complete_two. Qed.

Definition add_sent (rs : list CmdResponse) p : cmdProcessor := mkProc (p_jsm p) (p_clients p) (p_sent p ++ rs) (p_closed p).

Lemma reply_run r cli p :
  is_reply r -> p_clients p !! r_ClientId r = Some cli -> cl_id cli = r_ClientId r ->
  replyReservation (Some r) (Some cli) (r_RequestId r) p = OK tt (add_sent (answer_of r) p).
Proof.
  unfold replyReservation, answer_of, add_sent, is_reply. intros Hr Hcli Hid.
  destruct (r_Status r); try done; unfold sendCmdResponse, send, modify, bind, gets; cbn; rewrite ?Hcli; cbn;
    rewrite Hid, <- ?app_assoc; done.
Qed.

Lemma replyAll_run rs p :
  PInv p -> Forall is_reply rs -> Forall (fun r => r_ClientId r ∈ dom (p_clients p)) rs ->
  replyAll rs p = OK tt (add_sent (mjoin (answer_of <$> rs)) p).
Proof.
  intros Hp Ha Hd. revert p Hp Hd. induction Ha as [|r rs Hr _ IH]; intros p Hp Hd; cbn [replyAll].
  { unfold add_sent. simpl. rewrite app_nil_r. by destruct p. }
  apply Forall_cons in Hd as [[cli Hcli]%elem_of_dom Hd]. unfold gets, bind at 1. rewrite Hcli.
  rewrite (bind_OK _ _ _ _ _ (reply_run r cli p Hr Hcli (pi_ids _ Hp _ _ Hcli))), IH.
  - unfold add_sent. simpl. by rewrite <- app_assoc.
  - destruct Hp as [? ?]. by split.
  - done.
Qed.

(** A tick answers the clients that stop waiting, each completely, and nobody else. *)
Lemma tick_spec now p :
  PInv p -> clock_ok now -> Forall (fun w => w.1 ∈ dom (p_clients p)) (waits_of p) ->
  exists rs p', tick now p = OK tt p' /\ PInv p' /\ Forall is_reply rs /\
    waits_of p ≡ₚ waits_of p' ++ (answers <$> rs) /\ p_clients p' = p_clients p /\
    p_sent p' = p_sent p ++ mjoin (answer_of <$> rs).
Proof.
  intros Hp Hn Hw. pose proof (pi_jsm _ Hp) as Hj. pose proof (waits_Tick now (p_jsm p) Hj Hn) as Ht.
  destruct (law_Tick now (p_jsm p) Hj Hn) as (s' & Hf & Hj'). unfold tick, bind, try, call, zoom.
  destruct (jTick now (p_jsm p)) as [rs s|e s| |]; simplify_eq/=.
  - destruct Ht as [Ha Hp']. assert (PInv (set_p_jsm s' p)) as Hi by (by destruct Hp; split).
    exists rs, (add_sent (mjoin (answer_of <$> rs)) (set_p_jsm s' p)). split_and!; try done; [|by destruct Hi; split].
    apply replyAll_run; [done|done|]. fold (waits_of p) in Hp'. rewrite Hp' in Hw. apply Forall_app in Hw as [_ Hw].
    rewrite Forall_fmap in Hw. exact Hw.
  - exists [], (set_p_jsm s' p). split_and!; [done|by destruct Hp; split|done| |done|].
    + simpl. rewrite app_nil_r. symmetry. exact Ht.
    + simpl. by rewrite app_nil_r.
Qed.
End proc_waits.
