(* ===== verification/LocalWaits.v ===== *)
(** The state machine [localJSM] satisfies the laws on waiting clients. *)
From stdpp Require Import base gmap list strings.
From Stdlib Require Import ZArith Lia.
From S2P Require Import Prelude GoHeap Job JobHeap ClientResv Index JSM JobInv Commands Reserve Inv Tick Refine Machine.
From S2P Require Import Scenario Frame Waiting CmdData Processor ProcSpec LocalJSM ProcWaits.
Local Open Scope Z_scope.

(** An operation that leaves the clients alone leaves alone who waits. *)
Lemma final_same {A} (x : JM A) s s' :
  (forall P, triple (known P) x (fun _ => True)) -> final (x s) = Some s' -> waiting_requests s' = waiting_requests s.
Proof.
  intros Hx Hf. unfold waiting_requests. specialize (Hx (fun v => v = view (mem s)) s eq_refl). unfold known in Hx.
  destruct (x s); simpl in Hf; simplify_eq; [by destruct Hx as [-> _]|by rewrite Hx].
Qed.

Lemma exec_frame c P : public c -> triple (known P) (exec c) (fun _ => True).
Proof. destruct c; intros Hp; try done; cbn [exec]; walk. Qed.

Lemma append_waits s cid rid w now dl s' :
  Inv s -> clock_ok now -> NoDup w -> final (AppendReservation cid rid w now dl s) = Some s' ->
  (exists r, AppendReservation cid rid w now dl s = OK r s' /\ answered_request r = (cid, rid) /\
     (r_Status r = Queued /\ waiting_requests s' ≡ₚ (cid, rid) :: waiting_requests s \/
      r_Status r = Matched /\ waiting_requests s' ≡ₚ waiting_requests s)) \/
  (exists e, AppendReservation cid rid w now dl s = ERR e s' /\ waiting_requests s' = waiting_requests s).
Proof.
  intros HI Hn Hnd Hf. destruct (AppendReservation cid rid w now dl s) as [r s1|e s1| |] eqn:Hop; simplify_eq/=.
  - left. exists r. destruct (append_result s cid rid w now dl r s' HI Hn Hnd Hop) as (Hrid & Hid & Hst).
    pose proof (Append_accounts s cid rid w now dl r s' (ji_mem _ _ _ (inv_jobs _ HI)) Hop) as Hp. unfold answered_request in *.
    rewrite Hid, Hrid in Hp |- *. split_and!; [done|done|]. destruct Hst as [Hst|Hst]; rewrite Hst in Hp; [right|left]; by rewrite Hst.
  - right. exists e. split; [done|].
    pose proof (AppendReservation_spec s cid rid w now dl (inv_jobs _ HI) (inv_cli _ HI) Hnd (proj1 Hn) (clock_limit _ Hn)) as Hsp.
    rewrite Hop in Hsp. destruct (valid_deadline now dl); [|by injection Hsp as _ ->].
    destruct (client_entry s cid) as [[x c]|].
    + destruct (IsWaitingForResv c); [by injection Hsp as _ ->|]. by destruct Hsp as (? & ? & ? & _).
    + by destruct Hsp as (? & ? & ? & ? & _).
Qed.


(** The three classes of clients partition a list of them. *)
Lemma classes_partition s ids :
  filter (fun i => client_class s i = Some true) ids ++ filter (fun i => client_class s i = Some false) ids ++
    filter (fun i => client_class s i = None) ids ≡ₚ ids.
Proof.
  induction ids as [|i ids IH]; [done|]. rewrite !filter_cons.
  destruct (client_class s i) as [[]|]; repeat case_decide; try done; simpl; rewrite <- IH at 4; [done| |];
    rewrite ?Permutation_middle; [done|]. rewrite !app_assoc. by rewrite <- Permutation_middle.
Qed.

Section local_waits.
Context (yaml_Marshal : gmap string yvalue -> list Byte.byte + string) (range : gset TubeName -> list TubeName).
Hypothesis range_perm : forall X, range X ≡ₚ elements X.
Abbreviation ops := (localJSM_ops yaml_Marshal range).
Abbreviation laws := (localJSM_laws yaml_Marshal range range_perm).

Lemma steady_walk {A} (m : JM A) :
  (forall P, triple (known P) m (fun _ => True)) -> steady_call Inv waiting_requests m.
Proof. intros Hm s s' _ Hf. by rewrite (final_same m s s' Hm Hf). Qed.

#[export] Instance localJSM_waits : JSMWaits localJSM (H0:=laws).
Proof.
  refine {| jtoken := string; jtag := fun q => q; jwaits := waiting_requests |}; simpl;
    try (intros; apply steady_walk; intros P; unfold GetTubes, GetStatsJobAsYaml, GetStatsTubeAsYaml, GetStatsAsYaml, marshal, GetJob;
         walk; fail).
  - intros s s' _ Hf. unfold GetTubes in Hf. rewrite run_incr in Hf. by injection Hf as <-.
  - intros cid rid w now dl s HI Hn Hnd. pose proof (append_waits s cid rid w now dl) as Ha.
    destruct (AppendReservation cid rid w now dl s) as [r s'|e s'| |] eqn:E; try done; specialize (Ha s' HI Hn Hnd eq_refl).
    + destruct Ha as [(r' & [= <-] & _ & [[-> Hp]|[-> Hp]])|(? & ? & _)]; done.
    + destruct Ha as [(? & ? & _)|(? & _ & ->)]; done.
  - intros now s HI Hn. destruct (Tick_spec _ _ now s HI Hn (names_range range range_perm now s)) as (ms & os & s1 & Hop & _).
    rewrite Hop. destruct (Tick_accounts _ _ _ _ _ _ Hop) as [Hp Ha]. split; [|exact Hp].
    eapply Forall_impl; [exact Ha|]. unfold is_reply. by intros r [->|[->| ->]].
  - intros ids s w nw m s' HI. unfold CheckClientState. rewrite CheckClientState_loop_spec by apply HI. intros [= <- <- <- _].
    apply classes_partition.
Defined.
End local_waits.
