(* ===== verification/ClientURI.v ===== *)
(** Client identifiers of the replicated machine: [src/store/client_uri.go].

    A proxy and one of its clients are encoded into one identifier, a URI with two
    query parameters, and decoded again when a reservation is sent back.  [url.Parse],
    [Query] and [Encode] of the standard library's [net/url] (Go 1.13) are written out:
    the scheme and the query are computed, and the authority, path and fragment are
    checked as the parser checks them. *)
From stdpp Require Import base list strings.
From Stdlib Require Import ZArith Lia Ascii.
From S2P Require Import Prelude.
Local Open Scope string_scope.
Local Open Scope nat_scope.

(** * Percent encoding *)
Section escaping.
Implicit Types (c : ascii) (s : string).

Definition in_range (lo hi : nat) c : bool := let n := nat_of_ascii c in (lo <=? n) && (n <=? hi).
Definition is_letter c : bool := in_range 97 122 c || in_range 65 90 c.
Definition is_num c : bool := in_range 48 57 c.

(** [shouldEscape(c, encodeQueryComponent)] *)
Definition shouldEscape c : bool := negb (is_letter c || is_num c || existsb (Ascii.eqb c) ["-"; "_"; "."; "~"]%char).

Definition upperhex (n : nat) : ascii := ascii_of_nat (if n <? 10 then 48 + n else 55 + n).
Definition escape1 c : string :=
  if Ascii.eqb c " " then "+"
  else if shouldEscape c then
    let n := nat_of_ascii c in String "%" (String (upperhex (n / 16)) (String (upperhex (n mod 16)) ""))
  else String c "".
Fixpoint QueryEscape s : string := match s with "" => "" | String c s' => escape1 c ++ QueryEscape s' end.

Definition unhex c : option nat :=
  let n := nat_of_ascii c in
  if in_range 48 57 c then Some (n - 48) else if in_range 97 102 c then Some (n - 87)
  else if in_range 65 70 c then Some (n - 55) else None.

(** [unescape]; [plus] says whether [+] stands for a space. *)
Fixpoint unescape (plus : bool) s : option string :=
  match s with
  | "" => Some ""
  | String "%" s' =>
    match s' with
    | String a (String b s'') =>
      match unhex a, unhex b with
      | Some x, Some y => String (ascii_of_nat (16 * x + y)) <$> unescape plus s''
      | _, _ => None
      end
    | _ => None
    end
  | String c s' => String (if plus && Ascii.eqb c "+" then " "%char else c) <$> unescape plus s'
  end.
Definition QueryUnescape : string -> option string := unescape true.

(** [strings.Cut] and [strings.Split] at characters. *)
Fixpoint cut (p : ascii -> bool) s : string * option string :=
  match s with
  | "" => ("", None)
  | String c s' => if p c then ("", Some s') else let '(a, b) := cut p s' in (String c a, b)
  end.
Fixpoint split_on (p : ascii -> bool) s : list string :=
  match s with
  | "" => [""]
  | String c s' =>
    if p c then "" :: split_on p s'
    else match split_on p s' with w :: ws => String c w :: ws | [] => [] end
  end.
Fixpoint forall_chars (p : ascii -> bool) s : bool :=
  match s with "" => true | String c s' => p c && forall_chars p s' end.
End escaping.

(** * URLs *)
Section urls.

(** [getscheme]: an error, no scheme, or the scheme and the rest. *)
Fixpoint getscheme (first : bool) (s : string) : option (option (string * string)) :=
  match s with
  | "" => Some None
  | String c s' =>
    let more := match getscheme false s' with
                | Some (Some (sch, rest)) => Some (Some (String c sch, rest))
                | r => r
                end in
    if is_letter c then more
    else if is_num c || existsb (Ascii.eqb c) ["+"; "-"; "."]%char then if first then Some None else more
    else if Ascii.eqb c ":" then if first then None else Some (Some ("", s'))
    else Some None
  end.

Definition is_ctl (c : ascii) : bool := in_range 0 31 c || Ascii.eqb c (ascii_of_nat 127).
Fixpoint lower (s : string) : string :=
  match s with
  | "" => ""
  | String c s' => String (if in_range 65 90 c then ascii_of_nat (nat_of_ascii c + 32) else c) (lower s')
  end.

(** [shouldEscape] for a host or a zone. *)
Definition shouldEscape_host (c : ascii) : bool :=
  negb (is_letter c || is_num c ||
    existsb (Ascii.eqb c) ["!"; "$"; "&"; "'"; "("; ")"; "*"; "+"; ","; ";"; "="; ":"; "["; "]"; "<"; ">";
                           ascii_of_nat 34; "-"; "_"; "."; "~"]%char).

(** Whether [unescape] accepts a host, or the zone of an address. *)
Fixpoint host_ok (zone : bool) (s : string) : bool :=
  match s with
  | "" => true
  | String "%" s' =>
    match s' with
    | String a (String b s'') =>
      match unhex a, unhex b with
      | Some x, Some y =>
        let is25 := (x =? 2) && (y =? 5) in
        (if zone then is25 || (16 * x + y =? 32) || negb (shouldEscape_host (ascii_of_nat (16 * x + y)))
         else (8 <=? x) || is25) && host_ok zone s''
      | _, _ => false
      end
    | _ => false
    end
  | String c s' => ((128 <=? nat_of_ascii c) || negb (shouldEscape_host c)) && host_ok zone s'
  end.

(** The part before the last [d], and the part after it. *)
Fixpoint cut_last (d : ascii) (s : string) : option (string * string) :=
  match s with
  | "" => None
  | String c s' =>
    match cut_last d s' with
    | Some (a, b) => Some (String c a, b)
    | None => if Ascii.eqb c d then Some ("", s') else None
    end
  end.

(** [validOptionalPort] *)
Definition port_ok (s : string) : bool :=
  match s with "" => true | String c s' => Ascii.eqb c ":" && forall_chars is_num s' end.

(** Whether [parseHost] succeeds. *)
Definition parseHost (host : string) : bool :=
  match host with
  | String "[" _ =>
    match cut_last "]" host with
    | None => false
    | Some (h, colonPort) =>
      port_ok colonPort &&
      match String.index 0 "%25" h with
      | Some zone =>
        host_ok false (String.substring 0 zone host) &&
        host_ok true (String.substring zone (String.length h - zone) host) &&
        host_ok false (String "]" colonPort)
      | None => host_ok false host
      end
    end
  | _ =>
    match cut_last ":" host with
    | Some (_, port) => port_ok (String ":" port)
    | None => true
    end && host_ok false host
  end.

Definition validUserinfo (c : ascii) : bool :=
  is_letter c || is_num c ||
  existsb (Ascii.eqb c) ["-"; "."; "_"; ":"; "~"; "!"; "$"; "&"; "'"; "("; ")"; "*"; "+"; ","; ";"; "="; "%"; "@"]%char.
Definition unescapes (s : string) : bool := match unescape false s with Some _ => true | None => false end.

(** Whether [parseAuthority] succeeds. *)
Definition parseAuthority (authority : string) : bool :=
  match cut_last "@" authority with
  | None => parseHost authority
  | Some (userinfo, host) =>
    parseHost host && forall_chars validUserinfo userinfo &&
    let '(username, password) := cut (Ascii.eqb ":") userinfo in unescapes username && unescapes (default "" password)
  end.

(** The rest of [parse], on what is between scheme and query. *)
Definition valid_rest (sch rest : string) : bool :=
  match rest with
  | String "/" (String "/" r) =>
    if String.eqb sch "" && match r with String "/" _ => true | _ => false end then unescapes rest else
    let '(authority, path) := cut (Ascii.eqb "/") r in parseAuthority authority && unescapes (default "" path)
  | String "/" _ => unescapes rest
  | _ =>
    if negb (String.eqb sch "") then true else
    let '(segment, _) := cut (Ascii.eqb "/") rest in
    match cut (Ascii.eqb ":") segment with (_, Some _) => false | (_, None) => unescapes rest end
  end.

(** [url.Parse]: the scheme and the raw query. *)
Definition url_Parse (rawurl : string) : option (string * string) :=
  let '(u, frag) := cut (Ascii.eqb "#") rawurl in
  if negb (forall_chars (fun c => negb (is_ctl c)) u) then None else
  let parsed :=
    if String.eqb u "*" then Some ("", "") else
    match getscheme true u with
    | None => None
    | Some r =>
      let '(sch, rest) := match r with Some p => p | None => ("", u) end in
      let '(rest', q) := cut (Ascii.eqb "?") rest in
      if valid_rest (lower sch) rest' then Some (lower sch, default "" q) else None
    end in
  match parsed, unescape false (default "" frag) with
  | Some r, Some _ => Some r
  | _, _ => None
  end.

(** [u.Query().Get(key)]: pieces that do not decode are dropped. *)
Fixpoint query_get (key : string) (pieces : list string) : string :=
  match pieces with
  | [] => ""
  | p :: ps =>
    if String.eqb p "" then query_get key ps else
    let '(k, v) := cut (Ascii.eqb "=") p in
    match QueryUnescape k, QueryUnescape (default "" v) with
    | Some k', Some v' => if String.eqb k' key then v' else query_get key ps
    | _, _ => query_get key ps
    end
  end.
Definition is_sep (c : ascii) : bool := Ascii.eqb c "&" || Ascii.eqb c ";".
Definition Query_Get (rawQuery key : string) : string := query_get key (split_on is_sep rawQuery).

(** * [ClientURI] *)
Definition scheme : string := "client".
Inductive uri_error : Type := ErrInvalidURI | ErrValidationFailed | ErrInvalidSchema.
Record ClientURI : Type := NewClientURI { proxyID : string; clientID : string }.

Definition Validate (c : ClientURI) : option uri_error :=
  if String.eqb (clientID c) "" || String.eqb (proxyID c) "" then Some ErrValidationFailed else None.

Definition ParseClientURI (cid : string) : ClientURI + uri_error :=
  match url_Parse cid with
  | None => inr ErrInvalidURI
  | Some (sch, q) =>
    if negb (String.eqb (lower sch) scheme) then inr ErrInvalidSchema else
    let c := NewClientURI (Query_Get q "proxy") (Query_Get q "client") in
    match Validate c with Some e => inr e | None => inl c end
  end.

(** [url.Values.Encode] sorts the keys: [client] comes before [proxy]. *)
Definition ToClientID (c : ClientURI) : string :=
  "client://id?client=" ++ QueryEscape (clientID c) ++ "&proxy=" ++ QueryEscape (proxyID c).
End urls.

(** * Encoding and decoding are inverse *)
Section round_trip.

Lemma append_cons c a b : String c a ++ b = String c (a ++ b).
Proof. done. Qed.
Lemma append_nil a : a ++ "" = a.
Proof. induction a as [|c a IH]; [done|]. by rewrite append_cons, IH. Qed.
Lemma append_append a b c : (a ++ b) ++ c = a ++ (b ++ c).
Proof. induction a as [|x a IH]; [done|]. by rewrite !append_cons, IH. Qed.

Lemma unescape_escape1 c s : QueryUnescape (escape1 c ++ s) = String c <$> QueryUnescape s.
Proof. destruct c as [[] [] [] [] [] [] [] []]; reflexivity. Qed.

Lemma unescape_escape s : QueryUnescape (QueryEscape s) = Some s.
Proof. induction s as [|c s IH]; [done|]. cbn [QueryEscape]. by rewrite unescape_escape1, IH. Qed.

(** No character of an escaped string has a meaning in a URL. *)
Definition plain (c : ascii) : bool :=
  negb (existsb (Ascii.eqb c) ["#"; "?"; "&"; ";"; "="]%char || is_ctl c).
Lemma forall_chars_app p a b : forall_chars p (a ++ b) = forall_chars p a && forall_chars p b.
Proof. induction a as [|c a IH]; [done|]. rewrite append_cons. cbn [forall_chars]. by rewrite IH, andb_assoc. Qed.
Lemma escape_plain s : forall_chars plain (QueryEscape s) = true.
Proof.
  induction s as [|c s IH]; [done|]. cbn [QueryEscape]. rewrite forall_chars_app, IH, andb_true_r.
  destruct c as [[] [] [] [] [] [] [] []]; reflexivity.
Qed.

Lemma plain_not (p : ascii -> bool) s :
  (forall c, plain c = true -> p c = false) -> forall_chars plain s = true -> forall_chars (fun c => negb (p c)) s = true.
Proof.
  intros Hp. induction s as [|c s IH]; [done|]. cbn [forall_chars]. intros [Hc Hs]%andb_true_iff.
  by rewrite (Hp c Hc), IH.
Qed.
Lemma plain_sep c : plain c = true -> is_sep c = false.
Proof. destruct c as [[] [] [] [] [] [] [] []]; done. Qed.
Lemma plain_eqb d c : plain d = false -> plain c = true -> Ascii.eqb d c = false.
Proof. intros Hd Hc. apply Ascii.eqb_neq. congruence. Qed.
Lemma plain_ctl c : plain c = true -> is_ctl c = false.
Proof. unfold plain. intros [_ H]%negb_true_iff%orb_false_iff. done. Qed.

Lemma cut_none p s : forall_chars (fun c => negb (p c)) s = true -> cut p s = (s, None).
Proof.
  induction s as [|c s IH]; [done|]. cbn [forall_chars cut]. intros [Hc%negb_true_iff Hs]%andb_true_iff.
  by rewrite Hc, IH.
Qed.
Lemma split_none p s : forall_chars (fun c => negb (p c)) s = true -> split_on p s = [s].
Proof.
  induction s as [|c s IH]; [done|]. cbn [forall_chars split_on]. intros [Hc%negb_true_iff Hs]%andb_true_iff.
  by rewrite Hc, IH.
Qed.
Lemma split_app p a c b :
  forall_chars (fun c => negb (p c)) a = true -> p c = true -> split_on p (a ++ String c b) = a :: split_on p b.
Proof.
  intros Ha Hc. induction a as [|x a IH]; [change ("" ++ String c b) with (String c b); cbn [split_on]; by rewrite Hc|]. rewrite append_cons.
  cbn [forall_chars split_on] in *. apply andb_true_iff in Ha as [Hx%negb_true_iff Ha]. by rewrite Hx, IH.
Qed.

(** [url.Parse] accepts the host [id]. *)
Lemma valid_id : valid_rest "client" "//id" = true.
Proof. reflexivity. Qed.

Lemma ToClientID_parses c :
  url_Parse (ToClientID c)
  = Some ("client", "client=" ++ QueryEscape (clientID c) ++ "&proxy=" ++ QueryEscape (proxyID c)).
Proof.
  unfold url_Parse, ToClientID. set (q := "client=" ++ _).
  assert (forall_chars (fun c => negb (Ascii.eqb "#" c)) q = true /\ forall_chars (fun c => negb (is_ctl c)) q = true)
    as [Hh Hc].
  { unfold q. rewrite !forall_chars_app.
    split; [rewrite !(plain_not (Ascii.eqb "#") (QueryEscape _))|rewrite !(plain_not is_ctl (QueryEscape _))];
      (done || apply escape_plain || (intros x; by apply plain_eqb) || (intros x; by apply plain_ctl)). }
  change ("client://id?client=" ++ _) with ("client://id?" ++ q).
  rewrite cut_none by (rewrite forall_chars_app; by rewrite Hh).
  rewrite forall_chars_app, Hc. clearbody q.
  assert (getscheme true ("client://id?" ++ q) = Some (Some ("client", "//id?" ++ q))) as -> by reflexivity.
  assert (cut (Ascii.eqb "?") ("//id?" ++ q) = ("//id", Some q)) as -> by reflexivity.
  change (lower "client") with "client". by rewrite valid_id.
Qed.

Lemma Parse_ToClientID c :
  ParseClientURI (ToClientID c) = match Validate c with Some e => inr e | None => inl c end.
Proof.
  unfold ParseClientURI. rewrite ToClientID_parses. cbn [String.eqb lower]. cbn -[Query_Get].
  assert (forall k, Query_Get ("client=" ++ QueryEscape (clientID c) ++ "&proxy=" ++ QueryEscape (proxyID c)) k =
    query_get k ["client=" ++ QueryEscape (clientID c); "proxy=" ++ QueryEscape (proxyID c)]) as Hq.
  { intros k. unfold Query_Get. rewrite <- append_append. change ("&proxy=" ++ ?x) with (String "&" ("proxy=" ++ x)).
    rewrite split_app; [|rewrite forall_chars_app; by rewrite (plain_not is_sep (QueryEscape _)) by (apply plain_sep || apply escape_plain)|done].
    rewrite split_none; [done|]. rewrite forall_chars_app. by rewrite (plain_not is_sep (QueryEscape _)) by (apply plain_sep || apply escape_plain). }
  rewrite !Hq. cbn [query_get].
  assert (forall x, cut (Ascii.eqb "=") ("client=" ++ x) = ("client", Some x)) as Hc1 by reflexivity.
  assert (forall x, cut (Ascii.eqb "=") ("proxy=" ++ x) = ("proxy", Some x)) as Hc2 by reflexivity.
  assert (forall x, String.eqb ("client=" ++ x) "" = false) as He1 by done.
  assert (forall x, String.eqb ("proxy=" ++ x) "" = false) as He2 by done. rewrite !He1, !He2, Hc1, Hc2. cbv beta iota. cbn [from_option]. unfold id. rewrite !unescape_escape.
  change (QueryUnescape "client") with (Some "client"). change (QueryUnescape "proxy") with (Some "proxy").
  by destruct c.
Qed.

Lemma ParseClientURI_ToClientID c : Validate c = None -> ParseClientURI (ToClientID c) = inl c.
Proof. intros Hv. by rewrite Parse_ToClientID, Hv. Qed.

Lemma ToClientID_inj c c' : Validate c = None -> ToClientID c = ToClientID c' -> c = c'.
Proof.
  intros Hc E. pose proof (ParseClientURI_ToClientID c Hc) as H. rewrite E, Parse_ToClientID in H.
  destruct (Validate c'); [done|]. by injection H.
Qed.
End round_trip.
