(* ===== verification/Store.v ===== *)
(** The replicated state machine: the [fsm] of [src/store/store.go].

    A committed log entry is applied by [Apply]: the request is decoded, the operation
    runs on the state machine behind the [JSM] interface, and its result or error is
    packed into a response.  The protobuf encoding of the messages is left out: an
    operation carries its decoded request, and a response its decoded body. *)
From stdpp Require Import base gmap list strings.
From Stdlib Require Import ZArith Lia.
From S2P Require Import Prelude Job Snapshot ClientURI Processor.
Local Open Scope Z_scope.

(** * Messages *)
Record BuryRequest : Type := mkBuryRequest {
  bq_JobId : Z; bq_Priority : Z; bq_ClientId : string; bq_ProxyId : string }.
Record DeleteRequest : Type := mkDeleteRequest { dq_JobId : Z; dq_ProxyId : string; dq_ClientId : string }.
Record PutRequest : Type := mkPutRequest {
  pq_Priority : Z; pq_Delay : Z; pq_Ttr : Z; pq_TubeName : string; pq_BodySize : Z; pq_Body : slice }.
Record ReleaseRequest : Type := mkReleaseRequest {
  lq_JobId : Z; lq_ClientId : string; lq_ProxyId : string; lq_Delay : Z; lq_Priority : Z }.
Record ReserveRequest : Type := mkReserveRequest {
  vq_ClientId : string; vq_RequestId : string; vq_TimeoutSecs : Z; vq_WatchedTubes : list string; vq_ProxyId : string }.
Record TouchRequest : Type := mkTouchRequest { tq_JobId : Z; tq_ClientId : string; tq_ProxyId : string }.
Record CheckClientStateRequest : Type := mkCheckRequest { cq_ProxyId : string; cq_ClientIds : list string }.
Record CheckClientStateResponse : Type := mkCheckResponse {
  cs_ProxyId : string; cs_Waiting : list string; cs_NotWaiting : list string; cs_Missing : list string }.

(** [v1.Reservation]; the statuses of the two packages have the same numbers. *)
Record V1Reservation : Type := mkV1Reservation {
  v_RequestId : string; v_ClientId : string; v_ProxyId : string; v_Status : ReservationStatus;
  v_JobId : Z; v_BodySize : Z; v_Body : slice; v_Error : option error }.

(** [ApplyOpRequest.Op] with the decoded body. *)
Inductive OpRequest : Type :=
| OpType_BURY (r : BuryRequest) | OpType_DELETE (r : DeleteRequest) | OpType_KICK (jobId : Z)
| OpType_KICKN (tubeName : string) (bound : Z) | OpType_LIST_TUBES
| OpType_PEEK_BURIED (tubeName : string) | OpType_PEEK_READY (tubeName : string) | OpType_PEEK_DELAYED (tubeName : string)
| OpType_PUT (r : PutRequest) | OpType_GET_JOB (jobId : Z) | OpType_RELEASE (r : ReleaseRequest)
| OpType_RESERVE (r : ReserveRequest) | OpType_STATS_JOB_YAML (jobId : Z) | OpType_STATS_TUBE_YAML (tubeName : string)
| OpType_STATS_YAML | OpType_TICK | OpType_TOUCH (r : TouchRequest)
| OpType_CHECK_CLIENT_STATE (r : CheckClientStateRequest) | OpType_UNKNOWN (n : Z).

Inductive Body : Type :=
| BEmpty | BPut (jobId : Z) | BJob (j : JobProto) | BKickN (jobsKicked : Z) | BListTubes (tubes : list string)
| BReserve (r : V1Reservation) | BStatsYaml (b : list Byte.byte)
| BTick (proxyReservations : gmap string (list V1Reservation)) | BCheck (r : CheckClientStateResponse).

Inductive ResultCode : Type :=
| ResultCode_OK | ResultCode_Canceled | ResultCode_Unknown | ResultCode_InvalidArgument | ResultCode_DeadlineExceeded
| ResultCode_NotFound | ResultCode_AlreadyExists | ResultCode_PermissionDenied | ResultCode_ResourceExhausted
| ResultCode_FailedPrecondition | ResultCode_Aborted | ResultCode_OutOfRange | ResultCode_Unimplemented
| ResultCode_Internal | ResultCode_Unavailable | ResultCode_DataLoss | ResultCode_Unauthenticated.
#[export] Instance ResultCode_eq_dec : EqDecision ResultCode.
Proof. solve_decision. Defined.

(** What the error message is printed from: an error of the state machine, of a client
    identifier, an unknown operation, a node that does not lead, a failed [raft.Apply]. *)
Inductive apply_error : Type :=
| AJsm (e : error) | AUri (e : uri_error) | AUnsupported (op : Z) | ANotLeader | AApplyOp.
Record ApplyOpResponse : Type := mkApplyOpResponse {
  ErrorCode : ResultCode; ErrorMessage : option apply_error; ResponseBody : option Body }.

(** * The operations *)
Section fsm.
Context {J : Type} `{JSMOps J}.
Abbreviation FM := (M apply_error J).

(** A call of [f.jsm]. *)
Definition jsm {A} (m : M error J A) : FM A :=
  fun s => match m s with
           | OK a s' => OK a s'
           | ERR e s' => ERR (AJsm e) s'
           | PANIC => PANIC
           | DIVERGE => DIVERGE
           end.
(** A result of a function that does not touch the state. *)
Definition of_uri {A} (r : A + uri_error) : FM A := match r with inl a => ret a | inr e => raise (AUri e) end.

Definition newClientUri (proxyId clientId : string) : ClientURI + uri_error :=
  let cu := NewClientURI proxyId clientId in
  match Validate cu with Some e => inr e | None => inl cu end.

Definition ApplyBury (nowSecs : Z) (req : BuryRequest) : FM Body :=
  cu <- of_uri (newClientUri (bq_ProxyId req) (bq_ClientId req)) ;;
  jsm (jBury nowSecs (wrap_u64 (bq_JobId req)) (bq_Priority req) (ToClientID cu)) ;; ret BEmpty.

Definition ApplyDelete (req : DeleteRequest) : FM Body :=
  cu <- of_uri (newClientUri (dq_ProxyId req) (dq_ClientId req)) ;;
  jsm (jDelete (wrap_u64 (dq_JobId req)) (ToClientID cu)) ;; ret BEmpty.

Definition ApplyGetJob (jobId : Z) : FM Body :=
  j <- jsm (jGetJob (wrap_u64 jobId)) ;; ret (BJob (JobToJobProto j)).

Definition ApplyPut (nowSecs : Z) (pReq : PutRequest) : FM Body :=
  jobID <- jsm (jPut nowSecs (pq_Priority pReq) (pq_Delay pReq) (pq_Ttr pReq) (pq_BodySize pReq) (pq_Body pReq)
                  (pq_TubeName pReq)) ;;
  ret (BPut (wrap_i64 jobID)).

Definition ApplyPeek (pfunc : TubeName -> M error J Job) (tubeName : string) : FM Body :=
  j <- jsm (pfunc tubeName) ;; ret (BJob (JobToJobProto j)).
Definition ApplyPeekBuried : string -> FM Body := ApplyPeek jPeekBuriedJob.
Definition ApplyPeekDelayed : string -> FM Body := ApplyPeek jPeekDelayedJob.
Definition ApplyPeekReady : string -> FM Body := ApplyPeek jPeekReadyJob.

Definition ApplyKick (jobId : Z) : FM Body := jsm (jKick (wrap_u64 jobId)) ;; ret BEmpty.
Definition ApplyKickN (tubeName : string) (bound : Z) : FM Body :=
  n <- jsm (jKickN tubeName bound) ;; ret (BKickN (wrap_i32 n)).
Definition ApplyListTubes : FM Body := ts <- jsm jGetTubes ;; ret (BListTubes ts).

Definition ApplyRelease (nowSecs : Z) (req : ReleaseRequest) : FM Body :=
  cu <- of_uri (newClientUri (lq_ProxyId req) (lq_ClientId req)) ;;
  jsm (jReleaseWith nowSecs (wrap_u64 (lq_JobId req)) (ToClientID cu) (lq_Priority req) (lq_Delay req)) ;; ret BEmpty.

Definition toV1Reservation (r : Reservation) : V1Reservation + uri_error :=
  match ParseClientURI (r_ClientId r) with
  | inr e => inr e
  | inl cu => inl (mkV1Reservation (r_RequestId r) (clientID cu) (proxyID cu) (r_Status r) (wrap_i64 (r_JobId r))
                     (wrap_i32 (r_BodySize r)) (r_Body r) (r_Error r))
  end.

Definition ApplyReserve (nowSecs : Z) (req : ReserveRequest) : FM Body :=
  cu <- of_uri (newClientUri (vq_ProxyId req) (vq_ClientId req)) ;;
  r <- jsm (jAppendReservation (ToClientID cu) (vq_RequestId req) (vq_WatchedTubes req) nowSecs
              (wrap_i64 (nowSecs + vq_TimeoutSecs req))) ;;
  v1r <- of_uri (toV1Reservation r) ;;
  ret (BReserve v1r).

Definition ApplyStatsJobYaml (nowSecs jobId : Z) : FM Body :=
  b <- jsm (jGetStatsJobAsYaml nowSecs (wrap_u64 jobId)) ;; ret (BStatsYaml b).
Definition ApplyStatsTubeYaml (nowSecs : Z) (tubeName : string) : FM Body :=
  b <- jsm (jGetStatsTubeAsYaml nowSecs tubeName) ;; ret (BStatsYaml b).
Definition ApplyStatsYaml (nowSecs : Z) : FM Body := b <- jsm (jGetStatsAsYaml nowSecs) ;; ret (BStatsYaml b).

(** The loop of [ApplyTick]: group the reservations by proxy. *)
Fixpoint group_by_proxy (rs : list Reservation) (proxyReservations : gmap string (list V1Reservation))
    : gmap string (list V1Reservation) + uri_error :=
  match rs with
  | [] => inl proxyReservations
  | r :: rs' =>
    match toV1Reservation r with
    | inr e => inr e
    | inl v1r =>
      group_by_proxy rs'
        (match proxyReservations !! v_ProxyId v1r with
         | None => <[v_ProxyId v1r := [v1r]]> proxyReservations
         | Some es => <[v_ProxyId v1r := es ++ [v1r]]> proxyReservations
         end)
    end
  end.
Definition ApplyTick (nowSecs : Z) : FM Body :=
  rs <- jsm (jTick nowSecs) ;; g <- of_uri (group_by_proxy rs ∅) ;; ret (BTick g).

Definition ApplyTouch (nowSecs : Z) (req : TouchRequest) : FM Body :=
  cu <- of_uri (newClientUri (tq_ProxyId req) (tq_ClientId req)) ;;
  jsm (jTouch nowSecs (wrap_u64 (tq_JobId req)) (ToClientID cu)) ;; ret BEmpty.

Fixpoint check_ids (proxyId : string) (ids : list string) : list ClientID + uri_error :=
  match ids with
  | [] => inl []
  | i :: ids' =>
    let cu := NewClientURI proxyId i in
    match Validate cu with
    | Some e => inr e
    | None => match check_ids proxyId ids' with inl l => inl (ToClientID cu :: l) | inr e => inr e end
    end
  end.

Fixpoint ToStrings (clientIds : list ClientID) : list string + uri_error :=
  match clientIds with
  | [] => inl []
  | c :: cs =>
    match ParseClientURI c with
    | inr e => inr e
    | inl cu => match ToStrings cs with inl l => inl (clientID cu :: l) | inr e => inr e end
    end
  end.

Definition ApplyCheckState (req : CheckClientStateRequest) : FM Body :=
  ids <- of_uri (check_ids (cq_ProxyId req) (cq_ClientIds req)) ;;
  r <- jsm (jCheckClientState ids) ;;
  let '(w, nw, m) := r in
  missing <- of_uri (ToStrings m) ;;
  waiting <- of_uri (ToStrings w) ;;
  notWaiting <- of_uri (ToStrings nw) ;;
  ret (BCheck (mkCheckResponse (cq_ProxyId req) waiting notWaiting missing)).

(** * [Apply] *)

(** [newApplyRespBytes]: an error is part of the response. *)
Definition newApplyResp (m : FM Body) : FM ApplyOpResponse :=
  fun s => match m s with
           | OK b s' => OK (mkApplyOpResponse ResultCode_OK None (Some b)) s'
           | ERR e s' => OK (mkApplyOpResponse ResultCode_Unknown (Some e) None) s'
           | PANIC => PANIC
           | DIVERGE => DIVERGE
           end.

Definition Apply (nowSecs : Z) (op : OpRequest) : FM ApplyOpResponse :=
  match op with
  | OpType_BURY r => newApplyResp (ApplyBury nowSecs r)
  | OpType_DELETE r => newApplyResp (ApplyDelete r)
  | OpType_KICK i => newApplyResp (ApplyKick i)
  | OpType_KICKN t n => newApplyResp (ApplyKickN t n)
  | OpType_LIST_TUBES => newApplyResp ApplyListTubes
  | OpType_PEEK_BURIED t => newApplyResp (ApplyPeekBuried t)
  | OpType_PEEK_READY t => newApplyResp (ApplyPeekReady t)
  | OpType_PEEK_DELAYED t => newApplyResp (ApplyPeekDelayed t)
  | OpType_PUT r => newApplyResp (ApplyPut nowSecs r)
  | OpType_GET_JOB i => newApplyResp (ApplyGetJob i)
  | OpType_RELEASE r => newApplyResp (ApplyRelease nowSecs r)
  | OpType_RESERVE r => newApplyResp (ApplyReserve nowSecs r)
  | OpType_STATS_JOB_YAML i => newApplyResp (ApplyStatsJobYaml nowSecs i)
  | OpType_STATS_TUBE_YAML t => newApplyResp (ApplyStatsTubeYaml nowSecs t)
  | OpType_STATS_YAML => newApplyResp (ApplyStatsYaml nowSecs)
  | OpType_TICK => newApplyResp (ApplyTick nowSecs)
  | OpType_TOUCH r => newApplyResp (ApplyTouch nowSecs r)
  | OpType_CHECK_CLIENT_STATE r => newApplyResp (ApplyCheckState r)
  | OpType_UNKNOWN n => ret (mkApplyOpResponse ResultCode_Unimplemented (Some (AUnsupported n)) None)
  end.

(** Replaying a log. *)
Fixpoint replay (log : list (Z * OpRequest)) : FM (list ApplyOpResponse) :=
  match log with
  | [] => ret []
  | (now, op) :: log' => r <- Apply now op ;; rs <- replay log' ;; ret (r :: rs)
  end.
End fsm.
