(* ===== verification/StoreSpec.v ===== *)
(** The replicated machine against the interface of the state machine: a committed
    entry is applied without a panic on every replica, and the invariant is kept. *)
From stdpp Require Import base gmap list strings.
From Stdlib Require Import ZArith Lia.
From S2P Require Import Prelude Job Snapshot ClientURI Processor Store Inv ProcSpec.
Local Open Scope Z_scope.

Section apply.
Context {J : Type} `{JSMLaws J}.
(** The machine takes every time to run that cannot overflow a deadline. *)
Hypothesis takes_ttr : forall t, ttr_ok t -> jttr_ok t.
Implicit Types s : J.

(** [m] returns, with a value or an error, in a state of the invariant. *)
Definition applies {A} (m : M apply_error J A) s : Prop := exists s', final (m s) = Some s' /\ jinv s'.

Lemma applies_jsm {A} (m : M error J A) s : kept jinv (m s) -> applies (jsm m) s.
Proof. intros (s' & Hf & Hi). exists s'. split; [|done]. unfold jsm. by destruct (m s). Qed.

Lemma applies_bind {A B} (m : M apply_error J A) (k : A -> M apply_error J B) s :
  applies m s -> (forall a s', m s = OK a s' -> jinv s' -> applies (k a) s') -> applies (bind m k) s.
Proof.
  intros (s' & Hf & Hi) Hk. unfold applies, bind. destruct (m s) as [a s1|e s1| |]; simplify_eq/=; [|by exists s'].
  destruct (Hk a s' eq_refl Hi) as (s2 & ? & ?). eauto.
Qed.

Lemma applies_uri {A} (r : A + uri_error) s : jinv s -> applies (of_uri r) s.
Proof. intros Hi. exists s. by destruct r. Qed.

Lemma applies_ret {A} (a : A) s : jinv s -> applies (ret a) s.
Proof. intros Hi. by exists s. Qed.

Lemma applies_resp m s : applies m s -> exists r s', newApplyResp m s = OK r s' /\ jinv s'.
Proof. intros (s' & Hf & Hi). unfold newApplyResp. destruct (m s); simplify_eq/=; eauto. Qed.

(** What a committed entry must satisfy: times below 2^62, no duplicate tube names. *)
Definition op_ok (now : Z) (op : OpRequest) : Prop :=
  clock_ok now /\
  match op with
  | OpType_PUT r => ttr_ok (pq_Ttr r)
  | OpType_RESERVE r => NoDup (vq_WatchedTubes r)
  | _ => True
  end.

Lemma ToClientID_nonempty c : ToClientID c <> ""%string.
Proof. done. Qed.
Hint Resolve ToClientID_nonempty : jsm.

Lemma append_kept cid rid w now dl s : jinv s -> clock_ok now -> NoDup w -> kept jinv (jAppendReservation cid rid w now dl s).
Proof. intros Hi Hn Hw. by apply (law_Append cid rid w now dl s). Qed.
Hint Resolve append_kept : jsm.

Ltac apply_step :=
  repeat first [ apply applies_bind; [|intros ? ? ? ?] | apply applies_uri; assumption | apply applies_ret; assumption
    | apply applies_jsm; solve [eauto with jsm]
    | match goal with p : (_ * _)%type |- _ => destruct p end ].

Lemma Apply_returns now op s :
  jinv s -> op_ok now op -> exists resp s', Apply now op s = OK resp s' /\ jinv s'.
Proof.
  intros Hi [Hn Hop]. destruct op; simpl in Hop; cbn [Apply]; try (by eauto); apply applies_resp;
    unfold ApplyBury, ApplyDelete, ApplyKick, ApplyKickN, ApplyListTubes, ApplyPeekBuried, ApplyPeekReady, ApplyPeekDelayed,
      ApplyPeek, ApplyPut, ApplyGetJob, ApplyRelease, ApplyReserve, ApplyStatsJobYaml, ApplyStatsTubeYaml, ApplyStatsYaml,
      ApplyTick, ApplyTouch, ApplyCheckState; apply_step.
Qed.

Lemma replay_returns log s :
  jinv s -> Forall (fun e => op_ok e.1 e.2) log ->
  exists rs s', replay log s = OK rs s' /\ jinv s' /\ length rs = length log.
Proof.
  revert s. induction log as [|[now op] log IH]; intros s Hi Hall; [by exists [], s|].
  apply Forall_cons in Hall as [Hop Hall]. destruct (Apply_returns now op s Hi Hop) as (r & s1 & E1 & Hi1).
  destruct (IH s1 Hi1 Hall) as (rs & s2 & E2 & Hi2 & Hl). exists (r :: rs), s2. cbn [replay].
  rewrite (bind_OK _ _ _ _ _ E1), (bind_OK _ _ _ _ _ E2). split_and!; [done|done|simpl; by f_equal].
Qed.
End apply.

(** * Grouping *)
Section grouping.

(** The client identifier was made from a proxy and a client. *)
Definition made (cid : ClientID) : Prop := exists cu, Validate cu = None /\ cid = ToClientID cu.
Definition uri_of (r : Reservation) : ClientURI :=
  match ParseClientURI (r_ClientId r) with inl cu => cu | inr _ => NewClientURI "" "" end.
Definition v1_of (r : Reservation) : V1Reservation :=
  mkV1Reservation (r_RequestId r) (clientID (uri_of r)) (proxyID (uri_of r)) (r_Status r) (wrap_i64 (r_JobId r))
    (wrap_i32 (r_BodySize r)) (r_Body r) (r_Error r).

Lemma made_parses r : made (r_ClientId r) -> ParseClientURI (r_ClientId r) = inl (uri_of r) /\ r_ClientId r = ToClientID (uri_of r).
Proof.
  intros (cu & Hv & E). unfold uri_of. rewrite E, (ParseClientURI_ToClientID cu Hv). done.
Qed.

(** Every group holds the reservations of its proxy, in order, and no other. *)
Lemma group_by_proxy_spec rs m :
  Forall (fun r => made (r_ClientId r)) rs -> map_Forall (fun _ es => es <> []) m ->
  exists g, group_by_proxy rs m = inl g /\ map_Forall (fun _ es => es <> []) g /\
    forall p, default [] (g !! p) = default [] (m !! p) ++ (v1_of <$> filter (fun r => proxyID (uri_of r) = p) rs).
Proof.
  revert m. induction rs as [|r rs IH]; intros m Hall Hm.
  { exists m. split_and!; [done|done|]. intros p. by rewrite filter_nil, app_nil_r. }
  apply Forall_cons in Hall as [Hr Hall]. destruct (made_parses r Hr) as [Hp _].
  cbn [group_by_proxy]. unfold toV1Reservation. rewrite Hp. fold (v1_of r). cbn [v_ProxyId].
  set (p0 := proxyID (uri_of r)). set (m' := match m !! p0 with None => <[p0 := [v1_of r]]> m | Some es => <[p0 := es ++ [v1_of r]]> m end).
  assert (forall p, m' !! p = if decide (p = p0) then Some (default [] (m !! p) ++ [v1_of r]) else m !! p) as Hm'.
  { intros p. unfold m'. case_decide as Hd; [subst p|]; destruct (m !! p0) as [es|] eqn:E; simpl;
      rewrite ?lookup_insert_eq, ?lookup_insert_ne by done; done. }
  destruct (IH m' Hall) as (g & Hg & Hne & Hgrp).
  { intros p es. rewrite Hm'. case_decide; [intros [= <-]; by destruct (default [] (m !! p))|apply Hm]. }
  exists g. split_and!; [done|done|]. intros p. rewrite Hgrp, Hm', filter_cons. fold p0.
  destruct (decide (p = p0)) as [->|Hd].
  - rewrite decide_True by done. cbn. by rewrite <- app_assoc.
  - by rewrite decide_False by congruence.
Qed.
End grouping.
