(* ===== verification/Replica.v ===== *)
(** A replica: the replicated machine over [localJSM].

    The state that committed entries lead to satisfies the invariant of the job state
    machine, and every client in it carries an identifier made from a proxy and a
    client, so the answers can be decoded and routed. *)
From stdpp Require Import base gmap list strings.
From Stdlib Require Import ZArith Lia.
From S2P Require Import Prelude Job JSM Inv Tick Frame Known Processor ProcSpec LocalJSM ClientURI Store StoreSpec.
Local Open Scope Z_scope.

Section replica.
Context (yaml_Marshal : gmap string yvalue -> list Byte.byte + string) (range : gset TubeName -> list TubeName).
Let ops := localJSM_ops yaml_Marshal range.
Existing Instance ops.

(** * Every client was made from a proxy and a client *)
Lemma triple_jsm {A} P (m : M error localJSM A) Q : triple P m Q -> triple P (jsm m) Q.
Proof. intros Hm s Hs. unfold jsm. specialize (Hm s Hs). by destruct (m s). Qed.

Lemma triple_uri {A} (P : localJSM -> Prop) (r : A + uri_error) :
  triple P (of_uri r) (fun a => r = inl a).
Proof. intros s Hs. by destruct r. Qed.

Lemma triple_resp P (m : M apply_error localJSM Body) : triple P m (fun _ => True) -> triple P (newApplyResp m) (fun _ => True).
Proof. intros Hm s Hs. unfold newApplyResp. specialize (Hm s Hs). by destruct (m s). Qed.

Lemma newClientUri_made p i cu : newClientUri p i = inl cu -> cu = NewClientURI p i /\ made (ToClientID cu).
Proof.
  unfold newClientUri. destruct (Validate (NewClientURI p i)) eqn:Hv; [done|]. intros [= <-]. split; [done|].
  by exists (NewClientURI p i).
Qed.
Lemma check_ids_made p ids l : check_ids p ids = inl l -> Forall made l.
Proof.
  revert l. induction ids as [|i ids IH]; cbn [check_ids]; intros l; [intros [= <-]; constructor|].
  destruct (Validate (NewClientURI p i)) eqn:Hv; [done|]. destruct (check_ids p ids) as [l'|]; [|done]. intros [= <-].
  constructor; [by eexists|by apply IH].
Qed.

Abbreviation keeps_made op := (triple (known (ids_ok made)) op (fun _ => True)).

(** The operations that do not take or return clients. *)
Lemma made_reads :
  (forall jid, keeps_made (jGetJob jid)) /\ (forall t, keeps_made (jPeekBuriedJob t)) /\
  (forall t, keeps_made (jPeekDelayedJob t)) /\ (forall t, keeps_made (jPeekReadyJob t)) /\ keeps_made jGetTubes /\
  (forall now jid, keeps_made (jGetStatsJobAsYaml now jid)) /\ (forall now t, keeps_made (jGetStatsTubeAsYaml now t)) /\
  (forall now, keeps_made (jGetStatsAsYaml now)).
Proof.
  split_and!; intros; simpl; unfold GetJob, GetStatsJobAsYaml, GetStatsTubeAsYaml, GetStatsAsYaml, marshal; walk.
  by intros s Hs.
Qed.

Lemma made_Tick now : triple (known (ids_ok made)) (jTick now) (Forall (fun r => made (r_ClientId r))).
Proof. intros s Hs. exact (ids_Tick made (tube_names range s) (ready_names range now s) now s Hs). Qed.

Ltac walk_apply := repeat first
  [ eapply triple_bind; [solve [apply triple_uri | apply triple_jsm; simpl; eauto with known nocore
      | apply triple_jsm, made_reads | apply triple_jsm, made_Tick ]|intros ? ?]
  | solve [apply triple_ret; done] ].

Lemma made_Apply now op : triple (known (ids_ok made)) (Apply now op) (fun _ => True).
Proof.
  destruct op; cbn [Apply]; try (by apply triple_ret); apply triple_resp;
    unfold ApplyBury, ApplyDelete, ApplyKick, ApplyKickN, ApplyListTubes, ApplyPeekBuried, ApplyPeekReady, ApplyPeekDelayed,
      ApplyPeek, ApplyPut, ApplyGetJob, ApplyRelease, ApplyReserve, ApplyStatsJobYaml, ApplyStatsTubeYaml, ApplyStatsYaml,
      ApplyTick, ApplyTouch, ApplyCheckState; try solve [walk_apply].
  - eapply triple_bind; [apply triple_uri|intros cu [_ Hm]%newClientUri_made].
    eapply triple_bind; [apply triple_jsm; simpl; by apply ids_AppendReservation|intros x _]. walk_apply.
  - eapply triple_bind; [apply triple_uri|intros ids Hids%check_ids_made].
    eapply triple_bind; [apply triple_jsm; simpl; by apply ids_CheckClientState|intros [[w nw] m] _]. walk_apply.
Qed.

Lemma made_replay log : triple (known (ids_ok made)) (replay log) (fun _ => True).
Proof.
  induction log as [|[now op] log IH]; cbn [replay]; [by apply triple_ret|].
  eapply triple_bind; [apply made_Apply|intros r _]. eapply triple_bind; [apply IH|intros rs _]. by apply triple_ret.
Qed.

(** * Replicas *)
Hypothesis range_perm : forall X, range X ≡ₚ elements X.
Let laws := localJSM_laws yaml_Marshal range range_perm.

(** What holds of the state of a replica. *)
Definition replica_ok (s : localJSM) : Prop := Inv s /\ known (ids_ok made) s.

Lemma replica_new : replica_ok NewJSM.
Proof. split; [apply NewJSM_inv|apply ids_NewJSM]. Qed.

Lemma replica_replay log s :
  replica_ok s -> Forall (fun e => op_ok e.1 e.2) log ->
  exists rs s', replay log s = OK rs s' /\ replica_ok s' /\ length rs = length log.
Proof.
  intros [Hi Hk] Hlog. destruct (@replay_returns _ _ laws (fun _ h => h) log s Hi Hlog) as (rs & s' & E & Hi' & Hl). exists rs, s'.
  split_and!; [done| |done]. split; [done|]. pose proof (made_replay log s Hk) as Hm. unfold ops in Hm. rewrite E in Hm. apply Hm.
Qed.

(** The answer to a tick: the reservations of each proxy, in order. *)
Lemma replica_tick now s :
  replica_ok s -> clock_ok now ->
  exists rs s' g, Tick (tube_names range s) (ready_names range now s) now s = OK rs s' /\
    Apply now OpType_TICK s = OK (mkApplyOpResponse ResultCode_OK None (Some (BTick g))) s' /\ replica_ok s' /\
    map_Forall (fun _ es => es <> []) g /\
    Forall (fun r => Validate (uri_of r) = None /\ r_ClientId r = ToClientID (uri_of r)) rs /\
    forall p, default [] (g !! p) = v1_of <$> filter (fun r => proxyID (uri_of r) = p) rs.
Proof.
  intros [Hi Hk] Hn.
  destruct (Tick_spec _ _ now s Hi Hn (names_range range range_perm now s)) as (ms & os & s' & Hop & Hi' & _).
  pose proof (made_Tick now s Hk) as Hm. simpl in Hm. rewrite Hop in Hm. destruct Hm as [Hk' Hall].
  set (rs := ms ++ os) in *. destruct (group_by_proxy_spec rs ∅ Hall) as (g & Hg & Hne & Hgrp); [apply map_Forall_empty|].
  exists rs, s', g. split_and!; [done| |done|done| |].
  - cbn [Apply]. unfold newApplyResp, ApplyTick, jsm, bind. simpl. by rewrite Hop, Hg.
  - eapply Forall_impl; [exact Hall|]. intros r Hr. destruct (made_parses r Hr) as [_ E]. split; [|done].
    destruct Hr as (cu & Hv & E'). unfold uri_of. by rewrite E', (ParseClientURI_ToClientID cu Hv).
  - intros p. by rewrite Hgrp, lookup_empty.
Qed.
End replica.
