(* ===== verification/Raft.v ===== *)
(** The store on its raft node: [ApplyOp] and the membership operations of
    [src/store/store.go], and the cluster service of [src/cluster/server/cluster_server.go].

    The raft library is a parameter, the class [RaftNode]; [RaftLaws] states what its
    documentation promises. *)
From stdpp Require Import base gmap list strings.
From Stdlib Require Import ZArith Lia.
From S2P Require Import Prelude Job Processor Store.
Local Open Scope Z_scope.

(** * The raft library *)
Inductive RaftState : Type := Follower | Candidate | Leader | Shutdown.
#[export] Instance RaftState_eq_dec : EqDecision RaftState.
Proof. solve_decision. Defined.

Inductive raft_error : Type := RErrNotLeader | RErrCantBootstrap | ROther (msg : string).

(** [raft.Server]; the suffrage is always that of a voter. *)
Record RaftServer : Type := mkRaftServer { srv_ID : string; srv_Address : string }.
#[export] Instance RaftServer_eq_dec : EqDecision RaftServer.
Proof. solve_decision. Defined.

(** The calls the store makes; a future is modelled by its result. *)
Class RaftNode (N : Type) : Type := {
  raft_State : N -> RaftState;
  raft_GetConfiguration : M raft_error N (list RaftServer);
  raft_RemoveServer : string -> M raft_error N unit;
  raft_AddVoter : string -> string -> M raft_error N unit;
  raft_BootstrapCluster : list RaftServer -> M raft_error N unit;
  raft_LeadershipTransfer : M raft_error N unit;
  raft_Snapshot : M raft_error N unit;
  raft_Shutdown : M raft_error N unit;
  raft_Apply : Z -> OpRequest -> M raft_error N ApplyOpResponse
}.

(** * [Store] *)

(** The errors that the store wraps; [ErrNotRaftLeader], [ErrRaftConfig] and
    [ErrNodeNotFound] are found by [errors.Is]. *)
Inductive store_error : Type :=
| ErrRaftConfig (e : raft_error) | ErrNotRaftLeader | ErrRaft (e : raft_error) | ErrNodeNotFound.

Section store.
Context {N : Type} `{RaftNode N}.
Abbreviation NM := (M store_error N).

(** [f.Error()] of a future, mapped by the caller. *)
Definition future {A} (wrap : raft_error -> store_error) (m : M raft_error N A) : NM A :=
  fun n => match m n with
           | OK a n' => OK a n'
           | ERR e n' => ERR (wrap e) n'
           | PANIC => PANIC
           | DIVERGE => DIVERGE
           end.

Definition wrap_leader (e : raft_error) : store_error :=
  match e with RErrNotLeader => ErrNotRaftLeader | _ => ErrRaft e end.

Definition GetRaftConfiguration : NM (list RaftServer) := future ErrRaftConfig raft_GetConfiguration.

(** The loop of [Join] over the servers of the configuration read before; [true] is the
    early return for a node that is already a member. *)
Fixpoint join_loop (nodeID addr : string) (servers : list RaftServer) : NM bool :=
  match servers with
  | [] => ret false
  | srv :: servers' =>
    if String.eqb (srv_ID srv) nodeID || String.eqb (srv_Address srv) addr then
      if String.eqb (srv_Address srv) addr && String.eqb (srv_ID srv) nodeID then ret true else
      future wrap_leader (raft_RemoveServer (srv_ID srv)) ;; join_loop nodeID addr servers'
    else join_loop nodeID addr servers'
  end.
Definition Join (nodeID addr : string) : NM unit :=
  servers <- GetRaftConfiguration ;;
  member <- join_loop nodeID addr servers ;;
  if (member : bool) then ret tt else future wrap_leader (raft_AddVoter nodeID addr).

Fixpoint leave_loop (nodeID : string) (servers : list RaftServer) : NM unit :=
  match servers with
  | [] => raise ErrNodeNotFound
  | srv :: servers' =>
    if String.eqb (srv_ID srv) nodeID then future wrap_leader (raft_RemoveServer (srv_ID srv))
    else leave_loop nodeID servers'
  end.
Definition Leave (nodeID : string) : NM unit :=
  servers <- GetRaftConfiguration ;; leave_loop nodeID servers.

(** [nc] is the map of node identifiers and addresses in the order of the iteration. *)
Definition BootstrapCluster (nc : list (string * string)) : NM unit :=
  future ErrRaft (raft_BootstrapCluster ((fun p => mkRaftServer p.1 p.2) <$> nc)).

Definition IsLeader (n : N) : bool := bool_decide (raft_State n = Leader).
Definition Ready : N -> bool := IsLeader.
Definition TransferLeadership : NM unit :=
  l <- gets IsLeader ;;
  if negb l then ret tt else future ErrRaft raft_LeadershipTransfer.
Definition Snapshot : NM unit := future ErrRaft raft_Snapshot.
Definition Close : NM unit := future ErrRaft raft_Shutdown.

(** The result of a future that the caller inspects. *)
Definition attempt {E A} (m : M raft_error N A) : M E N (A + raft_error) :=
  fun n => match m n with
           | OK a n' => OK (inl a) n'
           | ERR e n' => OK (inr e) n'
           | PANIC => PANIC
           | DIVERGE => DIVERGE
           end.

(** A request is answered with a response in every case.  The code prints the nil error
    of the encoder when [Apply] fails. *)
Definition ApplyOp {E} (nowSecs : Z) (op : OpRequest) : M E N ApplyOpResponse :=
  st <- gets raft_State ;;
  if decide (st <> Leader) then ret (mkApplyOpResponse ResultCode_FailedPrecondition (Some ANotLeader) None) else
  r <- attempt (raft_Apply nowSecs op) ;;
  ret (match r with
       | inl resp => resp
       | inr RErrNotLeader => mkApplyOpResponse ResultCode_FailedPrecondition (Some ANotLeader) None
       | inr _ => mkApplyOpResponse ResultCode_Unknown (Some AApplyOp) None
       end).
End store.

(** * [ClusterServer] *)

(** The status of a gRPC call; the errors of the store are sent as [Unknown]. *)
Section cluster_server.
Context {N : Type} `{RaftNode N}.

Definition reply_status {A} (m : M store_error N A) : M (ResultCode * store_error) N A :=
  fun n => match m n with
           | OK a n' => OK a n'
           | ERR ErrNotRaftLeader n' => ERR (ResultCode_FailedPrecondition, ErrNotRaftLeader) n'
           | ERR e n' => ERR (ResultCode_Unknown, e) n'
           | PANIC => PANIC
           | DIVERGE => DIVERGE
           end.
Definition cluster_Join (nodeId addr : string) : M (ResultCode * store_error) N unit := reply_status (Join nodeId addr).
Definition cluster_Leave (nodeId : string) : M (ResultCode * store_error) N unit := reply_status (Leave nodeId).
Definition cluster_IsNodeLeader (n : N) : bool := IsLeader n.
Definition cluster_Snapshot : M (ResultCode * store_error) N unit :=
  fun n => match Snapshot n with
           | OK a n' => OK a n'
           | ERR e n' => ERR (ResultCode_Unknown, e) n'
           | PANIC => PANIC
           | DIVERGE => DIVERGE
           end.

(** [HealthCheckServer.Check]; [ready] is [None] without a readiness probe. *)
Inductive ServingStatus : Type := UNKNOWN | SERVING | NOT_SERVING.
Definition Check (ready : option (N -> bool)) (n : N) : ServingStatus :=
  match ready with
  | None => UNKNOWN
  | Some f => if f n then SERVING else NOT_SERVING
  end.
End cluster_server.
