(* ===== verification/RaftSpec.v ===== *)
(** What the raft library promises, and what the membership operations make of it. *)
From stdpp Require Import base gmap list strings.
From Stdlib Require Import ZArith Lia.
From S2P Require Import Prelude Job Processor Store Raft.
Local Open Scope Z_scope.

(** * Filtering lists *)
Section filtering.
Context `{EqDecision A}.
Implicit Types l : list A.

Lemma filter_ext_elem (P Q : A -> Prop) `{forall x, Decision (P x), forall x, Decision (Q x)} l :
  (forall x, x ∈ l -> P x <-> Q x) -> filter P l = filter Q l.
Proof.
  induction l as [|x l IH]; intros Hl; [done|]. rewrite !filter_cons, IH by (intros; apply Hl; by right).
  pose proof (Hl x (list_elem_of_here _ _)). by repeat case_decide; try tauto.
Qed.

Lemma filter_everything (P : A -> Prop) `{forall x, Decision (P x)} l : (forall x, x ∈ l -> P x) -> filter P l = l.
Proof.
  induction l as [|x l IH]; intros Hl; [done|]. rewrite filter_cons, decide_True by (apply Hl; left).
  f_equal. apply IH. intros y Hy. apply Hl. by right.
Qed.

(** A member, and the others. *)
Lemma member_first (Q : A -> Prop) `{forall x, Decision (Q x)} l x :
  NoDup l -> x ∈ l -> (forall y, y ∈ l -> Q y <-> y <> x) -> x :: filter Q l ≡ₚ l.
Proof.
  intros Hnd Hx HQ. apply NoDup_Permutation; [|done|].
  - constructor; [|by apply NoDup_filter]. intros [Hq Hin]%list_elem_of_filter. by apply (HQ x Hin) in Hq.
  - intros y. rewrite elem_of_cons, list_elem_of_filter. split; [intros [->|[_ ?]]; done|]. intros Hy.
    destruct (decide (Q y)) as [Hq|Hq]; [by right|left]. rewrite (HQ y Hy) in Hq.
    by apply dec_stable.
Qed.
End filtering.

(** * The configuration *)

(** [AddVoter] adds a server or changes its address, [RemoveServer] removes it, and both
    must run on the leader. *)
Class RaftMembership (N : Type) `{RaftNode N} : Type := {
  cfg : N -> list RaftServer;
  law_GetConfiguration n : raft_GetConfiguration n = OK (cfg n) n \/ exists e, raft_GetConfiguration n = ERR e n;
  law_RemoveServer i n : returns (raft_RemoveServer i n) /\
    forall n', raft_RemoveServer i n = OK tt n' -> cfg n' ≡ₚ filter (fun s => srv_ID s <> i) (cfg n);
  law_AddVoter i a n : returns (raft_AddVoter i a n) /\
    forall n', raft_AddVoter i a n = OK tt n' -> cfg n' ≡ₚ mkRaftServer i a :: filter (fun s => srv_ID s <> i) (cfg n);
  law_follower i a n : raft_State n <> Leader ->
    raft_RemoveServer i n = ERR RErrNotLeader n /\ raft_AddVoter i a n = ERR RErrNotLeader n
}.

Section membership.
Context {N : Type} `{RaftMembership N}.
Implicit Types (n : N) (srv : RaftServer) (l : list RaftServer).

(** A configuration names every server and every address once; the library refuses
    any other. *)
Definition unique n : Prop := NoDup (srv_ID <$> cfg n) /\ NoDup (srv_Address <$> cfg n).

(** The server is about the node or its address. *)
Abbreviation clash i a srv := (srv_ID srv = i \/ srv_Address srv = a).

Lemma clash_test i a srv :
  (String.eqb (srv_ID srv) i || String.eqb (srv_Address srv) a) = bool_decide (clash i a srv).
Proof.
  destruct (String.eqb_spec (srv_ID srv) i), (String.eqb_spec (srv_Address srv) a); symmetry; simpl;
    rewrite ?bool_decide_eq_true, ?bool_decide_eq_false; tauto.
Qed.
Lemma member_test i a srv :
  (String.eqb (srv_Address srv) a && String.eqb (srv_ID srv) i) = bool_decide (srv = mkRaftServer i a).
Proof.
  destruct srv as [x y]. simpl. destruct (String.eqb_spec y a), (String.eqb_spec x i); symmetry; simpl;
    rewrite ?bool_decide_eq_true, ?bool_decide_eq_false; congruence.
Qed.

(** A server that shares the identifier or the address of a member is that member. *)
Lemma clash_member i a srv n : unique n -> mkRaftServer i a ∈ cfg n -> srv ∈ cfg n -> clash i a srv -> srv = mkRaftServer i a.
Proof.
  assert (forall (f : RaftServer -> string) l x y, NoDup (f <$> l) -> x ∈ l -> y ∈ l -> f x = f y -> x = y) as Hinj.
  { intros f l x y Hnd [p Hx]%list_elem_of_lookup [q Hy]%list_elem_of_lookup He.
    assert (p = q) as -> by (eapply (NoDup_lookup (f <$> l)); rewrite ?list_lookup_fmap, ?Hx, ?Hy; simpl; by rewrite ?He).
    congruence. }
  intros [Hi Ha] Hm Hs [E|E]; [by apply (Hinj srv_ID (cfg n))|by apply (Hinj srv_Address (cfg n))].
Qed.

(** Scanning servers none of which clashes. *)
Lemma join_scan i a l n :
  (forall srv, srv ∈ l -> clash i a srv -> srv = mkRaftServer i a) ->
  join_loop i a l n = (if decide (mkRaftServer i a ∈ l) then OK true n else OK false n).
Proof.
  induction l as [|srv l IH]; intros Hl; [by rewrite decide_False by apply not_elem_of_nil|].
  cbn [join_loop]. rewrite clash_test, member_test. case_bool_decide as Hc.
  - rewrite (Hl srv (list_elem_of_here _ _) Hc). rewrite bool_decide_eq_true_2 by done. by rewrite decide_True by left.
  - rewrite IH by (intros; apply Hl; [by right|done]).
    destruct (decide (mkRaftServer i a ∈ l)); [by rewrite decide_True by (by right)|].
    rewrite decide_False; [done|]. intros [<-|?]%elem_of_cons; [apply Hc; by left|done].
Qed.

(** A node that is not a member: the servers that clash with it are removed. *)
Lemma join_removes i a l n :
  mkRaftServer i a ∉ l ->
  match join_loop i a l n with
  | OK b n' => b = false /\
      cfg n' ≡ₚ filter (fun s => srv_ID s ∉ srv_ID <$> filter (fun s => clash i a s) l) (cfg n)
  | ERR e n' => True
  | _ => False
  end.
Proof.
  revert n. induction l as [|srv l IH]; intros n Hni.
  { simpl. split; [done|]. rewrite filter_everything; [done|]. intros s _. apply not_elem_of_nil. }
  apply not_elem_of_cons in Hni as [Hne Hni]. cbn [join_loop]. rewrite clash_test, member_test, filter_cons.
  case_bool_decide as Hc; [rewrite decide_True by done|rewrite decide_False by done; by apply IH].
  rewrite bool_decide_eq_false_2 by congruence. unfold bind, future.
  destruct (law_RemoveServer (srv_ID srv) n) as [Hret Hrem].
  destruct (raft_RemoveServer (srv_ID srv) n) as [[] n1|e n1| |]; [|done..]. specialize (Hrem n1 eq_refl).
  specialize (IH n1 Hni). destruct (join_loop i a l n1) as [b n'|e n'| |]; try done.
  destruct IH as [-> IH]. split; [done|]. rewrite IH, Hrem, list_filter_filter.
  rewrite (list_filter_iff _ (fun s => srv_ID s ∉ srv_ID <$> (srv :: filter (fun s => clash i a s) l))); [done|].
  intros s. simpl. rewrite not_elem_of_cons. tauto.
Qed.

Lemma unclashed i a n :
  unique n ->
  filter (fun s => srv_ID s ∉ srv_ID <$> filter (fun s => clash i a s) (cfg n)) (cfg n) =
  filter (fun s => ~ clash i a s) (cfg n).
Proof.
  intros Hu. apply filter_ext_elem. intros s Hs. rewrite list_elem_of_fmap. split.
  - intros Hno Hc. apply Hno. exists s. split; [done|]. by apply list_elem_of_filter.
  - intros Hc (s' & E & [Hc' Hs']%list_elem_of_filter). apply Hc.
    by rewrite (clash_member (srv_ID s') (srv_Address s') s n); [|done|destruct s'|done|left].
Qed.

(** [Join] makes the node a member at its address, in place of the servers that had its
    identifier or its address; a member is left alone. *)
Lemma Join_spec i a n :
  unique n ->
  match Join i a n with
  | OK _ n' => cfg n' ≡ₚ mkRaftServer i a :: filter (fun s => ~ clash i a s) (cfg n)
  | ERR _ _ => True
  | _ => False
  end.
Proof.
  intros Hu. unfold Join, GetRaftConfiguration, future, bind. destruct (law_GetConfiguration n) as [->|(e & ->)]; [|done].
  destruct (decide (mkRaftServer i a ∈ cfg n)) as [Hm|Hm].
  - rewrite join_scan by (intros; by apply (clash_member i a _ n)). rewrite decide_True by done. simpl.
    symmetry. apply member_first; [by apply (NoDup_fmap_1 srv_ID), Hu|done|]. intros s Hs. split; [intros Hc ->; apply Hc; by left|].
    intros Hne Hc. apply Hne. by apply (clash_member i a s n).
  - pose proof (join_removes i a (cfg n) n Hm) as Hj. destruct (join_loop i a (cfg n) n) as [b n1|e n1| |]; try done.
    destruct Hj as [-> Hj]. rewrite unclashed in Hj by done. destruct (law_AddVoter i a n1) as [Hret Hadd]. unfold future.
    destruct (raft_AddVoter i a n1) as [[] n'|e n'| |]; try done. rewrite (Hadd n' eq_refl). constructor. rewrite Hj.
    rewrite list_filter_filter. rewrite (list_filter_iff _ (fun s => ~ clash i a s)); [done|]. intros s. tauto.
Qed.

(** The configuration stays one that names everything once. *)
Lemma Join_unique i a n n' : unique n -> Join i a n = OK tt n' -> unique n'.
Proof.
  intros Hu Hj. pose proof (Join_spec i a n Hu) as Hs. rewrite Hj in Hs. unfold unique. rewrite Hs.
  assert (forall (f : RaftServer -> string) (Hf : forall s, f s = f (mkRaftServer i a) -> clash i a s),
    NoDup (f <$> cfg n) -> NoDup (f <$> mkRaftServer i a :: filter (fun s => ~ clash i a s) (cfg n))) as Hnd.
  { intros f Hf Hnd. rewrite fmap_cons. constructor.
    - intros (s & E & [Hc _]%list_elem_of_filter)%list_elem_of_fmap. by apply Hc, Hf.
    - eapply sublist_NoDup; [exact Hnd|]. apply fmap_sublist, sublist_filter. }
  destruct Hu as [Hi Ha]. split; apply Hnd; simpl; tauto.
Qed.

(** Joining again changes nothing. *)
Lemma Join_again i a n :
  unique n -> raft_GetConfiguration n = OK (cfg n) n -> mkRaftServer i a ∈ cfg n -> Join i a n = OK tt n.
Proof.
  intros Hu Hc Hm. unfold Join, GetRaftConfiguration, future, bind. rewrite Hc.
  rewrite join_scan by (intros; by apply (clash_member i a _ n)). by rewrite decide_True.
Qed.

(** [Leave] removes the node; a node that is not a member is not found. *)
Lemma leave_finds i l n :
  leave_loop i l n =
    if decide (i ∈ srv_ID <$> l) then future wrap_leader (raft_RemoveServer i) n else ERR ErrNodeNotFound n.
Proof.
  induction l as [|srv l IH]; [by rewrite decide_False by apply not_elem_of_nil|]. cbn [leave_loop].
  destruct (String.eqb_spec (srv_ID srv) i) as [<-|Hne]; [by rewrite decide_True by left|]. rewrite IH.
  destruct (decide (i ∈ srv_ID <$> l)); [by rewrite decide_True by (by right)|].
  rewrite decide_False; [done|]. rewrite fmap_cons, elem_of_cons. by intros [?|?]; [congruence|].
Qed.

Lemma Leave_spec i n :
  match Leave i n with
  | OK _ n' => (i ∈ srv_ID <$> cfg n) /\ cfg n' ≡ₚ filter (fun s => srv_ID s <> i) (cfg n)
  | ERR ErrNodeNotFound n' => (i ∉ srv_ID <$> cfg n) /\ n' = n
  | ERR _ _ => True
  | _ => False
  end.
Proof.
  unfold Leave, GetRaftConfiguration, future, bind. destruct (law_GetConfiguration n) as [->|(e & ->)]; [|done].
  rewrite leave_finds. case_decide as Hi; [|done]. unfold future. destruct (law_RemoveServer i n) as [Hret Hrem].
  destruct (raft_RemoveServer i n) as [[] n'|[| |msg] n'| |]; try done. split; [done|by apply Hrem].
Qed.

(** A node that does not lead changes nothing and says so, unless there is nothing to do. *)
Lemma Join_follower i a n servers :
  raft_State n <> Leader -> raft_GetConfiguration n = OK servers n -> mkRaftServer i a ∉ servers ->
  Join i a n = ERR ErrNotRaftLeader n.
Proof.
  intros Hf Hc Hni. unfold Join, GetRaftConfiguration, future, bind. rewrite Hc. clear Hc.
  destruct (law_follower i a n Hf) as [_ Hadd].
  induction servers as [|srv l IH]; cbn [join_loop]; [cbn; unfold future; by rewrite Hadd|].
  apply not_elem_of_cons in Hni as [Hne Hni]. rewrite clash_test, member_test.
  case_bool_decide; [|by apply IH]. rewrite bool_decide_eq_false_2 by congruence.
  unfold bind, future. by destruct (law_follower (srv_ID srv) a n Hf) as [-> _].
Qed.
End membership.
