(* ===== verification/JSMServer.v ===== *)
(** The gRPC service of a cluster node: [src/cluster/server/jsm_server.go].

    A call is turned into an operation, applied through the interface [ReplicatedJsm],
    and the response decoded again.  The streaming of reservations is in [Controller]. *)
From stdpp Require Import base gmap list strings.
From Stdlib Require Import ZArith Lia.
From S2P Require Import Prelude Job Snapshot ClientURI Processor Store Raft.
Local Open Scope Z_scope.

(** * Statuses *)
Inductive status_desc : Type := SApplyOp (msg : option apply_error) | SUnmarshal | STransport (msg : string).
Record Status : Type := mkStatus { st_Code : ResultCode; st_Desc : status_desc }.

(** * The interface of the store *)
Class ReplicatedJsm (R : Type) : Type := {
  rApplyOp : Z -> OpRequest -> M Status R ApplyOpResponse;
  rNowSeconds : M Status R Z;
  rIsLeader : R -> bool
}.

(** * The server *)
Section server.
Context {R : Type} `{ReplicatedJsm R}.
Abbreviation SM := (M Status R).

(** [performApply]; [decode] reads the body of the response. *)
Definition performApply {A} (op : OpRequest) (decode : Body -> option A) : SM A :=
  nowSecs <- rNowSeconds ;;
  applyResp <- rApplyOp nowSecs op ;;
  if decide (ErrorCode applyResp <> ResultCode_OK)
  then raise (mkStatus (ErrorCode applyResp) (SApplyOp (ErrorMessage applyResp))) else
  match ResponseBody applyResp ≫= decode with
  | Some a => ret a
  | None => raise (mkStatus ResultCode_Internal SUnmarshal)
  end.

(** The messages of the responses. *)
Definition as_Empty (b : Body) : option unit := match b with BEmpty => Some tt | _ => None end.
Definition as_Put (b : Body) : option Z := match b with BPut i => Some i | _ => None end.
Definition as_Job (b : Body) : option JobProto := match b with BJob j => Some j | _ => None end.
Definition as_KickN (b : Body) : option Z := match b with BKickN n => Some n | _ => None end.
Definition as_ListTubes (b : Body) : option (list string) := match b with BListTubes l => Some l | _ => None end.
Definition as_Reserve (b : Body) : option V1Reservation := match b with BReserve r => Some r | _ => None end.
Definition as_Yaml (b : Body) : option (list Byte.byte) := match b with BStatsYaml y => Some y | _ => None end.
Definition as_Tick (b : Body) : option (gmap string (list V1Reservation)) := match b with BTick g => Some g | _ => None end.
Definition as_Check (b : Body) : option CheckClientStateResponse := match b with BCheck r => Some r | _ => None end.

Definition srv_Bury (req : BuryRequest) : SM unit := performApply (OpType_BURY req) as_Empty.
Definition srv_CheckClientState (req : CheckClientStateRequest) : SM CheckClientStateResponse :=
  performApply (OpType_CHECK_CLIENT_STATE req) as_Check.
Definition srv_Delete (req : DeleteRequest) : SM unit := performApply (OpType_DELETE req) as_Empty.
Definition srv_GetJob (jobId : Z) : SM JobProto := performApply (OpType_GET_JOB jobId) as_Job.
Definition srv_peek (opType : string -> OpRequest) (tubeName : string) : SM JobProto := performApply (opType tubeName) as_Job.
Definition srv_PeekBuried : string -> SM JobProto := srv_peek OpType_PEEK_BURIED.
Definition srv_PeekDelayed : string -> SM JobProto := srv_peek OpType_PEEK_DELAYED.
Definition srv_PeekReady : string -> SM JobProto := srv_peek OpType_PEEK_READY.
Definition srv_Kick (jobId : Z) : SM unit := performApply (OpType_KICK jobId) as_Empty.
Definition srv_KickN (tubeName : string) (bound : Z) : SM Z := performApply (OpType_KICKN tubeName bound) as_KickN.
Definition srv_ListTubes : SM (list string) := performApply OpType_LIST_TUBES as_ListTubes.
Definition srv_Put (req : PutRequest) : SM Z := performApply (OpType_PUT req) as_Put.
Definition srv_Reserve (req : ReserveRequest) : SM V1Reservation := performApply (OpType_RESERVE req) as_Reserve.
Definition srv_Release (req : ReleaseRequest) : SM unit := performApply (OpType_RELEASE req) as_Empty.
Definition srv_GetStatsJobYaml (jobId : Z) : SM (list Byte.byte) := performApply (OpType_STATS_JOB_YAML jobId) as_Yaml.
Definition srv_GetStatsTubeYaml (tubeName : string) : SM (list Byte.byte) :=
  performApply (OpType_STATS_TUBE_YAML tubeName) as_Yaml.
Definition srv_GetStatsYaml : SM (list Byte.byte) := performApply OpType_STATS_YAML as_Yaml.
Definition srv_Touch (req : TouchRequest) : SM unit := performApply (OpType_TOUCH req) as_Empty.

(** [Tick], which the reservations controller calls. *)
Inductive tick_error : Type := ErrNotLeader | ErrStatus (s : Status).
Definition srv_Tick : M tick_error R (gmap string (list V1Reservation)) :=
  fun r =>
    if negb (rIsLeader r) then ERR ErrNotLeader r else
    match performApply OpType_TICK as_Tick r with
    | OK g r' => OK g r'
    | ERR s r' => ERR (ErrStatus s) r'
    | PANIC => PANIC
    | DIVERGE => DIVERGE
    end.
End server.

(** * The store as a [ReplicatedJsm] *)

(** A node: its raft instance, and how often the clock was read. *)
Record node (N : Type) : Type := mkNode { nd_raft : N; nd_reads : nat }.
Arguments mkNode {N} _ _.
Arguments nd_raft {N} _.
Arguments nd_reads {N} _.
Definition set_raft {N} (r : N) (n : node N) : node N := mkNode r (nd_reads n).

Section store_node.
Context {N : Type} `{RaftNode N}.
(** [time.Now().UTC().Unix()]: the successive readings of the clock. *)
Context (time_Now : nat -> Z).

Definition NowSeconds : M Status (node N) Z := fun n => OK (time_Now (nd_reads n)) (mkNode (nd_raft n) (S (nd_reads n))).

#[export] Instance node_ReplicatedJsm : ReplicatedJsm (node N) := {
  rApplyOp now op := zoom nd_raft set_raft (ApplyOp now op);
  rNowSeconds := NowSeconds;
  rIsLeader n := IsLeader (nd_raft n)
}.
End store_node.
