(* ===== verification/Proxy.v ===== *)
(** The proxy client: [src/beanstalkd/proxy/client.go] and [bool.go].

    A front end that does not hold the jobs itself reaches them through a proxy client,
    which implements the same interface [JSM] by calls to a cluster node.  Reservations
    that are answered later arrive on a stream, are queued, and are handed out by the
    next [Tick]. *)
From stdpp Require Import base gmap list strings.
From Stdlib Require Import ZArith Lia.
From S2P Require Import Prelude Job CmdData Snapshot ClientURI Processor Store JSMServer.
Local Open Scope Z_scope.

(** * Error texts *)

(** [Error()] of the sentinel values of [errors.go]. *)
Definition Error (e : error) : string :=
  match e with
  | ErrInvalidIndex => "provided index is out of range of the heap"
  | ErrMismatchJobEntry => "job entry at index does not match provided entry"
  | ErrEntryExists => "entry exists in container"
  | ErrEntryMissing => "entry not found in container"
  | ErrContainerEmpty => "the container is empty"
  | ErrInvalidJobTransition => "invalid transition"
  | ErrInvalidOperation => "invalid operation due to the current state"
  | ErrUnauthorizedOperation => "client is not authorized to perform this operation"
  | ErrCancel => "cancelled"
  | ErrNoReservationFound => "no reservation could be found"
  | ErrInvalidResvTimeout => "the provided reservation timeout is invalid"
  | ErrClientIsWaitingForReservation => "the request client cannot request for another reservation"
  | ErrOther msg => msg
  end.
Definition uri_Error (e : uri_error) : string :=
  match e with
  | ErrInvalidURI => "invalid uri"
  | ErrValidationFailed => "uri validation failed"
  | ErrInvalidSchema => "uri schema did not match or not present"
  end.
Definition ErrorMsg (e : apply_error) : string :=
  match e with
  | AJsm e => ("applyResponse err=" +:+ Error e)%string
  | AUri e => ("applyResponse err=" +:+ uri_Error e)%string
  | AUnsupported op => ("Unsupported optype=" +:+ fmt_int op)%string
  | ANotLeader => "current node is not a leader"
  | AApplyOp => "apply op err=<nil>"
  end.
Definition code_String (c : ResultCode) : string :=
  match c with
  | ResultCode_OK => "OK" | ResultCode_Canceled => "Canceled" | ResultCode_Unknown => "Unknown"
  | ResultCode_InvalidArgument => "InvalidArgument" | ResultCode_DeadlineExceeded => "DeadlineExceeded"
  | ResultCode_NotFound => "NotFound" | ResultCode_AlreadyExists => "AlreadyExists"
  | ResultCode_PermissionDenied => "PermissionDenied" | ResultCode_ResourceExhausted => "ResourceExhausted"
  | ResultCode_FailedPrecondition => "FailedPrecondition" | ResultCode_Aborted => "Aborted"
  | ResultCode_OutOfRange => "OutOfRange" | ResultCode_Unimplemented => "Unimplemented"
  | ResultCode_Internal => "Internal" | ResultCode_Unavailable => "Unavailable"
  | ResultCode_DataLoss => "DataLoss" | ResultCode_Unauthenticated => "Unauthenticated"
  end.
(** The error that a gRPC call returns. *)
Definition status_error (s : Status) : error :=
  ErrOther ("rpc error: code = " +:+ code_String (st_Code s) +:+ " desc = " +:+
    match st_Desc s with
    | SApplyOp (Some e) => "applyOp Err = " +:+ ErrorMsg e
    | SApplyOp None => "applyOp Err = "
    | SUnmarshal => "error un-marshalling resp"
    | STransport msg => msg
    end)%string.

(** * The client *)
Section proxy.
Context {R : Type} `{ReplicatedJsm R}.
(** A gRPC call over the connection of the client, with its deadline and retry policy. *)
Context (rpc : forall A, M Status R A -> M Status R A).
(** The order in which the runtime ranges over the set of waiting clients. *)
Context (range_waiting : gset ClientID -> list ClientID).

Record Client : Type := mkProxy {
  px_ProxyID : string;
  px_rq : option (list Reservation);
  px_waiting : gset ClientID;
  px_recoverClients : bool;
  px_server : R
}.
Definition NewClient (proxyID : string) (server : R) : Client := mkProxy proxyID None ∅ false server.

Definition set_rq (v : option (list Reservation)) (c : Client) : Client :=
  mkProxy (px_ProxyID c) v (px_waiting c) (px_recoverClients c) (px_server c).
Definition set_waiting (v : gset ClientID) (c : Client) : Client :=
  mkProxy (px_ProxyID c) (px_rq c) v (px_recoverClients c) (px_server c).
Definition set_recoverClients (v : bool) (c : Client) : Client :=
  mkProxy (px_ProxyID c) (px_rq c) (px_waiting c) v (px_server c).
Definition set_server (v : R) (c : Client) : Client :=
  mkProxy (px_ProxyID c) (px_rq c) (px_waiting c) (px_recoverClients c) v.

Abbreviation XM := (M error Client).

(** [c.jsmClient.f(ctx, req)] *)
Definition invoke {A} (m : M Status R A) : XM A :=
  fun c => match rpc A m (px_server c) with
           | OK a r => OK a (set_server r c)
           | ERR s r => ERR (status_error s) (set_server r c)
           | PANIC => PANIC
           | DIVERGE => DIVERGE
           end.

(** ** [waitingClients] *)
Definition waiting_Contains (cli : ClientID) (w : gset ClientID) : bool := bool_decide (cli ∈ w).
Definition waiting_Add (cli : ClientID) : XM unit :=
  w <- gets px_waiting ;;
  if waiting_Contains cli w then raise ErrEntryExists else modify (set_waiting ({[ cli ]} ∪ w)).
Definition waiting_Remove (cli : ClientID) : XM unit :=
  w <- gets px_waiting ;;
  if negb (waiting_Contains cli w) then raise ErrEntryMissing else modify (set_waiting (w ∖ {[ cli ]})).
Definition asSlice (w : gset ClientID) : list ClientID := range_waiting w.

(** ** [reservationsQueue] *)
Definition rq_Enqueue (r : Reservation) (q : option (list Reservation)) : option (list Reservation) :=
  match q with None => Some [r] | Some l => Some (l ++ [r]) end.
Definition rq_Drain : XM (option (list Reservation)) :=
  q <- gets px_rq ;; modify (set_rq None) ;; ret q.

(** ** [AtomicBool] *)
Definition SetIfFalse (b : bool) : bool * bool := if b then (false, b) else (true, true).
Definition ResetIfTrue (b : bool) : bool * bool := if b then (true, false) else (false, b).

(** ** The interface [JSM] *)
Definition px_Put (nowSeconds priority delay ttr bodySize : Z) (body : slice) (tubeName : TubeName) : XM JobID :=
  i <- invoke (srv_Put (mkPutRequest priority delay (wrap_i32 ttr) tubeName (wrap_i32 bodySize) body)) ;;
  ret (wrap_u64 i).

(** The reservation a message stands for; the error of the client is never nil. *)
Definition of_V1 (v : V1Reservation) : Reservation :=
  mkReservation (v_RequestId v) (v_ClientId v) (wrap_u64 (v_JobId v)) (v_Status v) (v_BodySize v) (v_Body v)
    (Some (ErrOther (match v_Error v with Some e => Error e | None => "" end))).

Definition px_AppendReservation (clientID : ClientID) (reqID : string) (watchedTubes : list TubeName)
    (nowSecs deadlineAt : Z) : XM Reservation :=
  p <- gets px_ProxyID ;;
  resv <- invoke (srv_Reserve (mkReserveRequest clientID reqID (wrap_i32 (wrap_i64 (deadlineAt - nowSecs))) watchedTubes p)) ;;
  (match v_Status resv with Queued => waiting_Add (v_ClientId resv) | _ => ret tt end) ;;
  ret (of_V1 resv).

Definition px_Delete (jobID : JobID) (clientID : ClientID) : XM unit :=
  p <- gets px_ProxyID ;; invoke (srv_Delete (mkDeleteRequest (wrap_i64 jobID) p clientID)).
Definition px_Bury (nowSeconds : Z) (jobID : JobID) (priority : Z) (clientID : ClientID) : XM unit :=
  p <- gets px_ProxyID ;; invoke (srv_Bury (mkBuryRequest (wrap_i64 jobID) priority clientID p)).
Definition px_Kick (jobID : JobID) : XM unit := invoke (srv_Kick (wrap_i64 jobID)).
Definition px_KickN (name : TubeName) (n : Z) : XM Z := invoke (srv_KickN name (wrap_i32 n)).
Definition px_Touch (nowSeconds : Z) (jobID : JobID) (clientID : ClientID) : XM unit :=
  p <- gets px_ProxyID ;; invoke (srv_Touch (mkTouchRequest (wrap_i64 jobID) clientID p)).

Definition px_peek (pf : string -> M Status R JobProto) (name : TubeName) : XM Job :=
  jp <- invoke (pf name) ;; ret (NewJobFromJobProto jp).
Definition px_PeekDelayedJob : TubeName -> XM Job := px_peek srv_PeekDelayed.
Definition px_PeekReadyJob : TubeName -> XM Job := px_peek srv_PeekReady.
Definition px_PeekBuriedJob : TubeName -> XM Job := px_peek srv_PeekBuried.
Definition px_GetJob (id : JobID) : XM Job :=
  jp <- invoke (srv_GetJob (wrap_i64 id)) ;; ret (NewJobFromJobProto jp).
Definition px_ReleaseWith (nowSeconds : Z) (jobID : JobID) (clientID : ClientID) (pri delay : Z) : XM unit :=
  p <- gets px_ProxyID ;; invoke (srv_Release (mkReleaseRequest (wrap_i64 jobID) clientID p delay pri)).
Definition px_GetStatsJobAsYaml (nowSeconds : Z) (jobID : JobID) : XM (list Byte.byte) :=
  invoke (srv_GetStatsJobYaml (wrap_i64 jobID)).
Definition px_GetStatsTubeAsYaml (nowSeconds : Z) (tubeName : TubeName) : XM (list Byte.byte) :=
  invoke (srv_GetStatsTubeYaml tubeName).
Definition px_GetStatsAsYaml (nowSeconds : Z) : XM (list Byte.byte) := invoke srv_GetStatsYaml.
Definition px_GetTubes : XM (list TubeName) := invoke srv_ListTubes.

Definition px_CheckClientState (clientIDs : list ClientID) : XM (list ClientID * list ClientID * list ClientID) :=
  p <- gets px_ProxyID ;;
  resp <- invoke (srv_CheckClientState (mkCheckRequest p clientIDs)) ;;
  ret (cs_Waiting resp, cs_NotWaiting resp, cs_Missing resp).

(** [Release] and [Snapshot] of the interface. *)
Definition px_Release (jobID : JobID) (clientID : ClientID) : XM unit := raise (ErrOther "Unimplemented").
Definition px_Snapshot : XM unit := raise (ErrOther "Unimplemented").

(** The first loop of [Tick]: a reservation of a client that does not wait is dropped. *)
Fixpoint take_entries (entries result : list Reservation) : XM (list Reservation) :=
  match entries with
  | [] => ret result
  | r :: entries' =>
    e <- try (waiting_Remove (r_ClientId r)) ;;
    match e with
    | inr _ => take_entries entries' result
    | inl _ => take_entries entries' (result ++ [r])
    end
  end.

(** The answer to a client that the cluster lost track of. *)
Definition lost (what : string) (cli : ClientID) : Reservation :=
  mkReservation "00000000-0000-0000-0000-000000000000" cli 0 RError 0 None
    (Some (ErrOther (what +:+ cli)%string)).
Fixpoint recover (what : string) (clis : list ClientID) (result : list Reservation) : XM (list Reservation) :=
  match clis with
  | [] => ret result
  | cli :: clis' => try (waiting_Remove cli) ;; recover what clis' (result ++ [lost what cli])
  end.

Definition px_Tick (nowSeconds : Z) : XM (list Reservation) :=
  entries <- rq_Drain ;;
  result <- take_entries (default [] entries) [] ;;
  b <- gets px_recoverClients ;;
  modify (set_recoverClients (ResetIfTrue b).2) ;;
  if negb (ResetIfTrue b).1 then ret result else
  waiting <- gets (fun c => asSlice (px_waiting c)) ;;
  if (length waiting =? 0)%nat then ret result else
  r <- try (px_CheckClientState waiting) ;;
  match r with
  | inr _ => ret result
  | inl (_, notWaiting, missing) =>
    result' <- recover "entry for reservation in not waiting state " notWaiting result ;;
    recover "entry for reservation is not found " missing result'
  end.

(** ** The stream of reservations *)

(** One turn of [GetReservations]: a message of the stream is queued. *)
Definition stream_recv (v1r : V1Reservation) (c : Client) : Client := set_rq (rq_Enqueue (of_V1 v1r) (px_rq c)) c.

(** The loop of [Open] after a stream ended with a status: stop, or ask for recovery. *)
Definition stream_end (code : ResultCode) (c : Client) : option Client :=
  if decide (code = ResultCode_Canceled) then None
  else Some (set_recoverClients (SetIfFalse (px_recoverClients c)).2 c).

#[export] Instance Client_ops : JSMOps Client := {
  jPut := px_Put; jBury := px_Bury; jDelete := px_Delete; jKick := px_Kick; jKickN := px_KickN;
  jGetTubes := px_GetTubes; jGetJob := px_GetJob; jPeekBuriedJob := px_PeekBuriedJob;
  jPeekDelayedJob := px_PeekDelayedJob; jPeekReadyJob := px_PeekReadyJob; jReleaseWith := px_ReleaseWith;
  jGetStatsJobAsYaml := px_GetStatsJobAsYaml; jGetStatsTubeAsYaml := px_GetStatsTubeAsYaml;
  jGetStatsAsYaml := px_GetStatsAsYaml; jTouch := px_Touch; jAppendReservation := px_AppendReservation;
  jTick := px_Tick; jCheckClientState := px_CheckClientState
}.
End proxy.
