(* ===== verification/ProxySpec.v ===== *)
(** The proxy client satisfies the laws of the interface [JSM], for every network and
    every raft cluster that behave as documented.

    A call may fail, may be executed without an answer, and may be retried; between the
    calls of one client the cluster applies the entries of others. *)
From stdpp Require Import base gmap list strings.
From Stdlib Require Import ZArith Lia.
From S2P Require Import Prelude Job Snapshot ClientURI Processor Inv ProcSpec Store StoreSpec Raft JSMServer Proxy.
Local Open Scope Z_scope.

(** * Documented behaviour *)

(** The outcomes of a remote call: that of the server, a failure, or, when the server ran
    the call and the answer was lost, those of another attempt. *)
Inductive delivered {E R A} (m : M E R A) : R -> outcome E R A -> Prop :=
| delivered_answer r : delivered m r (m r)
| delivered_failure r st : delivered m r (ERR st r)
| delivered_again r r' o : final (m r) = Some r' -> delivered m r' o -> delivered m r o.

Class Transport {R : Type} (rpc : forall A, M Status R A -> M Status R A) : Prop :=
  rpc_delivers A (m : M Status R A) r : delivered m r (rpc A m r).

(** A node applies committed entries in order.  [raft_Apply] answers with the response of
    its own entry, after the entries committed before it; when it fails, its entry may
    have been committed all the same.  All entries come from nodes that keep time and
    send sound requests. *)
Class RaftFSM (N J : Type) `{RaftNode N} `{JSMLaws J} : Type := {
  fsm : N -> J;
  law_Apply now op n : jinv (fsm n) -> op_ok now op ->
    exists log rs s1, Forall (fun e => op_ok e.1 e.2) log /\ replay log (fsm n) = OK rs s1 /\
      match raft_Apply now op n with
      | OK resp n' => Apply now op s1 = OK resp (fsm n')
      | ERR _ n' => fsm n' = s1
      | PANIC | DIVERGE => False
      end
}.

(** * Calls that return and keep an invariant *)
Definition stays {E S A} (I : S -> Prop) (Q : A -> Prop) (o : outcome E S A) : Prop :=
  match o with OK a s => I s /\ Q a | ERR _ s => I s | PANIC | DIVERGE => False end.

Lemma stays_final {E S A} (I : S -> Prop) (Q : A -> Prop) (o : outcome E S A) s : stays I Q o -> final o = Some s -> I s.
Proof. destruct o; simpl; naive_solver. Qed.

Lemma stays_delivered {E R A} (I : R -> Prop) (Q : A -> Prop) (m : M E R A) :
  (forall r, I r -> stays I Q (m r)) -> forall r o, delivered m r o -> I r -> stays I Q o.
Proof.
  intros Hm r o Hd. induction Hd as [r|r st|r r' o Hf Hd IH]; intros Hi; [by apply Hm|done|].
  apply IH. eapply stays_final; [by apply Hm|done].
Qed.

Lemma stays_kept {J A} (I : J -> Prop) Q (o : outcome error J A) : stays I Q o -> kept I o.
Proof. destruct o as [a s|e s| |]; simpl; [intros [? ?]|intros ?|done|done]; by exists s. Qed.

Lemma stays_bind {E S A B} (I : S -> Prop) Q Q' (m : M E S A) (k : A -> M E S B) s :
  stays I Q (m s) -> (forall a s', I s' -> Q a -> stays I Q' (k a s')) -> stays I Q' (bind m k s).
Proof. unfold bind. destruct (m s); simpl; naive_solver. Qed.

Lemma stays_try {E S A} (I : S -> Prop) Q (m : M E S A) s :
  stays I Q (m s) -> stays I (fun r => match r with inl a => Q a | inr _ => True end) (try m s).
Proof. unfold try. destruct (m s); simpl; naive_solver. Qed.

Lemma stays_mono {E S A} (I : S -> Prop) (Q Q' : A -> Prop) (o : outcome E S A) :
  stays I Q o -> (forall a, Q a -> Q' a) -> stays I Q' o.
Proof. destruct o; simpl; naive_solver. Qed.

(** * The server *)
Section server.
Context {N J : Type} `{RaftFSM N J}.
Context (time_Now : nat -> Z).
Hypothesis clock : forall k, clock_ok (time_Now k).
Hypothesis takes_ttr : forall t, ttr_ok t -> jttr_ok t.
Implicit Types n : node N.
Let repl := node_ReplicatedJsm (N:=N) time_Now.
Existing Instance repl.

Definition node_ok n : Prop := jinv (fsm (nd_raft n)).

(** The response to an operation was computed by [Apply]. *)
Definition response_to (op : OpRequest) (resp : ApplyOpResponse) : Prop :=
  ErrorCode resp = ResultCode_OK ->
  exists now s s', clock_ok now /\ jinv s /\ Apply now op s = OK resp s'.

Definition req_sound (op : OpRequest) : Prop := op_ok 0 op.

Lemma ApplyOp_stays now op n :
  node_ok n -> clock_ok now -> req_sound op ->
  stays node_ok (response_to op) (rApplyOp now op n).
Proof.
  intros Hi Hn [_ Hop]. simpl. unfold zoom, ApplyOp, gets, bind, attempt, ret.
  case_decide; [done|]. assert (op_ok now op) as Hok by done.
  destruct (law_Apply now op (nd_raft n) Hi Hok) as (log & rs & s1 & Hlog & Hrep & Hm).
  destruct (replay_returns takes_ttr log (fsm (nd_raft n)) Hi Hlog) as (rs' & s' & Hrep' & Hi' & _).
  rewrite Hrep in Hrep'. injection Hrep' as <- <-.
  destruct (raft_Apply now op (nd_raft n)) as [resp r'|e r'| |]; [| |done..].
  - destruct (Apply_returns takes_ttr now op s1 Hi' Hok) as (resp' & s2 & Ha & Hi2). rewrite Hm in Ha.
    injection Ha as <- <-. split; [done|]. intros _. by exists now, s1, (fsm r').
  - split; [unfold node_ok; simpl; by rewrite Hm|]. destruct e; by intros.
Qed.

(** What a call of the service returns was computed by an operation. *)
Lemma performApply_stays {A} op (decode : Body -> option A) n :
  node_ok n -> req_sound op ->
  stays node_ok (fun a => exists now s s' b, clock_ok now /\ jinv s /\
    Apply now op s = OK (mkApplyOpResponse ResultCode_OK None (Some b)) s' /\ decode b = Some a) (performApply op decode n).
Proof.
  intros Hi Hop. unfold performApply. eapply (stays_bind _ clock_ok); [by split|]. intros now n1 Hi1 Hn.
  eapply stays_bind; [by apply ApplyOp_stays|]. intros resp n2 Hi2 Hr.
  case_decide as Hc; [done|]. destruct (Hr Hc) as (now' & s & s' & Hn' & Hs & Ha).
  destruct (ResponseBody resp) as [b|] eqn:Hb; [|done]. simpl. destruct (decode b) as [a|] eqn:Hd; [|done].
  split; [done|]. exists now', s, s', b. split_and!; [done|done| |done]. rewrite Ha. do 2 f_equal.
  assert (ErrorMessage resp = None) as He.
  { revert Ha Hc. clear. destruct op; cbn [Apply]; unfold newApplyResp; try (by intros [= <- _]);
      case_match; (try done); by intros [= <- _]. }
  destruct resp; simpl in *; by subst.
Qed.

(** * The client *)
Context (rpc : forall A, M Status (node N) A -> M Status (node N) A) `{!Transport rpc}.
Context (range_waiting : gset ClientID -> list ClientID).
Implicit Types c : Client (R:=node N).
Let ops := Client_ops rpc range_waiting (R:=node N).
Existing Instance ops.

(** The queue holds reservations that are answers. *)
Definition queue_ok c : Prop := Forall (fun r => r_Status r <> Queued) (default [] (px_rq c)).
Definition px_ok c : Prop := node_ok (px_server c) /\ queue_ok c.

Lemma invoke_stays {A} (m : M Status (node N) A) Q c :
  (forall n, node_ok n -> stays node_ok Q (m n)) -> px_ok c -> stays px_ok Q (invoke rpc m c).
Proof.
  intros Hm [Hc Hq]. unfold invoke. pose proof (stays_delivered _ _ m Hm _ _ (rpc_delivers A m (px_server c)) Hc) as Hs.
  destruct (rpc A m (px_server c)); simpl in *; [destruct Hs| | |]; by repeat split.
Qed.

(** A call of the service through the client. *)
Lemma invoke_apply {A} op (decode : Body -> option A) c :
  px_ok c -> req_sound op -> stays px_ok (fun a => exists now s s' b, clock_ok now /\ jinv s /\
    Apply now op s = OK (mkApplyOpResponse ResultCode_OK None (Some b)) s' /\ decode b = Some a)
    (invoke rpc (performApply op decode) c).
Proof. intros Hc Hop. apply invoke_stays; [|done]. intros n Hn. by apply performApply_stays. Qed.

Lemma stays_ret {A} (Q : A -> Prop) (a : A) c : px_ok c -> Q a -> stays px_ok Q (ret (E:=error) a c).
Proof. by split. Qed.

(** Client-side steps, and calls of sound operations. *)
Lemma stays_gets {A} (f : Client -> A) c : px_ok c -> stays px_ok (fun _ => True) (gets (E:=error) f c).
Proof. by split. Qed.
Lemma stays_Add cli c : px_ok c -> stays px_ok (fun _ => True) (waiting_Add cli c).
Proof. intros Hc. unfold waiting_Add, gets, bind. by case_match. Qed.
Lemma stays_Remove cli c : px_ok c -> stays px_ok (fun _ => True) (waiting_Remove cli c).
Proof. intros Hc. unfold waiting_Remove, gets, bind. by case_match. Qed.

Lemma stays_take es rs c : px_ok c -> stays px_ok (fun _ => True) (take_entries es rs c).
Proof.
  revert rs c. induction es as [|e es IH]; intros rs c Hc; [by split|]. cbn [take_entries].
  eapply stays_bind; [by apply stays_try, stays_Remove|]. intros [?|?] c1 Hc1 _; by apply IH.
Qed.
Lemma stays_recover what l rs c : px_ok c -> stays px_ok (fun _ => True) (recover what l rs c).
Proof.
  revert rs c. induction l as [|e l IH]; intros rs c Hc; [by split|]. cbn [recover].
  eapply stays_bind; [by apply stays_try, stays_Remove|]. intros r c1 Hc1 _; by apply IH.
Qed.

Lemma stays_Check ids c : px_ok c -> stays px_ok (fun _ => True) (px_CheckClientState rpc ids c).
Proof.
  intros Hc. unfold px_CheckClientState. eapply stays_bind; [by apply stays_gets|]. intros p c1 Hc1 _.
  eapply stays_bind; [by apply invoke_apply|]. intros r c2 Hc2 _. by split.
Qed.

Lemma stays_Tick now c : px_ok c -> stays px_ok (fun _ => True) (px_Tick rpc range_waiting now c).
Proof.
  intros Hc. unfold px_Tick.
  eapply (stays_bind _ (fun _ => True)); [split; [split; [apply Hc|by apply Forall_nil]|done]|]. intros es c1 Hc1 _.
  eapply stays_bind; [by apply stays_take|]. intros rs c2 Hc2 _.
  eapply stays_bind; [by apply stays_gets|]. intros b c3 Hc3 _.
  eapply (stays_bind _ (fun _ => True)); [by split|]. intros _ c4 Hc4 _. case_match; [by split|].
  eapply stays_bind; [by apply stays_gets|]. intros w c5 Hc5 _. case_match; [by split|].
  eapply stays_bind; [by apply stays_try, stays_Check|]. intros [[[? nw] ms]|e] c6 Hc6 _; [|by split].
  eapply stays_bind; [by apply stays_recover|]. intros rs' c7 Hc7 _. by apply stays_recover.
Qed.

(** A reservation answers its own request of its own client. *)
Lemma stays_Append cid rid w now dl c :
  px_ok c -> NoDup w ->
  stays px_ok (fun r => r_RequestId r = rid /\ r_ClientId r = cid /\ (r_Status r = Matched \/ r_Status r = Queued))
    (px_AppendReservation rpc cid rid w now dl c).
Proof.
  intros Hc Hw. unfold px_AppendReservation. eapply stays_bind; [by apply stays_gets|]. intros p c1 Hc1 _.
  eapply stays_bind; [by apply invoke_apply|]. intros v c2 Hc2 (now' & s & s' & b & Hn & Hs & Ha & Hd).
  assert (v_RequestId v = rid /\ v_ClientId v = cid /\ (v_Status v = Matched \/ v_Status v = Queued)) as Hv.
  { destruct b; try done. injection Hd as <-. cbn [Apply] in Ha. unfold newApplyResp, ApplyReserve, bind, of_uri, newClientUri in Ha.
    simpl in Ha. destruct (Validate (NewClientURI p cid)) eqn:Hv; [done|]. simpl in Ha. unfold jsm in Ha.
    destruct (law_Append (ToClientID (NewClientURI p cid)) rid w now' (wrap_i64 (now' + wrap_i32 (wrap_i64 (dl - now)))) s
      Hs Hn Hw) as [_ Hres].
    destruct (jAppendReservation _ _ _ _ _ s) as [r1 s1|e s1| |] eqn:Hop; try done.
    destruct (Hres r1 s1 eq_refl) as (E1 & E2 & E3). unfold toV1Reservation in Ha.
    rewrite E2, (ParseClientURI_ToClientID _ Hv) in Ha. injection Ha as <- <-. done. }
  destruct Hv as (E1 & E2 & E3).
  eapply (stays_bind _ (fun _ => True)).
  - destruct (v_Status v); try (by split). by apply stays_Add.
  - intros _ c3 Hc3 _. by split.
Qed.

(** One call of the service and its result. *)
Ltac call_service :=
  repeat first [ eapply stays_bind; [first [by apply stays_gets | by apply invoke_apply]|intros ? ? ? ?]
               | by apply stays_ret | eapply stays_mono; [by apply invoke_apply|done] ].

#[export] Instance Client_laws : JSMLaws (Client (R:=node N)).
Proof.
  refine {| jinv := px_ok; jttr_ok t := 0 <= t < 2 ^ 31 |}; intros.
  16: { split; [eapply stays_kept, stays_Append; done|]. intros r s' E. pose proof (stays_Append cid rid w now dl s) as Ha.
        simpl in E. rewrite E in Ha. by apply Ha. }
  16: by eapply stays_kept, stays_Tick.
  16: by eapply stays_kept, stays_Check.
  all: apply (stays_kept px_ok (fun _ => True)); simpl;
    unfold px_Put, px_Bury, px_Delete, px_Kick, px_KickN, px_GetTubes, px_GetJob, px_PeekBuriedJob, px_PeekDelayedJob,
      px_PeekReadyJob, px_peek, px_ReleaseWith, px_GetStatsJobAsYaml, px_GetStatsTubeAsYaml, px_GetStatsAsYaml, px_Touch;
    try solve [call_service].
  eapply stays_bind; [apply invoke_apply; [done|]|intros ? ? ? _; by apply stays_ret].
  split; [done|]. simpl. rewrite wrap_i32_id by (unfold in_i32; lia). unfold ttr_ok. lia.
Defined.
End server.
