(* ===== verification/ProxyTick.v ===== *)
(** The tick of a proxy client: who is answered, and who still waits. *)
From stdpp Require Import base gmap list strings.
From Stdlib Require Import ZArith Lia.
From S2P Require Import Prelude Job Processor Store Raft JSMServer Proxy ProcSpec ProxySpec.
Local Open Scope Z_scope.

(** * Reservations handed out *)

(** Of the queued reservations, the first of every waiting client. *)
Fixpoint taken (w : gset ClientID) (es : list Reservation) : list Reservation :=
  match es with
  | [] => []
  | r :: es' =>
    if decide (r_ClientId r ∈ w) then r :: taken (w ∖ {[ r_ClientId r ]}) es' else taken w es'
  end.

(** Every waiting client gets the first reservation queued for it, and no other client
    gets one. *)
Lemma taken_of w es cid :
  filter (fun r => r_ClientId r = cid) (taken w es) =
    if decide (cid ∈ w) then take 1 (filter (fun r => r_ClientId r = cid) es) else [].
Proof.
  revert w. induction es as [|r es IH]; intros w; [by case_decide|]. cbn [taken]. rewrite (filter_cons _ r es).
  destruct (decide (r_ClientId r ∈ w)) as [Hw|Hw]; rewrite ?filter_cons, IH;
    destruct (decide (r_ClientId r = cid)) as [<-|Hne].
  - rewrite decide_False by set_solver. by rewrite decide_True.
  - destruct (decide (cid ∈ w)); [rewrite decide_True by set_solver|rewrite decide_False by set_solver]; done.
  - by rewrite !decide_False.
  - done.
Qed.

Lemma taken_sublist w es : taken w es `sublist_of` es.
Proof. revert w. induction es as [|r es IH]; intros w; cbn [taken]; [done|]. case_decide; by constructor. Qed.

Section tick.
Context {R : Type} `{ReplicatedJsm R}.
Context (rpc : forall A, M Status R A -> M Status R A) (range_waiting : gset ClientID -> list ClientID).
Implicit Types c : Client (R:=R).

Definition ids_of (es : list Reservation) : gset ClientID := list_to_set (r_ClientId <$> es).

Lemma set_waiting_id c : set_waiting (px_waiting c) c = c.
Proof. by destruct c. Qed.

Lemma px_Remove_spec cli c :
  try (waiting_Remove cli) c =
    OK (if decide (cli ∈ px_waiting c) then inl tt else inr ErrEntryMissing) (set_waiting (px_waiting c ∖ {[ cli ]}) c).
Proof.
  unfold try, waiting_Remove, waiting_Contains, gets, bind, modify, raise. destruct (decide (cli ∈ px_waiting c)) as [Hw|Hw].
  - by rewrite bool_decide_eq_true_2.
  - rewrite bool_decide_eq_false_2 by done. simpl. by rewrite difference_disjoint_L, set_waiting_id by set_solver.
Qed.

Lemma take_entries_spec es rs c :
  take_entries es rs c =
    OK (rs ++ taken (px_waiting c) es) (set_waiting (px_waiting c ∖ ids_of es) c).
Proof.
  revert rs c. induction es as [|r es IH]; intros rs c; cbn [take_entries taken].
  { unfold ids_of. simpl. by rewrite app_nil_r, difference_empty_L, set_waiting_id. }
  rewrite (bind_OK _ _ _ _ _ (px_Remove_spec (r_ClientId r) c)).
  assert (px_waiting c ∖ ids_of (r :: es) = px_waiting c ∖ {[ r_ClientId r ]} ∖ ids_of es) as -> by (unfold ids_of; set_solver).
  case_decide as Hw; rewrite IH; simpl.
  - by rewrite <- app_assoc.
  - by rewrite difference_disjoint_L by set_solver.
Qed.

Lemma recover_spec what l rs c :
  recover what l rs c = OK (rs ++ (lost what <$> l)) (set_waiting (px_waiting c ∖ list_to_set l) c).
Proof.
  revert rs c. induction l as [|x l IH]; intros rs c; cbn [recover].
  { simpl. by rewrite app_nil_r, difference_empty_L, set_waiting_id. }
  rewrite (bind_OK _ _ _ _ _ (px_Remove_spec x c)), IH. simpl. rewrite <- app_assoc.
  assert (px_waiting c ∖ ({[ x ]} ∪ list_to_set l) = px_waiting c ∖ {[ x ]} ∖ list_to_set l) as -> by set_solver. done.
Qed.

Lemma ids_of_app l1 l2 : ids_of (l1 ++ l2) = ids_of l1 ∪ ids_of l2.
Proof. unfold ids_of. by rewrite fmap_app, list_to_set_app_L. Qed.
Lemma ids_of_lost what l : ids_of (lost what <$> l) = list_to_set l.
Proof.
  unfold ids_of. rewrite <- list_fmap_compose, (list_fmap_ext (r_ClientId ∘ lost what) (fun x => x)), list_fmap_id; done.
Qed.

(** A waiting client with a queued reservation is answered. *)
Lemma taken_answers w es cid : cid ∈ w -> cid ∈ ids_of es -> cid ∈ ids_of (taken w es).
Proof.
  unfold ids_of. rewrite !elem_of_list_to_set, !list_elem_of_fmap. intros Hw (r & -> & Hr).
  assert (r ∈ filter (fun x => r_ClientId x = r_ClientId r) es) as Hf by (by apply list_elem_of_filter).
  pose proof (taken_of w es (r_ClientId r)) as Ht. rewrite decide_True in Ht by done.
  destruct (filter (fun x => r_ClientId x = r_ClientId r) es) as [|y l]; [by apply elem_of_nil in Hf|]. simpl in Ht.
  assert (y ∈ filter (fun x => r_ClientId x = r_ClientId r) (taken w es)) as Hy by (rewrite Ht; left).
  apply list_elem_of_filter in Hy as [E Hy]. by exists y.
Qed.

(** A call leaves the client's own fields alone. *)
Definition own_fields c c' : Prop := px_ProxyID c' = px_ProxyID c /\ px_rq c' = px_rq c /\ px_waiting c' = px_waiting c /\
  px_recoverClients c' = px_recoverClients c.
Lemma invoke_own {A} (m : M Status R A) c :
  match invoke rpc m c with OK _ c' | ERR _ c' => own_fields c c' | _ => True end.
Proof. unfold invoke. by destruct (rpc A m (px_server c)). Qed.
Lemma Check_own ids c :
  match px_CheckClientState rpc ids c with OK _ c' | ERR _ c' => own_fields c c' | _ => True end.
Proof.
  unfold px_CheckClientState, gets, bind. pose proof (invoke_own (srv_CheckClientState (mkCheckRequest (px_ProxyID c) ids)) c) as Ho.
  by destruct (invoke rpc _ c).
Qed.

(** The clients that a recovery gives up: those the cluster does not report as waiting, of the
    clients that wait after the queue was taken. *)
Definition given_up c (ids : list ClientID) : Prop :=
  ids = [] \/
  exists c2 w nw ms c3, px_CheckClientState rpc (asSlice range_waiting (px_waiting c2)) c2 = OK (w, nw, ms) c3 /\
    ids = nw ++ ms /\ px_server c2 = px_server c /\ px_rq c2 = None /\
    px_waiting c2 = px_waiting c ∖ ids_of (default [] (px_rq c)).

(** The reservations of a tick: those taken from the queue, and an error for every client
    that the cluster does not know to wait. *)
Definition tick_outcome c (rs : list Reservation) c' (lost_ids : list Reservation) : Prop :=
  rs = taken (px_waiting c) (default [] (px_rq c)) ++ lost_ids /\
  px_rq c' = None /\ px_recoverClients c' = false /\
  px_waiting c' = px_waiting c ∖ ids_of (default [] (px_rq c)) ∖ ids_of lost_ids /\
  Forall (fun r => r_Status r = RError) lost_ids /\
  (px_recoverClients c = false -> lost_ids = [] /\ px_server c' = px_server c).

Lemma px_Tick_outcome now c rs c' :
  px_Tick rpc range_waiting now c = OK rs c' ->
  exists lost_ids, tick_outcome c rs c' lost_ids /\ given_up c (r_ClientId <$> lost_ids).
Proof.
  set (es := default [] (px_rq c)). unfold px_Tick, rq_Drain. unfold gets at 1, bind at 1, bind at 1, bind at 1. simpl.
  fold es. set (c0 := set_rq None c). rewrite (bind_OK _ _ _ _ _ (take_entries_spec es [] c0)).
  set (c1 := set_waiting (px_waiting c0 ∖ ids_of es) c0). unfold gets at 1, bind at 1. unfold modify, bind at 1. simpl.
  set (c2 := set_recoverClients (ResetIfTrue (px_recoverClients c)).2 c1).
  assert (px_recoverClients c2 = false) as Hr by (subst c2; simpl; by destruct (px_recoverClients c)).
  assert (forall c3, own_fields c2 c3 -> (px_recoverClients c = false -> px_server c3 = px_server c) ->
    forall rs, OK (E:=error) (taken (px_waiting c) es) c3 = OK rs c' ->
    exists lost_ids, tick_outcome c rs c' lost_ids /\ given_up c (r_ClientId <$> lost_ids)) as Hplain.
  { intros c3 (E1 & E2 & E3 & E4) Hsv rs0 [= <- <-]. exists []. split; [|by left]. unfold tick_outcome. rewrite app_nil_r.
    split_and!; [done|done|congruence| |done|].
    - rewrite E3. unfold ids_of at 2. simpl. by rewrite difference_empty_L.
    - intros Hb. split; [done|by apply Hsv]. }
  destruct (px_recoverClients c) eqn:Hb; cbn [ResetIfTrue fst negb]; [|by apply Hplain].
  unfold gets at 1, bind at 1. case_match; [by apply Hplain|].
  pose proof (Check_own (asSlice range_waiting (px_waiting c2)) c2) as Ho. unfold try, bind at 1.
  destruct (px_CheckClientState rpc _ c2) as [[[w nw] ms] c3|e c3| |] eqn:Hck; try done; [|by apply Hplain].
  rewrite (bind_OK _ _ _ _ _ (recover_spec _ _ _ _)), recover_spec. intros [= <- <-].
  exists ((lost "entry for reservation in not waiting state " <$> nw) ++ (lost "entry for reservation is not found " <$> ms)).
  destruct Ho as (E1 & E2 & E3 & E4). split.
  - unfold tick_outcome. split_and!; simpl; [by rewrite <- app_assoc|by rewrite E2|by rewrite E4| | |congruence].
    + rewrite E3, ids_of_app, !ids_of_lost. simpl. set_solver.
    + apply Forall_app; split; apply Forall_fmap, Forall_forall; done.
  - right. exists c2, w, nw, ms, c3. split_and!; [done| |done|done|done].
    rewrite fmap_app, <- !list_fmap_compose. f_equal; apply list_fmap_id.
Qed.

Lemma px_Tick_spec now c rs c' : px_Tick rpc range_waiting now c = OK rs c' -> exists lost_ids, tick_outcome c rs c' lost_ids.
Proof. intros Ht. destruct (px_Tick_outcome now c rs c' Ht) as (l & ? & _). by exists l. Qed.

(** A failed check of the clients is only logged. *)
Lemma px_Tick_no_error now c e c' : px_Tick rpc range_waiting now c <> ERR e c'.
Proof.
  unfold px_Tick, rq_Drain. unfold gets at 1, bind at 1, bind at 1, bind at 1. simpl.
  rewrite (bind_OK _ _ _ _ _ (take_entries_spec _ _ _)). unfold gets at 1, bind at 1. unfold modify, bind at 1.
  case_match; [done|]. unfold gets at 1, bind at 1. case_match; [done|]. unfold try, bind at 1.
  destruct (px_CheckClientState rpc _ _) as [[[? nw] ms] c3|? c3| |]; try done.
  by rewrite (bind_OK _ _ _ _ _ (recover_spec _ _ _ _)), recover_spec.
Qed.

(** Without a recovery. *)
Lemma px_Tick_plain now c :
  px_recoverClients c = false ->
  px_Tick rpc range_waiting now c =
    OK (taken (px_waiting c) (default [] (px_rq c)))
      (set_rq None (set_waiting (px_waiting c ∖ ids_of (default [] (px_rq c))) c)).
Proof.
  intros Hr. unfold px_Tick, rq_Drain. unfold gets at 1, bind at 1, bind at 1, bind at 1. simpl.
  rewrite (bind_OK _ _ _ _ _ (take_entries_spec (default [] (px_rq c)) [] (set_rq None c))).
  unfold gets at 1, bind at 1. unfold modify, bind at 1. simpl. rewrite Hr. simpl.
  destruct c as [p q w b r]. simpl in *. subst b. done.
Qed.
End tick.
