(* ===== verification/ProxyWaits.v ===== *)
(** A proxy client satisfies the laws on waiting clients.

    It keeps the clients that wait, not their requests, so a client may be answered with the
    reservation of an earlier request or with an error; but a client that waits is answered
    once, and only clients that wait are answered.  What the stream and the cluster do
    between the calls of the processor changes nothing of this. *)
From stdpp Require Import base gmap list strings.
From Stdlib Require Import ZArith Lia.
From S2P Require Import Prelude Job ClientURI Processor Inv ProcSpec ProcWaits Store StoreSpec Raft JSMServer Proxy ProxySpec ProxyTick.
Local Open Scope Z_scope.

(** * Identifiers *)
Abbreviation uri_of p i := (ToClientID (NewClientURI p i)).

Lemma check_ids_inv p ids l :
  check_ids p ids = inl l -> l = (fun i => uri_of p i) <$> ids /\ Forall (fun i => Validate (NewClientURI p i) = None) ids.
Proof.
  revert l. induction ids as [|i ids IH]; intros l; cbn [check_ids]; [intros [= <-]; by split|].
  destruct (Validate _) eqn:Hv; [done|]. destruct (check_ids p ids) as [l'|]; [|done]. intros [= <-].
  destruct (IH l' eq_refl) as [-> Hf]. split; [done|by constructor].
Qed.
Lemma ToStrings_uris p ids :
  Forall (fun i => Validate (NewClientURI p i) = None) ids -> ToStrings ((fun i => uri_of p i) <$> ids) = inl ids.
Proof. induction 1 as [|i ids Hi _ IH]; [done|]. cbn. rewrite (ParseClientURI_ToClientID _ Hi), IH. done. Qed.

(** Of the queued reservations every waiting client gets one. *)
Lemma taken_NoDup w es : NoDup (r_ClientId <$> taken w es) /\ Forall (fun r => r_ClientId r ∈ w) (taken w es).
Proof.
  revert w. induction es as [|r es IH]; intros w; cbn [taken]; [split; constructor|]. case_decide as Hr; [|apply IH].
  destruct (IH (w ∖ {[ r_ClientId r ]})) as [H1 H2]. split.
  - cbn. constructor; [|done]. rewrite list_elem_of_fmap. intros (x & E & Hx).
    pose proof (proj1 (Forall_forall _ _) H2 x Hx). set_solver.
  - constructor; [done|]. eapply Forall_impl; [exact H2|]. set_solver.
Qed.

Lemma taken_ids w es : w ∖ ids_of (taken w es) = w ∖ ids_of es.
Proof.
  apply set_eq. intros i. rewrite !elem_of_difference. split; intros [Hi Hn]; (split; [done|]); intros Hx; apply Hn.
  - by apply taken_answers.
  - unfold ids_of in *. rewrite elem_of_list_to_set, list_elem_of_fmap in *. destruct Hx as (r & -> & Hr).
    exists r. split; [done|]. by eapply elem_of_sublist; [|apply taken_sublist].
Qed.

(** Some of the waiting clients leave. *)
Lemma waiting_split (w : gset ClientID) l :
  NoDup l -> Forall (fun i => i ∈ w) l -> elements w ≡ₚ elements (w ∖ list_to_set l) ++ l.
Proof.
  intros Hnd Hin. apply NoDup_Permutation; [apply NoDup_elements| |].
  - apply NoDup_app. split_and!; [apply NoDup_elements| |done]. intros i Hi%elem_of_elements. set_solver.
  - intros i. rewrite elem_of_app, !elem_of_elements, elem_of_difference, elem_of_list_to_set.
    pose proof (proj1 (Forall_forall _ _) Hin i). destruct (decide (i ∈ l)); tauto.
Qed.

(** * The client *)
Section proxy_waits.
Context {N J : Type} `{RaftFSM N J} `{!JSMWaits J}.
Context (time_Now : nat -> Z).
Hypothesis clock : forall k, clock_ok (time_Now k).
Hypothesis takes_ttr : forall t, ttr_ok t -> jttr_ok t.
Context (rpc : forall A, M Status (node N) A -> M Status (node N) A) `{!Transport rpc}.
Context (range_waiting : gset ClientID -> list ClientID).
Hypothesis range_waiting_perm : forall X, range_waiting X ≡ₚ elements X.
Let repl := node_ReplicatedJsm (N:=N) time_Now.
Existing Instance repl.
Let ops := Client_ops rpc range_waiting (R:=node N).
Existing Instance ops.
Let laws := Client_laws time_Now clock takes_ttr rpc range_waiting.
Existing Instance laws.
Implicit Types c : Client (R:=node N).

Definition px_waits c : list (ClientID * unit) := (fun i => (i, tt)) <$> elements (px_waiting c).
Lemma px_waits_same c c' : px_waiting c' = px_waiting c -> px_waits c' ≡ₚ px_waits c.
Proof. unfold px_waits. by intros ->. Qed.

(** ** Calls that do not concern who waits *)
Definition keeps_waiting {A} (m : M error Client A) : Prop :=
  forall c c', final (m c) = Some c' -> px_waiting c' = px_waiting c.
Lemma px_keeps_ret {A} (a : A) : keeps_waiting (ret a).
Proof. by intros c c' [= <-]. Qed.
Lemma px_keeps_invoke {A} (m : M Status (node N) A) : keeps_waiting (invoke rpc m).
Proof. intros c c'. unfold invoke. destruct (rpc A m (px_server c)); simpl; intros [= <-]; done. Qed.
Lemma px_keeps_gets {A} (f : Client -> A) : keeps_waiting (gets f).
Proof. by intros c c' [= <-]. Qed.
Lemma px_keeps_bind {A B} (m : M error Client A) (k : A -> M error Client B) :
  keeps_waiting m -> (forall a, keeps_waiting (k a)) -> keeps_waiting (bind m k).
Proof.
  intros Hm Hk c c'. unfold bind. specialize (Hm c). destruct (m c) as [a c1|e c1| |]; try done.
  - intros Hf. rewrite (Hk a c1 c' Hf). by apply Hm.
  - intros [= <-]. by apply Hm.
Qed.
Lemma px_keeps_steady {A} (m : M error Client A) : keeps_waiting m -> steady_call (px_ok) px_waits m.
Proof. intros Hm c c' _ Hf. apply px_waits_same. by apply Hm. Qed.
Ltac keeps := repeat first [ apply px_keeps_ret | apply px_keeps_invoke | apply px_keeps_gets | apply px_keeps_bind; [|intros ?] ].

(** ** Reservations *)
Lemma px_Append_waits cid rid w now dl c :
  px_ok c -> NoDup w ->
  match px_AppendReservation rpc cid rid w now dl c with
  | OK r c' => px_waits c' ≡ₚ (if decide (r_Status r = Queued) then [(cid, tt)] else []) ++ px_waits c
  | ERR _ c' => px_waits c' ≡ₚ px_waits c
  | PANIC | DIVERGE => True
  end.
Proof using clock takes_ttr Transport0.
  intros Hc Hw. pose proof (stays_Append time_Now clock takes_ttr rpc cid rid w now dl c Hc Hw) as Hs. revert Hs.
  unfold px_AppendReservation, waiting_Add, waiting_Contains, gets, bind. set (req := mkReserveRequest _ _ _ _ _).
  pose proof (px_keeps_invoke (srv_Reserve req) c) as Hk.
  destruct (invoke rpc (srv_Reserve req) c) as [v c1|e c1| |]; try done; specialize (Hk c1 eq_refl); [|by intros; apply px_waits_same].
  destruct (v_Status v) eqn:Ev; try (simpl; rewrite Ev; simpl; intros _; by apply px_waits_same).
  case_bool_decide as Hin; simpl; rewrite ?Ev; simpl; intros Hs; [by apply px_waits_same|].
  destruct Hs as (_ & _ & <- & _). unfold px_waits. simpl. rewrite Hk in *. by rewrite elements_union_singleton.
Qed.

(** ** The state of the clients of a proxy *)

(** The answer of the cluster divides the clients it was asked about. *)
Lemma Check_answer now p ids (s s' : J) b r :
  jinv s -> Apply now (OpType_CHECK_CLIENT_STATE (mkCheckRequest p ids)) s = OK (mkApplyOpResponse ResultCode_OK None (Some b)) s' ->
  as_Check b = Some r -> cs_Waiting r ++ cs_NotWaiting r ++ cs_Missing r ≡ₚ ids.
Proof using JSMWaits0.
  intros Hs. cbn [Apply]. unfold newApplyResp, ApplyCheckState, of_uri, jsm, bind. simpl.
  destruct (check_ids p ids) as [l|] eqn:Hl; [|done]. apply check_ids_inv in Hl as [-> Hv]. simpl.
  destruct (jCheckClientState _ s) as [[[w nw] m] s1|e s1| |] eqn:Hck; try done.
  pose proof (waits_Check _ _ _ _ _ _ Hs Hck) as Hp. apply Permutation_map_inv in Hp as (l & E & Hp).
  symmetry in E. apply fmap_app_inv in E as (i1 & i23 & -> & E & ->). symmetry in E.
  apply fmap_app_inv in E as (i2 & i3 & -> & -> & ->).
  rewrite Hp in Hv. apply Forall_app in Hv as [V1 Hv]. apply Forall_app in Hv as [V2 V3].
  rewrite (ToStrings_uris p i3 V3), (ToStrings_uris p i1 V1), (ToStrings_uris p i2 V2). simpl.
  intros [= <- <-] [= <-]. by rewrite Hp.
Qed.

Lemma px_Check_partitions ids c w nw ms c' :
  px_ok c -> px_CheckClientState rpc ids c = OK (w, nw, ms) c' -> w ++ nw ++ ms ≡ₚ ids.
Proof using clock takes_ttr Transport0 JSMWaits0.
  intros Hc. unfold px_CheckClientState, gets, bind.
  pose proof (invoke_apply time_Now clock takes_ttr rpc (OpType_CHECK_CLIENT_STATE (mkCheckRequest (px_ProxyID c) ids)) as_Check c Hc) as Hs.
  unfold srv_CheckClientState. destruct (invoke rpc _ c) as [r c1|e c1| |]; try done. intros [= <- <- <- _].
  destruct Hs as [_ (now & s & s' & b & _ & Hj & Ha & Hb)]; [done|]. by eapply Check_answer.
Qed.

(** ** The tick *)

(** The clients that a recovery gives up were waiting, each once. *)
Lemma given_up_waiting c ids :
  px_ok c -> given_up rpc range_waiting c ids -> NoDup ids /\ Forall (fun i => i ∈ px_waiting c ∖ ids_of (default [] (px_rq c))) ids.
Proof using clock takes_ttr Transport0 JSMWaits0 range_waiting_perm.
  intros [Hc _] [->|(c2 & w & nw & ms & c3 & Hck & -> & Hsv & Hq & Hw)]; [split; constructor|].
  assert (px_ok c2) as Hok. { split; [by rewrite Hsv|]. unfold queue_ok. rewrite Hq. by apply Forall_nil. }
  pose proof (px_Check_partitions _ _ _ _ _ _ Hok Hck) as Hp. unfold asSlice in Hp. rewrite range_waiting_perm, Hw in Hp.
  pose proof (NoDup_elements (px_waiting c ∖ ids_of (default [] (px_rq c)))) as Hnd. rewrite <- Hp in Hnd.
  split; [by apply NoDup_app in Hnd as (_ & _ & ?)|]. apply Forall_forall. intros i Hi. apply elem_of_elements.
  rewrite <- Hp. apply elem_of_app. by right.
Qed.

Lemma px_Tick_waits now c :
  px_ok c ->
  match px_Tick rpc range_waiting now c with
  | OK rs c' => Forall is_reply rs /\ px_waits c ≡ₚ px_waits c' ++ ((fun r => (r_ClientId r, tt)) <$> rs)
  | ERR _ c' => px_waits c' ≡ₚ px_waits c
  | PANIC | DIVERGE => True
  end.
Proof using clock takes_ttr Transport0 JSMWaits0 range_waiting_perm.
  intros Hc. destruct (px_Tick rpc range_waiting now c) as [rs c'|e c'| |] eqn:Ht; try done; [|by apply px_Tick_no_error in Ht].
  destruct (px_Tick_outcome _ _ _ _ _ _ Ht) as (lost_ids & (-> & _ & _ & Hw & He & _) & Hg).
  destruct (given_up_waiting c _ Hc Hg) as [Hnd Hin]. set (es := default [] (px_rq c)) in *.
  destruct (taken_NoDup (px_waiting c) es) as [Hnt Hit]. split.
  - apply Forall_app. split; [|eapply Forall_impl; [exact He|]; unfold is_reply; by intros r ->].
    apply Forall_forall. intros r Hr. destruct Hc as [_ Hq]. apply (proj1 (Forall_forall _ _) Hq).
    by eapply elem_of_sublist; [|apply taken_sublist].
  - assert (px_waiting c' = px_waiting c ∖ list_to_set (r_ClientId <$> taken (px_waiting c) es ++ lost_ids)) as Hw'.
    { rewrite Hw, <- (taken_ids (px_waiting c) es), fmap_app, list_to_set_app_L. unfold ids_of. set_solver. }
    unfold px_waits. rewrite (list_fmap_compose r_ClientId (fun i => (i, tt))), <- fmap_app, Hw'.
    apply Permutation_map, waiting_split; rewrite fmap_app.
    + apply NoDup_app. split_and!; [done| |done]. intros i Hi Hl. pose proof (proj1 (Forall_forall _ _) Hin i Hl) as Hx.
      rewrite <- taken_ids in Hx. unfold ids_of in Hx. set_solver.
    + apply Forall_app. split; [by apply Forall_fmap|]. eapply Forall_impl; [exact Hin|]. set_solver.
Qed.

(** ** The interface *)
#[export] Instance Client_waits : JSMWaits (Client (R:=node N)).
Proof using clock takes_ttr Transport0 JSMWaits0 range_waiting_perm.
  refine {| jtoken := unit; jtag _ := tt; jwaits := px_waits |}; simpl; intros.
  16: by apply px_Append_waits.
  16: by apply px_Tick_waits.
  16: by eapply px_Check_partitions.
  all: apply px_keeps_steady;
    unfold px_Put, px_Bury, px_Delete, px_Kick, px_KickN, px_GetTubes, px_GetJob, px_PeekBuriedJob, px_PeekDelayedJob,
      px_PeekReadyJob, px_peek, px_ReleaseWith, px_GetStatsJobAsYaml, px_GetStatsTubeAsYaml, px_GetStatsAsYaml, px_Touch; keeps.
Defined.

(** ** Between the calls *)

(** What goes on outside of the processor: the goroutine of the stream queues an answer, or asks
    for a recovery after a stream has ended; the cluster does its own things. *)
Inductive proxy_env c : Client -> Prop :=
| env_message v : v_Status v <> Queued -> proxy_env c (stream_recv v c)
| env_end code c' : stream_end code c = Some c' -> proxy_env c c'
| env_cluster n : node_ok n -> proxy_env c (set_server n c).

Lemma proxy_env_ok c c' : px_ok c -> proxy_env c c' -> px_ok c' /\ px_waits c' ≡ₚ px_waits c.
Proof.
  intros [Hn Hq] [v Hv|code c1 He|n Hn'].
  - split; [|done]. split; [done|]. unfold queue_ok, stream_recv, rq_Enqueue in *. simpl. destruct (px_rq c); simpl in *.
    + apply Forall_app. split; [done|]. by apply Forall_singleton.
    + by apply Forall_singleton.
  - unfold stream_end in He. case_decide; [done|]. by injection He as <-.
  - by split; [split|].
Qed.

(** The messages of a stream are answers: they are what a tick of a replica returned. *)
Lemma group_answers rs g g' :
  Forall is_reply rs -> map_Forall (fun _ => Forall (fun v => v_Status v <> Queued)) g -> group_by_proxy rs g = inl g' ->
  map_Forall (fun _ => Forall (fun v => v_Status v <> Queued)) g'.
Proof.
  intros Hrs. revert g. induction Hrs as [|r rs Hr _ IH]; intros g Hg; cbn [group_by_proxy]; [by intros [= <-]|].
  destruct (toV1Reservation r) as [v|] eqn:Hv; [|done]. apply IH.
  assert (v_Status v <> Queued) as Hs. { unfold toV1Reservation in Hv. destruct (ParseClientURI _); [|done]. by injection Hv as <-. }
  destruct (g !! v_ProxyId v) as [es|] eqn:Hl; apply map_Forall_insert_2; try done.
  - apply Forall_app. split; [exact (Hg _ _ Hl)|by apply Forall_singleton].
  - by apply Forall_singleton.
Qed.
Lemma tick_sends_answers n g n' :
  node_ok n -> srv_Tick n = OK g n' -> map_Forall (fun _ => Forall (fun v => v_Status v <> Queued)) g.
Proof using clock takes_ttr JSMWaits0.
  intros Hn. unfold srv_Tick. case_match; [done|].
  pose proof (performApply_stays time_Now clock takes_ttr OpType_TICK as_Tick n Hn) as Hs.
  destruct (performApply OpType_TICK as_Tick n) as [g1 n1|e n1| |]; try done. intros [= <- <-].
  destruct Hs as [_ (now & s & s' & b & Hnow & Hj & Ha & Hb)]; [done|]. revert Ha. cbn [Apply].
  unfold newApplyResp, ApplyTick, of_uri, jsm, bind. pose proof (waits_Tick now s Hj Hnow) as Ht.
  destruct (jTick now s) as [rs s1|e s1| |]; try done. destruct Ht as [Hrs _].
  destruct (group_by_proxy rs ∅) as [g2|] eqn:Hg; [|done]. intros [= <- _]. injection Hb as <-.
  by eapply group_answers; [exact Hrs|apply map_Forall_empty|].
Qed.
End proxy_waits.
