(* ===== verification/Link.v ===== *)
(** The stream of reservations of a proxy client: [Open], [GetReservations], [Close] and
    [connect] of [src/beanstalkd/proxy/client.go].

    [Open] dials the cluster and starts a goroutine that keeps one call of
    [StreamReserveUpdates] open, over and over; every message is queued for the next
    [Tick].  [Close], called from the goroutine of the processor, cancels the context of
    the current call and closes the connection.  The gRPC library appears as the steps
    that it can make. *)
From stdpp Require Import base gmap list strings relations.
From Stdlib Require Import ZArith Lia.
From S2P Require Import Prelude Job Processor Store JSMServer Proxy.

(** * The client and its goroutine *)

(** An error of [GetReservations]: a gRPC status, or [ctx.Err()], which is none. *)
Inductive link_error : Type := LStatus (code : ResultCode) | LCtxErr.

(** [status.FromError(err)], when it is a status. *)
Definition FromError (err : link_error) : option ResultCode :=
  match err with LStatus code => Some code | LCtxErr => None end.

(** The position of the goroutine: not started; at the top of the loop of [Open]; before
    the call of [StreamReserveUpdates]; in [stream.Recv]; with a message, before the
    [select]; returning from [GetReservations]; ended. *)
Inductive link_pos : Type :=
| LIdle | LTop | LCall | LRecv | LGot (v1r : V1Reservation) | LReturn (err : link_error) | LEnded.

(** The position of the goroutine that calls [Close]: before, between the cancellation and
    the closing of the connection, and after. *)
Inductive close_pos : Type := KOpen | KSignalled | KClosed.
Inductive grpc_conn : Type := ConnNil | ConnOpen | ConnClosed.

#[export] Instance link_pos_eq_dec_ended (p : link_pos) : Decision (p = LEnded).
Proof. destruct p; first [left; reflexivity | right; discriminate]. Defined.

Section link.
Context {R : Type}.

Record link : Type := mkLink {
  lk_client : Client (R:=R);
  lk_pos : link_pos;
  (** [reserveCancel] is not nil; the context that it cancels is done *)
  lk_reserveCancel : bool;
  lk_ctxDone : bool;
  lk_conn : grpc_conn;
  lk_close : close_pos;
  (** the messages of the current stream that have arrived *)
  lk_buf : list V1Reservation
}.
Definition new_link (c : Client) : link := mkLink c LIdle false false ConnNil KOpen [].

Definition set_client (v : Client) (l : link) : link :=
  mkLink v (lk_pos l) (lk_reserveCancel l) (lk_ctxDone l) (lk_conn l) (lk_close l) (lk_buf l).
Definition set_pos (v : link_pos) (l : link) : link :=
  mkLink (lk_client l) v (lk_reserveCancel l) (lk_ctxDone l) (lk_conn l) (lk_close l) (lk_buf l).
Definition set_conn_state (v : grpc_conn) (l : link) : link :=
  mkLink (lk_client l) (lk_pos l) (lk_reserveCancel l) (lk_ctxDone l) v (lk_close l) (lk_buf l).
Definition set_close (v : close_pos) (l : link) : link :=
  mkLink (lk_client l) (lk_pos l) (lk_reserveCancel l) (lk_ctxDone l) (lk_conn l) v (lk_buf l).
Definition set_buf (v : list V1Reservation) (l : link) : link :=
  mkLink (lk_client l) (lk_pos l) (lk_reserveCancel l) (lk_ctxDone l) (lk_conn l) (lk_close l) v.

(** [setCancel], for a context that was just made. *)
Definition setCancel (l : link) : link :=
  mkLink (lk_client l) (lk_pos l) true false (lk_conn l) (lk_close l) (lk_buf l).
Definition signalCancel (l : link) : link :=
  if lk_reserveCancel l
  then mkLink (lk_client l) (lk_pos l) (lk_reserveCancel l) true (lk_conn l) (lk_close l) (lk_buf l) else l.

(** [connect]: the addresses are handed to the resolver of the connection, which [grpc_Dial]
    opens or not. *)
Definition connect (grpc_Dial : list string -> option string) (serverAddrs : list string) : grpc_conn + string :=
  match grpc_Dial serverAddrs with None => inl ConnOpen | Some err => inr err end.

(** [Open]: the error, or the goroutine is started. *)
Definition Open (grpc_Dial : list string -> option string) (serverAddrs : list string) (l : link) : option string * link :=
  match connect grpc_Dial serverAddrs with
  | inr err => (Some err, l)
  | inl conn => (None, set_pos LTop (set_conn_state conn l))
  end.

(** [GetReservations], up to the call. *)
Definition link_begin (l : link) : link := set_pos LCall (setCancel l).
(** [StreamReserveUpdates] returned a stream. *)
Definition link_opened (l : link) : link := set_pos LRecv (set_buf [] l).
(** It, or [stream.Recv], returned an error. *)
Definition link_fails (code : ResultCode) (l : link) : link := set_pos (LReturn (LStatus code)) l.
(** [stream.Recv] returned a message. *)
Definition link_recv (v1r : V1Reservation) (rest : list V1Reservation) (l : link) : link := set_pos (LGot v1r) (set_buf rest l).
(** The [select] and what follows it. *)
Definition link_select (v1r : V1Reservation) (l : link) : link :=
  if lk_ctxDone l then set_pos (LReturn LCtxErr) l
  else set_pos LRecv (set_client (stream_recv v1r (lk_client l)) l).
(** The deferred call, and the loop of [Open]. *)
Definition link_return (err : link_error) (l : link) : link :=
  let l := signalCancel l in
  match stream_end (default ResultCode_Unknown (FromError err)) (lk_client l) with
  | None => set_pos LEnded l
  | Some c => set_pos LTop (set_client c l)
  end.

(** [Close] *)
Definition close_signal (l : link) : link := set_close KSignalled (signalCancel l).
Definition close_conn (l : link) : link :=
  set_close KClosed (match lk_conn l with ConnNil => l | _ => set_conn_state ConnClosed l end).

(** * Steps *)

(** A call on a connection that is closed, or with a context that is done, fails with the
    status [Canceled] of the gRPC library. *)
Definition call_fails_with (l : link) (code : ResultCode) : Prop :=
  lk_conn l <> ConnOpen \/ lk_ctxDone l = true -> code = ResultCode_Canceled.

(** The steps of the goroutine. *)
Inductive gstep (l : link) : link -> Prop :=
| gs_begin : lk_pos l = LTop -> gstep l (link_begin l)
| gs_opened : lk_pos l = LCall -> lk_conn l = ConnOpen -> lk_ctxDone l = false -> gstep l (link_opened l)
| gs_call_fails code : lk_pos l = LCall -> call_fails_with l code -> gstep l (link_fails code l)
| gs_recv v rest : lk_pos l = LRecv -> lk_buf l = v :: rest -> gstep l (link_recv v rest l)
| gs_recv_fails code : lk_pos l = LRecv -> gstep l (link_fails code l)
| gs_select v : lk_pos l = LGot v -> gstep l (link_select v l)
| gs_return err : lk_pos l = LReturn err -> gstep l (link_return err l).

(** The others: messages arrive while the connection is open, the processor uses the
    client, and [Close] runs. *)
Inductive estep (l : link) : link -> Prop :=
| es_open l' d a : lk_pos l = LIdle -> lk_conn l = ConnNil -> lk_close l = KOpen -> Open d a l = (None, l') -> estep l l'
| es_arrive v : lk_conn l = ConnOpen -> estep l (set_buf (lk_buf l ++ [v]) l)
| es_client c : estep l (set_client c l)
| es_signal : lk_close l = KOpen -> estep l (close_signal l)
| es_close : lk_close l = KSignalled -> estep l (close_conn l).

(** Runs with a count of the steps of the goroutine. *)
Inductive runs : nat -> link -> link -> Prop :=
| runs_refl l : runs 0 l l
| runs_gstep n l l1 l2 : gstep l l1 -> runs n l1 l2 -> runs (S n) l l2
| runs_estep n l l1 l2 : estep l l1 -> runs n l1 l2 -> runs n l l2.
End link.
Arguments link : clear implicits.
