(* ===== verification/LinkSpec.v ===== *)
(** The goroutine that streams reservations to a proxy client comes to an end after [Close],
    and asks for a recovery whenever it starts again. *)
From stdpp Require Import base gmap list strings relations.
From Stdlib Require Import ZArith Lia.
From S2P Require Import Prelude Job Processor Store JSMServer Proxy Link.

Section link_spec.
Context {R : Type}.
Implicit Types l : link R.

(** * Ending *)

(** How many steps the goroutine can still make once the connection is closed. *)
Definition steps_left l : nat :=
  match lk_pos l with
  | LIdle | LEnded => 0
  | LReturn (LStatus ResultCode_Canceled) => 1
  | LCall => 2
  | LTop => 3
  | LReturn _ => 4
  | LRecv => 5 + 2 * length (lk_buf l)
  | LGot _ => 6 + 2 * length (lk_buf l)
  end.

Lemma signalCancel_fields l :
  lk_client (signalCancel l) = lk_client l /\ lk_pos (signalCancel l) = lk_pos l /\ lk_conn (signalCancel l) = lk_conn l /\
  lk_close (signalCancel l) = lk_close l /\ lk_buf (signalCancel l) = lk_buf l.
Proof. unfold signalCancel. by destruct (lk_reserveCancel l). Qed.

(** The closing is over: the connection is closed, unless there never was one. *)
Record link_closed l : Prop := {
  lc_close : lk_close l = KClosed;
  lc_conn : lk_conn l <> ConnOpen
}.

(** A connection that is not there has not been used. *)
Definition link_wf l : Prop :=
  (lk_conn l = ConnNil -> lk_pos l = LIdle) /\ (lk_close l = KClosed -> lk_conn l <> ConnOpen).

Lemma link_return_fields err l :
  lk_conn (link_return err l) = lk_conn l /\ lk_close (link_return err l) = lk_close l /\
  (lk_pos (link_return err l) = LEnded \/ lk_pos (link_return err l) = LTop).
Proof.
  destruct (signalCancel_fields l) as (E1 & E2 & E3 & E4 & E5). unfold link_return, stream_end. rewrite E1.
  case_decide; simpl; auto.
Qed.

Lemma gstep_fields l l' : gstep l l' -> lk_conn l' = lk_conn l /\ lk_close l' = lk_close l /\ lk_pos l <> LIdle.
Proof.
  intros []; try (split_and!; [done|done|congruence]).
  - unfold link_select. destruct (lk_ctxDone l); (split_and!; [done|done|congruence]).
  - destruct (link_return_fields err l) as (A & B & _). split_and!; [done|done|congruence].
Qed.

Lemma link_wf_gstep l l' : gstep l l' -> link_wf l -> link_wf l'.
Proof.
  intros Hg [H1 H2]. destruct (gstep_fields l l' Hg) as (E1 & E2 & Hp). unfold link_wf. rewrite E1, E2. split; [|done].
  intros Hn. destruct (Hp (H1 Hn)).
Qed.

Lemma link_wf_estep l l' : estep l l' -> link_wf l -> link_wf l'.
Proof.
  intros He [H1 H2]. destruct He as [l' d a Hp Hc Hk Ho|v Hc|c|Hk|Hk].
  - unfold Open, connect in Ho. destruct (d a); simplify_eq. split; simpl; [done|]. by rewrite Hk.
  - by split.
  - by split.
  - destruct (signalCancel_fields l) as (E1 & E2 & E3 & E4 & E5). unfold link_wf, close_signal. simpl. rewrite E2, E3.
    split; [exact H1|discriminate].
  - unfold link_wf, close_conn. destruct (lk_conn l) eqn:Hc; simpl; rewrite ?Hc; split; auto; discriminate.
Qed.

Lemma runs_wf n l l' : runs n l l' -> link_wf l -> link_wf l'.
Proof. induction 1; eauto using link_wf_gstep, link_wf_estep. Qed.

(** Closed, each step of the goroutine uses one up, and no other step adds any. *)
Lemma gstep_closed l l' : gstep l l' -> link_closed l -> link_closed l' /\ steps_left l' < steps_left l.
Proof.
  intros Hg [Hk Hc]. destruct (gstep_fields l l' Hg) as (E1 & E2 & _).
  split; [split; congruence|]. unfold steps_left.
  destruct Hg as [Hp|Hp Ho _|code Hp Hf|v rest Hp Hb|code Hp|v Hp|err Hp]; rewrite Hp; simpl.
  - lia.
  - done.
  - rewrite (Hf (or_introl Hc)). lia.
  - rewrite Hb. simpl. lia.
  - destruct code; lia.
  - unfold link_select. destruct (lk_ctxDone l); simpl; lia.
  - destruct (signalCancel_fields l) as (F1 & _). unfold link_return, stream_end. rewrite F1.
    destruct err as [code|]; simpl; [|lia]. destruct (decide (code = ResultCode_Canceled)) as [->|Hne]; simpl; [lia|].
    destruct code; simpl; try lia; done.
Qed.

Lemma estep_closed l l' : estep l l' -> link_closed l -> link_closed l' /\ steps_left l' = steps_left l.
Proof.
  intros He [Hk Hc]. destruct He as [l' d a Hp Hn Hk' Ho|v Ho|c|Hk'|Hk']; try congruence.
  split; [by split|done].
Qed.

Lemma runs_closed n l l' : runs n l l' -> link_closed l -> link_closed l' /\ n + steps_left l' <= steps_left l.
Proof.
  induction 1 as [l|n l l1 l2 Hg _ IH|n l l1 l2 He _ IH]; intros Hc; [split; [done|lia]|..].
  - destruct (gstep_closed _ _ Hg Hc) as [H1 H2]. destruct (IH H1) as [H3 H4]. split; [done|lia].
  - destruct (estep_closed _ _ He Hc) as [H1 H2]. destruct (IH H1) as [H3 H4]. split; [done|lia].
Qed.

Lemma steps_left_bound l : steps_left l <= 6 + 2 * length (lk_buf l).
Proof. unfold steps_left. destruct (lk_pos l) as [| | | | |[[]|]|]; lia. Qed.

(** A closed client does not start the goroutine. *)
Lemma runs_idle n l l' : runs n l l' -> link_closed l -> lk_pos l = LIdle -> lk_pos l' = LIdle.
Proof.
  induction 1 as [l|n l l1 l2 Hg _ IH|n l l1 l2 He _ IH]; intros Hc Hi; [done|..].
  - destruct (gstep_fields _ _ Hg) as (_ & _ & Hp). by destruct (Hp Hi).
  - destruct (estep_closed _ _ He Hc) as [Hc1 _]. apply IH; [done|]. destruct Hc as [Hk Hn]. destruct He; try congruence. done.
Qed.

(** A goroutine that was started and has not ended can make a step. *)
Lemma gstep_progress l : lk_pos l <> LIdle -> lk_pos l <> LEnded -> exists l', gstep l l'.
Proof.
  intros Hi He. destruct (lk_pos l) eqn:Hp; try done.
  - eexists. by apply gs_begin.
  - exists (link_fails ResultCode_Canceled l). apply gs_call_fails; [done|]. by intros _.
  - exists (link_fails ResultCode_Unavailable l). by apply gs_recv_fails.
  - eexists. by eapply gs_select.
  - eexists. by eapply gs_return.
Qed.

(** * Starting again *)

(** Whenever the goroutine gets back to the top of its loop it has asked for a recovery. *)
Lemma restart_recovers l l' :
  gstep l l' -> lk_pos l' = LTop -> px_recoverClients (lk_client l') = true.
Proof.
  intros [] Hp; try done.
  - unfold link_select in Hp. by destruct (lk_ctxDone l).
  - destruct (signalCancel_fields l) as (F1 & _). unfold link_return, stream_end in *. rewrite F1 in *.
    case_decide; [done|]. simpl. unfold SetIfFalse. by destruct (px_recoverClients (lk_client l)) eqn:E.
Qed.
End link_spec.
