(* ===== verification/Solo.v ===== *)
(** A cluster of one node and a proxy client with a faithful connection.

    [solo] is a raft node that leads, commits every entry at once and keeps the
    configuration it is given: the smallest cluster that behaves as documented.  On it the
    calls of a proxy client are the calls of the state machine, under the identifier made
    from the proxy and the client. *)
From stdpp Require Import base gmap list strings.
From Stdlib Require Import ZArith Lia.
From S2P Require Import Prelude Job Snapshot ClientURI Processor Inv ProcSpec Store StoreSpec.
From S2P Require Import Raft RaftSpec JSMServer Proxy ProxySpec.
Local Open Scope Z_scope.

(** * The node *)
Section solo.
Context {J : Type} `{JSMOps J}.

Record solo : Type := mkSolo { so_fsm : J; so_state : RaftState; so_cfg : list RaftServer }.

Definition solo_RemoveServer (i : string) : M raft_error solo unit := fun n =>
  match so_state n with
  | Leader => OK tt (mkSolo (so_fsm n) Leader (filter (fun s => srv_ID s <> i) (so_cfg n)))
  | _ => ERR RErrNotLeader n
  end.
(** A duplicate address is refused. *)
Definition solo_AddVoter (i a : string) : M raft_error solo unit := fun n =>
  match so_state n with
  | Leader =>
    let rest := filter (fun s => srv_ID s <> i) (so_cfg n) in
    if decide (a ∈ srv_Address <$> rest) then ERR (ROther "found duplicate address in configuration") n
    else OK tt (mkSolo (so_fsm n) Leader (mkRaftServer i a :: rest))
  | _ => ERR RErrNotLeader n
  end.

#[export] Instance solo_node : RaftNode solo := {
  raft_State := so_state;
  raft_GetConfiguration n := OK (so_cfg n) n;
  raft_RemoveServer := solo_RemoveServer;
  raft_AddVoter := solo_AddVoter;
  raft_BootstrapCluster servers n :=
    if decide (so_cfg n = []) then OK tt (mkSolo (so_fsm n) (so_state n) servers)
    else ERR RErrCantBootstrap n;
  raft_LeadershipTransfer n := ERR (ROther "cannot find peer") n;
  raft_Snapshot n := OK tt n;
  raft_Shutdown n := OK tt (mkSolo (so_fsm n) Shutdown (so_cfg n));
  raft_Apply now op n :=
    match so_state n with
    | Leader =>
      match Apply now op (so_fsm n) with
      | OK resp s => OK resp (mkSolo s Leader (so_cfg n))
      | ERR _ _ | PANIC => PANIC
      | DIVERGE => DIVERGE
      end
    | _ => ERR RErrNotLeader n
    end
}.
End solo.
Arguments solo : clear implicits.

(** It behaves as documented. *)
#[export] Instance solo_fsm {J} `{JSMLaws J} (takes_ttr : forall t, ttr_ok t -> jttr_ok t) : RaftFSM (solo J) J.
Proof.
  refine {| fsm := so_fsm |}. intros now op n Hi Hop. exists [], [], (so_fsm n). split_and!; [constructor|done|].
  simpl. destruct (so_state n); try done.
  destruct (Apply_returns takes_ttr now op (so_fsm n) Hi Hop) as (resp & s' & -> & _). done.
Defined.

#[export] Instance solo_membership {J} `{JSMOps J} : RaftMembership (solo J).
Proof.
  refine {| cfg := so_cfg |}; simpl.
  - intros n. by left.
  - intros i n. unfold solo_RemoveServer. split; [by destruct (so_state n)|]. intros n'. by destruct (so_state n); intros [= <-].
  - intros i a n. unfold solo_AddVoter. split; [destruct (so_state n); by try case_decide|]. intros n'.
    destruct (so_state n); try done. case_decide; [done|]. by intros [= <-].
  - intros i a n Hf. unfold solo_RemoveServer, solo_AddVoter. by destruct (so_state n).
Defined.

(** * The calls of a proxy *)
Section exact.
Context {J : Type} `{JSMOps J}.
Context (time_Now : nat -> Z) (range_waiting : gset ClientID -> list ClientID).
Let repl := node_ReplicatedJsm (N:=solo J) time_Now.
Existing Instance repl.

(** The connection that loses nothing. *)
Definition direct (A : Type) (m : M Status (node (solo J)) A) : M Status (node (solo J)) A := m.
Implicit Types c : Client (R:=node (solo J)).

Definition jsm_of c : J := so_fsm (nd_raft (px_server c)).
Definition leads c : Prop := so_state (nd_raft (px_server c)) = Leader.
Definition now_of c : Z := time_Now (nd_reads (px_server c)).
Definition moved (s : J) c : Client :=
  set_server (mkNode (mkSolo s Leader (so_cfg (nd_raft (px_server c)))) (S (nd_reads (px_server c)))) c.

(** A call of the state machine seen from the proxy: the result is sent back, and an
    error becomes a status that carries its text. *)
Definition answer {A B} (f : A -> B) (m : M error J A) c : outcome error Client B :=
  match m (jsm_of c) with
  | OK a s => OK (f a) (moved s c)
  | ERR e s => ERR (status_error (mkStatus ResultCode_Unknown (SApplyOp (Some (AJsm e))))) (moved s c)
  | PANIC => PANIC
  | DIVERGE => DIVERGE
  end.

Lemma wrap_u64_wrap_i64 z : wrap_u64 (wrap_i64 z) = wrap_u64 z.
Proof.
  unfold wrap_u64, wrap_i64. rewrite Zminus_mod_idemp_l. f_equal. lia.
Qed.

Lemma performApply_solo {A} op (decode : Body -> option A) (n0 : node (solo J)) :
  so_state (nd_raft n0) = Leader ->
  performApply op decode n0 =
  match Apply (time_Now (nd_reads n0)) op (so_fsm (nd_raft n0)) with
  | OK resp s =>
    let n := mkNode (mkSolo s Leader (so_cfg (nd_raft n0))) (S (nd_reads n0)) in
    if decide (ErrorCode resp <> ResultCode_OK)
    then ERR (mkStatus (ErrorCode resp) (SApplyOp (ErrorMessage resp))) n
    else match ResponseBody resp ≫= decode with Some a => OK a n | None => ERR (mkStatus ResultCode_Internal SUnmarshal) n end
  | ERR _ _ | PANIC => PANIC
  | DIVERGE => DIVERGE
  end.
Proof.
  destruct n0 as [r k]. intros Hl. simpl in Hl. unfold performApply, rNowSeconds, rApplyOp, repl, node_ReplicatedJsm, NowSeconds, zoom, ApplyOp, gets, bind,
    attempt, ret. simpl. rewrite decide_False by (rewrite Hl; tauto). rewrite Hl.
  destruct (Apply (time_Now k) op (so_fsm r)) as [resp s|? ?| |]; [|done..]. unfold set_raft. simpl.
  destruct (decide (ErrorCode resp <> ResultCode_OK)); [done|]. by destruct (ResponseBody resp ≫= decode).
Qed.

(** An operation whose result is the answer of one call of the state machine. *)
Lemma invoke_solo {A B} op (decode : Body -> option B) (f : A -> Body) (g : A -> B) (m : M error J A) c :
  leads c -> Apply (now_of c) op = newApplyResp (a <- jsm m ;; ret (f a)) -> (forall a, decode (f a) = Some (g a)) ->
  invoke direct (performApply op decode) c = answer g m c.
Proof.
  intros Hl Ha Hd. destruct c as [p q w b [r k]]. unfold leads, now_of in *. simpl in *.
  unfold invoke, direct, answer, jsm_of, moved. rewrite performApply_solo by done. simpl. rewrite Ha.
  unfold newApplyResp, jsm, bind. destruct (m (so_fsm r)); [|done..]. simpl. by rewrite Hd.
Qed.

Lemma answer_bind {A B C} (f : A -> B) (g : B -> C) (m : M error J A) (x : M error Client B) c :
  x c = answer f m c -> bind x (fun a => ret (g a)) c = answer (g ∘ f) m c.
Proof. unfold bind, answer. intros ->. by destruct (m (jsm_of c)). Qed.

(** Commands that name a client run under the identifier of the proxy and the client. *)
Lemma newClientUri_ok p i : Validate (NewClientURI p i) = None -> newClientUri p i = inl (NewClientURI p i).
Proof. unfold newClientUri. by intros ->. Qed.

Lemma remote_Put n pri d ttr sz b t c :
  leads c -> in_i32 ttr -> in_i32 sz ->
  px_Put direct n pri d ttr sz b t c = answer wrap_u64 (jPut (now_of c) pri d ttr sz b t) c.
Proof.
  intros Hl Ht Hs. unfold px_Put. rewrite (answer_bind wrap_i64 wrap_u64 (jPut (now_of c) pri d ttr sz b t)).
  - unfold answer. destruct (jPut _ _ _ _ _ _ _ _); [|done..]. simpl. by rewrite wrap_u64_wrap_i64.
  - apply (invoke_solo _ _ (fun i => BPut (wrap_i64 i))); [done| |done]. cbn [Apply]. unfold ApplyPut. simpl.
    by rewrite !wrap_i32_id.
Qed.

Ltac named Hv :=
  unfold gets, bind at 1; apply (invoke_solo _ _ (fun _ => BEmpty)); [done| |by intros []];
  cbn [Apply]; unfold ApplyBury, ApplyDelete, ApplyRelease, ApplyTouch; simpl; rewrite newClientUri_ok by done;
  rewrite wrap_u64_wrap_i64; done.

Abbreviation same := (fun x => x).

(** Commands of a client. *)
Section named.
Context (c : Client (R:=node (solo J))) (cid : ClientID).
Hypothesis Hl : leads c.
Hypothesis Hv : Validate (NewClientURI (px_ProxyID c) cid) = None.
Definition name_of : ClientID := ToClientID (NewClientURI (px_ProxyID c) cid).

Lemma remote_Delete jid : px_Delete direct jid cid c = answer same (jDelete (wrap_u64 jid) name_of) c.
Proof. unfold px_Delete. named Hv. Qed.
Lemma remote_Bury n jid pri : px_Bury direct n jid pri cid c = answer same (jBury (now_of c) (wrap_u64 jid) pri name_of) c.
Proof. unfold px_Bury. named Hv. Qed.
Lemma remote_ReleaseWith n jid pri d :
  px_ReleaseWith direct n jid cid pri d c = answer same (jReleaseWith (now_of c) (wrap_u64 jid) name_of pri d) c.
Proof. unfold px_ReleaseWith. named Hv. Qed.
Lemma remote_Touch n jid : px_Touch direct n jid cid c = answer same (jTouch (now_of c) (wrap_u64 jid) name_of) c.
Proof. unfold px_Touch. named Hv. Qed.

(** A reservation comes back under the client's own name; a queued client waits. *)
Definition relabel (r : Reservation) : Reservation :=
  mkReservation (r_RequestId r) cid (wrap_u64 (r_JobId r)) (r_Status r) (wrap_i32 (r_BodySize r)) (r_Body r)
    (Some (ErrOther (match r_Error r with Some e => Error e | None => "" end))).

Lemma remote_Append rid w n dl r s :
  jAppendReservation name_of rid w (now_of c) (wrap_i64 (now_of c + wrap_i32 (wrap_i64 (dl - n)))) (jsm_of c) = OK r s ->
  r_ClientId r = name_of ->
  px_AppendReservation direct cid rid w n dl c =
  match r_Status r with
  | Queued => if decide (cid ∈ px_waiting c) then ERR ErrEntryExists (moved s c)
              else OK (relabel r) (set_waiting ({[ cid ]} ∪ px_waiting c) (moved s c))
  | _ => OK (relabel r) (moved s c)
  end.
Proof.
  intros Ha Hn. unfold px_AppendReservation, gets, bind at 1.
  assert (invoke direct (srv_Reserve (mkReserveRequest cid rid (wrap_i32 (wrap_i64 (dl - n))) w (px_ProxyID c))) c =
    OK (mkV1Reservation (r_RequestId r) cid (px_ProxyID c) (r_Status r) (wrap_i64 (r_JobId r)) (wrap_i32 (r_BodySize r))
          (r_Body r) (r_Error r)) (moved s c)) as Hinv.
  { unfold invoke, direct, srv_Reserve. unfold jsm_of, now_of, moved, name_of in *. rewrite performApply_solo by done. cbn [Apply]. unfold newApplyResp, ApplyReserve. simpl.
    rewrite newClientUri_ok by done. unfold bind, of_uri, jsm, ret. rewrite Ha. unfold toV1Reservation.
    rewrite Hn, (ParseClientURI_ToClientID _ Hv). done. }
  rewrite (bind_OK _ _ _ _ _ Hinv). unfold of_V1, relabel, waiting_Add, waiting_Contains, gets, bind, modify, ret.
  simpl. rewrite wrap_u64_wrap_i64. destruct (r_Status r); try done. by case_bool_decide; case_decide.
Qed.
End named.

(** Commands that name no client. *)
Lemma remote_Kick jid c : leads c -> px_Kick direct jid c = answer same (jKick (wrap_u64 jid)) c.
Proof.
  intros Hl. apply (invoke_solo _ _ (fun _ => BEmpty)); [done| |by intros []]. cbn [Apply]. unfold ApplyKick.
  by rewrite wrap_u64_wrap_i64.
Qed.
Lemma remote_KickN t n c : leads c -> in_i32 n -> px_KickN direct t n c = answer wrap_i32 (jKickN t n) c.
Proof.
  intros Hl Hn. apply (invoke_solo _ _ (fun n => BKickN (wrap_i32 n))); [done| |done]. cbn [Apply]. unfold ApplyKickN.
  by rewrite wrap_i32_id.
Qed.
Lemma remote_GetTubes c : leads c -> px_GetTubes direct c = answer same jGetTubes c.
Proof. intros Hl. by apply (invoke_solo _ _ BListTubes). Qed.

Definition sent_job (j : Job) : Job := NewJobFromJobProto (JobToJobProto j).
Lemma remote_job op (m : M error J Job) c :
  leads c -> Apply (now_of c) op = newApplyResp (j <- jsm m ;; ret (BJob (JobToJobProto j))) ->
  (jp <- invoke direct (performApply op as_Job) ;; ret (NewJobFromJobProto jp)) c = answer sent_job m c.
Proof.
  intros Hl Ha. rewrite (answer_bind JobToJobProto NewJobFromJobProto m); [done|].
  by apply (invoke_solo _ _ (fun j => BJob (JobToJobProto j))).
Qed.
Lemma remote_GetJob jid c : leads c -> px_GetJob direct jid c = answer sent_job (jGetJob (wrap_u64 jid)) c.
Proof. intros Hl. apply remote_job; [done|]. cbn [Apply]. unfold ApplyGetJob. by rewrite wrap_u64_wrap_i64. Qed.
Lemma remote_peeks t c : leads c ->
  px_PeekReadyJob direct t c = answer sent_job (jPeekReadyJob t) c /\
  px_PeekDelayedJob direct t c = answer sent_job (jPeekDelayedJob t) c /\
  px_PeekBuriedJob direct t c = answer sent_job (jPeekBuriedJob t) c.
Proof. intros Hl. split_and!; by apply remote_job. Qed.

Lemma remote_stats jid t n c : leads c ->
  px_GetStatsJobAsYaml direct n jid c = answer same (jGetStatsJobAsYaml (now_of c) (wrap_u64 jid)) c /\
  px_GetStatsTubeAsYaml direct n t c = answer same (jGetStatsTubeAsYaml (now_of c) t) c /\
  px_GetStatsAsYaml direct n c = answer same (jGetStatsAsYaml (now_of c)) c.
Proof.
  intros Hl. split_and!; apply (invoke_solo _ _ BStatsYaml); try done. cbn [Apply]. unfold ApplyStatsJobYaml.
  by rewrite wrap_u64_wrap_i64.
Qed.
End exact.
