(* ===== verification/ClusterCmd.v ===== *)
(** Starting and stopping a cluster node: [src/cluster/cmd/cmd_cluster.go] and the client of
    the cluster service, [src/cluster/client/cluster_client.go].

    A node that starts bootstraps a new cluster, when it is the designated node and no peer
    answers, or asks its peers in turn to let it join; a node that stops asks them to let
    it leave.  The gRPC library is a parameter, the class [Peers]: dialling an address and
    calling the cluster service there. *)
From stdpp Require Import base gmap list strings.
From Stdlib Require Import ZArith Lia Ascii.
From S2P Require Import Prelude Job ClientURI Store Raft.
Local Open Scope Z_scope.

(** * gRPC *)

(** An error of a call: a status, whose message may be the text of an error of the store,
    or an error that is no status. *)
Inductive status_text : Type := TStore (e : store_error) | TText (msg : string).
Inductive rpc_error : Type := EStatus (code : ResultCode) (msg : status_text) | EOther (msg : string).

Class Peers (W : Type) : Type := {
  grpc_Dial : list string -> M string W unit;
  rpc_Join : list string -> string -> string -> M rpc_error W unit;
  rpc_Leave : list string -> string -> M rpc_error W unit;
  rpc_IsNodeLeader : list string -> M rpc_error W bool;
  sleep : M rpc_error W unit
}.

(** * Configuration *)
Record ClusterNodeConfig : Type := mkClusterNodeConfig {
  NodeId : string;
  NodeListenAddr : string;
  RootDir : string;
  NodePeerAddrs : string;
  BootstrapNodeId : string;
  PeerTimeoutSecs : Z;
  MaxClusterJoinAttempts : Z;
  ClusterJoinRetryIntervalSecs : Z;
  RaftListenAddr : string;
  RaftAdvertizedAddr : string;
  RaftTimeoutSecs : Z;
  MaxPoolSize : Z;
  NoDiskLog : bool;
  NoFsync : bool;
  RestoreTimeoutSecs : Z;
  RetainSnapshotCount : Z;
  SnapshotThreshold : Z;
  TrailingLogCount : Z;
  SnapshotIntervalSecs : Z;
  PrometheusAddr : string
}.

Definition is_comma (c : ascii) : bool := Ascii.eqb c ","%char.
(** [strings.Split(addr, ",")]; no address at all is the empty list. *)
Definition parsePeerAddrs (addr : string) : list string :=
  match split_on is_comma addr with
  | [a] => if String.eqb a "" then [] else [a]
  | peersAddrs => peersAddrs
  end.

(** * [ClusterNodeClient] *)
Record ClusterNodeClient : Type := mkClusterNodeClient { HostAddrs : list string; DispHostAddr : string }.

(** The errors of the commands. *)
Inductive cmd_error : Type :=
| CDial (msg : string) | CRpc (e : rpc_error) | CPeersEmpty | CUnableToJoin | CCantBootstrap | CStore (e : store_error).

Section commands.
Context {W : Type} `{Peers W}.
Abbreviation CM := (M cmd_error W).

(** The error of a call, wrapped by the caller. *)
Definition wrapped {E A} (f : E -> cmd_error) (m : M E W A) : CM A :=
  fun w => match m w with
           | OK a w' => OK a w'
           | ERR e w' => ERR (f e) w'
           | PANIC => PANIC
           | DIVERGE => DIVERGE
           end.

Definition NewClusterNodeClient (hostAddr : string) : CM ClusterNodeClient :=
  wrapped CDial (grpc_Dial [hostAddr]) ;; ret (mkClusterNodeClient [hostAddr] hostAddr).
Definition NewClusterNodeClientWithLB (hostAddrs : list string) : CM ClusterNodeClient :=
  wrapped CDial (grpc_Dial hostAddrs) ;; ret (mkClusterNodeClient hostAddrs (String.concat "," hostAddrs)).

Definition client_LeaveCluster (c : ClusterNodeClient) (nodeID : string) : CM unit := wrapped CRpc (rpc_Leave (HostAddrs c) nodeID).
Definition client_IsNodeLeader (c : ClusterNodeClient) : CM bool := wrapped CRpc (rpc_IsNodeLeader (HostAddrs c)).
Definition client_JoinCluster (c : ClusterNodeClient) (nodeID raftAddr : string) : CM unit :=
  wrapped CRpc (rpc_Join (HostAddrs c) nodeID raftAddr).

(** * Bootstrapping *)

(** The loop of [CanBootstrapCluster]; the client that could not be made is nil, and is
    closed. *)
Fixpoint can_bootstrap_loop (peerAddrs : list string) : CM bool :=
  match peerAddrs with
  | [] => ret true
  | addr :: peerAddrs' =>
    nodeCli <- try (NewClusterNodeClient addr) ;;
    match nodeCli with
    | inr _ => panic
    | inl nodeCli =>
      r <- try (client_IsNodeLeader nodeCli) ;;
      match r with
      | inr (CRpc (EStatus ResultCode_Unavailable _)) => can_bootstrap_loop peerAddrs'
      | inr _ => ret false
      | inl _ => ret false
      end
    end
  end.
Definition CanBootstrapCluster (c : ClusterNodeConfig) (peerAddrs : list string) : CM bool :=
  if negb (String.eqb (BootstrapNodeId c) (NodeId c)) then ret false else
  if (length peerAddrs =? 0)%nat then ret true else
  can_bootstrap_loop peerAddrs.

(** [store_bootstrap] is [Store.BootstrapCluster] of the node itself. *)
Context (store_bootstrap : list (string * string) -> M store_error W unit).
Definition BootstrapCluster (c : ClusterNodeConfig) (peerAddrs : list string) : CM unit :=
  b <- CanBootstrapCluster c peerAddrs ;;
  if negb b then raise CCantBootstrap else
  let bootstrapAddr := if (String.length (RaftAdvertizedAddr c) =? 0)%nat then RaftListenAddr c else RaftAdvertizedAddr c in
  wrapped CStore (store_bootstrap [(NodeId c, bootstrapAddr)]).

(** * Joining *)
Fixpoint dial_all (peerAddrs : list string) : CM (list ClusterNodeClient) :=
  match peerAddrs with
  | [] => ret []
  | addr :: peerAddrs' =>
    nc <- NewClusterNodeClient addr ;;
    ncs <- dial_all peerAddrs' ;;
    ret (nc :: ncs)
  end.

(** One attempt: the peers in turn.  [true]: joined, as far as the code can tell. *)
Fixpoint join_round (c : ClusterNodeConfig) (nodeClients : list ClusterNodeClient) : CM bool :=
  match nodeClients with
  | [] => ret false
  | nc :: nodeClients' =>
    r <- try (client_JoinCluster nc (NodeId c) (RaftListenAddr c)) ;;
    match r with
    | inr (CRpc (EOther m)) => raise (CRpc (EOther m))
    | inr (CRpc (EStatus ResultCode_Unavailable _)) => join_round c nodeClients'
    | inr (CRpc (EStatus ResultCode_FailedPrecondition (TStore ErrNotRaftLeader))) => join_round c nodeClients'
    | inr _ => ret true
    | inl _ => ret true
    end
  end.

(** The attempts; 0 for [nRetry] is no limit.  [fuel] bounds the attempts that are looked
    at. *)
Fixpoint join_attempts (fuel : nat) (nRetry i : Z) (c : ClusterNodeConfig) (nodeClients : list ClusterNodeClient) : CM unit :=
  if (0 <? nRetry) && (nRetry <=? i) then raise CUnableToJoin else
  match fuel with
  | O => diverge
  | S f =>
    b <- join_round c nodeClients ;;
    if (b : bool) then ret tt else
    wrapped CRpc sleep ;; join_attempts f nRetry (i + 1) c nodeClients
  end.
Definition JoinCluster (fuel : nat) (c : ClusterNodeConfig) (peerAddrs : list string) : CM unit :=
  nodeClients <- dial_all peerAddrs ;; join_attempts fuel (MaxClusterJoinAttempts c) 0 c nodeClients.

(** * Leaving *)
Definition LeaveCluster (c : ClusterNodeConfig) (peerAddrs : list string) : CM unit :=
  if (length peerAddrs =? 0)%nat then raise CPeersEmpty else
  nc <- NewClusterNodeClientWithLB peerAddrs ;; client_LeaveCluster nc (NodeId c).

(** * Starting *)

(** The part of [RunCoolbeans] between opening the store and serving. *)
Definition enter_cluster (fuel : nat) (c : ClusterNodeConfig) : CM unit :=
  let peersAddrs := parsePeerAddrs (NodePeerAddrs c) in
  r <- try (BootstrapCluster c peersAddrs) ;;
  match r with
  | inl _ => ret tt
  | inr (CStore (ErrRaft RErrCantBootstrap)) => ret tt
  | inr _ => JoinCluster fuel c peersAddrs
  end.
End commands.
