(* ===== verification/Node.v ===== *)
(** The life of a cluster node: [RunCoolbeans], [shutdown], [waitForShutdown] and
    [InitializeMetrics] of [src/cluster/cmd/cmd_cluster.go], [NewStore] and [Store.Open] of
    [src/store/store.go], and the watch of [src/cluster/server/health_server.go].

    A node makes its directory, opens its store, enters a cluster ([ClusterCmd]), serves,
    and leaves the cluster when it is told to stop or when serving fails.  Files, sockets
    and the raft and metrics libraries are the class [Platform]: calls that succeed or
    fail. *)
From stdpp Require Import base gmap list strings.
From Stdlib Require Import ZArith Lia.
From S2P Require Import Prelude Job ClientURI Store Raft ClusterCmd.
Local Open Scope Z_scope.

(** * Configuration *)

(** [time.Duration(n) * time.Second] *)
Definition seconds (n : Z) : Z := wrap_i64 (n * 1000000000).

(** [store.Config] *)
Record Config : Type := mkConfig {
  RetainSnasphotCount : Z; MaxPool : Z; cfg_SnapshotThreshold : Z; TrailingLogs : Z; SnapshotInterval : Z;
  RaftTimeout : Z; RestoreTimeout : Z; cfg_RootDir : string; RaftBindAddr : string; Inmem : bool; LogNoSync : bool;
  LocalNodeID : string
}.
Definition store_config (c : ClusterNodeConfig) : Config :=
  mkConfig (RetainSnapshotCount c) (MaxPoolSize c) (wrap_u64 (SnapshotThreshold c)) (wrap_u64 (TrailingLogCount c))
    (seconds (SnapshotIntervalSecs c)) (seconds (RaftTimeoutSecs c)) (seconds (RestoreTimeoutSecs c)) (RootDir c)
    (RaftListenAddr c) (NoDiskLog c) (NoFsync c) (NodeId c).

(** The fields of [raft.Config] that are set, and the two kinds of log. *)
Record RaftConfig : Type := mkRaftConfig { rc_LocalID : string; rc_SnapshotThreshold : Z; rc_TrailingLogs : Z; rc_SnapshotInterval : Z }.
Inductive LogStore : Type := InmemStore | BoltStore (dbfile : string) (noSync : bool).

(** * The platform *)
Class Platform (W : Type) : Type := {
  os_MkdirAll : string -> M string W unit;
  filepath_Join : string -> string -> string;
  prometheus_NewPrometheusSink : M string W unit;
  metrics_NewGlobal : M string W unit;
  (** [http.ListenAndServe], on a goroutine of its own *)
  http_Start : string -> W -> W;
  net_ResolveTCPAddr : string -> M string W unit;
  raft_NewTCPTransport : string -> Z -> Z -> M string W unit;
  raft_NewFileSnapshotStore : string -> Z -> M string W unit;
  raftboltdb_New : string -> bool -> M string W unit;
  raft_NewRaft : RaftConfig -> LogStore -> M string W unit;
  net_Listen : string -> M string W unit;
  grpc_Stop : W -> W
}.

(** The errors of [RunCoolbeans]. *)
Inductive run_error : Type := RunIO (msg : string) | RunJoin (e : cmd_error) | RunListen (msg : string) | RunServe (msg : string).

Section node_life.
Context {W : Type} `{Peers W} `{Platform W}.
Abbreviation PM := (M string W).
Abbreviation RM := (M run_error W).

(** ** [Store] *)

(** The store, and whether its raft instance is there. *)
Record StoreHandle : Type := mkStoreHandle { s_c : Config; s_raft : bool }.
Definition NewStore (c : Config) : StoreHandle := mkStoreHandle c false.

Definition open_log (c : Config) : PM LogStore :=
  if Inmem c then ret InmemStore else
  let dbfile := filepath_Join (cfg_RootDir c) "raft.db" in
  raftboltdb_New dbfile (LogNoSync c) ;; ret (BoltStore dbfile (LogNoSync c)).
Definition Store_Open (s : StoreHandle) : PM StoreHandle :=
  let c := s_c s in
  let config := mkRaftConfig (LocalNodeID c) (cfg_SnapshotThreshold c) (TrailingLogs c) (SnapshotInterval c) in
  net_ResolveTCPAddr (RaftBindAddr c) ;;
  raft_NewTCPTransport (RaftBindAddr c) (MaxPool c) (RaftTimeout c) ;;
  raft_NewFileSnapshotStore (cfg_RootDir c) (RetainSnasphotCount c) ;;
  logStore <- open_log c ;;
  raft_NewRaft config logStore ;;
  ret (mkStoreHandle c true).

Definition InitializeMetrics (metricsAddr : string) : PM unit :=
  (if negb (String.eqb metricsAddr "") then prometheus_NewPrometheusSink else ret tt) ;;
  metrics_NewGlobal ;;
  if negb (String.eqb metricsAddr "") then modify (http_Start metricsAddr) else ret tt.

(** ** [RunCoolbeans] *)

Definition io {A} (f : string -> run_error) (m : PM A) : RM A :=
  fun w => match m w with
           | OK a w' => OK a w'
           | ERR e w' => ERR (f e) w'
           | PANIC => PANIC
           | DIVERGE => DIVERGE
           end.
Definition joining {A} (m : M cmd_error W A) : RM A :=
  fun w => match m w with
           | OK a w' => OK a w'
           | ERR e w' => ERR (RunJoin e) w'
           | PANIC => PANIC
           | DIVERGE => DIVERGE
           end.

(** The error of [LeaveCluster] is logged. *)
Definition shutdown (c : ClusterNodeConfig) : RM unit :=
  try (joining (LeaveCluster c (parsePeerAddrs (NodePeerAddrs c)))) ;; modify grpc_Stop.

(** What ends [grpcServer.Serve]: a signal, for which [waitForShutdown] waits on a goroutine
    of its own, and whose [Stop] makes [Serve] return nil; or an error. *)
Inductive serve_event : Type := Signalled | ServeFails (msg : string).
Definition serve (c : ClusterNodeConfig) (e : serve_event) : RM unit :=
  match e with
  | Signalled => shutdown c
  | ServeFails msg => shutdown c ;; raise (RunServe msg)
  end.

(** [store_bootstrap] is the bootstrapping of the store that was opened; [fuel] bounds the
    attempts to join. *)
Definition RunCoolbeans (store_bootstrap : list (string * string) -> M store_error W unit) (fuel : nat)
    (c : ClusterNodeConfig) (e : serve_event) : RM unit :=
  io RunIO (os_MkdirAll (RootDir c)) ;;
  let s := NewStore (store_config c) in
  io RunIO (InitializeMetrics (PrometheusAddr c)) ;;
  io RunIO (Store_Open s) ;;
  joining (enter_cluster store_bootstrap fuel c) ;;
  io RunListen (net_Listen (NodeListenAddr c)) ;;
  serve c e.
End node_life.

(** * The watch of the health service *)
Section watch.
Context {N : Type}.

(** What the [select] of [Watch] received: a tick, with the state of the node at that moment
    and whether [stream.Send] then succeeds, or the shutdown signal. *)
Inductive watch_event : Type := WTick (n : N) (delivered : bool) | WShutdown.

(** The statuses handed to [stream.Send], and whether [Watch] has returned. *)
Fixpoint Watch (ready : option (N -> bool)) (evs : list watch_event) : list ServingStatus * bool :=
  match evs with
  | [] => ([], false)
  | WTick n _ :: evs' => let '(sent, returned) := Watch ready evs' in (Check ready n :: sent, returned)
  | WShutdown :: _ => ([], true)
  end.
End watch.
