(* ===== verification/ClusterCmdSpec.v ===== *)
(** What starting and stopping a node does, on a gRPC library whose calls return, and on
    nodes that are reached over it. *)
From stdpp Require Import base gmap list strings.
From Stdlib Require Import ZArith Lia Ascii.
From S2P Require Import Prelude Job ClientURI Store Raft RaftSpec ClusterCmd.
Local Open Scope Z_scope.

(** * The list of peers *)
Definition no_comma (s : string) : Prop := forall_chars (fun c => negb (is_comma c)) s = true.

Lemma split_concat (l : list string) :
  Forall no_comma l -> l <> [] -> split_on is_comma (String.concat "," l) = l.
Proof.
  induction 1 as [|a l Ha Hl IH]; [done|]. intros _. destruct l as [|b l].
  - by apply split_none.
  - change (String.concat "," (a :: b :: l)) with (a ++ String ","%char (String.concat "," (b :: l)))%string.
    rewrite split_app by done. f_equal. by apply IH.
Qed.
Lemma parse_concat l : Forall no_comma l -> l <> [""%string] -> parsePeerAddrs (String.concat "," l) = l.
Proof.
  intros Hl Hne. destruct l as [|a l]; [done|]. unfold parsePeerAddrs. rewrite split_concat by done.
  destruct l; [|done]. destruct (String.eqb_spec a ""); [|done]. by subst.
Qed.

(** * Calls that return *)
Class PeersReturn (W : Type) `{Peers W} : Type := {
  dial_returns a w : returns (grpc_Dial a w);
  join_returns a i r w : returns (rpc_Join a i r w);
  sleep_returns w : returns (sleep w)
}.

Section returning.
Context {W : Type} `{PeersReturn W}.

Lemma wrapped_returns {E A} (f : E -> cmd_error) (m : M E W A) w : returns (m w) -> returns (wrapped f m w).
Proof. unfold wrapped. by destruct (m w). Qed.
Lemma bind_returns {E A B} (m : M E W A) (k : A -> M E W B) w :
  returns (m w) -> (forall a w', m w = OK a w' -> returns (k a w')) -> returns (bind m k w).
Proof. unfold bind. destruct (m w); try done. intros _ Hk. by apply Hk. Qed.
Lemma try_returns {E A} (m : M E W A) w : returns (m w) -> returns (try m w).
Proof. unfold try. by destruct (m w). Qed.

Lemma dial_all_returns peers w : returns (dial_all peers w).
Proof.
  revert w. induction peers as [|a peers IH]; intros w; [done|]. cbn [dial_all]. apply bind_returns.
  - apply bind_returns; [apply wrapped_returns, dial_returns|done].
  - intros nc w1 _. apply bind_returns; [apply IH|done].
Qed.
Lemma join_round_returns c ncs w : returns (join_round c ncs w).
Proof.
  revert w. induction ncs as [|nc ncs IH]; intros w; [done|]. cbn [join_round].
  apply bind_returns; [apply try_returns, wrapped_returns, join_returns|]. intros r w1 _.
  repeat case_match; done || apply IH.
Qed.
Lemma join_attempts_returns fuel nRetry i c ncs w :
  0 < nRetry -> nRetry - i <= Z.of_nat fuel -> returns (join_attempts fuel nRetry i c ncs w).
Proof.
  revert i w. induction fuel as [|f IH]; intros i w Hn Hf; cbn [join_attempts]; destruct (Z.leb_spec nRetry i) as [Hi|Hi];
    rewrite ?andb_true_r, ?andb_false_r, ?(proj2 (Z.ltb_lt _ _) Hn); try done; [lia|].
  apply bind_returns; [apply join_round_returns|]. intros [] w1 _; [done|].
  apply bind_returns; [apply wrapped_returns, sleep_returns|]. intros _ w2 _. apply IH; lia.
Qed.
Lemma JoinCluster_returns c peers w :
  0 < MaxClusterJoinAttempts c -> returns (JoinCluster (Z.to_nat (MaxClusterJoinAttempts c)) c peers w).
Proof.
  intros Hn. apply bind_returns; [apply dial_all_returns|]. intros ncs w1 _. apply join_attempts_returns; lia.
Qed.
End returning.

(** * Nodes that are reached *)
Section reached.
Context {N : Type} `{RaftNode N}.
Implicit Types w : gmap string N.

(** A call at the node of an address; no node there is reported as unavailable. *)
Definition on_node {A} (h : string) (m : M (ResultCode * store_error) N A) : M rpc_error (gmap string N) A :=
  fun w => match w !! h with
           | None => ERR (EStatus ResultCode_Unavailable (TText "connection refused")) w
           | Some n =>
             match m n with
             | OK a n' => OK a (<[ h := n' ]> w)
             | ERR (code, e) n' => ERR (EStatus code (TStore e)) (<[ h := n' ]> w)
             | PANIC => PANIC
             | DIVERGE => DIVERGE
             end
           end.
(** Load balancing takes a node whose health check says that it serves. *)
Definition serving w (h : string) : Prop := exists n, w !! h = Some n /\ Check (Some Ready) n = SERVING.
#[export] Instance serving_dec w h : Decision (serving w h).
Proof.
  unfold serving. destruct (w !! h) as [n|]; [|by right; intros (n & ? & _)].
  destruct (Check (Some Ready) n) eqn:E; [right|left; by exists n|right]; intros (n0 & [= <-] & ?); congruence.
Defined.
Definition balanced {A} (hs : list string) (m : M (ResultCode * store_error) N A) : M rpc_error (gmap string N) A :=
  fun w => match filter (serving w) hs with
           | [] => ERR (EStatus ResultCode_Unavailable (TText "no healthy upstream")) w
           | h :: _ => on_node h m w
           end.

#[export] Instance nodes_peers : Peers (gmap string N) := {
  grpc_Dial _ w := OK tt w;
  rpc_Join hs i a w := match hs with h :: _ => on_node h (cluster_Join i a) w | [] => ERR (EOther "no address") w end;
  rpc_Leave hs i := balanced hs (cluster_Leave i);
  rpc_IsNodeLeader hs w := match hs with h :: _ => on_node h (gets cluster_IsNodeLeader) w | [] => ERR (EOther "no address") w end;
  sleep w := OK tt w
}.

Lemma dial_nodes peers w : dial_all peers w = OK ((fun a => mkClusterNodeClient [a] a) <$> peers) w.
Proof.
  induction peers as [|a peers IH]; [done|]. cbn [dial_all]. unfold NewClusterNodeClient, wrapped, bind in *. simpl. by rewrite IH.
Qed.

(** The node bootstraps exactly when it is the designated one and no peer answers. *)
Lemma can_bootstrap_nodes peers w :
  can_bootstrap_loop peers w = OK (bool_decide (Forall (fun h => w !! h = None) peers)) w.
Proof.
  induction peers as [|a peers IH]; [by rewrite bool_decide_true by constructor|].
  assert (bool_decide (Forall (fun h => w !! h = None) (a :: peers)) =
    bool_decide (w !! a = None) && bool_decide (Forall (fun h => w !! h = None) peers)) as ->.
  { rewrite <- bool_decide_and. apply bool_decide_ext. by rewrite Forall_cons. }
  cbn [can_bootstrap_loop]. unfold client_IsNodeLeader, NewClusterNodeClient, try, wrapped, bind at 1 2 3, ret at 1. simpl.
  unfold on_node. destruct (w !! a) as [n|] eqn:E; simpl.
  - by rewrite (insert_id w a n E).
  - exact IH.
Qed.
Lemma CanBootstrap_nodes c peers w :
  CanBootstrapCluster c peers w =
    OK (bool_decide (BootstrapNodeId c = NodeId c /\ Forall (fun h => w !! h = None) peers)) w.
Proof.
  unfold CanBootstrapCluster. destruct (String.eqb_spec (BootstrapNodeId c) (NodeId c)) as [E|E]; simpl.
  - destruct peers as [|a peers]; [simpl; by rewrite bool_decide_true|]. cbn [length Nat.eqb].
    rewrite can_bootstrap_nodes. f_equal. apply bool_decide_ext. tauto.
  - by rewrite bool_decide_false by tauto.
Qed.

(** ** Joining *)

(** A peer that cannot help: nobody there, or a node that does not lead and does not know
    the one that joins. *)
Definition passes_over `{!RaftMembership N} i a w (h : string) : Prop :=
  match w !! h with
  | None => True
  | Some f => raft_State f <> Leader /\ raft_GetConfiguration f = OK (cfg f) f /\ (mkRaftServer i a ∉ cfg f)
  end.

Lemma join_round_nodes `{!RaftMembership N} c pre l post w n n' :
  Forall (passes_over (NodeId c) (RaftListenAddr c) w) pre -> w !! l = Some n ->
  Join (NodeId c) (RaftListenAddr c) n = OK tt n' ->
  join_round c ((fun a => mkClusterNodeClient [a] a) <$> pre ++ l :: post) w = OK true (<[ l := n' ]> w).
Proof.
  intros Hpre Hl Hj. induction Hpre as [|h pre Hh _ IH].
  - simpl. unfold client_JoinCluster, try, wrapped, bind. simpl. unfold on_node, cluster_Join, reply_status. by rewrite Hl, Hj.
  - rewrite <- app_comm_cons, fmap_cons. cbn [join_round]. unfold client_JoinCluster, try, wrapped, bind at 1. simpl.
    unfold on_node. unfold passes_over in Hh. destruct (w !! h) as [f|] eqn:Ef; simpl; [|exact IH].
    destruct Hh as (H1 & H2 & H3). unfold cluster_Join, reply_status. rewrite (Join_follower _ _ f (cfg f) H1 H2 H3).
    simpl. rewrite (insert_id w h f Ef). exact IH.
Qed.
Lemma JoinCluster_nodes `{!RaftMembership N} fuel c pre l post w n n' :
  Forall (passes_over (NodeId c) (RaftListenAddr c) w) pre -> w !! l = Some n ->
  Join (NodeId c) (RaftListenAddr c) n = OK tt n' ->
  JoinCluster (S fuel) c (pre ++ l :: post) w = OK tt (<[ l := n' ]> w).
Proof.
  intros Hpre Hl Hj. unfold JoinCluster. rewrite (bind_OK _ _ _ _ _ (dial_nodes _ w)). cbn [join_attempts].
  assert ((0 <? MaxClusterJoinAttempts c) && (MaxClusterJoinAttempts c <=? 0) = false) as -> by lia.
  by rewrite (bind_OK _ _ _ _ _ (join_round_nodes c pre l post w n n' Hpre Hl Hj)).
Qed.

(** Nobody there: the attempts end at the limit, and never without one. *)
Lemma join_round_nobody c peers w :
  Forall (fun h => w !! h = None) peers ->
  join_round c ((fun a => mkClusterNodeClient [a] a) <$> peers) w = OK false w.
Proof.
  induction 1 as [|h peers Hh _ IH]; [done|]. rewrite fmap_cons. cbn [join_round].
  unfold client_JoinCluster, try, wrapped, bind at 1. simpl. unfold on_node. by rewrite Hh.
Qed.
Lemma join_nobody fuel nRetry i c peers w :
  Forall (fun h => w !! h = None) peers -> 0 <= i ->
  join_attempts fuel nRetry i c ((fun a => mkClusterNodeClient [a] a) <$> peers) w =
    if bool_decide (0 < nRetry /\ nRetry - i <= Z.of_nat fuel) then ERR CUnableToJoin w else DIVERGE.
Proof.
  intros Hp. revert i. induction fuel as [|f IH]; intros i Hi; cbn [join_attempts];
    destruct ((0 <? nRetry) && (nRetry <=? i)) eqn:E; [by rewrite bool_decide_true by lia|by rewrite bool_decide_false by lia
    |by rewrite bool_decide_true by lia|].
  rewrite (bind_OK _ _ _ _ _ (join_round_nobody c peers w Hp)). unfold bind at 1. simpl. rewrite IH by lia.
  by rewrite (bool_decide_ext (0 < nRetry /\ nRetry - (i + 1) <= Z.of_nat f) (0 < nRetry /\ nRetry - i <= Z.of_nat (S f))) by lia.
Qed.

(** ** Leaving *)
Lemma LeaveCluster_nodes c peers w l hs n :
  filter (serving w) peers = l :: hs -> w !! l = Some n ->
  LeaveCluster c peers w = wrapped CRpc (on_node l (cluster_Leave (NodeId c))) w.
Proof.
  intros Hf Hl. unfold LeaveCluster. destruct peers as [|p peers]; [done|]. cbn [length Nat.eqb].
  unfold NewClusterNodeClientWithLB, client_LeaveCluster, wrapped, bind at 1 2. simpl. unfold balanced. by rewrite Hf.
Qed.
End reached.
