(* ===== verification/NodeSpec.v ===== *)
(** What the life of a node does to its cluster, on a platform whose calls fail as an oracle
    says. *)
From stdpp Require Import base gmap list strings.
From Stdlib Require Import ZArith Lia.
From S2P Require Import Prelude Job ClientURI Store Raft RaftSpec ClusterCmd ClusterCmdSpec Node.
Local Open Scope Z_scope.

(** * Conversions of the configuration *)
Lemma seconds_exact n : seconds n = n * 1000000000 <-> - 9223372036 <= n <= 9223372036.
Proof.
  unfold seconds. split.
  - intros E. pose proof (wrap_i64_range (n * 1000000000)) as Hr. rewrite E in Hr. unfold in_i64 in Hr. lia.
  - intros Hn. apply wrap_i64_id. unfold in_i64. lia.
Qed.
Lemma count_exact n : wrap_u64 n = n <-> in_u64 n.
Proof. split; [|apply wrap_u64_id]. intros <-. apply wrap_u64_range. Qed.

(** * The platform *)

(** The calls that can fail before the node serves. *)
Inductive stage : Type := SMkdir | SSink | SGlobal | SResolve | STransport | SSnapshots | SBolt | SRaft | SListen.

Section platform.
Context {N : Type} (fails : stage -> option string).
Definition attempted (st : stage) : M string (gmap string N) unit :=
  fun w => match fails st with Some msg => ERR msg w | None => OK tt w end.
Definition oracle_platform : Platform (gmap string N) := {|
  os_MkdirAll _ := attempted SMkdir;
  filepath_Join a b := (a +:+ "/" +:+ b)%string;
  prometheus_NewPrometheusSink := attempted SSink;
  metrics_NewGlobal := attempted SGlobal;
  http_Start _ w := w;
  net_ResolveTCPAddr _ := attempted SResolve;
  raft_NewTCPTransport _ _ _ := attempted STransport;
  raft_NewFileSnapshotStore _ _ := attempted SSnapshots;
  raftboltdb_New _ _ := attempted SBolt;
  raft_NewRaft _ _ := attempted SRaft;
  net_Listen _ := attempted SListen;
  grpc_Stop w := w
|}.

(** The calls that a configuration leads to, in order, and the first that fails. *)
Definition stages (c : ClusterNodeConfig) : list stage :=
  SMkdir :: (if String.eqb (PrometheusAddr c) "" then [] else [SSink]) ++ [SGlobal; SResolve; STransport; SSnapshots] ++
  (if NoDiskLog c then [] else [SBolt]) ++ [SRaft].
Definition first_failure (sts : list stage) : option string := head (omap fails sts).
End platform.

Section life.
Context {N : Type} `{RaftNode N} (fails : stage -> option string).
Local Existing Instance oracle_platform.
Abbreviation platform := (oracle_platform (N:=N) fails).
Implicit Types w : gmap string N.

Lemma run_stage (f : string -> run_error) st (k : unit -> M run_error (gmap string N) unit) w :
  bind (io f (attempted fails st)) k w = match fails st with Some msg => ERR (f msg) w | None => k tt w end.
Proof. unfold bind, io, attempted. by destruct (fails st). Qed.

(** The calls before the node enters the cluster. *)
Lemma prepare_spec boot fuel c e w :
  RunCoolbeans (H0:=platform) boot fuel c e w =
  match first_failure fails (stages c) with
  | Some msg => ERR (RunIO msg) w
  | None => bind (joining (enter_cluster boot fuel c)) (fun _ => io RunListen (attempted fails SListen) ;; serve (H0:=platform) c e) w
  end.
Proof.
  unfold RunCoolbeans, first_failure, stages, InitializeMetrics, Store_Open, open_log, store_config, io, bind. simpl. unfold attempted.
  destruct (fails SMkdir); [done|]. destruct (String.eqb (PrometheusAddr c) ""); simpl;
    [|destruct (fails SSink); [done|]]; (destruct (fails SGlobal); [done|]); (destruct (fails SResolve); [done|]);
    (destruct (fails STransport); [done|]); (destruct (fails SSnapshots); [done|]);
    (destruct (NoDiskLog c); simpl; [|destruct (fails SBolt); [done|]]); by destruct (fails SRaft).
Qed.

(** Stopping: the node asks the first peer that leads. *)
Lemma shutdown_spec c w pre l post n n' :
  parsePeerAddrs (NodePeerAddrs c) = pre ++ l :: post -> Forall (fun h => ~ serving w h) pre ->
  w !! l = Some n -> IsLeader n = true -> Leave (NodeId c) n = OK tt n' ->
  shutdown (H0:=platform) c w = OK tt (<[ l := n' ]> w).
Proof.
  intros Hp Hpre Hl Hn Hlv. unfold shutdown, try, joining, bind. rewrite Hp.
  assert (serving w l) as Hs by (exists n; split; [done|]; unfold Check, Ready; by rewrite Hn).
  assert (filter (serving w) (pre ++ l :: post) = l :: filter (serving w) post) as Hf.
  { rewrite filter_app, filter_cons, decide_True by done.
    assert (filter (serving w) pre = []) as ->; [|done]. apply elem_of_nil_inv. intros h [Hh Hin]%list_elem_of_filter.
    rewrite Forall_forall in Hpre. by apply (Hpre h). }
  rewrite (LeaveCluster_nodes c _ w l _ n Hf Hl). unfold wrapped, on_node, cluster_Leave, reply_status. by rewrite Hl, Hlv.
Qed.
End life.

(** * The watch *)

Lemma Watch_never_returns {N : Type} (ready : option (N -> bool)) (ticks : list (N * bool)) :
  Watch ready ((fun t => WTick t.1 t.2) <$> ticks) = ((fun t => Check ready t.1) <$> ticks, false).
Proof. induction ticks as [|[n d] ticks IH]; [done|]. cbn. cbn in IH. by rewrite IH. Qed.
