(* ===== verification/Process.v ===== *)
(** The processes: [src/main.go], the commands of [src/cluster/cmd] and
    [src/beanstalkd/cmd], [src/tools/opts.go], and the start and stop of the server in
    [src/beanstalkd/proto/tcp_server.go].

    Option parsing is the library docopt, a parameter.  A process that ends by
    [log.Fatalf], [os.Exit] or a panic of [log.Panicf] ends with a code; the code is the
    error of the monad. *)
From stdpp Require Import base gmap list strings relations.
From Stdlib Require Import ZArith Lia.
From S2P Require Import Prelude Job CmdData ClientURI Processor Store Raft ClusterCmd Node.
Local Open Scope Z_scope.

(** * Options *)

(** The usage texts that options are parsed by. *)
Inductive usage : Type := UMain | UClusterNode | UBeanstalkd | UClusterClient.

(** [core.Config] *)
Record BeanstalkdConfig : Type := mkBeanstalkdConfig {
  ListenAddr : string; ListenPort : Z; UpstreamAddrs : string; ConnectTimeout : Z; MaxJobSize : Z; MaxReservationTimeout : Z
}.

Class Docopt (O : Type) : Type := {
  ParseArgs : usage -> list string -> O + string;
  opts_Bool : O -> string -> bool + string;
  opts_String : O -> string -> string + string;
  opts_Int : O -> string -> Z + string;
  (** [args["<command>"]] and [args["<args>"]] *)
  opts_command : O -> string * list string;
  Bind_node : O -> ClusterNodeConfig + string;
  Bind_beanstalkd : O -> BeanstalkdConfig + string
}.

(** The levels of the log. *)
Inductive level : Type := InfoLevel | DebugLevel | WarnLevel.
Class Console (W : Type) : Type := { fmt_Printf : string -> W -> W; log_SetLevel : level -> W -> W }.

Section commands.
Context {O : Type} `{Docopt O} {W : Type} `{Peers W} `{Platform W} `{Console W}.
(** The error is the code that the process exits with. *)
Abbreviation XM := (M Z W).
Definition Fatalf {A} : XM A := raise 1.
Definition fatal_on {A} (r : A + string) : XM A := match r with inl a => ret a | inr _ => Fatalf end.

(** ** [tools] *)
Definition OptsBool (opts : O) (key : string) : XM bool := fatal_on (opts_Bool opts key).
Definition OptsStr (opts : O) (key : string) : XM string := fatal_on (opts_String opts key).
Definition OptsInt (opts : O) (key : string) : XM Z := fatal_on (opts_Int opts key).
Definition OptsSeconds (opts : O) (key : string) : XM Z := v <- OptsInt opts key ;; ret (seconds v).

(** ** The cluster client *)
Definition fatal_call {A} (m : M cmd_error W A) : XM A :=
  fun w => match m w with
           | OK a w' => OK a w'
           | ERR _ w' => ERR 1 w'
           | PANIC => PANIC
           | DIVERGE => DIVERGE
           end.
Definition bool_String (b : bool) : string := if b then "true" else "false".
Definition cmdLeader (nodeAddr : string) (timeout : Z) : XM unit :=
  c <- fatal_call (NewClusterNodeClient nodeAddr) ;;
  b <- fatal_call (client_IsNodeLeader c) ;;
  modify (fmt_Printf ("isNodeLeader: " +:+ bool_String b +:+ String (Ascii.ascii_of_nat 10) "")%string) ;;
  if negb b then raise 1 else ret tt.
Definition CmdClusterClient (argv : list string) : XM unit :=
  opts <- fatal_on (ParseArgs UClusterClient (drop 1 argv)) ;;
  ldr <- OptsBool opts "is_leader" ;;
  if (ldr : bool) then
    addr <- OptsStr opts "--node-addr" ;;
    timeout <- OptsSeconds opts "--timeout" ;;
    cmdLeader addr timeout
  else ret tt.

(** ** The cluster node; [event] is what ends its serving. *)
Context (store_bootstrap : list (string * string) -> M store_error W unit) (fuel : nat) (event : serve_event).
Definition CmdClusterNode (argv : list string) : XM unit :=
  opts <- fatal_on (ParseArgs UClusterNode (drop 1 argv)) ;;
  cfg <- fatal_on (Bind_node opts) ;;
  fun w => match RunCoolbeans store_bootstrap fuel cfg event w with
           | OK a w' => OK a w'
           | ERR _ w' => ERR 1 w'
           | PANIC => PANIC
           | DIVERGE => DIVERGE
           end.

(** ** [beanstalkd]; [run] is [RunBeanstalkd], which never returns an error. *)
Context (run : BeanstalkdConfig -> XM unit).
Definition CmdBeanstalkd (argv : list string) : XM unit :=
  opts <- fatal_on (ParseArgs UBeanstalkd (drop 1 argv)) ;;
  bsConfig <- fatal_on (Bind_beanstalkd opts) ;;
  run bsConfig.

(** ** [main] *)
Definition RunCommand (c : string) (args : list string) : XM unit :=
  let argv := c :: args in
  if String.eqb c "cluster-node" then CmdClusterNode argv else
  if String.eqb c "beanstalkd" then CmdBeanstalkd argv else
  if String.eqb c "cluster-client" then CmdClusterClient argv else
  Fatalf.
Definition main (os_Args : list string) : XM unit :=
  args <- fatal_on (ParseArgs UMain os_Args) ;;
  let '(cmd, cmdArgs) := opts_command args in
  verbose <- OptsBool args "--verbose" ;;
  quiet <- OptsBool args "--quiet" ;;
  (if (verbose : bool) then modify (log_SetLevel DebugLevel) else
   if (quiet : bool) then modify (log_SetLevel WarnLevel) else ret tt) ;;
  RunCommand cmd cmdArgs.
End commands.

(** * The server of [beanstalkd] *)

(** [NewJSM]: the state machine in the process, or a proxy client for the addresses. *)
Inductive jsm_choice : Type := JLocal | JProxy (addrs : list string).
Definition NewJSM (upstreamAddrs : string) : jsm_choice :=
  if (String.length upstreamAddrs =? 0)%nat then JLocal else JProxy (split_on is_comma upstreamAddrs).
(** The address of [NewTcpServer]. *)
Definition server_addr (cfg : BeanstalkdConfig) : string := (ListenAddr cfg +:+ ":" +:+ fmt_int (ListenPort cfg))%string.

(** The position of [Listen]: not started; resolving the address and opening the listener; in
    its loop; stopping; returned, with an error or not. *)
Inductive listen_at : Type := BStart | BSetup | BLoop | BStopping | BReturned (err : option string).
(** The position of the main goroutine: waiting for a signal; in [Shutdown], sending on
    [doneCh]; waiting for the group; returned. *)
Inductive main_at : Type := AWait | ASend | AGroup | AReturned.
Record process : Type := mkProcess { pr_listen : listen_at; pr_main : main_at; pr_group : Z }.

(** [RunBeanstalkd]: [runTCPServer] has started the goroutine. *)
Definition RunBeanstalkd : process := mkProcess BStart AWait 0.

Inductive pstep : process -> process -> Prop :=
| p_begin m g : pstep (mkProcess BStart m g) (mkProcess BSetup m (g + 1))
| p_setup_fails m g msg : pstep (mkProcess BSetup m g) (mkProcess (BReturned (Some msg)) m g)
| p_listening m g : pstep (mkProcess BSetup m g) (mkProcess BLoop m g)
| p_deadline_fails m g msg : pstep (mkProcess BLoop m g) (mkProcess (BReturned (Some msg)) m g)
| p_signal l g : pstep (mkProcess l AWait g) (mkProcess l ASend g)
(** [srv.doneCh <- true], received at the top of the loop *)
| p_done g : pstep (mkProcess BLoop ASend g) (mkProcess BStopping AGroup g)
(** the listener is closed, and the processor shut down *)
| p_stopped m g : pstep (mkProcess BStopping m g) (mkProcess (BReturned None) m (g - 1))
| p_wait l : pstep (mkProcess l AGroup 0) (mkProcess l AReturned 0).

(** * What they do *)
Section process_spec.
Definition failed (s : process) : Prop := exists msg, pr_listen s = BReturned (Some msg).

(** The group counts the listener, and the main goroutine is past its send only when the
    listener took it. *)
Definition process_ok (s : process) : Prop :=
  match pr_listen s, pr_main s with
  | BStart, (AWait | ASend) => pr_group s = 0
  | (BSetup | BLoop), (AWait | ASend) => pr_group s = 1
  | BStopping, AGroup => pr_group s = 1
  | BReturned None, (AGroup | AReturned) => pr_group s = 0
  | BReturned (Some _), (AWait | ASend) => pr_group s = 1
  | _, _ => False
  end.
Lemma process_ok_step s s' : pstep s s' -> process_ok s -> process_ok s'.
Proof.
  intros Hst. destruct Hst as [m g|m g msg|m g|m g msg|l g|g|m g|l]; unfold process_ok; simpl; try (destruct m); try done; try lia.
  by destruct l as [| | | |[]].
Qed.
Lemma process_ok_steps s s' : rtc pstep s s' -> process_ok s -> process_ok s'.
Proof. induction 1; eauto using process_ok_step. Qed.

(** A listener that failed takes no [done]. *)
Lemma failed_stays s s' : rtc pstep s s' -> process_ok s -> failed s -> process_ok s' /\ failed s' /\ pr_main s' <> AReturned.
Proof.
  induction 1 as [s|s s1 s2 Hst _ IH]; intros Ho Hf.
  - split_and!; [done|done|]. destruct Hf as [msg E]. unfold process_ok in Ho. rewrite E in Ho. by destruct (pr_main s).
  - apply IH; [by eapply process_ok_step|]. destruct Hf as [msg E]. unfold process_ok in Ho. destruct Hst; simpl in *; try done; by exists msg.
Qed.

(** The steps left until the process ends, after a signal. *)
Definition left_to_do (s : process) : nat :=
  (match pr_listen s with BStart => 4 | BSetup => 3 | BLoop => 2 | BStopping => 1 | BReturned _ => 0 end +
   match pr_main s with AWait => 3 | ASend => 2 | AGroup => 1 | AReturned => 0 end)%nat.
Lemma pstep_decreases s s' : pstep s s' -> (left_to_do s' < left_to_do s)%nat.
Proof. intros []; unfold left_to_do; simpl; lia. Qed.
Lemma pstep_progress s : process_ok s -> ~ failed s -> pr_main s <> AReturned -> exists s', pstep s s'.
Proof.
  intros Ho Hf Hm. destruct s as [l m g]. unfold process_ok in Ho. simpl in *.
  destruct m; [eexists; apply p_signal| | |done].
  - destruct l as [| | | |[msg|]]; try done; [eexists; apply p_begin|eexists; apply p_listening|eexists; apply p_done|].
    destruct Hf. by exists msg.
  - destruct l as [| | | |[msg|]]; try done; [eexists; apply p_stopped|]. subst. eexists. apply p_wait.
Qed.
End process_spec.
