(* ===== verification/Controller.v ===== *)
(** The streaming of reservations: [src/cluster/server/reservations_controller.go] and
    [JSMServer.StreamReserveUpdates] of [jsm_server.go].

    One goroutine runs the controller; every open stream has a goroutine of its own, with
    a channel on which the controller sends to it.  All channels are unbuffered: a send
    and a receive happen together.  The system is a step relation on the position of every
    goroutine; a channel is named after the stream that made it. *)
From stdpp Require Import base gmap list strings.
From Stdlib Require Import ZArith Lia.
From S2P Require Import Prelude Job Store.

(** * Messages *)
Inductive ProxyRespType : Type := RUnknownType | RJoin | RLeave | RReservation.
#[export] Instance ProxyRespType_eq_dec : EqDecision ProxyRespType.
Proof. solve_decision. Defined.
Inductive ctrl_error : Type := ErrProxyExists.

(** The entries of a message; a nil slice has none. *)
Record ProxyResp : Type := mkProxyResp {
  RespType : ProxyRespType; Reservations : list V1Reservation; RespErr : option ctrl_error }.

Abbreviation stream := positive.

(** * The controller *)

(** The messages of a tick: to the proxies with reservations that are connected, and an
    empty one to every other connected proxy.  [o1] and [o2] are the orders in which the
    runtime ranges over the two maps. *)
Definition with_reservations (conn : gmap string stream) (g : gmap string (list V1Reservation)) (o1 : list string)
    : list (stream * ProxyResp) :=
  omap (fun pid => match conn !! pid with
                   | None => None
                   | Some ch => Some (ch, mkProxyResp RReservation (default [] (g !! pid)) None)
                   end) o1.
Definition without_reservations (conn : gmap string stream) (responded o2 : list string) : list (stream * ProxyResp) :=
  omap (fun pid => match conn !! pid with
                   | None => None
                   | Some ch => if decide (pid ∈ responded) then None else Some (ch, mkProxyResp RReservation [] None)
                   end) o2.
Definition tick_sends (conn : gmap string stream) (g : gmap string (list V1Reservation)) (o1 o2 : list string)
    : list (stream * ProxyResp) :=
  with_reservations conn g o1 ++ without_reservations conn o1 o2.

(** The position of [Run]: in the [select], or in the branch of a tick, of a join or of a
    leave request, or after the return. *)
Inductive position : Type :=
| CSelect
| CTick (sends : list (stream * ProxyResp))
| CRefuse (ch : stream) | CRefuseClose (ch : stream) | CAccept (ch : stream)
| CLeave (pid : string) (ch : stream) | CLeaveClose (pid : string) (ch : stream) | CLeaveDelete (pid : string) (ch : stream)
| CReturned.

(** * The streams *)

(** The position of [StreamReserveUpdates]: before the join request is taken, waiting for
    its answer, in the loop over the channel, sending to the network, before the leave
    request is taken, draining the channel, returned.  A result is a status code, or
    [None] for nil. *)
Inductive spot : Type :=
| PJoin | PAwait | PRange | PSend (rs : list V1Reservation)
| PLeave (res : option ResultCode) | PDrain (res : option ResultCode) | PDone (res : option ResultCode).

Record handler : Type := mkHandler { h_pid : string; h_spot : spot }.

(** What a stream does with a message it received; [cancelled] tells whether the context
    of the call is done.  [None]: it is not receiving. *)
Definition receive (cancelled : bool) (m : ProxyResp) (p : spot) : option spot :=
  match p with
  | PAwait => match RespErr m with
              | Some ErrProxyExists => Some (PDone (Some ResultCode_InvalidArgument))
              | None => Some PRange
              end
  | PRange =>
    if cancelled then Some (PLeave (Some ResultCode_Canceled)) else
    if decide (RespType m <> RReservation) then Some (PLeave (Some ResultCode_Internal)) else
    match RespErr m with
    | Some _ => Some (PLeave (Some ResultCode_Internal))
    | None => Some (PSend (Reservations m))
    end
  | PDrain res => Some (PDrain res)
  | _ => None
  end.

(** * The system *)
Record sys : Type := mkSys {
  connProxies : gmap string stream;
  ctl : position;
  closed : gset stream;
  handlers : gmap stream handler;
  (** what was sent on the network, by proxy *)
  delivered_to : list (string * V1Reservation);
  (** a goroutine panicked *)
  panicked : bool
}.
Definition NewReservationsController : sys := mkSys ∅ CSelect ∅ ∅ [] false.

Definition goto (p : position) (s : sys) : sys :=
  mkSys (connProxies s) p (closed s) (handlers s) (delivered_to s) (panicked s).
Definition set_conn (v : gmap string stream) (s : sys) : sys :=
  mkSys v (ctl s) (closed s) (handlers s) (delivered_to s) (panicked s).
Definition close_ch (ch : stream) (s : sys) : sys :=
  mkSys (connProxies s) (ctl s) ({[ ch ]} ∪ closed s) (handlers s) (delivered_to s) (panicked s).
Definition move (ch : stream) (pid : string) (p : spot) (s : sys) : sys :=
  mkSys (connProxies s) (ctl s) (closed s) (<[ ch := mkHandler pid p ]> (handlers s)) (delivered_to s) (panicked s).
Definition deliver (pid : string) (r : V1Reservation) (s : sys) : sys :=
  mkSys (connProxies s) (ctl s) (closed s) (handlers s) (delivered_to s ++ [(pid, r)]) (panicked s).
Definition crash (s : sys) : sys :=
  mkSys (connProxies s) (ctl s) (closed s) (handlers s) (delivered_to s) true.

(** The branches of the [select]. *)
Definition on_join (pid : string) (ch : stream) (s : sys) : sys :=
  match connProxies s !! pid with
  | Some _ => goto (CRefuse ch) s
  | None => goto (CAccept ch) (set_conn (<[ pid := ch ]> (connProxies s)) s)
  end.
Definition on_leave (pid : string) (s : sys) : sys :=
  match connProxies s !! pid with
  | None => s
  | Some ch => goto (CLeave pid ch) s
  end.
Definition on_tick (g : gmap string (list V1Reservation)) (o1 o2 : list string) (s : sys) : sys :=
  match tick_sends (connProxies s) g o1 o2 with
  | [] => s
  | sends => goto (CTick sends) s
  end.

(** The next send of the controller, and its position after it. *)
Definition sending (p : position) : option (stream * ProxyResp * position) :=
  match p with
  | CTick ((ch, m) :: sends) => Some (ch, m, match sends with [] => CSelect | _ => CTick sends end)
  | CRefuse ch => Some (ch, mkProxyResp RJoin [] (Some ErrProxyExists), CRefuseClose ch)
  | CAccept ch => Some (ch, mkProxyResp RJoin [] None, CSelect)
  | CLeave pid ch => Some (ch, mkProxyResp RLeave [] None, CLeaveClose pid ch)
  | _ => None
  end.
(** The next close. *)
Definition closing (p : position) : option (stream * position) :=
  match p with
  | CRefuseClose ch => Some (ch, CSelect)
  | CLeaveClose pid ch => Some (ch, CLeaveDelete pid ch)
  | _ => None
  end.

Inductive step (s : sys) : sys -> Prop :=
(** a proxy opens a stream *)
| step_open pid ch : handlers s !! ch = None -> step s (move ch pid PJoin s)
(** [Register] *)
| step_join pid ch : ctl s = CSelect -> handlers s !! ch = Some (mkHandler pid PJoin) ->
    step s (on_join pid ch (move ch pid PAwait s))
(** [UnRegister] *)
| step_leave pid ch res : ctl s = CSelect -> handlers s !! ch = Some (mkHandler pid (PLeave res)) ->
    step s (on_leave pid (move ch pid (PDrain res) s))
(** the ticker; a [Tick] that fails changes nothing *)
| step_tick g o1 o2 : ctl s = CSelect -> o1 ≡ₚ (map_to_list g).*1 -> o2 ≡ₚ (map_to_list (connProxies s)).*1 ->
    step s (on_tick g o1 o2 s)
(** [Stop] *)
| step_stop : ctl s = CSelect -> step s (goto CReturned s)
(** the controller sends, and the stream of the channel receives *)
| step_send ch m p pid a b cancelled : sending (ctl s) = Some (ch, m, p) -> ch ∉ closed s ->
    handlers s !! ch = Some (mkHandler pid a) -> receive cancelled m a = Some b ->
    step s (goto p (move ch pid b s))
(** a send on a closed channel panics *)
| step_send_closed ch m p : sending (ctl s) = Some (ch, m, p) -> ch ∈ closed s -> step s (crash s)
(** the controller closes a channel; closing it twice panics *)
| step_close ch p : closing (ctl s) = Some (ch, p) -> ch ∉ closed s -> step s (goto p (close_ch ch s))
| step_close_closed ch p : closing (ctl s) = Some (ch, p) -> ch ∈ closed s -> step s (crash s)
| step_delete pid ch : ctl s = CLeaveDelete pid ch ->
    step s (goto CSelect (set_conn (delete pid (connProxies s)) s))
(** receiving from a closed channel: the loops end; the nil answer to a join is dereferenced *)
| step_range_end pid ch : ch ∈ closed s -> handlers s !! ch = Some (mkHandler pid PRange) ->
    step s (move ch pid (PLeave None) s)
| step_drain_end pid ch res : ch ∈ closed s -> handlers s !! ch = Some (mkHandler pid (PDrain res)) ->
    step s (move ch pid (PDone res) s)
| step_await_closed pid ch : ch ∈ closed s -> handlers s !! ch = Some (mkHandler pid PAwait) -> step s (crash s)
(** [stream.Send] succeeds or fails *)
| step_stream_send pid ch r rs : handlers s !! ch = Some (mkHandler pid (PSend (r :: rs))) ->
    step s (deliver pid r (move ch pid (PSend rs) s))
| step_stream_fail pid ch r rs code : handlers s !! ch = Some (mkHandler pid (PSend (r :: rs))) ->
    step s (move ch pid (PLeave (Some code)) s)
| step_stream_sent pid ch : handlers s !! ch = Some (mkHandler pid (PSend [])) -> step s (move ch pid PRange s).

Abbreviation steps := (rtc step).
Abbreviation reachable_sys := (steps NewReservationsController).
