(* ===== verification/ControllerSpec.v ===== *)
(** The streaming of reservations keeps its channels in order: no goroutine panics, at
    most one stream serves a proxy, and every tick reaches every connected proxy once. *)
From stdpp Require Import base gmap list strings relations.
From Stdlib Require Import ZArith Lia.
From S2P Require Import Prelude Job Store Controller.

(** * The invariant *)

(** The stream is registered: the controller sends to it. *)
Definition registered (p : spot) : Prop :=
  match p with PRange | PSend _ | PLeave _ => True | _ => False end.

Definition connected (s : sys) (ch : stream) : Prop := exists pid, connProxies s !! pid = Some ch.

(** What holds of a stream, by its position. *)
Definition handler_ok (s : sys) (ch : stream) (h : handler) : Prop :=
  let pid := h_pid h in
  match h_spot h with
  | PJoin => (ch ∉ closed s) /\ ~ connected s ch
  | PAwait => (ch ∉ closed s) /\
      (ctl s = CRefuse ch /\ ~ connected s ch \/ ctl s = CAccept ch /\ connProxies s !! pid = Some ch)
  | PRange | PSend _ | PLeave _ => (ch ∉ closed s) /\ connProxies s !! pid = Some ch
  | PDrain _ => (ch ∉ closed s) /\ connProxies s !! pid = Some ch /\ (ctl s = CLeave pid ch \/ ctl s = CLeaveClose pid ch) \/
      ch ∈ closed s /\ (ctl s = CLeaveDelete pid ch /\ connProxies s !! pid = Some ch \/ ~ connected s ch)
  | PDone _ => (ch ∈ closed s \/ ctl s = CRefuseClose ch) /\
      (ctl s = CLeaveDelete pid ch /\ connProxies s !! pid = Some ch \/ ~ connected s ch)
  end.

(** What holds of the controller. *)
Definition control_ok (s : sys) : Prop :=
  match ctl s with
  | CSelect | CReturned => True
  | CTick sends => sends <> [] /\ Forall (fun x => RespType x.2 = RReservation /\ RespErr x.2 = None /\ exists pid p,
      connProxies s !! pid = Some x.1 /\ handlers s !! x.1 = Some (mkHandler pid p) /\ registered p) sends
  | CRefuse ch => exists pid, handlers s !! ch = Some (mkHandler pid PAwait)
  | CAccept ch => exists pid, handlers s !! ch = Some (mkHandler pid PAwait)
  | CRefuseClose ch => (ch ∉ closed s) /\ exists pid res, handlers s !! ch = Some (mkHandler pid (PDone res))
  | CLeave pid ch | CLeaveClose pid ch => exists res, handlers s !! ch = Some (mkHandler pid (PDrain res)) /\ (ch ∉ closed s)
  | CLeaveDelete pid ch => connProxies s !! pid = Some ch /\
      exists res, handlers s !! ch = Some (mkHandler pid (PDrain res)) \/ handlers s !! ch = Some (mkHandler pid (PDone res))
  end.

Record sys_ok (s : sys) : Prop := {
  so_handlers ch h : handlers s !! ch = Some h -> handler_ok s ch h;
  so_control : control_ok s;
  so_conn pid ch : connProxies s !! pid = Some ch -> exists p, handlers s !! ch = Some (mkHandler pid p);
  so_closed ch : ch ∈ closed s -> is_Some (handlers s !! ch);
  so_safe : panicked s = false
}.

Lemma sys_ok_new : sys_ok NewReservationsController.
Proof. split; simpl; try done; set_solver. Qed.

(** Two connected proxies have different streams. *)
Lemma conn_inj s pid pid' ch : sys_ok s -> connProxies s !! pid = Some ch -> connProxies s !! pid' = Some ch -> pid = pid'.
Proof.
  intros Hs H1 H2. destruct (so_conn _ Hs _ _ H1) as [p E1]. destruct (so_conn _ Hs _ _ H2) as [p' E2]. congruence.
Qed.

(** * Preservation *)

(** A stream moves on its own. *)
Lemma move_ok s ch pid a b :
  sys_ok s -> handlers s !! ch = Some (mkHandler pid a) -> handler_ok s ch (mkHandler pid b) ->
  control_ok (move ch pid b s) -> sys_ok (move ch pid b s).
Proof.
  intros Hs Hh Hb Hc. split; simpl.
  - intros ch' h' [[<- <-]|[_ H]]%lookup_insert_Some; [exact Hb|exact (so_handlers _ Hs _ _ H)].
  - exact Hc.
  - intros pid' ch' H. destruct (so_conn _ Hs _ _ H) as [p E]. destruct (decide (ch' = ch)) as [->|Hne].
    + rewrite Hh in E. injection E as <- <-. exists b. simpl. by rewrite lookup_insert_eq.
    + exists p. by rewrite lookup_insert_ne.
  - intros ch' H. destruct (so_closed _ Hs _ H) as [x E]. destruct (decide (ch' = ch)) as [->|Hne].
    + rewrite lookup_insert_eq. by eexists.
    + rewrite lookup_insert_ne by done. by eexists.
  - apply Hs.
Qed.

(** The controller does not mind, when the stream stays registered or was drained. *)
Lemma move_control s ch pid a b :
  control_ok s -> handlers s !! ch = Some (mkHandler pid a) ->
  (registered a -> registered b) -> a <> PAwait ->
  (forall res, a = PDone res -> b = PDone res) -> (forall res, a = PDrain res -> ch ∈ closed s /\ b = PDone res) ->
  control_ok (move ch pid b s).
Proof.
  intros Hc Hh Hr Ha Hd Hn. unfold control_ok in *. simpl.
  assert (forall ch' h, handlers s !! ch' = Some h -> ch' <> ch -> <[ ch := mkHandler pid b ]> (handlers s) !! ch' = Some h) as Hne
    by (intros; by rewrite lookup_insert_ne).
  destruct (ctl s) as [|sends|x|x|x|q x|q x|q x|]; try done.
  - destruct Hc as [Hl Hc]. split; [done|]. eapply Forall_impl; [exact Hc|]. intros [x m] (E1 & E2 & q & p & E3 & E4 & E5). simpl in *.
    split_and!; [done|done|]. exists q. destruct (decide (x = ch)) as [->|Hx]; [|exists p; by auto].
    exists b. rewrite Hh in E4. injection E4 as <- <-. rewrite lookup_insert_eq. auto.
  - destruct Hc as (q & E). exists q. apply Hne; [done|]. intros ->. congruence.
  - destruct Hc as (Hx & q & res & E). split; [done|]. exists q, res. destruct (decide (x = ch)) as [->|Hx']; [|by apply Hne].
    rewrite Hh in E. injection E as <- ->. rewrite lookup_insert_eq. by rewrite (Hd res eq_refl).
  - destruct Hc as (q & E). exists q. apply Hne; [done|]. intros ->. congruence.
  - destruct Hc as (res & E & Hx). exists res. split; [|done]. apply Hne; [done|]. intros ->. rewrite Hh in E.
    injection E as <- ->. by destruct (Hn res eq_refl).
  - destruct Hc as (res & E & Hx). exists res. split; [|done]. apply Hne; [done|]. intros ->. rewrite Hh in E.
    injection E as <- ->. by destruct (Hn res eq_refl).
  - destruct Hc as (Hx & res & E). split; [done|]. exists res. destruct (decide (x = ch)) as [->|Hx']; [|naive_solver].
    rewrite Hh in E. rewrite lookup_insert_eq. right. destruct E as [E|E]; injection E as <- ->.
    + by destruct (Hn res eq_refl) as [_ ->].
    + by rewrite (Hd res eq_refl).
Qed.

Lemma deliver_ok s pid r : sys_ok s -> sys_ok (deliver pid r s).
Proof. intros [A B C D E]. by split. Qed.

Lemma step_ok_own s ch pid a b :
  sys_ok s -> handlers s !! ch = Some (mkHandler pid a) -> registered a -> registered b -> sys_ok (move ch pid b s).
Proof.
  intros Hs Hh Ha Hb. pose proof (so_handlers _ Hs _ _ Hh) as Ho. apply (move_ok s ch pid a); [done|done| |].
  - unfold handler_ok in *. simpl in *. destruct a, b; done.
  - apply (move_control s ch pid a); [apply Hs|done|done|by intros ->|by intros ? ->|by intros ? ->].
Qed.

Lemma step_ok_drained s ch pid res :
  sys_ok s -> ch ∈ closed s -> handlers s !! ch = Some (mkHandler pid (PDrain res)) -> sys_ok (move ch pid (PDone res) s).
Proof.
  intros Hs Hcl Hh. pose proof (so_handlers _ Hs _ _ Hh) as Ho. apply (move_ok s ch pid (PDrain res)); [done|done| |].
  - unfold handler_ok in *. simpl in *. destruct Ho as [[? _]|[_ Ho]]; [done|]. split; [by left|done].
  - apply (move_control s ch pid (PDrain res)); [apply Hs|done|done|done|done|]. by intros ? [= ->].
Qed.

Lemma step_ok_open s ch pid : sys_ok s -> handlers s !! ch = None -> sys_ok (move ch pid PJoin s).
Proof.
  intros Hs Hf.
  assert (forall ch' h, handlers s !! ch' = Some h -> <[ ch := mkHandler pid PJoin ]> (handlers s) !! ch' = Some h) as Hne.
  { intros ch' h E. rewrite lookup_insert_ne; [done|]. intros ->. congruence. }
  split; simpl.
  - intros ch' h' [[<- <-]|[_ H]]%lookup_insert_Some; [|exact (so_handlers _ Hs _ _ H)]. split.
    + intros Hcl. destruct (so_closed _ Hs _ Hcl). congruence.
    + intros [q Hq]. destruct (so_conn _ Hs _ _ Hq). congruence.
  - pose proof (so_control _ Hs) as Hc. unfold control_ok in *. simpl. destruct (ctl s); try done; try naive_solver.
    destruct Hc as [Hl Hc]. split; [done|]. eapply Forall_impl; [exact Hc|]. naive_solver.
  - intros q x H. destruct (so_conn _ Hs _ _ H) as [p E]. eauto.
  - intros x H. destruct (so_closed _ Hs _ H) as [p E]. eauto.
  - apply Hs.
Qed.

(** ** The controller *)

(** The stream that the controller is dealing with. *)
Definition subject (p : position) : option stream :=
  match p with
  | CSelect | CTick _ | CReturned => None
  | CRefuse ch | CRefuseClose ch | CAccept ch | CLeave _ ch | CLeaveClose _ ch | CLeaveDelete _ ch => Some ch
  end.

(** A stream that the controller is not dealing with. *)
Definition bystander (s : sys) (ch : stream) (h : handler) : Prop :=
  match h_spot h with
  | PJoin => (ch ∉ closed s) /\ ~ connected s ch
  | PAwait => False
  | PRange | PSend _ | PLeave _ => (ch ∉ closed s) /\ connProxies s !! h_pid h = Some ch
  | PDrain _ | PDone _ => ch ∈ closed s /\ ~ connected s ch
  end.

Lemma handler_bystander s ch h :
  sys_ok s -> handlers s !! ch = Some h -> subject (ctl s) <> Some ch -> bystander s ch h.
Proof.
  intros Hs Hh Hc. pose proof (so_handlers _ Hs _ _ Hh) as Ho. unfold handler_ok in Ho. unfold bystander.
  destruct (h_spot h); try done.
  - destruct Ho as [_ [[E _]|[E _]]]; by rewrite E in Hc.
  - destruct Ho as [(_ & _ & [E|E])|(Hcl & [[E _]|Ho])]; try (by rewrite E in Hc); done.
  - destruct Ho as [[Hcl|E] [[E' _]|Ho]]; try (by rewrite E in Hc); try (by rewrite E' in Hc); done.
Qed.

Lemma bystander_handler s s' ch h :
  bystander s ch h -> (ch ∈ closed s' <-> ch ∈ closed s) ->
  (forall q, connProxies s' !! q = Some ch <-> connProxies s !! q = Some ch) -> handler_ok s' ch h.
Proof.
  intros Hb Hcl Hcn. assert (connected s' ch <-> connected s ch) as Hc by (split; intros [q Hq]; exists q; by apply Hcn).
  unfold bystander, handler_ok in *. destruct (h_spot h); rewrite ?Hcl, ?Hc, ?Hcn; try tauto.
Qed.

(** A step of the controller about one stream. *)
Lemma about_ok s s' ch pid a b :
  sys_ok s -> (forall x, subject (ctl s) = Some x -> x = ch) -> handlers s !! ch = Some (mkHandler pid a) ->
  handlers s' = <[ ch := mkHandler pid b ]> (handlers s) -> panicked s' = panicked s ->
  (forall x, x <> ch -> x ∈ closed s' <-> x ∈ closed s) ->
  (forall q x, x <> ch -> connProxies s' !! q = Some x <-> connProxies s !! q = Some x) ->
  (forall q, connProxies s' !! q = Some ch -> q = pid) ->
  handler_ok s' ch (mkHandler pid b) -> control_ok s' -> sys_ok s'.
Proof.
  intros Hs Hsub Hh Eh Ep Hcl Hcn Hown Hb Hct. split; [| | | |by rewrite Ep; apply Hs]; rewrite ?Eh.
  - intros x h [[<- <-]|[Hne H]]%lookup_insert_Some; [done|].
    apply (bystander_handler s); [|by apply Hcl|intros q; by apply Hcn].
    apply handler_bystander; [done|done|]. intros E. by apply Hsub in E.
  - done.
  - intros q x Hq. destruct (decide (x = ch)) as [->|Hne].
    + rewrite (Hown q Hq), lookup_insert_eq. by eexists.
    + rewrite lookup_insert_ne by done. apply (so_conn _ Hs). by apply Hcn.
  - intros x Hx. destruct (decide (x = ch)) as [->|Hne]; [rewrite lookup_insert_eq; by eexists|].
    rewrite lookup_insert_ne by done. apply (so_closed _ Hs). by apply Hcl.
Qed.

(** A step of the controller about no stream. *)
Lemma goto_ok s p :
  sys_ok s -> subject (ctl s) = None -> control_ok (goto p s) -> sys_ok (goto p s).
Proof.
  intros Hs Hc Hp. split; [|done|apply Hs..]. intros ch h Hh. apply (bystander_handler s); [|done|done].
  apply handler_bystander; [done|done|]. by rewrite Hc.
Qed.

(** The stream of a connected proxy knows its proxy. *)
Lemma conn_pid s q ch pid p : sys_ok s -> connProxies s !! q = Some ch -> handlers s !! ch = Some (mkHandler pid p) -> q = pid.
Proof. intros Hs Hq Hh. destruct (so_conn _ Hs _ _ Hq) as [x E]. congruence. Qed.

Lemma step_ok_join s pid ch :
  sys_ok s -> ctl s = CSelect -> handlers s !! ch = Some (mkHandler pid PJoin) ->
  sys_ok (on_join pid ch (move ch pid PAwait s)).
Proof.
  intros Hs Hc Hh. destruct (handler_bystander s ch _ Hs Hh) as [Hcl Hn]; [by rewrite Hc|]. unfold on_join. simpl.
  destruct (connProxies s !! pid) as [x|] eqn:Hp; apply (about_ok s _ ch pid PJoin PAwait); try done; simpl;
    try (by rewrite Hc).
  - intros q Hq. destruct Hn. by exists q.
  - split; [done|]. left. by split.
  - exists pid. simpl. by rewrite lookup_insert_eq.
  - intros q x Hne. rewrite lookup_insert_Some. split; [intros [[_ ?]|[_ ?]]; done|]. intros Hq. right. split; [|done].
    intros ->. congruence.
  - intros q [[<- _]|[_ Hq]]%lookup_insert_Some; [done|]. destruct Hn. by exists q.
  - split; [done|]. right. split; [done|]. simpl. by rewrite lookup_insert_eq.
  - exists pid. simpl. by rewrite lookup_insert_eq.
Qed.

Lemma step_ok_leave s pid ch res :
  sys_ok s -> ctl s = CSelect -> handlers s !! ch = Some (mkHandler pid (PLeave res)) ->
  sys_ok (on_leave pid (move ch pid (PDrain res) s)).
Proof.
  intros Hs Hc Hh. destruct (handler_bystander s ch _ Hs Hh) as [Hcl Hn]; [by rewrite Hc|]. simpl in Hn.
  unfold on_leave. simpl. rewrite Hn. apply (about_ok s _ ch pid (PLeave res) (PDrain res)); try done; simpl.
  - by rewrite Hc.
  - intros q Hq. by apply (conn_pid s q ch pid (PLeave res)).
  - left. split_and!; [done|done|by left].
  - exists res. simpl. by rewrite lookup_insert_eq.
Qed.

(** The streams a tick sends to are registered. *)
Lemma tick_sends_conn conn g o1 o2 x :
  x ∈ tick_sends conn g o1 o2 ->
  RespType x.2 = RReservation /\ RespErr x.2 = None /\ exists pid, conn !! pid = Some x.1.
Proof.
  unfold tick_sends, with_reservations, without_reservations. rewrite elem_of_app, !list_elem_of_omap.
  intros [(pid & _ & E)|(pid & _ & E)]; destruct (conn !! pid) as [ch|] eqn:Hp; try done; try case_decide; try done;
    injection E as <-; simpl; eauto.
Qed.

Lemma step_ok_tick s g o1 o2 : sys_ok s -> ctl s = CSelect -> sys_ok (on_tick g o1 o2 s).
Proof.
  intros Hs Hc. unfold on_tick. destruct (tick_sends (connProxies s) g o1 o2) as [|x l] eqn:Hl; [done|].
  apply goto_ok; [done|by rewrite Hc|]. split; [done|]. rewrite <- Hl. apply Forall_forall. intros y Hy.
  destruct (tick_sends_conn _ _ _ _ _ Hy) as (E1 & E2 & pid & Hp). split_and!; [done|done|].
  destruct (so_conn _ Hs _ _ Hp) as [p Hh]. exists pid, p. split_and!; [done|done|].
  pose proof (handler_bystander s _ _ Hs Hh) as Hb. rewrite Hc in Hb. specialize (Hb ltac:(done)). unfold bystander in Hb.
  simpl in Hb. destruct p; try done; destruct Hb as [_ []]; by exists pid.
Qed.

(** ** Sending *)
Lemma send_tick s ch m sends pid a b cancelled :
  sys_ok s -> ctl s = CTick ((ch, m) :: sends) -> handlers s !! ch = Some (mkHandler pid a) ->
  receive cancelled m a = Some b ->
  sys_ok (goto (match sends with [] => CSelect | _ => CTick sends end) (move ch pid b s)).
Proof.
  intros Hs Hc Hh Hr. pose proof (so_control _ Hs) as Hct. unfold control_ok in Hct. rewrite Hc in Hct.
  destruct Hct as [_ [(Em1 & Em2 & q & p & Hq & Hh' & Hreg) Hall]%Forall_cons]. simpl in *.
  rewrite Hh in Hh'. injection Hh' as <- <-.
  assert (registered b) as Hb.
  { destruct a; try done. simpl in Hr. destruct cancelled; [by injection Hr as <-|].
    rewrite Em2 in Hr. case_decide; by injection Hr as <-. }
  pose proof (step_ok_own s ch pid a b Hs Hh Hreg Hb) as Hm. pose proof (so_control _ Hm) as Hct'.
  unfold control_ok in Hct'. simpl in Hct'. rewrite Hc in Hct'. destruct Hct' as [_ [_ Hall']%Forall_cons].
  apply goto_ok; [done|simpl; by rewrite Hc|]. unfold control_ok. simpl. by destruct sends.
Qed.

Lemma send_answer s ch m p pid a b cancelled :
  sys_ok s -> (forall l, ctl s <> CTick l) -> sending (ctl s) = Some (ch, m, p) ->
  handlers s !! ch = Some (mkHandler pid a) -> receive cancelled m a = Some b -> sys_ok (goto p (move ch pid b s)).
Proof.
  intros Hs Hnt Hsd Hh Hr. pose proof (so_control _ Hs) as Hct. pose proof (so_handlers _ Hs _ _ Hh) as Ho.
  unfold control_ok in Hct. unfold handler_ok in Ho. simpl in Ho.
  destruct (ctl s) as [|sends|x|x|x|q x|q x|q x|] eqn:Hc; try done; simpl in Hsd; simplify_eq.
  - by destruct (Hnt sends).
  - destruct Hct as (q & E). rewrite Hh in E. injection E as -> ->. simpl in Hr. injection Hr as <-.
    destruct Ho as [Hcl [[_ Hn]|[? _]]]; [|done].
    apply (about_ok s _ ch q PAwait (PDone (Some ResultCode_InvalidArgument))); try done; simpl; rewrite ?Hc; try naive_solver.
    + intros q' Hq. destruct Hn. by exists q'.
    + split; [by right|by right].
    + split; [done|]. exists q, (Some ResultCode_InvalidArgument). simpl. by rewrite lookup_insert_eq.
  - destruct Hct as (q & E). rewrite Hh in E. injection E as -> ->. simpl in Hr. injection Hr as <-.
    destruct Ho as [Hcl [[? _]|[_ Hn]]]; [done|].
    apply (about_ok s _ ch q PAwait PRange); try done; simpl; rewrite ?Hc; try naive_solver.
    intros q' Hq. by apply (conn_pid s q' ch q PAwait).
  - destruct Hct as (res & E & Hcl). rewrite Hh in E. injection E as -> ->. simpl in Hr. injection Hr as <-.
    destruct Ho as [(_ & Hn & _)|[? _]]; [|done].
    apply (about_ok s _ ch q (PDrain res) (PDrain res)); try done; simpl; rewrite ?Hc; try naive_solver.
    + intros q' Hq. by apply (conn_pid s q' ch q (PDrain res)).
    + left. split_and!; [done|done|by right].
    + exists res. simpl. by rewrite lookup_insert_eq.
Qed.

(** The channel of a send is open. *)
Lemma sending_open s ch m p : sys_ok s -> sending (ctl s) = Some (ch, m, p) -> ch ∉ closed s.
Proof.
  intros Hs Hsd. pose proof (so_control _ Hs) as Hct. unfold control_ok in Hct.
  assert (forall pid a, handlers s !! ch = Some (mkHandler pid a) -> registered a \/ a = PAwait -> ch ∉ closed s) as Hop.
  { intros pid a Hh Ha. pose proof (so_handlers _ Hs _ _ Hh) as Ho. unfold handler_ok in Ho. simpl in Ho.
    destruct a; destruct Ha; try done; by destruct Ho. }
  destruct (ctl s) as [|[|[x mx] sends]|x|x|x|q x|q x|q x|] eqn:Hc; try done; simpl in Hsd; simplify_eq.
  - destruct Hct as [_ [(_ & _ & q & p' & _ & Hh & Hreg) _]%Forall_cons]. simpl in Hh. eauto.
  - destruct Hct as (q & E). eauto.
  - destruct Hct as (q & E). eauto.
  - by destruct Hct as (res & _ & ?).
Qed.

(** ** Closing *)
Lemma step_ok_close s ch p :
  sys_ok s -> closing (ctl s) = Some (ch, p) -> sys_ok (goto p (close_ch ch s)) /\ (ch ∉ closed s).
Proof.
  intros Hs Hcl. pose proof (so_control _ Hs) as Hct. unfold control_ok in Hct.
  destruct (ctl s) as [|sends|x|x|x|q x|q x|q x|] eqn:Hc; try done; simpl in Hcl; simplify_eq.
  - destruct Hct as (Hop & q & res & Hh). split; [|done]. pose proof (so_handlers _ Hs _ _ Hh) as Ho. unfold handler_ok in Ho.
    simpl in Ho. rewrite Hc in Ho. destruct Ho as [_ [[? _]|Hn]]; [done|].
    apply (about_ok s _ ch q (PDone res) (PDone res)); try done; simpl; rewrite ?Hc; try naive_solver.
    + by rewrite insert_id.
    + set_solver.
    + intros q' Hq. destruct Hn. by exists q'.
    + split; [left; set_solver|by right].
  - destruct Hct as (res & Hh & Hop). split; [|done]. pose proof (so_handlers _ Hs _ _ Hh) as Ho. unfold handler_ok in Ho.
    simpl in Ho. rewrite Hc in Ho. destruct Ho as [(_ & Hn & _)|[? _]]; [|done].
    apply (about_ok s _ ch q (PDrain res) (PDrain res)); try done; simpl; rewrite ?Hc; try naive_solver.
    + by rewrite insert_id.
    + set_solver.
    + intros q' Hq. by apply (conn_pid s q' ch q (PDrain res)).
    + right. split; [set_solver|]. by left.
    + split; [done|]. exists res. by left.
Qed.

Lemma step_ok_delete s pid ch :
  sys_ok s -> ctl s = CLeaveDelete pid ch -> sys_ok (goto CSelect (set_conn (delete pid (connProxies s)) s)).
Proof.
  intros Hs Hc. pose proof (so_control _ Hs) as Hct. unfold control_ok in Hct. rewrite Hc in Hct.
  destruct Hct as (Hp & res & Hh).
  assert (forall q, delete pid (connProxies s) !! q = Some ch -> q = pid) as Hown.
  { intros q [_ Hq]%lookup_delete_Some. by apply (conn_inj s q pid ch). }
  assert (~ connected (goto CSelect (set_conn (delete pid (connProxies s)) s)) ch) as Hn.
  { intros [q Hq]. simpl in Hq. pose proof (Hown q Hq) as ->. by rewrite lookup_delete_eq in Hq. }
  assert (exists a, handlers s !! ch = Some (mkHandler pid a) /\ (a = PDrain res \/ a = PDone res)) as (a & Ha & Hor).
  { destruct Hh as [Hh|Hh]; eauto. }
  pose proof (so_handlers _ Hs _ _ Ha) as Ho. unfold handler_ok in Ho. rewrite Hc in Ho. simpl in Ho.
  apply (about_ok s _ ch pid a a); try done; simpl; rewrite ?Hc; try (by intros ? [= ->]).
  - by rewrite insert_id.
  - intros q x Hne. rewrite lookup_delete_Some. split; [by intros [_ ?]|]. intros Hq. split; [|done]. intros ->. congruence.
  - unfold handler_ok. simpl. destruct Hor as [->| ->].
    + right. split; [|by right]. destruct Ho as [(_ & _ & [?|?])|[? _]]; done.
    + split; [|by right]. left. destruct Ho as [[?|?] _]; done.
Qed.

(** * Reachable states *)
Lemma step_ok s s' : sys_ok s -> step s s' -> sys_ok s'.
Proof.
  intros Hs Hst. destruct Hst as [pid ch Hh|pid ch Hc Hh|pid ch res Hc Hh|g o1 o2 Hc _ _|Hc|ch m p pid a b x Hsd Hop Hh Hr
    |ch m p Hsd Hcl|ch p Hcl Hop|ch p Hcl Hcl'|pid ch Hc|pid ch Hcl Hh|pid ch res Hcl Hh|pid ch Hcl Hh|pid ch r rs Hh
    |pid ch r rs code Hh|pid ch Hh].
  - by apply step_ok_open.
  - by apply step_ok_join.
  - by apply step_ok_leave.
  - by apply step_ok_tick.
  - apply goto_ok; [done|by rewrite Hc|done].
  - destruct (ctl s) as [|[|[y my] sends]|y|y|y|q y|q y|q y|] eqn:Hc; try done;
      try (apply (send_answer s ch m p pid a b x); rewrite ?Hc; done).
    simpl in Hsd. simplify_eq. by apply (send_tick s ch m sends pid a b x).
  - by destruct (sending_open s ch m p).
  - by apply step_ok_close.
  - by destruct (step_ok_close s ch p Hs Hcl).
  - by apply (step_ok_delete s pid ch).
  - by destruct (so_handlers _ Hs _ _ Hh).
  - by apply step_ok_drained.
  - by destruct (so_handlers _ Hs _ _ Hh).
  - apply deliver_ok. by apply (step_ok_own s ch pid (PSend (r :: rs))).
  - by apply (step_ok_own s ch pid (PSend (r :: rs))).
  - by apply (step_ok_own s ch pid (PSend [])).
Qed.

Lemma steps_ok s s' : sys_ok s -> steps s s' -> sys_ok s'.
Proof. intros Hs H. induction H as [s|s1 s2 s3 Hst _ IH]; [done|]. apply IH. by eapply step_ok. Qed.

Lemma reachable_ok s : reachable_sys s -> sys_ok s.
Proof. apply steps_ok, sys_ok_new. Qed.

(** * Progress *)

(** The controller waits only for a stream that is sending to the network, or that wants
    to leave. *)
Lemma send_progress s ch m p :
  sys_ok s -> sending (ctl s) = Some (ch, m, p) ->
  exists pid a, handlers s !! ch = Some (mkHandler pid a) /\
    ((exists b, step s (goto p (move ch pid b s))) \/ (exists rs, a = PSend rs) \/ (exists res, a = PLeave res)).
Proof.
  intros Hs Hsd. pose proof (sending_open s ch m p Hs Hsd) as Hop. pose proof (so_control _ Hs) as Hct. unfold control_ok in Hct.
  assert (exists pid a, handlers s !! ch = Some (mkHandler pid a) /\
    match a with PAwait | PRange | PDrain _ | PSend _ | PLeave _ => True | _ => False end) as (pid & a & Hh & Ha).
  { destruct (ctl s) as [|[|[x mx] sends]|x|x|x|q x|q x|q x|] eqn:Hc; try done; simpl in Hsd; simplify_eq.
    - destruct Hct as [_ [(_ & _ & q & a & _ & Hh & Hr) _]%Forall_cons]. exists q, a. split; [done|]. by destruct a.
    - destruct Hct as (q & E). by exists q, PAwait.
    - destruct Hct as (q & E). by exists q, PAwait.
    - destruct Hct as (res & E & _). by exists q, (PDrain res). }
  exists pid, a. split; [done|]. destruct (receive false m a) as [b|] eqn:Hr.
  - left. exists b. by apply (step_send s ch m p pid a b false).
  - right. destruct a; try done; eauto; simpl in Hr; repeat (case_match; try done).
Qed.

(** ** A controller that waits for ever *)

(** The controller sends to a stream that asks it to leave. *)
Definition blocked (s : sys) (ch : stream) : Prop :=
  exists m p pid res, sending (ctl s) = Some (ch, m, p) /\ handlers s !! ch = Some (mkHandler pid (PLeave res)).

Lemma blocked_step s s' ch : sys_ok s -> blocked s ch -> step s s' -> ctl s' = ctl s /\ handlers s' !! ch = handlers s !! ch.
Proof.
  intros Hs (m0 & p0 & pid0 & res0 & Hsd & Hh0) Hst.
  assert (ctl s <> CSelect) as Hns by (by intros E; rewrite E in Hsd).
  assert (forall x pid a b, handlers s !! x = Some (mkHandler pid a) -> (forall r, a <> PLeave r) ->
    <[ x := mkHandler pid b ]> (handlers s) !! ch = handlers s !! ch) as Hmv.
  { intros x pid a b Hx Ha. rewrite lookup_insert_ne; [done|]. intros ->. rewrite Hh0 in Hx. injection Hx as _ <-.
    by apply (Ha res0). }
  destruct Hst as [pid x Hh|pid x Hc Hh|pid x res Hc Hh|g o1 o2 Hc _ _|Hc|x m p pid a b y Hsd' Hop Hh Hr
    |x m p Hsd' Hcl|x p Hcl Hop|x p Hcl Hcl'|pid x Hc|pid x Hcl Hh|pid x res Hcl Hh|pid x Hcl Hh|pid x r rs Hh
    |pid x r rs code Hh|pid x Hh]; try done; simpl.
  - split; [done|]. rewrite lookup_insert_ne; [done|]. intros ->. congruence.
  - rewrite Hsd in Hsd'. by simplify_eq.
  - by destruct (ctl s).
  - by rewrite Hc in Hsd.
  - split; [done|]. by apply (Hmv x pid PRange).
  - split; [done|]. by apply (Hmv x pid (PDrain res)).
  - split; [done|]. by apply (Hmv x pid (PSend (r :: rs))).
  - split; [done|]. by apply (Hmv x pid (PSend (r :: rs))).
  - split; [done|]. by apply (Hmv x pid (PSend [])).
Qed.

Lemma blocked_forever s s' ch : sys_ok s -> blocked s ch -> steps s s' -> ctl s' = ctl s /\ blocked s' ch.
Proof.
  intros Hs Hb H. revert Hs Hb. induction H as [s|s1 s2 s3 Hst _ IH]; intros Hs Hb; [done|].
  destruct (blocked_step _ _ _ Hs Hb Hst) as [E1 E2]. assert (blocked s2 ch) as Hb2.
  { destruct Hb as (m & p & pid & res & A & B). exists m, p, pid, res. by rewrite E1, E2. }
  destruct (IH (step_ok _ _ Hs Hst) Hb2) as [E3 Hb3]. split; [congruence|done].
Qed.

(** * The messages of a tick *)
Lemma filter_omap_one {A B} `{EqDecision A} (f : A -> option B) (P : B -> Prop) `{forall x, Decision (P x)} l a :
  NoDup l -> (forall x y, f x = Some y -> P y -> x = a) ->
  filter P (omap f l) = if decide (a ∈ l) then filter P (option_list (f a)) else [].
Proof.
  intros Hnd Hone. induction l as [|x l IH]; [by rewrite decide_False by apply not_elem_of_nil|].
  apply NoDup_cons in Hnd as [Hx Hnd]. specialize (IH Hnd). cbn [omap list_omap].
  destruct (decide (x = a)) as [->|Hne].
  - rewrite decide_True by left. rewrite decide_False in IH by done.
    destruct (f a) as [y|]; [|done]. change (filter P (y :: omap f l) = filter P [y]). by rewrite !filter_cons, IH.
  - assert (filter P (omap f (x :: l)) = filter P (omap f l)) as Hskip.
    { cbn [omap list_omap]. destruct (f x) as [y|] eqn:Hy; [|done]. rewrite filter_cons, decide_False; [done|].
      intros Hp. by apply Hne, (Hone x y). }
    cbn [omap list_omap] in Hskip. rewrite Hskip. fold (omap f l). rewrite IH.
    destruct (decide (a ∈ l)); [by rewrite decide_True by (by right)|]. rewrite decide_False; [done|].
    intros [?|?]%elem_of_cons; congruence.
Qed.

(** Every connected proxy gets one message, with its reservations if there are any. *)
Lemma tick_fans_out s g o1 o2 pid ch :
  sys_ok s -> o1 ≡ₚ (map_to_list g).*1 -> o2 ≡ₚ (map_to_list (connProxies s)).*1 -> connProxies s !! pid = Some ch ->
  filter (fun x => x.1 = ch) (tick_sends (connProxies s) g o1 o2) =
    [(ch, mkProxyResp RReservation (default [] (g !! pid)) None)].
Proof.
  intros Hs Ho1 Ho2 Hp.
  assert (forall {A} (m : gmap string A) l, l ≡ₚ (map_to_list m).*1 -> NoDup l /\ forall k, k ∈ l <-> is_Some (m !! k)) as Hkeys.
  { intros A m l Hl. split; [rewrite Hl; apply NoDup_fst_map_to_list|]. intros k. rewrite Hl, list_elem_of_fmap. split.
    - intros ([k' v] & -> & Hin%elem_of_map_to_list). by exists v.
    - intros [v Hv]. exists (k, v). split; [done|]. by apply elem_of_map_to_list. }
  destruct (Hkeys _ _ _ Ho1) as [Hn1 He1]. destruct (Hkeys _ _ _ Ho2) as [Hn2 He2].
  unfold tick_sends, with_reservations, without_reservations. rewrite filter_app.
  rewrite (filter_omap_one _ _ o1 pid); [|done|].
  2: { intros x y E Hy. destruct (connProxies s !! x) as [c|] eqn:Hc; [|done]. injection E as <-. simpl in Hy. subst c.
       by apply (conn_inj s x pid ch). }
  rewrite (filter_omap_one _ _ o2 pid); [|done|].
  2: { intros x y E Hy. destruct (connProxies s !! x) as [c|] eqn:Hc; [|done]. case_decide; [done|]. injection E as <-.
       simpl in Hy. subst c. by apply (conn_inj s x pid ch). }
  rewrite Hp, (decide_True (P := pid ∈ o2)) by (apply He2; by exists ch).
  assert (forall m, filter (fun x : stream * ProxyResp => x.1 = ch) (option_list (Some (ch, m))) = [(ch, m)]) as Hown.
  { intros m. change (option_list (Some (ch, m))) with [(ch, m)]. rewrite filter_cons, decide_True by done. done. }
  destruct (decide (pid ∈ o1)) as [H1|H1]; rewrite Hown.
  - done.
  - destruct (g !! pid) eqn:Hg; [|done]. destruct H1. apply He1. by eexists.
Qed.
