(* ===== verification/Delivery.v ===== *)
(** The way of a reservation: a node of the cluster with its controller
    ([src/cluster/server/reservations_controller.go]), the stream to a proxy
    ([src/cluster/server/jsm_server.go]) and the proxy client
    ([src/beanstalkd/proxy/client.go]), composed.

    The controller ticks the replicated state machine and sends every connected proxy its
    reservations; the stream sends them over the network; the goroutine of the proxy
    queues them; the tick of the proxy hands them to the processor.  The composition is
    seen from one proxy, named [p]; other proxies open streams and make calls at will. *)
From stdpp Require Import base gmap list strings relations.
From Stdlib Require Import ZArith Lia.
From S2P Require Import Prelude Job Processor Store JSMServer Proxy Controller Link.

Section delivery.
Context {R : Type} `{ReplicatedJsm R}.
Context (rpc : forall A, M Status R A -> M Status R A) (range_waiting : gset ClientID -> list ClientID).
Context (p : string).

Record cluster : Type := mkCluster {
  cl_sys : sys;
  cl_link : link R;
  (** the stream of the call that the proxy has open *)
  cl_stream : option stream;
  (** history since that stream was opened: what was queued then, what the ticks of the
      controller granted to the stream, and what the ticks of the proxy took from the queue *)
  cl_left : list Reservation;
  cl_granted : list V1Reservation;
  cl_drained : list Reservation
}.
Definition new_cluster (r : R) : cluster := mkCluster NewReservationsController (new_link (NewClient p r)) None [] [] [].

Definition cl_client (s : cluster) : Client := lk_client (cl_link s).
Definition cl_server (s : cluster) : R := px_server (cl_client s).
Definition cl_queue (s : cluster) : list Reservation := default [] (px_rq (cl_client s)).

Definition with_sys (v : sys) (s : cluster) : cluster :=
  mkCluster v (cl_link s) (cl_stream s) (cl_left s) (cl_granted s) (cl_drained s).
Definition with_link (v : link R) (s : cluster) : cluster :=
  mkCluster (cl_sys s) v (cl_stream s) (cl_left s) (cl_granted s) (cl_drained s).
Definition with_client (v : Client) (s : cluster) : cluster := with_link (set_client v (cl_link s)) s.
Definition with_server (r : R) (s : cluster) : cluster := with_client (set_server r (cl_client s)) s.

(** The ticker of the controller: what it grants to the stream of the proxy is recorded. *)
Definition on_server_tick (g : gmap string (list V1Reservation)) (o1 o2 : list string) (r : R) (s : cluster) : cluster :=
  let granted := match connProxies (cl_sys s) !! p, cl_stream s with
                 | Some ch, Some ch' => if decide (ch = ch') then default [] (g !! p) else []
                 | _, _ => []
                 end in
  with_server r (mkCluster (on_tick g o1 o2 (cl_sys s)) (cl_link s) (cl_stream s) (cl_left s)
    (cl_granted s ++ granted) (cl_drained s)).

(** The call of the proxy reaches the node: the goroutine of the stream starts there. *)
Definition on_open (ch : stream) (s : cluster) : cluster :=
  mkCluster (move ch p PJoin (cl_sys s)) (link_opened (cl_link s)) (Some ch) (cl_queue s) [] [].
(** A message of the stream reaches the proxy. *)
Definition on_send (ch : stream) (r : V1Reservation) (rs : list V1Reservation) (s : cluster) : cluster :=
  with_link (set_buf (lk_buf (cl_link s) ++ [r]) (cl_link s)) (with_sys (deliver p r (move ch p (PSend rs) (cl_sys s))) s).
(** The goroutine of the proxy: when it leaves [GetReservations] the stream is given up. *)
Definition on_link (l : link R) (s : cluster) : cluster :=
  mkCluster (cl_sys s) l (match lk_pos l with LRecv | LGot _ => cl_stream s | _ => None end)
    (cl_left s) (cl_granted s) (cl_drained s).
(** The tick of the proxy takes the queue. *)
Definition on_proxy_tick (c : Client) (s : cluster) : cluster :=
  with_client c (mkCluster (cl_sys s) (cl_link s) (cl_stream s) (cl_left s) (cl_granted s) (cl_drained s ++ cl_queue s)).

(** A step of the node other than a tick with something to send, the start of a stream of
    [p], and a message of the stream in use. *)
Definition quiet (cur : option stream) (y y' : sys) : Prop :=
  step y y' /\ (ctl y = CSelect -> forall l, ctl y' <> CTick l) /\
  (forall ch a, handlers y !! ch = None -> handlers y' !! ch <> Some (mkHandler p a)) /\
  (forall ch, cur = Some ch -> handlers y' !! ch = handlers y !! ch \/ delivered_to y' = delivered_to y).

(** The calls that the processor makes, other than [Tick]. *)
Inductive jsm_call : forall A, M error (Client (R:=R)) A -> Prop :=
| jc_Put a b c d e f g : jsm_call _ (px_Put rpc a b c d e f g)
| jc_Append a b c d e : jsm_call _ (px_AppendReservation rpc a b c d e)
| jc_Delete a b : jsm_call _ (px_Delete rpc a b)
| jc_Bury a b c d : jsm_call _ (px_Bury rpc a b c d)
| jc_Kick a : jsm_call _ (px_Kick rpc a)
| jc_KickN a b : jsm_call _ (px_KickN rpc a b)
| jc_Touch a b c : jsm_call _ (px_Touch rpc a b c)
| jc_PeekDelayed a : jsm_call _ (px_PeekDelayedJob rpc a)
| jc_PeekReady a : jsm_call _ (px_PeekReadyJob rpc a)
| jc_PeekBuried a : jsm_call _ (px_PeekBuriedJob rpc a)
| jc_GetJob a : jsm_call _ (px_GetJob rpc a)
| jc_ReleaseWith a b c d e : jsm_call _ (px_ReleaseWith rpc a b c d e)
| jc_StatsJob a b : jsm_call _ (px_GetStatsJobAsYaml rpc a b)
| jc_StatsTube a b : jsm_call _ (px_GetStatsTubeAsYaml rpc a b)
| jc_Stats a : jsm_call _ (px_GetStatsAsYaml rpc a)
| jc_GetTubes : jsm_call _ (px_GetTubes rpc)
| jc_Check a : jsm_call _ (px_CheckClientState rpc a).

(** The steps that ticks and streams make. *)
Inductive tstep (s : cluster) : cluster -> Prop :=
(** the ticker of the controller *)
| ts_tick g o1 o2 r : ctl (cl_sys s) = CSelect -> srv_Tick (cl_server s) = OK g r ->
    o1 ≡ₚ (map_to_list g).*1 -> o2 ≡ₚ (map_to_list (connProxies (cl_sys s))).*1 -> tstep s (on_server_tick g o1 o2 r s)
| ts_tick_fails e r : ctl (cl_sys s) = CSelect -> srv_Tick (cl_server s) = ERR e r -> tstep s (with_server r s)
(** the controller and the streams *)
| ts_move y : quiet (cl_stream s) (cl_sys s) y -> tstep s (with_sys y s)
| ts_send ch r rs : cl_stream s = Some ch -> handlers (cl_sys s) !! ch = Some (mkHandler p (PSend (r :: rs))) ->
    tstep s (on_send ch r rs s)
(** the goroutine of the proxy client *)
| ts_open ch : lk_pos (cl_link s) = LCall -> lk_conn (cl_link s) = ConnOpen -> lk_ctxDone (cl_link s) = false ->
    handlers (cl_sys s) !! ch = None -> tstep s (on_open ch s)
| ts_link l : gstep (cl_link s) l -> (lk_pos (cl_link s) = LCall -> lk_pos l <> LRecv) -> tstep s (on_link l s)
(** the ticker of the processor *)
| ts_proxy_tick now rs c : px_Tick rpc range_waiting now (cl_client s) = OK rs c -> tstep s (on_proxy_tick c s).

(** The steps that clients and operators make. *)
Inductive ustep (s : cluster) : cluster -> Prop :=
(** [Open] of the proxy client *)
| us_start l d a : lk_pos (cl_link s) = LIdle -> Open d a (cl_link s) = (None, l) -> ustep s (on_link l s)
(** the calls of the processor, and of other proxies *)
| us_call A (op : M error Client A) c : jsm_call A op -> final (op (cl_client s)) = Some c -> ustep s (with_client c s)
| us_other A (op : OpRequest) (decode : Body -> option A) r : final (performApply op decode (cl_server s)) = Some r ->
    ustep s (with_server r s)
(** [Close] of the proxy client *)
| us_signal : lk_close (cl_link s) = KOpen -> ustep s (with_link (close_signal (cl_link s)) s)
| us_close : lk_close (cl_link s) = KSignalled -> ustep s (with_link (close_conn (cl_link s)) s).

Definition cstep (s s' : cluster) : Prop := tstep s s' \/ ustep s s'.
End delivery.
Arguments cluster : clear implicits.
