(* ===== verification/DeliverySpec.v ===== *)
(** What the stream of a proxy carries: as long as a stream lasts, the reservations that the
    ticks of the controller grant to it are those that the proxy queues, in their order,
    none of them lost, repeated or invented on the way. *)
From stdpp Require Import base gmap list strings relations.
From Stdlib Require Import ZArith Lia.
From S2P Require Import Prelude Job Processor Store JSMServer Proxy ProxyTick Controller ControllerSpec Link LinkSpec Delivery.

(** * On the node *)

(** The reservations of the messages that the controller has still to send to a stream. *)
Definition pending (ch : stream) (pos : position) : list V1Reservation :=
  match pos with CTick sends => mjoin ((Reservations ∘ snd) <$> filter (fun x => x.1 = ch) sends) | _ => [] end.
(** The reservations that a stream has still to send. *)
Definition sending_now (a : option handler) : list V1Reservation :=
  match a with Some (mkHandler _ (PSend rs)) => rs | _ => [] end.
Definition owed (ch : stream) (y : sys) : list V1Reservation := sending_now (handlers y !! ch) ++ pending ch (ctl y).

(** The stream has not failed. *)
Definition sound (a : spot) : Prop := match a with PJoin | PAwait | PRange | PSend _ => True | _ => False end.

Lemma pending_app ch x sends : pending ch (CTick (x :: sends)) = (if decide (x.1 = ch) then Reservations x.2 else []) ++ pending ch (CTick sends).
Proof. unfold pending. rewrite filter_cons. by case_decide. Qed.
Lemma pending_next ch sends : pending ch (match sends with [] => CSelect | _ => CTick sends end) = pending ch (CTick sends).
Proof. by destruct sends. Qed.

(** A stream that is not there is owed nothing. *)
Lemma pending_fresh ch y : sys_ok y -> handlers y !! ch = None -> pending ch (ctl y) = [].
Proof.
  intros Hy Hh. pose proof (so_control _ Hy) as Hc. unfold control_ok in Hc. destruct (ctl y) as [|sends| | | | | | |]; try done.
  destruct Hc as [_ Hall]. induction sends as [|x sends IH]; [done|]. rewrite pending_app.
  apply Forall_cons in Hall as [(_ & _ & q & a & _ & Hx & _) Hall]. rewrite decide_False; [by apply IH|]. intros E. rewrite E in Hx. congruence.
Qed.

(** What a tick grants. *)
Lemma pending_tick ch pid a g o1 o2 y :
  sys_ok y -> ctl y = CSelect -> o1 ≡ₚ (map_to_list g).*1 -> o2 ≡ₚ (map_to_list (connProxies y)).*1 ->
  handlers y !! ch = Some (mkHandler pid a) ->
  pending ch (ctl (on_tick g o1 o2 y)) = if decide (connProxies y !! pid = Some ch) then default [] (g !! pid) else [].
Proof.
  intros Hy Hc H1 H2 Hh. unfold on_tick. destruct (decide (connProxies y !! pid = Some ch)) as [Hp|Hp].
  - pose proof (tick_fans_out y g o1 o2 pid ch Hy H1 H2 Hp) as Hf. destruct (tick_sends (connProxies y) g o1 o2) as [|x l]; [done|].
    unfold pending. simpl ctl. cbn iota. rewrite Hf. cbn. by rewrite app_nil_r.
  - destruct (tick_sends (connProxies y) g o1 o2) as [|x l] eqn:Hl; [by rewrite Hc|].
    unfold pending. simpl ctl. cbn iota. rewrite <- Hl.
    assert (filter (fun x => x.1 = ch) (tick_sends (connProxies y) g o1 o2) = []) as ->; [|done].
    apply elem_of_nil_inv. intros z [Hzc Hz]%list_elem_of_filter. destruct (tick_sends_conn _ _ _ _ _ Hz) as (_ & _ & q & Hq).
    rewrite Hzc in Hq. rewrite (conn_pid _ _ _ _ _ Hy Hq Hh) in Hq. done.
Qed.

(** How the step of a node moves one stream: its own position, and what the controller is to
    send to it. *)
Lemma owed_move ch x pid b y : x <> ch -> owed ch (move x pid b y) = owed ch y.
Proof. intros Hne. unfold owed. simpl. by rewrite lookup_insert_ne. Qed.
Lemma owed_idle ch y y' :
  handlers y' !! ch = handlers y !! ch -> pending ch (ctl y') = pending ch (ctl y) -> owed ch y' = owed ch y.
Proof. unfold owed. by intros -> ->. Qed.

(** The stream [ch] is at [a'] with proxy [pid]; if it has not failed, it had not before and is
    owed what it was. *)
Definition keeps_owed (pid : string) (ch : stream) (a : spot) (y y' : sys) : Prop :=
  exists a', handlers y' !! ch = Some (mkHandler pid a') /\ (sound a' -> sound a /\ owed ch y' = owed ch y).

Lemma keeps_other pid ch a y y' :
  handlers y !! ch = Some (mkHandler pid a) -> handlers y' !! ch = handlers y !! ch ->
  pending ch (ctl y') = pending ch (ctl y) -> keeps_owed pid ch a y y'.
Proof. intros Hh E Hp. exists a. rewrite E. split; [done|]. intros Ha. split; [done|by apply owed_idle]. Qed.

Lemma keeps_moved pid ch a b y pos :
  handlers y !! ch = Some (mkHandler pid a) ->
  (sound b -> sound a /\ sending_now (Some (mkHandler pid b)) ++ pending ch pos = owed ch y) ->
  keeps_owed pid ch a y (goto pos (move ch pid b y)).
Proof.
  intros Hh Hb. exists b. simpl. rewrite lookup_insert_eq. split; [done|]. intros Hs. destruct (Hb Hs) as [Ha E].
  split; [done|]. rewrite <- E. unfold owed. simpl. by rewrite lookup_insert_eq.
Qed.

(** The controller sends to a stream. *)
Lemma send_keeps y ch m pos x q a b cancelled pid a0 :
  sys_ok y -> sending (ctl y) = Some (x, m, pos) -> handlers y !! x = Some (mkHandler q a) -> receive cancelled m a = Some b ->
  handlers y !! ch = Some (mkHandler pid a0) -> keeps_owed pid ch a0 y (goto pos (move x q b y)).
Proof.
  intros Hy Hsd Hx Hr Hh. pose proof (so_control _ Hy) as Hct. unfold control_ok in Hct.
  assert (pending ch (ctl y) = (if decide (x = ch) then match ctl y with CTick _ => Reservations m | _ => [] end else []) ++ pending ch pos) as Hp.
  { destruct (ctl y) as [|[|[z mz] sends]| | | | | | |]; try done; simpl in Hsd; simplify_eq; try (by case_decide).
    rewrite pending_app, pending_next. done. }
  destruct (decide (x = ch)) as [->|Hne].
  2: { apply keeps_other; simpl; [done|by rewrite lookup_insert_ne|done]. }
  rewrite Hh in Hx. injection Hx as <- <-. apply keeps_moved; [done|]. intros Hb. unfold owed. rewrite Hh, Hp.
  destruct (ctl y) as [|[|[z mz] sends]|z|z|z|q' z|q' z|q' z|]; try done; simpl in Hsd; simplify_eq.
  - destruct Hct as [_ [(Em1 & Em2 & q' & a' & _ & Hh' & Hreg) _]%Forall_cons]. simpl in Em1, Em2, Hh'. rewrite Hh in Hh'.
    injection Hh' as <- <-. destruct a0; try done. simpl in Hr. destruct cancelled; [by injection Hr as <-|].
    rewrite Em2 in Hr. case_decide; [done|]. injection Hr as <-. split; [done|]. done.
  - destruct Hct as (q' & E). rewrite Hh in E. injection E as _ ->. simpl in Hr. by injection Hr as <-.
  - destruct Hct as (q' & E). rewrite Hh in E. injection E as _ ->. simpl in Hr. by injection Hr as <-.
  - destruct Hct as (res & E & _). rewrite Hh in E. injection E as _ ->. simpl in Hr. by injection Hr as <-.
Qed.

(** A stream moves by itself. *)
Lemma own_keeps y ch pid a0 x q a b :
  handlers y !! x = Some (mkHandler q a) -> handlers y !! ch = Some (mkHandler pid a0) ->
  (sound b -> sound a /\ sending_now (Some (mkHandler q b)) = sending_now (Some (mkHandler q a))) ->
  keeps_owed pid ch a0 y (move x q b y).
Proof.
  intros Hx Hh Hb. destruct (decide (x = ch)) as [->|Hne].
  - rewrite Hh in Hx. injection Hx as <- <-. change (move ch pid b y) with (goto (ctl y) (move ch pid b y)).
    apply keeps_moved; [done|]. intros Hs. destruct (Hb Hs) as [Ha E]. split; [done|]. unfold owed. by rewrite Hh, E.
  - apply keeps_other; simpl; [done|by rewrite lookup_insert_ne|done].
Qed.

Lemma quiet_keeps p ch a y y' :
  sys_ok y -> quiet p (Some ch) y y' -> handlers y !! ch = Some (mkHandler p a) -> keeps_owed p ch a y y'.
Proof.
  intros Hy (Hst & Hnt & _ & Hnd) Hh. specialize (Hnd ch eq_refl).
  destruct Hst as [pid x Hx|pid x Hc Hx|pid x res Hc Hx|g o1 o2 Hc _ _|Hc|x m pos pid b c cc Hsd Hop Hx Hr
    |x m pos Hsd Hcl|x pos Hcl Hop|x pos Hcl Hcl'|pid x Hc|pid x Hcl Hx|pid x res Hcl Hx|pid x Hcl Hx|pid x r rs Hx
    |pid x r rs code Hx|pid x Hx]; try (by apply keeps_other).
  - apply keeps_other; simpl; [done| |done]. rewrite lookup_insert_ne; [done|]. intros ->. congruence.
  - unfold on_join. simpl.
    assert (forall v pos, pending ch pos = [] -> keeps_owed p ch a y (goto pos (set_conn v (move x pid PAwait y)))) as Hj.
    { intros v pos Hp. destruct (decide (x = ch)) as [->|Hne].
      - rewrite Hh in Hx. injection Hx as <- ->. exists PAwait. simpl. rewrite lookup_insert_eq. split; [done|].
        intros _. split; [done|]. unfold owed. simpl. by rewrite lookup_insert_eq, Hh, Hc, Hp.
      - apply keeps_other; simpl; [done|by rewrite lookup_insert_ne|by rewrite Hc, Hp]. }
    destruct (connProxies y !! pid); [by apply (Hj (connProxies y))|by apply Hj].
  - unfold on_leave. simpl. destruct (connProxies y !! pid) as [z|].
    + destruct (decide (x = ch)) as [->|Hne].
      * rewrite Hh in Hx. injection Hx as <- ->. by apply keeps_moved.
      * apply keeps_other; simpl; [done|by rewrite lookup_insert_ne|by rewrite Hc].
    + by apply (own_keeps y ch p a x pid (PLeave res)).
  - unfold on_tick in *. destruct (tick_sends (connProxies y) g o1 o2) as [|z l]; [by apply keeps_other|].
    by destruct (Hnt Hc (z :: l)).
  - apply keeps_other; simpl; [done|done|by rewrite Hc].
  - by apply (send_keeps y ch m pos x pid b c cc).
  - destruct (ctl y) eqn:Hc; try done; simpl in Hcl; simplify_eq; apply keeps_other; simpl; by rewrite ?Hc.
  - apply keeps_other; simpl; [done|done|by rewrite Hc].
  - by apply (own_keeps y ch p a x pid PRange).
  - by apply (own_keeps y ch p a x pid (PDrain res)).
  - simpl in Hnd. destruct (decide (x = ch)) as [->|Hne].
    + destruct Hnd as [E|E].
      * rewrite lookup_insert_eq, Hx in E. injection E as E. apply (f_equal length) in E. simpl in E. lia.
      * apply (f_equal length) in E. rewrite length_app in E. simpl in E. lia.
    + apply keeps_other; simpl; [done|by rewrite lookup_insert_ne|done].
  - by apply (own_keeps y ch p a x pid (PSend (r :: rs))).
  - by apply (own_keeps y ch p a x pid (PSend [])).
Qed.

(** * The whole way *)
Section cluster_inv.
Context {R : Type} `{ReplicatedJsm R}.
Context (rpc : forall A, M Status R A -> M Status R A) (range_waiting : gset ClientID -> list ClientID).
Context (p : string).
Implicit Types s : cluster R.

(** The message that the goroutine has taken and not yet queued. *)
Definition in_hand (pos : link_pos) : list V1Reservation := match pos with LGot v => [v] | _ => [] end.

(** What has reached the proxy since the stream was opened: taken by its ticks, queued, in
    the hand of the goroutine, and arrived. *)
Definition arrived s : list Reservation :=
  cl_drained s ++ cl_queue s ++ (of_V1 <$> in_hand (lk_pos (cl_link s)) ++ lk_buf (cl_link s)).
(** What it is to have: what was queued already, and what the controller granted. *)
Definition due s : list Reservation := cl_left s ++ (of_V1 <$> cl_granted s).

Record cluster_ok s : Prop := {
  co_sys : sys_ok (cl_sys s);
  co_idle : cl_stream s = None -> match lk_pos (cl_link s) with LRecv | LGot _ => False | _ => True end;
  co_stream ch : cl_stream s = Some ch -> exists a, handlers (cl_sys s) !! ch = Some (mkHandler p a) /\
    (arrived s `prefix_of` due s) /\ (sound a -> due s = arrived s ++ (of_V1 <$> owed ch (cl_sys s)))
}.

Lemma cluster_ok_new r : cluster_ok (new_cluster p r).
Proof. split; simpl; [apply sys_ok_new|done|done]. Qed.

(** Nothing of the stream changed. *)
Lemma cluster_ok_frame s s' :
  cluster_ok s -> sys_ok (cl_sys s') -> cl_stream s' = cl_stream s -> arrived s' = arrived s -> due s' = due s ->
  (lk_pos (cl_link s') = LRecv \/ (exists v, lk_pos (cl_link s') = LGot v) -> cl_stream s <> None) ->
  (forall ch a, cl_stream s = Some ch -> handlers (cl_sys s) !! ch = Some (mkHandler p a) ->
     keeps_owed p ch a (cl_sys s) (cl_sys s')) -> cluster_ok s'.
Proof.
  intros [Hy Hi Hs] Hy' Es Ea Ed Hp Hk. split; [done| |].
  - rewrite Es. intros En. destruct (lk_pos (cl_link s')); try done; apply Hp; eauto.
  - intros ch Hc. rewrite Es in Hc. destruct (Hs ch Hc) as (a & Hh & Hpre & Hall).
    destruct (Hk ch a Hc Hh) as (a' & Hh' & Ha). exists a'. rewrite Ea, Ed. split_and!; [done|done|].
    intros Hsd. destruct (Ha Hsd) as [Hsd' ->]. by apply Hall.
Qed.

(** The client changed, and its queue did not. *)
Lemma cluster_ok_client s c :
  cluster_ok s -> default [] (px_rq c) = cl_queue s -> cluster_ok (with_client c s).
Proof.
  intros Hs Hq. apply (cluster_ok_frame s); simpl; try done; [apply Hs| | |].
  - unfold arrived. change (cl_queue (with_client c s)) with (default [] (px_rq c)). by rewrite Hq.
  - intros Hp En. pose proof (co_idle _ Hs En) as Hi. destruct Hp as [E|[v E]]; by rewrite E in Hi.
  - intros ch a _ Hh. by apply keeps_other.
Qed.

(** The link changed otherwise: the position and the messages did not. *)
Lemma cluster_ok_link s l :
  cluster_ok s -> lk_pos l = lk_pos (cl_link s) -> lk_buf l = lk_buf (cl_link s) -> lk_client l = cl_client s ->
  cluster_ok (with_link l s).
Proof.
  intros Hs E1 E2 E3. apply (cluster_ok_frame s); simpl; try done; [apply Hs| | |].
  - unfold arrived, cl_queue, cl_client. simpl. rewrite E1, E2, E3. done.
  - intros Hp En. pose proof (co_idle _ Hs En) as Hi. rewrite <- E1 in Hi. destruct Hp as [E|[v E]]; by rewrite E in Hi.
  - intros ch a _ Hh. by apply keeps_other.
Qed.

(** The stream was given up. *)
Lemma cluster_ok_idle s : sys_ok (cl_sys s) -> cl_stream s = None ->
  match lk_pos (cl_link s) with LRecv | LGot _ => False | _ => True end -> cluster_ok s.
Proof. intros Hy En Hp. split; [done|done|]. intros ch. by rewrite En. Qed.

Lemma on_link_idle s l :
  cluster_ok s -> match lk_pos l with LRecv | LGot _ => False | _ => True end -> cluster_ok (on_link l s).
Proof.
  intros Hs Hp. apply cluster_ok_idle; simpl; [apply Hs| |done]. by destruct (lk_pos l).
Qed.

(** ** Steps *)
Lemma tick_is_ok s g o1 o2 r :
  cluster_ok s -> ctl (cl_sys s) = CSelect -> o1 ≡ₚ (map_to_list g).*1 -> o2 ≡ₚ (map_to_list (connProxies (cl_sys s))).*1 ->
  cluster_ok (on_server_tick p g o1 o2 r s).
Proof.
  intros Hs Hc H1 H2. unfold on_server_tick. apply cluster_ok_client; [|done].
  destruct Hs as [Hy Hi Hst]. split; simpl; [by apply step_ok_tick|done|]. intros ch Ech. rewrite Ech.
  destruct (Hst ch Ech) as (a & Hh & Hpre & Hall). exists a.
  pose proof (pending_tick ch p a g o1 o2 (cl_sys s) Hy Hc H1 H2 Hh) as Hp.
  set (gr := match connProxies (cl_sys s) !! p with Some ch0 => if decide (ch0 = ch) then default [] (g !! p) else [] | None => [] end).
  assert (pending ch (ctl (on_tick g o1 o2 (cl_sys s))) = gr) as Hgr.
  { rewrite Hp. unfold gr. destruct (connProxies (cl_sys s) !! p) as [ch0|]; [|by rewrite decide_False].
    destruct (decide (ch0 = ch)) as [->|Hne]; [by rewrite decide_True|by rewrite decide_False by congruence]. }
  assert (handlers (on_tick g o1 o2 (cl_sys s)) = handlers (cl_sys s)) as Hhs.
  { unfold on_tick. by destruct (tick_sends _ _ _ _). }
  set (s1 := mkCluster _ _ _ _ _ _).
  assert (due s1 = due s ++ (of_V1 <$> gr)) as Ed by (unfold due; simpl; by rewrite fmap_app, app_assoc).
  change (arrived s1) with (arrived s). rewrite Hhs, Ed. split_and!; [done|by apply prefix_app_r|].
  intros Ha. rewrite (Hall Ha). unfold owed. rewrite Hhs, Hgr, Hc. simpl. rewrite app_nil_r, fmap_app. by rewrite <- app_assoc.
Qed.

Lemma ok_move s y : cluster_ok s -> quiet p (cl_stream s) (cl_sys s) y -> cluster_ok (with_sys y s).
Proof.
  intros Hs Hq. apply (cluster_ok_frame s); simpl; try done.
  - apply (step_ok (cl_sys s)); [apply Hs|apply Hq].
  - intros Hp En. pose proof (co_idle _ Hs En) as Hi. destruct Hp as [E|[v E]]; by rewrite E in Hi.
  - intros ch a Hc Hh. rewrite Hc in Hq. apply quiet_keeps; [apply Hs|done|done].
Qed.

Lemma ok_send s ch r rs :
  cluster_ok s -> cl_stream s = Some ch -> handlers (cl_sys s) !! ch = Some (mkHandler p (PSend (r :: rs))) ->
  cluster_ok (on_send p ch r rs s).
Proof.
  intros [Hy Hi Hst] Hc Hh. split; simpl.
  - apply deliver_ok. by apply (step_ok_own _ ch p (PSend (r :: rs))).
  - by rewrite Hc.
  - intros x Hx. rewrite Hc in Hx. injection Hx as <-. exists (PSend rs). rewrite lookup_insert_eq. split; [done|].
    destruct (Hst ch Hc) as (a & Hh' & _ & Hall). rewrite Hh in Hh'. injection Hh' as <-. specialize (Hall I).
    assert (due s = arrived (on_send p ch r rs s) ++ (of_V1 <$> owed ch (deliver p r (move ch p (PSend rs) (cl_sys s))))) as E.
    { rewrite Hall. unfold arrived, owed. simpl. rewrite Hh, lookup_insert_eq. simpl. unfold cl_queue, cl_client. simpl.
      rewrite !fmap_app. simpl. by rewrite <- !app_assoc. }
    split; [|done]. by eexists.
Qed.

Lemma ok_open s ch : cluster_ok s -> handlers (cl_sys s) !! ch = None -> cluster_ok (on_open p ch s).
Proof.
  intros Hs Hh. assert (pending ch (ctl (cl_sys s)) = []) as Hp by (apply pending_fresh; [apply Hs|done]).
  split; simpl; [by apply step_ok_open; [apply Hs|]|done|]. intros x [= <-]. exists PJoin. rewrite lookup_insert_eq.
  assert (due (on_open p ch s) = arrived (on_open p ch s)) as E by done. split_and!; [done|by rewrite E|].
  intros _. rewrite E. unfold owed. simpl. rewrite lookup_insert_eq, Hp. simpl. by rewrite app_nil_r.
Qed.

Lemma queue_recv v (c : Client (R:=R)) : default [] (px_rq (stream_recv v c)) = default [] (px_rq c) ++ [of_V1 v].
Proof. unfold stream_recv, rq_Enqueue. simpl. by destruct (px_rq c). Qed.

(** The goroutine goes on with its stream. *)
Lemma ok_goes_on s l :
  cluster_ok s -> (exists x, lk_pos (cl_link s) = LGot x) \/ lk_pos (cl_link s) = LRecv ->
  (exists x, lk_pos l = LGot x) \/ lk_pos l = LRecv ->
  arrived (with_link l s) = arrived s -> cluster_ok (on_link l s).
Proof.
  intros Hs Hp Hl Ha.
  assert (match lk_pos l with LRecv | LGot _ => cl_stream s | _ => None end = cl_stream s) as E
    by (destruct Hl as [[x ->]| ->]; done).
  assert (cl_stream s <> None) as Hn.
  { intros En. pose proof (co_idle _ Hs En) as Hi. destruct Hp as [[x Ex]|Ex]; by rewrite Ex in Hi. }
  apply (cluster_ok_frame s); simpl; try done; [apply Hs|]. intros ch a _ Hh. by apply keeps_other.
Qed.

Lemma ok_gstep s l : cluster_ok s -> gstep (cl_link s) l -> (lk_pos (cl_link s) = LCall -> lk_pos l <> LRecv) -> cluster_ok (on_link l s).
Proof.
  intros Hs Hg Hc. destruct Hg as [Hp|Hp Ho Hd|code Hp Hf|v rest Hp Hb|code Hp|v Hp|err Hp].
  - by apply on_link_idle.
  - by destruct (Hc Hp).
  - by apply on_link_idle.
  - apply ok_goes_on; [done|by right|left; by exists v|]. unfold arrived, cl_queue, cl_client. simpl. by rewrite Hp, Hb.
  - by apply on_link_idle.
  - unfold link_select. destruct (lk_ctxDone (cl_link s)); [by apply on_link_idle|].
    apply ok_goes_on; [done|left; by exists v|by right|]. unfold arrived, cl_queue, cl_client. simpl.
    rewrite Hp. cbn [in_hand]. rewrite fmap_app. simpl. pose proof (queue_recv v (lk_client (cl_link s))) as Hq. simpl in Hq.
    rewrite Hq. by rewrite <- !app_assoc.
  - apply on_link_idle; [done|]. destruct (link_return_fields err (cl_link s)) as (_ & _ & [E|E]); by rewrite E.
Qed.

Lemma ok_proxy_tick s now rs c :
  cluster_ok s -> px_Tick rpc range_waiting now (cl_client s) = OK rs c -> cluster_ok (on_proxy_tick c s).
Proof.
  intros Hs Ht. destruct (px_Tick_spec _ _ _ _ _ _ Ht) as (lost_ids & _ & Hq & _).
  apply (cluster_ok_frame s); simpl; try done; [apply Hs| | |].
  - unfold arrived. change (cl_queue (on_proxy_tick c s)) with (default [] (px_rq c)). rewrite Hq. simpl. by rewrite <- app_assoc.
  - intros Hp En. pose proof (co_idle _ Hs En) as Hi. destruct Hp as [E|[v E]]; by rewrite E in Hi.
  - intros ch a _ Hh. by apply keeps_other.
Qed.

(** The calls of the processor leave the queue alone. *)
Lemma invoke_queue {A B} (m : M Status R A) (k : A -> M error Client B) c c' :
  (forall a c1 c2, final (k a c1) = Some c2 -> px_rq c2 = px_rq c1) ->
  final (bind (invoke rpc m) k c) = Some c' -> px_rq c' = px_rq c.
Proof.
  intros Hk. unfold bind. pose proof (invoke_own rpc m c) as Ho. destruct (invoke rpc m c) as [a c1|e c1| |]; try done.
  - intros E. rewrite (Hk _ _ _ E). apply Ho.
  - intros [= <-]. apply Ho.
Qed.
Lemma invoke_queue_only {A} (m : M Status R A) c c' : final (invoke rpc m c) = Some c' -> px_rq c' = px_rq c.
Proof. pose proof (invoke_own rpc m c) as Ho. destruct (invoke rpc m c) as [a c1|e c1| |]; try done; intros [= <-]; apply Ho. Qed.

Lemma jsm_call_queue A (op : M error (Client (R:=R)) A) c c' : jsm_call rpc A op -> final (op c) = Some c' -> px_rq c' = px_rq c.
Proof.
  intros Hop. destruct Hop; unfold px_Put, px_AppendReservation, px_Delete, px_Bury, px_Kick, px_KickN, px_Touch,
    px_PeekDelayedJob, px_PeekReadyJob, px_PeekBuriedJob, px_peek, px_GetJob, px_ReleaseWith, px_GetStatsJobAsYaml,
    px_GetStatsTubeAsYaml, px_GetStatsAsYaml, px_GetTubes, px_CheckClientState; try (unfold gets at 1, bind at 1); cbn beta iota;
    try (by apply invoke_queue_only); apply invoke_queue; try (by intros ??? [= <-]).
  intros r c1 c2. unfold bind, ret. destruct (v_Status r); try (by intros [= <-]).
  unfold waiting_Add, gets, bind. destruct (waiting_Contains _ _); by intros [= <-].
Qed.

Lemma tstep_ok s s' : cluster_ok s -> tstep rpc range_waiting p s s' -> cluster_ok s'.
Proof.
  intros Hs Hst. destruct Hst as [g o1 o2 r Hc _ H1 H2|e r _ _|y Hq|ch r rs Hc Hh|ch Hp Hc Hd Hh|l Hg Hc|now rs c Ht].
  - by apply tick_is_ok.
  - by apply cluster_ok_client.
  - by apply ok_move.
  - by apply ok_send.
  - by apply ok_open.
  - by apply ok_gstep.
  - by eapply ok_proxy_tick.
Qed.

Lemma ustep_ok s s' : cluster_ok s -> ustep rpc s s' -> cluster_ok s'.
Proof.
  intros Hs Hst. destruct Hst as [l d a Hp Ho|A op c Hop Hf|A op dec r _|Hk|Hk].
  - apply on_link_idle; [done|]. unfold Open, connect in Ho. destruct (d a); by simplify_eq.
  - apply cluster_ok_client; [done|]. unfold cl_queue. f_equal. by eapply jsm_call_queue.
  - by apply cluster_ok_client.
  - destruct (signalCancel_fields (cl_link s)) as (E1 & E2 & _ & _ & E5). by apply cluster_ok_link.
  - apply cluster_ok_link; [done|..]; unfold close_conn; by destruct (lk_conn (cl_link s)).
Qed.

Lemma csteps_ok s s' : rtc (cstep rpc range_waiting p) s s' -> cluster_ok s -> cluster_ok s'.
Proof. induction 1 as [|s s1 s2 [Ht|Hu] _ IH]; eauto using tstep_ok, ustep_ok. Qed.
End cluster_inv.
