(* ===== verification/Forgotten.v ===== *)
(** A client that the proxy waits for and the cluster does not: when the reservation for it
    was granted while the proxy had no stream, the controller discards it, and neither a
    stream that is opened later nor any number of ticks brings an answer. *)
From stdpp Require Import base gmap list strings relations.
From Stdlib Require Import ZArith Lia.
From S2P Require Import Prelude Job JSM Inv Frame Known Waiting Processor ProcSpec LocalJSM ClientURI Store StoreSpec Replica.
From S2P Require Import Raft JSMServer Proxy ProxySpec ProxyTick Solo Controller ControllerSpec Link LinkSpec Delivery DeliverySpec.
Local Open Scope Z_scope.

Section forgotten.
Context (yaml_Marshal : gmap string yvalue -> list Byte.byte + string) (range : gset TubeName -> list TubeName).
Hypothesis range_perm : forall X, range X ≡ₚ elements X.
Context (time_Now : nat -> Z).
Hypothesis clock : forall k, clock_ok (time_Now k).
Context (range_waiting : gset ClientID -> list ClientID) (p cid : string).
Let ops := localJSM_ops yaml_Marshal range.
Existing Instance ops.
Let repl := node_ReplicatedJsm (N:=solo localJSM) time_Now.
Existing Instance repl.
Abbreviation tick_step := (tstep direct range_waiting p).
Implicit Types s : cluster (node (solo localJSM)).

(** The tick of a node that leads: every reservation is for a client that waited. *)
Lemma leader_tick (n : node (solo localJSM)) :
  so_state (nd_raft n) = Leader -> replica_ok (so_fsm (nd_raft n)) ->
  exists g st, srv_Tick n = OK g (mkNode (mkSolo st Leader (so_cfg (nd_raft n))) (S (nd_reads n))) /\ replica_ok st /\
    (forall i, i ∈ (waiting_requests st).*1 -> i ∈ (waiting_requests (so_fsm (nd_raft n))).*1) /\
    (forall v, v ∈ default [] (g !! p) -> ToClientID (NewClientURI p (v_ClientId v)) ∈ (waiting_requests (so_fsm (nd_raft n))).*1).
Proof.
  intros Hl Hr. destruct (replica_tick yaml_Marshal range range_perm (time_Now (nd_reads n)) (so_fsm (nd_raft n)) Hr (clock _))
    as (rs & st & g & Ht & Ha & Hr' & _ & Hall & Hg). exists g, st.
  destruct (Tick_accounts _ _ _ _ _ _ Ht) as [Hw _]. split_and!; [|done| |].
  - unfold srv_Tick, repl, ops. rewrite (performApply_solo (H:=localJSM_ops yaml_Marshal range) time_Now OpType_TICK as_Tick n Hl).
    destruct (negb (rIsLeader n)) eqn:El; [|unfold ops in Ha; by rewrite Ha].
    exfalso. revert El. simpl. unfold IsLeader. simpl. by rewrite Hl.
  - intros i Hi. rewrite Hw, fmap_app. apply elem_of_app. by left.
  - intros v Hv. rewrite Hg in Hv. apply list_elem_of_fmap in Hv as (r & -> & [Hp Hin]%list_elem_of_filter).
    rewrite Forall_forall in Hall. destruct (Hall r Hin) as [_ E]. rewrite Hw, fmap_app. apply elem_of_app. right.
    rewrite <- list_fmap_compose. apply list_elem_of_fmap. exists r. split; [|done]. simpl. rewrite E at 1. f_equal.
    rewrite <- Hp. by destruct (uri_of r).
Qed.

(** The client waits at the proxy; the cluster does not know, and nothing is on its way. *)
Record forgotten s : Prop := {
  fg_ok : cluster_ok p s;
  fg_waits : cid ∈ px_waiting (cl_client s);
  fg_calm : px_recoverClients (cl_client s) = false;
  fg_leads : leads (cl_client s);
  fg_replica : replica_ok (jsm_of (cl_client s));
  fg_unknown : ToClientID (NewClientURI p cid) ∉ (waiting_requests (jsm_of (cl_client s))).*1;
  fg_queue : cid ∉ ids_of (cl_queue s);
  fg_due : cl_stream s <> None -> cid ∉ ids_of (due s)
}.

Lemma ids_of_of_V1 l : ids_of (of_V1 <$> l) = list_to_set (v_ClientId <$> l).
Proof. unfold ids_of. by rewrite <- list_fmap_compose. Qed.

(** The stream brings nothing for the client. *)
Lemma arrived_none s : forgotten s -> cl_stream s <> None -> cid ∉ ids_of (arrived s).
Proof.
  intros F Hst. destruct (cl_stream s) as [ch|] eqn:Hc; [|done]. destruct (co_stream _ _ (fg_ok _ F) ch Hc) as (a & _ & [l E] & _).
  intros Hin. apply (fg_due _ F); [by rewrite Hc|]. rewrite E, ids_of_app. by apply elem_of_union_l.
Qed.

(** The client did not change but for its queue. *)
Lemma forgotten_frame s s' :
  forgotten s -> cluster_ok p s' -> px_waiting (cl_client s') = px_waiting (cl_client s) ->
  px_recoverClients (cl_client s') = false -> cl_server s' = cl_server s ->
  cid ∉ ids_of (cl_queue s') -> (cl_stream s' <> None -> cid ∉ ids_of (due s')) -> forgotten s'.
Proof.
  intros F Ho Hw Hb Hsv Hq Hd. unfold cl_server in Hsv. split; try done.
  - rewrite Hw. apply F.
  - unfold leads. rewrite Hsv. apply F.
  - unfold jsm_of. rewrite Hsv. apply F.
  - unfold jsm_of. rewrite Hsv. apply F.
Qed.

Lemma forgotten_server_tick s g o1 o2 r :
  forgotten s -> cluster_ok p (on_server_tick p g o1 o2 r s) -> srv_Tick (cl_server s) = OK g r ->
  forgotten (on_server_tick p g o1 o2 r s).
Proof.
  intros F Ho Ht. destruct (leader_tick (cl_server s) (fg_leads _ F) (fg_replica _ F)) as (g' & st & E & Hr & Hsub & Hin).
  rewrite E in Ht. injection Ht as <- <-. split; try done; try apply F.
  - intros Hi. by apply (fg_unknown _ F), Hsub.
  - intros Hst. unfold due. simpl. rewrite fmap_app, app_assoc, ids_of_app. intros [Hd|Hg]%elem_of_union.
    + by apply (fg_due _ F Hst).
    + rewrite ids_of_of_V1 in Hg. apply elem_of_list_to_set, list_elem_of_fmap in Hg as (v & Hv & Hm).
      apply (fg_unknown _ F). rewrite Hv. apply Hin.
      destruct (connProxies (cl_sys s) !! p), (cl_stream s); try (by apply elem_of_nil in Hm).
      case_decide; [done|by apply elem_of_nil in Hm].
Qed.

Lemma forgotten_proxy_tick_result s now rs c :
  forgotten s -> px_Tick direct range_waiting now (cl_client s) = OK rs c -> cid ∉ ids_of rs.
Proof.
  intros F Ht. rewrite (px_Tick_plain direct range_waiting now (cl_client s) (fg_calm _ F)) in Ht. injection Ht as <- _.
  unfold ids_of. rewrite elem_of_list_to_set, list_elem_of_fmap. intros (r & E & Hin).
  apply (fg_queue _ F). unfold ids_of. apply elem_of_list_to_set, list_elem_of_fmap. exists r. split; [done|].
  by eapply elem_of_sublist; [exact Hin|apply taken_sublist].
Qed.

Lemma forgotten_proxy_tick s now rs c :
  forgotten s -> cluster_ok p (on_proxy_tick c s) -> px_Tick direct range_waiting now (cl_client s) = OK rs c ->
  forgotten (on_proxy_tick c s).
Proof.
  intros F Ho Ht. rewrite (px_Tick_plain direct range_waiting now (cl_client s) (fg_calm _ F)) in Ht. injection Ht as _ <-.
  split; try done; try apply F.
  change (cid ∈ px_waiting (cl_client s) ∖ ids_of (cl_queue s)). apply elem_of_difference.
  split; [apply (fg_waits _ F)|apply (fg_queue _ F)].
Qed.

(** A step of the goroutine of the proxy. *)
Lemma forgotten_gstep s l :
  forgotten s -> cluster_ok p (on_link l s) -> gstep (cl_link s) l -> px_recoverClients (lk_client l) = false -> forgotten (on_link l s).
Proof.
  intros F Ho Hg Hb.
  assert (cl_stream (on_link l s) <> None -> cl_stream s <> None) as Hst by (simpl; by destruct (lk_pos l)).
  assert (forall c, lk_client l = c -> px_waiting c = px_waiting (cl_client s) -> px_server c = cl_server s ->
    cid ∉ ids_of (default [] (px_rq c)) -> forgotten (on_link l s)) as Hgo.
  { intros c <- Hw Hsv Hq. apply (forgotten_frame s); try done. intros Hs'. by apply (fg_due _ F), Hst. }
  destruct Hg as [Hp|Hp ? ?|code Hp Hf|v rest Hp Hbf|code Hp|v Hp|err Hp];
    try (by apply (Hgo (cl_client s)); try done; apply (fg_queue _ F)).
  - unfold link_select in *. destruct (lk_ctxDone (cl_link s)).
    { by apply (Hgo (cl_client s)); try done; apply (fg_queue _ F). }
    apply (Hgo (stream_recv v (cl_client s))); try done. rewrite queue_recv, ids_of_app.
    assert (cl_stream s <> None) as Hn.
    { intros En. pose proof (co_idle _ _ (fg_ok _ F) En) as Hi. by rewrite Hp in Hi. }
    pose proof (arrived_none s F Hn) as Ha. unfold arrived in Ha. rewrite Hp, !ids_of_app in Ha. cbn [in_hand] in Ha.
    rewrite fmap_app, ids_of_app in Ha.
    apply not_elem_of_union in Ha as [_ [Hq [Hv _]%not_elem_of_union]%not_elem_of_union].
    apply not_elem_of_union. by split.
  - destruct (signalCancel_fields (cl_link s)) as (E1 & _). unfold link_return, stream_end in *. rewrite E1 in *.
    destruct (decide _).
    + by apply (Hgo (cl_client s)); try done; apply (fg_queue _ F).
    + exfalso. simpl in Hb. unfold SetIfFalse in Hb. by destruct (px_recoverClients (lk_client (cl_link s))).
Qed.

(** Ticks and streams do not help, as long as no stream fails. *)
Lemma forgotten_step s s' :
  forgotten s -> tick_step s s' -> px_recoverClients (cl_client s') = false -> forgotten s'.
Proof.
  intros F Hst Hb. pose proof (tstep_ok _ _ _ _ _ (fg_ok _ F) Hst) as Ho.
  destruct Hst as [g o1 o2 r Hc Ht H1 H2|e r Hc Ht|y Hq|ch r rs Hc Hh|ch Hp Hc Hd Hh|l Hg Hc|now rs c Ht].
  - by apply forgotten_server_tick.
  - destruct (leader_tick (cl_server s) (fg_leads _ F) (fg_replica _ F)) as (g & st & E & _). by rewrite E in Ht.
  - by apply (forgotten_frame s); try done; apply F.
  - by apply (forgotten_frame s); try done; apply F.
  - apply (forgotten_frame s); try done; [apply F|]. intros _. unfold due. simpl. rewrite app_nil_r. apply F.
  - by apply forgotten_gstep.
  - by eapply forgotten_proxy_tick.
Qed.
End forgotten.
