(* ===== verification/Conn.v ===== *)
(** The connection state machine: [src/beanstalkd/proto/conn.go].

    A connection reads command lines and job data from its reader, sends requests to the
    command processor and writes the replies.  The processor is behind an interface:
    a request yields the responses that arrive on the client's channel. *)
From stdpp Require Import base gmap list strings.
From Stdlib Require Import ZArith Lia.
From Stdlib Require Strings.Byte.
From S2P Require Import Prelude Job Parse CmdData Processor.
Import Cmd.
Local Open Scope Z_scope.

Abbreviation bytes := (list Byte.byte).

Inductive ConnState : Type :=
| WantCommand | ReadyToProcess | WantData | SendJob | SendWord | WaitReservation | BitBucket | Close | WantEndLine
| Stopped.

#[export] Instance ConnState_eq_dec : EqDecision ConnState.
Proof. solve_decision. Defined.

Definition MsgJobTooBig : string := "JOB_TOO_BIG".
Definition MsgExpectCRLF : string := "EXPECTED_CRLF".

(** [core.CommandProcessor] as a connection uses it: [DispatchRequest] followed by
    the responses on the channel of the client; [None] when none ever comes. *)
Class CommandProcessor (P : Type) : Type := {
  MaxJobDataSize : Z;
  DispatchRequest : CmdRequest -> P -> option (list CmdResponse * P)
}.

Section conn.
Context {P : Type} `{CommandProcessor P}.
(** The identifier of the client, and the fresh identifiers of its requests. *)
Context (clientID : ClientID) (uuid : nat -> string).

Record Conn : Type := mkConn {
  c_reader : Reader;
  c_state : ConnState;
  c_buffer : slice;
  c_lastCmd : option CmdData;
  c_proc : P;
  (** requests made so far *)
  c_requests : nat;
  (** bytes written to the connection *)
  c_out : bytes;
  (** whether the connection was closed *)
  c_shut : bool
}.

Definition NewConn (conn : Reader) (p : P) : Conn := mkConn conn WantCommand (Some []) None p 0 [] false.

Definition set_state (v : ConnState) (c : Conn) : Conn :=
  mkConn (c_reader c) v (c_buffer c) (c_lastCmd c) (c_proc c) (c_requests c) (c_out c) (c_shut c).
Definition set_input (rdr : Reader) (b : slice) (c : Conn) : Conn :=
  mkConn rdr (c_state c) b (c_lastCmd c) (c_proc c) (c_requests c) (c_out c) (c_shut c).
Definition set_lastCmd (v : option CmdData) (c : Conn) : Conn :=
  mkConn (c_reader c) (c_state c) (c_buffer c) v (c_proc c) (c_requests c) (c_out c) (c_shut c).
Definition set_proc (p : P) (n : nat) (c : Conn) : Conn :=
  mkConn (c_reader c) (c_state c) (c_buffer c) (c_lastCmd c) p n (c_out c) (c_shut c).
Definition set_out (v : bytes) (c : Conn) : Conn :=
  mkConn (c_reader c) (c_state c) (c_buffer c) (c_lastCmd c) (c_proc c) (c_requests c) v (c_shut c).
Definition set_shut (c : Conn) : Conn :=
  mkConn (c_reader c) (c_state c) (c_buffer c) (c_lastCmd c) (c_proc c) (c_requests c) (c_out c) true.

Abbreviation KM := (M error Conn).

(** The bytes of a reply and the line end. *)
Definition line_of (b : bytes) : bytes := b ++ [CR; LF].
Definition word_of (s : string) : bytes := line_of (String.list_byte_of_string s).

Definition replyBytes (b : bytes) : KM unit := modify (fun c => set_out (c_out c ++ line_of b) c).
Definition reply (s : string) : KM unit := replyBytes (String.list_byte_of_string s).

(** The loop that receives the responses to a request: it waits for one that does not
    announce more. *)
Fixpoint receive (rs : list CmdResponse) : KM unit :=
  match rs with
  | [] => diverge
  | r :: rs' =>
    (match rs_Response r with Some b => replyBytes b | None => ret tt end) ;;
    if rs_HasMore r then receive rs' else ret tt
  end.

Definition dispatchCommand : KM unit :=
  cmd <- gets c_lastCmd ;;
  match cmd with
  | None => panic
  | Some cd =>
    n <- gets c_requests ;;
    (match NewCmdRequest (uuid n) cd clientID with
     | inr ErrCmdNotFound => reply MsgUnknownCommand
     | inr ErrBadFormat => reply MsgBadFormat
     | inr _ => reply MsgInternalError
     | inl req =>
       p <- gets c_proc ;;
       match DispatchRequest req p with
       | None => diverge
       | Some (rs, p') =>
         modify (set_proc p' (S n)) ;;
         receive rs ;;
         if decide (rq_CmdType req = Quit) then modify (set_state Stopped) else ret tt
       end
     end) ;;
    modify (set_lastCmd None)
  end.

Definition close : KM unit :=
  st <- gets c_state ;;
  if decide (st <> Close) then ret tt else
  modify (set_lastCmd (Some (mkCmdData Quit "" None false))) ;;
  dispatchCommand.

Definition stop : KM unit :=
  st <- gets c_state ;;
  if decide (st <> Stopped) then ret tt else modify set_shut.

(** A call of [core.Discard] or [core.Scan] on reader and buffer. *)
Definition scan {A} (f : Reader -> bytes -> option (A * Reader)) : KM A :=
  fun c => match f (c_reader c) (default [] (c_buffer c)) with
           | Some (r, rdr) => OK r (set_input rdr (c_buffer c) c)
           | None => DIVERGE
           end.
Definition set_buffer (b : slice) : KM unit := modify (fun c => set_input (c_reader c) b c).

Definition wantEndLine : KM unit :=
  st <- gets c_state ;;
  if decide (st <> WantEndLine) then ret tt else
  r <- scan Discard ;;
  set_buffer r.1 ;;
  match r.2 with
  | Some (ErrIO e) => if String.eqb e EOF then modify (set_state Close) else reply MsgInternalError
  | Some _ => reply MsgInternalError
  | None => modify (set_state WantCommand)
  end.

Definition wantData : KM unit :=
  st <- gets c_state ;;
  if decide (st <> WantData) then ret tt else
  cmd <- gets c_lastCmd ;;
  match cmd with
  | None => panic
  | Some cd =>
    r <- scan (fun rdr b => ScanJobData rdr b (Z.to_nat MaxJobDataSize)) ;;
    set_buffer r.1.2 ;;
    match r.2 with
    | Some (ErrIO e) => if String.eqb e EOF then modify (set_state Close) else reply MsgInternalError
    | Some ErrDelimiterMissing => reply MsgExpectCRLF ;; modify (set_state WantEndLine)
    | Some _ => reply MsgInternalError
    | None =>
      modify (set_lastCmd (Some (mkCmdData (cd_CmdType cd) (cd_Args cd) r.1.1 (cd_NeedData cd)))) ;;
      dispatchCommand ;;
      modify (set_state WantCommand)
    end
  end.

Definition wantCommand : KM unit :=
  st <- gets c_state ;;
  if decide (st <> WantCommand) then ret tt else
  r <- scan ScanCmdLine ;;
  set_buffer r.1.2 ;;
  match r.2 with
  | Some (ErrIO e) => if String.eqb e EOF then modify (set_state Close) else reply MsgInternalError
  | Some ErrDelimiterMissing => reply MsgBadFormat ;; modify (set_state WantEndLine)
  | Some _ => reply MsgInternalError
  | None =>
    match ParseCommandLine (String.string_of_list_byte (default [] r.1.1)) MaxJobDataSize with
    | inr (ErrCmdNotFound | ErrCmdTokensMissing) => reply MsgBadFormat
    | inr ErrJobSizeTooBig => reply MsgJobTooBig ;; modify (set_state WantEndLine)
    | inr _ => reply MsgInternalError
    | inl cmdData =>
      modify (set_lastCmd (Some cmdData)) ;;
      if cd_NeedData cmdData then modify (set_state WantData) else dispatchCommand
    end
  end.

(** One turn of the loop of [Tick]. *)
Definition turn : KM unit := wantCommand ;; wantData ;; wantEndLine ;; close ;; stop.
Fixpoint Tick_loop (fuel : nat) : KM unit :=
  st <- gets c_state ;;
  if decide (st = Stopped) then ret tt else
  match fuel with
  | O => diverge
  | S f => turn ;; Tick_loop f
  end.

(** Bytes and read events that are left; every turn uses at least one, and the last two
    find the end of the stream and stop. *)
Definition input_left (c : Conn) : nat :=
  length (default [] (c_buffer c)) + length (data (c_reader c)) + length (c_reader c).
Definition Tick : KM unit := fun c => Tick_loop (input_left c + 2) c.
End conn.
