(* ===== verification/ConnSpec.v ===== *)
(** The connection against the byte stream: what a connection does is determined by the
    bytes it receives, and it always comes to an end.

    [session] reads the protocol off the bytes alone; the connection implements it however
    the bytes are cut into reads. *)
From stdpp Require Import base gmap list strings.
From Stdlib Require Import ZArith Lia.
From Stdlib Require Strings.Byte.
From S2P Require Import Prelude Job Parse CmdData Processor Conn.
Import Cmd.
Local Open Scope nat_scope.

(** * More on [Scan] and [Discard] *)
Section reading.

Lemma Read_length k rdr r rdr' : Read k rdr = (r, rdr') -> length rdr' <= length rdr.
Proof. destruct rdr as [|[c|e] rdr]; simpl; [intros [= _ <-]; done| |intros [= _ <-]; lia]. case_match; intros [= _ <-]; simpl; lia. Qed.

Lemma Read_error k rdr e rdr' : Read k rdr = (inr e, rdr') -> (rdr = [] /\ rdr' = [] /\ e = EOF) \/ rdr = inr e :: rdr'.
Proof. destruct rdr as [|[c|e'] rdr]; simpl; [intros [= <- <-]; auto| |intros [= <- <-]; auto]. by case_match. Qed.

Lemma Read_nothing k rdr rdr' : 0 < k -> Read k rdr = (inl [], rdr') -> length rdr' < length rdr.
Proof.
  intros Hk. destruct rdr as [|[c|e] rdr]; simpl; [done| |done]. case_match eqn:E; intros [= Hc <-]; [simpl; lia|].
  apply Nat.leb_gt in E. destruct c; [simpl in E; lia|]. destruct k; [lia|done].
Qed.

(** Without a delimiter [Scan] runs into the end of the stream or into the limit. *)
Lemma Scan_loop_none f rdr buf bufSize limit :
  0 < bufSize -> steady rdr -> split (buf ++ data rdr) = None -> split buf = None -> limit < f + length buf -> 0 < f ->
  if length (buf ++ data rdr) <? limit
  then Scan_loop f rdr buf (ends_CR buf) bufSize limit = Some ((None, None, Some (ErrIO EOF)), [])
  else exists rdr' c, Scan_loop f rdr buf (ends_CR buf) bufSize limit = Some ((None, None, Some ErrDelimiterMissing), rdr') /\
    steady rdr' /\ data rdr = c ++ data rdr'.
Proof.
  intros Hk. revert rdr buf. induction f as [|f IH]; intros rdr buf Hst Hs Hn Hf Hpos; [lia|].
  destruct (length buf <? limit) eqn:El.
  2: { cbn [Scan_loop]. rewrite El. apply Nat.ltb_ge in El.
       rewrite (proj2 (Nat.ltb_ge _ _)) by (rewrite length_app; lia). by exists rdr, []. }
  apply Nat.ltb_lt in El as El'. destruct (decide (rdr = [])) as [->|Hne].
  { cbn [Scan_loop]. unfold data. simpl. rewrite app_nil_r, El. done. }
  destruct (Read_steady bufSize rdr Hst Hk Hne) as (b & rdr1 & Hr & Hb & Hst1).
  rewrite (Scan_step bufSize limit f rdr buf b rdr1) by done. rewrite (Read_data _ _ _ _ Hr), app_assoc in *.
  assert (split (buf ++ b) = None) as Hs1.
  { destruct (split (buf ++ b)) as [[l r]|] eqn:E; [|done]. by rewrite (split_app_some _ _ _ _ E) in Hs. }
  rewrite Hs1. specialize (IH rdr1 (buf ++ b) Hst1 Hs Hs1).
  assert (limit < f + length (buf ++ b)) as Hf' by (rewrite length_app; destruct b; [done|simpl; lia]).
  specialize (IH Hf' ltac:(lia)). destruct (_ <? limit); [done|]. destruct IH as (rdr' & c & ? & ? & ->). exists rdr', (b ++ c).
  by rewrite app_assoc.
Qed.

Lemma Scan_none rdr b limit :
  steady rdr -> split (b ++ data rdr) = None ->
  if length (b ++ data rdr) <? limit
  then Scan rdr b limit = Some ((None, None, Some (ErrIO EOF)), [])
  else exists rdr' c, Scan rdr b limit = Some ((None, None, Some ErrDelimiterMissing), rdr') /\
    steady rdr' /\ data rdr = c ++ data rdr'.
Proof.
  intros Hst Hs. assert (split b = None) as Hn.
  { destruct (split b) as [[l r]|] eqn:E; [|done]. by rewrite (split_app_some _ _ _ _ E) in Hs. }
  unfold Scan. rewrite Hn. destruct (decide (limit = 0)) as [->|Hl]; [by exists rdr, []|]. apply Scan_loop_none; [unfold readBufferSizeBytes; lia|done|done|done|lia|lia].
Qed.

Lemma split_suffix b c : split (b ++ c) = None -> split c = None.
Proof.
  induction b as [|x b IH]; [done|]. intros Hs. apply IH. simpl in Hs. destruct (_ && _); [done|].
  by destruct (split (b ++ c)) as [[? ?]|].
Qed.

(** What is left to read in reader and buffer: bytes and read events. *)
Definition left_in (b : bytes) (rdr : Reader) : nat := length b + length (data rdr) + length rdr.

Lemma data_error e rdr : data (inr e :: rdr) = data rdr.
Proof. done. Qed.

(** What [Scan] leaves: less than before, or the end of the stream, or an overlong line. *)
Definition scan_left (b : bytes) (rdr : Reader) (limit : nat) (res : scanned) (rdr' : Reader) : Prop :=
  let left' := left_in (default [] res.1.2) rdr' in
  match res.2 with
  | None => is_Some res.1.1 /\ left' < left_in b rdr
  | Some (ErrIO e) => e = EOF /\ left' <= left_in b rdr \/ left' < left_in b rdr
  | Some ErrNoData => left' < left_in b rdr
  | Some ErrDelimiterMissing => left' + limit <= left_in b rdr
  end.

Lemma scan_left_mono b rdr b1 rdr1 limit res rdr' :
  left_in b1 rdr1 <= left_in b rdr -> scan_left b1 rdr1 limit res rdr' -> scan_left b rdr limit res rdr'.
Proof. unfold scan_left. intros Hle. repeat case_match; intuition (done || lia). Qed.

Lemma Scan_loop_left f rdr buf bufSize limit res rdr' :
  (0 < limit -> 0 < bufSize) -> split buf = None ->
  Scan_loop f rdr buf (ends_CR buf) bufSize limit = Some (res, rdr') -> scan_left buf rdr limit res rdr'.
Proof.
  intros Hk. revert rdr buf. induction f as [|f IH]; intros rdr buf Hn; [done|].
  destruct (length buf <? limit) eqn:E.
  2: { cbn [Scan_loop]. rewrite E. intros [= <- <-]. unfold scan_left, left_in. simpl. apply Nat.ltb_ge in E. lia. }
  destruct (Read bufSize rdr) as [[[|y b]|e] rdr1] eqn:Hr.
  - cbn [Scan_loop]. rewrite E, Hr. intros [= <- <-]. apply Nat.ltb_lt in E as E'. pose proof (Read_nothing _ _ _ (Hk ltac:(lia)) Hr).
    pose proof (Read_data _ _ _ _ Hr) as Hd. unfold scan_left, left_in. simpl. rewrite Hd. simpl. lia.
  - apply Nat.ltb_lt in E. rewrite (Scan_step bufSize limit f rdr buf (y :: b) rdr1) by done.
    pose proof (Read_data _ _ _ _ Hr) as Hd. pose proof (Read_length _ _ _ _ Hr) as Hl.
    destruct (split (buf ++ y :: b)) as [[l r]|] eqn:Hs.
    + intros [= <- <-]. unfold scan_left, left_in. simpl. split; [done|].
      apply split_sound, (f_equal length) in Hs. rewrite !length_app in Hs. simpl in Hs.
      rewrite Hd, length_app. simpl. lia.
    + intros Hop%IH; [|done]. eapply scan_left_mono; [|exact Hop]. unfold left_in. rewrite Hd, !length_app. lia.
  - cbn [Scan_loop]. rewrite E, Hr. intros [= <- <-]. unfold scan_left, left_in. simpl.
    apply Read_error in Hr as [(-> & -> & ->) | ->]; simpl; rewrite ?data_error; [left; split; [done|lia]|right; lia].
Qed.

Lemma Scan_left rdr b limit res rdr' : Scan rdr b limit = Some (res, rdr') -> scan_left b rdr limit res rdr'.
Proof.
  unfold Scan. destruct (split b) as [[l r]|] eqn:Hs.
  - intros [= <- <-]. unfold scan_left, left_in. simpl. split; [done|].
    apply split_sound, (f_equal length) in Hs. rewrite length_app in Hs. simpl in Hs. lia.
  - apply Scan_loop_left; [unfold readBufferSizeBytes; lia|done].
Qed.

(** The same for [Discard]. *)
Definition discard_left (b : bytes) (rdr : Reader) (res : discarded) (rdr' : Reader) : Prop :=
  let left' := left_in (default [] res.1) rdr' in
  match res.2 with
  | Some (ErrIO e) => e = EOF /\ left' <= left_in b rdr \/ left' < left_in b rdr
  | _ => left' < left_in b rdr
  end.

Lemma discard_left_mono b rdr b1 rdr1 res rdr' :
  left_in b1 rdr1 <= left_in b rdr -> discard_left b1 rdr1 res rdr' -> discard_left b rdr res rdr'.
Proof. unfold discard_left. intros Hle. repeat case_match; intuition (done || lia). Qed.

Lemma multi_Read_left b rdr c b' rdr' :
  multi_Read 1024 b rdr = (inl c, b', rdr') ->
  length c + left_in b' rdr' <= left_in b rdr /\ (c = [] -> left_in b' rdr' < left_in b rdr).
Proof.
  unfold multi_Read, left_in. destruct b as [|x b].
  - destruct (Read 1024 rdr) as [r rdr1] eqn:Hr. intros [= -> <- <-]. pose proof (Read_length _ _ _ _ Hr).
    rewrite (Read_data _ _ _ _ Hr), length_app. simpl. split; [lia|]. intros ->.
    pose proof (Read_nothing 1024 rdr rdr1 ltac:(lia) Hr). simpl. lia.
  - assert (0 < 1024) as Hk by lia. revert Hk. generalize 1024. intros k Hk [= <- <- <-].
    rewrite length_take, length_drop. split; [lia|]. destruct k; [lia|done].
Qed.

Lemma Discard_loop_left f b rdr cr res rdr' :
  Discard_loop f b rdr cr = Some (res, rdr') -> discard_left b rdr res rdr'.
Proof.
  revert b rdr cr. induction f as [|f IH]; intros b rdr cr; [done|]. cbn [Discard_loop].
  destruct (multi_Read 1024 b rdr) as [[[[|y c]|e] b1] rdr1] eqn:Hr.
  - intros [= <- <-]. destruct (multi_Read_left _ _ _ _ _ Hr) as [_ Hl]. specialize (Hl eq_refl).
    unfold discard_left, left_in in *. simpl. lia.
  - destruct (multi_Read_left _ _ _ _ _ Hr) as [Hl _]. destruct (cr && starts_LF (y :: c)).
    { intros [= <- <-]. unfold discard_left, left_in in *. simpl in *. lia. }
    destruct (split (y :: c)) as [[l r]|] eqn:Hs.
    + intros [= <- <-]. apply split_sound, (f_equal length) in Hs. rewrite length_app in Hs.
      unfold discard_left, left_in in *. simpl in *. lia.
    + intros Hop%IH. eapply discard_left_mono; [|exact Hop]. lia.
  - intros [= <- <-]. unfold multi_Read in Hr. destruct b as [|x b]; [|done].
    destruct (Read 1024 rdr) as [r rdr2] eqn:Hrd. injection Hr as -> <- ->. unfold discard_left, left_in. simpl.
    apply Read_error in Hrd as [(-> & -> & ->) | ->]; simpl; rewrite ?data_error; [left; split; [done|lia]|right; lia].
Qed.

Lemma Discard_loop_total f b rdr cr : length b + length (data rdr) < f -> exists res, Discard_loop f b rdr cr = Some res.
Proof.
  revert b rdr cr. induction f as [|f IH]; intros b rdr cr Hf; [lia|]. cbn [Discard_loop].
  destruct (multi_Read 1024 b rdr) as [[[[|y c]|e] b1] rdr1] eqn:Hr; [eauto| |eauto].
  destruct (cr && starts_LF (y :: c)); [eauto|]. destruct (split (y :: c)) as [[l r]|]; [eauto|]. apply IH.
  unfold multi_Read in Hr. destruct b as [|x b].
  - destruct (Read 1024 rdr) as [r rdr2] eqn:Hrd. injection Hr as -> <- ->. rewrite (Read_data _ _ _ _ Hrd), length_app in Hf.
    simpl in *. lia.
  - injection Hr as _ _ <- <-. rewrite length_drop. simpl in *. lia.
Qed.

Lemma Discard_left rdr b res rdr' : Discard rdr b = Some (res, rdr') -> discard_left b rdr res rdr'.
Proof. apply Discard_loop_left. Qed.
Lemma Discard_total rdr b : exists res, Discard rdr b = Some res.
Proof. apply Discard_loop_total. lia. Qed.
End reading.

(** * Dispatching *)
Section conn_spec.
Context {P : Type} `{CommandProcessor P} (clientID : ClientID) (uuid : nat -> string).
Implicit Types (c : Conn (P:=P)) (p : P).

(** The bytes written for a sequence of responses. *)
Fixpoint received (rs : list CmdResponse) : option bytes :=
  match rs with
  | [] => None
  | r :: rs' =>
    let w := match rs_Response r with Some b => line_of b | None => [] end in
    if rs_HasMore r then app w <$> received rs' else Some w
  end.

Lemma receive_spec rs c :
  receive rs c = match received rs with Some w => OK tt (set_out (c_out c ++ w) c) | None => DIVERGE end.
Proof.
  revert c. induction rs as [|r rs IH]; intros c; [done|]. cbn [receive received].
  set (w := match rs_Response r with Some b => line_of b | None => [] end).
  rewrite (bind_OK _ _ c tt (set_out (c_out c ++ w) c)).
  2: { unfold w. destruct (rs_Response r); [done|]. unfold ret. rewrite app_nil_r. by destruct c. }
  destruct (rs_HasMore r); [|done]. rewrite IH. destruct (received rs); [|done]. simpl. by rewrite <- app_assoc.
Qed.

(** What a command leads to: bytes written, the processor, the number of requests, and
    whether the connection stops. *)
Definition dispatched (cd : CmdData) (n : nat) (p : P) : option (bytes * P * nat * bool) :=
  match NewCmdRequest (uuid n) cd clientID with
  | inr ErrCmdNotFound => Some (word_of MsgUnknownCommand, p, n, false)
  | inr ErrBadFormat => Some (word_of MsgBadFormat, p, n, false)
  | inr _ => Some (word_of MsgInternalError, p, n, false)
  | inl req =>
    match DispatchRequest req p with
    | None => None
    | Some (rs, p') => (fun w => (w, p', S n, bool_decide (rq_CmdType req = Quit))) <$> received rs
    end
  end.

Definition done_with (w : bytes) (p : P) (n : nat) (q : bool) c : Conn :=
  mkConn (c_reader c) (if q then Stopped else c_state c) (c_buffer c) None p n (c_out c ++ w) (c_shut c).

Lemma dispatchCommand_spec c cd :
  c_lastCmd c = Some cd ->
  dispatchCommand clientID uuid c =
    match dispatched cd (c_requests c) (c_proc c) with
    | Some (w, p', n', q) => OK tt (done_with w p' n' q c)
    | None => DIVERGE
    end.
Proof.
  intros Hc. unfold dispatchCommand, dispatched. unfold gets, bind at 1. rewrite Hc. unfold gets, bind at 1.
  destruct (NewCmdRequest (uuid (c_requests c)) cd clientID) as [req|[]]; try done.
  unfold gets, bind at 1. unfold bind at 1. destruct (DispatchRequest req (c_proc c)) as [[rs p']|]; [|done].
  rewrite (bind_OK _ _ c tt (set_proc p' (S (c_requests c)) c)) by done. unfold bind at 1. rewrite receive_spec.
  destruct (received rs) as [w|]; [|done]. simpl. case_decide as Hq.
  - by rewrite bool_decide_eq_true_2.
  - by rewrite bool_decide_eq_false_2.
Qed.

(** * Every session comes to an end *)
Section ends.
(** The processor answers every request. *)
Hypothesis replies : forall req p, exists rs p' w, DispatchRequest req p = Some (rs, p') /\ received rs = Some w.

Lemma dispatched_total cd n p : exists r, dispatched cd n p = Some r.
Proof.
  unfold dispatched. destruct (NewCmdRequest (uuid n) cd clientID) as [req|[]]; try (by eexists).
  destruct (replies req p) as (rs & p' & w & -> & ->). by eexists.
Qed.

(** The states in which a turn starts. *)
Definition live c : Prop :=
  match c_state c with
  | WantCommand | WantEndLine | Close | Stopped => True
  | WantData => is_Some (c_lastCmd c)
  | _ => False
  end.
Definition left c : nat := left_in (default [] (c_buffer c)) (c_reader c).
Definition ending c : Prop := c_state c = Close \/ c_state c = Stopped.

(** A handler that runs when the state is [st]: afterwards less is left, or the
    connection ends, or (only for job data) the rest of the line must be skipped. *)
Definition handles (st : ConnState) (skip : bool) (h : M error (Conn (P:=P)) unit) : Prop :=
  (forall c, c_state c <> st -> h c = OK tt c) /\
  (forall c, live c -> c_state c = st -> exists c', h c = OK tt c' /\ live c' /\ left c' <= left c /\
     (left c' < left c \/ ending c' \/ skip = true /\ c_state c' = WantEndLine)).
Lemma handle c st skip h :
  handles st skip h -> live c ->
  exists c', h c = OK tt c' /\ live c' /\ left c' <= left c /\
    (c_state c <> st /\ c' = c \/
     c_state c = st /\ (left c' < left c \/ ending c' \/ skip = true /\ c_state c' = WantEndLine)).
Proof.
  intros [Hs Hh] Hl. destruct (decide (c_state c = st)) as [E|E].
  - destruct (Hh c Hl E) as (c' & ? & ? & ? & ?). exists c'. auto 10.
  - exists c. rewrite (Hs c E). auto 10.
Qed.

Lemma dispatch_ends c cd :
  c_lastCmd c = Some cd -> (c_state c <> WantData) -> live c ->
  exists c', dispatchCommand clientID uuid c = OK tt c' /\ live c' /\ left c' = left c /\
    (c_state c' = Stopped \/ c_state c' = c_state c) /\ (cd_CmdType cd = Quit -> c_state c' = Stopped).
Proof.
  intros Hc Hd Hl. rewrite (dispatchCommand_spec c cd Hc).
  destruct (dispatched_total cd (c_requests c) (c_proc c)) as [[[[w p'] n'] q] Hr]. rewrite Hr.
  eexists. split; [done|]. split_and!; [|done|destruct q; auto|].
  - unfold live in *. destruct q; simpl; [done|]. by destruct (c_state c).
  - intros Hq. unfold dispatched, NewCmdRequest in Hr. rewrite Hq in Hr. cbn -[DispatchRequest] in Hr.
    destruct (DispatchRequest _ _) as [[rs p2]|]; [|done]. destruct (received rs); [|done].
    simpl in Hr. by injection Hr as _ _ _ <-.
Qed.

Lemma run_gets {A B} (f : Conn (P:=P) -> A) (k : A -> M error Conn B) c : bind (gets f) k c = k (f c) c.
Proof. done. Qed.
Lemma run_scan {A B} f (k : A -> M error (Conn (P:=P)) B) c r rdr :
  f (c_reader c) (default [] (c_buffer c)) = Some (r, rdr) -> bind (scan f) k c = k r (set_input rdr (c_buffer c) c).
Proof. intros Hf. unfold bind, scan. by rewrite Hf. Qed.
Lemma run_modify {B} f (k : unit -> M error (Conn (P:=P)) B) c : bind (modify f) k c = k tt (f c).
Proof. done. Qed.

Lemma close_stops c :
  live c -> exists c', close clientID uuid c = OK tt c' /\ live c' /\ left c' <= left c /\
    c_state c' = (if decide (c_state c = Close) then Stopped else c_state c) /\ c_state c' <> Close.
Proof.
  intros Hl. unfold close. rewrite run_gets. destruct (decide (c_state c = Close)) as [Hst|Hst].
  2: { rewrite decide_True by done. by exists c. }
  rewrite decide_False by (by intros Hn). rewrite run_modify.
  destruct (dispatch_ends (set_lastCmd (Some (mkCmdData Quit "" None false)) c) (mkCmdData Quit "" None false))
    as (c' & Hop & Hl' & Hle & _ & Hq); [done|simpl; by rewrite Hst|unfold live; simpl; by rewrite Hst|].
  exists c'. rewrite (Hq eq_refl). split_and!; [done|done|unfold left in *; simpl in Hle; by rewrite Hle|done|done].
Qed.

(** Close one case of a handler: nothing but the state and the output changed. *)
Ltac quiet := cbv beta iota zeta in *; eexists; split; [done|]; simpl;
  repeat match goal with E : c_state _ = _ |- _ => rewrite E | E : c_lastCmd _ = _ |- _ => rewrite E end;
  split_and!; [first [done | by eexists]|lia|first [left; lia | auto]].

Lemma wantEndLine_handles : handles WantEndLine false wantEndLine.
Proof.
  split; intros c; [intros Hn; unfold wantEndLine; rewrite run_gets; by rewrite decide_True|].
  intros Hl Hst. unfold wantEndLine. rewrite run_gets, decide_False by (by intros Hn).
  destruct (Discard_total (c_reader c) (default [] (c_buffer c))) as [[[buf err] rdr] Hd].
  rewrite (run_scan _ _ _ _ _ Hd). unfold set_buffer. rewrite run_modify. apply Discard_left in Hd. unfold discard_left in Hd.
  cbn [fst snd] in *. unfold left, live, ending.
  destruct err as [[| |e]|]; try (eexists; split; [done|]; simpl; rewrite ?Hst; split_and!; [done|lia|auto]).
  destruct (String.eqb_spec e EOF); eexists; (split; [done|]); simpl; rewrite ?Hst; split_and!; try done; try lia; auto.
  all: destruct Hd as [[? ?]|?]; [done|auto].
Qed.

Lemma wantData_handles : handles WantData true (wantData clientID uuid).
Proof.
  split; intros c; [intros Hn; unfold wantData; rewrite run_gets; by rewrite decide_True|].
  intros Hl Hst. unfold wantData. rewrite run_gets, decide_False by (by intros Hn). rewrite run_gets.
  unfold live in Hl. rewrite Hst in Hl. destruct (c_lastCmd c) as [cd|] eqn:Hc; [|by destruct Hl].
  destruct (Scan_total (c_reader c) (default [] (c_buffer c)) (Z.to_nat MaxJobDataSize)) as [[[[lhs buf] err] rdr] Hs].
  rewrite (run_scan _ _ _ _ _ Hs). unfold set_buffer. rewrite run_modify. apply Scan_left in Hs. unfold scan_left in Hs.
  cbn [fst snd] in *. unfold left, live, ending in *.
  destruct err as [[| |e]|]; [by quiet|by quiet| |].
  - destruct (String.eqb_spec e EOF) as [->|Hne]; [by quiet|].
    eexists; (split; [done|]); simpl; rewrite ?Hst, ?Hc. split_and!; [done|lia|]. left. destruct Hs as [[? ?]|?]; [done|lia].
  - rewrite run_modify. set (c1 := set_lastCmd _ _). unfold bind. rewrite (dispatchCommand_spec c1 _ eq_refl).
    destruct (dispatched_total (mkCmdData (cd_CmdType cd) (cd_Args cd) lhs (cd_NeedData cd)) (c_requests c1) (c_proc c1))
      as [[[[w p'] n'] q] ->]. by quiet.
Qed.

Lemma wantCommand_handles : handles WantCommand false (wantCommand clientID uuid).
Proof.
  split; intros c; [intros Hn; unfold wantCommand; rewrite run_gets; by rewrite decide_True|].
  intros Hl Hst. unfold wantCommand. rewrite run_gets, decide_False by (by intros Hn).
  destruct (Scan_total (c_reader c) (default [] (c_buffer c)) MaxCmdSizeBytes) as [[[[lhs buf] err] rdr] Hs].
  rewrite (run_scan _ _ _ _ _ Hs). unfold set_buffer. rewrite run_modify. apply Scan_left in Hs. unfold scan_left in Hs.
  cbn [fst snd] in *. unfold left, live, ending in *. assert (0 < MaxCmdSizeBytes) as Hm by (unfold MaxCmdSizeBytes; lia).
  destruct err as [[| |e]|]; [by quiet|by quiet| |].
  - destruct (String.eqb_spec e EOF) as [->|Hne]; [by quiet|].
    eexists; (split; [done|]); simpl; rewrite ?Hst. split_and!; [done|lia|]. left. destruct Hs as [[? ?]|?]; [done|lia].
  - destruct Hs as [_ Hs]. destruct (ParseCommandLine _ _) as [cd|[]]; try (by quiet).
    rewrite run_modify. destruct (cd_NeedData cd); [by quiet|]. set (c1 := set_lastCmd _ _).
    destruct (dispatch_ends c1 cd) as (c' & Hop & Hl' & Hle & _ & _);
      [done|simpl; by rewrite Hst|unfold live; simpl; by rewrite Hst|].
    exists c'. unfold left in Hle. simpl in Hle. split_and!; [done|exact Hl'|lia|left; lia].
Qed.

(** A turn makes progress. *)
Lemma turn_progress c :
  live c -> c_state c <> Stopped ->
  exists c', turn clientID uuid c = OK tt c' /\ live c' /\
    (c_state c' = Stopped /\ c_shut c' = true \/ c_state c' <> Stopped /\ left c' < left c).
Proof.
  intros Hl Hns.
  destruct (handle c _ _ _ wantCommand_handles Hl) as (c1 & H1 & L1 & E1 & D1).
  destruct (handle c1 _ _ _ wantData_handles L1) as (c2 & H2 & L2 & E2 & D2).
  destruct (handle c2 _ _ _ wantEndLine_handles L2) as (c3 & H3 & L3 & E3 & D3).
  assert (left c3 < left c \/ ending c3) as Hp.
  { destruct D1 as [[N1 ->]|[S1 [D1|[D1|[? _]]]]]; [|left; lia| |done].
    - destruct D2 as [[N2 ->]|[S2 [D2|[D2|[_ D2]]]]]; [|left; lia| |].
      + destruct D3 as [[N3 ->]|[S3 [D3|[D3|[? _]]]]]; [|auto..|done]. right. unfold live, ending in *.
        destruct (c_state c); try done; auto.
      + destruct D3 as [[_ ->]|[S3 _]]; [by right|]. by destruct D2; congruence.
      + destruct D3 as [[N3 ->]|[_ [D3|[D3|[? _]]]]]; [done|left; lia|by right|done].
    - destruct D2 as [[_ ->]|[S2 _]]; [|by destruct D1; congruence].
      destruct D3 as [[_ ->]|[S3 _]]; [by right|]. by destruct D1; congruence. }
  destruct (close_stops c3 L3) as (c4 & H4 & L4 & E4 & S4 & N4).
  unfold turn. rewrite (bind_OK _ _ _ _ _ H1), (bind_OK _ _ _ _ _ H2), (bind_OK _ _ _ _ _ H3), (bind_OK _ _ _ _ _ H4).
  unfold stop. rewrite run_gets. destruct (decide (c_state c4 = Stopped)) as [E|E].
  - rewrite decide_False by (by intros ?). eexists. split; [done|]. split; [unfold live; simpl; by rewrite E|]. by left.
  - rewrite decide_True by done. exists c4. split_and!; [done|done|]. right. split; [done|].
    destruct Hp as [Hp|[Hp|Hp]]; [lia| |]; rewrite Hp in S4; by case_decide.
Qed.

Lemma Tick_loop_ends k c :
  live c -> left c < k -> c_state c <> Stopped ->
  exists c', Tick_loop clientID uuid k c = OK tt c' /\ c_state c' = Stopped /\ c_shut c' = true.
Proof.
  revert c. induction k as [|k IH]; intros c Hl Hk Hst; [lia|]. cbn [Tick_loop]. rewrite run_gets, decide_False by done.
  destruct (turn_progress c Hl Hst) as (c1 & H1 & L1 & D1). rewrite (bind_OK _ _ _ _ _ H1).
  destruct D1 as [[Hs Hc]|[Hs Hc]].
  - exists c1. destruct k; cbn [Tick_loop]; rewrite run_gets; by rewrite decide_True.
  - apply IH; [done|lia|done].
Qed.
End ends.

(** * The session that the bytes determine *)

(** The client is gone: the connection says goodbye for it. *)
Definition hang_up (w : bytes) (n : nat) (p : P) : option (bytes * P) :=
  match dispatched (mkCmdData Quit "" None false) n p with Some (w', p', _, _) => Some (w ++ w', p') | None => None end.

(** What is written, and the processor afterwards, when the bytes [b] arrive and then
    the stream ends; not defined when a line or a job is longer than its limit (what
    happens then depends on the reads), or when more than 1024 bytes follow a job that was
    announced as too big. *)
Fixpoint session (fuel : nat) (b : bytes) (n : nat) (p : P) : option (bytes * P) :=
  match fuel with
  | O => None
  | S f =>
    let go_on w b n p := match session f b n p with Some (w', p') => Some (w ++ w', p') | None => None end in
    match split b with
    | None => hang_up (if length b <? MaxCmdSizeBytes then [] else word_of MsgBadFormat) n p
    | Some (l, rest) =>
      if MaxCmdSizeBytes <? length l + 2 then None else
      match ParseCommandLine (String.string_of_list_byte l) MaxJobDataSize with
      | inr (ErrCmdNotFound | ErrCmdTokensMissing) => go_on (word_of MsgBadFormat) rest n p
      | inr ErrJobSizeTooBig =>
        if 1024 <? length rest then None else
        match split rest with
        | Some (_, rest') => go_on (word_of MsgJobTooBig) rest' n p
        | None => hang_up (word_of MsgJobTooBig) n p
        end
      | inr ErrBadFormat => go_on (word_of MsgInternalError) rest n p
      | inl cd =>
        if cd_NeedData cd then
          match split rest with
          | None => hang_up (if length rest <? Z.to_nat MaxJobDataSize then [] else word_of MsgExpectCRLF) n p
          | Some (d, rest') =>
            if Z.to_nat MaxJobDataSize <? length d + 2 then None else
            match dispatched (mkCmdData (cd_CmdType cd) (cd_Args cd) (Some d) (cd_NeedData cd)) n p with
            | Some (w, p', n', _) => go_on w rest' n' p'
            | None => None
            end
          end
        else
          match dispatched cd n p with
          | Some (w, p', n', true) => Some (w, p')
          | Some (w, p', n', false) => go_on w rest n' p'
          | None => None
          end
      end
    end
  end.

(** The connection waits for a command, with [b] to come. *)
Record at_line (c : Conn (P:=P)) (b : bytes) (n : nat) (p : P) (out : bytes) : Prop := {
  al_state : c_state c = WantCommand;
  al_bytes : default [] (c_buffer c) ++ data (c_reader c) = b;
  al_steady : steady (c_reader c);
  al_n : c_requests c = n;
  al_p : c_proc c = p;
  al_out : c_out c = out
}.
Definition stopped c p out : Prop := c_state c = Stopped /\ c_shut c = true /\ c_proc c = p /\ c_out c = out.

(** ** Handlers that do not apply *)
Lemma skip_data c : c_state c <> WantData -> wantData clientID uuid c = OK tt c.
Proof. intros Hn. unfold wantData. rewrite run_gets. by rewrite decide_True. Qed.
Lemma skip_line c : c_state c <> WantEndLine -> wantEndLine c = OK tt c.
Proof. intros Hn. unfold wantEndLine. rewrite run_gets. by rewrite decide_True. Qed.
Lemma skip_close c : c_state c <> Close -> close clientID uuid c = OK tt c.
Proof. intros Hn. unfold close. rewrite run_gets. by rewrite decide_True. Qed.
Lemma skip_stop c : c_state c <> Stopped -> stop c = OK tt c.
Proof. intros Hn. unfold stop. rewrite run_gets. by rewrite decide_True. Qed.

(** ** Parts of a turn *)
Lemma stop_stopped c p out : c_state c = Stopped -> c_proc c = p -> c_out c = out -> exists c', stop c = OK tt c' /\ stopped c' p out.
Proof.
  intros Hst Hp Ho. unfold stop. rewrite run_gets, decide_False by (by intros ?). eexists. split; [done|]. by split_and!.
Qed.

Lemma close_hangs_up c w p' :
  c_state c = Close -> hang_up [] (c_requests c) (c_proc c) = Some (w, p') ->
  exists c', (close clientID uuid ;; stop) c = OK tt c' /\ stopped c' p' (c_out c ++ w).
Proof.
  intros Hst Hh. unfold hang_up in Hh. set (cd := mkCmdData Quit "" None false) in *.
  destruct (dispatched cd (c_requests c) (c_proc c)) as [[[[w1 p1] n1] q]|] eqn:Hd; [|done]. injection Hh as -> ->.
  assert (q = true) as ->.
  { unfold dispatched, NewCmdRequest in Hd. simpl in Hd. destruct (DispatchRequest _ _) as [[rs p2]|]; [|done].
    destruct (received rs); [|done]. simpl in Hd. by injection Hd. }
  assert (close clientID uuid c = OK tt (done_with w p' n1 true (set_lastCmd (Some cd) c))) as Hc.
  { unfold close. rewrite run_gets, decide_False by (by intros ?). rewrite run_modify. fold cd.
    rewrite (dispatchCommand_spec (set_lastCmd (Some cd) c) cd eq_refl). cbn [c_requests c_proc set_lastCmd]. by rewrite Hd. }
  rewrite (bind_OK _ _ _ _ _ Hc). by apply stop_stopped.
Qed.

Lemma skip_to_end c :
  c_state c = WantEndLine -> steady (c_reader c) -> length (default [] (c_buffer c)) <= 1024 ->
  split (default [] (c_buffer c) ++ data (c_reader c)) = None ->
  exists c', wantEndLine c = OK tt c' /\ c_state c' = Close /\ c_requests c' = c_requests c /\ c_proc c' = c_proc c /\
    c_out c' = c_out c.
Proof.
  intros Hst Hr Hb Hs. pose proof (Discard_spec _ _ Hr Hb) as Hd. rewrite Hs in Hd. destruct Hd as [rdr' Hd].
  unfold wantEndLine. rewrite run_gets, decide_False by (by intros ?). rewrite (run_scan _ _ _ _ _ Hd).
  eexists. split; [done|]. done.
Qed.

Lemma skip_to_line c l rest :
  c_state c = WantEndLine -> steady (c_reader c) -> length (default [] (c_buffer c)) <= 1024 ->
  split (default [] (c_buffer c) ++ data (c_reader c)) = Some (l, rest) ->
  exists c', wantEndLine c = OK tt c' /\ at_line c' rest (c_requests c) (c_proc c) (c_out c).
Proof.
  intros Hst Hr Hb Hs. pose proof (Discard_spec _ _ Hr Hb) as Hd. rewrite Hs in Hd. destruct Hd as (rhs & rdr' & Hd & Hrest & Hr').
  unfold wantEndLine. rewrite run_gets, decide_False by (by intros ?). rewrite (run_scan _ _ _ _ _ Hd).
  eexists. split; [done|]. by split.
Qed.

(** A turn that ends where it began, or stops. *)
Definition turns_to c b n p out : Prop := exists c', turn clientID uuid c = OK tt c' /\ at_line c' b n p out.
Definition turns_off c p out : Prop := exists c', turn clientID uuid c = OK tt c' /\ stopped c' p out.

(** The rest of a turn after [wantCommand]. *)
Lemma rest_waits c c1 b n p out :
  wantCommand clientID uuid c = OK tt c1 -> at_line c1 b n p out -> turns_to c b n p out.
Proof.
  intros Hw Ha. exists c1. split; [|done]. unfold turn. rewrite (bind_OK _ _ _ _ _ Hw). destruct Ha as [Hst _ _ _ _ _].
  rewrite (bind_OK _ _ _ _ _ (skip_data c1 ltac:(by rewrite Hst))), (bind_OK _ _ _ _ _ (skip_line c1 ltac:(by rewrite Hst))).
  rewrite (bind_OK _ _ _ _ _ (skip_close c1 ltac:(by rewrite Hst))). apply skip_stop. by rewrite Hst.
Qed.

Lemma rest_stops c c1 p out :
  wantCommand clientID uuid c = OK tt c1 -> c_state c1 = Stopped -> c_proc c1 = p -> c_out c1 = out -> turns_off c p out.
Proof.
  intros Hw Hst Hp Ho. destruct (stop_stopped c1 p out Hst Hp Ho) as (c2 & Hs & Hc). exists c2. split; [|done].
  unfold turn. rewrite (bind_OK _ _ _ _ _ Hw).
  rewrite (bind_OK _ _ _ _ _ (skip_data c1 ltac:(by rewrite Hst))), (bind_OK _ _ _ _ _ (skip_line c1 ltac:(by rewrite Hst))).
  by rewrite (bind_OK _ _ _ _ _ (skip_close c1 ltac:(by rewrite Hst))).
Qed.

(** ... after [wantData]. *)
Lemma then_skips c c1 l rest :
  wantCommand clientID uuid c = OK tt c1 -> c_state c1 = WantEndLine -> steady (c_reader c1) ->
  length (default [] (c_buffer c1)) <= 1024 -> split (default [] (c_buffer c1) ++ data (c_reader c1)) = Some (l, rest) ->
  turns_to c rest (c_requests c1) (c_proc c1) (c_out c1).
Proof.
  intros Hw Hst Hr Hb Hs. destruct (skip_to_line c1 l rest Hst Hr Hb Hs) as (c2 & H2 & Ha). exists c2. split; [|done].
  unfold turn. rewrite (bind_OK _ _ _ _ _ Hw).
  rewrite (bind_OK _ _ _ _ _ (skip_data c1 ltac:(by rewrite Hst))), (bind_OK _ _ _ _ _ H2). destruct Ha as [Hst2 _ _ _ _ _].
  rewrite (bind_OK _ _ _ _ _ (skip_close c2 ltac:(by rewrite Hst2))). apply skip_stop. by rewrite Hst2.
Qed.

(** Before [close] the connection is in state [Close], or it skips to the end of the stream. *)
Definition dying c : Prop :=
  c_state c = Close \/
  c_state c = WantEndLine /\ steady (c_reader c) /\ length (default [] (c_buffer c)) <= 1024 /\
    split (default [] (c_buffer c) ++ data (c_reader c)) = None.

Lemma dying_hangs_up c w p' :
  dying c -> hang_up [] (c_requests c) (c_proc c) = Some (w, p') ->
  exists c', (wantEndLine ;; close clientID uuid ;; stop) c = OK tt c' /\ stopped c' p' (c_out c ++ w).
Proof.
  intros Hd Hh. destruct Hd as [Hst|(Hst & Hr & Hb & Hs)].
  - rewrite (bind_OK _ _ _ _ _ (skip_line c ltac:(by rewrite Hst))). by apply close_hangs_up.
  - destruct (skip_to_end c Hst Hr Hb Hs) as (c1 & H1 & Hst1 & En & Ep & Eo). rewrite (bind_OK _ _ _ _ _ H1).
    rewrite <- Eo. apply close_hangs_up; [done|]. by rewrite En, Ep.
Qed.

Lemma command_dies c c1 w p' :
  wantCommand clientID uuid c = OK tt c1 -> dying c1 -> hang_up [] (c_requests c1) (c_proc c1) = Some (w, p') ->
  turns_off c p' (c_out c1 ++ w).
Proof.
  intros Hw Hd Hh. destruct (dying_hangs_up c1 w p' Hd Hh) as (c2 & H2 & Hs). exists c2. split; [|done].
  unfold turn. rewrite (bind_OK _ _ _ _ _ Hw). rewrite (bind_OK _ _ _ _ _ (skip_data c1 ltac:(by destruct Hd as [->|[-> _]]))).
  done.
Qed.

Lemma data_dies c c1 c2 w p' :
  wantCommand clientID uuid c = OK tt c1 -> wantData clientID uuid c1 = OK tt c2 -> dying c2 ->
  hang_up [] (c_requests c2) (c_proc c2) = Some (w, p') -> turns_off c p' (c_out c2 ++ w).
Proof.
  intros Hw Hw2 Hd Hh. destruct (dying_hangs_up c2 w p' Hd Hh) as (c3 & H3 & Hs). exists c3. split; [|done].
  unfold turn. by rewrite (bind_OK _ _ _ _ _ Hw), (bind_OK _ _ _ _ _ Hw2).
Qed.

Lemma hang_up_app w n p w' p' : hang_up w n p = Some (w', p') -> exists w1, hang_up [] n p = Some (w1, p') /\ w' = w ++ w1.
Proof. unfold hang_up. destruct (dispatched _ n p) as [[[[w1 p1] n1] q]|]; [|done]. intros [= <- <-]. eauto. Qed.

(** What [wantCommand] does with a line. *)
Definition on_line (l : bytes) : M error (Conn (P:=P)) unit :=
  match ParseCommandLine (String.string_of_list_byte l) MaxJobDataSize with
  | inr (ErrCmdNotFound | ErrCmdTokensMissing) => reply MsgBadFormat
  | inr ErrJobSizeTooBig => reply MsgJobTooBig ;; modify (set_state WantEndLine)
  | inr _ => reply MsgInternalError
  | inl cmdData =>
    modify (set_lastCmd (Some cmdData)) ;;
    if cd_NeedData cmdData then modify (set_state WantData) else dispatchCommand clientID uuid
  end.

Lemma wantCommand_line c b n p out l rest :
  at_line c b n p out -> split b = Some (l, rest) -> length l + 2 <= MaxCmdSizeBytes ->
  exists c1, at_line c1 rest n p out /\ wantCommand clientID uuid c = on_line l c1.
Proof.
  intros [Hst Hb Hs Hn Hp Ho] Hsp Hl. rewrite <- Hb in Hsp.
  destruct (Scan_complete _ _ MaxCmdSizeBytes l rest Hs Hsp Hl) as (rhs & rdr' & Hop & Hrest & Hs').
  exists (set_input rdr' (Some rhs) c). split; [by split|].
  unfold wantCommand. rewrite run_gets, decide_False by (by intros ?). by rewrite (run_scan _ _ _ _ _ Hop).
Qed.

Lemma wantCommand_end c b n p out :
  at_line c b n p out -> split b = None ->
  exists c1, wantCommand clientID uuid c = OK tt c1 /\ dying c1 /\ c_requests c1 = n /\ c_proc c1 = p /\
    c_out c1 = out ++ (if length b <? MaxCmdSizeBytes then [] else word_of MsgBadFormat).
Proof.
  intros [Hst Hb Hs Hn Hp Ho] Hsp. rewrite <- Hb in Hsp.
  pose proof (Scan_none (c_reader c) (default [] (c_buffer c)) MaxCmdSizeBytes Hs Hsp) as Hop. rewrite Hb in Hop.
  unfold wantCommand. rewrite run_gets, decide_False by (by intros ?).
  destruct (length b <? MaxCmdSizeBytes).
  - rewrite (run_scan _ _ _ _ _ Hop). eexists. split; [done|]. split; [by left|]. rewrite app_nil_r. done.
  - destruct Hop as (rdr' & x & Hop & Hs' & Hd). rewrite (run_scan _ _ _ _ _ Hop). eexists. split; [done|].
    split; [|by simpl; rewrite <- Ho]. right. split_and!; [done|done|simpl; lia|]. simpl.
    rewrite Hd, app_assoc in Hsp. by apply split_suffix in Hsp.
Qed.

Lemma wantData_end c b cd :
  c_state c = WantData -> c_lastCmd c = Some cd -> default [] (c_buffer c) ++ data (c_reader c) = b ->
  steady (c_reader c) -> split b = None ->
  exists c1, wantData clientID uuid c = OK tt c1 /\ dying c1 /\ c_requests c1 = c_requests c /\ c_proc c1 = c_proc c /\
    c_out c1 = c_out c ++ (if length b <? Z.to_nat MaxJobDataSize then [] else word_of MsgExpectCRLF).
Proof.
  intros Hst Hc Hb Hs Hsp. rewrite <- Hb in Hsp.
  pose proof (Scan_none (c_reader c) (default [] (c_buffer c)) (Z.to_nat MaxJobDataSize) Hs Hsp) as Hop. rewrite Hb in Hop.
  unfold wantData. rewrite run_gets, decide_False by (by intros ?). rewrite run_gets, Hc.
  destruct (length b <? Z.to_nat MaxJobDataSize).
  - rewrite (run_scan _ _ _ _ _ Hop). eexists. split; [done|]. split; [by left|]. rewrite app_nil_r. done.
  - destruct Hop as (rdr' & x & Hop & Hs' & Hd). rewrite (run_scan _ _ _ _ _ Hop). eexists. split; [done|].
    split; [|done]. right. split_and!; [done|done|simpl; lia|]. simpl.
    rewrite Hd, app_assoc in Hsp. by apply split_suffix in Hsp.
Qed.

Lemma wantData_job c b cd d rest w p' n' q :
  c_state c = WantData -> c_lastCmd c = Some cd -> default [] (c_buffer c) ++ data (c_reader c) = b ->
  steady (c_reader c) -> split b = Some (d, rest) -> length d + 2 <= Z.to_nat MaxJobDataSize ->
  dispatched (mkCmdData (cd_CmdType cd) (cd_Args cd) (Some d) (cd_NeedData cd)) (c_requests c) (c_proc c) = Some (w, p', n', q) ->
  exists c1, wantData clientID uuid c = OK tt c1 /\ at_line c1 rest n' p' (c_out c ++ w).
Proof.
  intros Hst Hc Hb Hs Hsp Hl Hd. rewrite <- Hb in Hsp.
  destruct (Scan_complete _ _ _ d rest Hs Hsp Hl) as (rhs & rdr' & Hop & Hrest & Hs').
  unfold wantData. rewrite run_gets, decide_False by (by intros ?). rewrite run_gets, Hc.
  rewrite (run_scan _ _ _ _ _ Hop). unfold set_buffer. rewrite run_modify. cbn [fst snd].
  rewrite run_modify. set (cd' := mkCmdData _ _ _ _) in *. set (c1 := set_lastCmd _ _). unfold bind.
  rewrite (dispatchCommand_spec c1 cd' eq_refl). change (c_requests c1) with (c_requests c). change (c_proc c1) with (c_proc c).
  rewrite Hd. eexists. split; [done|]. by split.
Qed.

(** One step of a session is one turn of the connection. *)
Lemma data_waits c c1 c2 b n p out :
  wantCommand clientID uuid c = OK tt c1 -> wantData clientID uuid c1 = OK tt c2 -> at_line c2 b n p out ->
  turns_to c b n p out.
Proof.
  intros Hw Hd Ha. exists c2. split; [|done]. unfold turn. rewrite (bind_OK _ _ _ _ _ Hw), (bind_OK _ _ _ _ _ Hd).
  destruct Ha as [Hst _ _ _ _ _]. rewrite (bind_OK _ _ _ _ _ (skip_line c2 ltac:(by rewrite Hst))).
  rewrite (bind_OK _ _ _ _ _ (skip_close c2 ltac:(by rewrite Hst))). apply skip_stop. by rewrite Hst.
Qed.

(** A turn that goes on is a turn of the session followed by the session's rest. *)
Lemma session_goes_on f c out w0 b0 n0 p0 w p' :
  turns_to c b0 n0 p0 (out ++ w0) ->
  match session f b0 n0 p0 with Some (w', p') => Some (w0 ++ w', p') | None => None end = Some (w, p') ->
  exists b1 n1 p1 w1 w2, turns_to c b1 n1 p1 (out ++ w1) /\ session f b1 n1 p1 = Some (w2, p') /\ w = w1 ++ w2.
Proof.
  intros Ht Hs. destruct (session f b0 n0 p0) as [[w2 p2]|] eqn:E; [|done]. injection Hs as <- <-. eauto 10.
Qed.

Lemma session_turn f b n p w p' c out :
  session (S f) b n p = Some (w, p') -> at_line c b n p out ->
  turns_off c p' (out ++ w) \/
  exists b1 n1 p1 w1 w2, turns_to c b1 n1 p1 (out ++ w1) /\ session f b1 n1 p1 = Some (w2, p') /\ w = w1 ++ w2.
Proof.
  intros Hse Ha. cbn [session] in Hse. destruct (split b) as [[l rest]|] eqn:Hsp.
  2: { left. destruct (wantCommand_end c b n p out Ha Hsp) as (c1 & Hw & Hd & En & Ep & Eo).
       apply hang_up_app in Hse as (w1 & Hh & ->). rewrite app_assoc, <- Eo. apply (command_dies c c1); [done|done|].
       by rewrite En, Ep. }
  destruct (MaxCmdSizeBytes <? length l + 2) eqn:Hlim; [done|]. apply Nat.ltb_ge in Hlim.
  destruct (wantCommand_line c b n p out l rest Ha Hsp Hlim) as (c1 & Ha1 & Hw). unfold on_line in Hw.
  pose proof Ha1 as [Hst1 Hb1 Hs1 Hn1 Hp1 Ho1].
  destruct (ParseCommandLine _ _) as [cd|[]].
  - rewrite run_modify in Hw. destruct (cd_NeedData cd) eqn:Hnd.
    + set (c2 := set_state WantData (set_lastCmd (Some cd) c1)) in *. change (wantCommand clientID uuid c = OK tt c2) in Hw.
      destruct (split rest) as [[d rest']|] eqn:Hsp2.
      * destruct (Z.to_nat MaxJobDataSize <? length d + 2) eqn:Hl2; [done|]. apply Nat.ltb_ge in Hl2.
        destruct (dispatched _ n p) as [[[[w1 p1] n1] q]|] eqn:Hd; [|done]. right.
        destruct (wantData_job c2 rest cd d rest' w1 p1 n1 q) as (c3 & Hw3 & Ha3); try done.
        { unfold c2. simpl. by rewrite Hnd, Hn1, Hp1. }
        eapply session_goes_on; [|exact Hse]. eapply data_waits; [exact Hw|exact Hw3|]. by rewrite <- Ho1.
      * left. destruct (wantData_end c2 rest cd) as (c3 & Hw3 & Hd & En & Ep & Eo); try done.
        apply hang_up_app in Hse as (w1 & Hh & ->).
        replace (out ++ _ ++ w1) with (c_out c3 ++ w1) by (rewrite Eo, <- app_assoc; simpl; by rewrite Ho1).
        eapply data_dies; [done..|]. rewrite En, Ep. simpl. by rewrite Hn1, Hp1.
    + rewrite (dispatchCommand_spec (set_lastCmd (Some cd) c1) cd eq_refl) in Hw. simpl in Hw. rewrite Hn1, Hp1 in Hw.
      destruct (dispatched cd n p) as [[[[w1 p1] n1] []]|]; [| |done].
      * left. injection Hse as <- <-. eapply rest_stops; [exact Hw|done|done|]. simpl. by rewrite Ho1.
      * right. eapply session_goes_on; [|exact Hse]. eapply rest_waits; [exact Hw|]. split; simpl; try done. by rewrite Ho1.
  - right. eapply session_goes_on; [|exact Hse]. eapply rest_waits; [exact Hw|]. split; simpl; try done. by rewrite Ho1.
  - destruct (1024 <? length rest) eqn:Hlr; [done|]. apply Nat.ltb_ge in Hlr.
    set (c2 := set_state WantEndLine (set_out (c_out c1 ++ word_of MsgJobTooBig) c1)).
    change (wantCommand clientID uuid c = OK tt c2) in Hw.
    assert (length (default [] (c_buffer c1)) <= 1024) as Hbuf.
    { rewrite <- Hb1, length_app in Hlr. lia. }
    destruct (split rest) as [[d rest']|] eqn:Hsp2.
    + right. eapply session_goes_on; [|exact Hse]. rewrite <- Ho1, <- Hn1, <- Hp1. apply (then_skips c c2 d); try done. simpl. by rewrite Hb1.
    + left. apply hang_up_app in Hse as (w1 & Hh & ->). rewrite app_assoc, <- Ho1. apply (command_dies c c2); [done| |].
      * right. split_and!; [done|done|done|]. simpl. by rewrite Hb1.
      * simpl. by rewrite Hn1, Hp1.
  - right. eapply session_goes_on; [|exact Hse]. eapply rest_waits; [exact Hw|]. split; simpl; try done. by rewrite Ho1.
  - right. eapply session_goes_on; [|exact Hse]. eapply rest_waits; [exact Hw|]. split; simpl; try done. by rewrite Ho1.
Qed.

Lemma Tick_loop_session f k b n p w p' c out :
  f <= k -> session f b n p = Some (w, p') -> at_line c b n p out ->
  exists c', Tick_loop clientID uuid k c = OK tt c' /\ stopped c' p' (out ++ w).
Proof.
  revert k b n p w c out. induction f as [|f IH]; intros k b n p w c out Hk Hse Ha; [done|].
  destruct k as [|k]; [lia|]. cbn [Tick_loop]. rewrite run_gets, decide_False by (by rewrite (al_state _ _ _ _ _ Ha)).
  destruct (session_turn f b n p w p' c out Hse Ha) as [(c1 & Ht & Hs)|(b1 & n1 & p1 & w1 & w2 & (c1 & Ht & Ha1) & Hs & ->)];
    rewrite (bind_OK _ _ _ _ _ Ht).
  - exists c1. split; [|done]. destruct Hs as [Hst _]. destruct k; cbn [Tick_loop]; rewrite run_gets; by rewrite decide_True.
  - rewrite app_assoc. apply (IH k b1 n1 p1); [lia|done|done].
Qed.
End conn_spec.
