(* ===== verification/Server.v ===== *)
(** The command processor as a connection sees it: [cmdProcessor.Run] of
    [src/beanstalkd/core/cmd_proc.go] serving one connection.

    The processor handles a request, and while the client waits for a reservation the
    ticker fires.  The readings of the clock and the times of the ticks are given. *)
From stdpp Require Import base gmap list strings.
From Stdlib Require Import ZArith Lia.
From S2P Require Import Prelude Job CmdData Processor Conn.
Local Open Scope Z_scope.

Section server.
Context {J : Type} `{JSMOps J}.
Context (yaml_names : list TubeName -> list Byte.byte + string) (range : gset TubeName -> list TubeName).
Context (maxReserveTimeoutSecs maxJobSizeBytes : Z).

Record server : Type := mkServer {
  sv_reads : list (Z * Z);
  sv_ticks : list Z;
  sv_proc : cmdProcessor (J:=J)
}.

(** The responses sent to a client since the first [n]. *)
Definition replies_to (cid : ClientID) (n : nat) (p : cmdProcessor (J:=J)) : list CmdResponse :=
  filter (fun r => rs_ClientID r = cid) (drop n (p_sent p)).

(** Let the ticker fire until the client gets a response. *)
Fixpoint await_reply (cid : ClientID) (n : nat) (reads : list (Z * Z)) (ticks : list Z) (p : cmdProcessor (J:=J))
    : option (list CmdResponse * server) :=
  match replies_to cid n p with
  | r :: rs => Some (r :: rs, mkServer reads ticks p)
  | [] =>
    match ticks with
    | [] => None
    | t :: ticks' =>
      match tick t p with
      | OK _ p' => await_reply cid n reads ticks' p'
      | _ => None
      end
    end
  end.

Definition serve (req : CmdRequest) (s : server) : option (list CmdResponse * server) :=
  match sv_reads s with
  | [] => None
  | (now, now') :: reads =>
    match processRequest yaml_names range maxReserveTimeoutSecs now now' req (sv_proc s) with
    | OK _ p' => await_reply (rq_ClientID req) (length (p_sent (sv_proc s))) reads (sv_ticks s) p'
    | _ => None
    end
  end.

#[export] Instance server_processor : CommandProcessor server := {
  MaxJobDataSize := maxJobSizeBytes;
  DispatchRequest := serve
}.
End server.
