(* ===== verification/Front.v ===== *)
(** The front end as a system of goroutines: [TcpServer.Listen] and [Shutdown] of
    [src/beanstalkd/proto/tcp_server.go], the loop [cmdProcessor.Run] with [RegisterClient],
    [DispatchRequest] and [Shutdown] of [src/beanstalkd/core/cmd_proc.go], and the
    connections of [src/beanstalkd/proto/conn.go] at their calls of the processor.

    All channels are unbuffered: a send and a receive happen together.  The processor owns
    the clients and the state machine, so what a branch of its loop does before and between
    its sends is one step; the sends that follow are steps of their own, each with the
    connection that receives. *)
From stdpp Require Import base gmap list strings.
From Stdlib Require Import ZArith Lia.
From S2P Require Import Prelude Job CmdData Processor Inv.
Import Cmd.
Local Open Scope Z_scope.

(** The position of [Run]: in the [select]; sending the answer to a registration; sending
    responses, after which the channel of a client is closed; returned. *)
Inductive run_pos : Type :=
| RSelect
| RRegister (id : ClientID) (err : option error)
| RReply (out : list CmdResponse) (closing : option ClientID)
| RReturned.

(** The position of [Listen]: in its loop; waiting for the answer to [RegisterClient];
    in [Shutdown] of the processor; returned. *)
Inductive listen_pos : Type := LLoop | LRegister | LShutdown | LReturned.

(** The position of a connection: reading and parsing; sending its request; receiving the
    responses to it; draining its channel after a quit; stopped. *)
Inductive conn_pos : Type :=
| KRead | KDispatch (req : CmdRequest) | KAwait (req : CmdRequest) | KDrain | KStopped.

(** The responses that are left to send, and the channel to close after them. *)
Definition outgoing (p : run_pos) : list CmdResponse := match p with RReply out _ => out | _ => [] end.
Definition closing_of (p : run_pos) : option ClientID := match p with RReply _ c => c | _ => None end.
Definition replying (out : list CmdResponse) (closing : option ClientID) : run_pos :=
  match out, closing with [], None => RSelect | _, _ => RReply out closing end.

(** What a connection does with a response. *)
Definition after_reply (req : CmdRequest) (more : bool) : conn_pos :=
  if more then KAwait req else if decide (rq_CmdType req = Quit) then KDrain else KRead.

Section front.
Context {J : Type} `{JSMOps J}.
Context (yaml_names : list TubeName -> list Byte.byte + string) (range : gset TubeName -> list TubeName)
  (maxReserveTimeoutSecs : Z).

Record front : Type := mkFront {
  fr_proc : cmdProcessor (J:=J);
  fr_run : run_pos;
  fr_listen : listen_pos;
  (** the connections, by the identifier of their client *)
  fr_conns : gmap ClientID conn_pos;
  (** the response channels that were closed *)
  fr_closed : gset ClientID;
  (** the responses that connections received, with the request they were waiting for *)
  fr_received : list (CmdRequest * CmdResponse);
  (** a goroutine panicked, or left its work undone for ever *)
  fr_failed : bool
}.

(** [NewTcpServer] on a state machine; [Listen] has started [Run]. *)
Definition NewTcpServer (jsm : J) : front := mkFront (mkProc jsm ∅ [] []) RSelect LLoop ∅ ∅ [] false.

Definition set_run (v : run_pos) (s : front) : front :=
  mkFront (fr_proc s) v (fr_listen s) (fr_conns s) (fr_closed s) (fr_received s) (fr_failed s).
Definition set_listen (v : listen_pos) (s : front) : front :=
  mkFront (fr_proc s) (fr_run s) v (fr_conns s) (fr_closed s) (fr_received s) (fr_failed s).
Definition set_proc (v : cmdProcessor) (s : front) : front :=
  mkFront v (fr_run s) (fr_listen s) (fr_conns s) (fr_closed s) (fr_received s) (fr_failed s).
Definition set_conn (cid : ClientID) (v : conn_pos) (s : front) : front :=
  mkFront (fr_proc s) (fr_run s) (fr_listen s) (<[ cid := v ]> (fr_conns s)) (fr_closed s) (fr_received s) (fr_failed s).
Definition close_resp (cid : ClientID) (s : front) : front :=
  mkFront (fr_proc s) (fr_run s) (fr_listen s) (fr_conns s) ({[ cid ]} ∪ fr_closed s) (fr_received s) (fr_failed s).
Definition log_resp (req : CmdRequest) (r : CmdResponse) (s : front) : front :=
  mkFront (fr_proc s) (fr_run s) (fr_listen s) (fr_conns s) (fr_closed s) (fr_received s ++ [(req, r)]) (fr_failed s).
Definition fail (s : front) : front :=
  mkFront (fr_proc s) (fr_run s) (fr_listen s) (fr_conns s) (fr_closed s) (fr_received s) true.

(** A branch of [Run] that ended with [o]: the responses it sent are on their way. *)
Definition run_branch {A} (o : outcome error (cmdProcessor (J:=J)) A) (closing : option ClientID) (s : front) : front :=
  match o with
  | OK _ p' => set_run (replying (drop (length (p_sent (fr_proc s))) (p_sent p')) closing) (set_proc p' s)
  | ERR _ _ | PANIC | DIVERGE => fail s
  end.

(** The branch for a new client: [uuid] is what [uuid.New] returned. *)
Definition on_new_client (uuid : string) (s : front) : front :=
  match registerClient uuid (fr_proc s) with
  | OK (i, err) p' => set_run (RRegister i err) (set_proc p' s)
  | ERR _ _ | PANIC | DIVERGE => fail s
  end.
Definition on_request (now now' : Z) (req : CmdRequest) (s : front) : front :=
  run_branch (processRequest yaml_names range maxReserveTimeoutSecs now now' req (fr_proc s))
    (if decide (rq_CmdType req = Quit) then Some (rq_ClientID req) else None) s.
Definition on_ticker (now : Z) (s : front) : front := run_branch (tick now (fr_proc s)) None s.

(** The answer to a registration: a connection starts, or the socket is closed. *)
Definition on_registered (i : ClientID) (err : option error) (s : front) : front :=
  match err with None => set_conn i KRead s | Some _ => s end.

(** The requests that clients make, and what happens to the state machine outside of the
    processor: nothing when it is in the process; the messages of the stream and the doings of
    the cluster for a proxy client. *)
Context (made : CmdRequest -> Prop) (jenv : J -> J -> Prop).

Inductive fstep (s : front) : front -> Prop :=
(** a connection is accepted: [RegisterClient]; identifiers are never used twice *)
| fstep_accept uuid : fr_run s = RSelect -> fr_listen s = LLoop -> uuid <> ""%string -> fr_conns s !! uuid = None ->
    fstep s (on_new_client uuid (set_listen LRegister s))
| fstep_registered i err : fr_run s = RRegister i err -> fr_listen s = LRegister ->
    fstep s (on_registered i err (set_run RSelect (set_listen LLoop s)))
(** a connection has parsed a command *)
| fstep_command cid uuid cd req : fr_conns s !! cid = Some KRead -> NewCmdRequest uuid cd cid = inl req -> made req ->
    fstep s (set_conn cid (KDispatch req) s)
(** [DispatchRequest] *)
| fstep_dispatch cid req now now' : fr_run s = RSelect -> fr_conns s !! cid = Some (KDispatch req) -> clock_ok now ->
    fstep s (on_request now now' req (set_conn cid (KAwait req) s))
(** the ticker *)
| fstep_tick now : fr_run s = RSelect -> clock_ok now -> fstep s (on_ticker now s)
(** a response is sent to the connection of its client *)
| fstep_reply r out c req : fr_run s = RReply (r :: out) c -> rs_ClientID r ∉ fr_closed s ->
    fr_conns s !! rs_ClientID r = Some (KAwait req) ->
    fstep s (set_run (replying out c) (set_conn (rs_ClientID r) (after_reply req (rs_HasMore r)) (log_resp req r s)))
(** the loop that drains a channel discards it *)
| fstep_discard r out c : fr_run s = RReply (r :: out) c -> rs_ClientID r ∉ fr_closed s ->
    fr_conns s !! rs_ClientID r = Some KDrain -> fstep s (set_run (replying out c) s)
(** sending on a closed channel, and closing it twice, panic *)
| fstep_reply_closed r out c : fr_run s = RReply (r :: out) c -> rs_ClientID r ∈ fr_closed s -> fstep s (fail s)
| fstep_close cid : fr_run s = RReply [] (Some cid) -> cid ∉ fr_closed s -> fstep s (set_run RSelect (close_resp cid s))
| fstep_close_closed cid : fr_run s = RReply [] (Some cid) -> cid ∈ fr_closed s -> fstep s (fail s)
(** receiving from a closed channel: a zero response, and the end of the drain *)
| fstep_await_closed cid req : fr_conns s !! cid = Some (KAwait req) -> cid ∈ fr_closed s ->
    fstep s (set_conn cid (after_reply req false) s)
| fstep_drained cid : fr_conns s !! cid = Some KDrain -> cid ∈ fr_closed s -> fstep s (set_conn cid KStopped s)
(** [TcpServer.Shutdown], and [Shutdown] of the processor *)
| fstep_done : fr_listen s = LLoop -> fstep s (set_listen LShutdown s)
| fstep_shutdown : fr_run s = RSelect -> fr_listen s = LShutdown ->
    fstep s (set_run RReturned (set_listen LReturned s))
| fstep_env j : jenv (p_jsm (fr_proc s)) j -> fstep s (set_proc (set_p_jsm j (fr_proc s)) s).

Abbreviation fsteps := (rtc fstep).
End front.
