(* ===== verification/FrontSpec.v ===== *)
(** The invariant of the front end, proved against the interface of the state machine: a
    connection that waits for a response is waited for by the state machine or has its
    response on the way, so the processor never sends to a client that does not receive. *)
From stdpp Require Import base gmap list strings relations.
From Stdlib Require Import ZArith Lia.
From S2P Require Import Prelude Job CmdData Processor Inv ProcSpec ProcWaits Front.
Import Cmd.
Local Open Scope Z_scope.

Lemma outgoing_replying out c : outgoing (replying out c) = out.
Proof. by destruct out, c. Qed.
Lemma closing_replying out c : closing_of (replying out c) = c.
Proof. by destruct out, c. Qed.
Lemma replying_register out c i e : replying out c <> RRegister i e.
Proof. by destruct out, c. Qed.

(** A complete reply without its first response. *)
Lemma complete_tail rid cid r rs :
  complete rid cid (r :: rs) ->
  rs_RequestID r = rid /\ rs_ClientID r = cid /\ if rs_HasMore r then complete rid cid rs else rs = [].
Proof.
  intros (init & fin & E & Hi & Hf & Ha). rewrite E in Ha. destruct init as [|x init]; injection E as -> ->.
  - apply Forall_singleton in Ha as [H1 H2]. by rewrite Hf.
  - apply Forall_cons in Hi as [Hx Hi]. apply Forall_cons in Ha as [[H1 H2] Ha]. rewrite Hx. split_and!; [done|done|].
    by exists init, fin.
Qed.
Lemma complete_nonempty rid cid : ~ complete rid cid [].
Proof. intros (init & fin & E & _). by destruct init. Qed.
Lemma complete_all rid cid rs : complete rid cid rs -> Forall (fun r => rs_ClientID r = cid) rs.
Proof. intros (init & fin & _ & _ & _ & Ha). eapply Forall_impl; [exact Ha|]. by intros r []. Qed.

(** What concerns one client. *)
Abbreviation waits_for cid := (filter (fun w => fst w = cid)).
Abbreviation replies_for cid := (filter (fun r : CmdResponse => rs_ClientID r = cid)).
Lemma replies_own cid rs : Forall (fun r => rs_ClientID r = cid) rs -> replies_for cid rs = rs.
Proof. induction 1 as [|r rs Hr _ IH]; [done|]. rewrite filter_cons_True by done. by rewrite IH. Qed.
Lemma replies_others cid cid' rs : Forall (fun r => rs_ClientID r = cid') rs -> cid <> cid' -> replies_for cid rs = [].
Proof. induction 1 as [|r rs Hr _ IH]; [done|]. intros Hne. rewrite filter_cons_False; [by apply IH|congruence]. Qed.

Section front_spec.
Context {J : Type} `{JSMWaits J}.
Context (yaml_names : list TubeName -> list Byte.byte + string) (range : gset TubeName -> list TubeName)
  (maxSecs : Z).
Hypothesis range_perm : forall X, range X ≡ₚ elements X.
Context (made : CmdRequest -> Prop).
Hypothesis made_ok : forall req, made req -> match rq_cmd req with APut a => jttr_ok (pa_ttr a) | _ => True end.
Context (jenv : J -> J -> Prop).
Hypothesis jenv_ok : forall j j', jinv j -> jenv j j' -> jinv j' /\ jwaits j' ≡ₚ jwaits j.
Implicit Types s : front (J:=J).

Abbreviation fstep := (fstep yaml_names range maxSecs made jenv).
Definition registered cid s : Prop := cid ∈ dom (p_clients (fr_proc s)).
Definition waiting_of cid s : list (ClientID * jtoken) := waits_for cid (waits_of (fr_proc s)).
Definition reply_of cid s : list CmdResponse := replies_for cid (outgoing (fr_run s)).

(** Nothing is on the way for the client. *)
Definition quiet_client cid s : Prop := waiting_of cid s ≡ₚ [] /\ reply_of cid s = [].
Definition idle cid s : Prop :=
  registered cid s /\ (cid ∉ fr_closed s) /\ closing_of (fr_run s) <> Some cid /\ quiet_client cid s.
(** The request is waited for, or its reply is on the way. *)
Definition awaited (req : CmdRequest) cid s : Prop :=
  waiting_of cid s ≡ₚ [(cid, jtag (rq_ID req))] /\ reply_of cid s = [] /\ rq_CmdType req <> Quit \/
  waiting_of cid s ≡ₚ [] /\ exists q, jtag q = jtag (rq_ID req) /\ complete q cid (reply_of cid s).

Definition client_ok cid s (k : option conn_pos) : Prop :=
  match k with
  | None => (cid ∉ fr_closed s) /\ closing_of (fr_run s) <> Some cid /\ quiet_client cid s /\
      (registered cid s -> fr_run s = RRegister cid None)
  | Some KRead => idle cid s
  | Some (KDispatch req) => idle cid s /\ rq_ClientID req = cid /\ req_ok req
  | Some (KAwait req) => rq_ClientID req = cid /\ (cid ∉ fr_closed s) /\
      (registered cid s <-> rq_CmdType req <> Quit) /\ (closing_of (fr_run s) = Some cid <-> rq_CmdType req = Quit) /\
      awaited req cid s
  | Some KDrain => ~ registered cid s /\ quiet_client cid s /\ (cid ∈ fr_closed s <-> closing_of (fr_run s) <> Some cid)
  | Some KStopped => ~ registered cid s /\ quiet_client cid s /\ (cid ∈ fr_closed s) /\ closing_of (fr_run s) <> Some cid
  end.

Record front_ok s : Prop := {
  fo_proc : PInv (fr_proc s);
  fo_clients cid : client_ok cid s (fr_conns s !! cid);
  fo_names cid : is_Some (fr_conns s !! cid) -> cid <> ""%string;
  fo_register i e : fr_run s = RRegister i e ->
    fr_listen s = LRegister /\ e = None /\ fr_conns s !! i = None /\ registered i s /\ i <> ""%string;
  fo_received : Forall (fun x => jtag (rs_RequestID x.2) = jtag (rq_ID x.1) /\ rs_ClientID x.2 = rq_ClientID x.1) (fr_received s);
  fo_failed : fr_failed s = false
}.

(** ** Steps that leave a client alone *)
Record unseen cid s s' : Prop := {
  us_reg : registered cid s' <-> registered cid s;
  us_closed : cid ∈ fr_closed s' <-> cid ∈ fr_closed s;
  us_closing : closing_of (fr_run s') = Some cid <-> closing_of (fr_run s) = Some cid;
  us_waits : waiting_of cid s' ≡ₚ waiting_of cid s;
  us_reply : reply_of cid s' = reply_of cid s;
  us_new : registered cid s -> fr_run s = RRegister cid None -> fr_run s' = RRegister cid None
}.

Lemma client_unseen cid s s' k : unseen cid s s' -> client_ok cid s k -> client_ok cid s' k.
Proof.
  intros [U1 U2 U3 U4 U5 U6]. unfold client_ok, idle, awaited, quiet_client. destruct k as [[| | | |]|];
    rewrite ?U1, ?U2, ?U3, ?U4, ?U5; try tauto.
Qed.

Lemma unseen_refl cid s : unseen cid s s.
Proof. by split. Qed.

(** A step that only moves connection [c] and leaves everything else alone. *)
Lemma conn_moves s c k :
  front_ok s -> c <> ""%string -> (forall i e, fr_run s = RRegister i e -> i <> c) -> client_ok c s (Some k) -> front_ok (set_conn c k s).
Proof.
  intros [F1 F2 F3 F4 F5 F6] Hc Hr Hk. split; try done; simpl.
  - intros cid. destruct (decide (cid = c)) as [->|Hne]; [rewrite lookup_insert_eq; exact Hk|].
    rewrite lookup_insert_ne by done. exact (F2 cid).
  - intros cid. destruct (decide (cid = c)) as [->|Hne]; [done|]. rewrite lookup_insert_ne by done. apply F3.
  - intros i e He. pose proof (Hr i e He). destruct (F4 i e He) as (G1 & G2 & G3 & G4).
    rewrite lookup_insert_ne by done. done.
Qed.

(** A step that changes what concerns client [c]. *)
Lemma step_one s s' c (k : option conn_pos) :
  front_ok s -> PInv (fr_proc s') -> (forall cid, cid <> c -> fr_conns s' !! cid = fr_conns s !! cid) -> fr_conns s' !! c = k ->
  (forall cid, cid <> c -> unseen cid s s') -> client_ok c s' k -> (is_Some k -> c <> ""%string) ->
  (forall i e, fr_run s' = RRegister i e ->
     fr_listen s' = LRegister /\ e = None /\ fr_conns s' !! i = None /\ registered i s' /\ i <> ""%string) ->
  Forall (fun x => jtag (rs_RequestID x.2) = jtag (rq_ID x.1) /\ rs_ClientID x.2 = rq_ClientID x.1) (fr_received s') ->
  fr_failed s' = false -> front_ok s'.
Proof.
  intros [F1 F2 F3 F4 F5 F6] Hp Hcs Hk Hu Hc Hn Hr Hrec Hf. split; try done.
  - intros cid. destruct (decide (cid = c)) as [->|Hne]; [by rewrite Hk|]. rewrite Hcs by done.
    apply (client_unseen cid s); [by apply Hu|apply F2].
  - intros cid. destruct (decide (cid = c)) as [->|Hne]; [by rewrite Hk|]. rewrite Hcs by done. apply F3.
Qed.

(** ** Registration *)
Lemma ok_accept s uuid :
  front_ok s -> fr_run s = RSelect -> fr_listen s = LLoop -> uuid <> ""%string -> fr_conns s !! uuid = None ->
  front_ok (on_new_client uuid (set_listen LRegister s)).
Proof.
  intros Hs Hr Hl Hne Hc. pose proof (fo_clients _ Hs uuid) as Hu. rewrite Hc in Hu. destruct Hu as (U1 & U2 & [U3 U4] & U5).
  assert (p_clients (fr_proc s) !! uuid = None) as Hcl.
  { apply not_elem_of_dom. intros Hd. specialize (U5 Hd). congruence. }
  unfold on_new_client, registerClient, gets, bind at 1. simpl. rewrite Hcl. simpl.
  eapply (step_one s _ uuid None); try done; simpl.
  - destruct (fo_proc _ Hs) as [P1 P2]. split; [done|]. simpl. intros x c [[<- <-]|[_ ?]]%lookup_insert_Some; [done|by apply P2].
  - intros cid Hd. split; try done; simpl; unfold registered; simpl.
    + rewrite dom_insert. set_solver.
    + by rewrite Hr.
    + by unfold reply_of; simpl; rewrite Hr.
    + intros _ E. rewrite Hr in E. done.
  - intros i e [= <- <-]. split_and!; try done. unfold registered. simpl. rewrite dom_insert. set_solver.
  - apply Hs.
  - apply Hs.
Qed.

Lemma ok_registered s i err :
  front_ok s -> fr_run s = RRegister i err -> fr_listen s = LRegister ->
  front_ok (on_registered i err (set_run RSelect (set_listen LLoop s))).
Proof.
  intros Hs Hr Hl. destruct (fo_register _ Hs i err Hr) as (_ & -> & Hc & Hreg & Hne). unfold on_registered.
  pose proof (fo_clients _ Hs i) as Hu. rewrite Hc in Hu. destruct Hu as (U1 & U2 & [U3 U4] & U5).
  eapply (step_one s _ i (Some KRead)); try done; simpl.
  - apply Hs.
  - intros cid Hd. by rewrite lookup_insert_ne.
  - by rewrite lookup_insert_eq.
  - intros cid Hd. split; try done; simpl.
    + by rewrite Hr.
    + by unfold reply_of; simpl; rewrite Hr.
    + intros _. rewrite Hr. congruence.
  - apply Hs.
  - apply Hs.
Qed.

(** ** Requests *)
Lemma ok_command s cid uuid cd req :
  front_ok s -> fr_conns s !! cid = Some KRead -> NewCmdRequest uuid cd cid = inl req -> made req ->
  front_ok (set_conn cid (KDispatch req) s).
Proof using made_ok.
  intros Hs Hc Hreq Hm. pose proof (fo_clients _ Hs cid) as Hu. rewrite Hc in Hu.
  assert (cid <> ""%string) as Hne by (apply (fo_names _ Hs); by rewrite Hc).
  apply conn_moves; [done|done| |].
  - intros i e Hr. destruct (fo_register _ Hs i e Hr) as (_ & _ & Hn & _). congruence.
  - destruct (NewCmdRequest_typed _ _ _ _ Hreq) as (_ & Hid & _ & Ht). split; [done|]. rewrite Hid. split; [done|].
    split_and!; [done|by rewrite Hid|]. by apply made_ok.
Qed.

Lemma drop_sent {A} (l r : list A) : drop (length l) (l ++ r) = r.
Proof. apply drop_app_length. Qed.

Lemma waits_cons (cid : ClientID) (w : ClientID * jtoken) W : waits_for cid (w :: W) = (if decide (w.1 = cid) then [w] else []) ++ waits_for cid W.
Proof. rewrite filter_cons. by case_decide. Qed.

Lemma ok_dispatch s cid req now now' :
  front_ok s -> fr_run s = RSelect -> fr_conns s !! cid = Some (KDispatch req) -> clock_ok now ->
  front_ok (on_request yaml_names range maxSecs now now' req (set_conn cid (KAwait req) s)).
Proof using range_perm.
  intros Hs Hr Hc Hn. pose proof (fo_clients _ Hs cid) as Hu. rewrite Hc in Hu.
  destruct Hu as ((U1 & U2 & U3 & U4 & U5) & <- & Hok). pose proof (fo_proc _ Hs) as Hp.
  assert (rq_ClientID req <> ""%string) as Hne by (apply (fo_names _ Hs); by rewrite Hc).
  pose proof U1 as [cli Hcli]%elem_of_dom.
  destruct (processRequest_spec yaml_names range maxSecs range_perm now now' cli req _ Hp Hcli Hn Hok)
    as (p' & rs & Hop & Hp' & Hsent & Hown & Hcom & _).
  destruct (processRequest_waits yaml_names range maxSecs range_perm now now' cli req _ p' Hp Hcli Hn Hok Hop) as [Hw Hq].
  unfold on_request, run_branch. cbn [fr_proc set_conn]. rewrite Hop, Hsent. simpl. rewrite drop_sent.
  set (c := if decide (rq_CmdType req = Quit) then Some (rq_ClientID req) else None).
  eapply (step_one s _ (rq_ClientID req) (Some (KAwait req))); try done; simpl.
  - intros x Hx. by rewrite lookup_insert_ne.
  - by rewrite lookup_insert_eq.
  - intros x Hx. split; try done; simpl.
    + unfold registered. simpl. by rewrite !elem_of_dom, Hown.
    + rewrite Hr, closing_replying. unfold c. case_decide; [|done]. simpl. split; [|done]. congruence.
    + unfold waiting_of. simpl. destruct Hw as [[_ ->]|[_ ->]]; [|done]. rewrite waits_cons, decide_False by done. done.
    + unfold reply_of. simpl. rewrite Hr, outgoing_replying. simpl.
      destruct Hcom as [Hcom|[-> _]]; [|done]. by eapply replies_others; [apply (complete_all _ _ _ Hcom)|].
    + intros _ E. rewrite Hr in E. done.
  - unfold client_ok. simpl. split_and!; try done.
    + rewrite closing_replying. unfold c. by case_decide.
    + unfold awaited, waiting_of, reply_of in *. simpl. rewrite outgoing_replying.
      destruct Hw as [[E Hw]|[E Hw]].
      * assert (rs = []) as ->. { rewrite Hsent in E. apply (app_inv_head (p_sent (fr_proc s))). by rewrite app_nil_r. }
        left. rewrite Hw, waits_cons, decide_True by done. simpl. rewrite U4. split_and!; [done|done|].
        destruct Hcom as [Hcom|[_ [Hq'|Hq']]]; [by apply complete_nonempty in Hcom|congruence|congruence].
      * right. rewrite Hw. split; [done|]. exists (rq_ID req). split; [done|]. destruct Hcom as [Hcom|[-> _]]; [|by rewrite Hsent, app_nil_r in E].
        rewrite replies_own; [done|]. by apply (complete_all _ _ _ Hcom).
  - intros i e. by intros ?%replying_register.
  - apply Hs.
  - apply Hs.
Qed.

(** ** The ticker *)
Lemma waits_split (cid : ClientID) (W W' : list (ClientID * jtoken)) rs :
  W ≡ₚ W' ++ (answers <$> rs) ->
  waits_for cid W ≡ₚ waits_for cid W' ++ (answers <$> filter (fun r => r_ClientId r = cid) rs).
Proof.
  intros ->. rewrite filter_app. apply Permutation_app_head. induction rs as [|r rs IH]; [done|]. rewrite fmap_cons, !filter_cons. simpl.
  case_decide; [by rewrite IH|done].
Qed.
Lemma replies_answers cid rs :
  Forall is_reply rs ->
  replies_for cid (mjoin (answer_of <$> rs)) = mjoin (answer_of <$> filter (fun r => r_ClientId r = cid) rs).
Proof.
  induction 1 as [|r rs Hr _ IH]; [done|]. rewrite fmap_cons. simpl. rewrite filter_app, IH, filter_cons.
  pose proof (complete_all _ _ _ (answer_complete r Hr)) as Ha. case_decide as Hd.
  - rewrite fmap_cons. simpl. rewrite (replies_own cid) by (by rewrite <- Hd). done.
  - by rewrite (replies_others cid _ _ Ha) by done.
Qed.

(** One client's share of a tick: it is answered, or nothing changes for it. *)
Lemma tick_share (cid : ClientID) (W W' : list (ClientID * jtoken)) rs q :
  W ≡ₚ W' ++ (answers <$> rs) -> Forall is_reply rs -> waits_for cid W ≡ₚ q -> q = [] \/ (exists x, q = [x]) ->
  waits_for cid W' ≡ₚ q /\ replies_for cid (mjoin (answer_of <$> rs)) = [] \/
  waits_for cid W' ≡ₚ [] /\ exists r, q = [answers r] /\ is_reply r /\
    replies_for cid (mjoin (answer_of <$> rs)) = answer_of r.
Proof.
  intros Hp Ha Hq Hqs. rewrite (replies_answers cid rs Ha). apply (waits_split cid) in Hp. rewrite Hq in Hp.
  destruct (filter (fun r => r_ClientId r = cid) rs) as [|r fs] eqn:Ef.
  { left. by rewrite app_nil_r in Hp. }
  assert (is_reply r) as Hr.
  { apply (proj1 (Forall_forall _ _) Ha). apply (list_elem_of_filter (fun r => r_ClientId r = cid)). rewrite Ef. left. }
  right. destruct Hqs as [->|[x ->]]; [apply Permutation_nil_l in Hp; symmetry in Hp; by apply app_eq_nil in Hp as [_ ?]|].
  apply Permutation_length in Hp as Hl. rewrite length_app, length_fmap in Hl. simpl in Hl.
  destruct (waits_for cid W') as [|w ws]; [|simpl in Hl; lia]. destruct fs; [|simpl in Hl; lia].
  split; [done|]. exists r. simpl in Hp. apply Permutation_singleton_l in Hp as [= ->]. simpl. by rewrite app_nil_r.
Qed.

Lemma all_waits_registered s : front_ok s -> fr_run s = RSelect ->
  Forall (fun w => w.1 ∈ dom (p_clients (fr_proc s))) (waits_of (fr_proc s)).
Proof.
  intros Hs Hr. apply Forall_forall. intros w Hw.
  assert (w ∈ waiting_of w.1 s) as Hin by (by apply list_elem_of_filter).
  assert (waiting_of w.1 s ≡ₚ [] -> False) as Hnil by (intros E; rewrite E in Hin; by apply not_elem_of_nil in Hin).
  pose proof (fo_clients _ Hs w.1) as Hc. unfold client_ok, idle, quiet_client, awaited in Hc.
  destruct (fr_conns s !! w.1) as [[]|]; tauto.
Qed.

Lemma ok_tick s now : front_ok s -> fr_run s = RSelect -> clock_ok now -> front_ok (on_ticker now s).
Proof.
  intros Hs Hr Hn. destruct (tick_spec now (fr_proc s) (fo_proc _ Hs) Hn (all_waits_registered s Hs Hr))
    as (rs & p' & Hop & Hp' & Ha & Hw & Hcl & Hsent).
  unfold on_ticker, run_branch. rewrite Hop, Hsent, drop_sent. set (out := mjoin (answer_of <$> rs)) in *.
  split; try done; simpl; [| |by intros i e ?%replying_register|apply Hs|apply Hs].
  - intros cid. pose proof (fo_clients _ Hs cid) as Hc. revert Hc. unfold client_ok, idle, quiet_client, awaited, registered.
    unfold waiting_of, reply_of. simpl. rewrite outgoing_replying, closing_replying, Hcl, Hr. simpl.
    assert (waits_for cid (waits_of (fr_proc s)) ≡ₚ [] -> waits_for cid (waits_of p') ≡ₚ [] /\ replies_for cid out = []) as Hq.
    { intros E. destruct (tick_share cid _ _ rs [] Hw Ha E (or_introl eq_refl)) as [?|(? & r & ? & _)]; done. }
    destruct (fr_conns s !! cid) as [[| | req | |]|]; try tauto.
    + intros (H2 & H3 & H4 & H5 & [(E & _ & Hnq)|(_ & q & _ & Hc)]); [|by apply complete_nonempty in Hc]. split_and!; try done.
      destruct (tick_share cid _ _ rs _ Hw Ha E) as [[E1 E2]|(E1 & r & [= H6 H7] & Hr' & E2)]; [by right; eexists|by left|].
      right. fold out in E2. rewrite E1, E2, H6. split; [done|]. exists (r_RequestId r). split; [done|]. by apply answer_complete.
    + intros (H2 & H3 & H4 & H5). split_and!; [done|done|apply Hq, H4|apply Hq, H4|]. intros Hd. by specialize (H5 Hd).
  - apply Hs.
Qed.

(** ** Responses *)

(** The response that is sent next belongs to a connection that receives it. *)
Lemma next_reply s r out c :
  front_ok s -> fr_run s = RReply (r :: out) c ->
  exists req, fr_conns s !! rs_ClientID r = Some (KAwait req) /\ (rs_ClientID r ∉ fr_closed s) /\
    waiting_of (rs_ClientID r) s ≡ₚ [] /\
    exists q, jtag q = jtag (rq_ID req) /\ complete q (rs_ClientID r) (r :: replies_for (rs_ClientID r) out).
Proof.
  intros Hs Hr. pose proof (fo_clients _ Hs (rs_ClientID r)) as Hc.
  assert (reply_of (rs_ClientID r) s = r :: replies_for (rs_ClientID r) out) as Ho.
  { unfold reply_of. rewrite Hr. simpl. by rewrite filter_cons_True. }
  unfold client_ok, idle, quiet_client, awaited in Hc. rewrite Ho in Hc.
  destruct (fr_conns s !! rs_ClientID r) as [[| | req | |]|];
    [by destruct Hc as (_ & _ & _ & _ & ?)|by destruct Hc as [(_ & _ & _ & _ & ?) _]| |by destruct Hc as (_ & [_ ?] & _)
    |by destruct Hc as (_ & [_ ?] & _)|by destruct Hc as (_ & _ & [_ ?] & _)].
  exists req. destruct Hc as (_ & Hcl & _ & _ & [(_ & ? & _)|[Hw Hc]]); [done|]. by split_and!.
Qed.

Lemma ok_reply s r out c req :
  front_ok s -> fr_run s = RReply (r :: out) c -> fr_conns s !! rs_ClientID r = Some (KAwait req) ->
  front_ok (set_run (replying out c) (set_conn (rs_ClientID r) (after_reply req (rs_HasMore r)) (log_resp req r s))).
Proof.
  intros Hs Hr Hc. set (cid := rs_ClientID r) in *.
  destruct (next_reply s r out c Hs Hr) as (req' & Hc' & Hcl & Hw & q & Htag & Hcom). fold cid in Hc', Hcl, Hw, Hcom.
  rewrite Hc in Hc'. injection Hc' as <-. apply complete_tail in Hcom as (Hrid & _ & Hrest).
  assert (rs_HasMore r = true -> exists q, jtag q = jtag (rq_ID req) /\ complete q cid (replies_for cid out)) as Hex
    by (intros E; rewrite E in Hrest; by exists q).
  pose proof (fo_clients _ Hs cid) as Hcok. rewrite Hc in Hcok. destruct Hcok as (Hid & _ & Hreg & Hclos & _). rewrite Hr in Hclos.
  assert (cid <> ""%string) as Hne by (apply (fo_names _ Hs); by rewrite Hc).
  eapply (step_one s _ cid (Some (after_reply req (rs_HasMore r)))); try done; simpl.
  - apply Hs.
  - intros x Hx. by rewrite lookup_insert_ne.
  - by rewrite lookup_insert_eq.
  - intros x Hx. split; try done; simpl.
    + by rewrite Hr, closing_replying.
    + unfold reply_of. simpl. rewrite Hr, outgoing_replying. simpl. by rewrite filter_cons_False.
    + rewrite Hr. done.
  - unfold after_reply. simpl in Hclos. destruct (rs_HasMore r); [|case_decide as Hq];
      unfold client_ok, idle, quiet_client, awaited, waiting_of, reply_of in *; simpl;
      rewrite outgoing_replying, closing_replying; try specialize (Hex eq_refl); tauto.
  - by intros i e ?%replying_register.
  - apply Forall_app. split; [apply Hs|]. apply Forall_singleton. simpl. split; [congruence|]. by rewrite Hid.
  - apply Hs.
Qed.

Lemma next_close s cid :
  front_ok s -> fr_run s = RReply [] (Some cid) -> fr_conns s !! cid = Some KDrain /\ (cid ∉ fr_closed s).
Proof.
  intros Hs Hr. pose proof (fo_clients _ Hs cid) as Hc. unfold client_ok, idle, quiet_client, awaited in Hc.
  assert (reply_of cid s = []) as Ho by (unfold reply_of; by rewrite Hr). rewrite Ho, Hr in Hc. simpl in Hc.
  destruct (fr_conns s !! cid) as [[| | req | |]|];
    [by destruct Hc as (_ & _ & ? & _)|by destruct Hc as [(_ & _ & ? & _) _]| | |by destruct Hc as (_ & _ & _ & ?)
    |by destruct Hc as (_ & ? & _)].
  - destruct Hc as (_ & _ & _ & Hq & [(_ & _ & Hnq)|(_ & q & _ & Hc)]); [by destruct Hnq; apply Hq|by apply complete_nonempty in Hc].
  - split; [done|]. intros Hin. by apply Hc in Hin.
Qed.

Lemma ok_close s cid :
  front_ok s -> fr_run s = RReply [] (Some cid) -> front_ok (set_run RSelect (close_resp cid s)).
Proof.
  intros Hs Hr. destruct (next_close s cid Hs Hr) as [Hc Hcl]. pose proof (fo_clients _ Hs cid) as Hcok. rewrite Hc in Hcok.
  destruct Hcok as (H2 & [H3 H4] & _). assert (cid <> ""%string) as Hne by (apply (fo_names _ Hs); by rewrite Hc).
  eapply (step_one s _ cid (Some KDrain)); try done; simpl.
  - apply Hs.
  - intros x Hx. split; try done; simpl.
    + set_solver.
    + rewrite Hr. simpl. split; [done|]. by intros [= ->].
    + unfold reply_of. simpl. by rewrite Hr.
    + rewrite Hr. done.
  - unfold client_ok, quiet_client. simpl. split_and!; [done|done|done|]. set_solver.
  - apply Hs.
  - apply Hs.
Qed.

Lemma ok_drained s cid :
  front_ok s -> fr_conns s !! cid = Some KDrain -> cid ∈ fr_closed s -> front_ok (set_conn cid KStopped s).
Proof.
  intros Hs Hc Hcl. pose proof (fo_clients _ Hs cid) as Hcok. rewrite Hc in Hcok.
  assert (cid <> ""%string) as Hne by (apply (fo_names _ Hs); by rewrite Hc).
  apply conn_moves; [done|done| |].
  - intros i e Hr. destruct (fo_register _ Hs i e Hr) as (_ & _ & Hn & _). congruence.
  - unfold client_ok in *. tauto.
Qed.

(** ** Outside of the processor *)
Lemma ok_env s j : front_ok s -> jenv (p_jsm (fr_proc s)) j -> front_ok (set_proc (set_p_jsm j (fr_proc s)) s).
Proof using jenv_ok.
  intros [F1 F2 F3 F4 F5 F6] Hj. destruct F1 as [P1 P2]. destruct (jenv_ok _ _ P1 Hj) as [Hi Hw]. split; try done; simpl.
  intros cid. apply (client_unseen cid s); [|apply F2]. split; try done. unfold waiting_of, waits_of. simpl. by rewrite Hw.
Qed.

(** ** Who waits for whom *)
Lemma conn_is_waited s cid req :
  front_ok s -> fr_conns s !! cid = Some (KAwait req) ->
  waiting_of cid s ≡ₚ [(cid, jtag (rq_ID req))] \/ exists q, jtag q = jtag (rq_ID req) /\ complete q cid (reply_of cid s).
Proof.
  intros Hs Hc. pose proof (fo_clients _ Hs cid) as Ho. rewrite Hc in Ho.
  destruct Ho as (_ & _ & _ & _ & [(? & _)|(_ & ?)]); [by left|by right].
Qed.
Lemma waited_is_conn s cid q :
  front_ok s -> (cid, q) ∈ waits_of (fr_proc s) -> exists req, fr_conns s !! cid = Some (KAwait req) /\ jtag (rq_ID req) = q.
Proof.
  intros Hs Hin. pose proof (fo_clients _ Hs cid) as Ho.
  assert ((cid, q) ∈ waiting_of cid s) as Hq by (by apply list_elem_of_filter).
  assert (waiting_of cid s ≡ₚ [] -> False) as Hnil by (intros E; rewrite E in Hq; by apply not_elem_of_nil in Hq).
  unfold client_ok, idle, quiet_client, awaited in Ho. destruct (fr_conns s !! cid) as [[| | req | |]|]; try tauto.
  exists req. split; [done|]. destruct Ho as (_ & _ & _ & _ & [(E & _)|(E & _)]); [|done].
  rewrite E in Hq. apply list_elem_of_singleton in Hq. congruence.
Qed.

(** ** All steps *)
Lemma fstep_ok s s' : fstep s s' -> front_ok s -> front_ok s'.
Proof using range_perm made_ok jenv_ok.
  intros Hst Hs. destruct Hst as [uuid|i err|cid uuid cd req|cid req now now'|now|r out c req|r out c|r out c|cid|cid|cid req|cid| | |j Hj].
  - by apply ok_accept.
  - by apply ok_registered.
  - by eapply ok_command.
  - by apply ok_dispatch.
  - by apply ok_tick.
  - by apply ok_reply.
  - destruct (next_reply s r out c) as (req & ? & _); [done|done|]. congruence.
  - by destruct (next_reply s r out c) as (req & _ & ? & _).
  - by apply ok_close.
  - by destruct (next_close s cid).
  - pose proof (fo_clients _ Hs cid) as Hc. destruct (fr_conns s !! cid); simplify_eq. by destruct Hc as (_ & ? & _).
  - by apply ok_drained.
  - destruct Hs as [F1 F2 F3 F4 F5 F6]. split; try done. simpl. intros i e He. destruct (F4 i e He). congruence.
  - destruct Hs as [F1 F2 F3 F4 F5 F6]. split; try done; simpl. intros cid.
    apply (client_unseen cid s); [|apply F2]. split; try done; simpl; unfold reply_of; simpl; by rewrite ?H2.
  - by apply ok_env.
Qed.

Lemma new_ok jsm : jinv jsm -> jwaits jsm = [] -> front_ok (NewTcpServer jsm).
Proof using Type.
  clear made made_ok jenv jenv_ok range range_perm. intros Hj Hw. split; try done; simpl.
  - intros x. rewrite lookup_empty. unfold client_ok, quiet_client, waiting_of, waits_of, registered. simpl. rewrite Hw, dom_empty.
    split_and!; set_solver.
  - intros cid. rewrite lookup_empty. by intros [? ?].
Qed.

Lemma fsteps_ok s s' : rtc fstep s s' -> front_ok s -> front_ok s'.
Proof using range_perm made_ok jenv_ok. induction 1 as [|s s1 s' Hst _ IH]; [done|]. intros Hs. by eapply IH, fstep_ok. Qed.
End front_spec.
