(* ===== verification/JsmProps.v ===== *)
(** Properties of the job state machine ([src/state/jsm.go] and its indexes).

    Each theorem is stated for the states a server can reach by calls of the [JSM]
    interface, and has an instance on a state reached by a concrete run. *)
From stdpp Require Import base gmap list strings.
From Stdlib Require Import ZArith Lia.
From S2P Require Import Prelude GoHeap Job JobHeap ClientResv Index JSM Heaps JobInv.
From S2P Require Import Transitions Commands CliInv Clients Reserve Inv Tick Refine Machine.
From S2P Require Import Scenario.
Local Open Scope Z_scope.

(** ** All calls *)



(** C2: the commands on jobs refine the abstract machine: any sequence of put,
    delete, reserve, release, bury, kick and ready commands runs to the end and gives
    the results, identifiers and errors of the machine that keeps only a table of
    jobs, the last identifier and the next wake-up time, and the final states
    correspond. *)
Theorem commands_refine s cs :
  reachable s -> exists rs s', exec_all cs s = Some (rs, s') /\ astep_all cs (abst s) = (rs, abst s').
Proof.
  intros Hr. destruct (exec_all_matches cs s (inv_jobs _ (reachable_inv _ Hr))) as (rs & s' & ? & ? & _). eauto.
Qed.

Lemma commands_refine_witness :
  exists rs s', exec_all [CKick 2; CRelease 1 "a"; CReserve 20 2 "b"; CBury 21 2 7 "a"] demo = Some (rs, s') /\
    astep_all [CKick 2; CRelease 1 "a"; CReserve 20 2 "b"; CBury 21 2 7 "a"] (abst demo) = (rs, abst s').
Proof. apply commands_refine, after_reachable. Defined.



(** ** Time *)

(** C6: the exact effect of [Tick] on the table: the delayed jobs that are due become
    ready, then the matches it reports are applied in order, then the reservations
    that have expired are released; the identifiers handed out are untouched. *)
Theorem tick_effect s delayOrder readyOrder now :
  reachable s -> clock_ok now -> ranges delayOrder readyOrder now s ->
  exists matches others s', Tick delayOrder readyOrder now s = OK (matches ++ others) s' /\
    abs s' = tick_table now matches (abs s) /\ maxJobID s' = maxJobID s /\
    Forall (fun rv => r_Status rv = Matched) matches.
Proof.
  intros Hr Hn Hrg. destruct (Tick_spec _ _ _ _ (reachable_inv _ Hr) Hn Hrg)
    as (ms & os & s' & ? & _ & ? & ? & _ & ? & _). eauto 10.
Qed.

Lemma tick_effect_witness :
  exists matches others s', Tick ["t"%string] ["t"%string] 50 waiting_demo = OK (matches ++ others) s' /\
    abs s' = tick_table 50 matches (abs waiting_demo) /\ maxJobID s' = maxJobID waiting_demo /\
    Forall (fun rv => r_Status rv = Matched) matches.
Proof.
  apply tick_effect; [apply after_reachable|done|].
  apply (bool_decide_eq_true_1 (ranges ["t"%string] ["t"%string] 50 waiting_demo)). vm_compute. reflexivity.
Defined.

(** C18: [Tick] makes progress: afterwards no reservation is overdue, no waiting client
    is past its deadline, no delayed job is overdue. *)
Theorem tick_settles s delayOrder readyOrder now :
  reachable s -> clock_ok now -> ranges delayOrder readyOrder now s ->
  exists rs s', Tick delayOrder readyOrder now s = OK rs s' /\ settled s' now /\
    (forall jid j, abs s' !! jid = Some j -> state j = Delayed -> now <= readyAt j).
Proof.
  intros Hr Hn Hrg. destruct (Tick_spec _ _ _ _ (reachable_inv _ Hr) Hn Hrg)
    as (ms & os & s' & ? & _ & _ & _ & ? & _ & ?). eauto 10.
Qed.

Lemma tick_settles_witness :
  exists rs s', Tick ["t"%string] ["t"%string] 200 waiting_demo = OK rs s' /\ settled s' 200 /\
    (forall jid j, abs s' !! jid = Some j -> state j = Delayed -> 200 <= readyAt j).
Proof.
  apply tick_settles; [apply after_reachable|done|].
  apply (bool_decide_eq_true_1 (ranges ["t"%string] ["t"%string] 200 waiting_demo)). vm_compute. reflexivity.
Defined.

(** ** Reservations *)


(** ["b"] is waiting there. *)
Lemma waiting_demo_b : (fun rc => IsWaitingForResv rc.2) <$> client_entry waiting_demo "b" = Some true.
Proof. vm_compute. reflexivity. Qed.


(** C14: matching is fair and follows priority: with waiting clients and ready jobs in
    a tube, [tryReserveJob] without a given client gives the job of least priority
    value, ties broken by the smaller identifier, to the client that has waited
    longest; only that client leaves the queues, and only that job changes. *)
Theorem match_is_fair s now t er r l :
  reachable s -> ready_root s t = Some er -> waiters s t = r :: l ->
  exists j c s', least (abs s) (HReady t) j /\ mclis (mem s) !! r = Some c /\
    tryReserveJob now t None s = OK (matched_resv c j) s' /\
    abs s' = <[id j := reserve_job now (CliID c) j]> (abs s) /\
    forall t', waiters s' t' = filter (fun x => x <> r) (waiters s t').
Proof.
  intros Hr%reachable_inv Her Hw.
  destruct (tryReserveJob_some s now t None er r l) as (j & c & s' & Hl & Hc & Hop & M);
    [apply Hr|apply Hr|done|done|simpl; rewrite Hw; left|].
  exists j, c, s'. split_and!; [done..|apply M|apply M].
Qed.

(** A job is put while ["b"] waits; it is matched at the next tick. *)
Definition fair_demo : localJSM := after (script ++ [resv "b" 16 100; put 17 4 0 60]).
Lemma match_is_fair_witness :
  exists er r l j c s', ready_root fair_demo "t" = Some er /\ waiters fair_demo "t" = r :: l /\
    least (abs fair_demo) (HReady "t") j /\ tryReserveJob 18 "t" None fair_demo = OK (matched_resv c j) s'.
Proof.
  assert (exists er r l, ready_root fair_demo "t" = Some er /\ waiters fair_demo "t" = r :: l) as (er & r & l & E & W).
  { eexists _, _, _. split; vm_compute; reflexivity. }
  destruct (match_is_fair fair_demo 18 "t" er r l (after_reachable _) E W) as (j & c & s' & Hl & _ & Hop & _).
  exists er, r, l, j, c, s'. by split_and!.
Defined.

(** ** Single commands *)

(** [Delete] on every branch: an unknown job and a job reserved by another client
    are refused without a change, any other job leaves the table, alone. *)
Theorem delete_effect s jid cid :
  reachable s ->
  match abs s !! jid with
  | None => Delete jid cid s = ERR ErrEntryMissing (bump nCmdDelete s)
  | Some j =>
    if may_delete cid j
    then exists s', Delete jid cid s = OK tt s' /\ abs s' = base.delete jid (abs s) /\ misc s' = misc (bump nCmdDelete s)
    else Delete jid cid s = ERR ErrUnauthorizedOperation (bump nCmdDelete s)
  end.
Proof.
  intros Hr%reachable_inv. pose proof (Delete_spec s jid cid (inv_jobs _ Hr)) as HD.
  destruct (abs s !! jid) as [j|]; [|done]. destruct (may_delete cid j); [|done].
  destruct HD as (s' & Hop & [_ D2 D3 _]). eauto.
Qed.

Lemma delete_effect_witness :
  (exists s', Delete 1 "a" demo = OK tt s' /\ abs s' = base.delete 1 (abs demo)) /\
  Delete 1 "b" demo = ERR ErrUnauthorizedOperation (bump nCmdDelete demo).
Proof.
  assert (exists j, abs demo !! 1 = Some j /\ may_delete "a" j = true /\ may_delete "b" j = false) as (j & E & A & B).
  { eexists. split_and!; vm_compute; reflexivity. }
  pose proof (delete_effect demo 1 "a" (after_reachable _)) as H1.
  pose proof (delete_effect demo 1 "b" (after_reachable _)) as H2. rewrite E in H1, H2. rewrite A in H1. rewrite B in H2.
  split; [|exact H2]. destruct H1 as (s' & ? & ? & _). eauto.
Defined.

(** [Put] numbers the job with the next 64-bit identifier; if it is free the job is
    added, delayed when the delay is positive and ready otherwise, with [readyAt] the
    wrapped sum of now and delay; if the counter has wrapped onto a live job the call
    fails with [ErrEntryExists] and the table is unchanged. *)
Theorem put_effect s now pri d ttr bodySize body tube :
  reachable s ->
  match abs s !! next_id s with
  | None => exists s', Put now pri d ttr bodySize body tube s = OK (next_id s) s' /\
      abs s' = <[next_id s := new_job now pri d ttr bodySize body tube (next_id s)]> (abs s) /\
      maxJobID s' = next_id s
  | Some _ => exists s', Put now pri d ttr bodySize body tube s = ERR ErrEntryExists s' /\
      abs s' = abs s /\ maxJobID s' = next_id s
  end.
Proof.
  intros Hr%reachable_inv. pose proof (Put_matches s now pri d ttr bodySize body tube (inv_jobs _ Hr)) as Hm.
  unfold astep in Hm. cbn [t_jobs t_max t_tick abst] in Hm. fold (next_id s) in Hm.
  destruct (abs s !! next_id s) as [j|]; destruct (Put now pri d ttr bodySize body tube s) as [a s'|e s'| |];
    simpl in Hm; try done; destruct Hm as ([=] & _); exists s'; split_and!; congruence.
Qed.

Lemma put_effect_witness :
  exists s', Put 30 1 5 60 0 None "t" demo = OK 4 s' /\
    abs s' = <[4 := new_job 30 1 5 60 0 None "t" 4]> (abs demo) /\ maxJobID s' = 4.
Proof.
  pose proof (put_effect demo 30 1 5 60 0 None "t" (after_reachable _)) as H.
  assert (next_id demo = 4 /\ abs demo !! 4 = None) as [E1 E2] by (split; vm_compute; reflexivity).
  rewrite E1, E2 in H. exact H.
Defined.

(** identifiers grow: while the counter is below its maximum, every call keeps all
    identifiers in use at most the counter, never lowers the counter, and a job that a
    call adds has an identifier greater than all earlier ones. *)
Theorem identifiers_grow s k s' :
  reachable s -> call_ok k s -> fresh_ids s -> maxJobID s < 2 ^ 64 - 1 -> final (run k s) = Some s' ->
  fresh_ids s' /\ maxJobID s <= maxJobID s' /\
  (forall jid, is_Some (abs s' !! jid) -> is_Some (abs s !! jid) \/ maxJobID s < jid).
Proof.
  intros Hr Hok Hids Hlt Hf. destruct (run_safe k s (reachable_inv _ Hr) Hok) as (s1 & Hf1 & _ & Hn).
  apply next_ids_fresh; [congruence|done|done].
Qed.

Lemma identifiers_grow_witness :
  fresh_ids (after [put 10 5 0 60]) /\ maxJobID NewJSM <= maxJobID (after [put 10 5 0 60]).
Proof.
  destruct (identifiers_grow NewJSM (put 10 5 0 60) (after [put 10 5 0 60])) as (H1 & H2 & _);
    [constructor|by vm_compute|split; [done|by intros jid [j Hj]]|done|vm_compute; reflexivity|done].
Defined.

(** the owner guard: while a job is reserved by one client, [ReleaseWith], [Bury],
    [Touch] and [Delete] by any other named client fail with
    [ErrUnauthorizedOperation] and change nothing but the command's counter. *)
Theorem owner_guard s jid j cid now pri d :
  reachable s -> abs s !! jid = Some j -> state j = Reserved -> cid <> ""%string -> reservedBy j <> cid ->
  ReleaseWith now jid cid pri d s = ERR ErrUnauthorizedOperation (bump nCmdRelease s) /\
  Bury now jid pri cid s = ERR ErrUnauthorizedOperation (bump nCmdBury s) /\
  Touch now jid cid s = ERR ErrUnauthorizedOperation (bump nCmdTouch s) /\
  Delete jid cid s = ERR ErrUnauthorizedOperation (bump nCmdDelete s).
Proof.
  intros Hr%reachable_inv Ha Hst Hc Ho. pose proof (inv_jobs _ Hr) as HJ.
  assert (unauthorized cid j = true) as Hu.
  { unfold unauthorized. apply andb_true_iff. by rewrite !negb_true_iff, !String.eqb_neq. }
  assert (forall op f g s', implements op jid f g s' -> abs s' = abs s -> f j = inr ErrUnauthorizedOperation ->
    op s' = ERR ErrUnauthorizedOperation s') as Herr.
  { intros op f g s' Himp Ha' Hf. unfold implements in Himp. by rewrite Ha', Ha, Hf in Himp. }
  assert (forall k : Job + error, guard_state Reserved ErrInvalidJobTransition (guard_owner cid k j) j
    = inr ErrUnauthorizedOperation) as Hg.
  { intros k. unfold guard_state, guard_owner. rewrite decide_False by (intros Hn; by apply Hn). by rewrite Hu. }
  split_and!.
  - unfold ReleaseWith. rewrite run_incr. destruct (d =? 0).
    + eapply Herr; [by apply fromReservedToReady_implements|done|apply Hg].
    + eapply Herr; [by apply fromReservedToDelayed_implements|done|apply Hg].
  - unfold Bury. rewrite run_incr. eapply Herr; [by apply fromReservedToBuried_implements|done|apply Hg].
  - pose proof (Touch_job s now jid cid HJ Hc) as HT. rewrite Ha in HT.
    unfold a_touch, guard_state, guard_owner in HT. rewrite decide_False, Hu in HT; [done|]. intros Hn; by apply Hn.
  - pose proof (Delete_spec s jid cid HJ) as HD. rewrite Ha in HD. unfold may_delete in HD.
    apply String.eqb_neq in Ho. by rewrite Hst, Ho in HD.
Qed.

(** Job 1 is reserved by ["a"] there. *)
Lemma demo_job_1 : (fun j => (id j, state j, reservedBy j, ttr j)) <$> abs demo !! 1 = Some (1, Reserved, "a"%string, 60).
Proof. vm_compute. reflexivity. Qed.

Lemma owner_guard_witness :
  Bury 30 1 7 "b" demo = ERR ErrUnauthorizedOperation (bump nCmdBury demo).
Proof.
  pose proof demo_job_1 as E. destruct (abs demo !! 1) as [j|] eqn:Ha; [|discriminate E].
  injection E as _ E1 E2 _.
  apply (owner_guard demo 1 j "b" 30 7 0 (after_reachable _) Ha E1 ltac:(done)). by rewrite E2.
Defined.

(** [Touch] by the owner restarts the time to run: the call succeeds, the job's
    expiry becomes now plus its TTR, no other job changes, and the client is scheduled
    not later than its new first deadline. *)
Theorem touch_effect s now jid cid j :
  reachable s -> clock_ok now -> cid <> ""%string -> abs s !! jid = Some j -> state j = Reserved ->
  reservedBy j = cid ->
  exists s', Touch now jid cid s = OK tt s' /\ abs s' = <[jid := touch_job now j]> (abs s) /\
    expiresAt (touch_job now j) = now + ttr j /\
    exists r, r ∈ registered s' /\ cid_of (mem s') r = Some cid /\ timely s' r /\ r ∈ clientHeap s'.
Proof.
  intros Hr%reachable_inv Hn Hc Ha Hst Ho.
  destruct (Touch_run s now jid cid j Hr Hc Ha Hst Ho) as (s1 & s' & r0 & c0 & M & Hop & _ & _ & _ & Hrs).
  assert (abs s' = <[jid := touch_job now j]> (abs s)) as Habs.
  { transitivity (abs s1); [|apply (mv_abs _ _ _ _ M)]. pose proof (rs_jframe _ _ _ _ Hrs) as [J1 _ _ _ J2 _ _ _].
    unfold abs. by rewrite J1, J2. }
  destruct (Touch_safe s now jid cid Hr Hn Hc) as (s2 & Hf & HI2 & _).
  rewrite Hop in Hf. injection Hf as <-. exists s'. split_and!; [done..| |].
  { apply touch_expires; [done|]. by eapply (inv_ttr _ Hr). }
  destruct (touch_fields now j) as (_ & F2 & _ & F4).
  assert (abs s' !! jid = Some (touch_job now j)) as Hj by (by rewrite Habs, lookup_insert_eq).
  assert (key_of (touch_job now j) = HReserved cid) as Hk by (apply key_reserved; by rewrite F2, F4).
  destruct (inv_own _ HI2 _ _ _ Hj Hk) as (r & Hreg & Hcid). exists r.
  pose proof (inv_timely _ HI2 r Hreg) as Ht. split_and!; [done..|].
  unfold cid_of in Hcid. destruct (mclis (mem s') !! r) as [c|] eqn:Hcl; [|done]. injection Hcid as <-.
  by destruct (proj2 (Ht c Hcl) _ _ Hj Hk).
Qed.

Lemma touch_effect_witness :
  exists j s', abs demo !! 1 = Some j /\ Touch 40 1 "a" demo = OK tt s' /\
    abs s' = <[1 := touch_job 40 j]> (abs demo) /\ expiresAt (touch_job 40 j) = 100.
Proof.
  assert (clock_ok 40) as Hc by done. assert ("a" <> "")%string as Hn by done.
  pose proof demo_job_1 as E. destruct (abs demo !! 1) as [j|] eqn:Ha; [|discriminate E].
  injection E as _ E1 E2 E3.
  destruct (touch_effect demo 40 1 "a" j (after_reachable _) Hc Hn Ha E1 E2) as (s' & H1 & H2 & H3 & _).
  exists j, s'. rewrite E3 in H3. split_and!; assumption || reflexivity.
Defined.

(** the peeks return the first job: [PeekReadyJob] and [PeekDelayedJob] return a
    job of the tube that is least for the heap's order (priority, or the time it
    becomes ready; ties by identifier), and fail exactly when the tube has none; no
    job changes. *)
Theorem peek_least s t :
  reachable s ->
  match PeekReadyJob t s with
  | OK er s' => (exists j, entry_job (mem s) er = Some j /\ least (abs s) (HReady t) j) /\ s' = bump nCmdPeekReady s
  | ERR e s' => e = ErrEntryMissing /\ s' = bump nCmdPeekReady s /\
      (forall jid j, abs s !! jid = Some j -> state j = Ready -> tubeName j <> t)
  | _ => False
  end /\
  match PeekDelayedJob t s with
  | OK er s' => (exists j, entry_job (mem s) er = Some j /\ least (abs s) (HDelayed t) j) /\ s' = bump nCmdPeekDelayed s
  | ERR e s' => e = ErrEntryMissing /\ s' = bump nCmdPeekDelayed s /\
      (forall jid j, abs s !! jid = Some j -> state j = Delayed -> tubeName j <> t)
  | _ => False
  end.
Proof.
  intros Hr%reachable_inv. pose proof (inv_jobs _ Hr) as HJ. rewrite PeekReadyJob_spec, PeekDelayedJob_spec. split.
  - destruct (ready_root s t) as [er|] eqn:E.
    + split; [|done]. by apply root_least; [|apply not_stale|].
    + split_and!; try done. intros jid j Ha Hst Ht. eapply (ready_none s t); [done..|]. by apply key_ready.
  - destruct (delayed_root s t) as [er|] eqn:E.
    + split; [|done]. by apply root_least; [|apply not_stale|].
    + split_and!; try done. intros jid j Ha Hst Ht. eapply (delayed_none s t); [done..|]. by apply key_delayed.
Qed.

Lemma peek_least_witness :
  match PeekDelayedJob "t" demo with
  | OK er s' => (exists j, entry_job (mem demo) er = Some j /\ least (abs demo) (HDelayed "t") j) /\ s' = bump nCmdPeekDelayed demo
  | ERR e s' => e = ErrEntryMissing /\ s' = bump nCmdPeekDelayed demo /\
      (forall jid j, abs demo !! jid = Some j -> state j = Delayed -> tubeName j <> "t"%string)
  | _ => False
  end.
Proof. apply (peek_least demo "t" (after_reachable _)). Defined.

(** [KickN] kicks the first [n] buried jobs: while no buried job of the tube has
    been deleted, it returns the smaller of [n] and the number of buried jobs, and
    kicks that many, each time the first buried job of the tube. *)
Theorem kickn_effect s tube n :
  reachable s -> no_stale (mem s) (heaps s (HBuried tube)) -> 0 <= n ->
  let k := Z.min n (Z.of_nat (size (jobs_with (HBuried tube) (abs s)))) in
  exists s', KickN tube n s = OK k s' /\ kicked tube (Z.to_nat k) (abs s) (abs s').
Proof.
  intros Hr%reachable_inv Hns Hn k. unfold KickN. rewrite run_incr. set (s0 := bump nCmdKickN s).
  destruct (KickN_loop_spec tube (Z.to_nat n) 0 s0 (inv_jobs _ Hr) Hns) as (s' & Hop & Hk & _).
  exists s'. change (abs s0) with (abs s) in *. rewrite Hop. subst k.
  replace (Z.to_nat (Z.min n _)) with (Z.to_nat n `min` size (jobs_with (HBuried tube) (abs s)))%nat by lia.
  split; [|done]. f_equal. lia.
Qed.

(** No buried job of the tube was deleted. *)
Lemma demo_no_stale : no_stale (mem demo) (heaps demo (HBuried "t")).
Proof. apply no_stale_spec. vm_compute. reflexivity. Qed.
Lemma demo_buried : size (jobs_with (HBuried "t") (abs demo)) = 1%nat.
Proof. vm_compute. reflexivity. Qed.

Lemma kickn_effect_witness : exists s', KickN "t" 5 demo = OK 1 s' /\ kicked "t" 1 (abs demo) (abs s').
Proof.
  pose proof (kickn_effect demo "t" 5 (after_reachable _) demo_no_stale ltac:(done)) as H.
  rewrite demo_buried in H. exact H.
Defined.

(** ** Clients and statistics *)

(** [CheckClientState] splits the identifiers it is asked about into those of
    waiting, of idle and of unknown clients: every identifier is in exactly the list of
    its class, in the order asked, and the state is unchanged. *)
Theorem check_client_state s ids :
  reachable s ->
  CheckClientState ids s =
    OK (filter (fun i => client_class s i = Some true) ids,
        filter (fun i => client_class s i = Some false) ids,
        filter (fun i => client_class s i = None) ids) s.
Proof. intros Hr%reachable_inv. unfold CheckClientState. by rewrite CheckClientState_loop_spec by apply Hr. Qed.

(** ["a"] is idle, ["b"] waits, ["c"] never came. *)
Lemma waiting_demo_classes :
  client_class waiting_demo "a" = Some false /\ client_class waiting_demo "b" = Some true /\
  client_class waiting_demo "c" = None.
Proof. split_and!; vm_compute; reflexivity. Qed.

Lemma check_client_state_witness :
  CheckClientState ["a"; "b"; "c"]%string waiting_demo = OK (["b"], ["a"], ["c"])%string waiting_demo.
Proof.
  pose proof (check_client_state waiting_demo ["a"; "b"; "c"]%string (after_reachable _)) as H.
  rewrite !filter_cons, !filter_nil in H. destruct waiting_demo_classes as (Ha & Hb & Hc).
  rewrite Ha, Hb, Hc in H. exact H.
Defined.

(** The statistics of a tube are those of the table: the counts of ready, delayed
    and waiting are the numbers of ready and delayed jobs of the tube and of clients in
    its queue; a tube without statistics has no job in these states, no buried job and
    no waiting client. *)
Theorem tube_statistics s t :
  reachable s ->
  match TubeIdx.GetStatistics t (tubes s) with
  | inl st =>
    st !! "current-jobs-ready"%string = Some (YInt (Z.of_nat (size (jobs_with (HReady t) (abs s))))) /\
    st !! "current-jobs-delayed"%string = Some (YInt (Z.of_nat (size (jobs_with (HDelayed t) (abs s))))) /\
    st !! "current-waiting"%string = Some (YInt (Z.of_nat (length (waiters s t))))
  | inr e => e = ErrEntryMissing /\ waiters s t = [] /\
    (forall jid j, abs s !! jid = Some j -> tubeName j = t -> state j = Reserved)
  end.
Proof.
  intros Hr%reachable_inv. pose proof (inv_jobs _ Hr) as HJ.
  assert (forall k, keeps_deleted k = false -> length (entries (heaps s k)) = size (jobs_with k (abs s))) as Hc.
  { intros k Hk. apply heap_count; [done|by apply not_stale]. }
  pose proof (Hc (HReady t) eq_refl) as H1. pose proof (Hc (HDelayed t) eq_refl) as H2.
  pose proof (Len_view _ _ (ci_wq _ (inv_cli _ Hr) t)) as H3.
  unfold TubeIdx.GetStatistics. unfold waiters, wait_queue, heaps, heap_of, tube_state, Len in *.
  destruct (tubes s !! t) as [ts|] eqn:Ht; simpl in *.
  - rewrite <- H1, <- H2, <- H3. split_and!; reflexivity.
  - split_and!; [done..|]. intros jid j Ha Hn.
    destruct (abs_entry _ _ _ HJ Ha) as (ie & er & _ & _ & _ & _ & Hl & _ & Hin).
    unfold key_of, heaps, heap_of, tube_state, live in *.
    destruct (state j); simpl in *; rewrite ?Hn, ?Ht in Hin; try done; try (by apply elem_of_nil in Hin); by destruct Hl.
Qed.

(** The tube is known there. *)
Lemma waiting_demo_known : match TubeIdx.GetStatistics "t" (tubes waiting_demo) with inl _ => True | inr _ => False end.
Proof. vm_compute. exact I. Qed.

Lemma tube_statistics_witness :
  match TubeIdx.GetStatistics "t" (tubes waiting_demo) with
  | inl st => st !! "current-waiting"%string = Some (YInt (Z.of_nat (length (waiters waiting_demo "t"))))
  | inr _ => False
  end.
Proof.
  generalize (tube_statistics waiting_demo "t" (after_reachable _)) waiting_demo_known.
  destruct (TubeIdx.GetStatistics "t" (tubes waiting_demo)) as [st|e]; [|intros _ []].
  intros (_ & _ & H) _. exact H.
Defined.

(** C17: the schedule never misses a deadline: every reserved job belongs to a
    registered client in the client heap whose tick is not later than the job's
    expiry, every waiting client is in the heap with a tick not later than its
    deadline, and the wake-up time of the delayed jobs is not later than any of them. *)
Theorem schedule_is_timely s :
  reachable s ->
  (forall jid j, abs s !! jid = Some j -> state j = Reserved ->
     exists r c, r ∈ registered s /\ mclis (mem s) !! r = Some c /\ CliID c = reservedBy j /\
       r ∈ clientHeap s /\ TickAt c <= expiresAt j) /\
  (forall r c, r ∈ registered s -> mclis (mem s) !! r = Some c -> IsWaitingForResv c = true ->
     r ∈ clientHeap s /\ TickAt c <= ResvDeadlineAt c) /\
  (forall jid j, abs s !! jid = Some j -> state j = Delayed -> nextDelayTickAt s <= readyAt j).
Proof.
  intros Hr%reachable_inv. split_and!.
  - intros jid j Ha Hst. assert (key_of j = HReserved (reservedBy j)) as Hk by (by apply key_reserved).
    destruct (inv_own _ Hr _ _ _ Ha Hk) as (r & Hreg & Hc). unfold cid_of in Hc.
    destruct (mclis (mem s) !! r) as [c|] eqn:Hcl; [|done]. injection Hc as Hc. rewrite <- Hc in Hk.
    destruct (proj2 (inv_timely _ Hr r Hreg c Hcl) _ _ Ha Hk) as [? ?]. eauto 10.
  - intros r c Hreg Hc Hw. by apply (inv_timely _ Hr r Hreg c Hc).
  - apply Hr.
Qed.

Lemma schedule_is_timely_witness :
  exists j r c, abs demo !! 1 = Some j /\ mclis (mem demo) !! r = Some c /\ CliID c = reservedBy j /\
    r ∈ clientHeap demo /\ TickAt c <= expiresAt j.
Proof.
  pose proof demo_job_1 as E. destruct (abs demo !! 1) as [j|] eqn:Ha; [|discriminate E]. injection E as _ E1 _ _.
  destruct (schedule_is_timely demo (after_reachable _)) as (H & _).
  destruct (H 1 j Ha E1) as (r & c & _ & H1 & H2 & H3 & H4). exists j, r, c. repeat split; assumption.
Defined.

(** the wait queues agree with the clients: a client is in a tube's queue exactly
    when it is registered, waiting and watches the tube, and it is there once. *)
Theorem wait_queues_agree s t r :
  reachable s ->
  NoDup (waiters s t) /\
  (r ∈ waiters s t <-> exists c, r ∈ registered s /\ mclis (mem s) !! r = Some c /\
     IsWaitingForResv c = true /\ t ∈ WatchedTubes c).
Proof.
  intros Hr%reachable_inv. pose proof (inv_cli _ Hr) as HC. split; [by eapply qwf_NoDup, HC|]. split.
  - intros Hin. destruct (ci_in _ HC t r Hin) as (c & ? & ? & ? & ?). eauto 10.
  - intros (c & Hreg & Hc & Hw & Ht). by apply (ci_out _ HC r c Hreg Hc Hw).
Qed.

Lemma wait_queues_agree_witness :
  NoDup (waiters waiting_demo "t") /\ length (waiters waiting_demo "t") = 1%nat.
Proof. split; [apply (wait_queues_agree waiting_demo "t" 1%positive (after_reachable _))|vm_compute; reflexivity]. Defined.
