(* ===== verification/WaitProps.v ===== *)
(** Properties of the clients that wait for a reservation ([src/state/jsm.go]). *)
From stdpp Require Import base gmap list strings.
From Stdlib Require Import ZArith Lia.
From S2P Require Import Prelude GoHeap Job JobHeap ClientResv Index JSM JobInv Reserve Inv Tick Refine Machine.
From S2P Require Import Scenario Frame Waiting ProcSpec LocalJSM ProcWaits LocalWaits.
Local Open Scope Z_scope.

Section wait_props.

(** C11: no waiting request is forgotten and none is answered twice.  A reservation
    request is added to those that are waited for exactly when it is queued, and leaves
    them as they were when it is answered at once or refused; a tick divides the requests
    that were waited for into those that still are and those that its reservations answer,
    each of them once and under its own client and identifier; every other call leaves
    them alone. *)
Theorem waits_answered_once s k s' :
  reachable s -> call_ok k s -> final (run k s) = Some s' ->
  match k with
  | KAppend cid rid w now dl =>
    (exists r, AppendReservation cid rid w now dl s = OK r s' /\ answered_request r = (cid, rid) /\
       (r_Status r = Queued /\ waiting_requests s' ≡ₚ (cid, rid) :: waiting_requests s \/
        r_Status r = Matched /\ waiting_requests s' ≡ₚ waiting_requests s)) \/
    (exists e, AppendReservation cid rid w now dl s = ERR e s' /\ waiting_requests s' = waiting_requests s)
  | KTick dO rO now =>
    exists rs, Tick dO rO now s = OK rs s' /\ Forall is_answer rs /\
      waiting_requests s ≡ₚ waiting_requests s' ++ (answered_request <$> rs)
  | _ => waiting_requests s' = waiting_requests s
  end.
Proof.
  intros Hr%reachable_inv Hok Hf.
  destruct k as [c|tube n|now jid cid|cid rid w now dl|dO rO now|tube|tube|tube|jid|ids]; cbn [run] in Hf;
    try (eapply final_same; [|exact Hf]; intros P; unfold GetJob; walk; fail).
  - eapply final_same; [|exact Hf]. intros P. eapply triple_bind; [by apply exec_frame|]. intros a _. by apply triple_ret.
  - apply append_waits; [done|apply Hok..|]. unfold bind in Hf. by destruct (AppendReservation _ _ _ _ _ _).
  - destruct Hok as [Hn Hrg]. destruct (Tick_spec dO rO now s Hr Hn Hrg) as (ms & os & s1 & Hop & _).
    unfold bind in Hf. rewrite Hop in Hf. injection Hf as ->. exists (ms ++ os).
    destruct (Tick_accounts _ _ _ _ _ _ Hop) as [H1 H2]. by split_and!.
  - unfold bind, CheckClientState in Hf. rewrite CheckClientState_loop_spec in Hf by apply Hr. by injection Hf as ->.
Qed.

(** Client ["b"] waits until 100. *)
Lemma waiting_demo_waits : waiting_requests waiting_demo = [("b", "r")%string].
Proof. vm_compute. reflexivity. Qed.
Lemma call_ends s k : reachable s -> call_ok k s -> exists s', final (run k s) = Some s'.
Proof. intros Hr Hok. destruct (run_safe k s (reachable_inv _ Hr) Hok) as (s' & Hf & _). eauto. Qed.
Lemma waiting_demo_ok : call_ok (KTick ["t"%string] ["t"%string] 200) waiting_demo.
Proof.
  apply (bool_decide_eq_true_1 (call_ok (KTick ["t"%string] ["t"%string] 200) waiting_demo)). vm_compute. reflexivity.
Qed.

Lemma waits_answered_once_witness :
  exists rs s', Tick ["t"%string] ["t"%string] 200 waiting_demo = OK rs s' /\
    [("b", "r")%string] ≡ₚ waiting_requests s' ++ (answered_request <$> rs).
Proof.
  destruct (call_ends waiting_demo (KTick ["t"%string] ["t"%string] 200) (after_reachable _) waiting_demo_ok) as [s' Hf].
  rewrite <- waiting_demo_waits.
  destruct (waits_answered_once waiting_demo (KTick ["t"%string] ["t"%string] 200) s' (after_reachable _) waiting_demo_ok Hf)
    as (rs & H1 & _ & H2).
  exists rs, s'. split; [exact H1|exact H2].
Defined.
End wait_props.
