(* ===== verification/HeapProps.v ===== *)
(** Properties of the queues of the state machine: the job heaps
    ([src/state/job_heap.go]) and the queues and heap of waiting clients
    ([src/state/client_resv.go]). *)
From stdpp Require Import base gmap list strings sorting.
From Stdlib Require Import ZArith Lia.
From S2P Require Import Prelude GoHeap Job JobHeap ClientResv Heaps JobInv CliInv.
Local Open Scope Z_scope.

(** * Job heaps *)
Section job_heaps.
Abbreviation HM := (M error (Mem * jobHeap)).

(** Enqueue jobs one after the other, and dequeue [n] of them. *)
Fixpoint fill (jrs : list JobRef) : HM unit :=
  match jrs with [] => ret tt | jr :: jrs' => Enqueue jr ;; fill jrs' end.
Fixpoint drain (n : nat) : HM (list JobRef) :=
  match n with O => ret [] | S n' => jr <- Dequeue ;; l <- drain n' ;; ret (jr :: l) end.

(** The jobs in a heap. *)
Definition heap_jobs (m : Mem) (h : jobHeap) : list JobRef := omap (fun er => je_Job <$> ments m !! er) (entries h).

(** [a] comes before [b]: it is at least as urgent, and not younger if equally urgent. *)
Definition in_order (m : Mem) (k : LessKind) (a b : JobRef) : Prop :=
  forall ja jb, mjobs m !! a = Some ja -> mjobs m !! b = Some jb ->
    (urgency k ja < urgency k jb)%Z \/ urgency k ja = urgency k jb /\ (id ja <= id jb)%Z.

Lemma less_urgency k ja jb : job_less k jb ja = false ->
  (urgency k ja < urgency k jb)%Z \/ urgency k ja = urgency k jb /\ (id ja <= id jb)%Z.
Proof. rewrite <- not_true_iff_false, job_less_before. unfold before. lia. Qed.

Lemma omap_ext_elem {A B} (f g : A -> option B) (l : list A) : (forall x, x ∈ l -> f x = g x) -> omap f l = omap g l.
Proof.
  induction l as [|x l IH]; intros He; [done|]. cbn. rewrite (He x) by left.
  destruct (g x); [f_equal|]; apply IH; intros y Hy; apply He; by right.
Qed.

(** The jobs after a push and after a removal. *)
Lemma pushed_jobs m h m1 h1 jr er :
  mem_wf m -> jh_wf m h -> heap_pushed jr er m h m1 h1 -> heap_jobs m1 h1 ≡ₚ jr :: heap_jobs m h.
Proof.
  intros Hm Hw [P1 P2 P3 P4 P5 P6 P7 P8 P9 P10].
  assert (forall x, je_Job <$> ments m1 !! x = if decide (er = x) then Some jr else je_Job <$> ments m !! x) as Hx.
  { intros x. by rewrite <- !lookup_fmap, P5, lookup_insert. }
  unfold heap_jobs. rewrite P7. cbn. rewrite Hx, decide_True by done. constructor.
  rewrite (omap_ext_elem _ (fun x => je_Job <$> ments m !! x)); [done|]. intros x Hin. rewrite Hx, decide_False; [done|].
  intros <-. destruct (jh_wf_entry _ _ _ Hw Hin) as (_ & e & _ & _ & He & _). apply (mw_ents _ Hm) in He. lia.
Qed.

Lemma removed_jobs m h m1 h1 er e :
  heap_removed er m h m1 h1 -> ments m !! er = Some e -> heap_jobs m h ≡ₚ je_Job e :: heap_jobs m1 h1.
Proof.
  intros R He. unfold heap_jobs. rewrite (hr_entries _ _ _ _ _ R). cbn. rewrite He. cbn. constructor.
  rewrite (omap_ext_elem (fun x => je_Job <$> ments m1 !! x) (fun x => je_Job <$> ments m !! x)); [done|].
  intros x _. by rewrite <- !lookup_fmap, (hr_ents _ _ _ _ _ R).
Qed.

Lemma pushed_mem_wf m h m1 h1 jr er : mem_wf m -> heap_pushed jr er m h m1 h1 -> mem_wf m1.
Proof.
  intros [M1 M2 M3] [P1 P2 P3 P4 P5 P6 P7 P8 P9 P10]. split; rewrite P2.
  - rewrite P3. intros r j ?%M1. lia.
  - intros r e He. assert (je_Job <$> ments m1 !! r = if decide (er = r) then Some jr else je_Job <$> ments m !! r) as Hx.
    { by rewrite <- !lookup_fmap, P5, lookup_insert. }
    rewrite He in Hx. case_decide; [subst; lia|]. destruct (ments m !! r) as [x|] eqn:Hr; [|done]. apply M2 in Hr. lia.
  - rewrite P4. intros r c ?%M3. lia.
Qed.

Lemma fill_spec jrs m h :
  mem_wf m -> jh_wf m h -> jh_sorted m h -> Forall (fun r => is_Some (mjobs m !! r)) jrs ->
  exists m' h', fill jrs (m, h) = OK tt (m', h') /\ jh_wf m' h' /\ jh_sorted m' h' /\
    lessFn h' = lessFn h /\ mjobs m' = mjobs m /\ heap_jobs m' h' ≡ₚ heap_jobs m h ++ jrs.
Proof.
  revert m h. induction jrs as [|jr jrs IH]; intros m h Hm Hw Hs Hall.
  { exists m, h. by rewrite app_nil_r. }
  apply Forall_cons in Hall as [[j Hj] Hall].
  destruct (Enqueue_spec m h jr j Hm Hw Hj) as (m1 & h1 & Hop & P).
  destruct (IH m1 h1) as (m2 & h2 & Hop2 & A & B & C & D & F);
    [by eapply pushed_mem_wf|apply P|by apply P|by rewrite (hp_jobs _ _ _ _ _ _ P)|].
  exists m2, h2. split_and!; [|done|done| | |].
  - cbn [fill]. by rewrite (bind_OK _ _ _ _ _ Hop).
  - rewrite C. apply P.
  - rewrite D. apply P.
  - rewrite F, (pushed_jobs _ _ _ _ _ _ Hm Hw P). by rewrite <- Permutation_middle.
Qed.

Lemma heap_jobs_length m h : jh_wf m h -> length (heap_jobs m h) = Len h.
Proof.
  intros Hw. unfold heap_jobs, Len. assert (forall er, er ∈ entries h -> is_Some (je_Job <$> ments m !! er)) as Hl.
  { intros er Hin. destruct (jh_wf_entry _ _ _ Hw Hin) as (_ & e & _ & _ & -> & _). simpl. eauto. }
  induction (entries h) as [|er es IH]; [done|]. cbn. destruct (Hl er) as [x Hx]; [left|]. rewrite Hx. cbn. f_equal.
  apply IH. intros y Hy. apply Hl. by right.
Qed.

Lemma drain_spec n m h :
  Len h = n -> jh_wf m h -> jh_sorted m h ->
  exists l m' h', drain n (m, h) = OK l (m', h') /\ entries h' = [] /\ lessFn h' = lessFn h /\ mjobs m' = mjobs m /\
    l ≡ₚ heap_jobs m h /\ StronglySorted (in_order m (lessFn h)) l.
Proof.
  revert m h. induction n as [|n IH]; intros m h Hn Hw Hs.
  { exists [], m, h. unfold Len in Hn. apply nil_length_inv in Hn. unfold heap_jobs. rewrite Hn. split_and!; try done. constructor. }
  destruct (Peek_Some h) as (er & Hp & Hin); [lia|].
  destruct (jh_wf_entry _ _ _ Hw Hin) as (_ & e & j & _ & He & _ & Hj).
  destruct (Dequeue_spec m h er e Hw) as (m1 & h1 & Hop & R); [|done|].
  { unfold Peek in Hp. by case_match. }
  pose proof (removed_jobs _ _ _ _ _ _ R He) as Hperm.
  destruct (IH m1 h1) as (l & m2 & h2 & Hop2 & A & B & C & D & F); [|apply R|by apply R|].
  { pose proof (Permutation_length (hr_entries _ _ _ _ _ R)) as HL. unfold Len in *. simpl in HL. lia. }
  exists (je_Job e :: l), m2, h2. split_and!; [|done| | |by rewrite D, Hperm|].
  - cbn [drain]. by rewrite (bind_OK _ _ _ _ _ Hop), (bind_OK _ _ _ _ _ Hop2).
  - rewrite B. apply R.
  - rewrite C. apply R.
  - rewrite (hr_less _ _ _ _ _ R) in F. constructor.
    + unfold in_order in *. by rewrite (hr_jobs _ _ _ _ _ R) in F.
    + apply Forall_forall. intros x Hx. rewrite D in Hx. unfold heap_jobs in Hx.
      apply list_elem_of_omap in Hx as (er' & Hin' & Hx).
      assert (er' ∈ entries h) as Hin2 by (rewrite (hr_entries _ _ _ _ _ R); by right).
      rewrite <- lookup_fmap, (hr_ents _ _ _ _ _ R), lookup_fmap in Hx.
      destruct (ments m !! er') as [e'|] eqn:He'; [|done]. injection Hx as <-.
      intros ja jb Ha Hb. rewrite Hj in Ha. injection Ha as <-.
      apply less_urgency, (Peek_least m h er er'); try done; unfold entry_job; by rewrite ?He, ?He'.
Qed.

(** C26: a job heap is a priority queue: jobs enqueued in any order into a new heap are
    dequeued in the order of its comparison function (priority, time it becomes ready,
    expiry or burial time, ties by identifier), each exactly once, and the heap is
    empty again. *)
Theorem heap_sorts k jrs m :
  mem_wf m -> Forall (fun r => is_Some (mjobs m !! r)) jrs ->
  exists l m' h', (fill jrs ;; drain (length jrs)) (m, mkJobHeap [] k) = OK l (m', h') /\
    entries h' = [] /\ mjobs m' = mjobs m /\ l ≡ₚ jrs /\ StronglySorted (in_order m k) l.
Proof.
  intros Hm Hall. destruct (fill_spec jrs m (mkJobHeap [] k)) as (m1 & h1 & Hop & A & B & C & D & F);
    [done|apply jh_wf_empty|apply jh_sorted_empty|done|]. cbn in C, F.
  destruct (drain_spec (length jrs) m1 h1) as (l & m2 & h2 & Hop2 & A2 & B2 & C2 & D2 & F2); [|done|done|].
  { rewrite <- (heap_jobs_length _ _ A). by apply Permutation_length. }
  exists l, m2, h2. rewrite (bind_OK _ _ _ _ _ Hop). split_and!; [done|done|congruence|by rewrite D2|].
  rewrite C in F2. unfold in_order in *. by rewrite D in F2.
Qed.

(** Two jobs of the same priority and one that is more urgent. *)
Definition three_jobs : Mem :=
  let j i p := mkJob LocalJob i p 0 60 0 None "t" 0 0 Ready 0 "" 0 0 0 0 0 0 in
  mkMem {[ 1%positive := j 1 5; 2%positive := j 2 5; 3%positive := j 3 1 ]} ∅ ∅ 4.
Lemma three_jobs_wf : mem_wf three_jobs.
Proof.
  split; intros r x; simpl; [|by rewrite lookup_empty..]. intros Hx.
  apply lookup_insert_Some in Hx as [[<- _]|[_ Hx]]; [done|]. apply lookup_insert_Some in Hx as [[<- _]|[_ Hx]]; [done|].
  by apply lookup_singleton_Some in Hx as [<- _].
Qed.

Lemma heap_sorts_witness :
  exists l m' h', (fill [2; 1; 3]%positive ;; drain 3) (three_jobs, NewPriorityJobs) = OK l (m', h') /\
    entries h' = [] /\ l ≡ₚ [2; 1; 3]%positive /\ StronglySorted (in_order three_jobs PriorityLess) l.
Proof.
  destruct (heap_sorts PriorityLess [2; 1; 3]%positive three_jobs three_jobs_wf) as (l & m' & h' & H1 & H2 & _ & H3 & H4).
  { repeat constructor; eexists; reflexivity. }
  exists l, m', h'. repeat split; assumption.
Defined.

(** [RemoveAt] takes exactly the given entry out of a heap, wherever it is: it
    returns the entry, the other entries stay, every index again names its position,
    the heap order is kept and no job changes. *)
Theorem heap_remove_at m h er :
  jh_wf m h -> jh_sorted m h -> er ∈ entries h ->
  exists m' h', RemoveAt er (m, h) = OK er (m', h') /\ entries h ≡ₚ er :: entries h' /\
    jh_wf m' h' /\ jh_sorted m' h' /\ mjobs m' = mjobs m /\ je_Job <$> ments m' = je_Job <$> ments m.
Proof.
  intros Hw Hs Hin. destruct (RemoveAt_spec m h er Hw Hin) as (m' & h' & Hop & [R1 R2 R3 R4 R5 R6 R7 R8 R9]).
  exists m', h'. split_and!; auto.
Qed.

(** A heap of two entries. *)
Definition two_entries : Mem :=
  mkMem (mjobs three_jobs) {[ 4%positive := mkJobEntry 3 0; 5%positive := mkJobEntry 1 1 ]} ∅ 6.
Lemma two_entries_heap :
  jh_wf two_entries (mkJobHeap [4; 5]%positive PriorityLess) /\ jh_sorted two_entries (mkJobHeap [4; 5]%positive PriorityLess).
Proof.
  split.
  - apply jh_wf_alt. split.
    + intros [|[|i]] r Hr; simpl in Hr; by simplify_eq.
    + intros r Hr. simpl in Hr. rewrite !elem_of_cons, elem_of_nil in Hr. destruct Hr as [->|[->|[]]]; by eexists.
  - intros c [Hc1 Hc2] a b Ha Hb. simpl in *. assert (c = 1)%nat as -> by lia. simpl in *. by simplify_eq.
Qed.

Lemma heap_remove_at_witness :
  exists m' h', RemoveAt 4 (two_entries, mkJobHeap [4; 5]%positive PriorityLess) = OK 4%positive (m', h') /\
    [4; 5]%positive ≡ₚ 4%positive :: entries h' /\ jh_sorted m' h'.
Proof.
  destruct (heap_remove_at two_entries (mkJobHeap [4; 5]%positive PriorityLess) 4) as (m' & h' & H1 & H2 & _ & H3 & _);
    [apply two_entries_heap|apply two_entries_heap|left|]. exists m', h'. repeat split; assumption.
Defined.
End job_heaps.

(** * Waiting clients *)
Section waiting_clients.
Import CliQueue.

(** a queue of waiting clients is first in first out with removal by identifier:
    [Enqueue] refuses a client already queued and otherwise adds it at the end,
    [Dequeue] shows the first, [Remove] takes out the named client and keeps the order
    of the others, and fails with [ErrEntryMissing] when it is not queued. *)
Theorem queue_is_fifo m q cid r :
  qwf m q -> cid_of m r = Some cid ->
  (if bool_decide (Exists (fun x => cid_of m x = Some cid) (qview q)) then
     (exists x q', x ∈ qview q /\ cid_of m x = Some cid /\ Enqueue cid r q = inr ErrEntryExists /\
       Remove cid q = inl q' /\ qview q' = filter (fun y => y <> x) (qview q) /\ qwf m q')
   else
     (exists q', Enqueue cid r q = inl q' /\ qview q' = qview q ++ [r] /\ qwf m q') /\
     Remove cid q = inr ErrEntryMissing) /\
  Dequeue q = match qview q with x :: _ => inl x | [] => inr ErrContainerEmpty end.
Proof.
  intros Hq Hc. split.
  - case_bool_decide as Hex.
    + apply Exists_exists in Hex as (x & Hin & Hx). destruct (Remove_spec m q x cid Hq Hin Hx) as (q' & H1 & H2 & H3).
      destruct (qwf_elem _ _ _ _ Hq Hin Hx) as (el & Hel & _).
      exists x, q'. split_and!; try done. unfold Enqueue, Contains. by rewrite bool_decide_eq_true_2 by eauto.
    + assert (forall x, x ∈ qview q -> cid_of m x <> Some cid) as Hno.
      { intros x Hin Hx. apply Hex, Exists_exists. eauto. }
      split; [by apply q_Enqueue_spec|]. unfold Remove. destruct (qm q !! cid) as [el|] eqn:Hel; [|done].
      destruct (qw_map _ _ Hq _ _ Hel) as [Hin Hce]. by destruct (Hno (el_Value el)); [apply list_elem_of_fmap_2|].
  - unfold Dequeue, qview. by destruct (ql q).
Qed.

(** Two clients, the first of them queued. *)
Definition two_clients : Mem :=
  let c i t := mkClientResvEntry i ["t"%string] 100 true t "r" (-1) in
  mkMem ∅ ∅ {[ 1%positive := c "a"%string 50; 2%positive := c "b"%string 40 ]} 3.
Definition one_queued : clientResvQueue := mkQueue {[ "a"%string := mkElement 1 1 ]} [mkElement 1 1] 2.
Lemma one_queued_wf : qwf two_clients one_queued.
Proof.
  destruct (q_Enqueue_spec two_clients newClientResvQueue 1 "a" (qwf_new _) eq_refl) as (q & H1 & _ & H2);
    [by intros r ?%elem_of_nil|]. vm_compute in H1. injection H1 as <-. exact H2.
Qed.

Lemma queue_is_fifo_witness :
  (exists q', Enqueue "b" 2 one_queued = inl q' /\ qview q' = [1; 2]%positive) /\
  Remove "b" one_queued = inr ErrEntryMissing /\ Dequeue one_queued = inl 1%positive.
Proof.
  destruct (queue_is_fifo two_clients one_queued "b" 2 one_queued_wf eq_refl) as [[(q' & H1 & H2 & _) H3] H4].
  split; [exists q'; split; [exact H1|exact H2]|]. split; [exact H3|exact H4].
Defined.
End waiting_clients.

Section client_heaps.
Import CliHeap CliHeapLaws.

(** [UpdateTickAt] reschedules one client: its time becomes the new one, the heap
    holds the same clients, every index names its position, the other fields of all
    clients are unchanged, and the client at the top afterwards has the least time. *)
Theorem update_tick m h r v c :
  ch_wf m h -> ch_sorted m h -> r ∈ h -> mclis m !! r = Some c ->
  exists m' h', UpdateTickAt r v (m, h) = OK tt (m', h') /\ h' ≡ₚ h /\ ch_wf m' h' /\ ch_sorted m' h' /\
    (forall x, no_idx <$> mclis m' !! x = no_idx <$> <[r := set_TickAt v c]> (mclis m) !! x) /\
    (forall top ct x cx, Peek h' = Some top -> mclis m' !! top = Some ct -> x ∈ h -> mclis m' !! x = Some cx ->
       TickAt ct <= TickAt cx).
Proof.
  intros Hw Hs Hr Hc. destruct (cheap_UpdateTickAt m h r v c Hw Hr Hc) as (m' & h' & Hop & Hw' & Hm & Hp & _ & Hso).
  exists m', h'. split_and!; [done|done|done|by apply Hso|apply Hm|]. intros top ct x cx Ht Hct Hx Hcx.
  apply (cheap_Peek_least m' h' top ct x cx); try done; [by apply Hso|]. by rewrite Hp.
Qed.

(** Both clients in the heap. *)
Definition both_clients : Mem :=
  let c i t k := mkClientResvEntry i ["t"%string] 100 true t "r" k in
  mkMem ∅ ∅ {[ 1%positive := c "a"%string 50 1; 2%positive := c "b"%string 40 0 ]} 3.
Lemma both_clients_heap : ch_wf both_clients [2; 1]%positive /\ ch_sorted both_clients [2; 1]%positive.
Proof.
  split.
  - apply ch_wf_alt. split.
    + intros [|[|i]] r Hr; simpl in Hr; by simplify_eq.
    + intros r Hr. rewrite !elem_of_cons, elem_of_nil in Hr. destruct Hr as [->|[->|[]]]; by eexists.
  - intros c [Hc1 Hc2] a b Ha Hb. simpl in *. assert (c = 1)%nat as -> by lia. simpl in *. by simplify_eq.
Qed.

Lemma update_tick_witness :
  exists m' h', UpdateTickAt 2 60 (both_clients, [2; 1]%positive) = OK tt (m', h') /\ h' ≡ₚ [2; 1]%positive /\ ch_sorted m' h'.
Proof.
  destruct (update_tick both_clients [2; 1]%positive 2 60 _ (proj1 both_clients_heap) (proj2 both_clients_heap)
    ltac:(left) eq_refl) as (m' & h' & H1 & H2 & _ & H3 & _).
  exists m', h'. repeat split; assumption.
Defined.
End client_heaps.
