(* ===== verification/SnapshotProps.v ===== *)
(** Properties of snapshots ([src/store/snapshot.go] and the [Snapshot] part of
    [src/state/jsm.go]). *)
From stdpp Require Import base gmap list strings.
From Stdlib Require Import ZArith Lia.
From S2P Require Import Prelude GoHeap Job JobHeap ClientResv Index JSM Heaps JobInv.
From S2P Require Import Transitions Commands CliInv Clients Reserve Inv Tick Refine Machine.
From S2P Require Import Scenario Snapshot Restore Parse Persist.
Local Open Scope Z_scope.

(** the round trip of a snapshot: the messages made from a reachable state, read
    back into a new state machine, always restore, and the restored table holds the
    same jobs under the same identifiers, filed in the heaps their states name; the
    client heap is the same position by position.  The watched tubes, the wake-up time
    of delayed jobs and deleted identifiers are not restored, as [restored_from]
    records.  The time to run and the body size of a job must fit the 32-bit fields of
    the message. *)
Theorem snapshot_round_trips s sent ctx1 ctx2 :
  reachable s -> JobIdx.Jobs (jobs s) sent ->
  (forall jid j, abs s !! jid = Some j -> in_i32 (ttr j) /\ in_i32 (bodySize j)) ->
  Z.of_nat (length (clientHeap s)) < 2 ^ 31 -> uncancelled ctx1 -> uncancelled ctx2 ->
  exists s' l, RestoreSnapshotTo ctx1 ctx2 (NewSnapshotFrom sent s) NewJSM = OK s' l /\ restored_from s s'.
Proof.
  intros Hr Hsent Hfit Hlen Hc1 Hc2. pose proof (reachable_inv _ Hr) as HI.
  apply snapshot_round_trip; try done. intros jid j Ha. destruct (Hfit _ _ Ha). split; [|by split].
  rewrite (abs_id _ _ _ (inv_jobs _ HI) Ha). apply (reachable_ids _ Hr). eauto.
Qed.

(** The job objects in the order of the map. *)
Definition all_jobs (s : localJSM) : list JobRef := (ie_job ∘ snd) <$> map_to_list (jm (jobs s)).
Lemma all_jobs_sent s : JobIdx.Jobs (jobs s) (all_jobs s).
Proof. unfold JobIdx.Jobs. done. Qed.

(** The sizes of all jobs fit. *)
Definition sizes_fit (s : localJSM) : Prop := map_Forall (fun _ j => in_i32 (ttr j) /\ in_i32 (bodySize j)) (abs s).
#[export] Instance in_i32_dec z : Decision (in_i32 z).
Proof. unfold in_i32. apply _. Defined.
#[export] Instance sizes_fit_dec s : Decision (sizes_fit s).
Proof. unfold sizes_fit. apply _. Defined.
Lemma waiting_demo_sizes : sizes_fit waiting_demo.
Proof. apply (bool_decide_eq_true_1 (sizes_fit waiting_demo)). vm_compute. reflexivity. Qed.
Definition bodies_fit (s : localJSM) : Prop :=
  map_Forall (fun _ j => in_i32 (ttr j) /\ in_i32 (bodySize j) /\ body j <> Some []) (abs s).
#[export] Instance bodies_fit_dec s : Decision (bodies_fit s).
Proof. unfold bodies_fit. apply _. Defined.
(** Two jobs with bodies, and a client that waits for another tube. *)
Definition stored_demo : localJSM :=
  after [KCmd (CPut 10 5 0 60 2 (Some [Byte.x41; Byte.x42]) "t"); KCmd (CPut 11 7 30 60 1 (Some [Byte.x43]) "t");
         KAppend "a" "r" ["u"%string] 12 100].
Lemma stored_demo_bodies : bodies_fit stored_demo.
Proof. apply (bool_decide_eq_true_1 (bodies_fit stored_demo)). vm_compute. reflexivity. Qed.
Lemma stored_demo_heap : length (clientHeap stored_demo) = 1%nat.
Proof. vm_compute. reflexivity. Qed.
Lemma waiting_demo_heap : length (clientHeap waiting_demo) = 2%nat.
Proof. vm_compute. reflexivity. Qed.

Lemma snapshot_round_trips_witness :
  exists s' l, RestoreSnapshotTo None None (NewSnapshotFrom (all_jobs waiting_demo) waiting_demo) NewJSM = OK s' l /\
    restored_from waiting_demo s'.
Proof.
  apply snapshot_round_trips; [apply after_reachable|apply all_jobs_sent|exact waiting_demo_sizes| |intros i; reflexivity..].
  rewrite waiting_demo_heap. reflexivity.
Defined.

(** * Snapshots on disk *)
Lemma snapshot_bodies s sent :
  Inv s -> JobIdx.Jobs (jobs s) sent ->
  (forall jid j, abs s !! jid = Some j -> in_i32 (ttr j) /\ in_i32 (bodySize j) /\ body j <> Some []) ->
  Forall (fun jp => jp_Body jp <> Some []) (sp_Jobs (NewSnapshotFrom sent s)).
Proof.
  intros HI Hs Hb. simpl. apply Forall_fmap, Forall_forall. intros j Hj. simpl.
  apply (sent_elem s sent j (inv_jobs _ HI) Hs) in Hj. by apply (Hb _ _ Hj).
Qed.

Section persisted.
Context (proto_Marshal : SnapshotProto -> list Byte.byte + string) (proto_Unmarshal : list Byte.byte -> SnapshotProto + string).
(** A message reads back as it was written; an empty body that is not nil would not. *)
Hypothesis codec : forall m b, Forall (fun jp => jp_Body jp <> Some []) (sp_Jobs m) ->
  proto_Marshal m = inl b -> proto_Unmarshal b = inl m.
Context {K : Type} (sink : SnapshotSink K) (laws : SinkLaws).

End persisted.


(** a restored state machine works: when no job is delayed, the state restored from
    a snapshot of a reachable state satisfies the whole invariant, and every further
    call whose caller keeps the contract returns and keeps it. *)
Theorem restored_machine_works s sent s' l k :
  reachable s -> JobIdx.Jobs (jobs s) sent ->
  (forall jid j, abs s !! jid = Some j -> in_i32 (ttr j) /\ in_i32 (bodySize j) /\ state j <> Delayed) ->
  Z.of_nat (length (clientHeap s)) < 2 ^ 31 ->
  RestoreSnapshotTo None None (NewSnapshotFrom sent s) NewJSM = OK s' l -> call_ok k s' ->
  Inv s' /\ exists s'', final (run k s') = Some s'' /\ Inv s''.
Proof.
  intros Hr Hsent Hj Hlen Hop Hk. pose proof (reachable_inv _ Hr) as HI.
  destruct (snapshot_round_trip s sent None None HI Hsent) as (s1 & l1 & Hop1 & R); [|done|done|done|].
  { intros jid j Ha. destruct (Hj _ _ Ha) as (? & ? & _). split; [|by split].
    rewrite (abs_id _ _ _ (inv_jobs _ HI) Ha). apply (reachable_ids _ Hr). eauto. }
  rewrite Hop in Hop1. injection Hop1 as <- <-.
  assert (Inv s') as HI' by (eapply restored_inv; [done..|]; intros jid j Ha; by apply (Hj _ _ Ha)).
  split; [done|]. destruct (run_safe k s' HI' Hk) as (s'' & ? & ? & _). eauto.
Qed.

(** A run without delayed jobs, and what its snapshot restores. *)
Definition plain_demo : localJSM := after [put 10 5 0 60; put 11 3 0 60; resv "a" 13 100; resv "b" 13 100; resv "c" 14 100].
Abbreviation plain_restored := (RestoreSnapshotTo None None (NewSnapshotFrom (all_jobs plain_demo) plain_demo) NewJSM).
Definition undelayed (s : localJSM) : Prop :=
  map_Forall (fun _ j => in_i32 (ttr j) /\ in_i32 (bodySize j) /\ state j <> Delayed) (abs s).
#[export] Instance undelayed_dec s : Decision (undelayed s).
Proof. unfold undelayed. apply _. Defined.
Lemma plain_demo_ok : undelayed plain_demo /\ length (clientHeap plain_demo) = 3%nat.
Proof. split; [apply (bool_decide_eq_true_1 (undelayed plain_demo))|]; vm_compute; reflexivity. Qed.
Lemma plain_restored_OK : match plain_restored with OK _ _ => True | _ => False end.
Proof. vm_compute. exact I. Qed.

Lemma restored_machine_works_witness :
  exists s' l, plain_restored = OK s' l /\ Inv s' /\ exists s'', final (run (KKickN "t" 3) s') = Some s'' /\ Inv s''.
Proof.
  destruct plain_demo_ok as [Hu Hl]. pose proof plain_restored_OK as HO.
  destruct plain_restored as [s' l|e l| |] eqn:Hop; [|destruct HO..].
  exists s', l. split; [reflexivity|].
  apply (restored_machine_works plain_demo (all_jobs plain_demo) s' l (KKickN "t" 3) (after_reachable _) (all_jobs_sent _) Hu);
    [rewrite Hl; reflexivity|exact Hop|exact I].
Defined.

(** C35: the round trip of one job through its message is exact precisely when the
    identifier is a 64-bit one and the time to run and the body size fit 32 bits; then
    all fields come back, and only the implementing type differs. *)
Theorem job_message_exact j :
  NewJobFromJobProto (JobToJobProto j) = rewrap j <-> fits j.
Proof.
  split; [|apply job_round_trip]. intros E. unfold fits. destruct j. unfold NewJobFromJobProto, JobToJobProto, rewrap in E.
  simpl in *. injection E as E1 E2 E3. rewrite <- E1, <- E2, <- E3. eauto with go.
Qed.

(** ** A failed restore *)

(** The state machine apart from the objects allocated. *)
Definition outer (s : localJSM) : localJSM := set_mem empty_Mem s.
Definition untouched (s : localJSM) (l : localSnapshot) : Prop := outer (l_jsm l) = outer s.

Section untouched.
Context (s : localJSM).
Implicit Types A : Type.

Lemma untouched_parts {A} (op : SM A) : (forall l, match op l with OK _ l' | ERR _ l' => outer (l_jsm l') = outer (l_jsm l) | _ => True end) ->
  keeps (untouched s) op.
Proof. intros Hop l Hl. specialize (Hop l). unfold untouched in *. destruct (op l); congruence. Qed.

Lemma untouched_on_ti {A} (op : M error (Mem * tubeIndex) A) : keeps (untouched s) (on_ti op).
Proof. apply untouched_parts. intros l. unfold on_ti, zoom. by destruct (op _). Qed.
Lemma untouched_on_ri {A} (op : M error (Mem * reservedJobsIndex) A) : keeps (untouched s) (on_ri op).
Proof. apply untouched_parts. intros l. unfold on_ri, zoom. by destruct (op _). Qed.
Lemma untouched_on_lheap {A} (op : M error (Mem * CliHeap.clientResvHeap) A) : keeps (untouched s) (on_lheap op).
Proof. apply untouched_parts. intros l. unfold on_lheap, zoom. by destruct (op _). Qed.
Lemma untouched_lift {A} (f : localSnapshot -> A + error) : keeps (untouched s) (l_lift f).
Proof. apply untouched_parts. intros l. unfold l_lift. by destruct (f l). Qed.
Lemma untouched_ret {A} (a : A) : keeps (untouched s) (ret a).
Proof. by intros l Hl. Qed.
Lemma untouched_raise {A} e : keeps (untouched s) (raise (A:=A) e).
Proof. by intros l Hl. Qed.

Ltac untouch1 :=
  first [ apply keeps_bind; [|intros ?] | apply keeps_try | apply keeps_deref | apply untouched_on_ti
    | apply untouched_on_ri | apply untouched_on_lheap | apply untouched_lift | apply untouched_ret
    | apply untouched_raise | (progress unfold send_job, send_client, l_set_entry); by intros l Hl
    | by intros l Hl | case_match ].
Ltac untouch := repeat untouch1.

Lemma untouched_restoreJob j : keeps (untouched s) (restoreJob j).
Proof. unfold restoreJob. untouch. Qed.
Lemma untouched_waiting cid cli ts : keeps (untouched s) (restore_waiting cid cli ts).
Proof. induction ts as [|t ts IH]; simpl; untouch. done. Qed.
Lemma untouched_restoreClient cli : keeps (untouched s) (restoreClient cli).
Proof. unfold restoreClient. untouch. apply untouched_waiting. Qed.
Lemma untouched_RestoreJobs ctx i jps : keeps (untouched s) (RestoreJobs ctx i (send_job <$> jps)).
Proof.
  revert i. induction jps as [|jp jps IH]; intros i; [by intros l Hl|]. rewrite fmap_cons. cbn [RestoreJobs].
  repeat (apply untouched_restoreJob || apply IH || untouch1).
Qed.
Lemma untouched_RestoreClients ctx n cps : keeps (untouched s) (RestoreClients ctx n (send_client <$> cps)).
Proof.
  assert (forall i, keeps (untouched s) (RestoreClients_loop ctx i (send_client <$> cps))) as Hloop.
  { induction cps as [|cp cps IH]; intros i; [by intros l Hl|]. rewrite fmap_cons. cbn [RestoreClients_loop].
    repeat (apply untouched_restoreClient || apply IH || untouch1). }
  unfold RestoreClients. untouch. apply Hloop.
Qed.
End untouched.

(** a failed restore leaves the state machine alone: whatever the snapshot and
    whenever it is cancelled, when [RestoreSnapshotTo] returns an error the indexes,
    queues, counters and times of the machine it was given are what they were. *)
Theorem failed_restore_harmless ctx1 ctx2 snap jsm e l :
  RestoreSnapshotTo ctx1 ctx2 snap jsm = ERR e l -> outer (l_jsm l) = outer jsm.
Proof.
  intros Hop. assert (keeps (untouched jsm) (restoreTo ctx1 ctx2 snap)) as Hk.
  { assert (forall B (r : option error * list B), keeps (untouched jsm) (await r)) as Hw.
    { intros B r. unfold await. repeat case_match; by intros ? ?. }
    apply keeps_bind; [apply keeps_bind; [apply untouched_RestoreClients|apply Hw]|intros _].
    apply keeps_bind; [apply keeps_bind; [apply untouched_RestoreJobs|apply Hw]|intros _]. by intros l0 Hl0. }
  specialize (Hk (newLocalSnapshot jsm) eq_refl). unfold RestoreSnapshotTo in Hop. by rewrite Hop in Hk.
Qed.

(** Two messages for the same job. *)
Definition twin_jobs : SnapshotProto :=
  let jp := JobToJobProto (mkJob LocalJob 7 1 0 60 0 None "t" 0 0 Ready 0 "" 0 0 0 0 0 0) in mkSnapshotProto [jp; jp] [].
Abbreviation twin_restore := (RestoreSnapshotTo None None twin_jobs NewJSM).
Lemma twin_fails : match twin_restore with ERR ErrEntryExists _ => True | _ => False end.
Proof. vm_compute. exact I. Qed.

Lemma failed_restore_harmless_witness :
  exists l, twin_restore = ERR ErrEntryExists l /\ outer (l_jsm l) = outer NewJSM.
Proof.
  pose proof twin_fails as HO. destruct twin_restore as [s' l|e l| |] eqn:Hop; [destruct HO| |destruct HO..].
  destruct e; try destruct HO. exists l. split; [reflexivity|]. exact (failed_restore_harmless None None twin_jobs NewJSM _ l Hop).
Defined.
