(* ===== verification/ProtoProps.v ===== *)
(** Properties of the client protocol: framing ([src/beanstalkd/core/parse.go]),
    command lines ([cmd_data.go]) and the command processor ([cmd_proc.go]). *)
From stdpp Require Import base gmap list strings.
From Stdlib Require Import ZArith Lia.
From Stdlib Require Strings.Byte.
From S2P Require Import Prelude Job JSM Inv Machine Scenario Parse CmdData.
From S2P Require Import Processor ProcSpec LocalJSM.
Import Cmd.
Local Open Scope Z_scope.

(** * Framing *)
Section framing_props.
Local Open Scope nat_scope.

(** how the bytes of a stream are cut into chunks makes no difference: two readers
    that deliver the same bytes, in any two divisions, give the same line, the one up
    to the first CR LF, and leave the same bytes for the next call, whenever the
    delimiter is within the limit. *)
Theorem chunking_irrelevant rdr1 b1 rdr2 b2 limitBytes lhs rest :
  steady rdr1 -> steady rdr2 -> b1 ++ data rdr1 = b2 ++ data rdr2 ->
  split (b1 ++ data rdr1) = Some (lhs, rest) ->
  length lhs + 2 <= limitBytes ->
  exists r1 r2 rdr1' rdr2', Scan rdr1 b1 limitBytes = Some ((Some lhs, Some r1, None), rdr1') /\
    Scan rdr2 b2 limitBytes = Some ((Some lhs, Some r2, None), rdr2') /\
    r1 ++ data rdr1' = rest /\ r2 ++ data rdr2' = rest /\ steady rdr1' /\ steady rdr2'.
Proof.
  intros H1 H2 Heq Hs Hl. destruct (Scan_complete rdr1 b1 limitBytes lhs rest H1 Hs Hl) as (r1 & rdr1' & ? & ? & ?).
  rewrite Heq in Hs. destruct (Scan_complete rdr2 b2 limitBytes lhs rest H2 Hs Hl) as (r2 & rdr2' & ? & ? & ?).
  eauto 10.
Qed.

Definition ab : list (list Byte.byte + string) := [inl [Byte.x61; CR]; inl [LF; Byte.x62]].
Definition ab_at_once : list (list Byte.byte + string) := [inl [Byte.x61; CR; LF; Byte.x62]].
Lemma ab_steady : steady ab /\ steady ab_at_once.
Proof. split; repeat constructor; eexists; by split. Qed.

Lemma chunking_irrelevant_witness :
  exists r1 r2 rdr1' rdr2', Scan ab [] 226 = Some ((Some [Byte.x61], Some r1, None), rdr1') /\
    Scan ab_at_once [] 226 = Some ((Some [Byte.x61], Some r2, None), rdr2') /\
    r1 ++ data rdr1' = [Byte.x62] /\ r2 ++ data rdr2' = [Byte.x62].
Proof.
  destruct (chunking_irrelevant ab [] ab_at_once [] 226 [Byte.x61] [Byte.x62]) as (r1 & r2 & d1 & d2 & H1 & H2 & H3 & H4 & _);
    [apply ab_steady|apply ab_steady|reflexivity|reflexivity|simpl; lia|].
  exists r1, r2, d1, d2. repeat split; assumption.
Defined.

(** [Scan] always returns, whatever the reader delivers or fails with, and a line
    it returns is followed by CR LF in the bytes read; nothing read is lost: line,
    delimiter, the bytes given back and the bytes unread are the input. *)
Theorem scan_sound rdr b limitBytes :
  exists res rdr', Scan rdr b limitBytes = Some (res, rdr') /\
    forall lhs rhs, res = (Some lhs, Some rhs, None) ->
      b ++ data rdr = lhs ++ CR :: LF :: rhs ++ data rdr' /\ exists c, split (b ++ c) = Some (lhs, rhs).
Proof.
  destruct (Scan_total rdr b limitBytes) as [[res rdr'] Hs]. exists res, rdr'. split; [done|].
  intros lhs rhs ->. destruct (Scan_sound _ _ _ _ _ _ Hs) as (c & Hd & Hc). split; [|eauto].
  apply split_sound in Hc. rewrite Hd, app_assoc, Hc. by rewrite <- app_assoc.
Qed.

(** [Discard] skips to the end of the line: with at most 1024 buffered bytes it
    returns what follows the first CR LF of the buffered and unread bytes, however they
    are divided, and the end-of-stream error when there is none.  It reads the buffer
    1024 bytes at a time: of a longer one, the bytes behind the read that finds the
    delimiter are neither returned nor left in the reader. *)
Theorem discard_skips rdr b :
  (steady rdr -> length b <= 1024 ->
   match split (b ++ data rdr) with
   | Some (_, rest) => exists rhs rdr', Discard rdr b = Some ((Some rhs, None), rdr') /\ rhs ++ data rdr' = rest
   | None => exists rdr', Discard rdr b = Some ((None, Some (ErrIO EOF)), rdr')
   end) /\
  (forall l r, split (take 1024 b) = Some (l, r) -> Discard rdr b = Some ((Some r, None), rdr)).
Proof.
  split; [|intros l r; apply Discard_long]. intros Hs Hb. pose proof (Discard_spec rdr b Hs Hb) as Hd.
  destruct (split (b ++ data rdr)) as [[? ?]|]; [|done]. destruct Hd as (rhs & rdr' & ? & ? & _). eauto.
Qed.

(** The bytes [b] behind the first 1024 of the buffer are lost. *)
Lemma discard_skips_witness :
  (exists rhs rdr', Discard ab [Byte.x63] = Some ((Some rhs, None), rdr') /\ rhs ++ data rdr' = [Byte.x62]) /\
  Discard [] ([CR; LF] ++ replicate 1022 Byte.x61 ++ [Byte.x62]) = Some ((Some (replicate 1022 Byte.x61), None), []).
Proof.
  split.
  - apply (discard_skips ab [Byte.x63]); [exact (proj1 ab_steady)|simpl; lia].
  - apply (proj2 (discard_skips [] ([CR; LF] ++ replicate 1022 Byte.x61 ++ [Byte.x62])) []). vm_compute. reflexivity.
Defined.
End framing_props.

(** * Command lines *)
Section line_props.

(** C32: a put command survives the wire: the line printed from a priority, delay, time
    to run and size in range parses, asks for the body, and becomes the request with
    these values and that body; a size above the limit is refused. *)
Theorem put_round_trips uuid cid pri delay ttr size maxSize body :
  0 <= pri < 2 ^ 32 -> 0 <= delay < 2 ^ 63 -> 0 <= ttr < 2 ^ 63 -> 0 <= size < 2 ^ 63 ->
  match ParseCommandLine (line ["put"%string; line (fmt_d <$> [pri; delay; ttr; size])]) maxSize with
  | inl cd => size <= maxSize /\ cd_NeedData cd = true /\
      NewCmdRequest uuid (mkCmdData (cd_CmdType cd) (cd_Args cd) body (cd_NeedData cd)) cid
      = inl (mkCmdRequest uuid cid Put (APut (mkPutArg pri delay ttr size body)))
  | inr e => e = ErrJobSizeTooBig /\ maxSize < size
  end.
Proof.
  intros H1 H2 H3 H4. rewrite put_line by done. destruct (Z.ltb_spec maxSize size) as [Hlt|Hge]; [done|].
  split_and!; [done|done|]. unfold NewCmdRequest. cbn [cd_CmdType cd_Args cd_Data cd_NeedData].
  by rewrite NewPutArg_line by done.
Qed.

Lemma put_round_trips_witness :
  match ParseCommandLine "put 10 0 60 5" 65536 with
  | inl cd => 5 <= 65536 /\ cd_NeedData cd = true /\
      NewCmdRequest "r" (mkCmdData (cd_CmdType cd) (cd_Args cd) None (cd_NeedData cd)) "c"
      = inl (mkCmdRequest "r" "c" Put (APut (mkPutArg 10 0 60 5 None)))
  | inr e => e = ErrJobSizeTooBig /\ 65536 < 5
  end.
Proof. apply (put_round_trips "r" "c" 10 0 60 5 65536 None); lia. Defined.

(** The commands whose only argument is a job identifier. *)
Definition takes_id (c : CmdType) : Prop := c = Delete \/ c = KickJob \/ c = Peek \/ c = Touch \/ c = StatsJob.

(** the other commands with numbers survive the wire: delete, kick-job, peek, touch
    and stats-job with a 64-bit identifier, release with identifier, priority and
    delay, bury with identifier and priority, kick with a bound and
    reserve-with-timeout with seconds parse to requests with exactly these values. *)
Theorem numbers_round_trip uuid cid w c i pri d n maxSize :
  commandTypeStrings !! w = Some c -> word w -> 0 <= i < 2 ^ 64 -> 0 <= pri < 2 ^ 32 -> 0 <= d < 2 ^ 63 ->
  0 <= n < 2 ^ 63 ->
  let req ws := match ParseCommandLine (line (w :: (fmt_d <$> ws))) maxSize with
                | inl cd => NewCmdRequest uuid cd cid | inr e => inr e end in
  (takes_id c -> req [i] = inl (mkCmdRequest uuid cid c (AId i))) /\
  (c = Release -> req [i; pri; d] = inl (mkCmdRequest uuid cid c (ARelease (mkReleaseArg i pri d)))) /\
  (c = Bury -> req [i; pri] = inl (mkCmdRequest uuid cid c (ABury (mkBuryArg i pri)))) /\
  (c = Kick -> req [n] = inl (mkCmdRequest uuid cid c (AKickN n))) /\
  (c = ReserveWithTimeout -> req [n] = inl (mkCmdRequest uuid cid c (AResvTimeout n))).
Proof.
  intros Hw Hword Hi Hp Hd Hn req.
  assert (forall v ws, c <> Put -> req (v :: ws) = NewCmdRequest uuid (mkCmdData c (line (fmt_d <$> (v :: ws))) None false) cid) as Hreq.
  { intros v ws Hc. unfold req. rewrite fmap_cons.
    rewrite (ParseCommandLine_words w (fmt_d v) (fmt_d <$> ws) maxSize c); [done|done| |done|done].
    apply (numbers_words (v :: ws)). }
  split_and!.
  - intros Hc. rewrite Hreq by (intros ->; by destruct Hc as [? | [? | [? | [? | ? ] ] ] ]).
    unfold NewCmdRequest, NewIDArg, idArgRe. cbn [cd_CmdType cd_Args]. rewrite match_digits_line by done.
    change (tm_get _ "id") with (fmt_d i). rewrite ParseUint_fmt by done. by destruct Hc as [-> | [-> | [-> | [-> | -> ] ] ] ].
  - intros ->. rewrite Hreq by done. unfold NewCmdRequest, NewReleaseArg, releaseArgRe. cbn [cd_CmdType cd_Args].
    rewrite match_digits_line by done. change (tm_get _ "id") with (fmt_d i). change (tm_get _ "pri") with (fmt_d pri).
    change (tm_get _ "delay") with (fmt_d d). by rewrite !ParseUint_fmt, ParseInt_fmt by lia.
  - intros ->. rewrite Hreq by done. unfold NewCmdRequest, NewBuryArg, buryArgRe. cbn [cd_CmdType cd_Args].
    rewrite match_digits_line by done. change (tm_get _ "id") with (fmt_d i). change (tm_get _ "pri") with (fmt_d pri).
    by rewrite !ParseUint_fmt by lia.
  - intros ->. rewrite Hreq by done. unfold NewCmdRequest, NewKickNArg, kickNArgRe. cbn [cd_CmdType cd_Args].
    rewrite match_digits_line by done. change (tm_get _ "bound") with (fmt_d n). unfold Atoi. by rewrite ParseInt_fmt by lia.
  - intros ->. rewrite Hreq by done. unfold NewCmdRequest, NewReserveWithTimeoutArg, reserveWithTimeoutRe.
    cbn [cd_CmdType cd_Args]. rewrite match_digits_line by done. change (tm_get _ "seconds") with (fmt_d n). unfold Atoi.
    by rewrite ParseInt_fmt by lia.
Qed.

Lemma numbers_round_trip_witness :
  match ParseCommandLine "release 18446744073709551615 7 30" 65536 with
  | inl cd => NewCmdRequest "r" cd "c" | inr e => inr e
  end = inl (mkCmdRequest "r" "c" Release (ARelease (mkReleaseArg 18446744073709551615 7 30))).
Proof.
  destruct (numbers_round_trip "r" "c" "release" Release 18446744073709551615 7 30 0 65536) as (_ & H & _);
    [vm_compute; reflexivity|split; [discriminate|reflexivity]|lia..|]. exact (H eq_refl).
Defined.
End line_props.

(** * Requests *)
Section request_props.

(** The argument of a request is within the range of its machine type. *)
Definition arg_ok (a : cmdArg) : Prop :=
  match a with
  | ANone => True
  | APut a => in_u32 (pa_pri a) /\ 0 <= pa_delay a < 2 ^ 63 /\ 0 <= pa_ttr a < 2 ^ 63 /\ 0 <= pa_size a < 2 ^ 63
  | ABury a => in_u64 (ba_id a) /\ in_u32 (ba_pri a)
  | AId i => in_u64 i
  | ATube t => tube_ok t
  | AKickN n | AResvTimeout n => 0 <= n < 2 ^ 63
  | ARelease a => in_u64 (ra_id a) /\ in_u32 (ra_pri a) /\ 0 <= ra_delay a < 2 ^ 63
  end.

(** C33: a request is well typed: its argument has the dynamic type that
    the handler of its command asserts, identifiers and priorities are unsigned 64- and
    32-bit numbers, delays, times, sizes and bounds are not negative 64-bit numbers, and
    tube names are one to two hundred characters of the allowed set. *)
Theorem requests_are_typed uuid cd cid req :
  NewCmdRequest uuid cd cid = inl req ->
  rq_ID req = uuid /\ rq_ClientID req = cid /\ rq_CmdType req = cd_CmdType cd /\
  typed (rq_CmdType req) (rq_cmd req) /\ arg_ok (rq_cmd req).
Proof.
  intros Hr. destruct (NewCmdRequest_typed _ _ _ _ Hr) as (H1 & H2 & H3 & H4). split_and!; [done..|].
  revert Hr. unfold NewCmdRequest, as_arg. clear. destruct (cd_CmdType cd); try done; try (by intros [= <-]);
    unfold NewBuryArg, NewIDArg, NewKickNArg, NewPutArg, NewTubeArg, NewReleaseArg, NewReserveWithTimeoutArg, Atoi;
    repeat (case_match; try done); intros [= <-]; simplify_eq; simpl; unfold in_u32, in_u64;
    repeat match goal with H : match _ with _ => _ end = _ |- _ => repeat (case_match; try done); simplify_eq end; simpl;
    repeat match goal with
    | H : ParseInt (tm_get ?g ?n) 64 = Some _, Hm : _ = Some ?g |- _ =>
      apply ParseInt_range in H; [|eapply match_digits_get; [exact Hm|set_solver]]; change (2 ^ (64 - 1)) with (2 ^ 63) in H
    | H : ParseUint _ _ = Some _ |- _ => apply ParseUint_range in H
    end; try (by eapply tubeArg_ok); lia.
Qed.

Lemma requests_are_typed_witness :
  arg_ok (APut (mkPutArg 5 0 60 3 None)) /\
  NewCmdRequest "r" (mkCmdData Put "5 0 60 3" None true) "c" = inl (mkCmdRequest "r" "c" Put (APut (mkPutArg 5 0 60 3 None))).
Proof.
  split; [|vm_compute; reflexivity].
  apply (requests_are_typed "r" (mkCmdData Put "5 0 60 3" None true) "c" (mkCmdRequest "r" "c" Put (APut (mkPutArg 5 0 60 3 None)))).
  vm_compute. reflexivity.
Defined.

(** C20: every command line is answered: a line that parses to a request of a registered
    client is processed without a panic; the responses sent are one complete reply to
    that client and request (parts that announce more, then a last one), except that a
    reservation may leave the client waiting; no other client's registration changes,
    and the response channel is closed exactly by quit.  The processor runs on the real
    state machine, whose invariant is kept. *)
Theorem lines_are_answered yaml_Marshal yaml_names range maxSecs maxSize now now' l cd data uuid req p cli :
  forall range_perm : (forall X, range X ≡ₚ elements X), clock_ok now ->
  PInv (H0:=localJSM_laws yaml_Marshal range range_perm) p -> p_clients p !! rq_ClientID req = Some cli ->
  rq_ClientID req <> ""%string ->
  ParseCommandLine l maxSize = inl cd ->
  NewCmdRequest uuid (mkCmdData (cd_CmdType cd) (cd_Args cd) data (cd_NeedData cd)) (rq_ClientID req) = inl req ->
  match rq_cmd req with APut a => ttr_ok (pa_ttr a) | _ => True end ->
  exists p' rs, processRequest (H:=localJSM_ops yaml_Marshal range) yaml_names range maxSecs now now' req p = OK tt p' /\
    PInv (H0:=localJSM_laws yaml_Marshal range range_perm) p' /\ p_sent p' = p_sent p ++ rs /\
    own_only (rq_ClientID req) p p' /\
    (complete (rq_ID req) (rq_ClientID req) rs \/ rs = [] /\ is_reserve (rq_CmdType req)) /\
    p_closed p' = p_closed p ++ (if decide (rq_CmdType req = Quit) then [rq_ClientID req] else []).
Proof.
  intros Hrange Hn Hp Hcli Hne _ Hreq Httr. apply (processRequest_spec _ _ _ Hrange now now' cli); try done.
  apply NewCmdRequest_typed in Hreq as (_ & _ & _ & Ht). by split_and!.
Qed.

(** A processor with one client, which sends [delete 1]. *)
Definition no_yaml : gmap string yvalue -> list Byte.byte + string := fun _ => inl [].
Definition one_client : cmdProcessor (J:=localJSM) := mkProc demo {[ "a"%string := NewClient "a" "t" ]} [] [].
Lemma one_client_inv : PInv (H0:=localJSM_laws no_yaml elements (fun X => reflexivity _)) one_client.
Proof.
  split; [apply reachable_inv, after_reachable|].
  intros cid cli. unfold one_client. cbn [p_clients]. intros [<- <-]%lookup_singleton_Some. done.
Qed.

Lemma lines_are_answered_witness :
  exists p' rs, processRequest (H:=localJSM_ops no_yaml elements) (fun _ => inl []) elements 3600 20 20
      (mkCmdRequest "r" "a" Delete (AId 1)) one_client = OK tt p' /\
    p_sent p' = p_sent one_client ++ rs /\ complete "r" "a" rs.
Proof.
  destruct (lines_are_answered no_yaml (fun _ => inl []) elements 3600 65536 20 20 "delete 1"
    (mkCmdData Delete "1" None false) None "r" (mkCmdRequest "r" "a" Delete (AId 1)) one_client (NewClient "a" "t") (fun X => reflexivity _))
    as (p' & rs & H1 & _ & H2 & _ & [H3|[_ H3]] & _);
    [done|exact one_client_inv|reflexivity|discriminate|vm_compute; reflexivity|vm_compute; reflexivity|exact I| |].
  - exists p', rs. repeat split; assumption.
  - exfalso. destruct H3; discriminate.
Defined.
End request_props.
