(* ===== verification/ConnProps.v ===== *)
(** Properties of the connection state machine ([src/beanstalkd/proto/conn.go]). *)
From stdpp Require Import base gmap list strings.
From Stdlib Require Import ZArith Lia.
From Stdlib Require Strings.Byte.
From S2P Require Import Prelude Job JSM Parse CmdData Processor LocalJSM Conn ConnSpec Server.
Local Open Scope nat_scope.

Section conn_props.
Context {P : Type} `{CommandProcessor P} (clientID : ClientID) (uuid : nat -> string).


(** C21: a connection always comes to an end: whatever its reader delivers (bytes in any
    division, empty reads, errors) before the stream ends, if the processor answers
    every request then [Tick] returns, with the connection stopped and closed; no state is
    entered in which a handler panics. *)
Theorem connection_ends rdr p :
  (forall req q, exists rs q' w, DispatchRequest req q = Some (rs, q') /\ received rs = Some w) ->
  exists c', Tick clientID uuid (NewConn rdr p) = OK tt c' /\ c_state c' = Stopped /\ c_shut c' = true.
Proof.
  intros Hrep. unfold Tick. apply Tick_loop_ends; [done|done|unfold input_left, left, left_in; simpl; lia|done].
Qed.
End conn_props.

(** A processor that answers every request with [OK]. *)
Definition always_ok : CommandProcessor unit := {|
  MaxJobDataSize := 65535;
  DispatchRequest req _ := Some ([mkCmdResponse (rq_ID req) (rq_ClientID req) (bytes_of "OK") false], tt)
|}.
Definition broken_reader : Reader := [inl (String.list_byte_of_string "sta"); inr "timeout"%string; inl []; inl [CR]; inl [LF]].

Lemma connection_ends_witness :
  exists c', Tick (H := always_ok) "c" (fun _ => "r"%string) (NewConn broken_reader tt) = OK tt c' /\
    c_state c' = Stopped /\ c_shut c' = true.
Proof.
  apply (connection_ends (H := always_ok) "c" (fun _ => "r"%string) broken_reader tt).
  intros req q. exists [mkCmdResponse (rq_ID req) (rq_ClientID req) (bytes_of "OK") false], tt, (word_of "OK").
  split; reflexivity.
Defined.

(** ** A session with the real processor and state machine *)
Local Open Scope string_scope.
Definition crlf : string := String (Ascii.ascii_of_nat 13) (String (Ascii.ascii_of_nat 10) "").
(** The bytes of lines. *)
Definition lines (ls : list string) : list Byte.byte :=
  String.list_byte_of_string (foldr (fun l s => l +:+ crlf +:+ s) "" ls).
Definition no_stats : gmap string yvalue -> list Byte.byte + string := fun _ => inr "no encoder".
Definition fresh_server : server (J:=localJSM) :=
  mkServer (replicate 9 (1000, 1000)%Z) [1004; 1008]%Z
    (mkProc NewJSM {[ "a" := NewClient "a" defaultTubeName ]} [] []).
Definition local_processor : CommandProcessor (server (J:=localJSM)) :=
  server_processor (H := localJSM_ops no_stats elements) (fun _ => inr "no encoder") elements 3600 65535.
Definition talk : list Byte.byte :=
  lines ["put 5 0 60 2"; "hi"; "reserve"; "delete 1"; "nonsense"; "reserve-with-timeout 5"; "quit"; "put 1"].

Definition talk_result : option (list Byte.byte * server (J:=localJSM)) :=
  session (H := local_processor) "a" (fun _ => "r") (S (length talk)) talk 0 fresh_server.
Lemma talk_replies :
  (fun r => String.string_of_list_byte r.1) <$> talk_result
  = Some (String.string_of_list_byte (lines ["INSERTED 1"; "RESERVED 1 2"; "hi"; "DELETED"; "BAD_FORMAT"; "TIMED_OUT"])).
Proof. vm_compute. reflexivity. Qed.

(** The same bytes in two reads. *)
Definition in_two : Reader := [inl (firstn 20 talk); inl (skipn 20 talk)].
Lemma in_two_steady : steady in_two /\ data in_two = talk.
Proof. split; [repeat constructor; eexists; by split|vm_compute; reflexivity]. Qed.


(** ** Job data ends at the first line end, not at the announced size *)

(** The body [ab CR LF cd] of six bytes is announced; the job gets [ab], and the rest of
    the body is taken for a command. *)
Lemma body_is_cut :
  (fun r => String.string_of_list_byte r.1) <$>
    session (H := local_processor) "a" (fun _ => "r") 100 (lines ["put 0 0 10 6"; "ab"; "cd"; "peek 1"]) 0 fresh_server
  = Some (String.string_of_list_byte (lines ["INSERTED 1"; "BAD_FORMAT"; "FOUND 1 6"; "ab"])).
Proof. vm_compute. reflexivity. Qed.
