(* ===== verification/FrontProps.v ===== *)
(** Properties of the front end: the listener, the loop of the command processor and the
    connections ([src/beanstalkd/proto], [src/beanstalkd/core/cmd_proc.go]). *)
From stdpp Require Import base gmap list strings relations.
From Stdlib Require Import ZArith Lia.
From S2P Require Import Prelude Job JSM Inv Machine CmdData Processor ProcSpec LocalJSM ProcWaits LocalWaits Front FrontSpec.
Import Cmd.
Local Open Scope Z_scope.

Section front_props.
Context {J : Type} `{JSMWaits J}.
Context (yaml_names : list TubeName -> list Byte.byte + string) (range : gset TubeName -> list TubeName) (maxSecs : Z).
Hypothesis range_perm : forall X, range X ≡ₚ elements X.
(** The requests that clients make: their times to run are those the state machine takes. *)
Context (made : CmdRequest -> Prop).
Hypothesis made_ok : forall req, made req -> match rq_cmd req with APut a => jttr_ok (pa_ttr a) | _ => True end.
(** What happens to the state machine outside of the processor changes nothing for the clients
    that wait. *)
Context (jenv : J -> J -> Prop).
Hypothesis jenv_ok : forall j j', jinv j -> jenv j j' -> jinv j' /\ jwaits j' ≡ₚ jwaits j.
Abbreviation fstep := (fstep yaml_names range maxSecs made jenv).

(** The steps in which the processor finishes what it is doing: sending its next response,
    closing a channel, answering a registration. *)
Definition finish (s : front (J:=J)) : front :=
  match fr_run s with
  | RReply (r :: out) c =>
    match fr_conns s !! rs_ClientID r with
    | Some (KAwait req) =>
      set_run (replying out c) (set_conn (rs_ClientID r) (after_reply req (rs_HasMore r)) (log_resp req r s))
    | _ => s
    end
  | RReply [] (Some cid) => set_run RSelect (close_resp cid s)
  | RRegister i e => on_registered i e (set_run RSelect (set_listen LLoop s))
  | _ => s
  end.

Lemma finish_step s : front_ok s -> fr_run s <> RSelect -> fr_run s <> RReturned -> fr_run s <> RReply [] None -> fstep s (finish s).
Proof.
  intros Hs H1' H2' H3'. unfold finish. destruct (fr_run s) as [|i e|[|r out] [c|]|] eqn:Hr; try done.
  - destruct (fo_register _ Hs i e Hr) as (Hl & -> & _). by apply fstep_registered.
  - apply fstep_close; [done|]. by apply (next_close s c).
  - destruct (next_reply s r out (Some c) Hs Hr) as (req & Hc & Hcl & _). rewrite Hc. by apply fstep_reply.
  - destruct (next_reply s r out None Hs Hr) as (req & Hc & Hcl & _). rewrite Hc. by apply fstep_reply.
Qed.

Lemma replying_busy out c : replying out c <> RReply [] None.
Proof. by destruct out, c. Qed.
Lemma run_branch_busy {A} (o : outcome error (cmdProcessor (J:=J)) A) c s :
  fr_run s <> RReply [] None -> fr_run (run_branch o c s) <> RReply [] None.
Proof. intros Hs. destruct o; try done. apply replying_busy. Qed.
Lemma fstep_busy s s' : fstep s s' -> fr_run s <> RReply [] None -> fr_run s' <> RReply [] None.
Proof.
  intros Hst Hs. destruct Hst; try done; try apply replying_busy; try (by apply run_branch_busy).
  - unfold on_new_client. by destruct (registerClient _ _) as [[]| | |].
  - by destruct err.
Qed.
Lemma fsteps_busy s s' : rtc fstep s s' -> fr_run s <> RReply [] None -> fr_run s' <> RReply [] None.
Proof. induction 1 as [|s s1 s' Hst _ IH]; [done|]. intros Hs. by eapply IH, fstep_busy. Qed.

(** The work that is left before the processor is back in its [select]. *)
Definition work (p : run_pos) : nat :=
  match p with
  | RSelect | RReturned => 0
  | RRegister _ _ => 1
  | RReply out c => length out + (if c then 1 else 0)
  end.
Lemma work_replying out c : work (replying out c) = work (RReply out c).
Proof. by destruct out, c. Qed.

Lemma back_to_select s :
  front_ok s -> fr_run s <> RReturned -> fr_run s <> RReply [] None ->
  exists s', rtc fstep s s' /\ fr_run s' = RSelect /\ fr_proc s' = fr_proc s.
Proof using range_perm made_ok jenv_ok.
  remember (work (fr_run s)) as n eqn:En. revert s En. induction n as [n IH] using lt_wf_ind. intros s -> Hs H1' H2'.
  destruct (decide (work (fr_run s) = 0)%nat) as [Hz|Hz].
  { exists s. split_and!; [done| |done]. by destruct (fr_run s) as [| |[|? ?] []|]. }
  assert (fstep s (finish s)) as Hst by (apply finish_step; [done| |done|done]; intros E; by rewrite E in Hz).
  assert ((work (fr_run (finish s)) < work (fr_run s))%nat /\ fr_run (finish s) <> RReturned /\ fr_proc (finish s) = fr_proc s)
    as (Hlt & Hnr & Hp).
  { clear IH. unfold finish. destruct (fr_run s) as [|i e|[|r out] [c|]|] eqn:Hr; try done.
    - destruct (fo_register _ Hs i e Hr) as (_ & -> & _). simpl. split_and!; [lia|done|done].
    - simpl. split_and!; [lia|done|done].
    - destruct (next_reply s r out (Some c) Hs Hr) as (req & -> & _). simpl. rewrite work_replying. simpl.
      split_and!; [lia|by destruct out|done].
    - destruct (next_reply s r out None Hs Hr) as (req & -> & _). simpl. rewrite work_replying. simpl.
      split_and!; [lia|by destruct out|done]. }
  destruct (IH _ Hlt (finish s) eq_refl) as (s' & Hs' & Hr' & Hp'); [by eapply fstep_ok|done|by eapply fstep_busy|].
  exists s'. split_and!; [by eapply rtc_l|done|congruence].
Qed.


(** C7: a connection that waits for a response is waited for by the
    state machine, under the token of exactly its request, or a complete reply to its
    request is on the way; nobody else is waited for; and every response that a
    connection received answers the request it was waiting for.  The token of a request is
    its identifier for the state machine in the process; a proxy client knows only the
    client. *)
Theorem no_request_is_forgotten jsm s :
  jinv jsm -> jwaits jsm = [] -> rtc fstep (NewTcpServer jsm) s ->
  (forall cid req, fr_conns s !! cid = Some (KAwait req) ->
     filter (fun w => w.1 = cid) (jwaits (p_jsm (fr_proc s))) ≡ₚ [(cid, jtag (rq_ID req))] \/
     exists q, jtag q = jtag (rq_ID req) /\ complete q cid (filter (fun r => rs_ClientID r = cid) (outgoing (fr_run s)))) /\
  (forall cid q, (cid, q) ∈ jwaits (p_jsm (fr_proc s)) ->
     exists req, fr_conns s !! cid = Some (KAwait req) /\ jtag (rq_ID req) = q) /\
  (forall req r, (req, r) ∈ fr_received s -> jtag (rs_RequestID r) = jtag (rq_ID req) /\ rs_ClientID r = rq_ClientID req).
Proof using range_perm made_ok jenv_ok.
  intros Hj Hw Hst. pose proof (fsteps_ok _ _ _ range_perm _ made_ok _ jenv_ok _ _ Hst (new_ok jsm Hj Hw)) as Hs. split_and!.
  - intros cid req. by apply conn_is_waited.
  - intros cid q. by apply waited_is_conn.
  - intros req r Hin. exact (proj1 (Forall_forall _ _) (fo_received _ Hs) (req, r) Hin).
Qed.

(** A connection that waits for a response when the processor has returned. *)
Lemma stranded_step s s' cid req :
  front_ok s -> fr_run s = RReturned -> fr_conns s !! cid = Some (KAwait req) -> fstep s s' ->
  fr_run s' = RReturned /\ fr_conns s' !! cid = Some (KAwait req).
Proof.
  intros Hs Hr Hc Hst. pose proof (fo_clients _ Hs cid) as Ho. rewrite Hc in Ho. destruct Ho as (_ & Hcl & _).
  destruct Hst; simpl; try congruence; (split; [done|]);
    match goal with |- <[?x := _]> _ !! _ = _ => destruct (decide (x = cid)) as [->|?]; [|by rewrite lookup_insert_ne] | _ => done end;
    simplify_eq; congruence.
Qed.

(** C40: shutting down strands the clients that wait: once the
    processor has returned, a connection that waits for a reservation waits for ever,
    neither answered nor closed. *)
Theorem shutdown_strands_waiters jsm s cid req :
  jinv jsm -> jwaits jsm = [] -> rtc fstep (NewTcpServer jsm) s ->
  fr_run s = RReturned -> fr_conns s !! cid = Some (KAwait req) ->
  forall s', rtc fstep s s' -> fr_conns s' !! cid = Some (KAwait req).
Proof using range_perm made_ok jenv_ok.
  intros Hj Hw Hst Hr Hc s' Hst'. pose proof (fsteps_ok _ _ _ range_perm _ made_ok _ jenv_ok _ _ Hst (new_ok jsm Hj Hw)) as Hs.
  clear Hst. induction Hst' as [|s s1 s' H1' _ IH]; [done|].
  destruct (stranded_step s s1 cid req Hs Hr Hc H1') as [Hr1 Hc1]. apply IH; [done|done|by eapply fstep_ok].
Qed.
End front_props.

(** * A client that waits for a reservation *)
Definition ttr_made (req : CmdRequest) : Prop := match rq_cmd req with APut a => ttr_ok (pa_ttr a) | _ => True end.
Abbreviation demo_ops := (localJSM_ops no_yaml any_order).
Abbreviation demo_laws := (localJSM_laws no_yaml any_order any_order_perm).
Abbreviation demo_waits := (localJSM_waits no_yaml any_order any_order_perm).
Definition no_env {J : Type} (j j' : J) : Prop := False.
Lemma no_env_ok {J : Type} `{JSMWaits J} (j j' : J) : jinv j -> no_env j j' -> jinv j' /\ jwaits j' ≡ₚ jwaits j.
Proof. by intros _ []. Qed.
Abbreviation demo_step := (fstep (H:=demo_ops) (fun _ => inl []) any_order 3600 ttr_made no_env).

Definition waits_ten : CmdRequest := mkCmdRequest "r" "c" ReserveWithTimeout (AResvTimeout 10).
Definition accepted : front (J:=localJSM) := on_new_client "c" (set_listen LRegister (NewTcpServer NewJSM)).
Definition connected : front (J:=localJSM) := on_registered "c" None (set_run RSelect (set_listen LLoop accepted)).
Definition asking : front (J:=localJSM) := set_conn "c" (KDispatch waits_ten) connected.
Definition waiting : front (J:=localJSM) :=
  on_request (H:=demo_ops) (fun _ => inl []) any_order 3600 5 5 waits_ten (set_conn "c" (KAwait waits_ten) asking).
Definition stopped : front (J:=localJSM) := set_run RReturned (set_listen LReturned (set_listen LShutdown waiting)).

Lemma waiting_selects : fr_run waiting = RSelect /\ fr_listen waiting = LLoop /\ fr_conns waiting !! "c"%string = Some (KAwait waits_ten).
Proof. vm_compute. split_and!; reflexivity. Qed.
Lemma waiting_reachable : rtc demo_step (NewTcpServer NewJSM) waiting.
Proof.
  eapply rtc_l; [by apply (fstep_accept (H:=demo_ops) _ _ _ _ _ _ "c")|].
  eapply rtc_l; [apply (fstep_registered (H:=demo_ops) _ _ _ _ _ _ "c" None); reflexivity|].
  eapply rtc_l; [apply (fstep_command (H:=demo_ops) _ _ _ _ _ _ "c" "r" (mkCmdData ReserveWithTimeout "10" None false) waits_ten);
    [reflexivity|vm_compute; reflexivity|exact I]|].
  eapply rtc_l; [by apply (fstep_dispatch (H:=demo_ops) _ _ _ _ _ _ "c" waits_ten 5 5)|]. apply rtc_refl.
Qed.

Lemma shut_down w :
  fr_run w = RSelect -> fr_listen w = LLoop -> rtc demo_step (NewTcpServer NewJSM) w ->
  rtc demo_step (NewTcpServer NewJSM) (set_run RReturned (set_listen LReturned (set_listen LShutdown w))).
Proof.
  intros H1 H2 H3. apply (rtc_r _ (set_listen LShutdown w)); [|by apply fstep_shutdown].
  apply (rtc_r _ w); [done|]. by apply fstep_done.
Qed.


Lemma no_request_is_forgotten_witness :
  filter (fun w => w.1 = "c"%string) (jwaits (JSMWaits:=demo_waits) (p_jsm (fr_proc waiting))) ≡ₚ [("c", "r")%string] \/
  exists q, jtag (JSMWaits:=demo_waits) q = jtag (JSMWaits:=demo_waits) "r" /\
    complete q "c" (filter (fun r => rs_ClientID r = "c"%string) (outgoing (fr_run waiting))).
Proof.
  destruct (no_request_is_forgotten (H1:=demo_waits) (fun _ => inl []) any_order 3600 any_order_perm ttr_made (fun _ h => h)
    no_env no_env_ok NewJSM waiting NewJSM_inv eq_refl waiting_reachable) as (H1 & _).
  exact (H1 "c"%string waits_ten (proj2 (proj2 waiting_selects))).
Defined.

Lemma shutdown_strands_waiters_witness :
  fr_conns stopped !! "c"%string = Some (KAwait waits_ten).
Proof.
  apply (shutdown_strands_waiters (H1:=demo_waits) (fun _ => inl []) any_order 3600 any_order_perm ttr_made (fun _ h => h)
    no_env no_env_ok NewJSM stopped "c" waits_ten NewJSM_inv eq_refl); [| | |apply rtc_refl].
  - exact (shut_down waiting (proj1 waiting_selects) (proj1 (proj2 waiting_selects)) waiting_reachable).
  - reflexivity.
  - exact (proj2 (proj2 waiting_selects)).
Defined.
