(* ===== verification/StoreProps.v ===== *)
(** Properties of the replicated machine: client identifiers
    ([src/store/client_uri.go]) and the committed log ([src/store/store.go]). *)
From stdpp Require Import base gmap list strings.
From Stdlib Require Import ZArith Lia.
From S2P Require Import Prelude Job JSM Inv Processor ProcSpec LocalJSM ClientURI Store StoreSpec Known Replica.
Local Open Scope Z_scope.

Section store_props.
Context (yaml_Marshal : gmap string yvalue -> list Byte.byte + string) (range : gset TubeName -> list TubeName).
Local Instance store_ops : JSMOps localJSM := localJSM_ops yaml_Marshal range.

(** C34: a proxy and a client survive the encoding into one identifier, whatever
    characters they are made of, as long as neither is empty; so different pairs have
    different identifiers, and an empty part is refused. *)
Theorem client_ids_round_trip p i :
  (p <> "" -> i <> "" -> ParseClientURI (ToClientID (NewClientURI p i)) = inl (NewClientURI p i))%string /\
  (p = "" \/ i = "" -> ParseClientURI (ToClientID (NewClientURI p i)) = inr ErrValidationFailed)%string /\
  (p <> "" -> i <> "" -> forall p' i', ToClientID (NewClientURI p i) = ToClientID (NewClientURI p' i') -> p = p' /\ i = i')%string.
Proof.
  assert (p <> "" -> i <> "" -> Validate (NewClientURI p i) = None)%string as Hv.
  { intros Hp Hi. unfold Validate. simpl. by rewrite !(proj2 (String.eqb_neq _ _)). }
  split_and!.
  - intros Hp Hi. by apply ParseClientURI_ToClientID, Hv.
  - intros He. rewrite Parse_ToClientID. unfold Validate. simpl. by destruct He as [-> | ->]; rewrite ?orb_true_r.
  - intros Hp Hi p' i' E. by injection (ToClientID_inj _ _ (Hv Hp Hi) E).
Qed.

Lemma client_ids_round_trip_witness :
  ParseClientURI (ToClientID (NewClientURI "p&q=1" "c%+ #")) = inl (NewClientURI "p&q=1" "c%+ #").
Proof. apply client_ids_round_trip; discriminate. Defined.


(** C19: the answer to a tick reaches the right proxies: in every state a log leads to,
    the entry succeeds, and the reservations the state machine returns are divided among
    the proxies: each proxy is sent exactly those whose client identifier was made
    from it, in their order, with the client's own name and request, and no proxy is
    sent an empty list. *)
Theorem tick_is_routed :
  (forall X, range X ≡ₚ elements X) ->
  forall (log : list (Z * OpRequest)) rs0 s now,
  Forall (fun e => op_ok e.1 e.2) log -> replay log NewJSM = OK rs0 s -> clock_ok now ->
  exists rs s' g, Tick (tube_names range s) (ready_names range now s) now s = OK rs s' /\
    Apply now OpType_TICK s = OK (mkApplyOpResponse ResultCode_OK None (Some (BTick g))) s' /\
    (forall p, g !! p <> Some []) /\
    Forall (fun r => r_ClientId r = ToClientID (uri_of r)) rs /\
    forall p, default [] (g !! p) = v1_of <$> filter (fun r => proxyID (uri_of r) = p) rs.
Proof.
  intros Hr log rs0 s now Hlog Hop Hn.
  destruct (replica_replay yaml_Marshal range Hr log NewJSM replica_new Hlog) as (rs1 & s1 & E1 & Hs1 & _).
  unfold store_ops in Hop. rewrite Hop in E1. injection E1 as -> ->.
  destruct (replica_tick yaml_Marshal range Hr now s1 Hs1 Hn) as (rs & s' & g & H1 & H2 & _ & Hne & Hall & Hg).
  exists rs, s', g. split_and!; [done|done| | |done].
  - intros p Hp. by apply (Hne p []).
  - eapply Forall_impl; [exact Hall|]. by intros r [_ E].
Qed.
End store_props.

(** Two clients of two proxies wait on a tube, one of them gets the job put there. *)
Definition demo_log : list (Z * OpRequest) :=
  [(1000, OpType_RESERVE (mkReserveRequest "c" "r1" 10 ["t"] "p"));
   (1001, OpType_RESERVE (mkReserveRequest "d" "r2" 10 ["t"] "q"));
   (1002, OpType_PUT (mkPutRequest 5 0 60 "t" 0 (Some [])));
   (1003, OpType_DELETE (mkDeleteRequest 7 "p" ""))]%string.
Definition no_yaml (_ : gmap string yvalue) : list Byte.byte + string := inr "no encoder"%string.

Lemma demo_log_ok : Forall (fun e => op_ok e.1 e.2) demo_log.
Proof. repeat constructor; simpl; try (by intros ?%elem_of_nil); unfold clock_ok, ttr_ok; lia. Qed.


Lemma demo_tick :
  match replay (H := store_ops no_yaml elements) demo_log NewJSM with
  | OK rs0 s =>
    match Tick (tube_names elements s) (ready_names elements 1020 s) 1020 s with
    | OK rs _ => (ErrorCode <$> rs0, (fun r => (proxyID (uri_of r), r_Status r)) <$> rs)
    | _ => ([], []) end
  | _ => ([], []) end
  = ([ResultCode_OK; ResultCode_OK; ResultCode_OK; ResultCode_Unknown], [("p", Matched); ("q", Timeout)]%string).
Proof. vm_compute. reflexivity. Qed.

Lemma demo_replays : exists rs0 s, replay (H := store_ops no_yaml elements) demo_log NewJSM = OK rs0 s.
Proof.
  destruct (replica_replay no_yaml elements (fun X => reflexivity (elements X)) demo_log NewJSM replica_new demo_log_ok)
    as (rs & s & E & _). by exists rs, s.
Qed.

Lemma tick_is_routed_witness :
  exists rs0 s rs s' (g : gmap string (list V1Reservation)), replay (H := store_ops no_yaml elements) demo_log NewJSM = OK rs0 s /\
    Tick (tube_names elements s) (ready_names elements 1020 s) 1020 s = OK rs s' /\ length rs = 2%nat /\
    forall p, default [] (g !! p) = v1_of <$> filter (fun r => proxyID (uri_of r) = p) rs.
Proof.
  destruct demo_replays as (rs0 & s & E). pose proof demo_tick as Hd. rewrite E in Hd.
  assert (clock_ok 1020) as Hn by (unfold clock_ok; lia).
  destruct (tick_is_routed no_yaml elements (fun X => reflexivity (elements X)) demo_log rs0 s 1020 demo_log_ok E Hn)
    as (rs & s' & g & Ht & _ & _ & _ & Hg).
  rewrite Ht in Hd. injection Hd as _ Hd. apply (f_equal length) in Hd. rewrite length_fmap in Hd.
  exists rs0, s, rs, s', g. repeat split; assumption.
Defined.
