(* ===== verification/ClusterProps.v ===== *)
(** Properties of the cluster: the proxy client ([src/beanstalkd/proxy/client.go]), the
    service and the controller of a node ([src/cluster/server]) and the membership
    operations ([src/store/store.go]). *)
From stdpp Require Import base gmap list strings relations.
From Stdlib Require Import ZArith Lia.
From S2P Require Import Prelude Job JSM Inv Machine Scenario CmdData Snapshot Processor ProcSpec LocalJSM ClientURI Store StoreSpec.
From S2P Require Import Raft RaftSpec JSMServer Proxy ProxySpec ProxyTick Solo Controller ControllerSpec.
Import Cmd.
Local Open Scope Z_scope.

(** * The processor on a proxy client *)
Section proxied.
Context (yaml_Marshal : gmap string yvalue -> list Byte.byte + string) (range : gset TubeName -> list TubeName).
Hypothesis range_perm : forall X, range X ≡ₚ elements X.
Let laws : JSMLaws localJSM (H:=localJSM_ops yaml_Marshal range) := localJSM_laws yaml_Marshal range range_perm.
(** The raft library, the connection, and the clock of the node. *)
Context (N : Type) (raft : RaftNode N) (apply : RaftFSM N localJSM (H0:=localJSM_ops yaml_Marshal range) (H1:=laws)).
Context (rpc : forall A, M Status (node N) A -> M Status (node N) A) (net : Transport rpc).
Context (time_Now : nat -> Z).
Hypothesis clock : forall k, clock_ok (time_Now k).
Context (range_waiting : gset ClientID -> list ClientID).
Definition proxy_ops : JSMOps (Client (R:=node N)) :=
  Client_ops (H:=node_ReplicatedJsm time_Now) rpc range_waiting.
Definition proxy_laws : JSMLaws (Client (R:=node N)) (H:=proxy_ops) :=
  Client_laws (H2:=apply) time_Now clock (fun _ h => h) rpc range_waiting.

End proxied.

(** A cluster of one node, reached over a connection that loses nothing. *)
Lemma direct_transport {J} : Transport (direct (J:=J)).
Proof. intros A m r. apply delivered_answer. Qed.

Definition demo_raft : RaftNode (solo localJSM) := solo_node (H:=localJSM_ops no_yaml any_order).
Definition demo_apply : RaftFSM (solo localJSM) localJSM (H:=demo_raft) (H1:=localJSM_laws no_yaml any_order any_order_perm) :=
  solo_fsm (H0:=localJSM_laws no_yaml any_order any_order_perm) (fun _ h => h).
Definition demo_clock (k : nat) : Z := 20 + Z.of_nat (Nat.min k 1000).
Lemma demo_clock_ok k : clock_ok (demo_clock k).
Proof. unfold clock_ok, demo_clock. lia. Qed.
Definition demo_node (s : localJSM) : node (solo localJSM) := mkNode (mkSolo s Leader [mkRaftServer "n" "10.0.0.1:8081"]) 0.
Definition demo_client (s : localJSM) : Client := NewClient "p" (demo_node s).
Abbreviation demo_ops := (proxy_ops (solo localJSM) demo_raft direct demo_clock elements).
Abbreviation demo_laws := (proxy_laws no_yaml any_order any_order_perm (solo localJSM) demo_raft demo_apply direct
  direct_transport demo_clock demo_clock_ok elements).
Definition demo_proc : cmdProcessor (J:=Client) := mkProc (demo_client demo) {[ "a"%string := Processor.NewClient "a" "t" ]} [] [].
Lemma demo_proc_inv : PInv (H0:=demo_laws) demo_proc.
Proof.
  split; [|intros cid cli; unfold demo_proc; cbn [p_clients]; by intros [<- <-]%lookup_singleton_Some].
  split; [change (Inv demo); apply reachable_inv, after_reachable|by apply Forall_nil].
Qed.


(** * What a proxied call does *)
Section remote.
Context {J : Type} `{JSMOps J} (time_Now : nat -> Z).
Let repl := node_ReplicatedJsm (N:=solo J) time_Now.
Existing Instance repl.
Abbreviation same := (fun x => x).

End remote.


(** * The tick of a proxy client *)
Section proxy_tick.
Context {R : Type} `{ReplicatedJsm R} (rpc : forall A, M Status R A -> M Status R A).
Context (range_waiting : gset ClientID -> list ClientID).

(** C30: the tick of a proxy client, when no recovery is due, returns at
    once: the first queued reservation of every client that waits, in the order of the
    queue, and nothing for other clients; exactly the clients that had one stop waiting,
    and the queue is empty.  A recovery adds error reservations only, and every client
    that waited before is answered or waits still. *)
Theorem proxy_tick_answers now (c : Client (R:=R)) :
  let queued := default [] (px_rq c) in
  (px_recoverClients c = false ->
   exists rs, px_Tick rpc range_waiting now c = OK rs (set_rq None (set_waiting (px_waiting c ∖ ids_of queued) c)) /\
     rs `sublist_of` queued /\
     forall cid, filter (fun r => r_ClientId r = cid) rs =
       if decide (cid ∈ px_waiting c) then take 1 (filter (fun r => r_ClientId r = cid) queued) else []) /\
  (forall rs c', px_Tick rpc range_waiting now c = OK rs c' ->
   exists errs, rs = taken (px_waiting c) queued ++ errs /\ Forall (fun r => r_Status r = RError) errs /\
     px_rq c' = None /\ px_recoverClients c' = false /\
     forall cid, cid ∈ px_waiting c -> cid ∈ px_waiting c' \/ cid ∈ ids_of rs).
Proof.
  intros queued. split.
  - intros Hr. exists (taken (px_waiting c) queued). split_and!; [exact (px_Tick_plain rpc range_waiting now c Hr)|apply taken_sublist|].
    intros cid. apply taken_of.
  - intros rs c' Ht. destruct (px_Tick_spec _ _ _ _ _ _ Ht) as (errs & E1 & E2 & E3 & E4 & E5 & _).
    exists errs. split_and!; [done|done|done|done|]. intros cid Hw. fold queued in E1, E4. rewrite E4, E1, ids_of_app.
    destruct (decide (cid ∈ ids_of errs)); [set_solver|]. destruct (decide (cid ∈ ids_of queued)) as [Hq|Hq]; [|set_solver].
    right. apply elem_of_union_l. by apply taken_answers.
Qed.
End proxy_tick.

Definition queued_resv (cid : ClientID) (st : ReservationStatus) : Reservation := mkReservation "r" cid 0 st 0 None None.
Definition waiting_client : Client :=
  mkProxy "p" (Some [queued_resv "a" Matched; queued_resv "x" Timeout; queued_resv "a" Timeout]) {[ "a"%string; "b"%string ]} false
    (demo_node demo).
Lemma proxy_tick_answers_witness :
  exists rs, px_Tick (H:=node_ReplicatedJsm (N:=solo localJSM) (H:=demo_raft) demo_clock) direct elements 20 waiting_client =
      OK rs (set_rq None (set_waiting (px_waiting waiting_client ∖ ids_of (default [] (px_rq waiting_client))) waiting_client)) /\
    filter (fun r => r_ClientId r = "a"%string) rs = [queued_resv "a" Matched].
Proof.
  destruct (proxy_tick_answers (H:=node_ReplicatedJsm (N:=solo localJSM) (H:=demo_raft) demo_clock) direct elements 20 waiting_client)
    as [Hp _]. destruct (Hp eq_refl) as (rs & H1 & _ & H2). exists rs. split; [exact H1|]. rewrite (H2 "a"%string). vm_compute. reflexivity.
Defined.

(** * The controller *)

(** C22: whatever streams are opened, cancelled and broken and
    whatever the ticks bring, no goroutine of the controller or of a stream sends on a
    closed channel, closes one twice or reads a missing answer; a proxy is served by at
    most one stream; and the controller waits only for a stream that is sending to the
    network or that wants to leave. *)
Theorem controller_never_panics s :
  reachable_sys s ->
  panicked s = false /\
  (forall ch ch' pid a a', handlers s !! ch = Some (mkHandler pid a) -> handlers s !! ch' = Some (mkHandler pid a') ->
     registered a -> registered a' -> ch = ch') /\
  (forall ch m p, sending (ctl s) = Some (ch, m, p) ->
     exists pid a, handlers s !! ch = Some (mkHandler pid a) /\
       ((exists b, step s (goto p (move ch pid b s))) \/ (exists rs, a = PSend rs) \/ (exists res, a = PLeave res))) /\
  (forall ch p, closing (ctl s) = Some (ch, p) -> step s (goto p (close_ch ch s))).
Proof.
  intros Hr. pose proof (reachable_ok s Hr) as Hs. split_and!.
  - apply Hs.
  - intros ch ch' pid a a' H1 H2 Ha Ha'.
    assert (forall x y, handlers s !! x = Some (mkHandler pid y) -> registered y -> connProxies s !! pid = Some x) as Hc.
    { intros x y Hx Hy. pose proof (so_handlers _ Hs _ _ Hx) as Ho. unfold handler_ok in Ho. simpl in Ho.
      destruct y; try done; apply Ho. }
    pose proof (Hc _ _ H1 Ha). pose proof (Hc _ _ H2 Ha'). congruence.
  - intros ch m p. by apply send_progress.
  - intros ch p Hcl. by apply step_close; [|apply (step_ok_close s ch p)].
Qed.

(** A stream that joined: the controller is back in its loop. *)
Definition joined : sys :=
  goto CSelect (move 1 "p" PRange (on_join "p" 1 (move 1 "p" PAwait (move 1 "p" PJoin NewReservationsController)))).
Lemma joined_reachable : reachable_sys joined.
Proof.
  eapply rtc_l; [by apply (step_open _ "p" 1)|].
  eapply rtc_l; [by apply (step_join _ "p" 1)|].
  eapply rtc_l; [|apply rtc_refl].
  by apply (step_send _ 1 (mkProxyResp RJoin [] None) CSelect "p" PAwait PRange false).
Qed.

Lemma controller_never_panics_witness : panicked joined = false.
Proof. apply (controller_never_panics joined joined_reachable). Defined.

(** a tick of the controller sends every connected proxy one
    message on its own channel, with exactly its reservations, or an empty one when it
    has none, and sends nothing to anybody else, in whatever order the maps are ranged
    over. *)
Theorem tick_reaches_every_proxy s g o1 o2 :
  reachable_sys s -> o1 ≡ₚ (map_to_list g).*1 -> o2 ≡ₚ (map_to_list (connProxies s)).*1 ->
  (forall pid ch, connProxies s !! pid = Some ch ->
     filter (fun x => x.1 = ch) (tick_sends (connProxies s) g o1 o2) =
       [(ch, mkProxyResp RReservation (default [] (g !! pid)) None)]) /\
  (forall ch m, (ch, m) ∈ tick_sends (connProxies s) g o1 o2 -> exists pid, connProxies s !! pid = Some ch).
Proof.
  intros Hr H1 H2. pose proof (reachable_ok s Hr) as Hs. split.
  - intros pid ch Hp. by apply tick_fans_out.
  - intros ch m Hin. by destruct (tick_sends_conn _ _ _ _ _ Hin) as (_ & _ & pid & Hp); exists pid.
Qed.

Lemma tick_reaches_every_proxy_witness :
  filter (fun x => x.1 = 1%positive) (tick_sends (connProxies joined) ∅ [] ["p"%string]) =
    [(1%positive, mkProxyResp RReservation [] None)].
Proof.
  destruct (tick_reaches_every_proxy joined ∅ [] ["p"%string] joined_reachable) as [Ht _];
    [vm_compute; reflexivity|vm_compute; reflexivity|]. exact (Ht "p"%string 1%positive eq_refl).
Defined.

(** C39: the controller can wait for ever.  A stream whose context is
    done when a message arrives asks to leave; if the ticker fires before that request is
    taken, the controller sends to a stream that no longer receives, and the stream waits
    for the controller: from there on no proxy gets anything, whatever happens. *)
Theorem controller_can_block :
  exists s ch, reachable_sys s /\ blocked s ch /\
    forall s', steps s s' -> ctl s' = ctl s /\ blocked s' ch.
Proof.
  set (m := mkProxyResp RReservation [] None).
  set (s1 := on_tick ∅ [] ["p"%string] joined).
  set (s2 := goto CSelect (move 1 "p" (PLeave (Some ResultCode_Canceled)) s1)).
  set (s3 := on_tick ∅ [] ["p"%string] s2).
  assert (reachable_sys s3) as Hr.
  { etransitivity; [apply joined_reachable|].
    eapply rtc_l; [by apply (step_tick joined ∅ [] ["p"%string])|].
    eapply rtc_l; [by apply (step_send s1 1 m CSelect "p" PRange (PLeave (Some ResultCode_Canceled)) true)|].
    eapply rtc_l; [by apply (step_tick s2 ∅ [] ["p"%string])|]. apply rtc_refl. }
  assert (blocked s3 1) as Hb by (by exists m, CSelect, "p"%string, (Some ResultCode_Canceled)).
  exists s3, 1%positive. split_and!; [done|done|]. intros s' Hst. apply blocked_forever; [by apply reachable_ok|done|done].
Qed.

(** * Membership *)
Section membership.
Context {N : Type} `{RaftMembership N}.

(** C29: on every raft library that adds and removes voters as
    documented, a successful [Join] makes the node a member at its address in place of all
    servers that had its identifier or its address, keeps the others, and leaves a
    configuration that names everything once; joining again finds the node and changes
    nothing; a successful [Leave] removes exactly the node, and a node that is not a
    member is reported as not found; a node that does not lead refuses to add a member,
    which the service reports as a failed precondition. *)
Theorem membership_changes i a (n : N) :
  unique n ->
  match Join i a n with
  | OK _ n' => cfg n' ≡ₚ mkRaftServer i a :: filter (fun s => ~ (srv_ID s = i \/ srv_Address s = a)) (cfg n) /\ unique n' /\
      (raft_GetConfiguration n' = OK (cfg n') n' -> Join i a n' = OK tt n')
  | ERR _ _ => True
  | _ => False
  end /\
  match Leave i n with
  | OK _ n' => (i ∈ srv_ID <$> cfg n) /\ cfg n' ≡ₚ filter (fun s => srv_ID s <> i) (cfg n)
  | ERR ErrNodeNotFound n' => (i ∉ srv_ID <$> cfg n) /\ n' = n
  | ERR _ _ => True
  | _ => False
  end /\
  (raft_State n <> Leader -> raft_GetConfiguration n = OK (cfg n) n -> mkRaftServer i a ∉ cfg n ->
   cluster_Join i a n = ERR (ResultCode_FailedPrecondition, ErrNotRaftLeader) n).
Proof.
  intros Hu. split_and!.
  - pose proof (Join_spec i a n Hu) as Hj. destruct (Join i a n) as [[] n'|e n'| |] eqn:E; try done.
    pose proof (Join_unique i a n n' Hu E) as Hu'. split_and!; [done|done|]. intros Hc.
    apply Join_again; [done|done|]. rewrite Hj. left.
  - apply Leave_spec.
  - intros Hf Hc Hni. unfold cluster_Join, reply_status. by rewrite (Join_follower i a n (cfg n)).
Qed.
End membership.

(** Node [n] moves to the address of another server. *)
Lemma membership_changes_witness :
  let n0 := mkSolo NewJSM Leader [mkRaftServer "n" "x:1"; mkRaftServer "m" "y:1"; mkRaftServer "k" "z:1"] in
  let ops := localJSM_ops no_yaml any_order in
  match Join (H:=solo_node (H:=ops)) "n" "y:1" n0 with
  | OK _ n' => so_cfg n' ≡ₚ [mkRaftServer "n" "y:1"; mkRaftServer "k" "z:1"]
  | _ => False
  end.
Proof.
  intros n0 ops. destruct (membership_changes (H0:=solo_membership (H:=ops)) "n" "y:1" n0) as [Hj _].
  - split; vm_compute; repeat constructor; set_solver.
  - exact (proj1 Hj).
Defined.
