(* ===== verification/ClusterFront.v ===== *)
(** The front end in a cluster: the listener, the loop of the processor and the connections
    ([src/beanstalkd/proto], [src/beanstalkd/core]) on a proxy client
    ([src/beanstalkd/proxy]), while the stream and the cluster go on. *)
From stdpp Require Import base gmap list strings relations.
From Stdlib Require Import ZArith Lia.
From S2P Require Import Prelude Job JSM Inv Machine Scenario CmdData Processor ProcSpec LocalJSM ProcWaits LocalWaits ClientURI Store StoreSpec.
From S2P Require Import Raft RaftSpec JSMServer Proxy ProxySpec ProxyTick ProxyWaits Solo Front FrontSpec FrontProps ClusterProps.
Import Cmd.
Local Open Scope Z_scope.

Section cluster_front.
Context (yaml_Marshal : gmap string yvalue -> list Byte.byte + string) (range : gset TubeName -> list TubeName).
Hypothesis range_perm : forall X, range X ≡ₚ elements X.
Let laws : JSMLaws localJSM (H:=localJSM_ops yaml_Marshal range) := localJSM_laws yaml_Marshal range range_perm.
Let waits : JSMWaits localJSM (H0:=laws) := localJSM_waits yaml_Marshal range range_perm.
(** The raft library, the connection, and the clock of the node. *)
Context (N : Type) (raft : RaftNode N) (apply : RaftFSM N localJSM (H0:=localJSM_ops yaml_Marshal range) (H1:=laws)).
Context (rpc : forall A, M Status (node N) A -> M Status (node N) A) (net : Transport rpc).
Context (time_Now : nat -> Z).
Hypothesis clock : forall k, clock_ok (time_Now k).
Context (range_waiting : gset ClientID -> list ClientID).
Hypothesis range_waiting_perm : forall X, range_waiting X ≡ₚ elements X.
Context (yaml_names : list TubeName -> list Byte.byte + string) (maxSecs : Z).

Definition cluster_ops : JSMOps (Client (R:=node N)) := Client_ops (H:=node_ReplicatedJsm time_Now) rpc range_waiting.
Definition cluster_laws : JSMLaws (Client (R:=node N)) (H:=cluster_ops) :=
  Client_laws (H2:=apply) time_Now clock (fun _ h => h) rpc range_waiting.
Definition cluster_waits : JSMWaits (Client (R:=node N)) (H0:=cluster_laws) :=
  Client_waits (H2:=apply) (JSMWaits0:=waits) time_Now clock (fun _ h => h) rpc range_waiting range_waiting_perm.
(** The proxy truncates times to run to 32 bits. *)
Definition short_ttr (req : CmdRequest) : Prop := match rq_cmd req with APut a => 0 <= pa_ttr a < 2 ^ 31 | _ => True end.
Definition cluster_step : front (J:=Client) -> front -> Prop :=
  Front.fstep (H:=cluster_ops) yaml_names range maxSecs short_ttr (proxy_env (H2:=apply)).

Lemma cluster_front_ok p n s :
  node_ok (H2:=apply) n -> rtc cluster_step (Front.NewTcpServer (NewClient p n)) s -> front_ok (H1:=cluster_waits) s.
Proof.
  intros Hn Hst.
  refine (fsteps_ok (H1:=cluster_waits) yaml_names range maxSecs range_perm short_ttr (fun _ h => h) _ _ _ _ Hst _).
  - exact (proxy_env_ok (H2:=apply)).
  - apply (new_ok (H1:=cluster_waits)); [|done]. split; [exact Hn|by apply Forall_nil].
Qed.

End cluster_front.

(** * A client that waits, and gets its answer *)
Abbreviation solo_ops := (cluster_ops (solo localJSM) demo_raft direct demo_clock elements).
Abbreviation solo_step := (cluster_step no_yaml any_order any_order_perm (solo localJSM) demo_raft demo_apply direct demo_clock
  elements (fun _ => inl []) 3600).
Definition a_reserve : CmdRequest := mkCmdRequest "r" "c" ReserveWithTimeout (AResvTimeout 10).
Definition cf_start : front (J:=Client) := Front.NewTcpServer (demo_client NewJSM).
Definition cf_accepted : front (J:=Client) := on_new_client "c" (set_listen LRegister cf_start).
Definition cf_connected : front (J:=Client) := on_registered "c" None (set_run RSelect (set_listen LLoop cf_accepted)).
Definition cf_asking : front (J:=Client) := set_conn "c" (KDispatch a_reserve) cf_connected.
Definition cf_waiting : front (J:=Client) :=
  on_request (H:=solo_ops) (fun _ => inl []) any_order 3600 5 5 a_reserve (set_conn "c" (KAwait a_reserve) cf_asking).
Definition a_job : V1Reservation := mkV1Reservation "r" "c" "p" Matched 7 1 (Some [Byte.x61]) None.
Definition cf_message : front (J:=Client) :=
  set_proc (set_p_jsm (stream_recv a_job (p_jsm (fr_proc cf_waiting))) (fr_proc cf_waiting)) cf_waiting.
Definition cf_replying : front (J:=Client) := on_ticker (H:=solo_ops) 6 cf_message.

Lemma cf_ready : fr_run cf_message = RSelect.
Proof. vm_compute. reflexivity. Qed.
Lemma six_is_a_time : clock_ok 6.
Proof. done. Qed.
Lemma cf_reached : rtc solo_step cf_start cf_replying.
Proof.
  apply (rtc_l _ _ cf_accepted); [by apply (fstep_accept (H:=solo_ops) _ _ _ _ _ _ "c")|].
  apply (rtc_l _ _ cf_connected); [apply (fstep_registered (H:=solo_ops) _ _ _ _ _ _ "c" None); reflexivity|].
  apply (rtc_l _ _ cf_asking); [apply (fstep_command (H:=solo_ops) _ _ _ _ _ _ "c" "r" (mkCmdData ReserveWithTimeout "10" None false) a_reserve);
    [reflexivity|vm_compute; reflexivity|exact I]|].
  apply (rtc_l _ _ cf_waiting); [by apply (fstep_dispatch (H:=solo_ops) _ _ _ _ _ _ "c" a_reserve 5 5)|].
  apply (rtc_l _ _ cf_message); [by apply (fstep_env (H:=solo_ops)), env_message|].
  apply rtc_once. exact (fstep_tick (H:=solo_ops) _ _ _ _ _ cf_message 6 cf_ready six_is_a_time).
Qed.

