(* ===== verification/DeliveryProps.v ===== *)
(** Properties of the way of a reservation from the cluster to a proxy
    ([src/beanstalkd/proxy/client.go], [src/cluster/server]). *)
From stdpp Require Import base gmap list strings relations.
From Stdlib Require Import ZArith Lia.
From S2P Require Import Prelude Job JSM Transitions Inv Waiting Scenario Processor ProcSpec LocalJSM ClientURI Store StoreSpec Replica.
From S2P Require Import Raft JSMServer Proxy ProxySpec ProxyTick Solo Controller ControllerSpec Link LinkSpec Delivery DeliverySpec Forgotten.
Local Open Scope Z_scope.

(** * A run of the composition *)

(** One node that leads, with an empty state machine, and the proxy ["p"]. *)
Section demo.
Definition clock_of (k : nat) : Z := 20 + Z.of_nat (Nat.min k 1000).
Lemma clock_of_ok k : clock_ok (clock_of k).
Proof. unfold clock_ok, clock_of. lia. Qed.
Definition one_node : node (solo localJSM) := mkNode (mkSolo NewJSM Leader [mkRaftServer "n" "10.0.0.1:8081"]) 0.
Definition one_ops : JSMOps localJSM := localJSM_ops no_yaml any_order.
Definition one_repl : ReplicatedJsm (node (solo localJSM)) := node_ReplicatedJsm (H:=solo_node (H:=one_ops)) clock_of.
Local Existing Instance one_repl.
Abbreviation steps_to := (rtc (cstep direct elements "p")).

(** What a call that returns leaves. *)
Definition after_call {E S A} (s : S) (o : outcome E S A) : S := default s (final o).
Lemma after_call_final {E S A} (s : S) (o : outcome E S A) : bool_decide (is_Some (final o)) = true -> final o = Some (after_call s o).
Proof. intros [x Hx]%bool_decide_eq_true. unfold after_call. by rewrite Hx. Qed.

(** The client ["c"] asks for a reservation, another proxy puts a job, and the controller
    ticks, all before the stream of the proxy is open. *)
Definition cl0 : cluster (node (solo localJSM)) := new_cluster "p" one_node.
Definition cl1 : cluster (node (solo localJSM)) := on_link (Open (fun _ => None) ["10.0.0.1:11000"%string] (cl_link cl0)).2 cl0.
Definition reserve_call : M error Client Reservation := px_AppendReservation direct "c" "r" ["t"%string] 20 120.
Definition cl2 : cluster (node (solo localJSM)) := with_client (after_call (cl_client cl1) (reserve_call (cl_client cl1))) cl1.
Definition put_op : OpRequest := OpType_PUT (mkPutRequest 5 0 60 "t" 0 (Some [])).
Definition cl3 : cluster (node (solo localJSM)) :=
  with_server (after_call (cl_server cl2) (performApply put_op as_Put (cl_server cl2))) cl2.
Definition tick_result : gmap string (list V1Reservation) * node (solo localJSM) :=
  match srv_Tick (cl_server cl3) with OK g r => (g, r) | _ => (∅, cl_server cl3) end.
Definition cl4 : cluster (node (solo localJSM)) := on_server_tick "p" tick_result.1 ["p"%string] [] tick_result.2 cl3.
(** Then the stream is opened and joins. *)
Definition cl5 : cluster (node (solo localJSM)) := on_link (link_begin (cl_link cl4)) cl4.
Definition cl6 : cluster (node (solo localJSM)) := on_open "p" 1 cl5.
Definition cl7 : cluster (node (solo localJSM)) := with_sys (on_join "p" 1 (move 1 "p" PAwait (cl_sys cl6))) cl6.
Definition cl8 : cluster (node (solo localJSM)) := with_sys (goto CSelect (move 1 "p" PRange (cl_sys cl7))) cl7.

Lemma cl4_reached : steps_to cl0 cl4.
Proof.
  apply (rtc_l _ _ cl1).
  { right. apply (us_start direct cl0 (Open (fun _ => None) ["10.0.0.1:11000"%string] (cl_link cl0)).2 (fun _ => None)
      ["10.0.0.1:11000"%string]); reflexivity. }
  apply (rtc_l _ _ cl2).
  { right. apply (us_call direct cl1 Reservation reserve_call); [apply jc_Append|]. apply after_call_final. vm_compute. reflexivity. }
  apply (rtc_l _ _ cl3).
  { right. apply (us_other direct cl2 Z put_op as_Put). apply after_call_final. vm_compute. reflexivity. }
  apply rtc_once. left. apply (ts_tick direct elements "p" cl3 tick_result.1 ["p"%string] [] tick_result.2).
  - reflexivity.
  - assert (match srv_Tick (cl_server cl3) with OK _ _ => true | _ => false end = true) as Hok by (vm_compute; reflexivity).
    unfold tick_result. by destruct (srv_Tick (cl_server cl3)).
  - assert ((map_to_list tick_result.1).*1 = ["p"%string]) as -> by (vm_compute; reflexivity). reflexivity.
  - reflexivity.
Qed.

Lemma moved_again (y y' : sys) ch x pid q a b :
  handlers y' = <[ x := mkHandler pid b ]> (handlers y) -> is_Some (handlers y !! x) ->
  handlers y !! ch = None -> handlers y' !! ch <> Some (mkHandler q a).
Proof. intros -> [h Hx] Hn. rewrite lookup_insert_ne; [by rewrite Hn|]. intros ->. congruence. Qed.

Lemma cl8_reached : steps_to cl4 cl8.
Proof.
  apply (rtc_l _ _ cl5).
  { left. apply ts_link; [apply gs_begin; vm_compute; reflexivity|vm_compute; discriminate]. }
  apply (rtc_l _ _ cl6).
  { left. apply ts_open; vm_compute; reflexivity. }
  assert (cl_sys cl6 = move 1 "p" PJoin NewReservationsController) as E6 by (vm_compute; reflexivity).
  assert (cl_sys cl7 = on_join "p" 1 (move 1 "p" PAwait (move 1 "p" PJoin NewReservationsController))) as E7.
  { unfold cl7. cbn [cl_sys with_sys]. by rewrite E6. }
  assert (quiet "p" (cl_stream cl6) (cl_sys cl6) (on_join "p" 1 (move 1 "p" PAwait (cl_sys cl6)))) as Hj.
  { rewrite E6. split_and!.
    - by apply (step_join _ "p" 1).
    - vm_compute. discriminate.
    - intros ch a Hn. by eapply (moved_again _ _ ch 1 "p"); [reflexivity|eexists; reflexivity|].
    - intros ch _. by right. }
  assert (quiet "p" (cl_stream cl7) (cl_sys cl7) (goto CSelect (move 1 "p" PRange (cl_sys cl7)))) as Ha.
  { rewrite E7. split_and!.
    - by apply (step_send _ 1 (mkProxyResp RJoin [] None) CSelect "p" PAwait PRange false).
    - by intros _ l.
    - intros ch a Hn. by eapply (moved_again _ _ ch 1 "p"); [reflexivity|eexists; reflexivity|].
    - intros ch _. by right. }
  apply (rtc_l _ _ cl7); [left; exact (ts_move direct elements "p" cl6 _ Hj)|].
  apply rtc_once. left. exact (ts_move direct elements "p" cl7 _ Ha).
Qed.

(** Another client does the same while the stream is open. *)
Definition reserve_call' : M error Client Reservation := px_AppendReservation direct "d" "r" ["t"%string] 20 120.
Definition cl9 : cluster (node (solo localJSM)) := with_client (after_call (cl_client cl8) (reserve_call' (cl_client cl8))) cl8.
Definition cl10 : cluster (node (solo localJSM)) :=
  with_server (after_call (cl_server cl9) (performApply put_op as_Put (cl_server cl9))) cl9.
Definition tick_result' : gmap string (list V1Reservation) * node (solo localJSM) :=
  match srv_Tick (cl_server cl10) with OK g r => (g, r) | _ => (∅, cl_server cl10) end.
Definition cl11 : cluster (node (solo localJSM)) := on_server_tick "p" tick_result'.1 ["p"%string] ["p"%string] tick_result'.2 cl10.
Lemma cl11_reached : steps_to cl8 cl11.
Proof.
  apply (rtc_l _ _ cl9).
  { right. apply (us_call direct cl8 Reservation reserve_call'); [apply jc_Append|]. apply after_call_final. vm_compute. reflexivity. }
  apply (rtc_l _ _ cl10).
  { right. apply (us_other direct cl9 Z put_op as_Put). apply after_call_final. vm_compute. reflexivity. }
  apply rtc_once. left. apply (ts_tick direct elements "p" cl10 tick_result'.1 ["p"%string] ["p"%string] tick_result'.2).
  - vm_compute. reflexivity.
  - assert (match srv_Tick (cl_server cl10) with OK _ _ => true | _ => false end = true) as Hok by (vm_compute; reflexivity).
    unfold tick_result'. by destruct (srv_Tick (cl_server cl10)).
  - assert ((map_to_list tick_result'.1).*1 = ["p"%string]) as -> by (vm_compute; reflexivity). reflexivity.
  - assert ((map_to_list (connProxies (cl_sys cl10))).*1 = ["p"%string]) as -> by (vm_compute; reflexivity). reflexivity.
Qed.
Lemma cl11_reached_from_start : steps_to cl0 cl11.
Proof. etransitivity; [apply cl4_reached|]. etransitivity; [apply cl8_reached|apply cl11_reached]. Qed.
End demo.

(** * The stream *)
Section stream_props.
Context {R : Type} `{ReplicatedJsm R}.
Context (rpc : forall A, M Status R A -> M Status R A) (range_waiting : gset ClientID -> list ClientID) (p : string).

End stream_props.


(** * Ending *)
Section end_props.
Context {R : Type}.

(** C25: after [Close] the goroutine that streams the reservations
    comes to an end.  However it is interleaved with arriving messages, the calls of the
    processor and [Close] itself, once [Close] has returned it makes at most six steps and
    two for every message that had arrived, the next one is always possible until it has
    ended, and it does not start again. *)
Theorem closing_ends_the_stream (c : Client (R:=R)) n m l l' :
  runs n (new_link c) l -> lk_close l = KClosed -> runs m l l' ->
  (m <= 6 + 2 * length (lk_buf l))%nat /\
  (lk_pos l = LIdle -> lk_pos l' = LIdle) /\
  (lk_pos l' = LIdle \/ lk_pos l' = LEnded \/ exists l2, gstep l' l2).
Proof.
  intros Hr Hk Hm. assert (link_wf (new_link c)) as Hw by (split; [done|]; simpl; discriminate).
  pose proof (runs_wf _ _ _ Hr Hw) as [Hw1 Hw2]. assert (link_closed l) as Hc by (split; [done|by apply Hw2]).
  destruct (runs_closed _ _ _ Hm Hc) as [_ Hle]. split_and!.
  - etransitivity; [|apply (steps_left_bound l)]. lia.
  - intros Hi. by apply (runs_idle _ _ _ Hm).
  - destruct (decide (lk_pos l' = LEnded)); [by right; left|].
    assert (lk_pos l' = LIdle \/ lk_pos l' <> LIdle) as [Hi|Hi] by (destruct (lk_pos l'); by auto); [by left|].
    right. right. by apply gstep_progress.
Qed.
End end_props.


(** A stream with a message, and then [Close]: the goroutine drops the message, tries again
    and ends. *)
Definition link0 : link (node (solo localJSM)) := new_link (NewClient "p" one_node).
Definition a_message : V1Reservation := mkV1Reservation "r" "c" "p" Timeout 0 0 None None.
Definition link1 : link (node (solo localJSM)) :=
  set_buf [a_message] (link_opened (link_begin (Open (fun _ => None) ["10.0.0.1:11000"%string] link0).2)).
Definition link2 : link (node (solo localJSM)) := close_conn (close_signal link1).
Definition link3 : link (node (solo localJSM)) :=
  link_return (LStatus ResultCode_Canceled) (link_fails ResultCode_Canceled (link_begin
    (link_return LCtxErr (link_select a_message (link_recv a_message [] link2))))).
Lemma link2_run : runs 2 link0 link2.
Proof.
  eapply runs_estep; [by apply (es_open _ _ (fun _ => None) ["10.0.0.1:11000"%string])|].
  eapply runs_gstep; [by apply gs_begin|]. eapply runs_gstep; [by apply gs_opened|].
  eapply runs_estep; [by apply (es_arrive _ a_message)|]. eapply runs_estep; [by apply es_signal|].
  eapply runs_estep; [by apply es_close|]. apply runs_refl.
Qed.
Lemma link3_run : runs 6 link2 link3.
Proof.
  eapply runs_gstep; [by apply (gs_recv _ a_message [])|]. eapply runs_gstep; [by apply gs_select|].
  eapply runs_gstep; [by apply gs_return|]. eapply runs_gstep; [by apply gs_begin|].
  eapply runs_gstep; [by apply (gs_call_fails _ ResultCode_Canceled)|]. eapply runs_gstep; [by apply gs_return|]. apply runs_refl.
Qed.
Lemma closing_ends_the_stream_witness :
  (6 <= 6 + 2 * length (lk_buf link2))%nat /\ lk_pos link3 = LEnded.
Proof.
  split; [|reflexivity].
  apply (closing_ends_the_stream (NewClient "p" one_node) 2 6 link2 link3 link2_run eq_refl link3_run).
Defined.

(** * Reservations that are lost *)

(** The state machine of the run is that of a replica. *)
Definition cl8_log : list (Z * OpRequest) :=
  [(20, OpType_RESERVE (mkReserveRequest "c" "r" 100 ["t"%string] "p")); (21, put_op); (22, OpType_TICK)]%Z.
Lemma cl8_replica : replica_ok (jsm_of (cl_client cl8)).
Proof.
  assert (Forall (fun e => op_ok e.1 e.2) cl8_log) as Hl.
  { repeat constructor; simpl; try (by intros ?%elem_of_nil); unfold clock_ok, ttr_ok; lia. }
  destruct (replica_replay no_yaml any_order any_order_perm cl8_log NewJSM replica_new Hl) as (rs & s & E & Hs & _).
  assert (match replay (H:=one_ops) cl8_log NewJSM with OK _ s => Some s | _ => None end = Some (jsm_of (cl_client cl8))) as Hx
    by (vm_compute; reflexivity).
  unfold one_ops in Hx. rewrite E in Hx. rewrite <- (inj Some _ _ Hx). exact Hs.
Qed.
Lemma cl8_forgotten : rtc (cstep (H:=one_repl) direct elements "p") cl0 cl8 -> forgotten "p" "c" cl8.
Proof.
  intros Hr. split.
  - exact (csteps_ok _ _ _ _ _ Hr (cluster_ok_new "p" one_node)).
  - apply (bool_decide_eq_true_1 ("c"%string ∈ px_waiting (cl_client cl8))). vm_compute. reflexivity.
  - vm_compute. reflexivity.
  - vm_compute. reflexivity.
  - exact cl8_replica.
  - assert (waiting_requests (jsm_of (cl_client cl8)) = []) as -> by (vm_compute; reflexivity). apply not_elem_of_nil.
  - assert (cl_queue cl8 = []) as -> by (vm_compute; reflexivity). apply not_elem_of_empty.
  - intros _. assert (due cl8 = []) as -> by (vm_compute; reflexivity). apply not_elem_of_empty.
Qed.

