(* ===== verification/NodeProps.v ===== *)
(** Properties of starting a cluster node ([src/cluster/cmd/cmd_cluster.go]). *)
From stdpp Require Import base gmap list strings.
From Stdlib Require Import ZArith Lia.
From S2P Require Import Prelude Job JSM LocalJSM ClientURI Processor Store Raft RaftSpec Solo ClusterCmd ClusterCmdSpec Node NodeSpec.
Local Open Scope Z_scope.

Section entering.
Context {N : Type} `{RaftMembership N}.
Implicit Types w : gmap string N.

End entering.

Section attempts.
Context {W : Type} `{PeersReturn W}.


(** a failed join is reported as success: when the first peer
    answers with any status but "unavailable" and "not the leader", such as a timeout,
    [JoinCluster] returns without an error although the node did not join. *)
Theorem join_failure_is_success c addr w w1 code msg fuel :
  grpc_Dial [addr] w = OK tt w -> rpc_Join [addr] (NodeId c) (RaftListenAddr c) w = ERR (EStatus code msg) w1 ->
  code <> ResultCode_Unavailable -> (code, msg) <> (ResultCode_FailedPrecondition, TStore ErrNotRaftLeader) ->
  JoinCluster (S fuel) c [addr] w = OK tt w1.
Proof.
  intros Hd Hj Hu Hl. unfold JoinCluster. cbn [dial_all]. unfold NewClusterNodeClient, wrapped, bind, ret. rewrite Hd.
  cbn [join_attempts]. assert ((0 <? MaxClusterJoinAttempts c) && (MaxClusterJoinAttempts c <=? 0) = false) as -> by lia.
  unfold bind. cbn [join_round]. unfold client_JoinCluster, try, wrapped, bind. cbn [HostAddrs]. rewrite Hj.
  destruct code; try done. destruct msg as [[e| |e|]|]; done.
Qed.
End attempts.

Section life_props.
Context {N : Type} `{RaftMembership N}.
Implicit Types w : gmap string N.


(** The watch of the health service goes on after its client is gone: errors of the stream
    are ignored, and nothing but the shutdown signal, which no code sends, ends it. *)
Theorem watch_outlives_its_client (ready : option (N -> bool)) (ticks : list (N * bool)) :
  Watch ready ((fun t => WTick t.1 t.2) <$> ticks) = ((fun t => Check ready t.1) <$> ticks, false).
Proof. apply Watch_never_returns. Qed.

(** The counts and times of the configuration reach the store unchanged precisely when they
    are in range: a negative count becomes a huge one, and a time of more than 9223372036
    seconds overflows. *)
Theorem store_config_exact c :
  (cfg_SnapshotThreshold (store_config c) = SnapshotThreshold c /\ TrailingLogs (store_config c) = TrailingLogCount c <->
   in_u64 (SnapshotThreshold c) /\ in_u64 (TrailingLogCount c)) /\
  (RaftTimeout (store_config c) = RaftTimeoutSecs c * 1000000000 <-> - 9223372036 <= RaftTimeoutSecs c <= 9223372036) /\
  (RestoreTimeout (store_config c) = RestoreTimeoutSecs c * 1000000000 <-> - 9223372036 <= RestoreTimeoutSecs c <= 9223372036).
Proof. simpl. rewrite !count_exact. split_and!; [done|apply seconds_exact..]. Qed.
End life_props.

(** * A small cluster *)
Abbreviation node1 := (solo localJSM).
Definition demo_ops : JSMOps localJSM := localJSM_ops no_yaml any_order.
Definition demo_nodes : gmap string node1 :=
  {[ "b:1"%string := mkSolo NewJSM Follower []; "c:1"%string := mkSolo NewJSM Leader [mkRaftServer "n3" "c:2"] ]}.
Definition demo_config : ClusterNodeConfig := 
  mkClusterNodeConfig "n1" "a:1" "/data" "a:1,b:1,c:1" "n9" 10 5 1 "a:2" "" 30 3 false false 60 3 8192 10240 120 "".


(** A peer that never answers in time. *)
Definition slow_peers : Peers unit := {|
  grpc_Dial _ w := OK tt w;
  rpc_Join _ _ _ w := ERR (EStatus ResultCode_DeadlineExceeded (TText "context deadline exceeded")) w;
  rpc_Leave _ _ w := ERR (EStatus ResultCode_DeadlineExceeded (TText "context deadline exceeded")) w;
  rpc_IsNodeLeader _ w := ERR (EStatus ResultCode_DeadlineExceeded (TText "context deadline exceeded")) w;
  sleep w := OK tt w
|}.
Definition slow_return : @PeersReturn unit slow_peers.
Proof. by split. Defined.


Lemma join_failure_is_success_witness : JoinCluster (H:=slow_peers) 1 demo_config ["a:1"%string] tt = OK tt tt.
Proof.
  apply (join_failure_is_success (H:=slow_peers) demo_config "a:1" tt tt ResultCode_DeadlineExceeded
    (TText "context deadline exceeded") 0); [reflexivity|reflexivity|discriminate|discriminate].
Defined.

