(* ===== verification/ProcessProps.v ===== *)
(** Properties of the processes ([src/main.go], [src/cluster/cmd], [src/beanstalkd/cmd]). *)
From stdpp Require Import base gmap list strings relations.
From Stdlib Require Import ZArith Lia.
From S2P Require Import Prelude Job CmdData ClientURI Processor Store Raft ClusterCmd ClusterCmdSpec Node NodeSpec Process.
Local Open Scope Z_scope.

(** ** Stopping [beanstalkd] *)


(** The port is taken, and then the process is told to stop. *)
Definition stuck_process : process := mkProcess (BReturned (Some "address in use"%string)) ASend 1.
Lemma stuck_reached : rtc pstep RunBeanstalkd stuck_process.
Proof.
  eapply rtc_l; [apply p_begin|]. eapply rtc_l; [apply p_setup_fails|]. eapply rtc_l; [apply p_signal|]. apply rtc_refl.
Qed.

(** ** Exit codes *)
Section exit_codes.
Context {N : Type} `{RaftNode N}.
Definition silent : Console (gmap string N) := {| fmt_Printf _ w := w; log_SetLevel _ w := w |}.

(** [cluster-client is_leader] succeeds exactly when a node at the address leads, and exits
    with code 1 when nobody answers there or the node does not lead. *)
Theorem is_leader_exit_code h t (w : gmap string N) :
  cmdLeader (H2:=silent) h t w =
    match raft_State <$> w !! h with Some Leader => OK tt w | _ => ERR 1 w end.
Proof.
  unfold cmdLeader, fatal_call, NewClusterNodeClient, client_IsNodeLeader, wrapped, bind, ret, modify. simpl. unfold on_node.
  destruct (w !! h) as [n|] eqn:E; [|done]. simpl. unfold cluster_IsNodeLeader, IsLeader. rewrite (insert_id w h n E).
  by destruct (raft_State n).
Qed.
End exit_codes.

(** A word that is no command ends the process with code 1. *)
Theorem unknown_command_exits {O} `{Docopt O} {W} `{Peers W} `{Platform W} `{Console W} boot fuel e run c args (w : W) :
  (c ∉ ["cluster-node"; "beanstalkd"; "cluster-client"]%string) -> RunCommand boot fuel e run c args w = ERR 1 w.
Proof.
  intros Hc. rewrite !elem_of_cons in Hc. unfold RunCommand.
  rewrite !(proj2 (String.eqb_neq _ _)) by naive_solver. done.
Qed.
