(* ===== verification/Defects.v ===== *)
(** Where the code departs from what it means to do: each theorem exhibits a
    reachable state and the calls that go wrong, or states when they do. *)
From stdpp Require Import base gmap list strings.
From Stdlib Require Import ZArith Lia.
From S2P Require Import Prelude GoHeap Job JobHeap ClientResv Index JSM Heaps JobInv.
From S2P Require Import Transitions Commands CliInv Clients Reserve Inv Tick Refine Machine.
From S2P Require Import Scenario Snapshot SnapshotProps.
Local Open Scope Z_scope.

(** C36: deleting a buried job leaks its heap entry: whenever a client deletes a buried
    job, the job leaves the table but the buried heap of its tube still holds an entry
    for it, now in state Deleted. *)
Theorem buried_delete_leaks s jid j cid :
  reachable s -> abs s !! jid = Some j -> state j = Buried ->
  exists s' er j', Delete jid cid s = OK tt s' /\ abs s' !! jid = None /\
    er ∈ entries (heaps s' (HBuried (tubeName j))) /\ entry_job (mem s') er = Some j' /\
    id j' = jid /\ state j' = Deleted.
Proof.
  intros Hr%reachable_inv Ha Hst. pose proof (inv_jobs _ Hr) as HI.
  pose proof (Delete_spec s jid cid HI) as HD. rewrite Ha in HD. unfold may_delete in HD. rewrite Hst in HD. simpl in HD.
  destruct HD as (s' & Hop & [_ D2 _ _]).
  destruct (abs_entry s jid j HI Ha) as ([jr oe] & er & Hie & Hj & Her & Hid & Hl & Hej & Hin). simpl in *. subst oe.
  assert (key_of j = HBuried (tubeName j)) as Hk by (unfold key_of; by rewrite Hst). rewrite Hk in Hin.
  set (s0 := set_jobs (mkJobIndex (delete jid (jm (jobs s))) (ji_maxJobID (jobs s))) (bump nCmdDelete s)).
  set (j' := UpdateReservedBy "" (UpdateState Deleted j)).
  assert (Delete jid cid s = OK tt (put_job jr j' s0)) as Hrun.
  { unfold Delete. rewrite run_incr, (bind_OK _ _ _ _ _ (jobs_Get_OK (bump nCmdDelete s) _ _ Hie)). cbn [ie_job].
    rewrite (run_load _ _ (bump nCmdDelete s) j Hj), Hst, bool_decide_eq_false_2 by done. cbn [andb].
    rewrite (bind_OK _ _ _ (mkIndexEntry jr (Some er), jobs s0) (bump nCmdDelete s)).
    2: { unfold lift, JobIdx.Remove. change (jobs (bump nCmdDelete s)) with (jobs s). by rewrite Hie. }
    cbn [fst snd]. rewrite (bind_OK (modify (set_jobs (jobs s0))) _ _ tt s0) by done.
    cbv zeta. cbn [ie_job]. rewrite (run_load _ _ s0 j Hj), Hst. cbv iota.
    rewrite (bind_OK (ret tt) _ s0 tt s0 eq_refl). rewrite (run_update _ _ _ s0 j Hj). apply run_update_last. }
  rewrite Hrun in Hop. injection Hop as <-. exists (put_job jr j' s0), er, j'.
  split_and!; [done|by rewrite D2, lookup_delete_eq|exact Hin| | |].
  - unfold entry_job in *. change (ments (mem (put_job jr j' s0))) with (ments (mem s)).
    destruct (ji_idx _ _ _ HI _ _ Hie) as (j0 & er0 & e & _ & _ & _ & E1 & He & Hje & _). simpl in *.
    injection E1 as <-. rewrite He. simpl. rewrite Hje. apply lookup_insert_eq.
  - unfold j'. rewrite <- Hid. by destruct j as [[] ? ? ? ? ? ? ? ? ? []].
  - unfold j'. by destruct j as [[] ? ? ? ? ? ? ? ? ? []].
Qed.

Lemma demo_job_2 : state <$> abs demo !! 2 = Some Buried.
Proof. vm_compute. reflexivity. Qed.

Lemma buried_delete_leaks_witness :
  exists s' er j', Delete 2 "x" demo = OK tt s' /\ abs s' !! 2 = None /\ entry_job (mem s') er = Some j' /\ state j' = Deleted.
Proof.
  pose proof demo_job_2 as E. destruct (abs demo !! 2) as [j|] eqn:Ha; [|discriminate E]. injection E as E.
  destruct (buried_delete_leaks demo 2 j "x" (after_reachable _) Ha E) as (s' & er & j' & H1 & H2 & _ & H3 & _ & H4).
  exists s', er, j'. repeat split; assumption.
Defined.

(** ** Observations of runs *)
Definition job_state {A} (o : outcome error localJSM A) (jid : JobID) : option JobState :=
  match o with OK _ s => state <$> abs s !! jid | _ => None end.
(** [f] on the state a snapshot of [s] restores into a new machine. *)
Definition on_restored {B} (s : localJSM) (f : localJSM -> option B) : option B :=
  match RestoreSnapshotTo None None (NewSnapshotFrom (all_jobs s) s) NewJSM with OK s' _ => f s' | _ => None end.
Definition result {A} (o : outcome error localJSM A) : option A := match o with OK a _ => Some a | _ => None end.
Definition job_ids (o : outcome error localJSM (list Reservation)) : option (list JobID) :=
  match o with OK rs _ => Some (r_JobId <$> rs) | _ => None end.


(** Two jobs are put and the second is deleted. *)
Definition reuse_demo : localJSM := after [put 10 5 0 60; put 11 3 0 60; KCmd (CDelete 2 "a")].

(** restored replicas diverge on identifiers: after the job with the greatest
    identifier was deleted, the next [Put] returns a new identifier on the machine that
    ran the commands, and reuses the deleted one on a machine restored from its
    snapshot. *)
Theorem restore_reuses_identifiers :
  reachable reuse_demo /\
  result (Put 20 1 0 60 0 None "t" reuse_demo) = Some 3 /\
  on_restored reuse_demo (fun s' => result (Put 20 1 0 60 0 None "t" s')) = Some 2.
Proof. split; [apply after_reachable|]. split; vm_compute; reflexivity. Qed.

(** One client watches two tubes; a job is put into each. *)
Definition two_tubes : localJSM :=
  after [KAppend "a" "r" ["t"; "u"]%string 10 100; KCmd (CPut 11 5 0 60 0 None "t"); KCmd (CPut 12 5 0 60 0 None "u")].

(** [Tick] depends on the order in which the runtime ranges over the map of tubes:
    from the same reachable state two orders, both legal, match the waiting client with
    different jobs, so replicas that apply the same log entry may disagree. *)
Theorem tick_order_matters :
  reachable two_tubes /\
  ranges ["t"; "u"]%string ["t"; "u"]%string 20 two_tubes /\ ranges ["u"; "t"]%string ["u"; "t"]%string 20 two_tubes /\
  job_ids (Tick ["t"; "u"]%string ["t"; "u"]%string 20 two_tubes) = Some [1] /\
  job_ids (Tick ["u"; "t"]%string ["u"; "t"]%string 20 two_tubes) = Some [2].
Proof.
  split_and!; [apply after_reachable| | |vm_compute; reflexivity..].
  - apply (bool_decide_eq_true_1 (ranges ["t"; "u"]%string ["t"; "u"]%string 20 two_tubes)). vm_compute. reflexivity.
  - apply (bool_decide_eq_true_1 (ranges ["u"; "t"]%string ["u"; "t"]%string 20 two_tubes)). vm_compute. reflexivity.
Qed.
